(* ===== verification/_CoqProject ===== *)
-Q . S2P
Prelude.v
GoLib.v
Text.v
Json.v
Store.v
Sweeper.v
StoreConc.v
StoreProgress.v
HashRing.v
Sketch.v
Mitigator.v
L1Cache.v
Chaos.v
Replication.v
Registry.v
Gossip.v
Membership.v
Swim.v
SwimInv.v
SwimAcks.v
SwimProps.v
Server.v
Codec.v
ClusterProps.v
Rpc.v
Packets.v
Http.v
Node.v
Client.v
HotPath.v
Isolation.v
Tools.v
Config.v
Main.v
LoadTest.v
