(* ===== verification/Prelude.v ===== *)
(** * A verification of the distributed cache

    The program (src/) is a sharded in-memory key-value cache in Go whose nodes
    find each other by gossip, place keys on a consistent hash ring and replicate
    writes asynchronously.  This library models the code of each part and proves
    the properties that make it correct, or, where the code does otherwise, what
    it does instead.

    ** The parts and how they interact

    A client request reaches the gRPC server of some node (internal/server).  The
    server asks the replication manager (internal/cluster/replication.go) whether
    the node holds the key, which asks the ring (internal/hashing); if not, it
    forwards the request to the primary.  The local part works on the sharded
    store (internal/store/store.go), which a sweeper (internal/store/ttl.go)
    cleans, and, for hot keys, on the sketch and the mitigator (internal/hotkey).
    A write at the primary starts one goroutine per secondary.  The membership
    component (internal/cluster/membership.go, node.go) tells the node who is
    alive, and the fault injector (internal/chaos) can make requests fail or
    gossip be dropped.  Clients may keep hot values in an LRU cache
    (client/l1cache.go).

    ** Files, in dependency order

    - [Prelude]: this documentation; machine integers ([u64], [i64], ...), lists
      of maps, index loops, the hint database [cache].
    - [GoLib]: what the code uses of Go's library: FNV hashes, [time], float64 as
      IEEE binary64 ([SpecFloat]), [sort.Search], [sort.Slice] as the class
      [SortSlice] (any sort that permutes and sorts; Go's is not stable), the
      order of a [range] over a map ([is_range]).
    - [Text], [Json]: the bytes of a message: UTF-8, base64 and decimals, and the
      printer and parser of encoding/json, with their round trips.
    - [Store]: store.go.  [Store] is a list of maps and the mask; [Get], [Set_],
      [Delete], [Expire], [Keys], [Len], [ForEach] and the counters.
    - [Sweeper]: ttl.go.  [sampleAndExpire] is one round, [sweepShard] the loop.
    - [StoreConc], [StoreProgress]: store.go and ttl.go under concurrency: the
      goroutines, the clock and the locks as the executable step [act], the atomic
      map they implement, and what their executions guarantee.
    - [HashRing]: ring.go, all operations, with the bounded-load lookup in
      float64.
    - [Sketch], [Mitigator]: detector.go and mitigator.go.
    - [L1Cache]: client/l1cache.go with its linked list and element map.
    - [Chaos]: faultinjector.go and endpoints.go.
    - [Replication]: replication.go; the goroutines of a write wait in [outbox].
    - [Registry]: node.go; a heap of nodes, because [Membership] and the registry
      share pointers.
    - [Gossip]: the messages and the update queue of membership.go.
    - [Membership]: the handlers of membership.go, one definition each; a handler
      that waits is cut at its [select].
    - [Swim]: the goroutines of a node as the step relation [step].
    - [SwimInv], [SwimAcks], [SwimProps]: the invariant of the steps, which waits
      can be acked, and the properties.
    - [Server]: grpc_server.go; [route] and [local] are the two halves of every
      handler, [handle] follows the forwarding through a cluster, [deliver] runs a
      replication goroutine.
    - [Codec]: codec.go and the messages of messages.go and membership.go; a Go
      type is a [gotype], a struct the list of its fields, and the round trip of
      a struct is composed from those of its fields.
    - [ClusterProps]: the properties of [Server] and [Replication].
    - [Rpc]: service.go and the interceptors of grpc_server.go: the wrappers and
      the descriptor on bytes; [call] is a method of a node called over the wire.
    - [Packets]: the datagrams of membership.go, their sizes and their reception.
    - [Http]: http_server.go and the routes and bodies of endpoints.go.
    - [Node]: the callbacks of cmd/cachenode/main.go, through which the events of
      [Membership] drive the ring and the connections.
    - [Client]: client/client.go, against the class [CacheService] of what it
      calls; the cluster of [Server] is an instance, and [Coherent] is what the
      client relies on.
    - [Config]: config/config.go and the flags of cmd/cachenode/main.go.
    - [Main]: the rest of cmd/cachenode/main.go: how a node is put together, what
      its admin port reaches, how it stops.
    - [HotPath], [Isolation]: what the cluster promises beyond [Coherent]: the
      class [HotSpots] counts the reads of a key up to the threshold, [CoherentOn]
      says that requests for different keys do not disturb each other.
    - [Tools]: cmd/hotkeytest, cmd/client and cmd/pingtest, against these classes.
    - [LoadTest]: cmd/loadtest/main.go, the workers as a step relation.

    ** What the theorems show

    - Storage: any history of commands on the sharded store is the same history
      on one map ([store_refines]); values are found until their deadline
      ([Get_after_Set]); listings and counters are exact; a sweep deletes only
      expired entries and ends.
    - Concurrent storage: however the calls interleave with each other, the sweeper
      and scans, they are those of an atomic map ([store_linearizable]), the
      counters add up ([counters_at_rest]), no call gets stuck
      ([store_calls_complete]) and a scan misses only what changed under it
      ([scan_weakly_consistent]).
    - Placement: the ring holds exactly the virtual nodes of its members
      ([ring_invariant]); replica lists are the clockwise order
      ([GetNodes_replicas]); a member that comes or goes moves only its own keys;
      the ring depends on its members only ([ring_canonical]); the load bound is
      the one the code computes ([GetNode_bounded]), which is not the documented
      one ([bounded_load_not_enforced]).
    - Hot keys: the sketch never underestimates, mitigation writes every shard
      key, a sharded read sees the last write, and mitigation is permanent; from
      the threshold on a client reads a hot key from its own cache
      ([hotkeytest_intercepts]).
    - Client: its cache refines an LRU list ([l1_refines]); it routes as the
      servers do ([client_routes_to_primary]), reads its own writes
      ([client_reads_its_writes]) and never reads values older than the TTL they
      were cached with ([client_staleness_bounded]), which is not that of the key
      ([cached_value_outlives_key]); a client of several keys gets each its own
      value ([client_main_reads_back]).
    - Gossip: every update is sent three times ([disseminated]); what a message
      does to the registry is a fold of [merge] ([gossip_merges]); joining and
      refuting work end to end; in every reachable state a suspected node has its
      timer ([swim_invariant]) and dies unless refuted
      ([suspicion_ends_in_death]); an indirect probe is never answered
      ([ping_req_never_acked]).
    - Cluster: forwarding ends whatever the views of the ring
      ([forwarding_terminates]); a write is read back ([read_your_writes]),
      reaches every replica ([replicas_converge]) and survives a death
      ([failure_rereplicates]); sequence numbers are ignored and short TTLs lost.
    - Node: the ring holds the nodes the registry believes to be up, if the events
      are handled in order ([ring_follows_membership]), which the code does not
      ensure ([events_out_of_order]); a node that starts meets the assumptions of
      the theorems above ([started_node_ready]); a fault injected over HTTP
      reaches RPC and gossip ([chaos_reaches_node]); the shutdown abandons pending
      replication ([shutdown_abandons_replication]).
    - Bytes: every message comes back from the codec ([codec_roundtrip]); a call on
      bytes is the handler on the decoded request, through all hops
      ([rpc_refines_handlers]), so that writes are read back over the wire, and
      keys with invalid UTF-8 collide ([wire_reads_writes]); a transfer streams
      the store ([transfer_streams_store]); gossip messages fit their datagrams
      ([gossip_packets_arrive]) except the reply to a join in a large cluster
      ([join_reply_overflows]).
    - Administration: the metrics page reports exact counts ([metrics_report_run]),
      the health page the uptime ([health_reports_uptime]), the chaos endpoints
      act on JSON as their typed handlers do ([chaos_over_http]).
    - Load test: it ends ([loadtest_terminates]) and its report adds up
      ([loadtest_accounts]), whatever the schedule.

    ** Conventions

    Integers are [Z], with the wrap-around of their Go width written out.  Times
    are nanoseconds; a definition takes the readings of the clock it makes.
    Random choices, visit orders of maps, address resolution, dialling and the
    network are arguments.  [None] stands for a panic where the code can panic
    ([RemoveNode], [GetNodes], [getSecondaries], [emitEvent], ...), for a loop
    that does not end in [NewWithShards].  A type-class argument [SortSlice] makes
    the ring theorems hold for any sorting algorithm.

    Fuel: [round_up] has 64 rounds, enough because an [int] doubles at most 63
    times; [search_loop] has as many rounds as elements; [sample_loop] as many as
    samples; a sweep needs at most one round more than the shard has entries
    ([sweepShard_terminates]); [handle] needs one unit per node of the cluster and
    one more ([forwarding_terminates]), and [call] the same; the JSON parser has
    two rounds per byte and one, more than a value can need ([rounds_print]).

    Concurrency: an operation under one lock is one definition; [Get]'s two
    critical sections are two.  In [StoreConc] a step is a critical section, a
    reading of the clock or an update of a counter, and a section that reads the
    clock twice is two steps under its lock.  In [Swim] a step is what a goroutine does between
    two waits, so data races inside a handler are not modelled; in [LoadTest] it
    is one atomic operation, critical section or call.  [Server], [Client] and
    [Swim] exchange values; [Rpc] and [Packets] show that the bytes on the wire
    carry them.  gRPC calls the handler of the peer or fails; its limit on the
    size of a message is not modelled.

    ** Not modelled

    The tests, the log output, and what only runs a library: the listening and
    stopping of the servers ([CacheServer.Start] and [Stop] past the interceptors,
    [HTTPServer.Start] and [Stop]), gRPC reflection, the starting of the sweeper
    and decay goroutines.  The handlers of [Server] are atomic; only the store
    below them is also modelled with its interleavings. *)

From stdpp Require Export base tactics numbers list fin_maps gmap strings sorting.
From Stdlib Require Export ZArith Lia.

#[local] Open Scope Z_scope.

(** ** Byte strings

    A Go [string] is a sequence of bytes: Rocq's [string], whose characters
    are 8-bit, is exactly that.  A Go [[]byte] is a list of bytes. *)

Abbreviation bytes := (list Byte.byte).

Definition bytes_of_string (s : string) : bytes := String.list_byte_of_string s.

(** ** Machine integers *)

Definition u8 (x : Z) : Z := x mod 2 ^ 8.
Definition u32 (x : Z) : Z := x mod 2 ^ 32.
Definition u64 (x : Z) : Z := x mod 2 ^ 64.
Definition i64 (x : Z) : Z := (x + 2 ^ 63) mod 2 ^ 64 - 2 ^ 63.

Definition MaxUint64 : Z := 2 ^ 64 - 1.
Definition MaxInt64 : Z := 2 ^ 63 - 1.
Definition MinInt64 : Z := - 2 ^ 63.

Lemma u32_range x : 0 <= u32 x < 2 ^ 32.
Proof. apply Z.mod_pos_bound. lia. Qed.

Lemma u64_range x : 0 <= u64 x < 2 ^ 64.
Proof. apply Z.mod_pos_bound. lia. Qed.

Lemma u32_small x : 0 <= x < 2 ^ 32 -> u32 x = x.
Proof. apply Z.mod_small. Qed.

Lemma u64_small x : 0 <= x < 2 ^ 64 -> u64 x = x.
Proof. apply Z.mod_small. Qed.

Lemma i64_range x : MinInt64 <= i64 x <= MaxInt64.
Proof.
  unfold i64, MinInt64, MaxInt64.
  pose proof (Z.mod_pos_bound (x + 2 ^ 63) (2 ^ 64) ltac:(lia)). lia.
Qed.

Lemma i64_small x : MinInt64 <= x <= MaxInt64 -> i64 x = x.
Proof.
  unfold i64, MinInt64, MaxInt64. intros H. rewrite Z.mod_small by lia. lia.
Qed.

(** ** Decidable equality *)

#[global] Instance byte_eq_dec : EqDecision Byte.byte.
Proof. intros x y. apply Byte.byte_eq_dec. Defined.

(** ** Lists of maps *)

Section foldr_union.
Context {V : Type}.
Implicit Types (l : list (gmap string V)) (m : gmap string V).

Definition union_maps (l : list (gmap string V)) : gmap string V := foldr (∪) ∅ l.

Lemma union_maps_None l k :
  (forall i m, l !! i = Some m -> m !! k = None) -> union_maps l !! k = None.
Proof.
  induction l as [|m l IH]; intros H; [apply lookup_empty|].
  simpl. apply lookup_union_None. split; [by apply (H 0%nat)|].
  apply IH. intros i m' Hi. by apply (H (S i)).
Qed.

(** When only the map at index [j] may hold [k], the union agrees with it. *)
Lemma union_maps_home l k j :
  (forall i m, l !! i = Some m -> is_Some (m !! k) -> i = j) ->
  union_maps l !! k = l !! j ≫= (.!! k).
Proof.
  revert j. induction l as [|m l IH]; intros j H; [apply lookup_empty|].
  simpl. destruct j as [|j].
  - simpl. destruct (m !! k) as [x|] eqn:Hk.
    + by apply lookup_union_Some_l.
    + apply lookup_union_None. split; [done|]. apply union_maps_None.
      intros i m' Hi. apply eq_None_not_Some. intros Hs.
      by specialize (H (S i) m' Hi Hs).
  - simpl. rewrite lookup_union_r.
    + apply IH. intros i m' Hi Hs. by specialize (H (S i) m' Hi Hs) as [=].
    + apply eq_None_not_Some. intros Hs. by specialize (H 0%nat m eq_refl Hs).
Qed.

Lemma map_to_list_union m1 m2 :
  m1 ##ₘ m2 -> map_to_list (m1 ∪ m2) ≡ₚ map_to_list m1 ++ map_to_list m2.
Proof.
  intros Hd. apply NoDup_Permutation.
  - apply NoDup_map_to_list.
  - apply NoDup_app. split_and!; try apply NoDup_map_to_list.
    intros [k x]. rewrite !elem_of_map_to_list. intros H1 H2.
    by eapply map_disjoint_spec.
  - intros [k x]. rewrite elem_of_app, !elem_of_map_to_list.
    by apply lookup_union_Some.
Qed.

(** No key occurs in two maps of the list. *)
Definition maps_disjoint l : Prop :=
  forall i j m m' k, l !! i = Some m -> l !! j = Some m' ->
    is_Some (m !! k) -> is_Some (m' !! k) -> i = j.

Lemma union_maps_to_list l :
  maps_disjoint l -> concat (map_to_list <$> l) ≡ₚ map_to_list (union_maps l).
Proof.
  induction l as [|m l IH]; intros Hd; simpl; [by rewrite map_to_list_empty|].
  rewrite map_to_list_union.
  - f_equiv. apply IH. intros i j m1 m2 k H1 H2 S1 S2.
    by specialize (Hd (S i) (S j) m1 m2 k H1 H2 S1 S2) as [=].
  - apply map_disjoint_spec. intros k x y Hx Hy.
    assert (union_maps l !! k = None) as Hn; [|congruence].
    apply union_maps_None. intros i m' Hi. apply eq_None_not_Some. intros Hs.
    by specialize (Hd 0%nat (S i) m m' k eq_refl Hi (mk_is_Some _ _ Hx) Hs).
Qed.
End foldr_union.

(** ** Loops that append *)

Lemma fold_left_collect {A B} (P : A -> bool) (f : A -> B) l acc :
  fold_left (fun acc x => if P x then acc ++ [f x] else acc) l acc
  = acc ++ (f <$> filter (fun x => P x) l).
Proof.
  revert acc. induction l as [|x l IH]; intros acc; simpl; [by rewrite app_nil_r|].
  rewrite IH, filter_cons. destruct (P x); simpl; [|done].
  by rewrite <- app_assoc.
Qed.

Lemma fold_left_inv {A B} (P : A -> Prop) (f : A -> B -> A) l acc :
  P acc -> (forall acc x, P acc -> P (f acc x)) -> P (fold_left f l acc).
Proof. intros H0 HS. revert acc H0. induction l as [|x l IH]; simpl; auto. Qed.

Lemma fold_left_snoc {A B} (f : A -> B) l acc :
  fold_left (fun acc x => acc ++ [f x]) l acc = acc ++ (f <$> l).
Proof.
  revert acc. induction l as [|x l IH]; intros acc; simpl; [by rewrite app_nil_r|].
  by rewrite IH, <- app_assoc.
Qed.

Lemma fold_left_fold_left {A B} (f : A -> B -> A) (ls : list (list B)) acc :
  fold_left (fun acc l => fold_left f l acc) ls acc = fold_left f (concat ls) acc.
Proof.
  revert acc. induction ls as [|l ls IH]; intros acc; simpl; [done|].
  by rewrite fold_left_app, IH.
Qed.

(** ** Automation *)

(** [cache] collects the preservation lemmas of the components and their
    rewrite rules. *)
Create HintDb cache.
Create Rewrite HintDb cache.

(** Case analysis on every [match] and [if] of the goal. *)
Ltac split_matches := repeat case_match; simplify_eq; simpl in *.

(** ** Rotations *)

Lemma rotate_lookup {A} (l : list A) (idx i : nat) :
  (idx < length l)%nat -> (i < length l)%nat ->
  l !! ((idx + i) mod length l)%nat = (drop idx l ++ take idx l) !! i.
Proof.
  intros Hidx Hi. destruct (Nat.lt_ge_cases (idx + i) (length l)) as [Hlt|Hge].
  - rewrite Nat.mod_small, lookup_app_l, lookup_drop; [done|rewrite length_drop; lia|lia].
  - replace (idx + i)%nat with (idx + i - length l + 1 * length l)%nat by lia.
    rewrite Nat.Div0.mod_add, Nat.mod_small by lia.
    rewrite lookup_app_r, length_drop by (rewrite length_drop; lia).
    rewrite lookup_take_lt by lia. f_equal. lia.
Qed.

(** ** Filters *)

Section filters.
Context {A : Type} (P : A -> Prop) `{!forall x, Decision (P x)}.

Lemma list_filter_all (l : list A) : Forall P l -> filter P l = l.
Proof.
  induction 1 as [|x l Hx _ IH]; [done|].
  rewrite filter_cons_True by done. by rewrite IH.
Qed.

Lemma list_filter_none (l : list A) : Forall (fun x => ~ P x) l -> filter P l = [].
Proof.
  induction 1 as [|x l Hx _ IH]; [done|]. by rewrite filter_cons_False.
Qed.

Lemma list_filter_comm (Q : A -> Prop) `{!forall x, Decision (Q x)} (l : list A) :
  filter P (filter Q l) = filter Q (filter P l).
Proof.
  induction l as [|x l IH]; [done|]. rewrite !filter_cons.
  repeat case_decide; rewrite ?filter_cons; repeat case_decide; by rewrite ?IH.
Qed.
End filters.

Lemma Sorted_filter {A} (R : relation A) `{!Transitive R} (P : A -> Prop)
    `{!forall x, Decision (P x)} (l : list A) :
  Sorted R l -> Sorted R (filter P l).
Proof.
  intros Hs%(Sorted_StronglySorted R). apply StronglySorted_Sorted.
  induction Hs as [|x l Hs IH Hall]; [constructor|].
  rewrite filter_cons. case_decide; [|done]. constructor; [done|].
  apply Forall_forall. intros y Hy. apply list_elem_of_filter in Hy as [_ Hy].
  rewrite Forall_forall in Hall. by apply Hall.
Qed.

Section take_filter.
Context {A : Type} `{!EqDecision A}.
Implicit Types (l : list A) (x : A) (k : nat).

(** Removing an element beyond the first [k] keeps the first [k]. *)
Lemma take_filter_ne l x k : x ∉ take k l -> take k (filter (fun y => y <> x) l) = take k l.
Proof.
  revert k. induction l as [|a l IH]; intros [|k] Hx; try done. simpl in Hx.
  rewrite filter_cons_True by set_solver. simpl. f_equal. apply IH. set_solver.
Qed.

Lemma take_pred_filter_ne l x k :
  NoDup l -> x ∈ take k l ->
  take (k - 1) (filter (fun y => y <> x) l) = filter (fun y => y <> x) (take k l).
Proof.
  revert k. induction l as [|a l IH]; intros [|k] Hnd Hx; simpl in *;
    try by apply elem_of_nil in Hx.
  apply NoDup_cons in Hnd as [Ha Hnd]. rewrite Nat.sub_0_r.
  destruct (decide (a = x)) as [->|Hne].
  - rewrite !filter_cons_False by naive_solver.
    assert (Forall (fun y => y <> x) l) as Hall by (apply Forall_forall; intros y Hy ->; done).
    rewrite list_filter_all by done. rewrite list_filter_all; [done|].
    by apply Forall_take.
  - rewrite !filter_cons_True by done. apply elem_of_cons in Hx as [->|Hx]; [done|].
    destruct k as [|k]; [by apply elem_of_nil in Hx|].
    rewrite <- IH by done. simpl. by rewrite Nat.sub_0_r.
Qed.
End take_filter.

(** ** Index loops over a slice *)

(** [for i := 0; i < n; i++ { l[i] = f(i, l[i]) }] *)
Definition alter_upto {A} (f : nat -> A -> A) (n : nat) (l : list A) : list A :=
  fold_left (fun l i => alter (f i) i l) (seq 0 n) l.

Lemma alter_upto_S {A} (f : nat -> A -> A) n l :
  alter_upto f (S n) l = alter (f n) n (alter_upto f n l).
Proof. unfold alter_upto. rewrite seq_S, fold_left_app. done. Qed.

Lemma alter_upto_lookup {A} (f : nat -> A -> A) n l i :
  alter_upto f n l !! i = if (i <? n)%nat then f i <$> l !! i else l !! i.
Proof.
  induction n as [|n IH]; [done|]. rewrite alter_upto_S.
  destruct (decide (i = n)) as [->|Hne].
  - rewrite list_lookup_alter_eq, IH, Nat.ltb_irrefl.
    by destruct (Nat.ltb_spec n (S n)); [|lia].
  - rewrite list_lookup_alter_ne by done. rewrite IH.
    destruct (Nat.ltb_spec i n), (Nat.ltb_spec i (S n)); lia || done.
Qed.

Lemma length_alter_upto {A} (f : nat -> A -> A) n l : length (alter_upto f n l) = length l.
Proof. induction n as [|n IH]; [done|]. by rewrite alter_upto_S, length_alter. Qed.

(** The running minimum [for ... { if c < min { min = c } }]. *)
Definition running_min (m : Z) (cs : list Z) : Z :=
  fold_left (fun m c => if c <? m then c else m) cs m.

Lemma running_min_cons m c cs :
  running_min m (c :: cs) = running_min (if c <? m then c else m) cs.
Proof. done. Qed.

Lemma running_min_le m cs : running_min m cs <= m /\ Forall (fun c => running_min m cs <= c) cs.
Proof.
  revert m. induction cs as [|c cs IH]; intros m; simpl; [split; [lia|constructor]|].
  destruct (IH (if c <? m then c else m)) as [H1 H2]. unfold running_min in *. simpl.
  destruct (Z.ltb_spec c m); split; try constructor; try done; lia.
Qed.

Lemma running_min_in m cs : running_min m cs = m \/ running_min m cs ∈ cs.
Proof.
  revert m. induction cs as [|c cs IH]; intros m; simpl; [by left|].
  unfold running_min in *. simpl. rewrite elem_of_cons.
  destruct (IH (if c <? m then c else m)) as [H|H]; [|by auto].
  rewrite H. destruct (c <? m); auto.
Qed.

Lemma running_min_lower m cs b : b <= m -> Forall (fun c => b <= c) cs -> b <= running_min m cs.
Proof.
  intros Hm Hcs. destruct (running_min_in m cs) as [->|Hin]; [done|].
  rewrite Forall_forall in Hcs. by apply Hcs.
Qed.

Lemma running_min_map f m cs :
  (forall a b, a <= b -> f a <= f b) ->
  running_min (f m) (f <$> cs) = f (running_min m cs).
Proof.
  intros Hf. revert m. induction cs as [|c cs IH]; intros m; [done|].
  unfold running_min in *. simpl. rewrite <- IH. f_equal.
  destruct (Z.ltb_spec c m), (Z.ltb_spec (f c) (f m)); try done.
  - pose proof (Hf c m ltac:(lia)). lia.
  - pose proof (Hf m c ltac:(lia)). lia.
Qed.

Lemma list_filter_ext_in {A} (P Q : A -> Prop) `{!forall x, Decision (P x), !forall x, Decision (Q x)}
    (l : list A) :
  (forall x, x ∈ l -> P x <-> Q x) -> filter P l = filter Q l.
Proof.
  induction l as [|x l IH]; intros HPQ; [done|]. rewrite !filter_cons.
  assert (P x <-> Q x) as Hx by (apply HPQ; left).
  rewrite IH by (intros y Hy; apply HPQ; by right).
  by repeat case_decide; tauto || done.
Qed.

Lemma list_filter_fmap {A B} (f : A -> B) (P : B -> Prop) `{!forall x, Decision (P x)} (l : list A) :
  filter P (f <$> l) = f <$> filter (fun x => P (f x)) l.
Proof.
  induction l as [|x l IH]; [done|]. csimpl. rewrite !filter_cons.
  case_decide; csimpl; by rewrite IH.
Qed.

Lemma filter_ne_last {A} `{!EqDecision A} (l : list A) y :
  NoDup l -> last l = Some y -> filter (fun x => x <> y) l = take (length l - 1) l.
Proof.
  intros Hnd Hl. apply last_Some in Hl as [l' ->].
  rewrite length_app. simpl. rewrite Nat.add_sub, take_app_length.
  apply NoDup_app in Hnd as (_ & Hy & _). rewrite filter_app.
  rewrite (list_filter_all _ l'), filter_cons_False by
    (try (apply Forall_forall; intros x Hx ->; apply (Hy y Hx); left); naive_solver).
  apply app_nil_r.
Qed.

(** ** Sums of a function over a list *)

Section sums.
Context {A : Type} (f : A -> Z).

Definition sumZ (l : list A) : Z := foldr (fun x s => f x + s) 0 l.

Lemma sumZ_insert l i x y : l !! i = Some x -> sumZ (<[i := y]> l) = sumZ l - f x + f y.
Proof.
  revert i. induction l as [|z l IH]; intros i Hi; [done|].
  destruct i as [|i]; simpl in *; [simplify_eq; lia|]. rewrite (IH i Hi). lia.
Qed.

Lemma sumZ_replicate n x : sumZ (replicate n x) = Z.of_nat n * f x.
Proof. induction n as [|n IH]; simpl replicate; [done|]. cbn [sumZ foldr]. fold (sumZ (replicate n x)). lia. Qed.

Lemma sumZ_nonneg l : (forall x, 0 <= f x) -> 0 <= sumZ l.
Proof. intros Hf. induction l as [|x l IH]; simpl; [lia|]. pose proof (Hf x). lia. Qed.
End sums.
