(* ===== verification/GoLib.v ===== *)
(** * The parts of Go's standard library the program relies on

    - [hash/fnv]: the 32- and 64-bit FNV-1a hashes ([fnv32a], [fnv64a]);
    - [time]: instants and durations in nanoseconds, with the saturating [Sub];
    - [float64]: IEEE-754 binary64 through the executable specification
      [SpecFloat] (precision 53, maximal exponent 1024);
    - [sort]: [sort.Search], [sort.Slice] and [sort.Strings];
    - [fmt]: the verb [%d];
    - [range] over a map, whose order Go leaves unspecified. *)

From S2P Require Import Prelude.
From Stdlib Require Import SpecFloat OrdersEx.
From stdpp Require Import pretty.

#[local] Open Scope Z_scope.

(** ** hash/fnv *)

Definition byte_val (b : Byte.byte) : Z := Z.of_N (Byte.to_N b).

Definition fnv32_offset : Z := 2166136261.
Definition fnv32_prime : Z := 16777619.
Definition fnv64_offset : Z := 14695981039346656037.
Definition fnv64_prime : Z := 1099511628211.

Definition fnv32a_step (h : Z) (b : Byte.byte) : Z :=
  u32 (Z.lxor h (byte_val b) * fnv32_prime).
Definition fnv64a_step (h : Z) (b : Byte.byte) : Z :=
  u64 (Z.lxor h (byte_val b) * fnv64_prime).

(** [fnv.New32a()] followed by one [Write] and [Sum32]. *)
Definition fnv32a (bs : bytes) : Z := fold_left fnv32a_step bs fnv32_offset.
Definition fnv64a (bs : bytes) : Z := fold_left fnv64a_step bs fnv64_offset.

Lemma fold_left_range {A} (P : Z -> Prop) (f : Z -> A -> Z) l h :
  P h -> (forall h a, P (f h a)) -> P (fold_left f l h).
Proof. revert h. induction l; simpl; auto. Qed.

Lemma fnv32a_range bs : 0 <= fnv32a bs < 2 ^ 32.
Proof.
  unfold fnv32a. apply fold_left_range; [unfold fnv32_offset; lia|].
  intros. apply u32_range.
Qed.

Lemma fnv64a_range bs : 0 <= fnv64a bs < 2 ^ 64.
Proof.
  unfold fnv64a. apply fold_left_range; [unfold fnv64_offset; lia|].
  intros. apply u64_range.
Qed.

(** ** time

    An instant is the number of nanoseconds since the zero [time.Time]; a
    duration is an [int64] number of nanoseconds.  [time.Now()] is a reading
    that an operation receives as an argument, one per call in the source. *)

Abbreviation Time := Z (only parsing).
Abbreviation Duration := Z (only parsing).

Definition Nanosecond : Duration := 1.
Definition Millisecond : Duration := 1000000.
Definition Second : Duration := 1000000000.

Definition time_zero : Time := 0.
Definition IsZero (t : Time) : bool := t =? 0.
Definition After (t u : Time) : bool := u <? t.
Definition Before (t u : Time) : bool := t <? u.
Definition Add (t : Time) (d : Duration) : Time := t + d.
(** [t.Sub(u)] saturates at the extreme durations. *)
Definition Sub (t u : Time) : Duration := Z.max MinInt64 (Z.min MaxInt64 (t - u)).
(** [d.Milliseconds()] is an integer division that truncates toward zero. *)
Definition Milliseconds (d : Duration) : Z := Z.quot d Millisecond.
(** [time.Duration(ms) * time.Millisecond], an [int64] product. *)
Lemma Sub_range t u : MinInt64 <= Sub t u <= MaxInt64.
Proof. unfold Sub, MinInt64, MaxInt64. lia. Qed.

Lemma Milliseconds_range d : MinInt64 <= d <= MaxInt64 -> MinInt64 <= Milliseconds d <= MaxInt64.
Proof.
  unfold Milliseconds, Millisecond, MinInt64, MaxInt64. intros. Z.to_euclidean_division_equations. lia.
Qed.

Definition DurationOfMs (ms : Z) : Duration := i64 (ms * Millisecond).

(** ** float64 *)

Abbreviation float64 := spec_float (only parsing).

Definition float64_of_int (z : Z) : float64 := binary_normalize 53 1024 z 0 false.
Definition fadd (x y : float64) : float64 := SFadd 53 1024 x y.
Definition fmul (x y : float64) : float64 := SFmul 53 1024 x y.
Definition fdiv (x y : float64) : float64 := SFdiv 53 1024 x y.
Definition flt (x y : float64) : bool := SFltb x y.

(** [int64(f)]: truncation toward zero; a value that does not fit (or is not a
    number) converts to the integer indefinite value of amd64. *)
Definition int64_of_float (f : float64) : Z :=
  match f with
  | S754_zero _ => 0
  | S754_finite s m e =>
      let a := if 0 <=? e then Z.pos m * 2 ^ e else Z.pos m / 2 ^ (- e) in
      let v := if s then - a else a in
      if (MinInt64 <=? v) && (v <=? MaxInt64) then v else MinInt64
  | _ => MinInt64
  end.

(** The decimal constant 0.25, exactly representable. *)
Definition f_0_25 : float64 := S754_finite false 4503599627370496 (-54).
Definition f_1 : float64 := float64_of_int 1.
Definition f_0 : float64 := S754_zero false.

Example f_0_25_ok : f_0_25 = fdiv f_1 (float64_of_int 4).
Proof. reflexivity. Qed.

(** ** fmt *)

(** The verb [%d] of an integer. *)
Definition fmt_d (n : Z) : string := pretty n.

#[global] Instance fmt_d_inj : Inj (=) (=) fmt_d.
Proof. intros x y H. by apply (inj pretty). Qed.

(** ** sort *)

(** [sort.Search]: binary search for the first index of [0, n) where [f]
    holds.  The interval shrinks at every round, so [n] rounds suffice. *)
Fixpoint search_loop (fuel : nat) (f : nat -> bool) (i j : nat) : nat :=
  match fuel with
  | O => i
  | S fuel =>
      if (i <? j)%nat then
        let h := ((i + j) / 2)%nat in
        if negb (f h) then search_loop fuel f (S h) j else search_loop fuel f i h
      else i
  end.

Definition sort_Search (n : nat) (f : nat -> bool) : nat := search_loop n f 0 n.

Lemma half_between (i j : nat) : (i < j)%nat -> (i <= (i + j) / 2 < j)%nat.
Proof.
  intros H. split; [apply Nat.div_le_lower_bound; lia|].
  apply Nat.Div0.div_lt_upper_bound. lia.
Qed.

Lemma search_loop_spec f n fuel i j :
  (forall a b, (a <= b < n)%nat -> f a = true -> f b = true) ->
  (i <= j <= n)%nat -> (j - i <= fuel)%nat ->
  (forall a, (a < i)%nat -> f a = false) ->
  (forall a, (j <= a < n)%nat -> f a = true) ->
  let r := search_loop fuel f i j in
  (r <= n)%nat /\ (forall a, (a < r)%nat -> f a = false) /\
  (forall a, (r <= a < n)%nat -> f a = true).
Proof.
  intros Hmono. revert i j.
  induction fuel as [|fuel IH]; intros i j Hij Hfuel Hlo Hhi; cbn [search_loop].
  { replace j with i in * by lia. auto with lia. }
  destruct (Nat.ltb_spec i j) as [Hlt|Hge].
  2: { replace j with i in * by lia. auto with lia. }
  pose proof (half_between i j Hlt) as Hh.
  destruct (f ((i + j) / 2)%nat) eqn:Hf; cbn [negb]; apply IH; try lia; auto.
  - intros a Ha. apply (Hmono ((i + j) / 2)%nat); [lia|done].
  - intros a Ha. destruct (f a) eqn:Hfa; [|done].
    rewrite <- Hf. symmetry. apply (Hmono a); [lia|done].
Qed.

(** On a monotone predicate the search returns the boundary. *)
Lemma sort_Search_spec n f :
  (forall a b, (a <= b < n)%nat -> f a = true -> f b = true) ->
  let r := sort_Search n f in
  (r <= n)%nat /\ (forall a, (a < r)%nat -> f a = false) /\
  (forall a, (r <= a < n)%nat -> f a = true).
Proof. intros Hmono. apply search_loop_spec; auto with lia. Qed.

(** [sort.Slice(l, less)] where [less] compares an integer key: some
    permutation of the slice in nondecreasing key order.  Go does not promise
    stability, so the class fixes nothing more. *)
Definition key_le {A} (key : A -> Z) (x y : A) : Prop := key x <= key y.

Class SortSlice := {
  sort_slice : forall {A}, (A -> Z) -> list A -> list A;
  sort_slice_perm : forall {A} (key : A -> Z) (l : list A), sort_slice key l ≡ₚ l;
  sort_slice_sorted : forall {A} (key : A -> Z) (l : list A),
    Sorted (key_le key) (sort_slice key l)
}.

#[global] Instance key_le_dec {A} (key : A -> Z) x y : Decision (key_le key x y).
Proof. unfold key_le. apply _. Defined.

#[global] Instance key_le_total {A} (key : A -> Z) : Total (key_le key).
Proof. intros x y. unfold key_le. lia. Qed.

#[global] Instance key_le_trans {A} (key : A -> Z) : Transitive (key_le key).
Proof. intros x y z. unfold key_le. lia. Qed.

(** A concrete sort that satisfies the class. *)
#[export] Instance merge_SortSlice : SortSlice := {
  sort_slice A key l := merge_sort (key_le key) l;
  sort_slice_perm A key l := merge_sort_Permutation _ l;
  sort_slice_sorted A key l := Sorted_merge_sort _ l
}.

(** [sort.Strings]: bytewise lexicographic order, a total order, so the sorted
    permutation is unique and any sorting algorithm computes it. *)
Definition string_le (s t : string) : Prop := String.leb s t = true.

#[global] Instance string_le_dec s t : Decision (string_le s t).
Proof. unfold string_le. apply _. Defined.

#[global] Instance string_le_total : Total string_le.
Proof. intros s t. apply String.leb_total. Qed.

Lemma string_le_lt s t : string_le s t <-> s = t \/ String_as_OT.lt s t.
Proof.
  unfold string_le, String.leb.
  pose proof (String_as_OT.compare_spec s t) as Hc.
  change (CompSpec (@eq string) String_as_OT.lt s t (String.compare s t)) in Hc.
  split.
  - destruct (String.compare s t) eqn:E; intros ?; inversion Hc; auto; congruence.
  - intros [->|Hlt].
    + destruct (String.compare t t) eqn:E; auto.
      inversion Hc as [| |Hlt]. by apply StrictOrder_Irreflexive in Hlt.
    + destruct (String.compare s t) eqn:E; auto.
      inversion Hc as [| |Hgt].
      by destruct (StrictOrder_Irreflexive s (StrictOrder_Transitive _ _ _ Hlt Hgt)).
Qed.

#[global] Instance string_le_trans : Transitive string_le.
Proof.
  intros s t u. rewrite !string_le_lt. intros [->|H1] [->|H2]; auto.
  right. by eapply StrictOrder_Transitive.
Qed.

#[global] Instance string_le_antisymm : AntiSymm (=) string_le.
Proof. intros s t. apply String.leb_antisym. Qed.

Definition sort_Strings (l : list string) : list string := merge_sort string_le l.

(** ** range over a map

    [is_range m ord] says that [ord] is an order in which a [range] loop may
    visit the entries of [m]: each exactly once, in any order. *)
Definition is_range {V} (m : gmap string V) (ord : list (string * V)) : Prop :=
  ord ≡ₚ map_to_list m.

Lemma is_range_elem {V} (m : gmap string V) ord k v :
  is_range m ord -> (k, v) ∈ ord <-> m !! k = Some v.
Proof. intros H. rewrite H. apply elem_of_map_to_list. Qed.

Lemma is_range_NoDup {V} (m : gmap string V) ord :
  is_range m ord -> NoDup ord.*1.
Proof. intros H. rewrite H. apply NoDup_fst_map_to_list. Qed.

Lemma is_range_length {V} (m : gmap string V) ord :
  is_range m ord -> length ord = size m.
Proof. intros H. rewrite H. apply length_map_to_list. Qed.

Lemma is_range_self {V} (m : gmap string V) : is_range m (map_to_list m).
Proof. unfold is_range. reflexivity. Qed.
