(* ===== verification/Text.v ===== *)
(** * Text: unicode/utf8, encoding/base64 and strconv

    The bytes that cross the wire, as lists of codes 0..255, and the three
    encodings the JSON codec builds on: UTF-8 as Go decodes it (an invalid byte
    counts as the replacement character), standard base64 and decimal integers.
    Each comes with its round trip. *)

From S2P Require Import Prelude GoLib.
From Stdlib Require Import DecimalFacts DecimalPos DecimalN DecimalZ.

#[local] Open Scope Z_scope.

(** [lia] with quotients and remainders by constants. *)
Ltac div_lia := Z.to_euclidean_division_equations; lia.

(** ** Codes *)

Abbreviation code := Z (only parsing).
Abbreviation text := (list Z).

Definition is_code (c : code) : Prop := 0 <= c < 256.

Definition byte_of_code (c : code) : Byte.byte := default Byte.x00 (Byte.of_N (Z.to_N c)).

Definition codes_of_bytes (bs : bytes) : text := byte_val <$> bs.
Definition bytes_of_codes (l : text) : bytes := byte_of_code <$> l.

Definition codes (s : string) : text := codes_of_bytes (bytes_of_string s).
Definition string_of_codes (l : text) : string :=
  String.string_of_list_byte (bytes_of_codes l).

Lemma byte_val_range b : is_code (byte_val b).
Proof. unfold is_code, byte_val. pose proof (Byte.to_N_bounded b). lia. Qed.

Lemma byte_of_val b : byte_of_code (byte_val b) = b.
Proof. unfold byte_of_code, byte_val. by rewrite N2Z.id, Byte.of_to_N. Qed.

Lemma val_of_code c : is_code c -> byte_val (byte_of_code c) = c.
Proof.
  unfold is_code, byte_val, byte_of_code. intros Hc.
  destruct (Byte.of_N (Z.to_N c)) as [b|] eqn:E; simpl.
  - apply Byte.to_of_N in E. rewrite E. lia.
  - apply Byte.of_N_None_iff in E. lia.
Qed.

Lemma bytes_codes bs : bytes_of_codes (codes_of_bytes bs) = bs.
Proof.
  unfold bytes_of_codes, codes_of_bytes. rewrite <- list_fmap_compose.
  rewrite <- (list_fmap_id bs) at 2. apply list_fmap_ext. intros i b _. apply byte_of_val.
Qed.

Lemma codes_bytes l : Forall is_code l -> codes_of_bytes (bytes_of_codes l) = l.
Proof.
  unfold bytes_of_codes, codes_of_bytes. rewrite <- list_fmap_compose.
  induction 1 as [|c l Hc _ IH]; [done|]. cbn. by rewrite IH, val_of_code.
Qed.

Lemma codes_of_bytes_ok bs : Forall is_code (codes_of_bytes bs).
Proof. apply Forall_fmap, Forall_true. intros b. apply byte_val_range. Qed.

Lemma codes_ok s : Forall is_code (codes s).
Proof. apply codes_of_bytes_ok. Qed.

Lemma string_codes s : string_of_codes (codes s) = s.
Proof. unfold string_of_codes, codes. rewrite bytes_codes. apply String.string_of_list_byte_of_string. Qed.

Lemma codes_string l : Forall is_code l -> codes (string_of_codes l) = l.
Proof.
  intros Hl. unfold codes, string_of_codes, bytes_of_string.
  by rewrite String.list_byte_of_string_of_list_byte, codes_bytes.
Qed.

#[global] Instance codes_inj : Inj (=) (=) codes.
Proof. intros s t H. rewrite <- (string_codes s), <- (string_codes t). by rewrite H. Qed.

(** ** unicode/utf8 *)

Definition in_range (lo hi c : code) : bool := (lo <=? c) && (c <=? hi).
Definition continuation : code -> bool := in_range 128 191.

(** The first two codes of a sequence of three, of four. *)
Definition lead3 (b0 b1 : code) : bool :=
  (b0 =? 224) && in_range 160 191 b1 || (b0 =? 237) && in_range 128 159 b1 ||
  (in_range 225 236 b0 || in_range 238 239 b0) && continuation b1.

Definition lead4 (b0 b1 : code) : bool :=
  (b0 =? 240) && in_range 144 191 b1 || (b0 =? 244) && in_range 128 143 b1 ||
  in_range 241 243 b0 && continuation b1.

(** The codes of one rune. *)
Definition valid_rune (bs : text) : bool :=
  match bs with
  | [b0] => b0 <? 128
  | [b0; b1] => in_range 194 223 b0 && continuation b1
  | [b0; b1; b2] => lead3 b0 b1 && continuation b2
  | [b0; b1; b2; b3] => lead4 b0 b1 && continuation b2 && continuation b3
  | _ => false
  end.

(** [utf8.DecodeRune]: the codes of the first rune and what follows it; [None]
    for a byte that starts no valid sequence. *)
Definition first_rune (b0 : code) (l0 : text) : option text * text :=
  if valid_rune [b0] then (Some [b0], l0)
  else match l0 with
       | [] => (None, l0)
       | b1 :: l1 =>
           if valid_rune [b0; b1] then (Some [b0; b1], l1)
           else match l1 with
                | [] => (None, l0)
                | b2 :: l2 =>
                    if valid_rune [b0; b1; b2] then (Some [b0; b1; b2], l2)
                    else match l2 with
                         | [] => (None, l0)
                         | b3 :: l3 =>
                             if valid_rune [b0; b1; b2; b3] then (Some [b0; b1; b2; b3], l3)
                             else (None, l0)
                         end
                end
       end.

(** The runes of a text; each takes a byte at least. *)
Fixpoint runes_fuel (n : nat) (l : text) : list (option text) :=
  match n, l with
  | S n, b0 :: l0 => let '(r, l') := first_rune b0 l0 in r :: runes_fuel n l'
  | _, _ => []
  end.

Definition runes (l : text) : list (option text) := runes_fuel (length l) l.

(** U+FFFD, which stands for an invalid byte. *)
Definition replacement : text := [239; 191; 189].

Definition sanitize (l : text) : text := concat (default replacement <$> runes l).

Definition valid_utf8 (l : text) : bool := forallb (fun r => bool_decide (is_Some r)) (runes l).

(** [utf8.AppendRune] of a code point outside the surrogates. *)
Definition utf8_encode (r : Z) : text :=
  if r <? 128 then [r]
  else if r <? 2048 then [192 + Z.shiftr r 6; 128 + Z.land r 63]
  else if r <? 65536 then [224 + Z.shiftr r 12; 128 + Z.land (Z.shiftr r 6) 63; 128 + Z.land r 63]
  else [240 + Z.shiftr r 18; 128 + Z.land (Z.shiftr r 12) 63; 128 + Z.land (Z.shiftr r 6) 63;
        128 + Z.land r 63].

Lemma first_rune_length b0 l0 : (length (first_rune b0 l0).2 <= length l0)%nat.
Proof. unfold first_rune. repeat case_match; simpl; lia. Qed.

Lemma first_rune_spec b0 l0 r l' :
  first_rune b0 l0 = (r, l') ->
  match r with
  | Some bs => valid_rune bs = true /\ b0 :: l0 = bs ++ l'
  | None => l' = l0 /\ (b0 <? 128) = false
  end.
Proof. unfold first_rune. repeat case_match; intros; simplify_eq; done. Qed.

Lemma runes_fuel_enough n l : (length l <= n)%nat -> runes_fuel n l = runes l.
Proof.
  unfold runes. revert l. induction n as [n IH] using lt_wf_ind. intros [|b0 l0] Hn; [by destruct n|].
  destruct n as [|n]; simpl in *; [lia|]. pose proof (first_rune_length b0 l0) as Hl.
  destruct (first_rune b0 l0) as [r l']. simpl in Hl. f_equal.
  rewrite IH by lia. symmetry. destruct (decide (length l0 = n)) as [<-|Hne]; apply IH; lia.
Qed.

Lemma runes_cons b0 l0 :
  runes (b0 :: l0) = (first_rune b0 l0).1 :: runes (first_rune b0 l0).2.
Proof.
  unfold runes at 1. simpl. pose proof (first_rune_length b0 l0) as Hl.
  destruct (first_rune b0 l0) as [r l']. simpl in *. f_equal. by apply runes_fuel_enough.
Qed.

(** Induction along the runes. *)
Lemma runes_ind (P : text -> Prop) :
  P [] -> (forall b0 l0, P (first_rune b0 l0).2 -> P (b0 :: l0)) -> forall l, P l.
Proof.
  intros H0 HS l. remember (length l) as n eqn:Hn. revert l Hn.
  induction n as [n IH] using lt_wf_ind. intros [|b0 l0] ->; [done|].
  apply HS. eapply IH; [|done]. simpl. pose proof (first_rune_length b0 l0). lia.
Qed.

Ltac unfold_utf8 := unfold valid_rune, lead3, lead4, continuation, in_range in *.

(** A valid rune is found whatever follows it. *)
Lemma first_rune_valid b0 bs l :
  valid_rune (b0 :: bs) = true -> first_rune b0 (bs ++ l) = (Some (b0 :: bs), l).
Proof.
  unfold first_rune. intros H.
  assert (forall b : bool, b = false -> forall A (x y : A), (if b then x else y) = y) as Hf
    by by intros ? ->.
  destruct bs as [|b1 [|b2 [|b3 [|b4 bs]]]]; cbn [app].
  - by rewrite H.
  - rewrite (Hf (valid_rune [b0])) by (unfold_utf8; lia). by rewrite H.
  - rewrite (Hf (valid_rune [b0])) by (unfold_utf8; lia).
    rewrite (Hf (valid_rune [b0; b1])) by (unfold_utf8; lia). by rewrite H.
  - rewrite (Hf (valid_rune [b0])) by (unfold_utf8; lia).
    rewrite (Hf (valid_rune [b0; b1])) by (unfold_utf8; lia).
    rewrite (Hf (valid_rune [b0; b1; b2])) by (unfold_utf8; lia). by rewrite H.
  - done.
Qed.

Lemma runes_valid_app bs l :
  valid_rune bs = true -> runes (bs ++ l) = Some bs :: runes l.
Proof.
  destruct bs as [|b0 bs]; [done|]. intros H. cbn [app]. rewrite runes_cons.
  by rewrite first_rune_valid.
Qed.

Lemma sanitize_cons b0 l0 :
  sanitize (b0 :: l0) = default replacement (first_rune b0 l0).1 ++ sanitize (first_rune b0 l0).2.
Proof. unfold sanitize. by rewrite runes_cons. Qed.

(** Every rune of a sanitized text is valid, and valid texts are left alone. *)
Lemma runes_sanitize l : runes (sanitize l) = Some ∘ default replacement <$> runes l.
Proof.
  induction l as [|b0 l0 IH] using runes_ind; [done|].
  rewrite sanitize_cons, runes_cons. cbn [fmap list_fmap].
  rewrite runes_valid_app; [by rewrite IH|].
  destruct (first_rune b0 l0) as [[bs|] l'] eqn:E; [|done]. by apply first_rune_spec in E as [? _].
Qed.

Lemma sanitize_valid l : valid_utf8 (sanitize l) = true.
Proof.
  unfold valid_utf8. rewrite runes_sanitize. by induction (runes l).
Qed.

Lemma sanitize_id l : valid_utf8 l = true -> sanitize l = l.
Proof.
  unfold valid_utf8. induction l as [|b0 l0 IH] using runes_ind; [done|].
  rewrite runes_cons, sanitize_cons. destruct (first_rune b0 l0) as [[bs|] l'] eqn:E; [|done].
  simpl. intros H. apply first_rune_spec in E as [_ ->]. f_equal. by apply IH.
Qed.

Lemma sanitize_ok l : Forall is_code l -> Forall is_code (sanitize l).
Proof.
  induction l as [|b0 l0 IH] using runes_ind; [done|]. intros Hl. rewrite sanitize_cons.
  destruct (first_rune b0 l0) as [[bs|] l'] eqn:E; apply first_rune_spec in E; simpl in *.
  - destruct E as [_ E]. rewrite E in Hl. apply Forall_app in Hl as [? ?].
    apply Forall_app. split; [done|by apply IH].
  - destruct E as [-> _]. inv Hl. repeat (apply Forall_cons; split; [done|]). by apply IH.
Qed.

(** ASCII texts are valid. *)
Lemma ascii_valid l : Forall (fun c => c < 128) l -> valid_utf8 l = true.
Proof.
  unfold valid_utf8. induction 1 as [|b0 l0 H _ IH]; [done|]. rewrite runes_cons.
  unfold first_rune. simpl. destruct (Z.ltb_spec b0 128); [done|lia].
Qed.

(** ** encoding/base64: [StdEncoding] *)

Definition b64_char (v : Z) : code :=
  if v <? 26 then 65 + v                     (* A-Z *)
  else if v <? 52 then 97 + (v - 26)         (* a-z *)
  else if v <? 62 then 48 + (v - 52)         (* 0-9 *)
  else if v =? 62 then 43 else 47.           (* + / *)

Definition b64_val (c : code) : option Z :=
  if in_range 65 90 c then Some (c - 65)
  else if in_range 97 122 c then Some (c - 97 + 26)
  else if in_range 48 57 c then Some (c - 48 + 52)
  else if c =? 43 then Some 62
  else if c =? 47 then Some 63
  else None.

Definition pad : code := 61.

(** The [i]-th group of six bits of a 24-bit group, from the top. *)
Definition sextet (v : Z) (i : Z) : Z := Z.shiftr v (18 - 6 * i) mod 64.
Definition octet (v : Z) (i : Z) : Z := Z.shiftr v (16 - 8 * i) mod 256.

Fixpoint base64_encode (l : text) : text :=
  match l with
  | [] => []
  | [b0] =>
      let v := b0 * 65536 in [b64_char (sextet v 0); b64_char (sextet v 1); pad; pad]
  | [b0; b1] =>
      let v := b0 * 65536 + b1 * 256 in
      [b64_char (sextet v 0); b64_char (sextet v 1); b64_char (sextet v 2); pad]
  | b0 :: b1 :: b2 :: l =>
      let v := b0 * 65536 + b1 * 256 + b2 in
      b64_char (sextet v 0) :: b64_char (sextet v 1) :: b64_char (sextet v 2) ::
      b64_char (sextet v 3) :: base64_encode l
  end.

Definition group (s0 s1 s2 s3 : Z) : Z := s0 * 262144 + s1 * 4096 + s2 * 64 + s3.

Fixpoint decode_groups (l : text) : option text :=
  match l with
  | [] => Some []
  | c0 :: c1 :: c2 :: c3 :: l =>
      s0 ← b64_val c0; s1 ← b64_val c1;
      if c2 =? pad then
        if c3 =? pad then
          match l with [] => Some [octet (group s0 s1 0 0) 0] | _ => None end
        else None
      else
        s2 ← b64_val c2;
        if c3 =? pad then
          match l with
          | [] => let v := group s0 s1 s2 0 in Some [octet v 0; octet v 1]
          | _ => None
          end
        else
          s3 ← b64_val c3; rest ← decode_groups l;
          let v := group s0 s1 s2 s3 in Some (octet v 0 :: octet v 1 :: octet v 2 :: rest)
  | _ => None
  end.

(** Line breaks are skipped. *)
Definition base64_decode (l : text) : option text :=
  decode_groups (filter (fun c => c <> 10 /\ c <> 13) l).

Lemma b64_val_char v : 0 <= v < 64 -> b64_val (b64_char v) = Some v.
Proof.
  intros Hv. unfold b64_val, b64_char, in_range. repeat case_match; f_equal; lia.
Qed.

Lemma b64_char_ok v : 0 <= v < 64 -> b64_char v <> pad /\ 43 <= b64_char v <= 122.
Proof. intros Hv. unfold b64_char, pad. repeat case_match; lia. Qed.

Lemma sextet_range v i : 0 <= sextet v i < 64.
Proof. apply Z.mod_pos_bound. lia. Qed.

Lemma sextets_group v :
  0 <= v < 16777216 -> group (sextet v 0) (sextet v 1) (sextet v 2) (sextet v 3) = v.
Proof.
  intros Hv. unfold group, sextet. rewrite !Z.shiftr_div_pow2 by lia.
  change (2 ^ (18 - 6 * 0)) with 262144. change (2 ^ (18 - 6 * 1)) with 4096.
  change (2 ^ (18 - 6 * 2)) with 64. change (2 ^ (18 - 6 * 3)) with 1.
  rewrite Z.div_1_r. div_lia.
Qed.

Lemma octets_of b0 b1 b2 (v := b0 * 65536 + b1 * 256 + b2) :
  is_code b0 -> is_code b1 -> is_code b2 -> octet v 0 = b0 /\ octet v 1 = b1 /\ octet v 2 = b2.
Proof.
  unfold is_code, octet. intros H0 H1 H2. rewrite !Z.shiftr_div_pow2 by lia.
  change (2 ^ (16 - 8 * 0)) with 65536. change (2 ^ (16 - 8 * 1)) with 256.
  change (2 ^ (16 - 8 * 2)) with 1. rewrite Z.div_1_r. subst v. split_and!; div_lia.
Qed.

(** Induction three codes at a time. *)
Lemma triple_ind (P : text -> Prop) :
  P [] -> (forall b0, P [b0]) -> (forall b0 b1, P [b0; b1]) ->
  (forall b0 b1 b2 l, P l -> P (b0 :: b1 :: b2 :: l)) -> forall l, P l.
Proof.
  intros H0 H1 H2 H3. fix IH 1. intros [|b0 [|b1 [|b2 l]]]; [done|done|done|].
  apply H3, IH.
Qed.

Lemma base64_encode_chars l c :
  c ∈ base64_encode l -> 43 <= c <= 122.
Proof.
  assert (forall v i, 43 <= b64_char (sextet v i) <= 122) as Hc
    by (intros v i; by apply b64_char_ok, sextet_range).
  induction l as [|b0|b0 b1|b0 b1 b2 l IH] using triple_ind; simpl;
    rewrite ?elem_of_cons, ?elem_of_nil; unfold pad.
  - done.
  - intros Hin. destruct_or! Hin; subst; done || apply Hc || lia.
  - intros Hin. destruct_or! Hin; subst; done || apply Hc || lia.
  - intros Hin. destruct_or! Hin; subst; try apply Hc. by apply IH.
Qed.

(** The last groups, whose missing bytes are zero bits. *)
Lemma sextets_padded b0 b1 :
  is_code b0 -> is_code b1 ->
  group (sextet (b0 * 65536 + b1 * 256) 0) (sextet (b0 * 65536 + b1 * 256) 1)
    (sextet (b0 * 65536 + b1 * 256) 2) 0 = b0 * 65536 + b1 * 256 + 0.
Proof.
  unfold is_code. intros H0 H1. rewrite <- (sextets_group (b0 * 65536 + b1 * 256 + 0)) by lia.
  rewrite Z.add_0_r. f_equal. unfold sextet. change (18 - 6 * 3) with 0. rewrite Z.shiftr_0_r. div_lia.
Qed.

Lemma sextets_padded2 b0 :
  is_code b0 ->
  group (sextet (b0 * 65536) 0) (sextet (b0 * 65536) 1) 0 0 = b0 * 65536 + 0 * 256 + 0.
Proof.
  intros H0. rewrite <- sextets_padded by (done || unfold is_code; lia).
  rewrite Z.add_0_r. f_equal. unfold sextet. rewrite Z.shiftr_div_pow2 by lia.
  change (2 ^ (18 - 6 * 2)) with 64. unfold is_code in *. div_lia.
Qed.

Lemma decode_encode_groups l : Forall is_code l -> decode_groups (base64_encode l) = Some l.
Proof.
  assert (forall v i, b64_val (b64_char (sextet v i)) = Some (sextet v i)) as Hv
    by (intros v i; apply b64_val_char, sextet_range).
  assert (forall v i, (b64_char (sextet v i) =? pad) = false) as Hp
    by (intros v i; apply Z.eqb_neq, b64_char_ok, sextet_range).
  assert (is_code 0) as Hz by (unfold is_code; lia).
  induction l as [|b0|b0 b1|b0 b1 b2 l IH] using triple_ind; intros Hl;
    rewrite ?Forall_cons in Hl; cbn [base64_encode decode_groups]; [done|..].
  - destruct Hl as [H0 _]. rewrite !Hv. cbn [mbind option_bind]. rewrite Z.eqb_refl.
    rewrite sextets_padded2 by done. by destruct (octets_of b0 0 0) as (-> & _ & _).
  - destruct Hl as (H0 & H1 & _). rewrite !Hv. cbn [mbind option_bind]. rewrite Hp, Z.eqb_refl.
    rewrite sextets_padded by done. by destruct (octets_of b0 b1 0) as (-> & -> & _).
  - destruct Hl as (H0 & H1 & H2 & Hl). rewrite !Hv. cbn [mbind option_bind]. rewrite !Hp, (IH Hl).
    cbn [mbind option_bind]. rewrite sextets_group by (unfold is_code in *; lia).
    by destruct (octets_of b0 b1 b2) as (-> & -> & ->).
Qed.

Lemma base64_roundtrip l : Forall is_code l -> base64_decode (base64_encode l) = Some l.
Proof.
  intros Hl. unfold base64_decode. rewrite list_filter_all; [by apply decode_encode_groups|].
  apply Forall_forall. intros c Hc%base64_encode_chars. lia.
Qed.

(** ** strconv: decimal integers *)

Fixpoint uint_text (d : Decimal.uint) : text :=
  match d with
  | Decimal.Nil => []
  | Decimal.D0 d => 48 :: uint_text d
  | Decimal.D1 d => 49 :: uint_text d
  | Decimal.D2 d => 50 :: uint_text d
  | Decimal.D3 d => 51 :: uint_text d
  | Decimal.D4 d => 52 :: uint_text d
  | Decimal.D5 d => 53 :: uint_text d
  | Decimal.D6 d => 54 :: uint_text d
  | Decimal.D7 d => 55 :: uint_text d
  | Decimal.D8 d => 56 :: uint_text d
  | Decimal.D9 d => 57 :: uint_text d
  end.

Definition minus : code := 45.

(** [strconv.AppendInt(b, z, 10)] *)
Definition decimal (z : Z) : text :=
  match Z.to_int z with
  | Decimal.Pos d => uint_text d
  | Decimal.Neg d => minus :: uint_text d
  end.

Definition digit (c : code) : bool := in_range 48 57 c.

Definition push_digit (c : code) (d : Decimal.uint) : Decimal.uint :=
  if c =? 48 then Decimal.D0 d else if c =? 49 then Decimal.D1 d
  else if c =? 50 then Decimal.D2 d else if c =? 51 then Decimal.D3 d
  else if c =? 52 then Decimal.D4 d else if c =? 53 then Decimal.D5 d
  else if c =? 54 then Decimal.D6 d else if c =? 55 then Decimal.D7 d
  else if c =? 56 then Decimal.D8 d else Decimal.D9 d.

Fixpoint parse_uint (l : text) : option Decimal.uint :=
  match l with
  | [] => Some Decimal.Nil
  | c :: l => if digit c then push_digit c <$> parse_uint l else None
  end.

(** The integer a literal denotes, if it is one. *)
Definition parse_int (l : text) : option Z :=
  match l with
  | [] => None
  | c :: l' =>
      if c =? minus then
        match l' with
        | [] => None
        | _ => (fun d => Z.of_int (Decimal.Neg d)) <$> parse_uint l'
        end
      else (fun d => Z.of_int (Decimal.Pos d)) <$> parse_uint l
  end.

Lemma parse_uint_text d : parse_uint (uint_text d) = Some d.
Proof. induction d; simpl; rewrite ?IHd; done. Qed.

Lemma uint_text_digits d : Forall (fun c => digit c = true) (uint_text d).
Proof. induction d; simpl; by constructor. Qed.

(** A canonical literal: zero, or a first digit other than zero. *)
Definition canonical (l : text) : Prop :=
  l = [48] \/ exists c l', l = c :: l' /\ in_range 49 57 c = true /\ Forall (fun c => digit c = true) l'.

Lemma nzhead_no_zero d d' : Decimal.nzhead d <> Decimal.D0 d'.
Proof. induction d; simpl; done. Qed.

Lemma canonical_unorm d : Decimal.unorm d = d -> canonical (uint_text d).
Proof.
  intros H. destruct d as [|d|d|d|d|d|d|d|d|d|d]; simpl; [done| |..];
    try (right; eexists _, _; split_and!; [done|done|apply uint_text_digits]).
  left. unfold Decimal.unorm in H. simpl in H.
  destruct (Decimal.nzhead d) eqn:E; try done; [by injection H as <-|].
  by apply nzhead_no_zero in E.
Qed.

(** The shape of a printed integer. *)
Lemma decimal_shape z :
  exists d, canonical (uint_text d) /\
    ((decimal z = uint_text d /\ Z.of_int (Decimal.Pos d) = z) \/
     (decimal z = minus :: uint_text d /\ Z.of_int (Decimal.Neg d) = z)).
Proof.
  unfold decimal. pose proof (DecimalZ.of_to z) as Hz. pose proof (DecimalZ.to_of (Z.to_int z)) as H.
  rewrite Hz in H. destruct (Z.to_int z) as [d|d]; exists d.
  - split; [|by left]. apply canonical_unorm. simpl in H. by injection H.
  - split; [|by right]. simpl in H. unfold Decimal.norm in H.
    destruct (Decimal.nzhead d) as [|d'|d'|d'|d'|d'|d'|d'|d'|d'|d'] eqn:En; try done;
      [by apply nzhead_no_zero in En|..]; injection H as ->;
      right; eexists _, _; (split_and!; [done|done|apply uint_text_digits]).
Qed.

Lemma canonical_head l c l' : canonical l -> l = c :: l' -> c <> minus.
Proof.
  intros [->|(c0 & l0 & -> & Hc & _)]; intros [= <- _]; unfold in_range, minus in *; lia.
Qed.

Lemma parse_decimal z : parse_int (decimal z) = Some z.
Proof.
  destruct (decimal_shape z) as (d & Hl & [[-> Hz]|[-> Hz]]).
  - assert (uint_text d <> []) as Hne by (destruct Hl as [->|(? & ? & -> & _)]; done).
    pose proof (parse_uint_text d) as Hp. destruct (uint_text d) as [|c l'] eqn:E; [done|].
    unfold parse_int. rewrite (proj2 (Z.eqb_neq c minus)) by by eapply canonical_head.
    by rewrite Hp, <- Hz.
  - assert (uint_text d <> []) as Hne by (destruct Hl as [->|(? & ? & -> & _)]; done).
    pose proof (parse_uint_text d) as Hp. unfold parse_int. rewrite Z.eqb_refl.
    destruct (uint_text d) as [|c l'] eqn:E; [done|]. by rewrite Hp, <- Hz.
Qed.
