(* ===== verification/Json.v ===== *)
(** * encoding/json

    What the codec, the gossip messages and the HTTP endpoints use of Go's
    encoding/json: the text of a value ([print], as [Marshal] writes it) and the
    value of a text ([parse], as [Unmarshal] reads it, with the syntax errors,
    the escapes, the replacement of invalid UTF-8 and the limit on nesting).
    [parse_print] is the round trip: what is read back is what was written, with
    every string sanitized. *)

From S2P Require Import Prelude GoLib Text.

#[local] Open Scope Z_scope.

(** ** Values *)

(** A number is its literal; a string and a key are their codes. *)
Unset Elimination Schemes.
Inductive json :=
  | JNull
  | JBool (b : bool)
  | JNum (literal : text)
  | JStr (s : text)
  | JArr (l : list json)
  | JObj (members : list (text * json)).
Set Elimination Schemes.

Section json_ind.
Context (P : json -> Prop).
Context (Hnull : P JNull) (Hbool : forall b, P (JBool b)) (Hnum : forall l, P (JNum l)).
Context (Hstr : forall s, P (JStr s)) (Harr : forall l, Forall P l -> P (JArr l)).
Context (Hobj : forall kvs, Forall (fun kv => P kv.2) kvs -> P (JObj kvs)).

Fixpoint json_ind (j : json) : P j :=
  match j with
  | JNull => Hnull
  | JBool b => Hbool b
  | JNum l => Hnum l
  | JStr s => Hstr s
  | JArr l =>
      Harr l ((fix go l : Forall P l :=
        match l with
        | [] => List.Forall_nil _
        | j :: l => @List.Forall_cons _ P j l (json_ind j) (go l)
        end) l)
  | JObj kvs =>
      Hobj kvs ((fix go kvs : Forall (fun kv => P kv.2) kvs :=
        match kvs with
        | [] => List.Forall_nil _
        | (k, j) :: kvs => @List.Forall_cons _ (fun kv => P kv.2) (k, j) kvs (json_ind j) (go kvs)
        end) kvs)
  end.
End json_ind.

(** ** Writing *)

Definition quote : code := 34.
Definition backslash : code := 92.
Definition comma : code := 44.
Definition colon : code := 58.

Definition hex_digit (v : Z) : code := if v <? 10 then 48 + v else 97 + (v - 10).

(** A character below 128: the short escapes, the control characters and the
    three characters that are special in HTML. *)
Definition escape_ascii (c : code) : text :=
  if (c =? quote) || (c =? backslash) then [backslash; c]
  else if c =? 8 then [backslash; 98]
  else if c =? 12 then [backslash; 102]
  else if c =? 10 then [backslash; 110]
  else if c =? 13 then [backslash; 114]
  else if c =? 9 then [backslash; 116]
  else if (c <? 32) || (c =? 60) || (c =? 62) || (c =? 38)
       then [backslash; 117; 48; 48; hex_digit (c / 16); hex_digit (c mod 16)]
  else [c].

(** U+2028 and U+2029 are escaped for JavaScript. *)
Definition escape_rune (r : option text) : text :=
  match r with
  | None => codes "\ufffd"
  | Some [c] => escape_ascii c
  | Some bs =>
      if bool_decide (bs = [226; 128; 168]) then codes "\u2028"
      else if bool_decide (bs = [226; 128; 169]) then codes "\u2029"
      else bs
  end.

Definition escape (s : text) : text := concat (escape_rune <$> runes s).

Definition print_string (s : text) : text := quote :: escape s ++ [quote].

Fixpoint join (l : list text) : text :=
  match l with
  | [] => []
  | [t] => t
  | t :: l => t ++ comma :: join l
  end.

Fixpoint print (j : json) : text :=
  match j with
  | JNull => codes "null"
  | JBool true => codes "true"
  | JBool false => codes "false"
  | JNum l => l
  | JStr s => print_string s
  | JArr l => 91 :: join (print <$> l) ++ [93]
  | JObj kvs => 123 :: join ((fun kv => print_string kv.1 ++ colon :: print kv.2) <$> kvs) ++ [125]
  end.

(** ** Reading *)

Definition hex_val (c : code) : option Z :=
  if in_range 48 57 c then Some (c - 48)
  else if in_range 97 102 c then Some (c - 97 + 10)
  else if in_range 65 70 c then Some (c - 65 + 10)
  else None.

(** Four hexadecimal digits. *)
Definition hex4 (l : text) : option (Z * text) :=
  match l with
  | a :: b :: c :: d :: l =>
      a ← hex_val a; b ← hex_val b; c ← hex_val c; d ← hex_val d;
      Some (a * 4096 + b * 256 + c * 16 + d, l)
  | _ => None
  end.

Definition unescape (e : code) : option code :=
  if (e =? quote) || (e =? backslash) || (e =? 47) then Some e
  else if e =? 98 then Some 8
  else if e =? 102 then Some 12
  else if e =? 110 then Some 10
  else if e =? 114 then Some 13
  else if e =? 116 then Some 9
  else None.

(** The second half of a surrogate pair, [utf16.DecodeRune]. *)
Definition low_half (hi : Z) (l : text) : option (Z * text) :=
  match l with
  | e :: u :: l =>
      if (e =? backslash) && (u =? 117) then
        '(lo, l) ← hex4 l;
        if in_range 55296 56319 hi && in_range 56320 57343 lo
        then Some ((hi - 55296) * 1024 + (lo - 56320) + 65536, l) else None
      else None
  | _ => None
  end.

(** The rest of a string, up to its closing quote: its codes and what follows.
    Every round takes a code, so the length of the text is enough fuel. *)
Fixpoint unquote (n : nat) (l : text) : option (text * text) :=
  match n, l with
  | S n, c :: l =>
      if c =? quote then Some ([], l)
      else if c =? backslash then
        match l with
        | [] => None
        | e :: l =>
            if e =? 117 then
              '(r, l) ← hex4 l;
              let '(bs, l) :=
                if in_range 55296 57343 r then
                  match low_half r l with
                  | Some (r, l) => (utf8_encode r, l)
                  | None => (replacement, l)
                  end
                else (utf8_encode r, l) in
              '(s, l) ← unquote n l; Some (bs ++ s, l)
            else
              c ← unescape e; '(s, l) ← unquote n l; Some (c :: s, l)
        end
      else if c <? 32 then None
      else
        let '(r, l) := first_rune c l in
        '(s, l) ← unquote n l; Some (default replacement r ++ s, l)
  | _, _ => None
  end.

Definition read_string (l : text) : option (text * text) := unquote (length l) l.

Definition space (c : code) : bool := (c =? 32) || (c =? 9) || (c =? 10) || (c =? 13).

Fixpoint skip (l : text) : text :=
  match l with
  | c :: l' => if space c then skip l' else l
  | [] => []
  end.

Fixpoint span (P : code -> bool) (l : text) : text * text :=
  match l with
  | c :: l' => if P c then let '(a, b) := span P l' in (c :: a, b) else ([], l)
  | [] => ([], [])
  end.

Definition digits1 (l : text) : option (text * text) :=
  match span digit l with
  | ([], _) => None
  | r => Some r
  end.

Definition int_part (l : text) : option (text * text) :=
  match l with
  | c :: l =>
      if c =? 48 then Some ([c], l)
      else if in_range 49 57 c then let '(ds, l) := span digit l in Some (c :: ds, l)
      else None
  | [] => None
  end.

Definition frac_part (l : text) : option (text * text) :=
  match l with
  | c :: l' =>
      if c =? 46 then '(ds, l) ← digits1 l'; Some (c :: ds, l) else Some ([], l)
  | [] => Some ([], l)
  end.

Definition exp_part (l : text) : option (text * text) :=
  match l with
  | c :: l' =>
      if (c =? 101) || (c =? 69) then
        match l' with
        | s :: l'' =>
            if (s =? 43) || (s =? minus)
            then '(ds, l) ← digits1 l''; Some (c :: s :: ds, l)
            else '(ds, l) ← digits1 l'; Some (c :: ds, l)
        | [] => None
        end
      else Some ([], l)
  | [] => Some ([], l)
  end.

Definition read_number (l : text) : option (text * text) :=
  let '(sign, l) :=
    match l with
    | c :: l' => if c =? minus then ([c], l') else ([], l)
    | [] => ([], l)
    end in
  '(ip, l) ← int_part l; '(fp, l) ← frac_part l; '(ep, l) ← exp_part l;
  Some (sign ++ ip ++ fp ++ ep, l).

(** A keyword, after its first letter. *)
Fixpoint expect (w l : text) : option text :=
  match w, l with
  | [], _ => Some l
  | c :: w, c' :: l => if c =? c' then expect w l else None
  | _ :: _, [] => None
  end.

(** The deepest nesting that is accepted. *)
Definition maxNestingDepth : Z := 10000.

(** A value at nesting depth [d], the members of an object and the elements of
    an array up to their closing bracket; what follows is returned.  Of two nested
    calls one takes a code, so twice the length of the text is enough fuel. *)
Fixpoint read_value (n : nat) (d : Z) (l : text) {struct n} : option (json * text) :=
  match n, skip l with
  | S n, c :: l =>
      if c =? 123 then
        if maxNestingDepth <? d + 1 then None
        else match skip l with
             | c' :: l' =>
                 if c' =? 125 then Some (JObj [], l')
                 else '(kvs, l) ← read_members n (d + 1) l; Some (JObj kvs, l)
             | [] => None
             end
      else if c =? 91 then
        if maxNestingDepth <? d + 1 then None
        else match skip l with
             | c' :: l' =>
                 if c' =? 93 then Some (JArr [], l')
                 else '(js, l) ← read_elements n (d + 1) l; Some (JArr js, l)
             | [] => None
             end
      else if c =? quote then '(s, l) ← read_string l; Some (JStr s, l)
      else if c =? 110 then l ← expect (codes "ull") l; Some (JNull, l)
      else if c =? 116 then l ← expect (codes "rue") l; Some (JBool true, l)
      else if c =? 102 then l ← expect (codes "alse") l; Some (JBool false, l)
      else '(lit, l) ← read_number (c :: l); Some (JNum lit, l)
  | _, _ => None
  end
with read_members (n : nat) (d : Z) (l : text) {struct n} : option (list (text * json) * text) :=
  match n, skip l with
  | S n, c :: l =>
      if c =? quote then
        '(k, l) ← read_string l;
        match skip l with
        | c :: l =>
            if c =? colon then
              '(v, l) ← read_value n d l;
              match skip l with
              | c :: l =>
                  if c =? comma then '(kvs, l) ← read_members n d l; Some ((k, v) :: kvs, l)
                  else if c =? 125 then Some ([(k, v)], l)
                  else None
              | [] => None
              end
            else None
        | [] => None
        end
      else None
  | _, _ => None
  end
with read_elements (n : nat) (d : Z) (l : text) {struct n} : option (list json * text) :=
  match n with
  | S n =>
      '(v, l) ← read_value n d l;
      match skip l with
      | c :: l =>
          if c =? comma then '(js, l) ← read_elements n d l; Some (v :: js, l)
          else if c =? 93 then Some ([v], l)
          else None
      | [] => None
      end
  | O => None
  end.

(** [json.Decoder.Decode]: the first value of a stream. *)
Definition parse_first (l : text) : option (json * text) := read_value (S (length l + length l)) 0 l.

(** [json.Unmarshal]: one value and nothing else. *)
Definition parse (l : text) : option json :=
  '(j, rest) ← parse_first l;
  match skip rest with [] => Some j | _ => None end.

(** ** Strings *)

Lemma hex_val_digit v : 0 <= v < 16 -> hex_val (hex_digit v) = Some v.
Proof. intros Hv. unfold hex_val, hex_digit, in_range. repeat case_match; f_equal; lia. Qed.

Lemma escape_cons b0 l0 :
  escape (b0 :: l0) = escape_rune (first_rune b0 l0).1 ++ escape (first_rune b0 l0).2.
Proof. unfold escape. by rewrite runes_cons. Qed.

(** One escaped character, read back in one round. *)
Lemma unquote_ascii n c l s l' :
  0 <= c < 128 -> unquote n l = Some (s, l') ->
  unquote (S n) (escape_ascii c ++ l) = Some (c :: s, l').
Proof.
  intros Hc Hl. unfold escape_ascii.
  destruct ((c =? quote) || (c =? backslash)) eqn:E1.
  { cbn. unfold unescape. unfold quote, backslash in *.
    destruct (Z.eqb_spec c 117); [lia|]. rewrite E1. simpl. by rewrite Hl. }
  unfold quote, backslash in E1.
  repeat (case_match; [cbn; rewrite Hl; cbn; do 3 f_equal; lia|]).
  case_match.
  - cbn. rewrite !hex_val_digit by div_lia. cbn.
    replace ((48 - 48) * 4096 + (48 - 48) * 256 + c / 16 * 16 + c mod 16) with c by div_lia.
    unfold in_range. destruct (Z.leb_spec 55296 c); [lia|]. cbn. rewrite Hl. cbn.
    unfold utf8_encode. by destruct (Z.ltb_spec c 128); [|lia].
  - cbn. unfold quote, backslash. destruct (Z.eqb_spec c 34); [lia|]. destruct (Z.eqb_spec c 92); [lia|].
    destruct (Z.ltb_spec c 32); [lia|]. unfold first_rune. cbn.
    destruct (Z.ltb_spec c 128); [|lia]. by rewrite Hl.
Qed.

(** The escapes of runes. *)
Lemma unquote_u n w bs l :
  (w = "\u2028" /\ bs = [226; 128; 168]) \/ (w = "\u2029" /\ bs = [226; 128; 169]) \/
  (w = "\ufffd" /\ bs = replacement) ->
  unquote (S n) (codes w ++ l) = ('(s, l) ← unquote n l; Some (bs ++ s, l)).
Proof. intros [[-> ->]|[[-> ->]|[-> ->]]]; reflexivity. Qed.

Lemma unquote_rune n b0 l0 l s l' :
  is_code b0 -> unquote n l = Some (s, l') ->
  unquote (S n) (escape_rune (first_rune b0 l0).1 ++ l)
  = Some (default replacement (first_rune b0 l0).1 ++ s, l').
Proof.
  intros Hb Hl. destruct (first_rune b0 l0) as [[bs|] l1] eqn:E; apply first_rune_spec in E; cbn [fst default from_option id].
  - destruct E as [Hv Heq]. destruct bs as [|c [|c1 bs]]; [done| |].
    { simpl in Heq. injection Heq as -> _. simpl in Hv. apply unquote_ascii; [|done].
      unfold is_code in Hb. lia. }
    unfold escape_rune. case_bool_decide as E8.
    { rewrite E8, (unquote_u n _ [226; 128; 168]) by auto. by rewrite Hl. }
    case_bool_decide as E9.
    { rewrite E9, (unquote_u n _ [226; 128; 169]) by auto. by rewrite Hl. }
    assert (194 <= c) as Hc by (destruct bs as [|c2 [|c3 [|]]]; simpl in Hv; unfold_utf8; lia).
    cbn [app unquote]. unfold quote, backslash. destruct (Z.eqb_spec c 34); [lia|].
    destruct (Z.eqb_spec c 92); [lia|]. destruct (Z.ltb_spec c 32); [lia|].
    change (c1 :: bs ++ l) with ((c1 :: bs) ++ l). rewrite first_rune_valid by done. by rewrite Hl.
  - unfold escape_rune. rewrite (unquote_u n _ replacement) by auto. by rewrite Hl.
Qed.

(** What was escaped is read back, sanitized. *)
Lemma unquote_escape l n rest :
  Forall is_code l -> (length (runes l) < n)%nat ->
  unquote n (escape l ++ quote :: rest) = Some (sanitize l, rest).
Proof.
  revert n. induction l as [|b0 l0 IH] using runes_ind; intros n Hl Hn.
  { destruct n; [simpl in Hn; lia|done]. }
  rewrite runes_cons in Hn. simpl in Hn. destruct n as [|n]; [lia|].
  rewrite escape_cons, sanitize_cons, <- app_assoc.
  apply unquote_rune; [by apply Forall_cons in Hl as [? _]|]. apply IH; [|lia].
  destruct (first_rune b0 l0) as [[bs|] l1] eqn:E; apply first_rune_spec in E; simpl.
  - destruct E as [_ E]. rewrite E in Hl. by apply Forall_app in Hl as [_ ?].
  - destruct E as [-> _]. by apply Forall_cons in Hl as [_ ?].
Qed.

Lemma escape_rune_length b0 l0 : (1 <= length (escape_rune (first_rune b0 l0).1))%nat.
Proof.
  destruct (first_rune b0 l0) as [[bs|] l1] eqn:E; [|simpl; lia]. apply first_rune_spec in E as [Hv _].
  destruct bs as [|c [|c1 bs]]; [done| |].
  - simpl. unfold escape_ascii. repeat case_match; simpl; lia.
  - simpl. repeat case_match; simpl; lia.
Qed.

Lemma runes_escape_length l : (length (runes l) <= length (escape l))%nat.
Proof.
  induction l as [|b0 l0 IH] using runes_ind; [done|].
  rewrite runes_cons, escape_cons, length_app. simpl. pose proof (escape_rune_length b0 l0). lia.
Qed.

Lemma read_print_string s rest :
  Forall is_code s -> read_string (escape s ++ quote :: rest) = Some (sanitize s, rest).
Proof.
  intros Hs. apply unquote_escape; [done|]. rewrite length_app. simpl.
  pose proof (runes_escape_length s). lia.
Qed.

(** ** Numbers *)

(** What may follow a number. *)
Definition delimited (l : text) : bool :=
  match l with
  | [] => true
  | c :: _ => negb (digit c || (c =? 46) || (c =? 101) || (c =? 69))
  end.

Lemma span_digits ds rest :
  Forall (fun c => digit c = true) ds -> delimited rest = true -> span digit (ds ++ rest) = (ds, rest).
Proof.
  intros Hds Hr. induction Hds as [|c ds Hc _ IH]; simpl.
  - destruct rest as [|c rest]; [done|]. simpl in *. by destruct (digit c).
  - by rewrite Hc, IH.
Qed.

Lemma number_end rest :
  delimited rest = true -> frac_part rest = Some ([], rest) /\ exp_part rest = Some ([], rest).
Proof.
  destruct rest as [|c rest]; [done|]. simpl. intros H.
  destruct (c =? 46); [by rewrite orb_true_r in H|].
  destruct (c =? 101); [by rewrite !orb_true_r in H|].
  by destruct (c =? 69); [rewrite !orb_true_r in H|].
Qed.

Lemma int_part_canonical l rest :
  canonical l -> delimited rest = true -> int_part (l ++ rest) = Some (l, rest).
Proof.
  intros [->|(c & ds & -> & Hc & Hds)] Hr; [done|]. simpl. rewrite Hc.
  destruct (Z.eqb_spec c 48) as [->|_]; [done|]. by rewrite span_digits.
Qed.

Lemma read_number_decimal z rest :
  delimited rest = true -> read_number (decimal z ++ rest) = Some (decimal z, rest).
Proof.
  intros Hr. destruct (number_end rest Hr) as [Hf He]. unfold read_number.
  destruct (decimal_shape z) as (d & Hd & [[-> _]|[-> _]]).
  - pose proof (int_part_canonical _ rest Hd Hr) as Hi.
    destruct (uint_text d) as [|c l] eqn:E; [destruct Hd as [|(? & ? & ? & _)]; done|].
    cbn [app] in *. rewrite (proj2 (Z.eqb_neq c minus)) by by eapply canonical_head.
    rewrite Hi. cbn. rewrite Hf. cbn. rewrite He. cbn. by rewrite app_nil_r.
  - cbn [app]. rewrite Z.eqb_refl, int_part_canonical by done.
    cbn. rewrite Hf. cbn. rewrite He. cbn. by rewrite app_nil_r.
Qed.

(** The first code of a number is none that starts another value. *)
Lemma decimal_head z : exists c l, decimal z = c :: l /\ (digit c = true \/ c = minus).
Proof.
  destruct (decimal_shape z) as (d & Hd & [[-> _]|[-> _]]).
  - destruct Hd as [->|(c & l & -> & Hc & _)]; eexists _, _; (split; [done|]); left; [done|].
    unfold digit, in_range in *. lia.
  - eexists _, _. split; [done|by right].
Qed.

(** ** Values *)

Fixpoint san (j : json) : json :=
  match j with
  | JStr s => JStr (sanitize s)
  | JArr l => JArr (san <$> l)
  | JObj kvs => JObj ((fun kv => (sanitize kv.1, san kv.2)) <$> kvs)
  | j => j
  end.

(** Values that [Marshal] can produce: integers and strings of bytes. *)
Fixpoint json_ok (j : json) : Prop :=
  match j with
  | JNum l => exists z, l = decimal z
  | JStr s => Forall is_code s
  | JArr l => foldr (fun j P => json_ok j /\ P) True l
  | JObj kvs => foldr (fun kv P => Forall is_code kv.1 /\ json_ok kv.2 /\ P) True kvs
  | _ => True
  end.

Fixpoint nesting (j : json) : Z :=
  match j with
  | JArr l => 1 + foldr (fun j m => Z.max (nesting j) m) 0 l
  | JObj kvs => 1 + foldr (fun kv m => Z.max (nesting kv.2) m) 0 kvs
  | _ => 0
  end.

(** The rounds it takes to read a value. *)
Fixpoint rounds (j : json) : nat :=
  match j with
  | JArr l => S (foldr (fun j m => S (rounds j + m)%nat) 0%nat l)
  | JObj kvs => S (foldr (fun kv m => S (rounds kv.2 + m)%nat) 0%nat kvs)
  | _ => 1
  end.

Definition reads (j : json) : Prop :=
  forall n d rest, (rounds j <= n)%nat -> d + nesting j <= maxNestingDepth -> delimited rest = true ->
    json_ok j -> read_value n d (print j ++ rest) = Some (san j, rest).

Lemma nesting_nonneg j : 0 <= nesting j.
Proof.
  induction j as [| | | |l _|kvs _] using json_ind; simpl; try lia.
  - induction l; simpl; lia.
  - induction kvs; simpl; lia.
Qed.

Lemma print_head j : json_ok j -> exists c l, print j = c :: l /\ space c = false.
Proof.
  destruct j as [|[]|l|s|l|kvs]; simpl; try (by eexists _, _).
  intros [z ->]. destruct (decimal_head z) as (c & l & -> & Hc). exists c, l. split; [done|].
  unfold space, digit, in_range, minus in *. lia.
Qed.

Lemma skip_print j rest : json_ok j -> skip (print j ++ rest) = print j ++ rest.
Proof. intros H. destruct (print_head j H) as (c & l & -> & Hc). simpl. by rewrite Hc. Qed.

Lemma reads_leaf j :
  match j with JArr _ | JObj _ => False | _ => True end -> reads j.
Proof.
  intros Hj n d rest Hn Hd Hr Hok. destruct n as [|n]; [destruct j; simpl in Hn; lia|].
  destruct j as [|[]|l|s|l|kvs]; try done.
  - destruct Hok as [z ->]. pose proof (read_number_decimal z rest Hr) as Hz.
    destruct (decimal_head z) as (c & l & E & Hc). cbn [print san]. rewrite E in *.
    cbn [app read_value skip] in *.
    assert (48 <= c <= 57 \/ c = 45) as Hc' by (unfold digit, in_range, minus in *; lia).
    assert (space c = false) as -> by (unfold space; lia).
    unfold quote. rewrite !(proj2 (Z.eqb_neq c _)) by lia. by rewrite Hz.
  - cbn [print san]. unfold print_string. cbn [app]. rewrite <- app_assoc. cbn [app].
    cbn [read_value skip]. cbn. by rewrite read_print_string.
Qed.

Lemma reads_elements l n d rest :
  l <> [] -> Forall reads l -> json_ok (JArr l) ->
  (foldr (fun j m => S (rounds j + m)%nat) 0%nat l <= n)%nat ->
  d + foldr (fun j m => Z.max (nesting j) m) 0 l <= maxNestingDepth ->
  read_elements n d (join (print <$> l) ++ 93 :: rest) = Some (san <$> l, rest).
Proof.
  intros Hne Hl. revert n Hne. induction Hl as [|j l Hj Hl IH]; intros n Hne Hok Hn Hd; [done|].
  simpl in Hn, Hd, Hok. destruct Hok as [Hj' Hok]. destruct n as [|n]; [lia|].
  assert (forall c t, (c = comma \/ c = 93) ->
    read_value n d (print j ++ c :: t) = Some (san j, c :: t)) as Hv.
  { intros c t Hc. apply Hj; [lia|lia| |done]. destruct Hc as [-> | ->]; done. }
  destruct l as [|j' l].
  - cbn [fmap list_fmap join read_elements]. rewrite Hv by by right. done.
  - cbn [fmap list_fmap join]. fold (print <$> (j' :: l)). rewrite <- app_assoc.
    cbn [app read_elements]. rewrite Hv by by left. cbn [mbind option_bind skip].
    change (space comma) with false. cbn. rewrite IH by (done || lia). done.
Qed.

Lemma reads_members kvs n d rest :
  kvs <> [] -> Forall (fun kv => reads kv.2) kvs -> json_ok (JObj kvs) ->
  (foldr (fun kv m => S (rounds kv.2 + m)%nat) 0%nat kvs <= n)%nat ->
  d + foldr (fun kv m => Z.max (nesting kv.2) m) 0 kvs <= maxNestingDepth ->
  read_members n d
    (join ((fun kv => print_string kv.1 ++ colon :: print kv.2) <$> kvs) ++ 125 :: rest)
  = Some ((fun kv => (sanitize kv.1, san kv.2)) <$> kvs, rest).
Proof.
  intros Hne Hl. revert n Hne. induction Hl as [|[k j] kvs Hj Hl IH]; intros n Hne Hok Hn Hd; [done|].
  simpl in Hn, Hd, Hok, Hj. destruct Hok as (Hk & Hj' & Hok). destruct n as [|n]; [lia|].
  assert (forall c t, (c = comma \/ c = 125) ->
    read_value n d (print j ++ c :: t) = Some (san j, c :: t)) as Hv.
  { intros c t Hc. apply Hj; [lia|lia| |done]. destruct Hc as [-> | ->]; done. }
  assert (forall t, read_members (S n) d ((print_string k ++ colon :: print j) ++ t) =
    ('(v, l) ← read_value n d (print j ++ t);
     match skip l with
     | c :: l =>
         if c =? comma then '(kvs, l) ← read_members n d l; Some ((sanitize k, v) :: kvs, l)
         else if c =? 125 then Some ([(sanitize k, v)], l)
         else None
     | [] => None
     end)) as Hm.
  { intros t. unfold print_string. rewrite <- !app_assoc. cbn [app].
    cbn [read_members skip]. change (space quote) with false. cbn iota.
    rewrite <- app_assoc. cbn [app]. rewrite Z.eqb_refl, read_print_string by done.
    cbn [mbind option_bind skip]. change (space colon) with false. cbn iota. by rewrite Z.eqb_refl. }
  destruct kvs as [|kv kvs].
  - cbn [fmap list_fmap join fst snd]. rewrite Hm, Hv by by right. done.
  - cbn [fmap list_fmap join fst snd].
    fold ((fun kv => print_string kv.1 ++ colon :: print kv.2) <$> (kv :: kvs)).
    rewrite <- app_assoc. cbn [app]. rewrite Hm, Hv by by left. cbn [mbind option_bind skip].
    change (space comma) with false. cbn iota. rewrite Z.eqb_refl.
    rewrite IH by (done || lia). done.
Qed.

Lemma print_reads j : reads j.
Proof.
  induction j as [|b|l|s|l Hl|kvs Hkvs] using json_ind; try by apply reads_leaf.
  - intros n d rest Hn Hd Hr Hok. destruct n as [|n]; [simpl in Hn; lia|].
    cbn [print san nesting rounds] in *. cbn [app read_value skip]. change (space 91) with false.
    cbn iota. change (91 =? 123) with false. change (91 =? 91) with true. cbn iota.
    destruct (Z.ltb_spec maxNestingDepth (d + 1)) as [Hlt|_].
    { exfalso. assert (0 <= foldr (fun j m => Z.max (nesting j) m) 0 l) by (clear; induction l; simpl; lia).
      lia. }
    destruct l as [|j l]; [done|]. rewrite <- app_assoc. cbn [app].
    assert (skip (join (print <$> j :: l) ++ 93 :: rest) = join (print <$> j :: l) ++ 93 :: rest
      /\ exists c t, join (print <$> j :: l) ++ 93 :: rest = c :: t /\ c <> 93) as [Hs (c & t & E & Hc)].
    { destruct Hok as [Hj _]. destruct (print_head j Hj) as (c & t & Ej & Hc).
      assert (exists t', join (print <$> j :: l) = c :: t') as [t' ->]
        by (destruct l; cbn; rewrite Ej; by eexists).
      split; [cbn; by rewrite Hc|]. eexists c, _. split; [done|]. intros ->.
      destruct j as [|[]|l'|s|l'|kvs]; simplify_eq/=.
      destruct Hj as [z Hz]. destruct (decimal_head z) as (c' & l'' & E' & H').
      rewrite E' in Hz. simplify_eq. unfold digit, in_range, minus in H'. lia. }
    rewrite Hs, E. rewrite (proj2 (Z.eqb_neq c 93)) by done. rewrite <- E.
    rewrite reads_elements by (done || lia). done.
  - intros n d rest Hn Hd Hr Hok. destruct n as [|n]; [simpl in Hn; lia|].
    cbn [print san nesting rounds] in *. cbn [app read_value skip]. change (space 123) with false.
    cbn iota. change (123 =? 123) with true. cbn iota.
    destruct (Z.ltb_spec maxNestingDepth (d + 1)) as [Hlt|_].
    { exfalso. assert (0 <= foldr (fun kv m => Z.max (nesting kv.2) m) 0 kvs)
        by (clear; induction kvs; simpl; lia). lia. }
    destruct kvs as [|kv kvs]; [done|]. rewrite <- app_assoc. cbn [app].
    set (t := join _ ++ 125 :: rest).
    assert (exists t', t = quote :: t') as [t' E]
      by (subst t; destruct kvs; cbn; by eexists).
    rewrite E. cbn [skip]. change (space quote) with false. cbn iota.
    change (quote =? 125) with false. cbn iota. rewrite <- E. subst t.
    rewrite reads_members by (done || lia). done.
Qed.

Lemma rounds_print j : json_ok j -> (rounds j + 1 <= length (print j) + length (print j))%nat.
Proof.
  induction j as [|b|l|s|l Hl|kvs Hkvs] using json_ind; intros Hok.
  - simpl. lia.
  - destruct b; simpl; lia.
  - destruct Hok as [z ->]. destruct (decimal_head z) as (c & l & E & _). simpl. rewrite E. simpl. lia.
  - simpl. rewrite length_app. simpl. lia.
  - cbn [rounds print]. cbn [length]. rewrite length_app. cbn [length].
    assert (foldr (fun j m => S (rounds j + m)%nat) 0%nat l
      <= length (join (print <$> l)) + length (join (print <$> l)))%nat; [|lia].
    simpl in Hok. induction Hl as [|j l Hj _ IH]; [simpl; lia|]. destruct Hok as [Hj' Hok].
    specialize (IH Hok). specialize (Hj Hj'). destruct l as [|j' l]; [simpl in *; lia|].
    cbn [fmap list_fmap join] in *. cbn [foldr]. rewrite length_app. cbn [length]. cbn [foldr] in IH. lia.
  - cbn [rounds print]. cbn [length]. rewrite length_app. cbn [length].
    set (f := fun kv : text * json => print_string kv.1 ++ colon :: print kv.2).
    assert (foldr (fun kv m => S (rounds kv.2 + m)%nat) 0%nat kvs
      <= length (join (f <$> kvs)) + length (join (f <$> kvs)))%nat; [|lia].
    simpl in Hok. induction Hkvs as [|kv kvs Hj _ IH]; [simpl; lia|]. destruct Hok as (_ & Hj' & Hok).
    specialize (IH Hok). specialize (Hj Hj').
    assert (rounds kv.2 + 1 <= length (f kv) + length (f kv))%nat as Hf
      by (subst f; simpl; rewrite !length_app; simpl; lia).
    destruct kvs as [|kv' kvs]; [simpl in *; lia|].
    cbn [fmap list_fmap join] in *. cbn [foldr]. rewrite length_app. cbn [length]. cbn [foldr] in IH. lia.
Qed.

Lemma parse_first_print j rest :
  json_ok j -> nesting j <= maxNestingDepth -> delimited rest = true ->
  parse_first (print j ++ rest) = Some (san j, rest).
Proof.
  intros Hok Hn Hr. apply print_reads; [|lia|done|done].
  pose proof (rounds_print j Hok). rewrite length_app. lia.
Qed.

(** What [Marshal] writes, [Unmarshal] reads, up to sanitized strings. *)
Lemma parse_print j :
  json_ok j -> nesting j <= maxNestingDepth -> parse (print j) = Some (san j).
Proof.
  intros Hok Hn. unfold parse. rewrite <- (app_nil_r (print j)).
  by rewrite parse_first_print.
Qed.
