(* ===== verification/Store.v ===== *)
(** * The storage engine: internal/store/store.go

    A store is a slice of shards, each a map from keys to entries, and a block
    of counters.  The critical sections of an operation are separate
    definitions where the source releases a lock between them ([get_read] and
    [get_reap] of [Get]); [Get] composes them.

    [contents] flattens the shards into one map; [store_refines] shows that the
    sharded store behaves as that map under every sequence of operations. *)

From S2P Require Import Prelude GoLib.

#[local] Open Scope Z_scope.

(** ** Data *)

Definition DefaultShardCount : Z := 256.

Record Entry := mkEntry {
  Value : bytes;
  ExpiresAt : Time; (* zero: no expiry *)
  CreatedAt : Time
}.

Record StoreStats := mkStats {
  Hits : Z;
  Misses : Z;
  Sets : Z;
  Deletes : Z;
  Expirations : Z
}.

(** The items of a shard; its mutex delimits the critical sections below. *)
Abbreviation shard := (gmap string Entry).

Record Store := mkStore {
  shards : list shard;
  shardMask : Z;
  stats : StoreStats
}.

#[global] Instance Entry_eq_dec : EqDecision Entry.
Proof. solve_decision. Defined.
#[global] Instance StoreStats_eq_dec : EqDecision StoreStats.
Proof. solve_decision. Defined.

(** ** Entry *)

(** [IsExpired], with the reading [now] of [time.Now()]. *)
Definition IsExpired (now : Time) (e : Entry) : bool :=
  if IsZero (ExpiresAt e) then false else After now (ExpiresAt e).

(** Time only makes entries expire. *)
Lemma IsExpired_mono t t' e : t <= t' -> IsExpired t e = true -> IsExpired t' e = true.
Proof.
  unfold IsExpired, After. destruct (IsZero (ExpiresAt e)); [done|].
  rewrite !Z.ltb_lt. lia.
Qed.

(** ** Counters *)

Definition incHits (s : StoreStats) : StoreStats :=
  mkStats (u64 (Hits s + 1)) (Misses s) (Sets s) (Deletes s) (Expirations s).
Definition incMisses (s : StoreStats) : StoreStats :=
  mkStats (Hits s) (u64 (Misses s + 1)) (Sets s) (Deletes s) (Expirations s).
Definition incSets (s : StoreStats) : StoreStats :=
  mkStats (Hits s) (Misses s) (u64 (Sets s + 1)) (Deletes s) (Expirations s).
Definition incDeletes (s : StoreStats) : StoreStats :=
  mkStats (Hits s) (Misses s) (Sets s) (u64 (Deletes s + 1)) (Expirations s).
Definition incExpirations (s : StoreStats) : StoreStats :=
  mkStats (Hits s) (Misses s) (Sets s) (Deletes s) (u64 (Expirations s + 1)).

Definition Snapshot (s : StoreStats) : StoreStats :=
  mkStats (Hits s) (Misses s) (Sets s) (Deletes s) (Expirations s).

Definition with_stats (f : StoreStats -> StoreStats) (s : Store) : Store :=
  mkStore (shards s) (shardMask s) (f (stats s)).

(** ** Construction *)

(** The loop [for n < shardCount { n <<= 1 }] on an [int]; 64 rounds are
    enough whenever it terminates. *)
Fixpoint round_up (fuel : nat) (n shardCount : Z) : option Z :=
  match fuel with
  | O => None
  | S fuel =>
      if n <? shardCount then round_up fuel (i64 (Z.shiftl n 1)) shardCount
      else Some n
  end.

Definition NewWithShards (shardCount : Z) : option Store :=
  let shardCount := if shardCount <=? 0 then DefaultShardCount else shardCount in
  n ← round_up 64 1 shardCount;
  Some (mkStore (replicate (Z.to_nat n) ∅) (u32 (n - 1)) (mkStats 0 0 0 0 0)).

Definition New : option Store := NewWithShards DefaultShardCount.

(** ** Shard selection *)

(** The index of the shard of a key. *)
Definition getShard (s : Store) (key : string) : nat :=
  Z.to_nat (Z.land (fnv32a (bytes_of_string key)) (shardMask s)).

(** The items of shard [i].  [getShard_lt] shows that the indices used below
    are in range, so the default stands for a case Go never reaches. *)
Definition items (s : Store) (i : nat) : shard := default ∅ (shards s !! i).

Definition set_items (s : Store) (i : nat) (m : shard) : Store :=
  mkStore (<[i := m]> (shards s)) (shardMask s) (stats s).

(** ** Operations *)

(** What the read-locked section of [Get] finds. *)
Inductive get_outcome :=
  | GetAbsent
  | GetExpired
  | GetFound (v : bytes).

Definition get_read (now : Time) (s : Store) (key : string) : get_outcome :=
  match items s (getShard s key) !! key with
  | None => GetAbsent
  | Some entry => if IsExpired now entry then GetExpired else GetFound (Value entry)
  end.

(** The write-locked section of [Get]: the double check and the deletion. *)
Definition get_reap (now : Time) (s : Store) (key : string) : Store :=
  let i := getShard s key in
  match items s i !! key with
  | Some e =>
      if IsExpired now e then
        with_stats incExpirations (set_items s i (delete key (items s i)))
      else s
  | None => s
  end.

(** [Some v] is the Go result [(v, true)], [None] is [(nil, false)]. *)
Definition Get (now1 now2 : Time) (s : Store) (key : string) : option bytes * Store :=
  match get_read now1 s key with
  | GetAbsent => (None, with_stats incMisses s)
  | GetExpired => (None, with_stats incMisses (get_reap now2 s key))
  | GetFound v => (Some v, with_stats incHits s)
  end.

Definition Set_ (now1 now2 : Time) (s : Store) (key : string) (value : bytes)
    (ttl : Duration) : Store :=
  let i := getShard s key in
  let entry := mkEntry value (if 0 <? ttl then Add now2 ttl else time_zero) now1 in
  with_stats incSets (set_items s i (<[key := entry]> (items s i))).

Definition Delete (s : Store) (key : string) : bool * Store :=
  let i := getShard s key in
  match items s i !! key with
  | Some _ => (true, with_stats incDeletes (set_items s i (delete key (items s i))))
  | None => (false, s)
  end.

Definition Expire (now1 now2 : Time) (s : Store) (key : string) (ttl : Duration)
    : bool * Store :=
  let i := getShard s key in
  match items s i !! key with
  | None => (false, s)
  | Some entry =>
      if IsExpired now1 entry then (false, s)
      else
        let entry' := mkEntry (Value entry)
          (if 0 <? ttl then Add now2 ttl else time_zero) (CreatedAt entry) in
        (true, set_items s i (<[key := entry']> (items s i)))
  end.

(** The loops over the whole store receive the order in which Go visits each
    shard's map, one list per shard (see [ranges]). *)

Definition listed (now : Time) (v : Entry) : bool :=
  IsZero (ExpiresAt v) || Before now (ExpiresAt v).

Definition Keys (now : Time) (ords : list (list (string * Entry))) : list string :=
  fold_left (fun keys ord =>
    fold_left (fun keys kv => if listed now kv.2 then keys ++ [kv.1] else keys)
      ord keys) ords [].

Definition Len (now : Time) (ords : list (list (string * Entry))) : Z :=
  fold_left (fun count ord =>
    fold_left (fun count kv => if listed now kv.2 then i64 (count + 1) else count)
      ord count) ords 0.

Section ForEach.
Context {St : Type} (fn : string -> bytes -> Duration -> St -> bool * St).

(** The loop over one shard; the boolean tells whether to go on. *)
Fixpoint foreach_shard (now : Time) (ord : list (string * Entry)) (st : St)
    : bool * St :=
  match ord with
  | [] => (true, st)
  | (k, v) :: ord =>
      if negb (IsZero (ExpiresAt v)) && After now (ExpiresAt v) then
        foreach_shard now ord st
      else
        let remainingTTL :=
          if negb (IsZero (ExpiresAt v)) then Sub (ExpiresAt v) now else 0 in
        match fn k (Value v) remainingTTL st with
        | (true, st) => foreach_shard now ord st
        | (false, st) => (false, st)
        end
  end.

Fixpoint ForEach (now : Time) (ords : list (list (string * Entry))) (st : St) : St :=
  match ords with
  | [] => st
  | ord :: ords =>
      match foreach_shard now ord st with
      | (true, st) => ForEach now ords st
      | (false, st) => st
      end
  end.
End ForEach.

Definition Stats (s : Store) : StoreStats := Snapshot (stats s).

Definition ShardStats (s : Store) : list Z := (fun m => Z.of_nat (size m)) <$> shards s.

(** [ords] are visit orders of all the shards of [s]. *)
Definition ranges (s : Store) (ords : list (list (string * Entry))) : Prop :=
  Forall2 is_range (shards s) ords.

Lemma ranges_self s : ranges s (map_to_list <$> shards s).
Proof. apply Forall2_fmap_r, Forall_Forall2_diag, Forall_forall. intros m _. apply is_range_self. Qed.

(** ** Well-formed stores *)

(** The number of shards is a power of two, the mask selects among them and
    every key lives in the shard its hash selects. *)
Record store_wf (s : Store) : Prop := {
  wf_pow : exists k, 0 <= k <= 62 /\ Z.of_nat (length (shards s)) = 2 ^ k /\
                     shardMask s = u32 (2 ^ k - 1);
  wf_home : forall i m key, shards s !! i = Some m -> is_Some (m !! key) ->
                            i = getShard s key
}.

(** One map with the entries of all the shards. *)
Definition contents (s : Store) : gmap string Entry := union_maps (shards s).

Lemma land_mask k h :
  0 <= k <= 62 -> 0 <= h < 2 ^ 32 -> Z.land h (u32 (2 ^ k - 1)) = h mod 2 ^ k.
Proof.
  intros Hk Hh. destruct (Z.le_gt_cases k 32) as [Hle|Hgt].
  - pose proof (Z.pow_le_mono_r 2 k 32 ltac:(lia) Hle).
    pose proof (Z.pow_pos_nonneg 2 k ltac:(lia) ltac:(lia)).
    rewrite u32_small by lia. rewrite <- Z.land_ones by lia.
    by rewrite Z.ones_equiv, Z.sub_1_r.
  - assert (u32 (2 ^ k - 1) = Z.ones 32) as ->.
    { unfold u32. replace k with (k - 32 + 32) by lia. rewrite Z.pow_add_r by lia.
      replace (2 ^ (k - 32) * 2 ^ 32 - 1)
        with (2 ^ 32 - 1 + (2 ^ (k - 32) - 1) * 2 ^ 32) by lia.
      rewrite Z.mod_add by lia. reflexivity. }
    pose proof (Z.pow_le_mono_r 2 32 k ltac:(lia) ltac:(lia)).
    rewrite Z.land_ones, !Z.mod_small by lia. done.
Qed.

Lemma getShard_mod s key k :
  0 <= k <= 62 -> shardMask s = u32 (2 ^ k - 1) ->
  getShard s key = Z.to_nat (fnv32a (bytes_of_string key) mod 2 ^ k).
Proof.
  intros Hk Hm. unfold getShard. rewrite Hm, land_mask; auto using fnv32a_range.
Qed.

Lemma getShard_lt s key : store_wf s -> (getShard s key < length (shards s))%nat.
Proof.
  intros [(k & Hk & Hlen & Hm) _]. rewrite (getShard_mod s key k) by done.
  pose proof (Z.mod_pos_bound (fnv32a (bytes_of_string key)) (2 ^ k) ltac:(lia)). lia.
Qed.

Lemma items_lookup s key :
  store_wf s -> shards s !! getShard s key = Some (items s (getShard s key)).
Proof.
  intros Hwf. unfold items.
  destruct (lookup_lt_is_Some_2 _ _ (getShard_lt s key Hwf)) as [m Hm]. by rewrite Hm.
Qed.

Lemma contents_lookup s key :
  store_wf s -> contents s !! key = items s (getShard s key) !! key.
Proof.
  intros Hwf. unfold contents. rewrite (union_maps_home _ _ (getShard s key)).
  - by rewrite items_lookup.
  - intros i m. apply (wf_home s Hwf).
Qed.

(** Every update below rewrites one binding of the shard of [key]. *)
Definition alter_key (f : option Entry -> option Entry) (key : string) (s : Store) : Store :=
  set_items s (getShard s key) (partial_alter f key (items s (getShard s key))).

Lemma wf_alter_key f key s : store_wf s -> store_wf (alter_key f key s).
Proof.
  intros Hwf. split.
  - destruct (wf_pow s Hwf) as (k & Hk & Hlen & Hm). exists k.
    unfold alter_key, set_items; simpl. by rewrite length_insert.
  - intros i m key' Hi Hs. unfold alter_key, set_items in Hi; simpl in Hi.
    change (getShard (alter_key f key s) key') with (getShard s key').
    apply list_lookup_insert_Some in Hi as [(<- & <- & _)|[_ Hi]].
    + destruct (decide (key = key')) as [->|Hne]; [done|].
      rewrite lookup_partial_alter_ne in Hs by done.
      apply (wf_home s Hwf _ _ _ (items_lookup s key Hwf) Hs).
    + by apply (wf_home s Hwf _ m).
Qed.

Lemma contents_alter_key f key s :
  store_wf s -> contents (alter_key f key s) = partial_alter f key (contents s).
Proof.
  intros Hwf. apply map_eq. intros k.
  rewrite contents_lookup by by apply wf_alter_key.
  change (getShard (alter_key f key s) k) with (getShard s k).
  unfold alter_key, set_items, items at 1; simpl.
  destruct (decide (getShard s key = getShard s k)) as [Heq|Hne].
  - rewrite Heq, list_lookup_insert_eq by by apply getShard_lt. simpl.
    destruct (decide (key = k)) as [->|Hk].
    + by rewrite !lookup_partial_alter_eq, contents_lookup.
    + by rewrite !lookup_partial_alter_ne, contents_lookup by done.
  - rewrite list_lookup_insert_ne by done.
    rewrite lookup_partial_alter_ne by congruence.
    by rewrite contents_lookup.
Qed.

Lemma wf_with_stats f s : store_wf s -> store_wf (with_stats f s).
Proof. intros [Hp Hh]. by split. Qed.

Lemma contents_with_stats f s : contents (with_stats f s) = contents s.
Proof. done. Qed.

#[export] Hint Resolve wf_alter_key wf_with_stats : cache.
#[export] Hint Rewrite contents_with_stats : cache.

(** ** Operations on the flat map *)

(** The specification: the same commands on one unsharded map.  A reply is the
    Go result of the command. *)
Inductive command :=
  | CmdGet (key : string)
  | CmdSet (key : string) (value : bytes) (ttl : Duration)
  | CmdDelete (key : string)
  | CmdExpire (key : string) (ttl : Duration).

Inductive reply :=
  | RValue (v : option bytes)
  | RDone
  | RBool (b : bool).

(** A command with the clock readings its two [time.Now()] calls return. *)
Record call := mkCall { now1 : Time; now2 : Time; cmd : command }.

Definition exec (c : call) (s : Store) : reply * Store :=
  match cmd c with
  | CmdGet key => let '(v, s) := Get (now1 c) (now2 c) s key in (RValue v, s)
  | CmdSet key v ttl => (RDone, Set_ (now1 c) (now2 c) s key v ttl)
  | CmdDelete key => let '(b, s) := Delete s key in (RBool b, s)
  | CmdExpire key ttl => let '(b, s) := Expire (now1 c) (now2 c) s key ttl in (RBool b, s)
  end.

Fixpoint run (cs : list call) (s : Store) : list reply * Store :=
  match cs with
  | [] => ([], s)
  | c :: cs => let '(r, s) := exec c s in let '(rs, s) := run cs s in (r :: rs, s)
  end.

Definition deadline (now : Time) (ttl : Duration) : Time :=
  if 0 <? ttl then now + ttl else 0.

Definition spec_exec (c : call) (m : gmap string Entry) : reply * gmap string Entry :=
  match cmd c with
  | CmdGet key =>
      match m !! key with
      | None => (RValue None, m)
      | Some e =>
          if IsExpired (now1 c) e then
            (RValue None, if IsExpired (now2 c) e then delete key m else m)
          else (RValue (Some (Value e)), m)
      end
  | CmdSet key v ttl => (RDone, <[key := mkEntry v (deadline (now2 c) ttl) (now1 c)]> m)
  | CmdDelete key => (RBool (bool_decide (is_Some (m !! key))), delete key m)
  | CmdExpire key ttl =>
      match m !! key with
      | None => (RBool false, m)
      | Some e =>
          if IsExpired (now1 c) e then (RBool false, m)
          else (RBool true, <[key := mkEntry (Value e) (deadline (now2 c) ttl) (CreatedAt e)]> m)
      end
  end.

Fixpoint spec_run (cs : list call) (m : gmap string Entry) : list reply * gmap string Entry :=
  match cs with
  | [] => ([], m)
  | c :: cs => let '(r, m) := spec_exec c m in let '(rs, m) := spec_run cs m in (r :: rs, m)
  end.

(** Insertions and deletions are single-binding updates. *)
Lemma set_items_insert s key e :
  set_items s (getShard s key) (<[key := e]> (items s (getShard s key)))
  = alter_key (fun _ => Some e) key s.
Proof. done. Qed.

Lemma set_items_delete s key :
  set_items s (getShard s key) (delete key (items s (getShard s key)))
  = alter_key (fun _ => None) key s.
Proof. done. Qed.

Lemma contents_insert s key e :
  store_wf s -> contents (alter_key (fun _ => Some e) key s) = <[key := e]> (contents s).
Proof. apply contents_alter_key. Qed.

Lemma contents_delete s key :
  store_wf s -> contents (alter_key (fun _ => None) key s) = delete key (contents s).
Proof. apply contents_alter_key. Qed.

#[export] Hint Rewrite set_items_insert set_items_delete : cache.
#[export] Hint Rewrite contents_insert contents_delete using auto with cache : cache.

Lemma exec_wf c s : store_wf s -> store_wf (exec c s).2.
Proof.
  intros Hwf. unfold exec, Get, get_read, get_reap, Set_, Delete, Expire.
  split_matches; autorewrite with cache; auto with cache.
Qed.

(** One command on the sharded store is the same command on its contents. *)
Lemma exec_spec c s :
  store_wf s ->
  (exec c s).1 = (spec_exec c (contents s)).1 /\
  contents (exec c s).2 = (spec_exec c (contents s)).2.
Proof.
  intros Hwf. destruct c as [t1 t2 [key|key v ttl|key|key ttl]];
    unfold exec, spec_exec, Get, get_read, get_reap, Set_, Delete, Expire, deadline; simpl;
    rewrite ?contents_lookup by done;
    destruct (items s (getShard s key) !! key) as [e|] eqn:He; simpl;
    repeat case_match; simplify_eq; simpl; autorewrite with cache; auto.
  split; [done|]. rewrite delete_id; [done|]. by rewrite contents_lookup.
Qed.

#[export] Hint Resolve exec_wf : cache.

Lemma run_spec cs s :
  store_wf s ->
  (run cs s).1 = (spec_run cs (contents s)).1 /\
  contents (run cs s).2 = (spec_run cs (contents s)).2 /\
  store_wf (run cs s).2.
Proof.
  revert s. induction cs as [|c cs IH]; intros s Hwf; [done|]. simpl.
  pose proof (exec_wf c s Hwf) as Hwf'. destruct (exec_spec c s Hwf) as [Hr Hc].
  destruct (exec c s) as [r s'], (spec_exec c (contents s)) as [r' m']; simpl in *; subst.
  destruct (IH s' Hwf') as (H1 & H2 & H3).
  destruct (run cs s') as [rs s''], (spec_run cs (contents s')) as [rs' m'']; simpl in *.
  by subst.
Qed.

(** ** Construction: rounding up to a power of two *)

Lemma shiftl_pow2 j : 0 <= j -> Z.shiftl (2 ^ j) 1 = 2 ^ (j + 1).
Proof. intros. rewrite Z.shiftl_mul_pow2, Z.pow_add_r by lia. done. Qed.

Lemma round_up_spec fuel j c :
  0 <= j <= 62 -> c <= 2 ^ 62 -> 62 - j < Z.of_nat fuel ->
  (j = 0 \/ 2 ^ (j - 1) < c) ->
  exists k, round_up fuel (2 ^ j) c = Some (2 ^ k) /\ 0 <= k <= 62 /\ c <= 2 ^ k /\
            (k = 0 \/ 2 ^ (k - 1) < c).
Proof.
  revert j. induction fuel as [|fuel IH]; intros j Hj Hc Hf Hprev; [lia|].
  cbn [round_up]. destruct (Z.ltb_spec (2 ^ j) c) as [Hlt|Hge].
  - assert (j <> 62) by (intros ->; lia).
    rewrite shiftl_pow2 by lia.
    pose proof (Z.pow_le_mono_r 2 (j + 1) 62 ltac:(lia) ltac:(lia)).
    pose proof (Z.pow_pos_nonneg 2 (j + 1) ltac:(lia) ltac:(lia)).
    rewrite i64_small by (unfold MinInt64, MaxInt64; lia).
    apply IH; [lia..|]. right. by replace (j + 1 - 1) with j by lia.
  - exists j. auto.
Qed.

Lemma round_up_diverges fuel n c :
  2 ^ 62 < c -> (exists j, 0 <= j <= 62 /\ n = 2 ^ j) \/ n = MinInt64 \/ n = 0 ->
  round_up fuel n c = None.
Proof.
  intros Hc. revert n. induction fuel as [|fuel IH]; intros n Hn; [done|].
  cbn [round_up]. assert (n < c) as Hlt.
  { destruct Hn as [(j & Hj & ->)|[->| ->]]; unfold MinInt64; [|lia..].
    pose proof (Z.pow_le_mono_r 2 j 62 ltac:(lia) ltac:(lia)). lia. }
  apply Z.ltb_lt in Hlt as ->. apply IH.
  destruct Hn as [(j & Hj & ->)|[->| ->]]; [|by auto..].
  destruct (decide (j = 62)) as [->|Hne]; [by auto|]. left. exists (j + 1).
  split; [lia|]. rewrite shiftl_pow2 by lia.
  pose proof (Z.pow_le_mono_r 2 (j + 1) 62 ltac:(lia) ltac:(lia)).
  pose proof (Z.pow_pos_nonneg 2 (j + 1) ltac:(lia) ltac:(lia)).
  apply i64_small. unfold MinInt64, MaxInt64. lia.
Qed.

Definition empty_store (k : Z) : Store :=
  mkStore (replicate (Z.to_nat (2 ^ k)) ∅) (u32 (2 ^ k - 1)) (mkStats 0 0 0 0 0).

Lemma empty_store_wf k : 0 <= k <= 62 -> store_wf (empty_store k).
Proof.
  intros Hk. split.
  - exists k. unfold empty_store; simpl. rewrite length_replicate.
    pose proof (Z.pow_pos_nonneg 2 k ltac:(lia) ltac:(lia)). lia.
  - intros i m key Hi [e He]. apply lookup_replicate_1 in Hi as [-> _].
    by rewrite lookup_empty in He.
Qed.

Lemma empty_store_contents k : contents (empty_store k) = ∅.
Proof.
  apply map_eq. intros key. rewrite lookup_empty. apply union_maps_None.
  intros i m Hi. apply lookup_replicate_1 in Hi as [-> _]. apply lookup_empty.
Qed.

Lemma NewWithShards_Some c s :
  NewWithShards c = Some s -> exists k, 0 <= k <= 62 /\ s = empty_store k.
Proof.
  unfold NewWithShards. set (c' := if c <=? 0 then DefaultShardCount else c). intros H.
  apply bind_Some in H as (n & Hn & [= <-]).
  destruct (Z.le_gt_cases c' (2 ^ 62)) as [Hle|Hgt].
  - destruct (round_up_spec 64 0 c' ltac:(lia) Hle ltac:(lia) ltac:(auto))
      as (k & Hk & Hk62 & _).
    change (2 ^ 0) with 1 in Hk. rewrite Hk in Hn. simplify_eq. by exists k.
  - rewrite round_up_diverges in Hn; [done|lia|]. left. by exists 0.
Qed.

(** ** Loops over the whole store *)

Lemma ranges_contents s ords :
  store_wf s -> ranges s ords -> concat ords ≡ₚ map_to_list (contents s).
Proof.
  intros Hwf Hr. unfold contents. rewrite <- union_maps_to_list.
  - unfold ranges in Hr. induction Hr as [|m ord ms ords' Hm _ IH]; simpl; [done|].
    unfold is_range in Hm. by rewrite Hm, IH.
  - intros i j m m' k Hi Hj Hs Hs'.
    by rewrite (wf_home s Hwf i m k), (wf_home s Hwf j m' k).
Qed.

Lemma Keys_filter now ords :
  Keys now ords = (filter (fun kv => listed now kv.2) (concat ords)).*1.
Proof. unfold Keys. by rewrite fold_left_fold_left, fold_left_collect. Qed.

Lemma Len_count now ords :
  Z.of_nat (length (concat ords)) <= MaxInt64 ->
  Len now ords = Z.of_nat (length (Keys now ords)).
Proof.
  intros Hb. rewrite Keys_filter. unfold Len. rewrite fold_left_fold_left.
  rewrite length_fmap. generalize (concat ords) as l, Hb. clear. intros l Hb.
  cut (forall c, 0 <= c -> c + Z.of_nat (length l) <= MaxInt64 ->
    fold_left (fun c kv => if listed now kv.2 then i64 (c + 1) else c) l c
    = c + Z.of_nat (length (filter (fun kv : string * Entry => listed now kv.2) l))).
  { intros H. rewrite H; lia. }
  clear Hb. induction l as [|kv l IH]; intros c Hc Hb; simpl in *; [lia|].
  rewrite filter_cons. destruct (listed now kv.2); simpl.
  - rewrite i64_small by (unfold MinInt64, MaxInt64 in *; lia). rewrite IH; lia.
  - rewrite IH; lia.
Qed.

(** The entries [ForEach] passes to its callback, in visiting order. *)
Definition visited (now : Time) (ords : list (list (string * Entry)))
    : list (string * Entry) :=
  filter (fun kv => negb (IsExpired now kv.2)) (concat ords).

Definition remaining (now : Time) (v : Entry) : Duration :=
  if IsZero (ExpiresAt v) then 0 else Sub (ExpiresAt v) now.

Lemma foreach_guard now v :
  negb (IsZero (ExpiresAt v)) && After now (ExpiresAt v) = IsExpired now v.
Proof. unfold IsExpired. by destruct (IsZero (ExpiresAt v)). Qed.

Lemma foreach_remaining now v :
  (if negb (IsZero (ExpiresAt v)) then Sub (ExpiresAt v) now else 0) = remaining now v.
Proof. unfold remaining. by destruct (IsZero (ExpiresAt v)). Qed.

Section ForEach_all.
Context {St : Type} (fn : string -> bytes -> Duration -> St -> bool * St).
Context (Hfn : forall k v d st, (fn k v d st).1 = true).

Lemma foreach_shard_all now ord st :
  foreach_shard fn now ord st =
  (true, fold_left (fun st kv => (fn kv.1 (Value kv.2) (remaining now kv.2) st).2)
     (filter (fun kv => negb (IsExpired now kv.2)) ord) st).
Proof.
  revert st. induction ord as [|[k v] ord IH]; intros st; cbn [foreach_shard]; [done|].
  rewrite filter_cons, foreach_guard, foreach_remaining. simpl.
  destruct (IsExpired now v); simpl; [apply IH|].
  specialize (Hfn k (Value v) (remaining now v) st).
  destruct (fn k (Value v) (remaining now v) st) as [b st'].
  simpl in *; subst. apply IH.
Qed.

(** A callback that never stops sees every unexpired entry once. *)
Lemma ForEach_all now ords st :
  ForEach fn now ords st =
  fold_left (fun st kv => (fn kv.1 (Value kv.2) (remaining now kv.2) st).2)
    (visited now ords) st.
Proof.
  unfold visited. revert st.
  induction ords as [|ord ords IH]; intros st; simpl; [done|].
  rewrite foreach_shard_all, filter_app, fold_left_app. apply IH.
Qed.
End ForEach_all.

(** ** Counters *)

Definition replied_hit (r : reply) : bool :=
  match r with RValue (Some _) => true | _ => false end.
Definition replied_miss (r : reply) : bool :=
  match r with RValue None => true | _ => false end.
Definition is_set (c : call) : bool :=
  match cmd c with CmdSet _ _ _ => true | _ => false end.
Definition is_delete (c : call) : bool :=
  match cmd c with CmdDelete _ => true | _ => false end.
Definition replied_true (r : reply) : bool :=
  match r with RBool b => b | _ => false end.

Definition Zcount {A} (P : A -> bool) (l : list A) : Z := Z.of_nat (length (List.filter P l)).

(** The counters a run adds, from the calls and their replies. *)
Definition tally (cs : list call) (rs : list reply) (a : StoreStats) (x : Z) : StoreStats :=
  mkStats (u64 (Hits a + Zcount replied_hit rs))
          (u64 (Misses a + Zcount replied_miss rs))
          (u64 (Sets a + Zcount is_set cs))
          (u64 (Deletes a + Zcount (fun cr => is_delete cr.1 && replied_true cr.2) (zip cs rs)))
          x.

Lemma u64_add_l a b : u64 (u64 a + b) = u64 (a + b).
Proof. unfold u64. by rewrite Zplus_mod_idemp_l. Qed.

Lemma Zcount_cons {A} (P : A -> bool) x l :
  Zcount P (x :: l) = (if P x then 1 else 0) + Zcount P l.
Proof. unfold Zcount. simpl. destruct (P x); simpl; lia. Qed.

(** The bounds the counters keep. *)
Definition stats_wf (a : StoreStats) : Prop :=
  0 <= Hits a < 2 ^ 64 /\ 0 <= Misses a < 2 ^ 64 /\ 0 <= Sets a < 2 ^ 64 /\
  0 <= Deletes a < 2 ^ 64.

Lemma exec_stats c s :
  stats_wf (stats s) ->
  stats (exec c s).2 = tally [c] [(exec c s).1] (stats s) (Expirations (stats (exec c s).2)).
Proof.
  intros (Hh & Hm & Hs & Hd).
  destruct c as [t1 t2 [key|key v ttl|key|key ttl]];
    unfold exec, Get, get_read, get_reap, Set_, Delete, Expire, tally; simpl;
    repeat case_match; simplify_eq; simpl;
    unfold Zcount, incMisses, incHits, incSets, incDeletes, incExpirations; simpl;
    rewrite ?Z.add_0_r, ?(u64_small (Hits _)), ?(u64_small (Misses _)),
      ?(u64_small (Sets _)), ?(u64_small (Deletes _)) by done;
    try done; by destruct (stats _).
Qed.

Lemma stats_wf_tally cs rs a x : stats_wf (tally cs rs a x).
Proof. split_and!; simpl; apply u64_range. Qed.

Lemma run_length cs s : length (run cs s).1 = length cs.
Proof.
  revert s. induction cs as [|c cs IH]; intros s; [done|]. simpl.
  destruct (exec c s) as [r s']. specialize (IH s').
  destruct (run cs s') as [rs s'']. simpl in *. by rewrite IH.
Qed.

Lemma run_stats cs s :
  stats_wf (stats s) ->
  stats (run cs s).2 = tally cs (run cs s).1 (stats s) (Expirations (stats (run cs s).2)).
Proof.
  revert s. induction cs as [|c cs IH]; intros s Hwf; simpl.
  - destruct Hwf as (? & ? & ? & ?). destruct (stats s) as [h m st d e] eqn:E.
    unfold tally, Zcount; simpl in *. rewrite !Z.add_0_r, !u64_small by done. done.
  - pose proof (exec_stats c s Hwf) as He. destruct (exec c s) as [r s']; simpl in *.
    assert (stats_wf (stats s')) as Hwf' by (rewrite He; apply stats_wf_tally).
    specialize (IH s' Hwf'). destruct (run cs s') as [rs s'']; simpl in *.
    rewrite IH. unfold tally; simpl. rewrite He. unfold tally; simpl.
    rewrite !u64_add_l, !Zcount_cons. unfold Zcount at 2 4 6 8; simpl.
    f_equal; f_equal; unfold Zcount; simpl;
      repeat match goal with |- context [if ?b then _ else _] => destruct b end; simpl; lia.
Qed.

(** ** Properties of the store *)

(** C1: every sequence of Get, Set, Delete and Expire calls on a freshly built
    sharded store gives the replies, and leaves the entries, of the same calls
    on one unsharded map; the sharding invariant holds throughout. *)
Theorem store_refines (c : Z) (s : Store) (cs : list call) :
  NewWithShards c = Some s ->
  (run cs s).1 = (spec_run cs ∅).1 /\
  contents (run cs s).2 = (spec_run cs ∅).2 /\
  store_wf (run cs s).2.
Proof.
  intros H. apply NewWithShards_Some in H as (k & Hk & ->).
  rewrite <- (empty_store_contents k). by apply run_spec, empty_store_wf.
Qed.

Definition demo_calls : list call :=
  [ mkCall 100 101 (CmdSet "a" [Byte.x01] 50);
    mkCall 110 111 (CmdSet "b" [] 0);
    mkCall 120 121 (CmdExpire "b" 10);
    mkCall 140 141 (CmdGet "a");
    mkCall 152 153 (CmdGet "a");
    mkCall 160 161 (CmdDelete "b") ].

Definition demo_store : Store := empty_store 2.

Lemma store_refines_witness :
  NewWithShards 3 = Some demo_store /\
  (run demo_calls demo_store).1
    = [RDone; RDone; RBool true; RValue (Some [Byte.x01]); RValue None; RBool true] /\
  contents (run demo_calls demo_store).2 = ∅.
Proof.
  split; [reflexivity|].
  destruct (store_refines 3 demo_store demo_calls eq_refl) as (-> & -> & _).
  split; reflexivity.
Defined.

(** NewWithShards allocates the least power of two that is at least the
    requested count (the default 256 for a non-positive request) and a mask
    that fits it, for every request up to 2^62; the store is empty and well
    formed.  Beyond 2^62 the rounding loop overflows and never ends. *)
Theorem NewWithShards_power_of_two (c : Z) :
  let want := if c <=? 0 then DefaultShardCount else c in
  (want <= 2 ^ 62 ->
     exists s k, NewWithShards c = Some s /\ 0 <= k <= 62 /\
       Z.of_nat (length (shards s)) = 2 ^ k /\ shardMask s = u32 (2 ^ k - 1) /\
       want <= 2 ^ k /\ (k = 0 \/ 2 ^ (k - 1) < want) /\
       store_wf s /\ contents s = ∅) /\
  (2 ^ 62 < want -> forall fuel, round_up fuel 1 want = None).
Proof.
  intros want. split.
  - intros Hle. destruct (round_up_spec 64 0 want ltac:(lia) Hle ltac:(lia) ltac:(auto))
      as (k & Hr & Hk & Hge & Hmin).
    exists (empty_store k), k. split_and!; try done; try lia.
    + unfold NewWithShards. fold want. change (2 ^ 0) with 1 in Hr. by rewrite Hr.
    + simpl. rewrite length_replicate, Z2Nat.id; [done|]. apply Z.pow_nonneg. lia.
    + by apply empty_store_wf.
    + apply empty_store_contents.
  - intros Hgt fuel. apply round_up_diverges; [done|]. left. by exists 0.
Qed.

Lemma NewWithShards_power_of_two_witness :
  exists s k, NewWithShards 100 = Some s /\ Z.of_nat (length (shards s)) = 2 ^ k /\
    100 <= 2 ^ k /\ store_wf s.
Proof.
  destruct (NewWithShards_power_of_two 100) as [H _].
  destruct H as (s & k & H1 & _ & H2 & _ & H3 & _ & H4 & _); [vm_compute; discriminate|].
  exists s, k. auto.
Defined.

(** The shard index of any key is within the slice of shards, and equals
    the FNV-1a hash of the key modulo the number of shards, as the README says;
    masking with shardMask never leaves the slice. *)
Theorem getShard_index (s : Store) (key : string) :
  store_wf s ->
  (getShard s key < length (shards s))%nat /\
  Z.of_nat (getShard s key)
    = fnv32a (bytes_of_string key) mod Z.of_nat (length (shards s)).
Proof.
  intros Hwf. split; [by apply getShard_lt|].
  destruct (wf_pow s Hwf) as (k & Hk & -> & Hm). rewrite (getShard_mod s key k) by done.
  pose proof (Z.mod_pos_bound (fnv32a (bytes_of_string key)) (2 ^ k) ltac:(lia)). lia.
Qed.

Lemma getShard_index_witness :
  Z.of_nat (getShard (empty_store 8) "user:1")
    = fnv32a (bytes_of_string "user:1") mod Z.of_nat (length (shards (empty_store 8))).
Proof.
  apply (getShard_index (empty_store 8) "user:1"). apply empty_store_wf. lia.
Defined.

(** A Get that follows a Set of the same key returns the stored bytes until
    the deadline, that is as long as the ttl was non-positive or the reading of
    the clock is not after the time of the Set plus the ttl, and nothing later;
    a Get of another key is not affected by the Set. *)
Theorem Get_after_Set (s : Store) (key key' : string) (v : bytes)
    (ttl t1 t2 r1 r2 : Z) :
  store_wf s -> 0 < t2 ->
  (Get r1 r2 (Set_ t1 t2 s key v ttl) key).1
    = (if (0 <? ttl) && (t2 + ttl <? r1) then None else Some v) /\
  (key <> key' ->
   (Get r1 r2 (Set_ t1 t2 s key v ttl) key').1 = (Get r1 r2 s key').1).
Proof.
  intros Hwf Ht2.
  pose proof (exec_wf (mkCall t1 t2 (CmdSet key v ttl)) s Hwf) as Hwf'.
  destruct (exec_spec (mkCall t1 t2 (CmdSet key v ttl)) s Hwf) as [_ Hc].
  unfold exec, spec_exec in *; simpl in *.
  set (s' := Set_ t1 t2 s key v ttl) in *.
  split.
  - unfold Get, get_read. rewrite <- contents_lookup, Hc, lookup_insert_eq by done.
    unfold deadline, IsExpired, IsZero, After; simpl.
    destruct (Z.ltb_spec 0 ttl); simpl; [|done].
    destruct (Z.eqb_spec (t2 + ttl) 0); [lia|].
    by destruct (t2 + ttl <? r1).
  - intros Hne. unfold Get, get_read.
    rewrite <- !contents_lookup, Hc, lookup_insert_ne by done.
    by repeat case_match.
Qed.

Lemma Get_after_Set_witness :
  (Get 160 160 (Set_ 100 101 demo_store "k" [Byte.x07] 50) "k").1 = None /\
  (Get 151 151 (Set_ 100 101 demo_store "k" [Byte.x07] 50) "k").1 = Some [Byte.x07].
Proof.
  pose proof (empty_store_wf 2 ltac:(lia)) as Hwf. split.
  - exact (proj1 (Get_after_Set demo_store "k" "z" [Byte.x07] 50 100 101 160 160
             Hwf ltac:(lia))).
  - exact (proj1 (Get_after_Set demo_store "k" "z" [Byte.x07] 50 100 101 151 151
             Hwf ltac:(lia))).
Defined.

(** Keys returns, without repetition and whatever order Go visits the maps
    in, exactly the keys whose entry never expires or expires strictly after
    the reading of the clock; Len returns their number. *)
Theorem Keys_exact (now : Time) (s : Store) (ords : list (list (string * Entry))) :
  store_wf s -> ranges s ords ->
  NoDup (Keys now ords) /\
  (forall k, k ∈ Keys now ords <->
     exists e, contents s !! k = Some e /\ (ExpiresAt e = 0 \/ now < ExpiresAt e)) /\
  (Z.of_nat (size (contents s)) <= MaxInt64 ->
     Len now ords = Z.of_nat (length (Keys now ords))).
Proof.
  intros Hwf Hr. pose proof (ranges_contents s ords Hwf Hr) as Hp. split_and!.
  - rewrite Keys_filter, Hp. eapply (sublist_NoDup _ (map_to_list (contents s)).*1).
    + apply NoDup_fst_map_to_list.
    + apply fmap_sublist. apply sublist_filter.
  - intros k. rewrite Keys_filter, list_elem_of_fmap. split.
    + intros ([k' e] & -> & Hin). apply list_elem_of_filter in Hin as [Hl Hin].
      rewrite Hp, elem_of_map_to_list in Hin. exists e. split; [done|].
      unfold listed, IsZero, Before in Hl; simpl in Hl.
      destruct (Z.eqb_spec (ExpiresAt e) 0), (Z.ltb_spec now (ExpiresAt e)); auto.
      done.
    + intros (e & He & Hl). exists (k, e). split; [done|]. apply list_elem_of_filter.
      rewrite Hp, elem_of_map_to_list. split; [|done].
      unfold listed, IsZero, Before; simpl.
      destruct (Z.eqb_spec (ExpiresAt e) 0), (Z.ltb_spec now (ExpiresAt e)); simpl; lia || done.
  - intros Hb. apply Len_count. by rewrite Hp, length_map_to_list.
Qed.

Definition two_keys : Store :=
  Set_ 10 10 (Set_ 10 10 demo_store "a" [Byte.x01] 5) "b" [Byte.x02] 50.

Lemma two_keys_wf : store_wf two_keys.
Proof. apply wf_with_stats, wf_alter_key, wf_with_stats, wf_alter_key, empty_store_wf. lia. Qed.

Lemma two_keys_ranges : ranges two_keys (map_to_list <$> shards two_keys).
Proof. apply ranges_self. Qed.

Lemma Keys_exact_witness :
  Len 15 (map_to_list <$> shards two_keys)
    = Z.of_nat (length (Keys 15 (map_to_list <$> shards two_keys))) /\
  "b" ∈ Keys 15 (map_to_list <$> shards two_keys).
Proof.
  destruct (Keys_exact 15 two_keys _ two_keys_wf two_keys_ranges) as (_ & H2 & H3).
  split.
  - apply H3. vm_compute. discriminate.
  - apply H2. exists (mkEntry [Byte.x02] 60 10). split; [vm_compute; reflexivity|].
    right. reflexivity.
Defined.

Lemma visited_live now s ords :
  store_wf s -> ranges s ords ->
  visited now ords ≡ₚ filter (fun kv => IsExpired now kv.2 = false) (map_to_list (contents s)).
Proof.
  intros Hwf Hr. rewrite <- (ranges_contents s ords Hwf Hr). unfold visited.
  by rewrite (list_filter_iff _ (fun kv => IsExpired now kv.2 = false))
    by (intros [k e]; simpl; by destruct (IsExpired now e)).
Qed.

(** ForEach with a callback that never stops is called exactly once for
    every entry that has not expired, in some order, with a copy of its value
    and its remaining time (zero when it has no expiry). *)
Theorem ForEach_visits (now : Time) (s : Store) (ords : list (list (string * Entry))) :
  store_wf s -> ranges s ords ->
  ForEach (fun k v d st => (true, st ++ [(k, v, d)])) now ords []
  ≡ₚ (fun kv => (kv.1, Value kv.2, remaining now kv.2)) <$>
       filter (fun kv => IsExpired now kv.2 = false) (map_to_list (contents s)).
Proof.
  intros Hwf Hr. rewrite ForEach_all by done. rewrite <- (visited_live now s ords Hwf Hr).
  cbn [snd]. by rewrite (fold_left_snoc (fun kv => (kv.1, Value kv.2, remaining now kv.2))).
Qed.

Lemma ForEach_visits_witness :
  ForEach (fun k v d st => (true, st ++ [(k, v, d)])) 20 (map_to_list <$> shards two_keys) []
  ≡ₚ [("b", [Byte.x02], 40)].
Proof.
  exact (ForEach_visits 20 two_keys _ two_keys_wf two_keys_ranges).
Defined.

(** At the very instant an entry expires the store contradicts itself: Get
    still returns the value, while Keys no longer lists the key. *)
Theorem expiry_instant_disagrees (s : Store) (ords : list (list (string * Entry)))
    (key : string) (e : Entry) (later : Time) :
  store_wf s -> ranges s ords -> contents s !! key = Some e -> ExpiresAt e <> 0 ->
  (Get (ExpiresAt e) later s key).1 = Some (Value e) /\ key ∉ Keys (ExpiresAt e) ords.
Proof.
  intros Hwf Hr He Hz. split.
  - unfold Get, get_read. rewrite <- contents_lookup, He by done.
    unfold IsExpired, After, IsZero. rewrite Z.ltb_irrefl. by destruct (_ =? _).
  - rewrite Keys_filter, list_elem_of_fmap. intros ([k e'] & -> & Hin).
    apply list_elem_of_filter in Hin as [Hl Hin].
    rewrite (ranges_contents s ords Hwf Hr), elem_of_map_to_list in Hin.
    simplify_eq/=. unfold listed, IsZero, Before in Hl.
    rewrite Z.ltb_irrefl in Hl. by destruct (Z.eqb_spec (ExpiresAt e) 0).
Qed.

Lemma expiry_instant_disagrees_witness :
  (Get 15 15 two_keys "a").1 = Some [Byte.x01] /\
  "a" ∉ Keys 15 (map_to_list <$> shards two_keys).
Proof.
  apply (expiry_instant_disagrees two_keys _ "a" (mkEntry [Byte.x01] 15 10) 15
           two_keys_wf two_keys_ranges); [vm_compute; reflexivity|discriminate].
Defined.

(** After any run from a fresh store the counters are, modulo 2^64, the
    number of Gets that returned a value, of Gets that did not, of Sets and of
    Deletes that found their key. *)
Theorem counters_exact (c : Z) (s : Store) (cs : list call) :
  NewWithShards c = Some s ->
  let rs := (run cs s).1 in
  let st := Stats (run cs s).2 in
  Hits st = u64 (Zcount replied_hit rs) /\
  Misses st = u64 (Zcount replied_miss rs) /\
  Sets st = u64 (Zcount is_set cs) /\
  Deletes st = u64 (Zcount (fun cr => is_delete cr.1 && replied_true cr.2) (zip cs rs)).
Proof.
  intros H rs st. apply NewWithShards_Some in H as (k & Hk & ->).
  subst rs st. unfold Stats.
  rewrite run_stats by (repeat split; simpl; lia). simpl. done.
Qed.

Lemma counters_exact_witness :
  Hits (Stats (run demo_calls demo_store).2) = 1 /\
  Misses (Stats (run demo_calls demo_store).2) = 1.
Proof.
  destruct (counters_exact 3 demo_store demo_calls eq_refl) as (-> & -> & _).
  split; vm_compute; reflexivity.
Defined.
