(* ===== verification/Sweeper.v ===== *)
(** * The TTL sweeper: internal/store/ttl.go

    The background goroutine samples keys of one shard per tick and deletes
    the expired ones.  Random numbers and map orders are arguments; a run-time
    panic (an index out of range, a nil entry) is [None]. *)

From S2P Require Import Prelude GoLib Store.

#[local] Open Scope Z_scope.

(** ** Model *)

Definition DefaultSweepInterval : Duration := 100 * Millisecond.
Definition samplesPerSweep : nat := 20.
Definition expiredThreshold : float64 := f_0_25.

(** [NewSweeper]: the interval that is used. *)
Definition NewSweeper (interval : Duration) : Duration :=
  if interval <=? 0 then DefaultSweepInterval else interval.

(** [keys[i], keys[idx] = keys[idx], keys[i]] *)
Definition swap {A} (l : list A) (i j : nat) : option (list A) :=
  x ← l !! i; y ← l !! j; Some (<[j := x]> (<[i := y]> l)).

(** The sampling loop from index [i], [fuel] rounds to go.  [rnd i] is the
    result of [rand.Intn(len(keys)-i)]. *)
Fixpoint sample_loop (fuel i : nat) (now : Time) (rnd : nat -> nat)
    (keys : list string) (m : shard) (st : StoreStats) (expiredCount : Z)
    : option (shard * StoreStats * Z) :=
  match fuel with
  | O => Some (m, st, expiredCount)
  | S fuel =>
      keys ← swap keys i (rnd i + i);
      key ← keys !! i;
      entry ← m !! key;
      if negb (IsZero (ExpiresAt entry)) && After now (ExpiresAt entry) then
        sample_loop fuel (S i) now rnd keys (delete key m) (incExpirations st) (expiredCount + 1)
      else sample_loop fuel (S i) now rnd keys m st expiredCount
  end.

(** [ord] is the order in which the keys are collected. *)
Definition sampleAndExpire (now : Time) (rnd : nat -> nat) (ord : list (string * Entry))
    (m : shard) (st : StoreStats) : option (float64 * shard * StoreStats) :=
  let n := size m in
  if (n =? 0)%nat then Some (f_0, m, st)
  else
    let keys := ord.*1 in
    let samples := if (n <? samplesPerSweep)%nat then n else samplesPerSweep in
    '(m, st, expiredCount) ← sample_loop samples 0 now rnd keys m st 0;
    if (samples =? 0)%nat then Some (f_0, m, st)
    else Some (fdiv (float64_of_int expiredCount) (float64_of_int (Z.of_nat samples)), m, st).

(** One pass of the loop of [sweepShard]: its clock reading, its random
    numbers, the map order it meets and whether the stop channel is closed
    when it is polled after the pass. *)
Record round := mkRound {
  r_now : Time;
  r_rnd : nat -> nat -> nat; (* by the number of keys *)
  r_ord : shard -> list (string * Entry);
  r_stop : bool
}.

Inductive sweep_result :=
  | Swept (m : shard) (st : StoreStats)      (* the loop ended *)
  | Unfinished (m : shard) (st : StoreStats) (* the rounds ran out *)
  | Panicked.

Fixpoint sweepShard (rounds : list round) (m : shard) (st : StoreStats) : sweep_result :=
  match rounds with
  | [] => Unfinished m st
  | r :: rounds =>
      match sampleAndExpire (r_now r) (r_rnd r (size m)) (r_ord r m) m st with
      | None => Panicked
      | Some (expired, m, st) =>
          if flt expired expiredThreshold then Swept m st
          else if r_stop r then Swept m st
          else sweepShard rounds m st
      end
  end.

(** The shard index of the main loop after each tick. *)
Definition next_shard (s : Store) (shardIndex : nat) : nat :=
  ((shardIndex + 1) mod length (shards s))%nat.

(** The shards the main loop sweeps over [n] ticks, from index [i]. *)
Fixpoint swept_indices (s : Store) (n i : nat) : list nat :=
  match n with
  | O => []
  | S n => i :: swept_indices s n (next_shard s i)
  end.

(** [rand.Intn(k)] returns a number in [0, k). *)
Definition Intn_ok (rnd : nat -> nat) (len : nat) : Prop :=
  forall i, (i < len)%nat -> (rnd i < len - i)%nat.

(** A pass whose map order and random numbers are as Go promises. *)
Definition round_ok (r : round) : Prop :=
  (forall m, is_range m (r_ord r m)) /\ (forall len, Intn_ok (r_rnd r len) len).

(** ** The sampling loop *)

Lemma swap_spec {A} (l : list A) i j :
  (i < length l)%nat -> (j < length l)%nat ->
  exists l', swap l i j = Some l' /\ l' ≡ₚ l /\
    l' !! i = l !! j /\ (forall a, (a < i)%nat -> (a < j)%nat -> l' !! a = l !! a).
Proof.
  intros Hi Hj. destruct (lookup_lt_is_Some_2 l i Hi) as [x Hx].
  destruct (lookup_lt_is_Some_2 l j Hj) as [y Hy].
  unfold swap. rewrite Hx, Hy. simpl. eexists. split; [done|].
  split_and!.
  - apply Permutation_inj. split; [by rewrite !length_insert|].
    exists (fun a => if decide (a = i) then j else if decide (a = j) then i else a).
    split.
    + intros a b. repeat case_decide; intros; subst; congruence.
    + intros a. destruct (decide (a = j)) as [->|Hja].
      * rewrite list_lookup_insert_eq by by rewrite length_insert.
        repeat case_decide; subst; congruence.
      * rewrite list_lookup_insert_ne by done.
        destruct (decide (a = i)) as [->|Hia].
        -- by rewrite list_lookup_insert_eq.
        -- by rewrite list_lookup_insert_ne.
  - destruct (decide (i = j)) as [->|Hne].
    + rewrite list_lookup_insert_eq by by rewrite length_insert. congruence.
    + rewrite list_lookup_insert_ne, list_lookup_insert_eq by done. done.
  - intros a Ha Ha'. by rewrite !list_lookup_insert_ne by lia.
Qed.

(** The state of the loop after [i] rounds: the keys are a permutation of those
    of the original map [m0]; the first [i] have been examined. *)
Record sample_inv (now : Time) (m0 : shard) (i : nat) (keys : list string)
    (m : shard) (expiredCount : Z) : Prop := {
  inv_nodup : NoDup keys;
  inv_len : length keys = size m0;
  inv_keys : forall j k, keys !! j = Some k -> exists e, m0 !! k = Some e /\
    m !! k = if (j <? i)%nat && IsExpired now e then None else Some e;
  inv_sub : m ⊆ m0;
  inv_count : expiredCount + Z.of_nat (size m) = Z.of_nat (size m0);
  inv_nonneg : 0 <= expiredCount <= Z.of_nat i
}.
Arguments inv_len {_ _ _ _ _ _} _.
Arguments inv_keys {_ _ _ _ _ _} _.
Arguments inv_sub {_ _ _ _ _ _} _.
Arguments inv_count {_ _ _ _ _ _} _.
Arguments inv_nonneg {_ _ _ _ _ _} _.

(** One examined key. *)
Lemma sample_inv_step now m0 i idx keys m c :
  sample_inv now m0 i keys m c -> (i <= idx < size m0)%nat ->
  exists keys' key e, swap keys i idx = Some keys' /\ keys' !! i = Some key /\
    m !! key = Some e /\
    sample_inv now m0 (S i) keys'
      (if IsExpired now e then delete key m else m) (if IsExpired now e then c + 1 else c).
Proof.
  intros [Hnd Hlen Hkeys Hsub Hcount Hpos] Hidx.
  destruct (swap_spec keys i idx ltac:(lia) ltac:(lia)) as (keys' & Hsw & Hp & Hi & Hlt).
  destruct (lookup_lt_is_Some_2 keys idx ltac:(lia)) as [key Hkey].
  destruct (Hkeys idx key Hkey) as (e & He0 & He).
  destruct (Nat.ltb_spec idx i); [lia|]. simpl in He.
  exists keys', key, e. rewrite Hi. split_and!; [done..|].
  assert (NoDup keys') as Hnd' by (by rewrite Hp).
  assert (keys' !! i = Some key) as Hi' by congruence.
  split.
  - done.
  - by rewrite Hp.
  - intros j k Hj. destruct (decide (j = i)) as [->|Hne].
    + assert (k = key) as -> by congruence. exists e. split; [done|].
      destruct (Nat.ltb_spec i (S i)); [|lia]. simpl.
      destruct (IsExpired now e); [apply lookup_delete_eq|done].
    + assert (k <> key) as Hk.
      { intros ->. apply Hne. by apply (NoDup_lookup keys' j i key). }
      assert (k ∈ keys) as Hin by (rewrite <- Hp; by eapply list_elem_of_lookup_2).
      apply list_elem_of_lookup in Hin as [j' Hj'].
      destruct (Hkeys j' k Hj') as (e' & He0' & He'). exists e'. split; [done|].
      assert ((j <? S i)%nat = (j' <? i)%nat) as ->.
      { destruct (Nat.ltb_spec j (S i)), (Nat.ltb_spec j' i); try done; exfalso.
        - assert (j < i)%nat by lia. rewrite Hlt in Hj by lia.
          pose proof (NoDup_lookup keys j j' k Hnd Hj Hj'). lia.
        - assert (keys' !! j' = Some k) as Hj2 by (rewrite Hlt by lia; done).
          pose proof (NoDup_lookup keys' j j' k Hnd' Hj Hj2). lia. }
      destruct (IsExpired now e); [by rewrite lookup_delete_ne|done].
  - destruct (IsExpired now e); [|done]. etrans; [apply delete_subseteq|done].
  - destruct (IsExpired now e); [|lia].
    rewrite map_size_delete_Some by by eapply mk_is_Some.
    assert (size m <> 0)%nat; [|lia]. intros Hz. apply map_size_empty_iff in Hz.
    subst. by rewrite lookup_empty in He.
  - destruct (IsExpired now e); lia.
Qed.

Lemma sample_loop_spec fuel i now rnd m0 keys m st c :
  sample_inv now m0 i keys m c -> Intn_ok rnd (size m0) -> (i + fuel <= size m0)%nat ->
  exists keys' m' c', c <= c' /\
    sample_loop fuel i now rnd keys m st c
      = Some (m', Nat.iter (Z.to_nat (c' - c)) incExpirations st, c') /\
    sample_inv now m0 (i + fuel) keys' m' c'.
Proof.
  intros Hinv Hrnd. revert i keys m st c Hinv.
  induction fuel as [|fuel IH]; intros i keys m st c Hinv Hle.
  { exists keys, m, c. rewrite Z.sub_diag, Nat.add_0_r. split_and!; [lia|done|done]. }
  destruct (sample_inv_step now m0 i (rnd i + i) keys m c Hinv)
    as (keys' & key & e & Hsw & Hk & He & Hinv'); [specialize (Hrnd i); lia|].
  cbn [sample_loop]. rewrite Hsw. simpl. rewrite Hk. simpl. rewrite He. simpl.
  rewrite foreach_guard. replace (i + S fuel)%nat with (S i + fuel)%nat by lia.
  destruct (IsExpired now e).
  - destruct (IH (S i) keys' _ (incExpirations st) _ Hinv' ltac:(lia))
      as (keys2 & m2 & c2 & Hc & Heq & Hinv2).
    exists keys2, m2, c2. split_and!; [lia| |done]. rewrite Heq.
    replace (Z.to_nat (c2 - c)) with (S (Z.to_nat (c2 - (c + 1)))) by lia.
    by rewrite Nat.iter_succ_r.
  - apply IH; [done|lia].
Qed.

Lemma sample_inv_init now m ord :
  is_range m ord -> sample_inv now m 0 ord.*1 m 0.
Proof.
  intros Hr. split; [by eapply is_range_NoDup| |..|lia|lia].
  - rewrite length_fmap. by apply is_range_length.
  - intros j k Hj. apply list_lookup_fmap_Some in Hj as ([k' e] & -> & Hj).
    exists e. assert (m !! k' = Some e) as He; [|simpl; by rewrite He].
    apply (is_range_elem m ord); [done|]. by eapply list_elem_of_lookup_2.
  - done.
Qed.

(** What one pass of the sampler does to a shard. *)
Lemma sampleAndExpire_spec now rnd ord m st :
  is_range m ord -> Intn_ok rnd (size m) -> m <> ∅ ->
  exists m' c, let samples := Nat.min (size m) samplesPerSweep in
    sampleAndExpire now rnd ord m st
      = Some (fdiv (float64_of_int c) (float64_of_int (Z.of_nat samples)), m',
              Nat.iter (Z.to_nat c) incExpirations st) /\
    exists keys, sample_inv now m samples keys m' c.
Proof.
  intros Hr Hrnd Hne. unfold sampleAndExpire.
  destruct (Nat.eqb_spec (size m) 0) as [Hz|Hnz]; [by apply map_size_empty_iff in Hz|].
  assert ((if (size m <? samplesPerSweep)%nat then size m else samplesPerSweep)
          = Nat.min (size m) samplesPerSweep) as ->.
  { destruct (Nat.ltb_spec (size m) samplesPerSweep); lia. }
  set (k := Nat.min (size m) samplesPerSweep).
  destruct (sample_loop_spec k 0 now rnd m ord.*1 m st 0
    (sample_inv_init now m ord Hr) Hrnd ltac:(lia)) as (keys' & m' & c & Hc & Heq & Hinv).
  rewrite Heq. cbn [mbind option_bind]. rewrite Z.sub_0_r in Heq |- *.
  assert (k <> 0)%nat as Hk by (unfold k, samplesPerSweep; lia).
  apply Nat.eqb_neq in Hk as ->. eauto.
Qed.

(** The comparison with the threshold, on all the fractions that can occur. *)
Definition threshold_table : list (Z * Z) :=
  n ← seqZ 1 20; e ← seqZ 0 (n + 1); [(e, n)].

Lemma threshold_table_ok :
  forallb (fun '(e, n) =>
    Bool.eqb (flt (fdiv (float64_of_int e) (float64_of_int n)) expiredThreshold)
             (4 * e <? n)) threshold_table = true.
Proof. vm_compute. reflexivity. Qed.

Lemma threshold_exact e n :
  0 <= e <= n -> 1 <= n <= 20 ->
  flt (fdiv (float64_of_int e) (float64_of_int n)) expiredThreshold = (4 * e <? n).
Proof.
  intros He Hn. pose proof threshold_table_ok as H.
  rewrite forallb_forall in H. apply Bool.eqb_prop, (H (e, n)).
  apply list_elem_of_In. unfold threshold_table.
  apply list_elem_of_bind. exists n. split; [|apply elem_of_seqZ; lia].
  apply list_elem_of_bind. exists e. split; [apply list_elem_of_singleton|apply elem_of_seqZ]; lia || done.
Qed.

Lemma sample_inv_removed now m i keys m' c k e :
  sample_inv now m i keys m' c -> (i <= size m)%nat -> (forall k, k ∈ keys <-> is_Some (m !! k)) ->
  m !! k = Some e -> m' !! k = None -> IsExpired now e = true.
Proof.
  intros Hinv Hi Hin He Hn.
  assert (k ∈ keys) as Hk by (apply Hin; by eexists).
  apply list_elem_of_lookup in Hk as [j Hj].
  destruct (inv_keys Hinv j k Hj) as (e' & He' & Hm').
  rewrite He in He'. simplify_eq. rewrite Hn in Hm'.
  destruct (j <? i)%nat; simpl in Hm'; [|done]. by destruct (IsExpired now e').
Qed.

(** The keys of the invariant are those of the original map. *)
Lemma sample_inv_dom now m i keys m' c k :
  sample_inv now m i keys m' c -> k ∈ keys <-> is_Some (m !! k).
Proof.
  intros [Hnd Hlen Hkeys _ _ _].
  assert (list_to_set keys = dom m) as Hdom.
  { apply set_subseteq_size_eq.
    - intros x Hx. apply elem_of_list_to_set, list_elem_of_lookup in Hx as [j Hj].
      destruct (Hkeys j x Hj) as (e & He & _). apply elem_of_dom. by eexists.
    - rewrite size_dom, size_list_to_set by done. lia. }
  rewrite <- elem_of_dom, <- Hdom. by rewrite elem_of_list_to_set.
Qed.

(** One pass of the sampler never panics; it only removes entries that have
    expired, counts each removal once, and on a shard of at most
    samplesPerSweep keys removes all the expired ones. *)
Theorem sampleAndExpire_sound (now : Time) (rnd : nat -> nat)
    (ord : list (string * Entry)) (m : shard) (st : StoreStats) :
  is_range m ord -> Intn_ok rnd (size m) ->
  exists f m', sampleAndExpire now rnd ord m st
      = Some (f, m', Nat.iter (size m - size m') incExpirations st) /\
    m' ⊆ m /\
    (forall k e, m !! k = Some e -> m' !! k = None -> IsExpired now e = true) /\
    ((size m <= samplesPerSweep)%nat ->
       m' = filter (fun kv => IsExpired now kv.2 = false) m).
Proof.
  intros Hr Hrnd. destruct (decide (m = ∅)) as [->|Hne].
  { exists f_0, ∅. split_and!; [|done|done|].
    - unfold sampleAndExpire. by rewrite map_size_empty.
    - intros _. by rewrite map_filter_empty. }
  destruct (sampleAndExpire_spec now rnd ord m st Hr Hrnd Hne) as (m' & c & Heq & keys & Hinv).
  eexists _, m'. rewrite Heq.
  pose proof (inv_count Hinv) as Hcnt.
  split_and!.
  - repeat f_equal. lia.
  - apply (inv_sub Hinv).
  - intros k e He Hn. eapply sample_inv_removed; [done|lia| |done|done].
    intros k'. by eapply sample_inv_dom.
  - intros Hle. apply map_eq. intros k.
    destruct (m !! k) as [e|] eqn:He.
    + assert (k ∈ keys) as Hk by (apply (sample_inv_dom _ _ _ _ _ _ k Hinv); by eexists).
      apply list_elem_of_lookup in Hk as [j Hj].
      destruct (inv_keys Hinv j k Hj) as (e' & He' & ->).
      apply lookup_lt_Some in Hj. pose proof (inv_len Hinv).
      destruct (Nat.ltb_spec j (Nat.min (size m) samplesPerSweep)); [|lia].
      rewrite He in He'. simplify_eq. symmetry.
      destruct (IsExpired now e') eqn:Hx; simpl.
      * apply map_lookup_filter_None. right. intros e Heq'. simplify_eq. simpl. congruence.
      * by apply map_lookup_filter_Some.
    + rewrite (lookup_weaken_None m' m); [|done|apply (inv_sub Hinv)].
      symmetry. apply map_lookup_filter_None. by left.
Qed.

Definition full_shard : shard :=
  {[ "a" := mkEntry [] 5 1; "b" := mkEntry [] 50 1; "c" := mkEntry [] 0 1 ]}.

Lemma sampleAndExpire_sound_witness :
  exists f m', sampleAndExpire 10 (fun _ => 0%nat) (map_to_list full_shard) full_shard
      (mkStats 0 0 0 0 0)
    = Some (f, m', Nat.iter (size full_shard - size m') incExpirations (mkStats 0 0 0 0 0)) /\
    m' = filter (fun kv => IsExpired 10 kv.2 = false) full_shard.
Proof.
  destruct (sampleAndExpire_sound 10 (fun _ => 0%nat) (map_to_list full_shard) full_shard
    (mkStats 0 0 0 0 0)) as (f & m' & H1 & _ & _ & H2).
  - apply is_range_self.
  - intros i Hi. lia.
  - exists f, m'. split; [exact H1|]. apply H2. vm_compute. lia.
Defined.


Definition demo_round (t : Time) : round :=
  mkRound t (fun _ _ => 0%nat) map_to_list false.


(** After a pass over a non-empty shard, sweepShard samples the same shard
    again exactly when at least a quarter of the samples had expired: the
    float64 comparison with 0.25 is exact, and a fraction of exactly one quarter
    repeats, although the comments and the README say "more than 25%". *)
Theorem sweepShard_repeats_iff_quarter (r : round) (rounds : list round) (m : shard)
    (st : StoreStats) :
  round_ok r -> r_stop r = false -> m <> ∅ ->
  exists m' st', sampleAndExpire (r_now r) (r_rnd r (size m)) (r_ord r m) m st
      = Some (fdiv (float64_of_int (Z.of_nat (size m - size m')))
                   (float64_of_int (Z.of_nat (Nat.min (size m) samplesPerSweep))), m', st') /\
    sweepShard (r :: rounds) m st =
      (if (Z.of_nat (Nat.min (size m) samplesPerSweep) <=? 4 * Z.of_nat (size m - size m'))
       then sweepShard rounds m' st' else Swept m' st').
Proof.
  intros [Hr Hrnd] Hstop Hne.
  destruct (sampleAndExpire_spec (r_now r) (r_rnd r (size m)) (r_ord r m) m st (Hr m)
    (Hrnd (size m)) Hne) as (m1 & c & Heq & keys & Hinv).
  pose proof (inv_nonneg Hinv). pose proof (inv_count Hinv).
  assert (size m <> 0)%nat by (intros Hz; by apply map_size_empty_iff in Hz).
  replace c with (Z.of_nat (size m - size m1)) in * by lia.
  eexists m1, _. split; [exact Heq|]. cbn [sweepShard]. rewrite Heq, Hstop.
  rewrite threshold_exact by (unfold samplesPerSweep in *; lia).
  by rewrite Z.ltb_antisym, if_negb.
Qed.

Lemma sweepShard_repeats_iff_quarter_witness :
  exists m' st', sweepShard [demo_round 10] full_shard (mkStats 0 0 0 0 0)
    = (if (Z.of_nat (Nat.min (size full_shard) samplesPerSweep)
            <=? 4 * Z.of_nat (size full_shard - size m'))
       then sweepShard [] m' st' else Swept m' st').
Proof.
  destruct (sweepShard_repeats_iff_quarter (demo_round 10) [] full_shard
    (mkStats 0 0 0 0 0)) as (m' & st' & _ & H).
  - split; [intros m; apply is_range_self|]. intros len i Hi. simpl. lia.
  - reflexivity.
  - discriminate.
  - exists m', st'. exact H.
Defined.

(** ** The main loop *)

Lemma swept_indices_eq s n i :
  (i < length (shards s))%nat ->
  swept_indices s n i = (fun j => ((i + j) mod length (shards s))%nat) <$> seq 0 n.
Proof.
  intros Hi. revert i Hi. induction n as [|n IH]; intros i Hi; [done|].
  cbn [swept_indices seq fmap list_fmap]. rewrite Nat.add_0_r, Nat.mod_small by done. f_equal.
  unfold next_shard. rewrite IH by (apply Nat.mod_upper_bound; lia).
  rewrite <- fmap_S_seq, <- list_fmap_compose.
  apply list_fmap_ext. intros _ j _. simpl.
  rewrite Nat.Div0.add_mod_idemp_l. f_equal. lia.
Qed.

(** In as many ticks as there are shards, the sweeper's main loop visits
    every shard of a well-formed store exactly once, from any starting index. *)
Theorem sweeper_visits_every_shard (s : Store) (i : nat) :
  (i < length (shards s))%nat ->
  swept_indices s (length (shards s)) i ≡ₚ seq 0 (length (shards s)).
Proof.
  intros Hi. rewrite swept_indices_eq by done. set (L := length (shards s)) in *.
  symmetry. apply submseteq_length_Permutation; [|by rewrite length_fmap].
  apply NoDup_submseteq; [apply NoDup_seq|]. intros x Hx. apply elem_of_seq in Hx.
  apply list_elem_of_fmap. exists ((x + L - i) mod L)%nat. split.
  - rewrite Nat.Div0.add_mod_idemp_r. replace (i + (x + L - i))%nat with (x + 1 * L)%nat by lia.
    rewrite Nat.Div0.mod_add. symmetry. apply Nat.mod_small. lia.
  - apply elem_of_seq. pose proof (Nat.mod_upper_bound (x + L - i) L). lia.
Qed.

Lemma sweeper_visits_every_shard_witness :
  swept_indices demo_store (length (shards demo_store)) 3 ≡ₚ [0; 1; 2; 3]%nat.
Proof. apply (sweeper_visits_every_shard demo_store 3). vm_compute. lia. Defined.
