(* ===== verification/StoreConc.v ===== *)
(** * The store under concurrency: internal/store/store.go and ttl.go

    Goroutines call the store while the sweeper runs.  A step is one critical
    section, one reading of the clock, one update of a counter, a call or a
    return; [Expire] reads the clock twice while it holds the lock of its shard,
    so its section is two steps and the lock is part of the state.  A scan
    ([Keys]) locks the shards one after the other.

    [store_linearizable] shows that the calls and returns of every execution are
    those of one atomic map with expiry; [StoreProgress] has the other properties
    of these executions. *)

From S2P Require Import Prelude GoLib Store Sweeper.

#[local] Open Scope Z_scope.

(** ** Goroutines *)

Inductive counter := CHits | CMisses | CSets | CDeletes.

#[global] Instance counter_eq_dec : EqDecision counter.
Proof. solve_decision. Defined.

Definition bump (k : counter) : StoreStats -> StoreStats :=
  match k with
  | CHits => incHits
  | CMisses => incMisses
  | CSets => incSets
  | CDeletes => incDeletes
  end.

(** Where a goroutine stands. *)
Inductive pc :=
  | Idle
  | Called (c : command)
  | GetReap (key : string)                              (* after RUnlock, before Lock *)
  | SetCreated (key : string) (value : bytes) (ttl : Duration) (created : Time)
  | SetReady (key : string) (value : bytes) (ttl : Duration) (entry : Entry) (* before Lock *)
  | ExpireHeld (key : string) (ttl : Duration) (entry : Entry)  (* holding the lock *)
  | Counting (k : counter) (c : command) (r : reply)    (* before the counter *)
  | Returning (c : command) (r : reply)
  | Scanning (now : Time) (idx : nat) (keys : list string). (* Keys, before shard idx *)

(** The clock, the store, the shards whose mutex is held, the goroutines. *)
Record world := mkWorld {
  w_now : Time;
  w_store : Store;
  w_locked : gset nat;
  w_threads : list pc
}.

Definition goto (i : nat) (p : pc) (w : world) : world :=
  mkWorld (w_now w) (w_store w) (w_locked w) (<[i := p]> (w_threads w)).
Definition set_w_store (s : Store) (w : world) : world :=
  mkWorld (w_now w) s (w_locked w) (w_threads w).
Definition set_w_locked (l : gset nat) (w : world) : world :=
  mkWorld (w_now w) (w_store w) l (w_threads w).

(** What the environment sees of a step. *)
Inductive label :=
  | Tau
  | Tick (t : Time)
  | Call (i : nat) (c : command)
  | Ret (i : nat) (c : command) (r : reply).

(** ** Steps *)

(** Who moves next: the clock, a caller, a goroutine inside its call, the
    sweeper at a shard, a scan; with the choices Go makes. *)
Inductive action :=
  | ATick (t : Time)
  | ACall (i : nat) (c : command)
  | ARun (i : nat)
  | ASweep (idx : nat) (rnd : nat -> nat) (ord : list (string * Entry))
  | AScan (i : nat)
  | AVisit (i : nat) (ord : list (string * Entry))
  | AEndScan (i : nat).

(** The shard of a key is not locked. *)
Definition free (w : world) (key : string) : bool :=
  bool_decide (getShard (w_store w) key ∉ w_locked w).

(** The entry [Set] builds; the second reading is made when it has a TTL. *)
Definition set_entry (value : bytes) (ttl : Duration) (created now : Time) : Entry :=
  mkEntry value (if 0 <? ttl then Add now ttl else time_zero) created.

(** The update of a key inside a critical section. *)
Definition put (key : string) (e : Entry) (s : Store) : Store :=
  set_items s (getShard s key) (<[key := e]> (items s (getShard s key))).
Definition remove (key : string) (s : Store) : Store :=
  set_items s (getShard s key) (delete key (items s (getShard s key))).

(** The next step of the goroutine [i], standing at [p]. *)
Definition advance (i : nat) (p : pc) (w : world) : option (label * world) :=
  let s := w_store w in
  match p with
  | Idle | Scanning _ _ _ => None
  | Called (CmdGet key as c) =>
      if free w key then
        Some (Tau, goto i match get_read (w_now w) s key with
                          | GetAbsent => Counting CMisses c (RValue None)
                          | GetExpired => GetReap key
                          | GetFound v => Counting CHits c (RValue (Some v))
                          end w)
      else None
  | GetReap key =>
      if free w key then
        Some (Tau, goto i (Counting CMisses (CmdGet key) (RValue None))
                     (set_w_store (get_reap (w_now w) s key) w))
      else None
  | Called (CmdSet key value ttl) => Some (Tau, goto i (SetCreated key value ttl (w_now w)) w)
  | SetCreated key value ttl created =>
      Some (Tau, goto i (SetReady key value ttl (set_entry value ttl created (w_now w))) w)
  | SetReady key value ttl entry =>
      if free w key then
        Some (Tau, goto i (Counting CSets (CmdSet key value ttl) RDone) (set_w_store (put key entry s) w))
      else None
  | Called (CmdDelete key as c) =>
      if free w key then
        Some (Tau, match items s (getShard s key) !! key with
                   | Some _ => goto i (Counting CDeletes c (RBool true)) (set_w_store (remove key s) w)
                   | None => goto i (Returning c (RBool false)) w
                   end)
      else None
  | Called (CmdExpire key ttl as c) =>
      if free w key then
        Some (Tau, match items s (getShard s key) !! key with
                   | Some entry =>
                       if IsExpired (w_now w) entry then goto i (Returning c (RBool false)) w
                       else goto i (ExpireHeld key ttl entry)
                              (set_w_locked ({[getShard s key]} ∪ w_locked w) w)
                   | None => goto i (Returning c (RBool false)) w
                   end)
      else None
  | ExpireHeld key ttl entry =>
      Some (Tau, goto i (Returning (CmdExpire key ttl) (RBool true))
                   (set_w_locked (w_locked w ∖ {[getShard s key]})
                      (set_w_store (put key (set_entry (Value entry) ttl (CreatedAt entry) (w_now w)) s) w)))
  | Counting k c r => Some (Tau, goto i (Returning c r) (set_w_store (with_stats (bump k) s) w))
  | Returning c r => Some (Ret i c r, goto i Idle w)
  end.

(** One step; [None] when the action is not possible. *)
Definition act (a : action) (w : world) : option (label * world) :=
  match a with
  | ATick t =>
      if w_now w <=? t then Some (Tick t, mkWorld t (w_store w) (w_locked w) (w_threads w)) else None
  | ACall i c =>
      match w_threads w !! i with
      | Some Idle => Some (Call i c, goto i (Called c) w)
      | _ => None
      end
  | ARun i => p ← w_threads w !! i; advance i p w
  | ASweep idx rnd ord =>
      let s := w_store w in
      if bool_decide (idx ∈ w_locked w) then None
      else
        m ← shards s !! idx;
        '(_, m, st) ← sampleAndExpire (w_now w) rnd ord m (stats s);
        Some (Tau, set_w_store (with_stats (fun _ => st) (set_items s idx m)) w)
  | AScan i =>
      match w_threads w !! i with
      | Some Idle => Some (Tau, goto i (Scanning (w_now w) 0 []) w)
      | _ => None
      end
  | AVisit i ord =>
      match w_threads w !! i with
      | Some (Scanning now idx keys) =>
          if bool_decide (idx ∈ w_locked w) || negb (idx <? length (shards (w_store w)))%nat then None
          else Some (Tau, goto i (Scanning now (S idx)
                 (fold_left (fun keys kv => if listed now kv.2 then keys ++ [kv.1] else keys) ord keys)) w)
      | _ => None
      end
  | AEndScan i =>
      match w_threads w !! i with
      | Some (Scanning now idx keys) =>
          if (idx =? length (shards (w_store w)))%nat then Some (Tau, goto i Idle w) else None
      | _ => None
      end
  end.

(** The choices are those Go can make: a visit order of the shard, random
    numbers in range. *)
Definition legal (a : action) (w : world) : Prop :=
  match a with
  | ASweep idx rnd ord =>
      is_range (items (w_store w) idx) ord /\ Intn_ok rnd (size (items (w_store w) idx))
  | AVisit i ord =>
      match w_threads w !! i with
      | Some (Scanning _ idx _) => is_range (items (w_store w) idx) ord
      | _ => True
      end
  | _ => True
  end.

(** An execution: its actions and the labels they show. *)
Inductive steps : world -> list action -> list label -> world -> Prop :=
  | steps_nil w : steps w [] [] w
  | steps_cons w a l w1 as_ ls w2 :
      legal a w -> act a w = Some (l, w1) -> steps w1 as_ ls w2 -> steps w (a :: as_) (l :: ls) w2.

(** A new store, [n] idle goroutines. *)
Definition start (t : Time) (s : Store) (n : nat) : world := mkWorld t s ∅ (replicate n Idle).

(** ** The specification: one atomic map

    A call takes effect in one step, with clock readings between its call and
    that step; an expired entry may go away at any moment. *)

Inductive status :=
  | SIdle
  | SCalled (c : command) (since : Time)
  | SDone (c : command) (r : reply).

Record spec := mkSpec {
  sp_now : Time;
  sp_map : gmap string Entry;
  sp_threads : list status
}.

(** The effect of a call on the map; [Get] only reads. *)
Definition effect (t1 t2 : Time) (c : command) (m : gmap string Entry) : reply * gmap string Entry :=
  let '(r, m') := spec_exec (mkCall t1 t2 c) m in
  (r, match c with CmdGet _ => m | _ => m' end).

Inductive spec_step : spec -> label -> spec -> Prop :=
  | spec_tick t m ths t' :
      t <= t' -> spec_step (mkSpec t m ths) (Tick t') (mkSpec t' m ths)
  | spec_call t m ths i c :
      ths !! i = Some SIdle ->
      spec_step (mkSpec t m ths) (Call i c) (mkSpec t m (<[i := SCalled c t]> ths))
  | spec_commit t m ths i c t0 t1 t2 :
      ths !! i = Some (SCalled c t0) -> t0 <= t1 <= t2 -> t2 <= t ->
      spec_step (mkSpec t m ths) Tau
        (mkSpec t (effect t1 t2 c m).2 (<[i := SDone c (effect t1 t2 c m).1]> ths))
  | spec_drop t m ths key e :
      m !! key = Some e -> IsExpired t e = true ->
      spec_step (mkSpec t m ths) Tau (mkSpec t (delete key m) ths)
  | spec_ret t m ths i c r :
      ths !! i = Some (SDone c r) ->
      spec_step (mkSpec t m ths) (Ret i c r) (mkSpec t m (<[i := SIdle]> ths)).

(** Executions of the specification, by their visible labels. *)
Inductive admits : spec -> list label -> spec -> Prop :=
  | admits_nil a : admits a [] a
  | admits_tau a a1 ls a2 : spec_step a Tau a1 -> admits a1 ls a2 -> admits a ls a2
  | admits_cons a l a1 ls a2 :
      l <> Tau -> spec_step a l a1 -> admits a1 ls a2 -> admits a (l :: ls) a2.

Definition visible (ls : list label) : list label :=
  List.filter (fun l => match l with Tau => false | _ => true end) ls.

(** ** Stores *)

Lemma put_spec key e s :
  store_wf s -> store_wf (put key e s) /\ contents (put key e s) = <[key := e]> (contents s).
Proof.
  intros Hs. split; [apply (wf_alter_key (fun _ => Some e) key s Hs)|].
  apply (contents_alter_key (fun _ => Some e) key s Hs).
Qed.

Lemma remove_spec key s :
  store_wf s -> store_wf (remove key s) /\ contents (remove key s) = delete key (contents s).
Proof.
  intros Hs. split; [apply (wf_alter_key (fun _ => None) key s Hs)|].
  apply (contents_alter_key (fun _ => None) key s Hs).
Qed.

Lemma reap_spec now s key :
  store_wf s -> store_wf (get_reap now s key) /\ shardMask (get_reap now s key) = shardMask s /\
  contents (get_reap now s key)
  = match contents s !! key with
    | Some e => if IsExpired now e then delete key (contents s) else contents s
    | None => contents s
    end.
Proof.
  intros Hs. unfold get_reap. rewrite contents_lookup by done.
  destruct (items s (getShard s key) !! key) as [e|]; [|done].
  destruct (IsExpired now e); [|done]. destruct (remove_spec key s Hs) as [Hw Hc].
  split_and!; [by apply wf_with_stats|done|exact Hc].
Qed.

(** A shard replaced by a part of itself. *)
Lemma shrink_spec s idx m m' :
  store_wf s -> shards s !! idx = Some m -> m' ⊆ m ->
  store_wf (set_items s idx m') /\
  forall k, contents (set_items s idx m') !! k
    = if decide (getShard s k = idx) then m' !! k else contents s !! k.
Proof.
  intros Hs Hm Hsub. assert (store_wf (set_items s idx m')) as Hw.
  { split.
    - destruct (wf_pow s Hs) as (n & Hn & Hlen & Hmask). exists n. simpl. by rewrite length_insert.
    - intros i mi k Hi [e He]. change (getShard (set_items s idx m') k) with (getShard s k).
      simpl in Hi. apply list_lookup_insert_Some in Hi as [(<- & -> & _)|[_ Hi]].
      + apply (wf_home s Hs idx m k Hm). exists e. by eapply lookup_weaken.
      + apply (wf_home s Hs i mi k Hi). by exists e. }
  split; [done|]. intros k. rewrite contents_lookup by done.
  change (getShard (set_items s idx m') k) with (getShard s k). unfold items. simpl.
  case_decide as Hk.
  - rewrite Hk, list_lookup_insert_eq by (by eapply lookup_lt_Some). done.
  - rewrite list_lookup_insert_ne by done. by rewrite contents_lookup.
Qed.

(** ** The specification can drop what the store drops *)

Lemma admits_trans a ls a1 ls' a2 : admits a ls a1 -> admits a1 ls' a2 -> admits a (ls ++ ls') a2.
Proof. induction 1; intros H2; [done|by eapply admits_tau; [|auto]|by eapply admits_cons; [| |auto]]. Qed.

Lemma admits_one a l a' : spec_step a l a' -> admits a (visible [l]) a'.
Proof.
  intros H. destruct l; simpl; try (eapply admits_cons; [done|exact H|constructor]).
  eapply admits_tau; [exact H|constructor].
Qed.

Lemma admits_drops t ths m m' :
  m' ⊆ m -> (forall k e, m !! k = Some e -> m' !! k = None -> IsExpired t e = true) ->
  admits (mkSpec t m ths) [] (mkSpec t m' ths).
Proof.
  remember (m ∖ m') as d eqn:Hd. revert m Hd. induction d as [|k e d Hk IH] using map_ind;
    intros m Hd Hsub Hexp.
  - assert (m = m') as ->; [|constructor]. apply map_eq. intros k.
    destruct (m' !! k) as [e'|] eqn:E; [by eapply lookup_weaken|].
    destruct (m !! k) as [e|] eqn:E'; [|done].
    assert ((m ∖ m') !! k = Some e) as H by by apply lookup_difference_Some.
    rewrite <- Hd in H. by rewrite lookup_empty in H.
  - assert (m !! k = Some e /\ m' !! k = None) as [Hm Hm'].
    { apply lookup_difference_Some. rewrite <- Hd. apply lookup_insert_eq. }
    eapply admits_tau; [by apply (spec_drop _ _ _ k e); [|eapply Hexp]|]. apply IH.
    + apply map_eq. intros k'. rewrite lookup_difference, lookup_delete.
      pose proof (f_equal (fun x => x !! k') Hd) as Hk'. cbn beta in Hk'.
      rewrite lookup_difference, lookup_insert in Hk'.
      case_decide; [subst; by rewrite Hm', Hk|]. done.
    + by apply map_subseteq_spec; intros k' e' H; rewrite lookup_delete_ne;
        [eapply lookup_weaken|intros ->; congruence].
    + intros k' e' [_ H]%lookup_delete_Some. by apply Hexp.
Qed.

(** ** The simulation *)

(** A goroutine and its call in the specification, at time [t]. *)
Definition matches (t : Time) (p : pc) (a : status) : Prop :=
  match p with
  | Idle | Scanning _ _ _ => a = SIdle
  | Called c => exists t0, a = SCalled c t0 /\ t0 <= t
  | GetReap key => a = SDone (CmdGet key) (RValue None)
  | SetCreated key v ttl t1 => exists t0, a = SCalled (CmdSet key v ttl) t0 /\ t0 <= t1 <= t
  | SetReady key v ttl e => exists t0 t1 t2,
      a = SCalled (CmdSet key v ttl) t0 /\ t0 <= t1 <= t2 /\ t2 <= t /\
      e = mkEntry v (deadline t2 ttl) t1
  | ExpireHeld key ttl e => exists t0 t1,
      a = SCalled (CmdExpire key ttl) t0 /\ t0 <= t1 <= t /\ IsExpired t1 e = false
  | Counting _ c r | Returning c r => a = SDone c r
  end.

Lemma matches_later t t' p a : t <= t' -> matches t p a -> matches t' p a.
Proof.
  intros Ht. destruct p; simpl; try done.
  - intros (t0 & -> & ?). exists t0. split; [done|lia].
  - intros (t0 & -> & ?). exists t0. split; [done|lia].
  - intros (t0 & t1 & t2 & -> & ? & ? & ->). exists t0, t1, t2. split_and!; done || lia.
  - intros (t0 & t1 & -> & ? & ?). exists t0, t1. split_and!; done || lia.
Qed.

(** The goroutines that hold a lock: each its own, and the entry they found is
    still there. *)
Record held_ok (w : world) : Prop := {
  ho_entry i key ttl e : w_threads w !! i = Some (ExpireHeld key ttl e) ->
    contents (w_store w) !! key = Some e /\ getShard (w_store w) key ∈ w_locked w;
  ho_own i j key ttl e key' ttl' e' : i <> j ->
    w_threads w !! i = Some (ExpireHeld key ttl e) ->
    w_threads w !! j = Some (ExpireHeld key' ttl' e') ->
    getShard (w_store w) key <> getShard (w_store w) key'
}.

Definition holding (p : pc) : bool := match p with ExpireHeld _ _ _ => true | _ => false end.

Lemma getShard_mask s s' key : shardMask s' = shardMask s -> getShard s' key = getShard s key.
Proof. unfold getShard. by intros ->. Qed.

(** A step of goroutine [i] that leaves it without a lock and the entries under
    the locks of the others alone. *)
Lemma held_step w t s l i p :
  held_ok w -> shardMask s = shardMask (w_store w) -> holding p = false ->
  (forall j key ttl e, j <> i -> w_threads w !! j = Some (ExpireHeld key ttl e) ->
     contents s !! key = contents (w_store w) !! key /\ getShard (w_store w) key ∈ l) ->
  held_ok (mkWorld t s l (<[i := p]> (w_threads w))).
Proof.
  intros Hw Hmask Hp Hothers.
  assert (forall j key ttl e, <[i := p]> (w_threads w) !! j = Some (ExpireHeld key ttl e) ->
    j <> i /\ w_threads w !! j = Some (ExpireHeld key ttl e)) as Hj.
  { intros j key ttl e [(<- & -> & _)|[Hne H]]%list_lookup_insert_Some; [done|]. split; [congruence|done]. }
  split; simpl.
  - intros j key ttl e [Hne H]%Hj. rewrite (getShard_mask _ _ key Hmask).
    destruct (Hothers j key ttl e Hne H) as [-> Hl]. split; [|done]. by eapply ho_entry.
  - intros j j' key ttl e key' ttl' e' Hne [_ H1]%Hj [_ H2]%Hj.
    rewrite !(getShard_mask _ _ _ Hmask). by eapply (ho_own w Hw j j').
Qed.

Lemma held_same w t i p :
  held_ok w -> holding p = false -> held_ok (mkWorld t (w_store w) (w_locked w) (<[i := p]> (w_threads w))).
Proof. intros Hw Hp. apply held_step; try done. intros j key ttl e _ H. split; [done|]. by eapply ho_entry. Qed.

(** An update of a key whose shard is free. *)
Lemma held_update w s i p key :
  held_ok w -> shardMask s = shardMask (w_store w) -> holding p = false -> free w key = true ->
  (forall k, k <> key -> contents s !! k = contents (w_store w) !! k) ->
  held_ok (mkWorld (w_now w) s (w_locked w) (<[i := p]> (w_threads w))).
Proof.
  intros Hw Hmask Hp Hfree%bool_decide_eq_true_1 Hs. apply held_step; try done.
  intros j key' ttl e _ H. destruct (ho_entry w Hw j key' ttl e H) as [_ Hl].
  split; [|done]. apply Hs. intros ->. done.
Qed.

Record simulates (w : world) (a : spec) : Prop := {
  si_wf : store_wf (w_store w);
  si_held : held_ok w;
  si_now : sp_now a = w_now w;
  si_map : sp_map a = contents (w_store w);
  si_threads : Forall2 (matches (w_now w)) (w_threads w) (sp_threads a)
}.

Lemma simulates_lookup w a i p :
  simulates w a -> w_threads w !! i = Some p ->
  exists st, sp_threads a !! i = Some st /\ matches (w_now w) p st.
Proof. intros H Hi. eapply Forall2_lookup_l in Hi as (st & ? & ?); [by exists st|apply H]. Qed.

Lemma simulates_eta w a :
  simulates w a -> a = mkSpec (w_now w) (contents (w_store w)) (sp_threads a).
Proof. intros [_ _ <- <- _]. by destruct a. Qed.

(** The specification does nothing. *)
Lemma sim_stutter w a i p p' st s :
  simulates w a -> w_threads w !! i = Some p -> sp_threads a !! i = Some st ->
  matches (w_now w) p' st -> store_wf s -> contents s = contents (w_store w) ->
  held_ok (mkWorld (w_now w) s (w_locked w) (<[i := p']> (w_threads w))) ->
  exists a', admits a [] a' /\ simulates (mkWorld (w_now w) s (w_locked w) (<[i := p']> (w_threads w))) a'.
Proof.
  intros [Hwf Hh Hn Hm Ht] Hi Hst Hp Hs Hc Hh'. exists a. split; [constructor|].
  split; simpl; [done|done|done|congruence|].
  rewrite <- (list_insert_id _ _ _ Hst). by apply Forall2_insert.
Qed.

(** A call takes effect. *)
Lemma sim_commit w a i p p' c t0 t1 t2 s l :
  simulates w a -> w_threads w !! i = Some p -> sp_threads a !! i = Some (SCalled c t0) ->
  t0 <= t1 <= t2 -> t2 <= w_now w ->
  matches (w_now w) p' (SDone c (effect t1 t2 c (contents (w_store w))).1) ->
  store_wf s -> contents s = (effect t1 t2 c (contents (w_store w))).2 ->
  held_ok (mkWorld (w_now w) s l (<[i := p']> (w_threads w))) ->
  exists a', admits a [] a' /\ simulates (mkWorld (w_now w) s l (<[i := p']> (w_threads w))) a'.
Proof.
  intros [Hwf Hh Hn Hm Ht] Hi Hst H12 H2 Hp Hs Hc Hh'. destruct a as [t m ths]. simpl in *. subst t m.
  eexists. split; [apply (admits_one _ Tau); by apply (spec_commit _ _ _ i c t0 t1 t2)|].
  split; simpl; [done|done|done|done|]. by apply Forall2_insert.
Qed.

Section advance.
Context (w : world) (a : spec) (Hsim : simulates w a) (i : nat).
Implicit Types (key : string).
Let wf := si_wf w a Hsim.
Let held := si_held w a Hsim.

Lemma sim_called c :
  w_threads w !! i = Some (Called c) ->
  exists t0, sp_threads a !! i = Some (SCalled c t0) /\ t0 <= w_now w.
Proof. intros (st & Hst & t0 & -> & Ht)%(simulates_lookup w a i _ Hsim). by exists t0. Qed.

Lemma sim_get key l w' :
  w_threads w !! i = Some (Called (CmdGet key)) -> advance i (Called (CmdGet key)) w = Some (l, w') ->
  exists a', admits a (visible [l]) a' /\ simulates w' a'.
Proof.
  intros Hi H. simpl in H. destruct (free w key) eqn:Hfree; [|done]. injection H as <- <-.
  destruct (sim_called _ Hi) as (t0 & Hst & Ht0).
  eapply (sim_commit w a i _ _ (CmdGet key) t0 (w_now w) (w_now w)); try done; try lia.
  - unfold get_read, effect, spec_exec. simpl. rewrite contents_lookup by done.
    destruct (items _ _ !! key) as [e|]; [|done]. by destruct (IsExpired (w_now w) e).
  - unfold effect. by destruct (spec_exec _ _).
  - apply held_same; [done|]. by destruct (get_read _ _ _).
Qed.

Lemma sim_reap key l w' :
  w_threads w !! i = Some (GetReap key) -> advance i (GetReap key) w = Some (l, w') ->
  exists a', admits a (visible [l]) a' /\ simulates w' a'.
Proof.
  intros Hi H. simpl in H. destruct (free w key) eqn:Hfree; [|done]. injection H as <- <-.
  destruct (simulates_lookup w a i _ Hsim Hi) as (st & Hst & Hp).
  destruct (reap_spec (w_now w) (w_store w) key wf) as (Hwf' & Hmask & Hc).
  exists (mkSpec (w_now w) (contents (get_reap (w_now w) (w_store w) key)) (sp_threads a)). split.
  - rewrite (simulates_eta w a Hsim) at 1. rewrite Hc.
    destruct (contents (w_store w) !! key) as [e|] eqn:He; [|constructor].
    destruct (IsExpired (w_now w) e) eqn:Hx; [|constructor].
    eapply admits_tau; [by apply (spec_drop _ _ _ key e)|constructor].
  - split; cbn [goto set_w_store w_store w_now w_locked w_threads sp_now sp_map sp_threads]; try done.
    + apply (held_update w _ i _ key); try done. intros k Hk. cbn [w_store set_w_store]. rewrite Hc.
      repeat case_match; rewrite ?lookup_delete_ne by done; done.
    + rewrite <- (list_insert_id _ _ _ Hst). apply Forall2_insert; [apply Hsim|done].
Qed.

Lemma sim_put key v ttl e l w' :
  w_threads w !! i = Some (SetReady key v ttl e) -> advance i (SetReady key v ttl e) w = Some (l, w') ->
  exists a', admits a (visible [l]) a' /\ simulates w' a'.
Proof.
  intros Hi H. simpl in H. destruct (free w key) eqn:Hfree; [|done]. injection H as <- <-.
  destruct (simulates_lookup w a i _ Hsim Hi) as (st & Hst & t0 & t1 & t2 & -> & H12 & H2 & ->).
  destruct (put_spec key (mkEntry v (deadline t2 ttl) t1) (w_store w) wf) as [Hwf' Hc].
  eapply (sim_commit w a i _ _ (CmdSet key v ttl) t0 t1 t2); try done.
  apply (held_update w _ i _ key); try done. intros k Hk. cbn [w_store set_w_store]. by rewrite Hc, lookup_insert_ne.
Qed.

Lemma sim_delete key l w' :
  w_threads w !! i = Some (Called (CmdDelete key)) -> advance i (Called (CmdDelete key)) w = Some (l, w') ->
  exists a', admits a (visible [l]) a' /\ simulates w' a'.
Proof.
  intros Hi H. simpl in H. destruct (free w key) eqn:Hfree; [|done]. injection H as <- <-.
  destruct (sim_called _ Hi) as (t0 & Hst & Ht0). rewrite <- contents_lookup by done.
  destruct (remove_spec key (w_store w) wf) as [Hwf' Hc].
  destruct (contents (w_store w) !! key) as [e|] eqn:He.
  - eapply (sim_commit w a i _ _ (CmdDelete key) t0 (w_now w) (w_now w)); try done; try lia.
    + unfold effect, spec_exec. simpl. by rewrite He, bool_decide_true by by eexists.
    + apply (held_update w _ i _ key); try done. intros k Hk. cbn [w_store set_w_store]. by rewrite Hc, lookup_delete_ne.
  - eapply (sim_commit w a i _ _ (CmdDelete key) t0 (w_now w) (w_now w)); try done; try lia.
    + unfold effect, spec_exec. simpl. rewrite He, bool_decide_false; [done|]. by intros [].
    + unfold effect, spec_exec. simpl. by rewrite delete_id.
    + by apply held_same.
Qed.

Lemma sim_expire_fails key ttl e :
  w_threads w !! i = Some (Called (CmdExpire key ttl)) ->
  contents (w_store w) !! key = e -> (forall e', e = Some e' -> IsExpired (w_now w) e' = true) ->
  exists a', admits a [] a' /\
    simulates (goto i (Returning (CmdExpire key ttl) (RBool false)) w) a'.
Proof.
  intros Hi He Hx. destruct (sim_called _ Hi) as (t0 & Hst & Ht0).
  assert (effect (w_now w) (w_now w) (CmdExpire key ttl) (contents (w_store w))
    = (RBool false, contents (w_store w))) as E.
  { unfold effect, spec_exec. simpl. rewrite He. destruct e as [e'|]; [|done]. by rewrite Hx. }
  eapply (sim_commit w a i _ _ (CmdExpire key ttl) t0 (w_now w) (w_now w)); rewrite ?E; try done; try lia.
  by apply held_same.
Qed.

Lemma sim_expire key ttl l w' :
  w_threads w !! i = Some (Called (CmdExpire key ttl)) ->
  advance i (Called (CmdExpire key ttl)) w = Some (l, w') ->
  exists a', admits a (visible [l]) a' /\ simulates w' a'.
Proof.
  intros Hi H. simpl in H. destruct (free w key) eqn:Hfree; [|done]. injection H as <- <-.
  rewrite <- contents_lookup by done.
  destruct (contents (w_store w) !! key) as [e|] eqn:He; [|by eapply sim_expire_fails].
  destruct (IsExpired (w_now w) e) eqn:Hx.
  { eapply sim_expire_fails; [done|exact He|]. by intros e' [= <-]. }
  destruct (sim_called _ Hi) as (t0 & Hst & Ht0). exists a. split; [constructor|].
  apply bool_decide_eq_true_1 in Hfree. split; simpl; try apply Hsim.
  - assert (forall j key' ttl' e', <[i := ExpireHeld key ttl e]> (w_threads w) !! j
        = Some (ExpireHeld key' ttl' e') ->
      j = i /\ key' = key /\ e' = e \/ j <> i /\ w_threads w !! j = Some (ExpireHeld key' ttl' e')) as Hj.
    { intros j key' ttl' e' [(<- & [= <- _ <-] & _)|[Hne Hj]]%list_lookup_insert_Some; [by left|].
      right. split; [congruence|done]. }
    split; simpl.
    + intros j key' ttl' e' [(-> & -> & ->)|[_ H]]%Hj; [set_solver|].
      destruct (ho_entry w held j key' ttl' e' H). split; [done|set_solver].
    + intros j j' k1 d1 e1 k2 d2 e2 Hne [(-> & -> & ->)|[H1 H1']]%Hj [(-> & -> & ->)|[H2 H2']]%Hj.
      * done.
      * destruct (ho_entry w held j' k2 d2 e2 H2'). intros E. by rewrite E in Hfree.
      * destruct (ho_entry w held j k1 d1 e1 H1'). intros E. by rewrite <- E in Hfree.
      * by eapply (ho_own w held j j').
  - rewrite <- (list_insert_id _ _ _ Hst). apply Forall2_insert; [apply Hsim|].
    exists t0, (w_now w). split_and!; done || lia.
Qed.

Lemma sim_expire_write key ttl e l w' :
  w_threads w !! i = Some (ExpireHeld key ttl e) ->
  advance i (ExpireHeld key ttl e) w = Some (l, w') ->
  exists a', admits a (visible [l]) a' /\ simulates w' a'.
Proof.
  intros Hi H. simpl in H. injection H as <- <-.
  destruct (simulates_lookup w a i _ Hsim Hi) as (st & Hst & t0 & t1 & -> & Ht1 & Hx).
  destruct (ho_entry w held i key ttl e Hi) as [He Hl].
  set (e' := set_entry (Value e) ttl (CreatedAt e) (w_now w)).
  destruct (put_spec key e' (w_store w) wf) as [Hwf' Hc].
  assert (effect t1 (w_now w) (CmdExpire key ttl) (contents (w_store w))
    = (RBool true, <[key := e']> (contents (w_store w)))) as E.
  { unfold effect, spec_exec. simpl. by rewrite He, Hx. }
  eapply (sim_commit w a i _ _ (CmdExpire key ttl) t0 t1 (w_now w)); rewrite ?E; try done; try lia.
  apply held_step; try done. intros j key' ttl' e1 Hne Hj.
  pose proof (ho_own w held i j key ttl e key' ttl' e1 ltac:(congruence) Hi Hj) as Hsh.
  destruct (ho_entry w held j key' ttl' e1 Hj) as [_ Hl']. simpl. rewrite Hc. split; [|set_solver].
  apply lookup_insert_ne. intros ->. done.
Qed.
End advance.

Lemma sim_advance w a i p l w' :
  simulates w a -> w_threads w !! i = Some p -> advance i p w = Some (l, w') ->
  exists a', admits a (visible [l]) a' /\ simulates w' a'.
Proof.
  intros Hsim Hi H. destruct p as [|[key|key v ttl|key|key ttl]|key|key v ttl t1|key v ttl e|key ttl e|k c r|c r|];
    try done.
  - by apply (sim_get w a Hsim i key).
  - injection H as <- <-. destruct (sim_called w a Hsim i _ Hi) as (t0 & Hst & Ht0).
    eapply sim_stutter; try done; [|apply Hsim|apply held_same; [apply Hsim|done]].
    exists t0. split; [done|lia].
  - by apply (sim_delete w a Hsim i key).
  - by apply (sim_expire w a Hsim i key ttl).
  - by apply (sim_reap w a Hsim i key).
  - injection H as <- <-. destruct (simulates_lookup w a i _ Hsim Hi) as (st & Hst & t0 & -> & Ht).
    eapply sim_stutter; try done; [|apply Hsim|apply held_same; [apply Hsim|done]].
    exists t0, t1, (w_now w). split_and!; done || lia.
  - by apply (sim_put w a Hsim i key v ttl e).
  - by apply (sim_expire_write w a Hsim i key ttl e).
  - injection H as <- <-. destruct (simulates_lookup w a i _ Hsim Hi) as (st & Hst & ->).
    eapply (sim_stutter w a i _ _ _ (with_stats (bump k) (w_store w))); try done.
    + apply wf_with_stats, Hsim.
    + apply held_step; try done; [apply Hsim|]. intros j key ttl e _ Hj.
      split; [done|]. by eapply ho_entry; [apply Hsim|].
  - injection H as <- <-. destruct (simulates_lookup w a i _ Hsim Hi) as (st & Hst & ->).
    rewrite (simulates_eta w a Hsim). eexists. split; [apply (admits_one _ (Ret i c r)); by constructor|].
    split; simpl; try done; try apply Hsim.
    + apply held_same; [apply Hsim|done].
    + by apply Forall2_insert; [apply Hsim|].
Qed.

(** A goroutine that is not in a call moves without touching the store. *)
Lemma sim_idle w a i p p' :
  simulates w a -> w_threads w !! i = Some p -> (forall t st, matches t p st <-> st = SIdle) ->
  (forall t st, matches t p' st <-> st = SIdle) -> holding p' = false ->
  exists a', admits a [] a' /\ simulates (goto i p' w) a'.
Proof.
  intros Hsim Hi Hp Hp' Hh. destruct (simulates_lookup w a i _ Hsim Hi) as (st & Hst & ->%Hp).
  eapply (sim_stutter w a i p p'); try done; [by apply Hp'|apply Hsim|apply held_same; [apply Hsim|done]].
Qed.

Lemma sim_sweep w a idx rnd ord l w' :
  simulates w a -> legal (ASweep idx rnd ord) w -> act (ASweep idx rnd ord) w = Some (l, w') ->
  exists a', admits a (visible [l]) a' /\ simulates w' a'.
Proof.
  intros Hsim [Hord Hrnd] H. cbn [act] in H.
  destruct (bool_decide (idx ∈ w_locked w)) eqn:Hl; [done|]. apply bool_decide_eq_false_1 in Hl.
  destruct (shards (w_store w) !! idx) as [m|] eqn:Hm; [|done]. simpl in H.
  unfold items in Hord, Hrnd. rewrite Hm in Hord, Hrnd. simpl in Hord, Hrnd.
  destruct (sampleAndExpire_sound (w_now w) rnd ord m (stats (w_store w)) Hord Hrnd)
    as (f & m' & E & Hsub & Hexp & _). rewrite E in H. simpl in H. injection H as <- <-.
  destruct (shrink_spec (w_store w) idx m m' (si_wf w a Hsim) Hm Hsub) as [Hwf' Hc].
  set (s' := set_items (w_store w) idx m') in *.
  assert (forall k, getShard (w_store w) k = idx -> contents (w_store w) !! k = m !! k) as Hhome.
  { intros k <-. rewrite contents_lookup by apply Hsim. unfold items. by rewrite Hm. }
  exists (mkSpec (w_now w) (contents s') (sp_threads a)). split.
  - rewrite (simulates_eta w a Hsim) at 1. apply admits_drops.
    + apply map_subseteq_spec. intros k e. rewrite Hc. case_decide as Hk; [|done].
      rewrite (Hhome k Hk). intros He. by eapply lookup_weaken.
    + intros k e He. rewrite Hc. case_decide as Hk; [|congruence]. rewrite (Hhome k Hk) in He.
      by apply Hexp.
  - split; cbn [set_w_store w_store w_now w_locked w_threads sp_now sp_map sp_threads]; try done.
    + by apply wf_with_stats.
    + split; simpl; [|apply (ho_own w (si_held w a Hsim))]. intros j key ttl e Hj.
      destruct (ho_entry w (si_held w a Hsim) j key ttl e Hj) as [He Hlk]. split; [|exact Hlk].
      etrans; [exact (Hc key)|]. rewrite decide_False; [done|]. by intros <-.
    + apply Hsim.
Qed.

Lemma sim_act w a x l w' :
  simulates w a -> legal x w -> act x w = Some (l, w') ->
  exists a', admits a (visible [l]) a' /\ simulates w' a'.
Proof.
  intros Hsim Hlegal H. destruct x as [t|i c|i|idx rnd ord|i|i ord|i]; cbn [act] in H.
  - destruct (Z.leb_spec (w_now w) t) as [Ht|]; [|done]. injection H as <- <-.
    rewrite (simulates_eta w a Hsim). eexists. split; [apply (admits_one _ (Tick t)); by constructor|].
    destruct Hsim as [? [] ? ? Hths]. split; try done.
    eapply Forall2_impl; [exact Hths|]. intros p st. by apply matches_later.
  - destruct (w_threads w !! i) as [[]|] eqn:Hi; try done. injection H as <- <-.
    destruct (simulates_lookup w a i _ Hsim Hi) as (st & Hst & ->).
    rewrite (simulates_eta w a Hsim). eexists. split; [apply (admits_one _ (Call i c)); by constructor|].
    split; simpl; try done; try apply Hsim; [apply held_same; [apply Hsim|done]|].
    apply Forall2_insert; [apply Hsim|]. by exists (w_now w).
  - destruct (w_threads w !! i) as [p|] eqn:Hi; [|done]. by apply (sim_advance w a i p).
  - by apply (sim_sweep w a idx rnd ord).
  - destruct (w_threads w !! i) as [[]|] eqn:Hi; try done. injection H as <- <-.
    by apply (sim_idle w a i Idle).
  - destruct (w_threads w !! i) as [[]|] eqn:Hi; try done. case_match; [done|]. injection H as <- <-.
    by apply (sim_idle w a i (Scanning now idx keys)).
  - destruct (w_threads w !! i) as [[]|] eqn:Hi; try done. case_match; [|done]. injection H as <- <-.
    by apply (sim_idle w a i (Scanning now idx keys)).
Qed.

Lemma sim_steps w xs ls w' a :
  steps w xs ls w' -> simulates w a -> exists a', admits a (visible ls) a' /\ simulates w' a'.
Proof.
  intros H. revert a. induction H as [w|w x l w1 xs ls w2 Hlegal Hact _ IH]; intros a Hsim.
  { exists a. split; [constructor|done]. }
  destruct (sim_act w a x l w1 Hsim Hlegal Hact) as (a1 & H1 & Hsim1).
  destruct (IH a1 Hsim1) as (a2 & H2 & Hsim2). exists a2. split; [|done].
  change (l :: ls) with ([l] ++ ls). unfold visible. rewrite List.filter_app. by eapply admits_trans.
Qed.

Lemma start_simulates t k n :
  0 <= k <= 62 ->
  simulates (start t (empty_store k) n) (mkSpec t ∅ (replicate n SIdle)).
Proof.
  intros Hk. assert (forall i p, replicate n Idle !! i = Some p -> p = Idle) as Hi
    by (intros i p H; by apply lookup_replicate in H as [-> _]).
  split; simpl; [by apply empty_store_wf| |done|by rewrite empty_store_contents|].
  - split; simpl; [by intros i key ttl e H%Hi|by intros i j key ttl e key' ttl' e' _ H%Hi].
  - apply Forall2_replicate. done.
Qed.

(** C2: the store is linearizable: whatever the number of goroutines that call
    Get, Set, Delete and Expire on a new store, however their critical sections,
    clock readings and counter updates interleave with each other, with the
    sweeper and with scans, the calls and returns, in their order and with their
    results, are those of one atomic map in which each call takes effect at a
    single moment between its call and its return, with clock readings from that
    interval, and in which expired entries may vanish; the map holds what the
    shards hold. *)
Theorem store_linearizable (shardCount t : Z) (s : Store) (n : nat) (xs : list action)
    (ls : list label) (w : world) :
  NewWithShards shardCount = Some s -> steps (start t s n) xs ls w ->
  exists a, admits (mkSpec t ∅ (replicate n SIdle)) (visible ls) a /\
    sp_map a = contents (w_store w) /\ sp_now a = w_now w /\ store_wf (w_store w).
Proof.
  intros (k & Hk & ->)%NewWithShards_Some Hsteps.
  destruct (sim_steps _ _ _ _ _ Hsteps (start_simulates t k n Hk)) as (a & Ha & [Hwf _ Hn Hm _]).
  exists a. by split_and!.
Qed.

(** An expired entry is found by one goroutine while another writes the key
    again: the first must not remove the new value. *)
Definition race : list action :=
  [ACall 0 (CmdSet "k" [Byte.x01] 5); ARun 0; ARun 0; ARun 0; ARun 0; ARun 0; ATick 20;
   ACall 1 (CmdGet "k"); ARun 1;                                  (* finds it expired *)
   ACall 0 (CmdSet "k" [Byte.x02] 0); ARun 0; ARun 0; ARun 0;     (* stores a new one *)
   ARun 1; ARun 1; ARun 1;                                        (* checks again *)
   ACall 1 (CmdGet "k"); ARun 1; ARun 1; ARun 1; ARun 0; ARun 0].

Definition race_history : list label :=
  [Call 0 (CmdSet "k" [Byte.x01] 5); Ret 0 (CmdSet "k" [Byte.x01] 5) RDone; Tick 20;
   Call 1 (CmdGet "k"); Call 0 (CmdSet "k" [Byte.x02] 0); Ret 1 (CmdGet "k") (RValue None);
   Call 1 (CmdGet "k"); Ret 1 (CmdGet "k") (RValue (Some [Byte.x02]));
   Ret 0 (CmdSet "k" [Byte.x02] 0) RDone].

(** Actions without choices, executed. *)
Fixpoint execute (xs : list action) (w : world) : option (list label * world) :=
  match xs with
  | [] => Some ([], w)
  | (ASweep _ _ _ | AVisit _ _) :: _ => None
  | x :: xs => '(l, w) ← act x w; '(ls, w) ← execute xs w; Some (l :: ls, w)
  end.

Lemma execute_steps xs w ls w' : execute xs w = Some (ls, w') -> steps w xs ls w'.
Proof.
  revert w ls. induction xs as [|x xs IH]; intros w ls H; simpl in H; [simplify_eq; constructor|].
  assert (legal x w /\ ('(l, w) ← act x w; '(ls, w) ← execute xs w; Some (l :: ls, w)) = Some (ls, w'))
    as [Hl H'] by by destruct x.
  destruct (act x w) as [[l w1]|] eqn:Ha; [|done]. simpl in H'.
  destruct (execute xs w1) as [[ls1 w2]|] eqn:He; [|done]. simpl in H'. injection H' as <- <-.
  by eapply steps_cons; [| |apply IH].
Qed.

Definition after_race : list label * world :=
  default ([], start 10 demo_store 2) (execute race (start 10 demo_store 2)).

Lemma race_runs : steps (start 10 demo_store 2) race after_race.1 after_race.2.
Proof. apply execute_steps. vm_compute. reflexivity. Qed.

Lemma store_linearizable_witness :
  visible after_race.1 = race_history /\
  exists a, admits (mkSpec 10 ∅ [SIdle; SIdle]) race_history a /\
    sp_map a = contents (w_store after_race.2).
Proof.
  assert (visible after_race.1 = race_history) as E by (vm_compute; reflexivity).
  split; [exact E|]. rewrite <- E.
  destruct (store_linearizable 3 10 demo_store 2 race after_race.1 after_race.2) as (a & H1 & H2 & _).
  - reflexivity.
  - exact race_runs.
  - exists a. split; [exact H1|exact H2].
Defined.
