(* ===== verification/StoreProgress.v ===== *)
(** * What concurrent executions of the store guarantee

    Over the executions of [StoreConc]: what the counters say when all calls have
    returned ([counters_at_rest]), that no call gets stuck
    ([store_calls_complete]), and what a scan can see of a store that changes
    under it ([scan_weakly_consistent]). *)

From S2P Require Import Prelude GoLib Store Sweeper StoreConc.

#[local] Open Scope Z_scope.

(** ** Counters *)

(** Which calls a counter counts, by their replies. *)
Definition counts (k : counter) (c : command) (r : reply) : bool :=
  match k, c, r with
  | CHits, CmdGet _, RValue (Some _) => true
  | CMisses, CmdGet _, RValue None => true
  | CSets, CmdSet _ _ _, _ => true
  | CDeletes, CmdDelete _, RBool b => b
  | _, _, _ => false
  end.

Definition value (k : counter) (st : StoreStats) : Z :=
  match k with
  | CHits => Hits st
  | CMisses => Misses st
  | CSets => Sets st
  | CDeletes => Deletes st
  end.

(** The returns of a history that a counter counts. *)
Definition returned (k : counter) (l : label) : Z :=
  match l with Ret _ c r => if counts k c r then 1 else 0 | _ => 0 end.

(** The calls that have been counted and have not returned. *)
Definition counted (k : counter) (p : pc) : Z :=
  match p with Returning c r => if counts k c r then 1 else 0 | _ => 0 end.

(** A goroutine is about to count its call, in the right counter. *)
Definition counting_ok (p : pc) : Prop :=
  match p with
  | Counting k c r => forall k', counts k' c r = bool_decide (k' = k)
  | _ => True
  end.

Record tally_ok (w : world) : Prop := {
  ta_pcs : Forall counting_ok (w_threads w);
  ta_range : stats_wf (stats (w_store w))
}.

Lemma value_range k st : stats_wf st -> 0 <= value k st < 2 ^ 64.
Proof. intros (? & ? & ? & ?). by destruct k. Qed.

Lemma bump_value k k' st :
  u64 (value k' (bump k st)) = u64 (value k' st + if bool_decide (k' = k) then 1 else 0).
Proof.
  destruct k, k'; simpl; rewrite ?Z.add_0_r; try done; unfold u64; by rewrite Zmod_mod.
Qed.

Lemma bump_wf k st : stats_wf st -> stats_wf (bump k st).
Proof.
  unfold stats_wf. pose proof (u64_range (value k st + 1)). destruct k; simpl in *; tauto.
Qed.

Lemma expirations_neutral n st :
  (forall k, value k (Nat.iter n incExpirations st) = value k st) /\
  (stats_wf st -> stats_wf (Nat.iter n incExpirations st)).
Proof.
  induction n as [|n [IH1 IH2]]; [done|]. split.
  - intros k. rewrite <- IH1. by destruct k.
  - exact IH2.
Qed.

(** A step of goroutine [i] that changes no counter. *)
Lemma tally_move w t s l i p p' k lab :
  tally_ok w -> w_threads w !! i = Some p -> counting_ok p' -> stats_wf (stats s) ->
  value k (stats s) = value k (stats (w_store w)) -> counted k p = counted k p' + returned k lab ->
  tally_ok (mkWorld t s l (<[i := p']> (w_threads w))) /\
  u64 (value k (stats s) - sumZ (counted k) (<[i := p']> (w_threads w)))
  = u64 (value k (stats (w_store w)) - sumZ (counted k) (w_threads w) + returned k lab).
Proof.
  intros [Hpcs Hr] Hi Hp' Hs -> Hc. split; [split; [by apply Forall_insert|done]|].
  rewrite (sumZ_insert _ _ _ _ _ Hi). f_equal. lia.
Qed.

Lemma reap_stats now s key k :
  stats_wf (stats s) -> stats_wf (stats (get_reap now s key)) /\
  value k (stats (get_reap now s key)) = value k (stats s).
Proof. intros H. unfold get_reap. repeat case_match; try done. Qed.

Lemma tally_advance w i p l w' k :
  tally_ok w -> w_threads w !! i = Some p -> advance i p w = Some (l, w') ->
  tally_ok w' /\
  u64 (value k (stats (w_store w')) - sumZ (counted k) (w_threads w'))
  = u64 (value k (stats (w_store w)) - sumZ (counted k) (w_threads w) + returned k l).
Proof.
  intros Hw Hi H. pose proof (ta_range w Hw) as Hr.
  destruct p as [|[key|key v ttl|key|key ttl]|key|key v ttl t1|key v ttl e|key ttl e|k' c r|c r|];
    cbn [advance] in H; try done; try (case_match; [|done]);
    repeat match type of H with context [match ?x with _ => _ end] => destruct x end;
    injection H as <- <-;
    try (eapply (tally_move w _ _ _ i _ _ k _ Hw Hi); try done; by first [intros []|destruct k]).
  - destruct (reap_stats (w_now w) (w_store w) key k Hr) as [Hr' Hv].
    eapply (tally_move w _ _ _ i _ _ k _ Hw Hi); try done. by intros [].
  - pose proof (proj1 (Forall_forall _ _) (ta_pcs w Hw) _ (list_elem_of_lookup_2 _ _ _ Hi)) as Hk.
    simpl in Hk. split.
    + split; [by apply Forall_insert; [apply Hw|]|]. by apply bump_wf.
    + cbn [goto set_w_store w_store w_threads with_stats stats].
      rewrite (sumZ_insert _ _ _ _ _ Hi). simpl counted. rewrite Hk. simpl returned.
      pose proof (bump_value k' k (stats (w_store w))) as Hb.
      unfold u64 in *. rewrite <- Zminus_mod_idemp_l, Hb, Zminus_mod_idemp_l. f_equal.
      destruct (bool_decide (k = k')); lia.
Qed.

Lemma tally_act w x l w' k :
  tally_ok w -> legal x w -> act x w = Some (l, w') ->
  tally_ok w' /\
  u64 (value k (stats (w_store w')) - sumZ (counted k) (w_threads w'))
  = u64 (value k (stats (w_store w)) - sumZ (counted k) (w_threads w) + returned k l).
Proof.
  intros Hw Hlegal H. pose proof (ta_range w Hw) as Hr.
  destruct x as [t|i c|i|idx rnd ord|i|i ord|i]; cbn [act] in H.
  - case_match; [|done]. injection H as <- <-. split; [by destruct Hw|]. f_equal. simpl. lia.
  - destruct (w_threads w !! i) as [[]|] eqn:Hi; try done. injection H as <- <-.
    by eapply (tally_move w _ _ _ i Idle).
  - destruct (w_threads w !! i) as [p|] eqn:Hi; [|done]. by apply (tally_advance w i p).
  - case_match; [done|]. destruct (shards (w_store w) !! idx) as [m|] eqn:Hm; [|done]. simpl in H.
    destruct Hlegal as [Hord Hrnd]. unfold items in Hord, Hrnd. rewrite Hm in Hord, Hrnd.
    destruct (sampleAndExpire_sound (w_now w) rnd ord m (stats (w_store w)) Hord Hrnd)
      as (f & m' & E & _). rewrite E in H. simpl in H. injection H as <- <-.
    destruct (expirations_neutral (size m - size m') (stats (w_store w))) as [Hv Hwf].
    split; [split; [apply Hw|by apply Hwf]|]. cbn [set_w_store w_store w_threads with_stats stats].
    rewrite Hv. f_equal. simpl. lia.
  - destruct (w_threads w !! i) as [[]|] eqn:Hi; try done. injection H as <- <-.
    by eapply (tally_move w _ _ _ i Idle).
  - destruct (w_threads w !! i) as [[]|] eqn:Hi; try done. case_match; [done|]. injection H as <- <-.
    by eapply (tally_move w _ _ _ i (Scanning now idx keys)).
  - destruct (w_threads w !! i) as [[]|] eqn:Hi; try done. case_match; [|done]. injection H as <- <-.
    by eapply (tally_move w _ _ _ i (Scanning now idx keys)).
Qed.

Lemma tally_steps w xs ls w' k :
  steps w xs ls w' -> tally_ok w ->
  tally_ok w' /\
  u64 (value k (stats (w_store w')) - sumZ (counted k) (w_threads w'))
  = u64 (value k (stats (w_store w)) - sumZ (counted k) (w_threads w) + sumZ (returned k) ls).
Proof.
  induction 1 as [w|w x l w1 xs ls w2 Hlegal Hact _ IH]; intros Hw.
  { split; [done|]. f_equal. simpl. lia. }
  destruct (tally_act w x l w1 k Hw Hlegal Hact) as [Hw1 E1]. destruct (IH Hw1) as [Hw2 E2].
  split; [done|]. rewrite E2, <- u64_add_l, E1, u64_add_l. f_equal.
  cbn [sumZ foldr]. fold (sumZ (returned k) ls). lia.
Qed.

(** All the calls have returned. *)
Definition at_rest (w : world) : Prop := Forall (fun p => p = Idle) (w_threads w).

(** C20: the counters are exact under concurrency: when all the calls on a new
    store have returned, whatever the interleaving with each other, the sweeper
    and scans, each counter is, modulo 2^64, the number of calls that returned
    with the outcome it counts: Gets that found a value, Gets that did not, Sets,
    and Deletes that found their key. *)
Theorem counters_at_rest (shardCount t : Z) (s : Store) (n : nat) (xs : list action)
    (ls : list label) (w : world) (k : counter) :
  NewWithShards shardCount = Some s -> steps (start t s n) xs ls w -> at_rest w ->
  value k (Stats (w_store w)) = u64 (sumZ (returned k) ls).
Proof.
  intros (b & Hb & ->)%NewWithShards_Some Hsteps Hrest.
  destruct (tally_steps _ _ _ _ k Hsteps) as [[_ Hr] E].
  { split; simpl; [by apply Forall_replicate|]. repeat split; simpl; lia. }
  assert (forall ths, Forall (fun p => p = Idle) ths -> sumZ (counted k) ths = 0) as Hsum.
  { intros ths H. induction H as [|p ths -> _ IH]; [done|]. simpl. done. }
  rewrite !Hsum, !Z.sub_0_r in E by (done || by apply Forall_replicate).
  pose proof (value_range k _ Hr) as Hv. rewrite u64_small in E by done.
  change (value k (Stats (w_store w))) with (value k (Snapshot (stats (w_store w)))).
  replace (value k (stats (w_store (start t (empty_store b) n)))) with 0 in E by by destruct k.
  rewrite Z.add_0_l in E. rewrite <- E. by destruct (stats (w_store w)), k.
Qed.

Lemma counters_at_rest_witness :
  value CHits (Stats (w_store after_race.2)) = 1 /\ value CMisses (Stats (w_store after_race.2)) = 1 /\
  value CSets (Stats (w_store after_race.2)) = 2.
Proof.
  pose proof (fun k => counters_at_rest 3 10 demo_store 2 race after_race.1 after_race.2 k eq_refl race_runs)
    as H.
  assert (at_rest after_race.2) as Hrest by (repeat constructor).
  rewrite !H by exact Hrest. repeat split; vm_compute; reflexivity.
Defined.

(** ** Progress *)

(** The steps a goroutine has left in its call. *)
Definition left_in_call (p : pc) : nat :=
  match p with
  | Idle | Scanning _ _ _ => 0
  | Called (CmdGet _) => 4
  | Called (CmdSet _ _ _) => 5
  | Called (CmdDelete _) | Called (CmdExpire _ _) => 3
  | GetReap _ => 3
  | SetCreated _ _ _ _ => 4
  | SetReady _ _ _ _ => 3
  | ExpireHeld _ _ _ | Counting _ _ _ => 2
  | Returning _ _ => 1
  end.

(** Every lock that is held is held by a goroutine inside Expire. *)
Definition locks_owned (w : world) : Prop :=
  forall idx, idx ∈ w_locked w -> exists i key ttl e,
    w_threads w !! i = Some (ExpireHeld key ttl e) /\ getShard (w_store w) key = idx.

Lemma owned_move w t s i p p' :
  locks_owned w -> w_threads w !! i = Some p -> holding p = false ->
  shardMask s = shardMask (w_store w) ->
  locks_owned (mkWorld t s (w_locked w) (<[i := p']> (w_threads w))).
Proof.
  intros Hw Hi Hp Hs idx Hidx. destruct (Hw idx Hidx) as (j & key & ttl & e & Hj & Hk).
  exists j, key, ttl, e. simpl. rewrite (getShard_mask _ _ key Hs). split; [|done].
  rewrite list_lookup_insert_ne; [done|]. intros ->. rewrite Hi in Hj. by injection Hj as ->.
Qed.

(** The step of a goroutine, with what it leaves of its call. *)
Lemma advance_spec w i p l w' :
  locks_owned w -> w_threads w !! i = Some p -> advance i p w = Some (l, w') ->
  locks_owned w' /\ exists p', w_threads w' = <[i := p']> (w_threads w) /\
    (left_in_call p' < left_in_call p)%nat.
Proof.
  intros Hw Hi H. assert (shardMask (w_store w) = shardMask (w_store w)) as Hm by done.
  destruct p as [|[key|key v ttl|key|key ttl]|key|key v ttl t1|key v ttl e|key ttl e|k' c r|c r|];
    cbn [advance] in H; try done; try (case_match; [|done]);
    repeat match type of H with context [match ?x with _ => _ end] => destruct x end;
    injection H as <- <-;
    try (split; [by eapply owned_move|by eexists; split; [reflexivity|simpl; lia]]).
  - split; [|by eexists; split; [reflexivity|simpl; lia]].
    intros idx [Hidx|Hidx]%elem_of_union.
    + apply elem_of_singleton in Hidx as ->. eexists i, key, ttl, _. split; [|done]. simpl.
      apply list_lookup_insert_eq. by eapply lookup_lt_Some.
    + by eapply (owned_move w (w_now w) (w_store w) i).
  - split; [|by eexists; split; [reflexivity|simpl; lia]]. eapply owned_move; try done.
    unfold get_reap. by repeat case_match.
  - split; [|by eexists; split; [reflexivity|simpl; lia]].
    intros idx [Hidx Hne]%elem_of_difference. destruct (Hw idx Hidx) as (j & k & d & e' & Hj & Hk).
    exists j, k, d, e'. split; [|done]. simpl. rewrite list_lookup_insert_ne; [done|]. intros ->.
    rewrite Hi in Hj. injection Hj as -> -> ->. apply Hne. set_solver.
Qed.

Lemma owned_act w x l w' : locks_owned w -> act x w = Some (l, w') -> locks_owned w'.
Proof.
  intros Hw H. destruct x as [t|i c|i|idx rnd ord|i|i ord|i]; cbn [act] in H.
  - case_match; [|done]. by injection H as <- <-.
  - destruct (w_threads w !! i) as [[]|] eqn:Hi; try done. injection H as <- <-. by eapply owned_move.
  - destruct (w_threads w !! i) as [p|] eqn:Hi; [|done]. by eapply advance_spec.
  - case_match; [done|]. destruct (shards (w_store w) !! idx) as [m|]; [|done]. simpl in H.
    destruct (sampleAndExpire _ _ _ _ _) as [[[f m'] st]|]; [|done]. by injection H as <- <-.
  - destruct (w_threads w !! i) as [[]|] eqn:Hi; try done. injection H as <- <-. by eapply owned_move.
  - destruct (w_threads w !! i) as [[]|] eqn:Hi; try done. case_match; [done|]. injection H as <- <-.
    by eapply owned_move.
  - destruct (w_threads w !! i) as [[]|] eqn:Hi; try done. case_match; [|done]. injection H as <- <-.
    by eapply owned_move.
Qed.

Lemma owned_steps w xs ls w' : steps w xs ls w' -> locks_owned w -> locks_owned w'.
Proof. induction 1; [done|]. intros Hw. by eauto using owned_act. Qed.

(** Some goroutine can move as long as one is in a call. *)
Lemma some_advances w i p :
  locks_owned w -> w_threads w !! i = Some p -> left_in_call p <> 0%nat ->
  exists j l w', act (ARun j) w = Some (l, w').
Proof.
  intros Hw Hi Hp. destruct (decide (w_locked w = ∅)) as [He|Hne].
  - assert (forall key, free w key = true) as Hfree
      by (intros key; apply bool_decide_eq_true_2; rewrite He; set_solver).
    exists i. cbn [act]. rewrite Hi. simpl.
    destruct p as [|[]| | | | | | |]; simpl in *; rewrite ?Hfree; try done; by eexists _, _.
  - apply set_choose_L in Hne as [idx (j & key & ttl & e & Hj & _)%Hw].
    exists j. cbn [act]. rewrite Hj. by eexists _, _.
Qed.

Definition work (w : world) : Z := sumZ (fun p => Z.of_nat (left_in_call p)) (w_threads w).

Lemma run_decreases w i l w' :
  locks_owned w -> act (ARun i) w = Some (l, w') ->
  locks_owned w' /\ 0 <= work w' < work w.
Proof.
  intros Hw H. split; [by eapply owned_act|]. cbn [act] in H.
  destruct (w_threads w !! i) as [p|] eqn:Hi; [|done]. simpl in H.
  destruct (advance_spec w i p l w' Hw Hi H) as (_ & p' & E & Hlt).
  split; [apply sumZ_nonneg; intros q; lia|]. unfold work. rewrite E, (sumZ_insert _ _ _ _ _ Hi). lia.
Qed.

Lemma all_finish w :
  locks_owned w -> exists is_ ls w', steps w (ARun <$> is_) ls w' /\
    Z.of_nat (length is_) <= work w /\ Forall (fun p => left_in_call p = 0%nat) (w_threads w').
Proof.
  remember (Z.to_nat (work w)) as n eqn:Hn. revert w Hn.
  induction (Nat.lt_wf_0 n) as [n _ IH]. intros w Hn Hw.
  destruct (decide (Forall (fun p => left_in_call p = 0%nat) (w_threads w))) as [Hall|Hex].
  { exists [], [], w. split_and!; [constructor| |done]. simpl. unfold work.
    apply sumZ_nonneg. intros q. lia. }
  apply not_Forall_Exists, Exists_exists in Hex as (p & [i Hi]%list_elem_of_lookup & Hp); [|apply _].
  destruct (some_advances w i p Hw Hi Hp) as (j & l & w1 & Hact).
  destruct (run_decreases w j l w1 Hw Hact) as [Hw1 Hlt].
  destruct (IH (Z.to_nat (work w1)) ltac:(lia) w1 eq_refl Hw1) as (is_ & ls & w' & Hs & Hlen & Hall).
  exists (j :: is_), (l :: ls), w'. split_and!; [|simpl; lia|done].
  simpl. by eapply steps_cons.
Qed.

(** C21: no call is ever stuck: in every state that an execution can reach, every
    step of a goroutine brings its call nearer to its end, which is at most five
    steps away; and the goroutines in a call can all finish, in at most five
    steps each, so that the locks never deadlock. *)
Theorem store_calls_complete (t : Time) (s : Store) (n : nat) (xs : list action)
    (ls : list label) (w : world) :
  steps (start t s n) xs ls w ->
  (forall i l w', act (ARun i) w = Some (l, w') -> 0 <= work w' < work w) /\
  exists is_ ls' w', steps w (ARun <$> is_) ls' w' /\
    (length is_ <= 5 * length (w_threads w))%nat /\
    Forall (fun p => left_in_call p = 0%nat) (w_threads w').
Proof.
  intros Hsteps. assert (locks_owned w) as Hw.
  { apply (owned_steps _ _ _ _ Hsteps). intros idx Hidx. simpl in Hidx. set_solver. }
  split; [intros i l w' Hact; by apply (run_decreases w i l w')|].
  destruct (all_finish w Hw) as (is_ & ls' & w' & Hs & Hlen & Hall).
  exists is_, ls', w'. split_and!; [done| |done].
  assert (work w <= 5 * Z.of_nat (length (w_threads w))) as Hle; [|lia].
  unfold work. clear. induction (w_threads w) as [|p ths IH]; [done|]. cbn [sumZ foldr length].
  fold (sumZ (fun p => Z.of_nat (left_in_call p)) ths).
  assert (left_in_call p <= 5)%nat by (destruct p as [|[]| | | | | | |]; simpl; lia). lia.
Qed.

(** A goroutine that holds a lock, and one that waits for it. *)
Definition contended : list action :=
  [ACall 0 (CmdSet "k" [Byte.x01] 5); ARun 0; ARun 0; ARun 0; ARun 0; ARun 0;
   ACall 0 (CmdExpire "k" 100); ARun 0; ACall 1 (CmdDelete "k")].

Definition after_contended : list label * world :=
  default ([], start 10 demo_store 2) (execute contended (start 10 demo_store 2)).

Lemma store_calls_complete_witness :
  act (ARun 1) after_contended.2 = None /\
  exists is_ ls' w', steps after_contended.2 (ARun <$> is_) ls' w' /\ (length is_ <= 10)%nat /\
    Forall (fun p => left_in_call p = 0%nat) (w_threads w').
Proof.
  split; [vm_compute; reflexivity|].
  apply (store_calls_complete 10 demo_store 2 contended after_contended.1 after_contended.2).
  apply execute_steps. vm_compute. reflexivity.
Defined.

(** ** Scans *)

(** No step changes the number of shards or the mask. *)
Lemma act_shape w x l w' :
  act x w = Some (l, w') ->
  shardMask (w_store w') = shardMask (w_store w) /\
  length (shards (w_store w')) = length (shards (w_store w)).
Proof.
  intros H. destruct x as [t|i c|i|idx rnd ord|i|i ord|i]; cbn [act] in H.
  - case_match; [|done]. by injection H as <- <-.
  - destruct (w_threads w !! i) as [[]|]; try done. by injection H as <- <-.
  - destruct (w_threads w !! i) as [p|]; [|done]. simpl in H.
    destruct p as [|[key|key v ttl|key|key ttl]|key|key v ttl t1|key v ttl e|key ttl e|k' c r|c r|];
      cbn [advance] in H; try done; try (case_match; [|done]);
      repeat match type of H with context [match ?x with _ => _ end] => destruct x end;
      injection H as <- <-; simpl; rewrite ?length_insert; try done.
    unfold get_reap. repeat case_match; simpl; by rewrite ?length_insert.
  - case_match; [done|]. destruct (shards (w_store w) !! idx) as [m|]; [|done]. simpl in H.
    destruct (sampleAndExpire _ _ _ _ _) as [[[f m'] st]|]; [|done]. injection H as <- <-.
    simpl. by rewrite length_insert.
  - destruct (w_threads w !! i) as [[]|]; try done. by injection H as <- <-.
  - destruct (w_threads w !! i) as [[]|]; try done. case_match; [done|]. by injection H as <- <-.
  - destruct (w_threads w !! i) as [[]|]; try done. case_match; [|done]. by injection H as <- <-.
Qed.

(** Only its own visits move a scan. *)
Lemma act_others w x l w' i t idx ks :
  act x w = Some (l, w') -> w_threads w !! i = Some (Scanning t idx ks) ->
  x <> AEndScan i -> (forall ord, x <> AVisit i ord) ->
  w_threads w' !! i = Some (Scanning t idx ks).
Proof.
  intros H Hi He Hv.
  assert (forall j p w0, w_threads w0 = w_threads w -> w_threads w !! j <> Some (Scanning t idx ks) \/ j <> i ->
    w_threads (goto j p w0) !! i = Some (Scanning t idx ks)) as Hgo.
  { intros j p w0 E Hj. simpl. rewrite E, list_lookup_insert_ne; [done|]. intros ->. by destruct Hj. }
  destruct x as [t'|j c|j|idx' rnd ord|j|j ord|j]; cbn [act] in H.
  - case_match; [|done]. by injection H as <- <-.
  - destruct (w_threads w !! j) as [[]|] eqn:Hj; try done. injection H as <- <-. apply Hgo; [done|by left; rewrite Hj].
  - destruct (w_threads w !! j) as [p|] eqn:Hj; [|done]. simpl in H.
    assert (j <> i) as Hne by (intros ->; rewrite Hi in Hj; by injection Hj as <-).
    destruct p as [|[key|key v ttl|key|key ttl]|key|key v ttl t1|key v ttl e|key ttl e|k' c r|c r|];
      cbn [advance] in H; try done; try (case_match; [|done]);
      repeat match type of H with context [match ?x with _ => _ end] => destruct x end;
      injection H as <- <-; apply Hgo; auto.
  - case_match; [done|]. destruct (shards (w_store w) !! idx') as [m|]; [|done]. simpl in H.
    destruct (sampleAndExpire _ _ _ _ _) as [[[f m'] st]|]; [|done]. by injection H as <- <-.
  - destruct (w_threads w !! j) as [[]|] eqn:Hj; try done. injection H as <- <-. apply Hgo; [done|by left; rewrite Hj].
  - destruct (w_threads w !! j) as [[]|] eqn:Hj; try done. case_match; [done|]. injection H as <- <-.
    apply Hgo; [done|]. right. intros ->. by apply (Hv ord).
  - destruct (w_threads w !! j) as [[]|] eqn:Hj; try done. case_match; [|done]. injection H as <- <-.
    apply Hgo; [done|]. right. by intros ->.
Qed.

(** The store has a key that a scan begun at [t] lists. *)
Definition present (t : Time) (k : string) (w : world) : Prop :=
  exists e, contents (w_store w) !! k = Some e /\ listed t e = true.

(** It has it at some, or at every, moment of an execution. *)
Definition sometimes (P : world -> Prop) (w : world) (xs : list action) : Prop :=
  exists xs1 xs2 ls1 w1, xs = xs1 ++ xs2 /\ steps w xs1 ls1 w1 /\ P w1.
Definition throughout (P : world -> Prop) (w : world) (xs : list action) : Prop :=
  forall xs1 xs2 ls1 w1, xs = xs1 ++ xs2 -> steps w xs1 ls1 w1 -> P w1.

Lemma sometimes_cons P w x l w1 xs :
  legal x w -> act x w = Some (l, w1) -> sometimes P w1 xs -> sometimes P w (x :: xs).
Proof.
  intros Hl Ha (xs1 & xs2 & ls1 & w2 & -> & Hs & HP).
  exists (x :: xs1), xs2, (l :: ls1), w2. split_and!; [done|by eapply steps_cons|done].
Qed.

Lemma throughout_cons P w x l w1 xs :
  legal x w -> act x w = Some (l, w1) -> throughout P w (x :: xs) -> P w /\ throughout P w1 xs.
Proof.
  intros Hl Ha H. split; [by apply (H [] (x :: xs) [] w); [|constructor]|].
  intros xs1 xs2 ls1 w2 -> Hs. apply (H (x :: xs1) xs2 (l :: ls1) w2); [done|by eapply steps_cons].
Qed.

(** What one visit adds. *)
Lemma visit_adds w i ord t idx ks l w1 :
  store_wf (w_store w) -> w_threads w !! i = Some (Scanning t idx ks) -> legal (AVisit i ord) w ->
  act (AVisit i ord) w = Some (l, w1) ->
  exists new, w_threads w1 !! i = Some (Scanning t (S idx) (ks ++ new)) /\ NoDup new /\
    forall k, k ∈ new <-> getShard (w_store w) k = idx /\ present t k w.
Proof.
  intros Hwf Hi Hl H. cbn [act legal] in H, Hl. rewrite Hi in H, Hl.
  destruct (bool_decide (idx ∈ w_locked w) || negb (idx <? length (shards (w_store w)))%nat) eqn:Hc; [done|].
  apply orb_false_iff in Hc as [_ Hlt]. apply negb_false_iff, Nat.ltb_lt in Hlt. injection H as <- <-.
  rewrite fold_left_collect. exists ((filter (fun kv => listed t kv.2) ord).*1). split_and!.
  - simpl. apply list_lookup_insert_eq. by eapply lookup_lt_Some.
  - eapply sublist_NoDup; [by apply (is_range_NoDup _ _ Hl)|]. apply fmap_sublist, sublist_filter.
  - intros k. destruct (lookup_lt_is_Some_2 _ _ Hlt) as [m Hm].
    assert (items (w_store w) idx = m) as Em by (unfold items; by rewrite Hm).
    rewrite Em in Hl. unfold present. rewrite contents_lookup, list_elem_of_fmap by done. split.
    + intros ([k' e] & -> & [Hlist Hin]%list_elem_of_filter). simpl in *.
      apply (is_range_elem m ord k' e) in Hin; [|done].
      assert (getShard (w_store w) k' = idx) as E
        by (symmetry; apply (wf_home _ Hwf idx m k' Hm); by eexists).
      split; [done|]. exists e. rewrite E, Em. split; [done|]. by destruct (listed t e).
    + intros (E & e & He & Hlist). rewrite E, Em in He. exists (k, e). split; [done|].
      apply list_elem_of_filter. split; [simpl; by rewrite Hlist|]. by apply (is_range_elem m ord).
Qed.

Lemma visit_or_not i x : (exists ord, x = AVisit i ord) \/ (forall ord, x <> AVisit i ord).
Proof.
  destruct x as [| | | | |j ord|]; try (right; by intros).
  destruct (decide (j = i)) as [->|Hne]; [left; by exists ord|]. right. congruence.
Qed.

(** A part of a scan: the shards from [idx] to [idx'] are visited. *)
Lemma scan_part w xs ls w' a i t idx ks :
  steps w xs ls w' -> simulates w a -> w_threads w !! i = Some (Scanning t idx ks) ->
  AEndScan i ∉ xs ->
  exists idx' new, w_threads w' !! i = Some (Scanning t idx' (ks ++ new)) /\ (idx <= idx')%nat /\ NoDup new /\
    (forall k, k ∈ new -> (idx <= getShard (w_store w) k < idx')%nat /\ sometimes (present t k) w xs) /\
    (forall k, (idx <= getShard (w_store w) k < idx')%nat -> throughout (present t k) w xs -> k ∈ new).
Proof.
  intros H. revert a idx ks. induction H as [w|w x l w1 xs ls w2 Hl Ha Hs IH]; intros a idx ks Hsim Hi Hend.
  { exists idx, []. rewrite app_nil_r. split_and!; [done|done|constructor|by intros k []%elem_of_nil|lia]. }
  apply not_elem_of_cons in Hend as [Hx Hend].
  destruct (sim_act w a x l w1 Hsim Hl Ha) as (a1 & _ & Hsim1).
  destruct (act_shape w x l w1 Ha) as [Hmask _].
  assert (forall k, getShard (w_store w1) k = getShard (w_store w) k) as Hg
    by (intros k; by apply getShard_mask).
  destruct (visit_or_not i x) as [[ord ->]|Hv].
  - destruct (visit_adds w i ord t idx ks l w1 (si_wf w a Hsim) Hi Hl Ha) as (new0 & Hi1 & Hnd0 & Hnew0).
    destruct (IH a1 (S idx) (ks ++ new0) Hsim1 Hi1 Hend) as (idx' & new & Hi2 & Hle & Hnd & Hsound & Hcompl).
    exists idx', (new0 ++ new). rewrite app_assoc. split_and!; [done|lia| | |].
    + apply NoDup_app. split_and!; [done| |done]. intros k [Hk _]%Hnew0 [Hk' _]%Hsound.
      rewrite Hg in Hk'. lia.
    + intros k [[Hk Hp]%Hnew0|[Hk Hp]%Hsound]%elem_of_app.
      * split; [|by exists [], (AVisit i ord :: xs), [], w; split_and!; [|constructor|]].
        lia.
      * rewrite Hg in Hk. split; [lia|]. by eapply sometimes_cons.
    + intros k Hk Hp. destruct (throughout_cons _ _ _ _ _ _ Hl Ha Hp) as [Hp0 Hp1].
      apply elem_of_app. destruct (decide (getShard (w_store w) k = idx)); [left; by apply Hnew0|].
      right. apply Hcompl; [|done]. rewrite Hg. lia.
  - assert (w_threads w1 !! i = Some (Scanning t idx ks)) as Hi1.
    { by eapply act_others; [exact Ha|exact Hi|congruence|]. }
    destruct (IH a1 idx ks Hsim1 Hi1 Hend) as (idx' & new & Hi2 & Hle & Hnd & Hsound & Hcompl).
    exists idx', new. split_and!; [done|done|done| |].
    + intros k [Hk Hp]%Hsound. rewrite Hg in Hk. split; [done|]. by eapply sometimes_cons.
    + intros k Hk Hp. apply Hcompl; [by rewrite Hg|]. by eapply throughout_cons.
Qed.

(** C22: a scan of a store that changes under it is weakly consistent: when Keys
    has gone through all the shards, whatever calls and sweeps have run in
    between, it lists no key twice; every key it lists was in the store, with an
    entry not yet due when the scan began, at some moment of the scan; and every
    key that was so at every moment of the scan is listed. *)
Theorem scan_weakly_consistent (shardCount t0 t : Z) (s : Store) (n i : nat)
    (xs0 xs : list action) (ls0 ls : list label) (w w' : world) (keys : list string) :
  NewWithShards shardCount = Some s -> steps (start t0 s n) xs0 ls0 w ->
  w_threads w !! i = Some (Scanning t 0 []) -> steps w xs ls w' -> AEndScan i ∉ xs ->
  w_threads w' !! i = Some (Scanning t (length (shards (w_store w))) keys) ->
  NoDup keys /\ (forall k, k ∈ keys -> sometimes (present t k) w xs) /\
  (forall k, throughout (present t k) w xs -> k ∈ keys).
Proof.
  intros (b & Hb & ->)%NewWithShards_Some Hs0 Hi Hs Hend Hi'.
  destruct (sim_steps _ _ _ _ _ Hs0 (start_simulates t0 b n Hb)) as (a & _ & Hsim).
  destruct (scan_part w xs ls w' a i t 0 [] Hs Hsim Hi Hend) as (idx' & new & Hi2 & _ & Hnd & Hsound & Hcompl).
  rewrite Hi' in Hi2. injection Hi2 as <- ->. split_and!; [done|by intros k [_ Hk]%Hsound|].
  intros k Hk. apply Hcompl; [|done]. split; [lia|]. apply getShard_lt, Hsim.
Qed.

(** Two keys, of which the first is deleted after its shard was visited. *)
Definition scan_setup : list action :=
  [ACall 0 (CmdSet "a" [Byte.x01] 0); ARun 0; ARun 0; ARun 0; ARun 0; ARun 0;
   ACall 0 (CmdSet "b" [Byte.x02] 0); ARun 0; ARun 0; ARun 0; ARun 0; ARun 0; AScan 1].

Definition scan_start : list label * world :=
  default ([], start 10 demo_store 2) (execute scan_setup (start 10 demo_store 2)).

Definition scan_visit (idx : nat) : action :=
  AVisit 1 (map_to_list (items (w_store scan_start.2) idx)).

Definition scan_actions : list action :=
  [scan_visit 0; ACall 0 (CmdDelete "a"); ARun 0; ARun 0; ARun 0; scan_visit 1; scan_visit 2; scan_visit 3].

Lemma scan_weakly_consistent_witness :
  exists ls w', steps scan_start.2 scan_actions ls w' /\
    w_threads w' !! 1%nat = Some (Scanning 10 4 ["a"; "b"]) /\ contents (w_store w') !! "a" = None /\
    sometimes (present 10 "a") scan_start.2 scan_actions.
Proof.
  assert (exists ls w', steps scan_start.2 scan_actions ls w' /\
    w_threads w' !! 1%nat = Some (Scanning 10 4 ["a"; "b"]) /\ contents (w_store w') !! "a" = None)
    as (ls & w' & Hs & Hi & Ha).
  { eexists _, _. split.
    - unfold scan_actions.
      repeat (eapply steps_cons; [first [exact I|vm_compute; reflexivity]|vm_compute; reflexivity|]).
      constructor.
    - split; vm_compute; reflexivity. }
  exists ls, w'. split_and!; [exact Hs|exact Hi|exact Ha|].
  destruct (scan_weakly_consistent 3 10 10 demo_store 2 1 scan_setup scan_actions scan_start.1 ls
    scan_start.2 w' ["a"; "b"]) as (_ & H & _).
  - reflexivity.
  - apply execute_steps. vm_compute. reflexivity.
  - vm_compute. reflexivity.
  - exact Hs.
  - unfold scan_actions, scan_visit. intros Hin. rewrite !elem_of_cons, elem_of_nil in Hin. naive_solver.
  - exact Hi.
  - apply H. left.
Defined.
