(* ===== verification/HashRing.v ===== *)
(** * Consistent hashing with bounded loads: internal/hashing/ring.go

    The ring keeps the virtual nodes of every member sorted by hash.
    [clockwise] is the reference order of the virtual nodes seen from a hash;
    binary search plus modular indexing computes it on a sorted ring
    ([rotate_search]), and every lookup is stated through it.

    A panic of the Go runtime (a negative capacity) is [None]. *)

From S2P Require Import Prelude GoLib.

#[local] Open Scope Z_scope.

(** ** Data *)

Record VNode := mkVNode {
  Hash : Z;
  NodeID : string;
  Index : Z
}.

(** A load is the counter [Active] of a [NodeLoad]; the two booleans tell
    whether the callbacks are set. *)
Record Ring := mkRing {
  vnodes : list VNode;
  nodeVnodes : Z;
  nodes : gmap string bool;
  loads : gmap string Z;
  maxLoadFactor : float64;
  onNodeAdded : bool;
  onNodeRemoved : bool
}.

#[global] Instance VNode_eq_dec : EqDecision VNode.
Proof. solve_decision. Defined.

(** ** Hashes *)

Definition hashKey (key : string) : Z := fnv64a (bytes_of_string key).

Definition vnode_name (nodeID : string) (index : Z) : string :=
  nodeID +:+ "#" +:+ fmt_d index.

Definition hashVNode (nodeID : string) (index : Z) : Z :=
  fnv64a (bytes_of_string (vnode_name nodeID index)).

(** ** Construction and membership *)

Definition NewRing (vnodeCount : Z) (maxLoadFactor : float64) : Ring :=
  let vnodeCount := if vnodeCount <=? 0 then 150 else vnodeCount in
  let maxLoadFactor := if flt maxLoadFactor f_0 then f_0_25 else maxLoadFactor in
  mkRing [] vnodeCount ∅ ∅ maxLoadFactor false false.

Definition SetOnNodeAdded (set : bool) (r : Ring) : Ring :=
  mkRing (vnodes r) (nodeVnodes r) (nodes r) (loads r) (maxLoadFactor r)
    set (onNodeRemoved r).
Definition SetOnNodeRemoved (set : bool) (r : Ring) : Ring :=
  mkRing (vnodes r) (nodeVnodes r) (nodes r) (loads r) (maxLoadFactor r)
    (onNodeAdded r) set.

(** [r.nodes[nodeID]]: false for an absent key. *)
Definition HasNode (r : Ring) (nodeID : string) : bool :=
  default false (nodes r !! nodeID).

(** The virtual nodes AddNode appends, for [i = 0 .. nodeVnodes - 1]. *)
Definition node_vnodes (count : Z) (nodeID : string) : list VNode :=
  (fun i => mkVNode (hashVNode nodeID i) nodeID i) <$> seqZ 0 count.

Section Operations.
Context `{!SortSlice}.

(** The result, the argument of the callback when it is invoked, and the
    new ring. *)
Definition AddNode (nodeID : string) (r : Ring) : bool * option string * Ring :=
  if HasNode r nodeID then (false, None, r)
  else
    (true, if onNodeAdded r then Some nodeID else None,
     mkRing (sort_slice Hash (vnodes r ++ node_vnodes (nodeVnodes r) nodeID))
       (nodeVnodes r) (<[nodeID := true]> (nodes r)) (<[nodeID := 0]> (loads r))
       (maxLoadFactor r) (onNodeAdded r) (onNodeRemoved r)).

Definition RemoveNode (nodeID : string) (r : Ring)
    : option (bool * option string * Ring) :=
  if negb (HasNode r nodeID) then Some (false, None, r)
  else if Z.of_nat (length (vnodes r)) - nodeVnodes r <? 0 then None
  else
    Some (true, if onNodeRemoved r then Some nodeID else None,
      mkRing (filter (fun vn => NodeID vn <> nodeID) (vnodes r)) (nodeVnodes r)
        (delete nodeID (nodes r)) (delete nodeID (loads r))
        (maxLoadFactor r) (onNodeAdded r) (onNodeRemoved r)).
End Operations.

(** ** Lookups *)

(** The index of the first virtual node with hash >= target, or 0. *)
Definition search (r : Ring) (hash : Z) : nat :=
  let n := length (vnodes r) in
  let idx := sort_Search n (fun i =>
    match vnodes r !! i with Some vn => hash <=? Hash vn | None => false end) in
  if (n <=? idx)%nat then 0%nat else idx.

Definition averageLoad (r : Ring) : float64 :=
  let n := size (nodes r) in
  if (n =? 0)%nat then f_0
  else
    let total := map_fold (fun _ load total => i64 (total + load)) 0 (loads r) in
    fdiv (float64_of_int total) (float64_of_int (Z.of_nat n)).

(** The load bound GetNode computes. *)
Definition maxLoad (r : Ring) : Z :=
  let m := int64_of_float (fmul (averageLoad r) (fadd f_1 (maxLoadFactor r))) in
  if m <? 1 then 1 else m.

(** [load == nil || load.Active.Load() < maxLoad] *)
Definition eligible (r : Ring) (bound : Z) (nodeID : string) : bool :=
  match loads r !! nodeID with None => true | Some load => load <? bound end.

(** The walk of GetNode: [k] positions left, at offset [i] from [idx]. *)
Fixpoint find_eligible (r : Ring) (bound : Z) (idx k i : nat) : option string :=
  match k with
  | O => None
  | S k =>
      match vnodes r !! ((idx + i) mod length (vnodes r))%nat with
      | None => None
      | Some vnode =>
          if eligible r bound (NodeID vnode) then Some (NodeID vnode)
          else find_eligible r bound idx k (S i)
      end
  end.

(** [Some id] is the Go result [(id, true)], [None] is [("", false)]. *)
Definition GetNode (r : Ring) (key : string) : option string :=
  match vnodes r with
  | [] => None
  | _ =>
      let idx := search r (hashKey key) in
      match find_eligible r (maxLoad r) idx (length (vnodes r)) 0 with
      | Some id => Some id
      | None => NodeID <$> vnodes r !! idx
      end
  end.

(** The walk of GetNodes; [seen] is the set of the IDs in [result]. *)
Fixpoint collect_nodes (r : Ring) (n : Z) (idx k i : nat) (seen : gset string)
    (result : list string) : list string :=
  match k with
  | O => result
  | S k =>
      if Z.of_nat (length result) <? n then
        match vnodes r !! ((idx + i) mod length (vnodes r))%nat with
        | None => result
        | Some vnode =>
            if bool_decide (NodeID vnode ∈ seen) then
              collect_nodes r n idx k (S i) seen result
            else collect_nodes r n idx k (S i) ({[NodeID vnode]} ∪ seen)
                   (result ++ [NodeID vnode])
        end
      else result
  end.

Definition GetNodes (r : Ring) (key : string) (n : Z) : option (list string) :=
  match vnodes r with
  | [] => Some []
  | _ =>
      let nodeCount := Z.of_nat (size (nodes r)) in
      let n := if nodeCount <? n then nodeCount else n in
      if n <? 0 then None
      else Some (collect_nodes r n (search r (hashKey key)) (length (vnodes r)) 0 ∅ [])
  end.

(** ** Loads *)

Definition add_load (d : Z) (nodeID : string) (r : Ring) : Ring :=
  match loads r !! nodeID with
  | None => r
  | Some load =>
      mkRing (vnodes r) (nodeVnodes r) (nodes r) (<[nodeID := i64 (load + d)]> (loads r))
        (maxLoadFactor r) (onNodeAdded r) (onNodeRemoved r)
  end.

Definition IncrementLoad (nodeID : string) (r : Ring) : Ring := add_load 1 nodeID r.
Definition DecrementLoad (nodeID : string) (r : Ring) : Ring := add_load (-1) nodeID r.
Definition GetLoad (r : Ring) (nodeID : string) : Z := default 0 (loads r !! nodeID).

(** ** Members *)

(** [ord] is the order in which Go visits the node set. *)
Definition Members (ord : list (string * bool)) : list string := sort_Strings ord.*1.
Definition Size (r : Ring) : Z := Z.of_nat (size (nodes r)).
Definition IsEmpty (r : Ring) : bool := Size r =? 0.

(** ** The reference order *)

(** The virtual nodes met when walking clockwise from [h]. *)
Definition clockwise (h : Z) (l : list VNode) : list VNode :=
  filter (fun v => h <= Hash v) l ++ filter (fun v => Hash v < h) l.

(** The node IDs of [l] in order of first occurrence, those in [seen] aside. *)
Fixpoint firsts (seen : gset string) (l : list VNode) : list string :=
  match l with
  | [] => []
  | v :: l =>
      if bool_decide (NodeID v ∈ seen) then firsts seen l
      else NodeID v :: firsts ({[NodeID v]} ∪ seen) l
  end.

(** The members in the order the ring prefers them for a key. *)
Definition preference (r : Ring) (key : string) : list string :=
  firsts ∅ (clockwise (hashKey key) (vnodes r)).

(** *** Binary search computes the clockwise order *)

Lemma sorted_hash_le l i j v w :
  Sorted (key_le Hash) l -> (i <= j)%nat -> l !! i = Some v -> l !! j = Some w ->
  Hash v <= Hash w.
Proof.
  intros Hs%(Sorted_StronglySorted (key_le Hash)). revert i j.
  induction Hs as [|x l Hs IH Hall]; intros i j Hij Hi Hj; [done|].
  destruct i as [|i], j as [|j]; simpl in *; try lia; simplify_eq; [lia| |].
  - rewrite Forall_forall in Hall. apply Hall. by eapply list_elem_of_lookup_2.
  - by apply (IH i j); [lia|..].
Qed.

(** The position binary search returns splits the ring by hash. *)
Lemma search_split r h (pos := sort_Search (length (vnodes r)) (fun i =>
    match vnodes r !! i with Some vn => h <=? Hash vn | None => false end)) :
  Sorted (key_le Hash) (vnodes r) ->
  (pos <= length (vnodes r))%nat /\
  Forall (fun v => Hash v < h) (take pos (vnodes r)) /\
  Forall (fun v => h <= Hash v) (drop pos (vnodes r)).
Proof.
  intros Hs. subst pos.
  edestruct (sort_Search_spec (length (vnodes r)) (fun i =>
    match vnodes r !! i with Some vn => h <=? Hash vn | None => false end))
    as (Hle & Hlo & Hhi).
  { intros a b Hab Ha. destruct (vnodes r !! a) as [v|] eqn:Ev; [|done].
    destruct (lookup_lt_is_Some_2 (vnodes r) b ltac:(lia)) as [w Ew]. rewrite Ew.
    pose proof (sorted_hash_le _ a b v w Hs ltac:(lia) Ev Ew). lia. }
  split_and!; [done|apply Forall_lookup|apply Forall_lookup]; intros i v Hi.
  - apply lookup_take_Some in Hi as [Hi Hlt]. specialize (Hlo i Hlt).
    simpl in Hlo. rewrite Hi in Hlo. lia.
  - rewrite lookup_drop in Hi. pose proof (lookup_lt_Some _ _ _ Hi).
    specialize (Hhi _ (conj (Nat.le_add_r _ i) H)). simpl in Hhi.
    rewrite Hi in Hhi. lia.
Qed.

Lemma rotate_search r h :
  Sorted (key_le Hash) (vnodes r) -> vnodes r <> [] ->
  (search r h < length (vnodes r))%nat /\
  drop (search r h) (vnodes r) ++ take (search r h) (vnodes r) = clockwise h (vnodes r).
Proof.
  intros Hs Hne. unfold search.
  destruct (search_split r h Hs) as (Hle & Hlo & Hhi).
  set (pos := sort_Search _ _) in *.
  assert (length (vnodes r) <> 0%nat) as Hlen by by destruct (vnodes r).
  assert (clockwise h (vnodes r) = drop pos (vnodes r) ++ take pos (vnodes r)) as ->.
  { unfold clockwise. rewrite <- (take_drop pos (vnodes r)) at 1 2.
    rewrite !filter_app.
    rewrite (list_filter_all (fun v => h <= Hash v) (drop _ _)) by done.
    rewrite (list_filter_all (fun v => Hash v < h) (take _ _)) by done.
    rewrite (list_filter_none (fun v => h <= Hash v) (take _ _)).
    2: { eapply Forall_impl; [done|]. simpl. intros. lia. }
    rewrite (list_filter_none (fun v => Hash v < h) (drop _ _)).
    2: { eapply Forall_impl; [done|]. simpl. intros. lia. }
    by rewrite app_nil_r. }
  destruct (Nat.leb_spec (length (vnodes r)) pos); [|split; [lia|done]].
  split; [lia|]. rewrite drop_0, take_0, app_nil_r, drop_ge, take_ge by lia. done.
Qed.

(** *** The walks *)

Section walks.
Context (r : Ring) (h : Z).
Context (Hs : Sorted (key_le Hash) (vnodes r)) (Hne : vnodes r <> []).

Lemma length_clockwise : length (clockwise h (vnodes r)) = length (vnodes r).
Proof.
  destruct (rotate_search r h Hs Hne) as [Hlt <-].
  rewrite length_app, length_drop, length_take. lia.
Qed.

Lemma walk_lookup i :
  (i < length (vnodes r))%nat ->
  vnodes r !! ((search r h + i) mod length (vnodes r))%nat
  = clockwise h (vnodes r) !! i.
Proof.
  intros Hi. destruct (rotate_search r h Hs Hne) as [Hlt <-].
  by apply rotate_lookup.
Qed.

Lemma find_eligible_spec bound k i :
  (i + k = length (vnodes r))%nat ->
  find_eligible r bound (search r h) k i
  = NodeID <$> head (filter (fun v => eligible r bound (NodeID v))
                       (drop i (clockwise h (vnodes r)))).
Proof.
  revert i. induction k as [|k IH]; intros i Hik; cbn [find_eligible].
  - rewrite drop_ge by (rewrite length_clockwise; lia). done.
  - rewrite walk_lookup by lia.
    destruct (lookup_lt_is_Some_2 (clockwise h (vnodes r)) i) as [v Hv].
    { rewrite length_clockwise. lia. }
    rewrite Hv, (drop_S _ _ _ Hv), filter_cons.
    destruct (eligible r bound (NodeID v)); simpl; [done|]. apply IH. lia.
Qed.

Lemma collect_nodes_spec n k i seen result :
  (i + k = length (vnodes r))%nat -> Z.of_nat (length result) <= n ->
  collect_nodes r n (search r h) k i seen result
  = take (Z.to_nat n) (result ++ firsts seen (drop i (clockwise h (vnodes r)))).
Proof.
  revert i seen result. induction k as [|k IH]; intros i seen result Hik Hn; cbn [collect_nodes].
  - rewrite drop_ge by (rewrite length_clockwise; lia). simpl.
    rewrite app_nil_r, take_ge by lia. done.
  - destruct (Z.ltb_spec (Z.of_nat (length result)) n).
    2: { rewrite take_app_le, take_ge by lia. done. }
    rewrite walk_lookup by lia.
    destruct (lookup_lt_is_Some_2 (clockwise h (vnodes r)) i) as [v Hv].
    { rewrite length_clockwise. lia. }
    rewrite Hv, (drop_S _ _ _ Hv). cbn [firsts].
    case_bool_decide; [apply IH; lia|].
    rewrite IH by (rewrite ?length_app; simpl; lia). by rewrite <- app_assoc.
Qed.
End walks.

(** *** Facts about [firsts] *)

Lemma elem_of_firsts seen l x :
  x ∈ firsts seen l <-> x ∉ seen /\ exists v, v ∈ l /\ NodeID v = x.
Proof.
  revert seen. induction l as [|v l IH]; intros seen; simpl.
  - rewrite elem_of_nil. split; [done|]. intros (_ & w & Hw & _). by apply elem_of_nil in Hw.
  - case_bool_decide as Hv; [rewrite IH|rewrite elem_of_cons, IH].
    + split.
      * intros (Hx & w & Hw & <-). split; [done|]. exists w. set_solver.
      * intros (Hx & w & Hw & <-). split; [done|].
        apply elem_of_cons in Hw as [->|Hw]; [done|]. by exists w.
    + split.
      * intros [->|(Hx & w & Hw & <-)].
        -- split; [done|]. exists v. set_solver.
        -- split; [set_solver|]. exists w. set_solver.
      * intros (Hx & w & Hw & <-). apply elem_of_cons in Hw as [->|Hw]; [by left|].
        destruct (decide (NodeID w = NodeID v)) as [->|Hne]; [by left|].
        right. split; [set_solver|]. by exists w.
Qed.

Lemma NoDup_firsts seen l : NoDup (firsts seen l).
Proof.
  revert seen. induction l as [|v l IH]; intros seen; simpl; [apply NoDup_nil_2|].
  case_bool_decide; [done|]. apply NoDup_cons_2; [|done].
  rewrite elem_of_firsts. set_solver.
Qed.

Lemma firsts_seen_irrel seen x l :
  (forall v, v ∈ l -> NodeID v <> x) -> firsts ({[x]} ∪ seen) l = firsts seen l.
Proof.
  revert seen. induction l as [|v l IH]; intros seen Hl; simpl; [done|].
  assert (NodeID v <> x) as Hv by (apply Hl; left).
  assert (forall w, w ∈ l -> NodeID w <> x) as Hl' by (intros w Hw; apply Hl; by right).
  rewrite (bool_decide_ext _ (NodeID v ∈ seen)) by set_solver.
  case_bool_decide; [by apply IH|]. f_equal.
  rewrite <- (IH ({[NodeID v]} ∪ seen)) by done. f_equal. set_solver.
Qed.

(** Dropping a node from the ring drops it from the order, and only it. *)
Lemma firsts_filter seen x l :
  firsts seen (filter (fun v => NodeID v <> x) l) = filter (fun y => y <> x) (firsts seen l).
Proof.
  revert seen. induction l as [|v l IH]; intros seen; simpl; [done|].
  rewrite filter_cons. destruct (decide (NodeID v <> x)) as [Hv|Hv]; simpl.
  - case_bool_decide; [apply IH|]. rewrite filter_cons_True by done. by rewrite IH.
  - apply dec_stable in Hv. subst x.
    case_bool_decide; [apply IH|]. rewrite filter_cons_False by naive_solver.
    rewrite <- IH, firsts_seen_irrel; [done|].
    intros w Hw. by apply list_elem_of_filter in Hw as [? _].
Qed.

Lemma clockwise_filter h P `{!forall v, Decision (P v)} l :
  clockwise h (filter P l) = filter P (clockwise h l).
Proof.
  unfold clockwise. rewrite filter_app. f_equal; apply list_filter_comm.
Qed.

Lemma elem_of_clockwise h l v : v ∈ clockwise h l <-> v ∈ l.
Proof.
  unfold clockwise. rewrite elem_of_app, !list_elem_of_filter.
  destruct (Z.le_gt_cases h (Hash v)); naive_solver lia.
Qed.

(** ** Well-formed rings *)

(** The virtual nodes a set of members should have. *)
Definition ring_vnodes (count : Z) (ms : gset string) : list VNode :=
  elements ms ≫= node_vnodes count.

Record ring_wf (r : Ring) : Prop := {
  rw_sorted : Sorted (key_le Hash) (vnodes r);
  rw_perm : vnodes r ≡ₚ ring_vnodes (nodeVnodes r) (dom (nodes r));
  rw_true : forall id b, nodes r !! id = Some b -> b = true;
  rw_loads : dom (loads r) = dom (nodes r);
  rw_count : 1 <= nodeVnodes r
}.

Lemma elem_of_node_vnodes c id v :
  v ∈ node_vnodes c id <->
  exists i, 0 <= i < c /\ v = mkVNode (hashVNode id i) id i.
Proof.
  unfold node_vnodes. rewrite list_elem_of_fmap. split.
  - intros (i & -> & Hi%elem_of_seqZ). exists i. split; [lia|done].
  - intros (i & Hi & ->). exists i. split; [done|]. apply elem_of_seqZ. lia.
Qed.

Lemma length_node_vnodes c id : length (node_vnodes c id) = Z.to_nat c.
Proof. unfold node_vnodes. by rewrite length_fmap, length_seqZ. Qed.

Lemma ring_vnodes_insert c ms id :
  id ∉ ms -> ring_vnodes c ({[id]} ∪ ms) ≡ₚ ring_vnodes c ms ++ node_vnodes c id.
Proof.
  intros Hid. unfold ring_vnodes. rewrite elements_union_singleton by done.
  simpl. apply Permutation_app_comm.
Qed.

Lemma ring_vnodes_filter c ms id :
  filter (fun v => NodeID v <> id) (ring_vnodes c ms) ≡ₚ ring_vnodes c (ms ∖ {[id]}).
Proof.
  destruct (decide (id ∈ ms)) as [Hin|Hnin].
  - rewrite (union_difference_singleton_L id ms Hin) at 1.
    rewrite ring_vnodes_insert by set_solver. rewrite filter_app.
    rewrite (list_filter_none _ (node_vnodes c id)).
    2: { apply Forall_forall. intros v Hv.
         apply elem_of_node_vnodes in Hv as (i & _ & ->). naive_solver. }
    rewrite app_nil_r, list_filter_all; [done|].
    apply Forall_forall. intros v Hv. apply list_elem_of_bind in Hv as (id' & Hv & Hid').
    apply elem_of_node_vnodes in Hv as (i & _ & ->). simpl. set_solver.
  - rewrite list_filter_all.
    + by rewrite difference_disjoint_L by set_solver.
    + apply Forall_forall. intros v Hv. apply list_elem_of_bind in Hv as (id' & Hv & Hid').
      apply elem_of_node_vnodes in Hv as (i & _ & ->). simpl. set_solver.
Qed.

Lemma length_ring_vnodes c ms :
  length (ring_vnodes c ms) = (size ms * Z.to_nat c)%nat.
Proof.
  unfold ring_vnodes, size, set_size. cbn [compose]. induction (elements ms) as [|x l IH]; [done|].
  csimpl. rewrite length_app, IH, length_node_vnodes. lia.
Qed.

Lemma vnode_member r id :
  ring_wf r -> (exists v, v ∈ vnodes r /\ NodeID v = id) <-> id ∈ dom (nodes r).
Proof.
  intros Hwf. split.
  - intros (v & Hv & <-). rewrite (rw_perm r Hwf) in Hv.
    apply list_elem_of_bind in Hv as (id' & Hv & Hid').
    apply elem_of_node_vnodes in Hv as (i & _ & ->). by apply elem_of_elements.
  - intros Hid. exists (mkVNode (hashVNode id 0) id 0). split; [|done].
    rewrite (rw_perm r Hwf). apply list_elem_of_bind. exists id.
    split; [|by apply elem_of_elements]. apply elem_of_node_vnodes.
    exists 0. pose proof (rw_count r Hwf). split; [lia|done].
Qed.

Lemma HasNode_dom r id : ring_wf r -> HasNode r id = true <-> id ∈ dom (nodes r).
Proof.
  intros Hwf. unfold HasNode. rewrite elem_of_dom. split.
  - destruct (nodes r !! id); [by eexists|done].
  - intros [b Hb]. rewrite Hb. simpl. by apply (rw_true r Hwf id).
Qed.

(** Capacity of the slice RemoveNode allocates. *)
Lemma ring_capacity r id :
  ring_wf r -> id ∈ dom (nodes r) -> nodeVnodes r <= Z.of_nat (length (vnodes r)).
Proof.
  intros Hwf Hid. rewrite (rw_perm r Hwf), length_ring_vnodes.
  pose proof (rw_count r Hwf).
  assert (size (dom (nodes r)) <> 0%nat); [|nia].
  intros Hz%size_empty_inv. set_solver.
Qed.

Section preservation.
Context `{!SortSlice}.

Lemma NewRing_wf c f : ring_wf (NewRing c f).
Proof.
  split; simpl; [constructor|done|done|by rewrite !dom_empty_L|].
  destruct (Z.leb_spec c 0); lia.
Qed.

Lemma AddNode_wf id r : ring_wf r -> ring_wf (AddNode id r).2.
Proof.
  intros Hwf. unfold AddNode. destruct (HasNode r id) eqn:Hh; [done|].
  assert (id ∉ dom (nodes r)) as Hid.
  { rewrite <- HasNode_dom by done. by rewrite Hh. }
  split; simpl.
  - apply sort_slice_sorted.
  - rewrite sort_slice_perm, dom_insert_L, ring_vnodes_insert by done.
    by rewrite (rw_perm r Hwf).
  - intros id' b Hb. apply lookup_insert_Some in Hb as [[_ <-]|[_ Hb]]; [done|].
    by apply (rw_true r Hwf id').
  - by rewrite !dom_insert_L, (rw_loads r Hwf).
  - apply (rw_count r Hwf).
Qed.

Lemma dom_AddNode id r :
  ring_wf r -> dom (nodes (AddNode id r).2) = {[id]} ∪ dom (nodes r).
Proof.
  intros Hr. unfold AddNode. destruct (HasNode r id) eqn:E; simpl.
  - apply HasNode_dom in E; [|done]. apply set_eq. intros x.
    rewrite elem_of_union, elem_of_singleton. naive_solver.
  - apply dom_insert_L.
Qed.

Lemma RemoveNode_Some id r :
  ring_wf r -> exists ok cb r', RemoveNode id r = Some (ok, cb, r').
Proof.
  intros Hwf. unfold RemoveNode. destruct (HasNode r id) eqn:Hh; simpl; [|by eauto].
  apply HasNode_dom in Hh; [|done]. pose proof (ring_capacity r id Hwf Hh).
  destruct (Z.ltb_spec (Z.of_nat (length (vnodes r)) - nodeVnodes r) 0); [lia|]. by eauto.
Qed.

Lemma RemoveNode_wf id r ok cb r' :
  ring_wf r -> RemoveNode id r = Some (ok, cb, r') -> ring_wf r'.
Proof.
  intros Hwf. unfold RemoveNode. destruct (negb (HasNode r id)); [by intros [= _ _ <-]|].
  destruct (_ <? 0); [done|]. intros [= _ _ <-]. split; simpl.
  - apply Sorted_filter; [apply _|apply (rw_sorted r Hwf)].
  - by rewrite dom_delete_L, (rw_perm r Hwf), ring_vnodes_filter.
  - intros id' b Hb. apply lookup_delete_Some in Hb as [_ Hb]. by apply (rw_true r Hwf id').
  - by rewrite !dom_delete_L, (rw_loads r Hwf).
  - apply (rw_count r Hwf).
Qed.

Lemma add_load_wf d id r : ring_wf r -> ring_wf (add_load d id r).
Proof.
  intros Hwf. unfold add_load. destruct (loads r !! id) as [l|] eqn:El; [|done].
  destruct Hwf as [H1 H2 H3 H4 H5]. split; simpl; try done.
  rewrite dom_insert_L, H4. apply elem_of_dom_2 in El. set_solver.
Qed.
End preservation.

#[export] Hint Resolve NewRing_wf AddNode_wf RemoveNode_wf add_load_wf : cache.

(** ** Lookups through the preference order *)

Lemma elem_of_preference r key id :
  ring_wf r -> id ∈ preference r key <-> id ∈ dom (nodes r).
Proof.
  intros Hwf. unfold preference. rewrite elem_of_firsts, <- vnode_member by done.
  split.
  - intros (_ & v & Hv & <-). exists v. by rewrite elem_of_clockwise in Hv.
  - intros (v & Hv & <-). split; [set_solver|]. exists v. by rewrite elem_of_clockwise.
Qed.

Lemma NoDup_preference r key : NoDup (preference r key).
Proof. apply NoDup_firsts. Qed.

Lemma length_preference r key : ring_wf r -> length (preference r key) = size (nodes r).
Proof.
  intros Hwf. rewrite <- (size_list_to_set (C := gset string)) by apply NoDup_preference.
  rewrite <- size_dom. f_equal. apply set_eq. intros id.
  by rewrite elem_of_list_to_set, elem_of_preference.
Qed.

Lemma GetNodes_preference r key n :
  ring_wf r -> 0 <= n -> GetNodes r key n = Some (take (Z.to_nat n) (preference r key)).
Proof.
  intros Hwf Hn. unfold GetNodes. destruct (vnodes r) as [|v l] eqn:Ev.
  { unfold preference. rewrite Ev. simpl. by rewrite take_nil. }
  assert (vnodes r <> []) as Hne by by rewrite Ev. rewrite <- Ev.
  set (n' := if Z.of_nat (size (nodes r)) <? n then Z.of_nat (size (nodes r)) else n).
  assert (n' = Z.min n (Z.of_nat (size (nodes r)))) as Hn'.
  { unfold n'. destruct (Z.ltb_spec (Z.of_nat (size (nodes r))) n); lia. }
  destruct (Z.ltb_spec n' 0); [lia|]. f_equal.
  rewrite (collect_nodes_spec r (hashKey key) (rw_sorted r Hwf) Hne) by (simpl; lia).
  rewrite drop_0. simpl. fold (preference r key).
  pose proof (length_preference r key Hwf) as Hlen.
  destruct (Z.le_gt_cases n (Z.of_nat (size (nodes r)))); [f_equal; lia|].
  rewrite !take_ge by lia. done.
Qed.

Lemma head_clockwise_preference r key :
  head (preference r key) = NodeID <$> head (clockwise (hashKey key) (vnodes r)).
Proof.
  unfold preference. destruct (clockwise _ _) as [|v l]; [done|]. cbn [firsts].
  by rewrite bool_decide_false by set_solver.
Qed.

Lemma maxLoad_pos r : 1 <= maxLoad r.
Proof. unfold maxLoad. destruct (Z.ltb_spec (int64_of_float (fmul (averageLoad r) (fadd f_1 (maxLoadFactor r)))) 1); lia. Qed.

(** GetNode picks the first eligible virtual node clockwise, or the first. *)
Lemma GetNode_spec r key :
  ring_wf r ->
  GetNode r key =
  match head (filter (fun v => eligible r (maxLoad r) (NodeID v))
                (clockwise (hashKey key) (vnodes r))) with
  | Some v => Some (NodeID v)
  | None => head (preference r key)
  end.
Proof.
  intros Hwf. rewrite head_clockwise_preference. unfold GetNode.
  destruct (vnodes r) as [|v l] eqn:Ev; [done|].
  assert (vnodes r <> []) as Hne by by rewrite Ev. rewrite <- Ev.
  rewrite (find_eligible_spec r (hashKey key) (rw_sorted r Hwf) Hne) by lia.
  rewrite drop_0. destruct (head _) as [w|]; simpl; [done|].
  destruct (rotate_search r (hashKey key) (rw_sorted r Hwf) Hne) as [Hlt Hrot].
  rewrite <- Hrot. destruct (lookup_lt_is_Some_2 _ _ Hlt) as [w Hw].
  by rewrite Hw, (drop_S _ _ _ Hw).
Qed.

(** ** Properties of the ring *)

(** The membership and load operations, in sequence. *)
Inductive ring_op :=
  | OpAdd (id : string)
  | OpRemove (id : string)
  | OpInc (id : string)
  | OpDec (id : string).

Definition ring_exec `{!SortSlice} (o : ring_op) (r : Ring) : option Ring :=
  match o with
  | OpAdd id => Some (AddNode id r).2
  | OpRemove id => '(_, _, r) ← RemoveNode id r; Some r
  | OpInc id => Some (IncrementLoad id r)
  | OpDec id => Some (DecrementLoad id r)
  end.

Fixpoint ring_run `{!SortSlice} (os : list ring_op) (r : Ring) : option Ring :=
  match os with
  | [] => Some r
  | o :: os => r ← ring_exec o r; ring_run os r
  end.

(** The members the operations should leave. *)
Definition members_after (ms : gset string) (o : ring_op) : gset string :=
  match o with
  | OpAdd id => {[id]} ∪ ms
  | OpRemove id => ms ∖ {[id]}
  | _ => ms
  end.

Lemma ring_exec_spec `{!SortSlice} o r :
  ring_wf r ->
  exists r', ring_exec o r = Some r' /\ ring_wf r' /\
    dom (nodes r') = members_after (dom (nodes r)) o /\ nodeVnodes r' = nodeVnodes r.
Proof.
  intros Hwf. destruct o as [id|id|id|id]; simpl.
  - eexists. split_and!; [done|by apply AddNode_wf| |].
    + unfold AddNode. destruct (HasNode r id) eqn:Hh; simpl; [|apply dom_insert_L].
      apply HasNode_dom in Hh; set_solver.
    + unfold AddNode. by destruct (HasNode r id).
  - destruct (RemoveNode_Some id r Hwf) as (ok & cb & r' & Hr). rewrite Hr. simpl.
    eexists. split_and!; [done|by eapply RemoveNode_wf| |].
    + unfold RemoveNode in Hr. destruct (HasNode r id) eqn:Hh; simpl in Hr.
      * destruct (_ <? 0); simplify_eq. simpl. apply dom_delete_L.
      * simplify_eq. assert (id ∉ dom (nodes r')); [|set_solver].
        rewrite <- HasNode_dom by done. by rewrite Hh.
    + unfold RemoveNode in Hr. destruct (HasNode r id); simpl in Hr; [|by simplify_eq].
      destruct (_ <? 0); by simplify_eq.
  - eexists. split_and!; [done|by apply add_load_wf|..]; unfold IncrementLoad, add_load;
      by destruct (loads r !! id).
  - eexists. split_and!; [done|by apply add_load_wf|..]; unfold DecrementLoad, add_load;
      by destruct (loads r !! id).
Qed.

(** C16: after any sequence of AddNode, RemoveNode, IncrementLoad and
    DecrementLoad on a new ring, no step has panicked, the members are the added
    and not yet removed nodes, the virtual nodes are sorted by hash and are
    exactly nodeVnodes per member, and every member has a load counter. *)
Theorem ring_invariant `{!SortSlice} (count : Z) (eps : float64) (os : list ring_op) :
  exists r, ring_run os (NewRing count eps) = Some r /\ ring_wf r /\
    dom (nodes r) = foldl members_after ∅ os /\
    length (vnodes r) = (size (nodes r) * Z.to_nat (nodeVnodes r))%nat.
Proof.
  assert (forall r, ring_wf r -> exists r', ring_run os r = Some r' /\ ring_wf r' /\
    dom (nodes r') = foldl members_after (dom (nodes r)) os) as Hrun.
  { induction os as [|o os IH]; intros r Hwf; simpl; [by eauto|].
    destruct (ring_exec_spec o r Hwf) as (r1 & -> & Hwf1 & Hdom & _). simpl.
    destruct (IH r1 Hwf1) as (r2 & -> & Hwf2 & Hdom2). rewrite Hdom in Hdom2. eauto. }
  destruct (Hrun _ (NewRing_wf count eps)) as (r & Hr & Hwf & Hdom).
  exists r. split_and!; [done|done| |].
  - rewrite Hdom. simpl. by rewrite dom_empty_L.
  - by rewrite (rw_perm r Hwf), length_ring_vnodes, size_dom.
Qed.

(** Search returns an index inside a non-empty sorted ring: the first virtual
    node whose hash is at least the target, or 0 when every hash is smaller
    (the ring wraps around). *)
Theorem search_successor (r : Ring) (h : Z) :
  Sorted (key_le Hash) (vnodes r) -> vnodes r <> [] ->
  exists v, vnodes r !! search r h = Some v /\
    ((h <= Hash v /\ forall i w, (i < search r h)%nat -> vnodes r !! i = Some w -> Hash w < h) \/
     (search r h = 0%nat /\ forall w, w ∈ vnodes r -> Hash w < h)).
Proof.
  intros Hs Hne. destruct (rotate_search r h Hs Hne) as [Hlt _].
  destruct (lookup_lt_is_Some_2 _ _ Hlt) as [v Hv]. exists v. split; [done|].
  destruct (search_split r h Hs) as (Hle & Hlo & Hhi). unfold search in *.
  set (pos := sort_Search _ _) in *.
  destruct (Nat.leb_spec (length (vnodes r)) pos) as [Hge|Hin].
  - right. split; [done|]. intros w Hw. rewrite take_ge in Hlo by done.
    rewrite Forall_forall in Hlo. by apply Hlo.
  - left. split.
    + rewrite (drop_S _ _ _ Hv) in Hhi. by inversion Hhi.
    + intros i w Hi Hw. rewrite Forall_lookup in Hlo. apply (Hlo i).
      by rewrite lookup_take_lt.
Qed.

Definition demo_ring : Ring :=
  (AddNode "node-3" (AddNode "node-2" (AddNode "node-1" (NewRing 3 f_0_25)).2).2).2.

Lemma demo_ring_wf : ring_wf demo_ring.
Proof. repeat apply AddNode_wf. apply NewRing_wf. Qed.

Lemma search_successor_witness :
  exists v, vnodes demo_ring !! search demo_ring (hashKey "user:1") = Some v.
Proof.
  destruct (search_successor demo_ring (hashKey "user:1")) as (v & Hv & _).
  - apply (rw_sorted _ demo_ring_wf).
  - vm_compute. discriminate.
  - exists v. exact Hv.
Defined.

(** C17: GetNodes(key, n) returns, for n >= 0, distinct members, min(n, size) of
    them, in the order in which a clockwise walk from the key first meets
    them; in particular a larger n only extends the list. *)
Theorem GetNodes_replicas (r : Ring) (key : string) (n : Z) :
  ring_wf r -> 0 <= n ->
  exists ns, GetNodes r key n = Some ns /\ NoDup ns /\
    (forall id, id ∈ ns -> id ∈ dom (nodes r)) /\
    length ns = Nat.min (Z.to_nat n) (size (nodes r)) /\
    ns = take (Z.to_nat n) (firsts ∅ (clockwise (hashKey key) (vnodes r))).
Proof.
  intros Hwf Hn. rewrite GetNodes_preference by done.
  eexists. split_and!; [done| | | |done].
  - eapply sublist_NoDup; [apply (NoDup_preference r key)|apply sublist_take].
  - intros id Hid. apply (elem_of_preference r key id Hwf).
    apply elem_of_take in Hid as (i & Hi & _). by eapply list_elem_of_lookup_2.
  - by rewrite length_take, length_preference.
Qed.

Lemma GetNodes_replicas_witness :
  exists ns, GetNodes demo_ring "user:1" 2 = Some ns /\ NoDup ns /\ length ns = 2%nat.
Proof.
  destruct (GetNodes_replicas demo_ring "user:1" 2 demo_ring_wf ltac:(lia))
    as (ns & H1 & H2 & _ & H3 & _).
  exists ns. split; [exact H1|]. split; [exact H2|]. rewrite H3. vm_compute. reflexivity.
Defined.

(** GetNode answers exactly on a non-empty ring, always with a member; when
    some member is below the computed bound, the chosen one is below it too,
    and it is the first such member clockwise from the key; when none is, the
    key's primary is returned. *)
Theorem GetNode_bounded (r : Ring) (key : string) :
  ring_wf r ->
  (GetNode r key = None <-> nodes r = ∅) /\
  (forall id, GetNode r key = Some id ->
     id ∈ dom (nodes r) /\
     ((exists id', id' ∈ dom (nodes r) /\ eligible r (maxLoad r) id' = true) ->
        eligible r (maxLoad r) id = true /\
        exists l1 v l2, clockwise (hashKey key) (vnodes r) = l1 ++ v :: l2 /\
          NodeID v = id /\ Forall (fun w => ~ eligible r (maxLoad r) (NodeID w)) l1) /\
     ((forall id', id' ∈ dom (nodes r) -> eligible r (maxLoad r) id' = false) ->
        head (preference r key) = Some id)).
Proof.
  intros Hwf. rewrite GetNode_spec by done.
  assert (forall id, head (preference r key) = Some id -> id ∈ dom (nodes r)) as Hhead.
  { intros id Hid. rewrite <- (elem_of_preference r key) by done.
    by apply head_Some_elem_of. }
  destruct (head (filter _ _)) as [v|] eqn:Hf.
  - pose proof (head_Some_elem_of _ _ Hf) as Hin.
    apply list_elem_of_filter in Hin as [Hel Hv]. apply elem_of_clockwise in Hv.
    assert (NodeID v ∈ dom (nodes r)) as Hdom by (apply vnode_member; eauto).
    split; [split; [done|]; intros He; rewrite He, dom_empty_L in Hdom; set_solver|].
    intros id [= <-]. split_and!; [done| |].
    + intros _. split; [by apply Is_true_true|].
      apply head_filter_Some in Hf as (l1 & l2 & -> & Hl1). by exists l1, v, l2.
    + intros Hall. by rewrite Hall in Hel.
  - assert (forall id', id' ∈ dom (nodes r) -> eligible r (maxLoad r) id' = false) as Hnone.
    { intros id' Hid'. apply vnode_member in Hid' as (w & Hw & <-); [|done].
      destruct (eligible r (maxLoad r) (NodeID w)) eqn:Hel; [|done].
      assert (w ∈ filter (fun v => eligible r (maxLoad r) (NodeID v))
                    (clockwise (hashKey key) (vnodes r))) as Hin.
      { apply list_elem_of_filter. rewrite elem_of_clockwise. by rewrite Hel. }
      apply head_None in Hf. rewrite Hf in Hin. by apply elem_of_nil in Hin. }
    split.
    + rewrite head_None. split.
      * intros Hp. pose proof (length_preference r key Hwf) as Hl. rewrite Hp in Hl.
        by apply map_size_empty_iff.
      * intros He. apply length_zero_iff_nil. rewrite length_preference, He by done.
        apply map_size_empty.
    + intros id Hid. split_and!; [by apply Hhead| |done].
      intros (id' & Hid' & Hel). by rewrite Hnone in Hel.
Qed.

Lemma GetNode_bounded_witness :
  exists id, GetNode (IncrementLoad "node-1" demo_ring) "user:1" = Some id /\
    id ∈ dom (nodes (IncrementLoad "node-1" demo_ring)).
Proof.
  destruct (GetNode_bounded (IncrementLoad "node-1" demo_ring) "user:1") as [_ H].
  - apply add_load_wf, demo_ring_wf.
  - destruct (GetNode (IncrementLoad "node-1" demo_ring) "user:1") as [id|] eqn:E;
      [|vm_compute in E; discriminate].
    exists id. split; [reflexivity|]. apply (H id). reflexivity.
Defined.

Lemma RemoveNode_preference id r ok cb r' key :
  ring_wf r -> RemoveNode id r = Some (ok, cb, r') ->
  preference r' key = filter (fun y => y <> id) (preference r key).
Proof.
  intros Hwf. unfold RemoveNode. destruct (HasNode r id) eqn:Hh; simpl.
  - destruct (_ <? 0); [done|]. intros [= _ _ <-]. unfold preference; simpl.
    by rewrite clockwise_filter, firsts_filter.
  - intros [= _ _ <-]. rewrite list_filter_all; [done|].
    apply Forall_forall. intros y Hy ->. rewrite elem_of_preference in Hy by done.
    apply HasNode_dom in Hy; [|done]. congruence.
Qed.

(** Removing a node disturbs only the keys it served: a replica set it was
    not in is unchanged, and a replica set it was in keeps its other members in
    their order, so that when the primary is removed the first surviving
    replica becomes the primary. *)
Theorem RemoveNode_minimal_disruption (r r' : Ring) (id key : string) (n : Z)
    (ok : bool) (cb : option string) (ns : list string) :
  ring_wf r -> RemoveNode id r = Some (ok, cb, r') -> 1 <= n ->
  GetNodes r key n = Some ns ->
  (id ∉ ns -> GetNodes r' key n = Some ns) /\
  (id ∈ ns -> GetNodes r' key (n - 1) = Some (filter (fun y => y <> id) ns)) /\
  (forall rest, ns = id :: rest -> GetNodes r' key (n - 1) = Some rest).
Proof.
  intros Hwf Hr Hn Hns. pose proof (RemoveNode_wf _ _ _ _ _ Hwf Hr) as Hwf'.
  rewrite GetNodes_preference in Hns by (done || lia). simplify_eq.
  rewrite !GetNodes_preference by (done || lia).
  rewrite (RemoveNode_preference _ _ _ _ _ key Hwf Hr).
  pose proof (NoDup_preference r key) as Hnd.
  replace (Z.to_nat (n - 1)) with (Z.to_nat n - 1)%nat by lia.
  assert (Z.to_nat n <> 0)%nat as Hn0 by lia.
  revert Hnd Hn0. generalize (preference r key) (Z.to_nat n). clear. intros l k Hnd Hk.
  split_and!.
  - intros Hid. f_equal. by apply take_filter_ne.
  - intros Hid. f_equal. by apply take_pred_filter_ne.
  - intros rest Hrest. f_equal. rewrite take_pred_filter_ne; [|done|rewrite Hrest; left].
    assert (NoDup (id :: rest)) as Hnd'.
    { rewrite <- Hrest. eapply sublist_NoDup; [done|apply sublist_take]. }
    rewrite Hrest, filter_cons_False by naive_solver.
    apply NoDup_cons in Hnd' as [Hnin _].
    apply list_filter_all, Forall_forall. intros y Hy ->. done.
Qed.

Definition demo_ring_without : Ring :=
  match RemoveNode "node-2" demo_ring with Some (_, _, r) => r | None => demo_ring end.

Lemma RemoveNode_minimal_disruption_witness :
  exists ns, GetNodes demo_ring "user:1" 3 = Some ns /\
    GetNodes demo_ring_without "user:1" (3 - 1) = Some (filter (fun y => y <> "node-2") ns).
Proof.
  destruct (GetNodes demo_ring "user:1" 3) as [ns|] eqn:E; [|vm_compute in E; discriminate].
  exists ns. split; [reflexivity|].
  destruct (RemoveNode_minimal_disruption demo_ring demo_ring_without "node-2" "user:1" 3
           true None ns demo_ring_wf) as (_ & H & _).
  - vm_compute. reflexivity.
  - lia.
  - exact E.
  - apply H. vm_compute in E. injection E as <-.
    apply (bool_decide_unpack _). vm_compute. exact I.
Defined.

(** *** Rings without hash collisions are canonical *)

Lemma sorted_vnodes_unique l1 l2 :
  Sorted (key_le Hash) l1 -> Sorted (key_le Hash) l2 -> NoDup (Hash <$> l1) ->
  l1 ≡ₚ l2 -> l1 = l2.
Proof.
  intros H1 H2 Hnd Hp. apply (Sorted_unique_strong (key_le Hash)); [|done..].
  intros v w Hv Hw Hvw Hwv. rewrite <- Hp in Hw.
  apply list_elem_of_lookup in Hv as [i Hi]. apply list_elem_of_lookup in Hw as [j Hj].
  assert (i = j) as ->; [|congruence].
  apply (NoDup_lookup (Hash <$> l1) i j (Hash v) Hnd).
  - by rewrite list_lookup_fmap, Hi.
  - rewrite list_lookup_fmap, Hj. simpl. f_equal. unfold key_le in *. lia.
Qed.

(** When no two virtual nodes collide, the ring is determined by its members
    and its virtual-node count, so two processes that learnt the same members
    in different orders (and sort with different algorithms) assign every key
    the same replicas. *)
Theorem ring_canonical (r1 r2 : Ring) :
  ring_wf r1 -> ring_wf r2 -> NoDup (Hash <$> vnodes r1) ->
  nodeVnodes r1 = nodeVnodes r2 -> dom (nodes r1) = dom (nodes r2) ->
  vnodes r1 = vnodes r2 /\
  (forall key n, 0 <= n -> GetNodes r1 key n = GetNodes r2 key n).
Proof.
  intros H1 H2 Hnd Hc Hd. assert (vnodes r1 = vnodes r2) as Hv.
  { apply sorted_vnodes_unique; [apply rw_sorted, H1|apply rw_sorted, H2|done|].
    by rewrite (rw_perm r1 H1), (rw_perm r2 H2), Hc, Hd. }
  split; [done|]. intros key n Hn. rewrite !GetNodes_preference by done.
  unfold preference. by rewrite Hv.
Qed.

Definition demo_ring_reordered : Ring :=
  (AddNode "node-1" (AddNode "node-3" (AddNode "node-2" (NewRing 3 f_0_25)).2).2).2.

Lemma ring_canonical_witness : vnodes demo_ring = vnodes demo_ring_reordered.
Proof.
  apply (ring_canonical demo_ring demo_ring_reordered demo_ring_wf).
  - repeat apply AddNode_wf. apply NewRing_wf.
  - apply (bool_decide_unpack _). vm_compute. exact I.
  - reflexivity.
  - vm_compute. reflexivity.
Defined.

(** C37: adding a node moves keys only to the new node: if the resulting ring has
    no hash collision, every replica set without the new node is the old one
    and the order of the old members is unchanged for every key; removing the
    node again restores the virtual nodes. *)
Theorem AddNode_minimal_disruption `{!SortSlice} (r : Ring) (id : string)
    (r' := (AddNode id r).2) :
  ring_wf r -> id ∉ dom (nodes r) -> NoDup (Hash <$> vnodes r') ->
  (forall key, filter (fun y => y <> id) (preference r' key) = preference r key) /\
  (forall key n ns, 0 <= n -> GetNodes r' key n = Some ns -> id ∉ ns ->
     GetNodes r key n = Some ns) /\
  (exists cb r'', RemoveNode id r' = Some (true, cb, r'') /\ vnodes r'' = vnodes r).
Proof.
  intros Hwf Hid Hnd. pose proof (AddNode_wf id r Hwf) as Hwf'. fold r' in Hwf'.
  destruct (RemoveNode_Some id r' Hwf') as (ok & cb & r'' & Hr).
  pose proof (RemoveNode_wf _ _ _ _ _ Hwf' Hr) as Hwf''.
  destruct (ring_exec_spec (OpAdd id) r Hwf) as (r1 & [= <-] & _ & Hd1 & Hc1).
  fold r' in Hd1, Hc1. simpl in Hd1.
  assert (HasNode r' id = true) as Hh by (apply HasNode_dom; set_solver).
  assert (ok = true /\ vnodes r'' = filter (fun v => NodeID v <> id) (vnodes r') /\
          dom (nodes r'') = dom (nodes r') ∖ {[id]} /\ nodeVnodes r'' = nodeVnodes r')
    as (-> & Hv'' & Hd'' & Hc'').
  { unfold RemoveNode in Hr. rewrite Hh in Hr. simpl in Hr. destruct (_ <? 0); simplify_eq.
    simpl. by rewrite dom_delete_L. }
  assert (vnodes r'' = vnodes r) as Hv.
  { apply sorted_vnodes_unique; [apply rw_sorted, Hwf''|apply rw_sorted, Hwf| |].
    - rewrite Hv''. eapply sublist_NoDup; [exact Hnd|].
      apply fmap_sublist, sublist_filter.
    - rewrite (rw_perm r'' Hwf''), (rw_perm r Hwf), Hc'', Hc1, Hd'', Hd1.
      by replace (({[id]} ∪ dom (nodes r)) ∖ {[id]}) with (dom (nodes r)) by set_solver. }
  assert (forall key, filter (fun y => y <> id) (preference r' key) = preference r key) as Hp.
  { intros key. rewrite <- (RemoveNode_preference _ _ _ _ _ key Hwf' Hr).
    unfold preference. by rewrite Hv. }
  split_and!; [done| |by eauto].
  intros key n ns Hn Hns Hnin. rewrite GetNodes_preference in Hns |- * by done.
  simplify_eq. by rewrite <- Hp, take_filter_ne.
Qed.

Lemma AddNode_minimal_disruption_witness :
  filter (fun y => y <> "node-4") (preference (AddNode "node-4" demo_ring).2 "user:1")
    = preference demo_ring "user:1".
Proof.
  apply (AddNode_minimal_disruption demo_ring "node-4" demo_ring_wf).
  - apply (bool_decide_unpack _). vm_compute. exact I.
  - apply (bool_decide_unpack _). vm_compute. exact I.
Defined.

(** On a ring with no load, as the client's ring always is, GetNode routes a
    key to the node the servers take for its primary, GetNodes(key, 1). *)
Theorem GetNode_idle_is_primary (r : Ring) (key : string) :
  ring_wf r -> (forall id load, loads r !! id = Some load -> load = 0) ->
  GetNodes r key 1 = Some (option_list (GetNode r key)).
Proof.
  intros Hwf Hidle. rewrite GetNodes_preference, GetNode_spec by (done || lia).
  rewrite list_filter_all.
  - pose proof (head_clockwise_preference r key) as Hh.
    change (Z.to_nat 1) with 1%nat.
    destruct (clockwise _ _) as [|v l], (preference r key) as [|p l']; simpl in *; by simplify_eq.
  - apply Forall_forall. intros v Hv. unfold eligible.
    destruct (loads r !! NodeID v) as [load|] eqn:El; [|done].
    apply Hidle in El as ->. pose proof (maxLoad_pos r).
    apply Is_true_true, Z.ltb_lt. lia.
Qed.

Lemma GetNode_idle_is_primary_witness :
  GetNodes demo_ring "user:1" 1 = Some (option_list (GetNode demo_ring "user:1")).
Proof.
  apply (GetNode_idle_is_primary demo_ring "user:1" demo_ring_wf).
  intros id load Hl. apply (elem_of_map_to_list (loads demo_ring)) in Hl.
  vm_compute in Hl. set_solver.
Defined.

(** *** Loads *)

(** A request that increments and then decrements a load leaves the ring as it
    was; [loads_ok] says that the counters are int64 values. *)
Definition loads_ok (r : Ring) : Prop :=
  forall id load, loads r !! id = Some load -> MinInt64 <= load <= MaxInt64.

Lemma i64_inc_dec x : MinInt64 <= x <= MaxInt64 -> i64 (i64 (x + 1) + -1) = x.
Proof.
  intros Hx. unfold i64, MinInt64, MaxInt64 in *.
  replace ((x + 1 + 2 ^ 63) mod 2 ^ 64 - 2 ^ 63 + -1 + 2 ^ 63)
    with ((x + 1 + 2 ^ 63) mod 2 ^ 64 + -1) by lia.
  rewrite Zplus_mod_idemp_l. rewrite Z.mod_small; lia.
Qed.

Lemma DecrementLoad_IncrementLoad id r :
  loads_ok r -> DecrementLoad id (IncrementLoad id r) = r.
Proof.
  intros Hok. unfold DecrementLoad, IncrementLoad, add_load.
  destruct (loads r !! id) as [l|] eqn:El; [|by rewrite El]. simpl.
  rewrite lookup_insert_eq, insert_insert_eq. simpl.
  rewrite i64_inc_dec by by apply (Hok id). rewrite insert_id by done. by destruct r.
Qed.

Definition total_load (r : Ring) : Z := map_fold (fun _ load total => total + load) 0 (loads r).

(** Three members with loads 2, 1 and 1 and the default factor. *)
Definition busy_ring : Ring :=
  IncrementLoad "node-3" (IncrementLoad "node-2"
    (IncrementLoad "node-1" (IncrementLoad "node-1" demo_ring))).

(** The bound on loads is not kept as documented.  The README calls a node
    overloaded when its load exceeds (1+eps) times the average; the code
    truncates that bound to an integer and compares strictly, so there is a
    ring with the default factor 0.25 where GetNode returns a node that
    exceeds 1.25 times the average although another member is below it. *)
Theorem bounded_load_not_enforced :
  exists (r : Ring) (key id id' : string),
    ring_wf r /\ maxLoadFactor r = f_0_25 /\
    GetNode r key = Some id /\
    4 * Z.of_nat (size (nodes r)) * GetLoad r id > 5 * total_load r /\
    id' ∈ dom (nodes r) /\
    4 * Z.of_nat (size (nodes r)) * GetLoad r id' < 5 * total_load r.
Proof.
  exists busy_ring, "user:1", "node-1", "node-2". split_and!.
  - unfold busy_ring, IncrementLoad. repeat apply add_load_wf. apply demo_ring_wf.
  - reflexivity.
  - vm_compute. reflexivity.
  - vm_compute. reflexivity.
  - apply (bool_decide_unpack _). vm_compute. exact I.
  - vm_compute. reflexivity.
Qed.

(** *** Where the virtual nodes land *)

Lemma bytes_of_string_app s t :
  bytes_of_string (s +:+ t) = bytes_of_string s ++ bytes_of_string t.
Proof.
  unfold bytes_of_string. induction s as [|a s IH]; [done|].
  change (String a s +:+ t) with (String a (s +:+ t)).
  unfold String.list_byte_of_string in *. simpl. by rewrite IH.
Qed.

Lemma fnv64a_snoc bs b : fnv64a (bs ++ [b]) = fnv64a_step (fnv64a bs) b.
Proof. unfold fnv64a. by rewrite fold_left_app. Qed.

(** The byte of a decimal digit. *)
Lemma fmt_digit i :
  0 <= i < 10 -> exists b, bytes_of_string (fmt_d i) = [b] /\ byte_val b = 48 + i.
Proof.
  intros Hi.
  assert (i = 0 \/ i = 1 \/ i = 2 \/ i = 3 \/ i = 4 \/ i = 5 \/ i = 6 \/ i = 7 \/ i = 8 \/ i = 9)
    as Hcases by lia.
  repeat destruct Hcases as [->|Hcases]; try subst i; eexists; split; reflexivity.
Qed.

(** Exclusive or with a byte of the form 0x30 + i only changes the low nibble. *)
Lemma lxor_digit h i :
  0 <= i < 10 -> exists lo, 0 <= lo < 16 /\
    Z.lxor h (48 + i) = 16 * Z.lxor (Z.shiftr h 4) 3 + lo.
Proof.
  intros Hi. exists (Z.lxor h (48 + i) mod 16).
  split; [apply Z.mod_pos_bound; lia|].
  rewrite (Z.div_mod (Z.lxor h (48 + i)) 16) at 1 by lia. do 2 f_equal.
  change 16 with (2 ^ 4). rewrite <- Z.shiftr_div_pow2, Z.shiftr_lxor by lia. f_equal.
  rewrite Z.shiftr_div_pow2 by lia. change (2 ^ 4) with 16.
  symmetry. apply (Z.div_unique _ _ _ i); lia.
Qed.

(** The virtual nodes of a member are not spread over the ring as the README
    says: FNV-1a barely mixes the last byte, so the virtual nodes with indices
    0 to 9 of any node lie within an arc of 15 times the FNV prime, less than a
    millionth of the 64-bit ring. *)
Theorem vnodes_cluster (nodeID : string) (i j : Z) :
  0 <= i < 10 -> 0 <= j < 10 ->
  exists d, - (15 * fnv64_prime) <= d <= 15 * fnv64_prime /\
    hashVNode nodeID j = u64 (hashVNode nodeID i + d) /\
    1000000 * (15 * fnv64_prime) < 2 ^ 64.
Proof.
  intros Hi Hj.
  assert (forall k, 0 <= k < 10 -> exists lo, 0 <= lo < 16 /\ hashVNode nodeID k
    = u64 ((16 * Z.lxor (Z.shiftr (fnv64a (bytes_of_string nodeID ++ bytes_of_string "#")) 4) 3 + lo)
           * fnv64_prime)) as Hhash.
  { intros k Hk. destruct (fmt_digit k Hk) as (b & Hb & Hv).
    destruct (lxor_digit (fnv64a (bytes_of_string nodeID ++ bytes_of_string "#")) k Hk) as (lo & Hlo & Hx).
    exists lo. split; [done|]. unfold hashVNode, vnode_name.
    rewrite !bytes_of_string_app, Hb, app_assoc, fnv64a_snoc.
    unfold fnv64a_step. by rewrite Hv, Hx. }
  destruct (Hhash i Hi) as (li & Hli & ->), (Hhash j Hj) as (lj & Hlj & ->).
  exists ((lj - li) * fnv64_prime). unfold fnv64_prime. split_and!; [lia|lia| |lia].
  unfold u64. rewrite Zplus_mod_idemp_l. f_equal. lia.
Qed.

Lemma vnodes_cluster_witness :
  exists d, - (15 * fnv64_prime) <= d <= 15 * fnv64_prime /\
    hashVNode "node-1" 7 = u64 (hashVNode "node-1" 0 + d).
Proof.
  destruct (vnodes_cluster "node-1" 0 7 ltac:(lia) ltac:(lia)) as (d & H1 & H2 & _).
  exists d. split; [exact H1|exact H2].
Defined.

(** *** Members *)

(** Members lists every member once, in increasing byte order, whatever
    order Go visits the node set in; Size is their number. *)
Theorem Members_sorted (r : Ring) (ord : list (string * bool)) :
  is_range (nodes r) ord ->
  StronglySorted string_le (Members ord) /\ NoDup (Members ord) /\
  (forall id, id ∈ Members ord <-> id ∈ dom (nodes r)) /\
  Size r = Z.of_nat (length (Members ord)).
Proof.
  intros Hr. unfold Members, sort_Strings.
  assert (merge_sort string_le ord.*1 ≡ₚ ord.*1) as Hp by apply merge_sort_Permutation.
  split_and!.
  - apply StronglySorted_merge_sort; apply _.
  - rewrite Hp. by eapply is_range_NoDup.
  - intros id. rewrite Hp, list_elem_of_fmap, elem_of_dom. split.
    + intros ([k b] & -> & Hin). exists b. by apply (is_range_elem _ ord).
    + intros [b Hb]. exists (id, b). split; [done|]. by apply (is_range_elem _ ord) in Hb.
  - unfold Size. rewrite Hp, length_fmap. by rewrite (is_range_length (nodes r) ord).
Qed.

Lemma Members_sorted_witness :
  Size demo_ring = Z.of_nat (length (Members (map_to_list (nodes demo_ring)))).
Proof.
  apply (Members_sorted demo_ring (map_to_list (nodes demo_ring))). apply is_range_self.
Defined.
