(* ===== verification/Sketch.v ===== *)
(** * Hot key detection: internal/hotkey/detector.go

    The Count-Min Sketch and the detector on top of it.  [freq] is the exact
    counter a sketch cell implements: the number of increments that satisfy a
    predicate, halved at every decay. *)

From S2P Require Import Prelude GoLib.

#[local] Open Scope Z_scope.

(** ** Model *)

Record CountMinSketch := mkCMS {
  width : Z;             (* uint32 *)
  depth : Z;             (* uint32 *)
  table : list (list Z); (* uint64 counters *)
  seeds : list Z;        (* uint64 *)
  total : Z              (* uint64 *)
}.

(** [uint64(i*2654435761 + 1)], where [i] is a [uint32]. *)
Definition cms_seed (i : Z) : Z := u32 (u32 (i * 2654435761) + 1).

Definition NewCountMinSketch (width depth : Z) : CountMinSketch :=
  let width := if width =? 0 then 4096 else width in
  let depth := if depth =? 0 then 4 else depth in
  mkCMS width depth
    (replicate (Z.to_nat depth) (replicate (Z.to_nat width) 0))
    (cms_seed <$> seqZ 0 depth) 0.

(** [byte(x)] *)
Definition byte_of (x : Z) : Byte.byte :=
  default Byte.x00 (Byte.of_N (Z.to_N (u8 x))).

(** The method [hash]. *)
Definition cms_hash (cms : CountMinSketch) (key : string) (i : nat) : Z :=
  let seed := default 0 (seeds cms !! i) in
  let seedBytes := [byte_of seed; byte_of (Z.shiftr seed 8);
                    byte_of (Z.shiftr seed 16); byte_of (Z.shiftr seed 24)] in
  fnv32a (seedBytes ++ bytes_of_string key).

(** [cms.hash(key, i) % cms.width] *)
Definition cms_index (cms : CountMinSketch) (key : string) (i : nat) : nat :=
  Z.to_nat (cms_hash cms key i mod width cms).

Definition with_table (cms : CountMinSketch) (t : list (list Z)) (total : Z) : CountMinSketch :=
  mkCMS (width cms) (depth cms) t (seeds cms) total.

Definition Increment (key : string) (cms : CountMinSketch) : CountMinSketch :=
  with_table cms
    (alter_upto (fun i row => alter (fun c => u64 (c + 1)) (cms_index cms key i) row)
       (Z.to_nat (depth cms)) (table cms))
    (u64 (total cms + 1)).

(** [cms.table[i][j]]; [cms_index_lt] shows that the indices used are in range. *)
Definition cell (cms : CountMinSketch) (i j : nat) : Z :=
  default 0 (table cms !! i ≫= (.!! j)).

Definition Estimate (cms : CountMinSketch) (key : string) : Z :=
  let min := running_min MaxUint64
    ((fun i => cell cms i (cms_index cms key i)) <$> seq 0 (Z.to_nat (depth cms))) in
  if min =? MaxUint64 then 0 else min.

(** The double loop over all the cells. *)
Definition alter_cells (f : Z -> Z) (cms : CountMinSketch) : list (list Z) :=
  alter_upto (fun _ row => alter_upto (fun _ c => f c) (Z.to_nat (width cms)) row)
    (Z.to_nat (depth cms)) (table cms).

Definition Decay (cms : CountMinSketch) : CountMinSketch :=
  with_table cms (alter_cells (fun c => c / 2) cms) (total cms / 2).

Definition Reset (cms : CountMinSketch) : CountMinSketch :=
  with_table cms (alter_cells (fun _ => 0) cms) 0.

Definition Total (cms : CountMinSketch) : Z := total cms.

Record Detector := mkDetector {
  sketch : CountMinSketch;
  hotThreshold : Z;   (* uint64 *)
  decayPeriod : Duration
}.

Definition NewDetector (hotThreshold : Z) (decayPeriod : Duration) : Detector :=
  mkDetector (NewCountMinSketch 4096 4) hotThreshold decayPeriod.

Definition with_sketch (d : Detector) (cms : CountMinSketch) : Detector :=
  mkDetector cms (hotThreshold d) (decayPeriod d).

Definition IsHot (d : Detector) (key : string) : bool :=
  hotThreshold d <=? Estimate (sketch d) key.

Definition RecordAccess (key : string) (d : Detector) : bool * Detector :=
  let d := with_sketch d (Increment key (sketch d)) in
  (hotThreshold d <=? Estimate (sketch d) key, d).

Definition GetFrequency (d : Detector) (key : string) : Z := Estimate (sketch d) key.

(** One tick of decayLoop. *)
Definition decay_tick (d : Detector) : Detector := with_sketch d (Decay (sketch d)).

(** ** Well-formed sketches *)

Record cms_wf (cms : CountMinSketch) : Prop := {
  cw_width : 1 <= width cms < 2 ^ 32;
  cw_depth : 1 <= depth cms < 2 ^ 32;
  cw_rows : length (table cms) = Z.to_nat (depth cms);
  cw_cols : forall i row, table cms !! i = Some row -> length row = Z.to_nat (width cms)
}.

Lemma cms_index_lt cms key i : cms_wf cms -> (cms_index cms key i < Z.to_nat (width cms))%nat.
Proof.
  intros Hwf. pose proof (cw_width cms Hwf). unfold cms_index.
  pose proof (Z.mod_pos_bound (cms_hash cms key i) (width cms) ltac:(lia)). lia.
Qed.

Lemma NewCountMinSketch_wf w d :
  0 <= w < 2 ^ 32 -> 0 <= d < 2 ^ 32 -> cms_wf (NewCountMinSketch w d).
Proof.
  intros Hw Hd. unfold NewCountMinSketch.
  assert (1 <= (if w =? 0 then 4096 else w) < 2 ^ 32) by (destruct (Z.eqb_spec w 0); lia).
  assert (1 <= (if d =? 0 then 4 else d) < 2 ^ 32) by (destruct (Z.eqb_spec d 0); lia).
  split; cbn [width depth table]; [done|done|apply length_replicate|].
  intros i row Hi. apply lookup_replicate in Hi as [-> _]. apply length_replicate.
Qed.

Lemma alter_table_wf cms f n t :
  (forall i row, length (f i row) = length row) ->
  cms_wf cms -> cms_wf (with_table cms (alter_upto f n (table cms)) t).
Proof.
  intros Hf [Hw Hd Hr Hc]. split; simpl; [done|done|by rewrite length_alter_upto|].
  intros i row Hi. rewrite alter_upto_lookup in Hi.
  destruct (i <? n)%nat; [|by eapply Hc].
  apply fmap_Some in Hi as (row' & Hi & ->). rewrite Hf. by eapply Hc.
Qed.

Lemma Increment_wf key cms : cms_wf cms -> cms_wf (Increment key cms).
Proof. apply alter_table_wf. intros. apply length_alter. Qed.
Lemma Decay_wf cms : cms_wf cms -> cms_wf (Decay cms).
Proof. apply alter_table_wf. intros. apply length_alter_upto. Qed.
Lemma Reset_wf cms : cms_wf cms -> cms_wf (Reset cms).
Proof. apply alter_table_wf. intros. apply length_alter_upto. Qed.

#[export] Hint Resolve NewCountMinSketch_wf Increment_wf Decay_wf Reset_wf : cache.

(** ** Cells as exact counters *)

Inductive cms_event :=
  | EvIncrement (key : string)
  | EvDecay
  | EvReset.

Definition cms_apply (cms : CountMinSketch) (e : cms_event) : CountMinSketch :=
  match e with
  | EvIncrement key => Increment key cms
  | EvDecay => Decay cms
  | EvReset => Reset cms
  end.

Definition cms_run (evs : list cms_event) (cms : CountMinSketch) : CountMinSketch :=
  fold_left cms_apply evs cms.

(** The exact frequency of the keys that satisfy [P]: one per access, halved at
    each decay. *)
Definition freq_step (P : string -> bool) (c : Z) (e : cms_event) : Z :=
  match e with
  | EvIncrement key => if P key then c + 1 else c
  | EvDecay => c / 2
  | EvReset => 0
  end.

Definition freq (P : string -> bool) (evs : list cms_event) : Z :=
  fold_left (freq_step P) evs 0.

(** The number of increments of a history. *)
Definition increments (evs : list cms_event) : Z :=
  Z.of_nat (length (List.filter (fun e => match e with EvIncrement _ => true | _ => false end) evs)).

Lemma freq_from_bounds P evs c :
  0 <= c -> 0 <= fold_left (freq_step P) evs c <= c + increments evs.
Proof.
  unfold increments. revert c. induction evs as [|e evs IH]; intros c Hc; simpl; [lia|].
  destruct e as [key| |]; simpl.
  - specialize (IH (if P key then c + 1 else c)). destruct (P key); lia.
  - specialize (IH (c / 2)). pose proof (Z.div_pos c 2). pose proof (Z.div_le_upper_bound c 2 c). lia.
  - specialize (IH 0). lia.
Qed.

Lemma freq_mono_from (P Q : string -> bool) evs c d :
  (forall k, P k = true -> Q k = true) -> c <= d ->
  fold_left (freq_step P) evs c <= fold_left (freq_step Q) evs d.
Proof.
  intros HPQ. revert c d. induction evs as [|e evs IH]; intros c d Hcd; simpl; [done|].
  apply IH. destruct e as [key| |]; simpl.
  - specialize (HPQ key). destruct (P key), (Q key); lia.
  - by apply Z.div_le_mono.
  - lia.
Qed.

Lemma freq_mono (P Q : string -> bool) evs :
  (forall k, P k = true -> Q k = true) -> freq P evs <= freq Q evs.
Proof. intros. by apply freq_mono_from. Qed.

Lemma increments_app evs evs' : increments (evs ++ evs') = increments evs + increments evs'.
Proof. unfold increments. rewrite List.filter_app, length_app. lia. Qed.

Lemma increments_nonneg evs : 0 <= increments evs.
Proof. unfold increments. lia. Qed.

Lemma freq_snoc P evs e : freq P (evs ++ [e]) = freq_step P (freq P evs) e.
Proof. unfold freq. by rewrite fold_left_app. Qed.

Lemma freq_bounds P evs : 0 <= freq P evs <= increments evs.
Proof. pose proof (freq_from_bounds P evs 0). unfold freq. lia. Qed.

Lemma cms_run_snoc evs e cms : cms_run (evs ++ [e]) cms = cms_apply (cms_run evs cms) e.
Proof. unfold cms_run. by rewrite fold_left_app. Qed.

(** Events keep the shape and the seeds of a sketch. *)
Lemma cms_run_shape evs cms :
  width (cms_run evs cms) = width cms /\ depth (cms_run evs cms) = depth cms /\
  seeds (cms_run evs cms) = seeds cms.
Proof.
  unfold cms_run. revert cms. induction evs as [|e evs IH]; intros cms; [done|]. simpl.
  destruct (IH (cms_apply cms e)) as (-> & -> & ->). by destruct e.
Qed.

Lemma cms_run_wf evs cms : cms_wf cms -> cms_wf (cms_run evs cms).
Proof.
  unfold cms_run. revert cms. induction evs as [|e evs IH]; intros cms Hwf; [done|]. simpl.
  apply IH. destruct e; simpl; auto with cache.
Qed.

Lemma cms_index_run evs cms key i :
  cms_index (cms_run evs cms) key i = cms_index cms key i.
Proof.
  unfold cms_index, cms_hash. by destruct (cms_run_shape evs cms) as (-> & _ & ->).
Qed.

(** Reading a cell after an update. *)
Lemma cell_alter cms f i j t :
  cms_wf cms -> (i < Z.to_nat (depth cms))%nat -> (j < Z.to_nat (width cms))%nat ->
  (forall row, table cms !! i = Some row -> f i row !! j = t <$> row !! j) ->
  forall tot, cell (with_table cms (alter_upto f (Z.to_nat (depth cms)) (table cms)) tot) i j
  = t (cell cms i j).
Proof.
  intros Hwf Hi Hj Hf tot. unfold cell; cbn [table with_table].
  rewrite alter_upto_lookup. apply Nat.ltb_lt in Hi as Hib. rewrite Hib.
  destruct (lookup_lt_is_Some_2 (table cms) i) as [row Hrow]; [by rewrite (cw_rows cms Hwf)|].
  rewrite Hrow. simpl. rewrite Hf by done.
  destruct (lookup_lt_is_Some_2 row j) as [c Hc]; [by rewrite (cw_cols cms Hwf i row)|].
  by rewrite Hc.
Qed.

Lemma cell_apply cms e i j :
  cms_wf cms -> (i < Z.to_nat (depth cms))%nat -> (j < Z.to_nat (width cms))%nat ->
  cell (cms_apply cms e) i j =
  match e with
  | EvIncrement key => if (cms_index cms key i =? j)%nat then u64 (cell cms i j + 1) else cell cms i j
  | EvDecay => cell cms i j / 2
  | EvReset => 0
  end.
Proof.
  intros Hwf Hi Hj. apply Nat.ltb_lt in Hj as Hjb. destruct e as [key| |]; simpl.
  - unfold Increment. destruct (Nat.eqb_spec (cms_index cms key i) j) as [<-|Hne].
    + by rewrite (cell_alter cms _ i _ (fun c => u64 (c + 1))) by
        (done || (intros; apply list_lookup_alter_eq)).
    + rewrite (cell_alter cms _ i _ (fun c => c)); [done..|].
      intros row _. rewrite list_lookup_alter_ne by done. by rewrite option_fmap_id.
  - unfold Decay, alter_cells. rewrite (cell_alter cms _ i _ (fun c => c / 2)); [done..|].
    intros row _. by rewrite alter_upto_lookup, Hjb.
  - unfold Reset, alter_cells. rewrite (cell_alter cms _ i _ (fun _ => 0)); [done..|].
    intros row _. by rewrite alter_upto_lookup, Hjb.
Qed.

Lemma cell_new w d i j :
  cell (NewCountMinSketch w d) i j = 0.
Proof.
  unfold cell, NewCountMinSketch; cbn [table].
  destruct (replicate _ (replicate _ 0) !! i) as [row|] eqn:Hr; [|done].
  apply lookup_replicate in Hr as [-> _]. simpl.
  destruct (replicate _ 0 !! j) as [c|] eqn:Hc; [|done].
  by apply lookup_replicate in Hc as [-> _].
Qed.

Section history.
Context (w d : Z) (Hw : 0 <= w < 2 ^ 32) (Hd : 0 <= d < 2 ^ 32).
Let cms0 := NewCountMinSketch w d.

(** The keys that share cell [j] of row [i]. *)
Definition in_cell (i j : nat) (key : string) : bool := (cms_index cms0 key i =? j)%nat.

Lemma history_wf evs : cms_wf (cms_run evs cms0).
Proof. by apply cms_run_wf, NewCountMinSketch_wf. Qed.

Lemma cells_exact evs i j :
  increments evs < 2 ^ 64 ->
  (i < Z.to_nat (depth cms0))%nat -> (j < Z.to_nat (width cms0))%nat ->
  cell (cms_run evs cms0) i j = freq (in_cell i j) evs.
Proof.
  intros Hb Hi Hj. induction evs as [|e evs IH] using rev_ind; [apply cell_new|].
  rewrite increments_app in Hb. pose proof (increments_nonneg [e]).
  destruct (cms_run_shape evs cms0) as (Hsw & Hsd & _).
  rewrite cms_run_snoc, cell_apply, freq_snoc
    by (try rewrite Hsw; try rewrite Hsd; auto using history_wf).
  rewrite IH by lia. pose proof (freq_bounds (in_cell i j) evs) as Hf.
  destruct e as [key| |]; [|done..]. simpl. rewrite cms_index_run.
  change (increments [EvIncrement key]) with 1 in Hb.
  unfold in_cell at 3. destruct (_ =? _)%nat; [|done].
  apply u64_small. lia.
Qed.

Lemma total_exact evs :
  increments evs < 2 ^ 64 -> Total (cms_run evs cms0) = freq (fun _ => true) evs.
Proof.
  intros Hb. induction evs as [|e evs IH] using rev_ind; [done|].
  rewrite increments_app in Hb. pose proof (increments_nonneg [e]).
  rewrite cms_run_snoc, freq_snoc, <- IH by lia.
  pose proof (freq_bounds (fun _ => true) evs) as Hf. rewrite <- IH in Hf by lia.
  destruct e as [key| |]; [|done..]. unfold Total in *. simpl.
  change (increments [EvIncrement key]) with 1 in Hb. apply u64_small. lia.
Qed.

(** The counters that Estimate minimises. *)
Lemma Estimate_min evs key :
  increments evs < MaxUint64 ->
  Estimate (cms_run evs cms0) key
  = running_min MaxUint64
      ((fun i => freq (in_cell i (cms_index cms0 key i)) evs) <$> seq 0 (Z.to_nat (depth cms0))).
Proof.
  intros Hb. unfold Estimate. destruct (cms_run_shape evs cms0) as (_ & -> & _).
  rewrite (list_fmap_ext _ (fun i => freq (in_cell i (cms_index cms0 key i)) evs)).
  2: { intros k i Hk. apply lookup_seq in Hk as [-> Hi]. rewrite cms_index_run.
       apply cells_exact; [unfold MaxUint64 in Hb; lia|lia|].
       by apply cms_index_lt, NewCountMinSketch_wf. }
  set (cs := _ <$> _).
  destruct (Z.eqb_spec (running_min MaxUint64 cs) MaxUint64) as [Heq|]; [|done].
  exfalso. pose proof (cw_depth cms0 (NewCountMinSketch_wf w d Hw Hd)).
  destruct (running_min_le MaxUint64 cs) as [_ Hall]. rewrite Forall_forall in Hall.
  specialize (Hall (freq (in_cell 0 (cms_index cms0 key 0)) evs)).
  pose proof (freq_bounds (in_cell 0 (cms_index cms0 key 0)) evs).
  assert (freq (in_cell 0 (cms_index cms0 key 0)) evs ∈ cs) as Hin.
  { apply list_elem_of_fmap. exists 0%nat. split; [done|]. apply elem_of_seq. lia. }
  specialize (Hall Hin). lia.
Qed.

Lemma Estimate_bounds_aux evs key :
  increments evs < MaxUint64 ->
  freq (fun k => bool_decide (k = key)) evs <= Estimate (cms_run evs cms0) key
    <= freq (fun _ => true) evs.
Proof.
  intros Hb. rewrite Estimate_min by done. split.
  - apply running_min_lower.
    + pose proof (freq_bounds (fun k => bool_decide (k = key)) evs). lia.
    + apply Forall_fmap, Forall_forall. intros i _. apply freq_mono.
      intros k Hk%bool_decide_eq_true_1. subst. apply Nat.eqb_refl.
  - pose proof (cw_depth cms0 (NewCountMinSketch_wf w d Hw Hd)).
    set (cs := _ <$> _). destruct (running_min_le MaxUint64 cs) as [_ Hall].
    rewrite Forall_forall in Hall.
    etrans; [apply (Hall (freq (in_cell 0 (cms_index cms0 key 0)) evs))|by apply freq_mono].
    apply list_elem_of_fmap. exists 0%nat. split; [done|]. apply elem_of_seq. lia.
Qed.

(** One more access to a key raises its estimate by one. *)
Lemma Estimate_increment evs key :
  increments (evs ++ [EvIncrement key]) < MaxUint64 ->
  Estimate (cms_run (evs ++ [EvIncrement key]) cms0) key = Estimate (cms_run evs cms0) key + 1.
Proof.
  intros Hb. rewrite !Estimate_min; [|rewrite increments_app in Hb;
    pose proof (increments_nonneg [EvIncrement key]); lia|done].
  rewrite increments_app in Hb. change (increments [EvIncrement key]) with 1 in Hb.
  set (f := fun i => freq (in_cell i (cms_index cms0 key i)) evs).
  rewrite (list_fmap_ext _ (fun i => f i + 1)).
  2: { intros _ i _. rewrite freq_snoc. simpl. unfold in_cell at 1. by rewrite Nat.eqb_refl. }
  assert (running_min MaxUint64 (f <$> seq 0 (Z.to_nat (depth cms0))) < MaxUint64) as Hlt.
  { pose proof (cw_depth cms0 (NewCountMinSketch_wf w d Hw Hd)).
    destruct (running_min_le MaxUint64 (f <$> seq 0 (Z.to_nat (depth cms0)))) as [_ Hall].
    rewrite Forall_forall in Hall. pose proof (freq_bounds (in_cell 0 (cms_index cms0 key 0)) evs).
    enough (f 0%nat ∈ f <$> seq 0 (Z.to_nat (depth cms0))) as Hin
      by (specialize (Hall _ Hin); unfold f in *; lia).
    apply list_elem_of_fmap_2, elem_of_seq. lia. }
  destruct (running_min_in MaxUint64 (f <$> seq 0 (Z.to_nat (depth cms0)))) as [|Hin]; [lia|].
  apply list_elem_of_fmap in Hin as (i & Ei & Hi). apply Z.le_antisymm.
  - rewrite Ei. eapply (Forall_forall (fun c => running_min MaxUint64 _ <= c));
      [apply running_min_le|]. by apply (list_elem_of_fmap_2 (fun i => f i + 1)).
  - apply running_min_lower; [lia|]. apply Forall_fmap, Forall_forall. intros j Hj. unfold compose.
    destruct (running_min_le MaxUint64 (f <$> seq 0 (Z.to_nat (depth cms0)))) as [_ Hall].
    rewrite Forall_forall in Hall. specialize (Hall (f j) (list_elem_of_fmap_2 f _ j Hj)). lia.
Qed.
End history.

(** ** Properties of the sketch and the detector *)

(** After any history of increments, decays and resets with fewer than 2^64
    increments, every counter of the sketch is the exact (halved at each
    decay) number of accesses to the keys that hash to it, and Total is that
    of all keys: no counter wraps and no update is lost or misplaced. *)
Theorem sketch_cells_exact (w d : Z) (evs : list cms_event) (i j : nat)
    (cms0 := NewCountMinSketch w d) :
  0 <= w < 2 ^ 32 -> 0 <= d < 2 ^ 32 -> increments evs < 2 ^ 64 ->
  (i < Z.to_nat (depth cms0))%nat -> (j < Z.to_nat (width cms0))%nat ->
  cell (cms_run evs cms0) i j
    = freq (fun key => (cms_index cms0 key i =? j)%nat) evs /\
  Total (cms_run evs cms0) = freq (fun _ => true) evs.
Proof.
  intros Hw Hd Hb Hi Hj. split; [by apply cells_exact|by apply total_exact].
Qed.

Definition demo_history : list cms_event :=
  [EvIncrement "a"; EvIncrement "a"; EvIncrement "b"; EvDecay; EvIncrement "a"].

Lemma sketch_cells_exact_witness :
  let cms0 := NewCountMinSketch 16 3 in
  cell (cms_run demo_history cms0) 2 (cms_index cms0 "a" 2)
    = freq (fun key => (cms_index cms0 key 2 =? cms_index cms0 "a" 2)%nat) demo_history.
Proof.
  apply (sketch_cells_exact 16 3 demo_history 2
           (cms_index (NewCountMinSketch 16 3) "a" 2)); try lia; vm_compute; (reflexivity || lia).
Defined.

(** C35: the estimate never underestimates: after any history with fewer than
    2^64-1 increments it is at least the exact frequency of the key, and at
    most the total. *)
Theorem Estimate_never_underestimates (w d : Z) (evs : list cms_event) (key : string) :
  0 <= w < 2 ^ 32 -> 0 <= d < 2 ^ 32 -> increments evs < MaxUint64 ->
  freq (fun k => bool_decide (k = key)) evs
    <= Estimate (cms_run evs (NewCountMinSketch w d)) key
    <= Total (cms_run evs (NewCountMinSketch w d)).
Proof.
  intros Hw Hd Hb. rewrite total_exact by (unfold MaxUint64 in Hb; lia).
  by apply Estimate_bounds_aux.
Qed.

Lemma Estimate_never_underestimates_witness :
  2 <= Estimate (cms_run demo_history (NewCountMinSketch 16 3)) "a".
Proof.
  apply (Estimate_never_underestimates 16 3 demo_history "a"); vm_compute; intuition congruence.
Defined.

(** One Decay halves the estimate of every key, rounding down; so after n
    decays a key is hot only if its estimate was at least 2^n times the
    threshold, and 64 decays bring any estimate to zero. *)
Theorem Decay_halves_estimate (w d : Z) (evs : list cms_event) (key : string) (n : nat) :
  0 <= w < 2 ^ 32 -> 0 <= d < 2 ^ 32 -> increments evs < MaxUint64 ->
  Estimate (cms_run (evs ++ replicate n EvDecay) (NewCountMinSketch w d)) key
    = Estimate (cms_run evs (NewCountMinSketch w d)) key / 2 ^ Z.of_nat n.
Proof.
  intros Hw Hd Hb.
  assert (forall k, increments (replicate k EvDecay) = 0) as Hinc.
  { induction k as [|k IH]; [done|]. exact IH. }
  assert (forall P k, freq P (evs ++ replicate k EvDecay) = freq P evs / 2 ^ Z.of_nat k) as Hf.
  { intros P k. induction k as [|k IH]; [by rewrite app_nil_r, Z.div_1_r|].
    rewrite replicate_S_end, app_assoc, freq_snoc, IH. simpl freq_step.
    rewrite Z.div_div by lia. f_equal.
    rewrite Nat2Z.inj_succ, Z.pow_succ_r by lia. lia. }
  rewrite !Estimate_min by (rewrite ?increments_app, ?Hinc; lia || done).
  set (cms0 := NewCountMinSketch w d).
  erewrite (list_fmap_ext _ (fun i => freq _ evs / 2 ^ Z.of_nat n))
    by (intros; apply Hf).
  pose proof (cw_depth cms0 (NewCountMinSketch_wf w d Hw Hd)) as Hdep.
  assert (exists rest, seq 0 (Z.to_nat (depth cms0)) = 0%nat :: rest) as [rest Hseq].
  { destruct (Z.to_nat (depth cms0)) as [|k] eqn:E; [lia|]. by exists (seq 1 k). }
  rewrite Hseq, !fmap_cons, !running_min_cons.
  pose proof (freq_bounds (in_cell w d 0 (cms_index cms0 key 0)) evs) as Hb0.
  set (f0 := freq (in_cell w d 0 (cms_index cms0 key 0)) evs) in *.
  assert (0 <= f0 / 2 ^ Z.of_nat n <= f0) as Hdiv.
  { split; [apply Z.div_pos; lia|]. apply Z.div_le_upper_bound; nia. }
  destruct (Z.ltb_spec f0 MaxUint64); [|lia].
  destruct (Z.ltb_spec (f0 / 2 ^ Z.of_nat n) MaxUint64); [|lia].
  rewrite <- (running_min_map (fun c => c / 2 ^ Z.of_nat n))
    by (intros; apply Z.div_le_mono; lia).
  by rewrite <- list_fmap_compose.
Qed.

Lemma Decay_halves_estimate_witness :
  Estimate (cms_run (demo_history ++ replicate 1 EvDecay) (NewCountMinSketch 16 3)) "a" = 1.
Proof.
  rewrite (Decay_halves_estimate 16 3 demo_history "a" 1);
    [vm_compute; reflexivity|lia|lia|vm_compute; reflexivity].
Defined.

(** The detector has no false negatives: if the accesses to a key, this one
    included and halved at each decay, reach the threshold, RecordAccess
    reports the key hot; and it reports none hot while the total of all keys is
    below the threshold.  IsHot afterwards agrees with RecordAccess. *)
Theorem RecordAccess_detects (thr period : Z) (evs : list cms_event) (key : string)
    (det := mkDetector (cms_run evs (NewCountMinSketch 4096 4)) thr period)
    (evs' := evs ++ [EvIncrement key]) :
  increments evs' < MaxUint64 ->
  (thr <= freq (fun k => bool_decide (k = key)) evs' -> (RecordAccess key det).1 = true) /\
  (freq (fun _ => true) evs' < thr -> (RecordAccess key det).1 = false) /\
  IsHot (RecordAccess key det).2 key = (RecordAccess key det).1.
Proof.
  intros Hb.
  assert (sketch (RecordAccess key det).2 = cms_run evs' (NewCountMinSketch 4096 4)) as Hs.
  { unfold evs'. by rewrite cms_run_snoc. }
  pose proof (Estimate_bounds_aux 4096 4 ltac:(lia) ltac:(lia) evs' key Hb) as He.
  rewrite <- Hs in He.
  change ((RecordAccess key det).1) with (IsHot (RecordAccess key det).2 key).
  unfold IsHot. change (hotThreshold (RecordAccess key det).2) with thr.
  split_and!; [intros; apply Z.leb_le; lia|intros; apply Z.leb_gt; lia|done].
Qed.

Lemma RecordAccess_detects_witness :
  (RecordAccess "k" (mkDetector
     (cms_run (replicate 99 (EvIncrement "k")) (NewCountMinSketch 4096 4)) 100 0)).1 = true.
Proof.
  destruct (RecordAccess_detects 100 0 (replicate 99 (EvIncrement "k")) "k") as (H & _).
  - vm_compute. reflexivity.
  - apply H. vm_compute. discriminate.
Defined.
