(* ===== verification/Mitigator.v ===== *)
(** * Hot key mitigation: internal/hotkey/mitigator.go

    The mitigator copies a hot key to [shardCount] shard keys of the store it
    shares with the server; the store is threaded through its operations.
    [clk n] is the n-th reading of the clock an operation makes. *)

From S2P Require Import Prelude GoLib Store Sketch.

#[local] Open Scope Z_scope.

(** ** Model *)

Inductive MitigationStrategy :=
  | StrategyNone
  | StrategyKeySplit
  | StrategyReadReplica.

#[global] Instance MitigationStrategy_eq_dec : EqDecision MitigationStrategy.
Proof. solve_decision. Defined.

(** The method [String]. *)
Definition strategy_String (s : MitigationStrategy) : string :=
  match s with
  | StrategyKeySplit => "KEY_SPLIT"
  | StrategyReadReplica => "READ_REPLICA"
  | StrategyNone => "NONE"
  end.

Record Mitigator := mkMitigator {
  detector : Detector;
  shardCount : Z;
  mitigatedKeys : gmap string MitigationStrategy;
  mitigationCount : Z (* uint64 *)
}.

Definition NewMitigator (detector : Detector) (shardCount : Z) : Mitigator :=
  mkMitigator detector (if shardCount <? 2 then 4 else shardCount) ∅ 0.

Definition ShardKeyName (key : string) (shardIndex : Z) : string :=
  key +:+ ":shard_" +:+ fmt_d shardIndex.

Definition hashString (s : string) : Z :=
  fold_left (fun h b => u32 (Z.lxor h (byte_val b) * 16777619))
    (bytes_of_string s) 2166136261.

(** The loops that write [value] to all the shard keys of [key]; the first one
    uses the readings from [clk base] on. *)
Definition write_shards (clk : nat -> Time) (base : nat) (count : Z) (key : string)
    (value : bytes) (ttl : Duration) (s : Store) : Store :=
  fold_left (fun s i =>
      Set_ (clk (base + 2 * Z.to_nat i)%nat) (clk (base + 2 * Z.to_nat i + 1)%nat)
        s (ShardKeyName key i) value ttl)
    (seqZ 0 count) s.

Definition applySplitting (clk : nat -> Time) (m : Mitigator) (key : string) (s : Store) : Store :=
  match Get (clk 0%nat) (clk 1%nat) s key with
  | (None, s) => s
  | (Some value, s) => write_shards clk 2 (shardCount m) key value 0 s
  end.

Definition CheckAndMitigate (clk : nat -> Time) (key : string) (m : Mitigator) (s : Store)
    : bool * Mitigator * Store :=
  let '(isHot, d) := RecordAccess key (detector m) in
  let m := mkMitigator d (shardCount m) (mitigatedKeys m) (mitigationCount m) in
  if negb isHot then (false, m, s)
  else
    match mitigatedKeys m !! key with
    | Some _ => (true, m, s)
    | None =>
        let s := applySplitting clk m key s in
        (true,
         mkMitigator (detector m) (shardCount m)
           (<[key := StrategyKeySplit]> (mitigatedKeys m)) (u64 (mitigationCount m + 1)),
         s)
    end.

(** [isMitigated && strategy == StrategyKeySplit] *)
Definition is_split (m : Mitigator) (key : string) : bool :=
  bool_decide (mitigatedKeys m !! key = Some StrategyKeySplit).

(** [None] is the division by zero when [uint32(shardCount)] is zero. *)
Definition GetShardedKey (m : Mitigator) (key clientID : string) : option string :=
  if negb (is_split m key) then Some key
  else if u32 (shardCount m) =? 0 then None
  else Some (ShardKeyName key (hashString clientID mod u32 (shardCount m))).

Definition WriteToShards (clk : nat -> Time) (m : Mitigator) (key : string) (value : bytes)
    (ttl : Duration) (s : Store) : Store :=
  let s := Set_ (clk 0%nat) (clk 1%nat) s key value ttl in
  if negb (is_split m key) then s
  else write_shards clk 2 (shardCount m) key value ttl s.

Definition IsMitigated (m : Mitigator) (key : string) : bool :=
  bool_decide (is_Some (mitigatedKeys m !! key)).

Definition GetMitigatedKeys (m : Mitigator) : gmap string MitigationStrategy := mitigatedKeys m.
Definition MitigationCount (m : Mitigator) : Z := mitigationCount m.

(** The inlined hash is the 32-bit FNV-1a of the standard library. *)
Lemma hashString_fnv s : hashString s = fnv32a (bytes_of_string s).
Proof. done. Qed.

(** ** Names of shard keys *)

Lemma string_app_inj_l (s t u : string) : s +:+ t = s +:+ u -> t = u.
Proof. induction s as [|a s IH]; [done|]. intros [= H]. by apply IH. Qed.

Lemma ShardKeyName_inj key i j : ShardKeyName key i = ShardKeyName key j -> i = j.
Proof.
  unfold ShardKeyName. intros H. do 2 apply string_app_inj_l in H. by apply (inj fmt_d).
Qed.

Lemma string_length_app (s t : string) :
  String.length (s +:+ t) = (String.length s + String.length t)%nat.
Proof. induction s as [|a s IH]; [done|]. simpl. by rewrite <- IH. Qed.

(** A shard key is never the key itself. *)
Lemma ShardKeyName_ne key i : ShardKeyName key i <> key.
Proof.
  intros H. apply (f_equal String.length) in H. unfold ShardKeyName in H.
  rewrite !string_length_app in H. simpl in H. lia.
Qed.

(** ** The loop over the shard keys *)

Lemma Set_contents t1 t2 s key v ttl :
  store_wf s ->
  store_wf (Set_ t1 t2 s key v ttl) /\
  contents (Set_ t1 t2 s key v ttl)
    = <[key := mkEntry v (deadline t2 ttl) t1]> (contents s).
Proof.
  intros Hwf. split; [by apply (exec_wf (mkCall t1 t2 (CmdSet key v ttl)))|].
  by apply (exec_spec (mkCall t1 t2 (CmdSet key v ttl))).
Qed.

Lemma write_shards_spec clk base n key v ttl s :
  store_wf s ->
  let s' := write_shards clk base n key v ttl s in
  store_wf s' /\
  (forall i, 0 <= i < n -> contents s' !! ShardKeyName key i
     = Some (mkEntry v (deadline (clk (base + 2 * Z.to_nat i + 1)%nat) ttl)
               (clk (base + 2 * Z.to_nat i)%nat))) /\
  (forall k, (forall i, 0 <= i < n -> k <> ShardKeyName key i) ->
     contents s' !! k = contents s !! k).
Proof.
  intros Hwf. destruct (Z.le_gt_cases n 0) as [Hn|Hn].
  { unfold write_shards. rewrite seqZ_nil by lia. simpl. split_and!; [done|lia|done]. }
  rewrite <- (Z2Nat.id n) by lia. clear Hn. induction (Z.to_nat n) as [|k IH]; cbn zeta in *.
  { unfold write_shards. rewrite seqZ_nil by lia. simpl. split_and!; [done|lia|done]. }
  unfold write_shards in *. rewrite seqZ_S, fold_left_app, Z.add_0_l. cbn [fold_left].
  set (s1 := fold_left _ (seqZ 0 (Z.of_nat k)) s) in *.
  destruct IH as (Hwf1 & Hin & Hout).
  destruct (Set_contents (clk (base + 2 * Z.to_nat (Z.of_nat k))%nat)
    (clk (base + 2 * Z.to_nat (Z.of_nat k) + 1)%nat) s1 (ShardKeyName key (Z.of_nat k)) v ttl Hwf1)
    as [Hwf2 Hc].
  split_and!; [done| |].
  - intros i Hi. rewrite Hc. destruct (decide (i = Z.of_nat k)) as [->|Hne].
    + by rewrite lookup_insert_eq.
    + rewrite lookup_insert_ne by (intros H%ShardKeyName_inj; lia). apply Hin. lia.
  - intros k' Hk'. rewrite Hc, lookup_insert_ne by (intros H; by apply (Hk' (Z.of_nat k)); [lia|]).
    apply Hout. intros i Hi. apply Hk'. lia.
Qed.

(** ** Properties of the mitigator *)

Lemma Get_live t1 t2 s key e :
  store_wf s -> contents s !! key = Some e -> IsExpired t1 e = false ->
  Get t1 t2 s key = (Some (Value e), with_stats incHits s).
Proof.
  intros Hwf He Hx. unfold Get, get_read. by rewrite <- contents_lookup, He, Hx.
Qed.

(** When a live key becomes hot for the first time, CheckAndMitigate reports
    it hot, records the key-split strategy and writes the value to each of the
    shardCount shard keys; no other key of the store changes.  The copies never
    expire, even when the original has a TTL, and a user key that happens to
    have the name of a shard key is overwritten. *)
Theorem CheckAndMitigate_splits (clk : nat -> Time) (key : string) (m : Mitigator)
    (s : Store) (e : Entry) :
  store_wf s -> contents s !! key = Some e -> IsExpired (clk 0%nat) e = false ->
  (RecordAccess key (detector m)).1 = true -> mitigatedKeys m !! key = None ->
  let '(hot, m', s') := CheckAndMitigate clk key m s in
  hot = true /\ IsMitigated m' key = true /\
  mitigatedKeys m' !! key = Some StrategyKeySplit /\
  MitigationCount m' = u64 (MitigationCount m + 1) /\ store_wf s' /\
  (forall i, 0 <= i < shardCount m -> exists c,
     contents s' !! ShardKeyName key i = Some (mkEntry (Value e) time_zero c)) /\
  (forall k, (forall i, 0 <= i < shardCount m -> k <> ShardKeyName key i) ->
     contents s' !! k = contents s !! k).
Proof.
  intros Hwf He Hx Hhot Hm. unfold CheckAndMitigate.
  destruct (RecordAccess key (detector m)) as [b d]; simpl in Hhot; subst b. simpl.
  rewrite Hm. unfold applySplitting. rewrite (Get_live _ _ _ _ _ Hwf He Hx). simpl shardCount.
  destruct (write_shards_spec clk 2 (shardCount m) key (Value e) 0 (with_stats incHits s))
    as (Hwf' & Hin & Hout); [by apply wf_with_stats|].
  unfold IsMitigated, MitigationCount; simpl. rewrite lookup_insert_eq.
  split_and!; try done.
  intros i Hi. eexists. by rewrite Hin.
Qed.

Definition hot_mitigator : Mitigator := NewMitigator (NewDetector 1 Second) 4.
Definition one_key : Store := Set_ 10 10 demo_store "k" [Byte.x07] 100.

Lemma one_key_wf : store_wf one_key.
Proof. apply wf_with_stats, wf_alter_key, empty_store_wf. lia. Qed.

Lemma CheckAndMitigate_splits_witness :
  let '(_, _, s') := CheckAndMitigate (fun _ => 20) "k" hot_mitigator one_key in
  exists c, contents s' !! ShardKeyName "k" 3 = Some (mkEntry [Byte.x07] time_zero c).
Proof.
  pose proof (CheckAndMitigate_splits (fun _ => 20) "k" hot_mitigator one_key
    (mkEntry [Byte.x07] 110 10) one_key_wf) as H.
  destruct (CheckAndMitigate (fun _ => 20) "k" hot_mitigator one_key) as [[hot m'] s'].
  destruct H as (_ & _ & _ & _ & _ & H & _); try (vm_compute; reflexivity).
  apply (H 3). vm_compute. split; congruence.
Defined.

(** For a split key, a client that reads the shard key GetShardedKey chooses
    for it gets the value WriteToShards wrote last, until the TTL passes: the
    chosen shard index is always one of those written. *)
Theorem sharded_read_sees_write (clk : nat -> Time) (m : Mitigator) (key clientID : string)
    (v : bytes) (ttl : Duration) (s : Store) (r1 r2 : Time) :
  store_wf s -> is_split m key = true -> 1 <= shardCount m < 2 ^ 32 ->
  (forall n, 0 < clk n) -> (ttl <= 0 \/ forall n, r1 <= clk n + ttl) ->
  exists k, GetShardedKey m key clientID = Some k /\
    (Get r1 r2 (WriteToShards clk m key v ttl s) k).1 = Some v.
Proof.
  intros Hwf Hsp Hn Hclk Httl. unfold GetShardedKey, WriteToShards. rewrite Hsp. simpl negb.
  cbv iota. rewrite u32_small by lia. destruct (Z.eqb_spec (shardCount m) 0); [lia|].
  eexists. split; [done|].
  set (i := hashString clientID mod shardCount m).
  assert (0 <= i < shardCount m) as Hi by (apply Z.mod_pos_bound; lia).
  destruct (Set_contents (clk 0%nat) (clk 1%nat) s key v ttl Hwf) as [Hwf1 _].
  destruct (write_shards_spec clk 2 (shardCount m) key v ttl _ Hwf1) as (Hwf2 & Hin & _).
  rewrite (Get_live r1 r2 _ _ _ Hwf2 (Hin i Hi)); [done|].
  unfold IsExpired, deadline, IsZero, After; cbn [ExpiresAt].
  set (t := clk (2 + 2 * Z.to_nat i + 1)%nat).
  pose proof (Hclk (2 + 2 * Z.to_nat i + 1)%nat) as Ht. fold t in Ht.
  destruct (Z.ltb_spec 0 ttl); [|done].
  destruct Httl as [|Httl]; [lia|]. specialize (Httl (2 + 2 * Z.to_nat i + 1)%nat). fold t in Httl.
  destruct (Z.eqb_spec (t + ttl) 0); [lia|]. apply Z.ltb_ge. lia.
Qed.

Lemma sharded_read_sees_write_witness :
  exists k, GetShardedKey (mkMitigator (NewDetector 1 Second) 4 {["k" := StrategyKeySplit]} 1)
      "k" "client-7" = Some k /\
    (Get 60 60 (WriteToShards (fun _ => 20)
       (mkMitigator (NewDetector 1 Second) 4 {["k" := StrategyKeySplit]} 1)
       "k" [Byte.x09] 50 one_key) k).1 = Some [Byte.x09].
Proof.
  apply (sharded_read_sees_write (fun _ => 20)
    (mkMitigator (NewDetector 1 Second) 4 {["k" := StrategyKeySplit]} 1) "k" "client-7"
    [Byte.x09] 50 one_key 60 60 one_key_wf); try (vm_compute; reflexivity).
  - vm_compute. split; congruence.
  - right. intros _. lia.
Defined.

(** The events a mitigator sees: checks of keys and ticks of the decay loop. *)
Inductive mit_event :=
  | MitCheck (clk : nat -> Time) (key : string)
  | MitDecay.

Definition mit_apply (ms : Mitigator * Store) (e : mit_event) : Mitigator * Store :=
  let '(m, s) := ms in
  match e with
  | MitCheck clk key => let '(_, m, s) := CheckAndMitigate clk key m s in (m, s)
  | MitDecay =>
      (mkMitigator (decay_tick (detector m)) (shardCount m) (mitigatedKeys m)
         (mitigationCount m), s)
  end.

(** A key is mitigated at most once and never again un-mitigated: in every
    run of checks and decay ticks the mitigation counter is the number of
    mitigated keys modulo 2^64, and the mitigated keys only grow, whatever the
    decay does to the estimates. *)
Theorem mitigation_permanent (evs evs' : list mit_event) (d : Detector) (n : Z) (s : Store)
    (run := fun evs => fold_left mit_apply evs (NewMitigator d n, s)) :
  MitigationCount (run evs).1 = u64 (Z.of_nat (size (mitigatedKeys (run evs).1))) /\
  mitigatedKeys (run evs).1 ⊆ mitigatedKeys (run (evs ++ evs')).1.
Proof.
  assert (forall ms e, mitigatedKeys ms.1 ⊆ mitigatedKeys (mit_apply ms e).1 /\
    (MitigationCount ms.1 = u64 (Z.of_nat (size (mitigatedKeys ms.1))) ->
     MitigationCount (mit_apply ms e).1
       = u64 (Z.of_nat (size (mitigatedKeys (mit_apply ms e).1))))) as Hstep.
  { intros [m s0] [clk key|]; simpl; [|done]. unfold CheckAndMitigate.
    destruct (RecordAccess key (detector m)) as [[] d']; simpl; [|done].
    destruct (mitigatedKeys m !! key) eqn:Hm; simpl; [done|].
    split; [by apply insert_subseteq|]. intros Hc. unfold MitigationCount in *. simpl.
    rewrite map_size_insert_None, Hc, u64_add_l by done. f_equal. lia. }
  unfold run. clear run. split.
  - assert (forall ms, MitigationCount ms.1 = u64 (Z.of_nat (size (mitigatedKeys ms.1))) ->
      MitigationCount (fold_left mit_apply evs ms).1
      = u64 (Z.of_nat (size (mitigatedKeys (fold_left mit_apply evs ms).1)))) as Hrun.
    { induction evs as [|e evs IH]; intros ms Hms; [done|]. apply IH. by apply Hstep. }
    by apply Hrun.
  - rewrite fold_left_app. generalize (fold_left mit_apply evs (NewMitigator d n, s)).
    induction evs' as [|e evs' IH]; intros ms; [done|]. simpl.
    etrans; [apply (Hstep ms e)|apply IH].
Qed.
