(* ===== verification/L1Cache.v ===== *)
(** * The client-side LRU cache: client/l1cache.go

    The Go type keeps a doubly linked list of elements (most recently used
    first) and a map from keys to elements; an element points to an entry that
    Set mutates in place.  Here an element is an identifier, [evictList] the
    order of the identifiers and [entries] the heap of the entries.

    [lru] is the abstract cache, a list of bindings in recency order;
    [l1_refines] shows that the pointer structure implements it. *)

From S2P Require Import Prelude GoLib.

#[local] Open Scope Z_scope.

(** ** Model *)

Record l1Entry := mkL1Entry {
  l1_key : string;
  l1_value : bytes;
  l1_expiresAt : Time
}.

Record L1Cache := mkL1 {
  capacity : Z;
  evictList : list nat;          (* front to back *)
  entries : gmap nat l1Entry;    (* elem.Value *)
  items : gmap string nat;
  defaultTTL : Duration;
  next_elem : nat                (* the next element to allocate *)
}.

Definition NewL1Cache (capacity : Z) (defaultTTL : Duration) : L1Cache :=
  mkL1 (if capacity <=? 0 then 1000 else capacity) [] ∅ ∅
    (if defaultTTL <=? 0 then 5 * Second else defaultTTL) 0.

(** container/list *)
Definition list_Remove (e : nat) (l : list nat) : list nat := filter (fun x => x <> e) l.
Definition list_MoveToFront (e : nat) (l : list nat) : list nat := e :: list_Remove e l.

Definition removeElement (elem : nat) (c : L1Cache) : L1Cache :=
  mkL1 (capacity c) (list_Remove elem (evictList c)) (entries c)
    (match entries c !! elem with
     | Some entry => delete (l1_key entry) (items c)
     | None => items c
     end) (defaultTTL c) (next_elem c).

Definition evictOldest (c : L1Cache) : L1Cache :=
  match last (evictList c) with
  | Some elem => removeElement elem c
  | None => c
  end.

(** [None] is the Go result [(nil, false)]. *)
Definition Get (now : Time) (c : L1Cache) (key : string) : option bytes * L1Cache :=
  match items c !! key with
  | None => (None, c)
  | Some elem =>
      match entries c !! elem with
      | None => (None, c)
      | Some entry =>
          if After now (l1_expiresAt entry) then (None, removeElement elem c)
          else
            (Some (l1_value entry),
             mkL1 (capacity c) (list_MoveToFront elem (evictList c)) (entries c) (items c)
               (defaultTTL c) (next_elem c))
      end
  end.

Definition Set_ (now : Time) (c : L1Cache) (key : string) (value : bytes) (ttl : Duration)
    : L1Cache :=
  let ttl := if ttl <=? 0 then defaultTTL c else ttl in
  let expiresAt := Add now ttl in
  match items c !! key with
  | Some elem =>
      mkL1 (capacity c) (list_MoveToFront elem (evictList c))
        (alter (fun entry => mkL1Entry (l1_key entry) value expiresAt) elem (entries c))
        (items c) (defaultTTL c) (next_elem c)
  | None =>
      let elem := next_elem c in
      let c := mkL1 (capacity c) (elem :: evictList c)
        (<[elem := mkL1Entry key value expiresAt]> (entries c))
        (<[key := elem]> (items c)) (defaultTTL c) (S elem) in
      if capacity c <? Z.of_nat (length (evictList c)) then evictOldest c else c
  end.

Definition Delete (c : L1Cache) (key : string) : L1Cache :=
  match items c !! key with
  | Some elem => removeElement elem c
  | None => c
  end.

Definition Clear (c : L1Cache) : L1Cache :=
  mkL1 (capacity c) [] (entries c) ∅ (defaultTTL c) (next_elem c).

Definition Len (c : L1Cache) : Z := Z.of_nat (length (evictList c)).

(** ** The abstract cache *)

(** Bindings in recency order; a binding holds a value and its deadline. *)
Abbreviation lru := (list (string * (bytes * Time))).

Definition lru_find (k : string) (l : lru) : option (bytes * Time) :=
  (list_to_map l : gmap string (bytes * Time)) !! k.
Definition lru_remove (k : string) (l : lru) : lru := filter (fun p => p.1 <> k) l.

Definition lru_get (now : Time) (k : string) (l : lru) : option bytes * lru :=
  match lru_find k l with
  | None => (None, l)
  | Some (v, deadline) =>
      if deadline <? now then (None, lru_remove k l)
      else (Some v, (k, (v, deadline)) :: lru_remove k l)
  end.

(** A new binding goes to the front; beyond the capacity the last one goes. *)
Definition lru_set (cap : Z) (k : string) (v : bytes) (deadline : Time) (l : lru) : lru :=
  take (Z.to_nat cap) ((k, (v, deadline)) :: lru_remove k l).

(** ** Representation *)

Definition view (c : L1Cache) (elem : nat) : string * (bytes * Time) :=
  match entries c !! elem with
  | Some e => (l1_key e, (l1_value e, l1_expiresAt e))
  | None => ("", ([], 0))
  end.

Definition abs (c : L1Cache) : lru := view c <$> evictList c.

(** The shape of the pointers; [l1_wf] adds the bound on the length. *)
Record l1_shape (c : L1Cache) : Prop := {
  lw_nodup : NoDup (evictList c);
  lw_list : forall x, x ∈ evictList c ->
    exists e, entries c !! x = Some e /\ items c !! l1_key e = Some x;
  lw_items : forall k x, items c !! k = Some x ->
    x ∈ evictList c /\ exists e, entries c !! x = Some e /\ l1_key e = k;
  lw_fresh : forall x, x ∈ evictList c -> (x < next_elem c)%nat;
  lw_cap : 1 <= capacity c;
  lw_ttl : 0 < defaultTTL c
}.

Definition l1_wf (c : L1Cache) : Prop :=
  l1_shape c /\ Z.of_nat (length (evictList c)) <= capacity c.

Lemma view_key c k x y :
  l1_shape c -> items c !! k = Some x -> y ∈ evictList c -> (view c y).1 = k <-> y = x.
Proof.
  intros Hwf Hx Hy. destruct (lw_list c Hwf y Hy) as (e & He & Hi).
  unfold view. rewrite He. simpl. split; [intros <-; congruence|intros ->].
  destruct (lw_items c Hwf k x Hx) as (_ & e' & He' & <-). congruence.
Qed.

Lemma view_key_absent c k y :
  l1_shape c -> items c !! k = None -> y ∈ evictList c -> (view c y).1 <> k.
Proof.
  intros Hwf Hk Hy. destruct (lw_list c Hwf y Hy) as (e & He & Hi).
  unfold view. rewrite He. simpl. intros <-. congruence.
Qed.

Lemma NoDup_abs c : l1_shape c -> NoDup (abs c).*1.
Proof.
  intros Hwf. unfold abs. rewrite <- list_fmap_compose.
  apply NoDup_fmap_2_strong; [|apply (lw_nodup c Hwf)].
  intros x y Hx Hy Heq. simpl in Heq.
  destruct (lw_list c Hwf y Hy) as (e & He & Hi).
  apply (view_key c (l1_key e) y x Hwf Hi Hx).
  rewrite Heq. unfold view. by rewrite He.
Qed.

(** The map of the concrete cache answers the lookups of the abstract one. *)
Lemma lru_find_abs c k :
  l1_shape c -> lru_find k (abs c) = match items c !! k with
                                  | Some x => Some (view c x).2
                                  | None => None
                                  end.
Proof.
  intros Hwf. unfold lru_find. destruct (items c !! k) as [x|] eqn:Hk.
  - apply elem_of_list_to_map; [by apply NoDup_abs|].
    apply list_elem_of_fmap. destruct (lw_items c Hwf k x Hk) as [Hx _].
    exists x. split; [|done]. rewrite <- (proj2 (view_key c k x x Hwf Hk Hx) eq_refl).
    by destruct (view c x).
  - apply not_elem_of_list_to_map. unfold abs. rewrite <- list_fmap_compose.
    intros Hin. apply list_elem_of_fmap in Hin as (y & -> & Hy).
    by eapply view_key_absent.
Qed.

Lemma abs_remove c k x :
  l1_shape c -> items c !! k = Some x ->
  view c <$> list_Remove x (evictList c) = lru_remove k (abs c).
Proof.
  intros Hwf Hx. unfold lru_remove, abs, list_Remove. rewrite list_filter_fmap.
  f_equal. apply list_filter_ext_in. intros y Hy. simpl.
  by rewrite (view_key c k x y Hwf Hx Hy).
Qed.

Lemma abs_remove_absent c k :
  l1_shape c -> items c !! k = None -> lru_remove k (abs c) = abs c.
Proof.
  intros Hwf Hk. apply list_filter_all, Forall_forall. intros p Hp.
  apply list_elem_of_fmap in Hp as (y & -> & Hy). by eapply view_key_absent.
Qed.

Lemma length_list_Remove x l : (length (list_Remove x l) <= length l)%nat.
Proof. apply length_filter. Qed.

Lemma NoDup_list_Remove x l : NoDup l -> NoDup (list_Remove x l).
Proof. apply NoDup_filter. Qed.

Lemma elem_of_list_Remove x y l : y ∈ list_Remove x l <-> y <> x /\ y ∈ l.
Proof. unfold list_Remove. by rewrite list_elem_of_filter. Qed.

(** ** Steps of the operations *)

Lemma removeElement_spec c k x :
  l1_shape c -> items c !! k = Some x ->
  l1_shape (removeElement x c) /\ abs (removeElement x c) = lru_remove k (abs c).
Proof.
  intros Hwf Hx. destruct (lw_items c Hwf k x Hx) as (Hin & e & He & Hk).
  unfold removeElement. rewrite He, Hk. split; [|exact (abs_remove c k x Hwf Hx)].
  destruct Hwf as [Hnd Hl Hi Hf Hc Ht]. split; simpl; try done.
  - by apply NoDup_list_Remove.
  - intros y [Hne Hy]%elem_of_list_Remove. destruct (Hl y Hy) as (e' & He' & Hi').
    exists e'. split; [done|]. rewrite lookup_delete_ne; [done|]. intros ->. congruence.
  - intros k' y Hy%lookup_delete_Some. destruct Hy as [Hk' Hy].
    destruct (Hi k' y Hy) as (Hin' & e' & He' & <-).
    split; [|by eauto]. apply elem_of_list_Remove. split; [|done]. intros ->. congruence.
  - intros y [_ Hy]%elem_of_list_Remove. by apply Hf.
Qed.

(** Moving an element to the front, with a new entry for the same key. *)
Lemma touch_spec c k x v t :
  l1_shape c -> items c !! k = Some x ->
  let c' := mkL1 (capacity c) (list_MoveToFront x (evictList c))
              (<[x := mkL1Entry k v t]> (entries c)) (items c) (defaultTTL c) (next_elem c) in
  l1_shape c' /\ length (evictList c') = length (evictList c) /\
  abs c' = (k, (v, t)) :: lru_remove k (abs c).
Proof.
  intros Hwf Hx c'. destruct (lw_items c Hwf k x Hx) as (Hin & e & He & Hk).
  pose proof Hwf as [Hnd Hl Hi Hf Hc Ht]. split_and!.
  - split; simpl; try done.
    + apply NoDup_cons. split; [|by apply NoDup_list_Remove].
      intros [? _]%elem_of_list_Remove. done.
    + intros y [->|[Hne Hy]%elem_of_list_Remove]%elem_of_cons.
      * eexists. by rewrite lookup_insert_eq.
      * destruct (Hl y Hy) as (e' & He' & Hi'). exists e'. by rewrite lookup_insert_ne.
    + intros k' y Hy. destruct (Hi k' y Hy) as (Hin' & e' & He' & Hk').
      destruct (decide (y = x)) as [->|Hne].
      * split; [left|]. eexists. rewrite lookup_insert_eq. split; [done|]. simpl. congruence.
      * split; [right; by apply elem_of_list_Remove|]. exists e'. by rewrite lookup_insert_ne.
    + intros y [->|[_ Hy]%elem_of_list_Remove]%elem_of_cons; by apply Hf.
  - simpl. assert (evictList c ≡ₚ x :: list_Remove x (evictList c)) as Hp.
    { apply NoDup_Permutation; [done| |].
      - apply NoDup_cons. split; [|by apply NoDup_list_Remove].
        intros [? _]%elem_of_list_Remove. done.
      - intros y. rewrite elem_of_cons, elem_of_list_Remove.
        destruct (decide (y = x)) as [->|]; naive_solver. }
    by rewrite Hp at 2.
  - unfold abs at 1. simpl. f_equal.
    + unfold view, c'; simpl. by rewrite lookup_insert_eq.
    + rewrite <- (abs_remove c k x Hwf Hx). apply list_fmap_ext. intros i y Hy.
      apply list_elem_of_lookup_2, elem_of_list_Remove in Hy as [Hne _].
      unfold view, c'; simpl. by rewrite lookup_insert_ne.
Qed.

Lemma push_spec c k v t :
  l1_shape c -> items c !! k = None ->
  let c' := mkL1 (capacity c) (next_elem c :: evictList c)
              (<[next_elem c := mkL1Entry k v t]> (entries c))
              (<[k := next_elem c]> (items c)) (defaultTTL c) (S (next_elem c)) in
  l1_shape c' /\ abs c' = (k, (v, t)) :: abs c.
Proof.
  intros Hwf Hk c'. pose proof Hwf as [Hnd Hl Hi Hf Hc Ht].
  assert (next_elem c ∉ evictList c) as Hfresh by (intros H%Hf; lia).
  split.
  - split; simpl; try done.
    + by apply NoDup_cons.
    + intros y [->|Hy]%elem_of_cons.
      * eexists. rewrite lookup_insert_eq. split; [done|]. apply lookup_insert_eq.
      * destruct (Hl y Hy) as (e' & He' & Hi'). exists e'.
        rewrite lookup_insert_ne by (intros <-; done). split; [done|].
        rewrite lookup_insert_ne; [done|]. intros ->. congruence.
    + intros k' y [[<- <-]|[Hne Hy]]%lookup_insert_Some.
      * split; [left|]. eexists. by rewrite lookup_insert_eq.
      * destruct (Hi k' y Hy) as (Hin' & e' & He' & Hk'). split; [by right|]. exists e'.
        by rewrite lookup_insert_ne by (intros <-; done).
    + intros y [->|Hy]%elem_of_cons; [lia|]. specialize (Hf y Hy). lia.
  - unfold abs. simpl. f_equal.
    + unfold view, c'; simpl. by rewrite lookup_insert_eq.
    + apply list_fmap_ext. intros i y Hy. apply list_elem_of_lookup_2 in Hy.
      unfold view, c'; simpl. rewrite lookup_insert_ne; [done|]. intros <-. done.
Qed.

Lemma evictOldest_spec c :
  l1_shape c -> evictList c <> [] ->
  l1_shape (evictOldest c) /\ abs (evictOldest c) = take (length (evictList c) - 1) (abs c) /\
  length (evictList (evictOldest c)) = (length (evictList c) - 1)%nat.
Proof.
  intros Hwf Hne. unfold evictOldest.
  destruct (last (evictList c)) as [x|] eqn:Hl; [|by apply last_None in Hl].
  assert (x ∈ evictList c) as Hx by by apply last_Some_elem_of.
  destruct (lw_list c Hwf x Hx) as (e & He & Hi).
  destruct (removeElement_spec c (l1_key e) x Hwf Hi) as [Hwf' _].
  pose proof (filter_ne_last _ x (lw_nodup c Hwf) Hl) as Hf.
  split_and!; [done| |].
  - unfold abs, removeElement; simpl. unfold list_Remove. rewrite Hf.
    rewrite fmap_take. done.
  - simpl. unfold list_Remove. rewrite Hf, length_take. lia.
Qed.

(** ** Refinement *)

Inductive l1_command :=
  | L1Get (key : string)
  | L1Set (key : string) (value : bytes) (ttl : Duration)
  | L1Delete (key : string)
  | L1Clear.

(** A command with its reading of the clock; the reply is that of Get. *)
Definition l1_exec (now : Time) (o : l1_command) (c : L1Cache) : option bytes * L1Cache :=
  match o with
  | L1Get key => Get now c key
  | L1Set key v ttl => (None, Set_ now c key v ttl)
  | L1Delete key => (None, Delete c key)
  | L1Clear => (None, Clear c)
  end.

Definition lru_exec (cap : Z) (dttl : Duration) (now : Time) (o : l1_command) (l : lru)
    : option bytes * lru :=
  match o with
  | L1Get key => lru_get now key l
  | L1Set key v ttl => (None, lru_set cap key v (now + if ttl <=? 0 then dttl else ttl) l)
  | L1Delete key => (None, lru_remove key l)
  | L1Clear => (None, [])
  end.

Lemma length_abs c : length (abs c) = length (evictList c).
Proof. apply length_fmap. Qed.

Lemma Set_spec now c k v ttl :
  l1_wf c ->
  l1_wf (Set_ now c k v ttl) /\
  abs (Set_ now c k v ttl)
    = lru_set (capacity c) k v (now + if ttl <=? 0 then defaultTTL c else ttl) (abs c) /\
  capacity (Set_ now c k v ttl) = capacity c /\ defaultTTL (Set_ now c k v ttl) = defaultTTL c.
Proof.
  intros [Hwf Hlen]. unfold Set_, Add, lru_set.
  set (t := now + _). destruct (items c !! k) as [x|] eqn:Hx.
  - destruct (lw_items c Hwf k x Hx) as (_ & e & He & Hk).
    assert (alter (fun entry => mkL1Entry (l1_key entry) v t) x (entries c)
            = <[x := mkL1Entry k v t]> (entries c)) as ->.
    { apply map_eq. intros y. destruct (decide (y = x)) as [->|Hne].
      - rewrite lookup_alter_eq, lookup_insert_eq, He. simpl. by rewrite Hk.
      - by rewrite lookup_alter_ne, lookup_insert_ne. }
    destruct (touch_spec c k x v t Hwf Hx) as (Hwf' & Hl & Ha). simpl in Hl.
    split_and!; try done; [split; [done|simpl; lia]|].
    rewrite <- Ha, take_ge; [done|]. rewrite length_abs. simpl. lia.
  - destruct (push_spec c k v t Hwf Hx) as (Hwf' & Ha).
    rewrite abs_remove_absent by done. cbn [capacity evictList length].
    destruct (Z.ltb_spec (capacity c) (Z.of_nat (S (length (evictList c))))) as [Hgt|Hle].
    + destruct (evictOldest_spec _ Hwf' ltac:(done)) as (Hwf2 & Ha2 & Hl2).
      cbn [evictList length] in *. split_and!.
      * split; [done|]. rewrite Hl2. unfold evictOldest; simpl.
        destruct (last _); simpl; lia.
      * rewrite Ha2, Ha. f_equal. lia.
      * unfold evictOldest. by destruct (last _).
      * unfold evictOldest. by destruct (last _).
    + split_and!; try done.
      rewrite Ha, take_ge; [done|]. simpl. rewrite length_abs. lia.
Qed.

Lemma Get_spec now c k :
  l1_wf c ->
  (Get now c k).1 = (lru_get now k (abs c)).1 /\
  abs (Get now c k).2 = (lru_get now k (abs c)).2 /\
  l1_wf (Get now c k).2 /\ capacity (Get now c k).2 = capacity c /\
  defaultTTL (Get now c k).2 = defaultTTL c.
Proof.
  intros [Hwf Hlen]. unfold Get, lru_get. rewrite lru_find_abs by done.
  destruct (items c !! k) as [x|] eqn:Hx; [|done].
  destruct (lw_items c Hwf k x Hx) as (_ & e & He & Hk). unfold view. rewrite He. simpl.
  unfold After. destruct (l1_expiresAt e <? now).
  - destruct (removeElement_spec c k x Hwf Hx) as [Hwf' Ha].
    split_and!; try done. split; [done|]. simpl.
    pose proof (length_list_Remove x (evictList c)). lia.
  - destruct (touch_spec c k x (l1_value e) (l1_expiresAt e) Hwf Hx) as (Hwf' & Hl & Ha).
    assert (<[x := mkL1Entry k (l1_value e) (l1_expiresAt e)]> (entries c) = entries c) as Heq.
    { apply insert_id. rewrite He, <- Hk. by destruct e. }
    rewrite Heq in *. split_and!; try done. split; [done|]. simpl in *. lia.
Qed.

Lemma Delete_spec c k :
  l1_wf c ->
  l1_wf (Delete c k) /\ abs (Delete c k) = lru_remove k (abs c) /\
  capacity (Delete c k) = capacity c /\ defaultTTL (Delete c k) = defaultTTL c.
Proof.
  intros [Hwf Hlen]. unfold Delete. destruct (items c !! k) as [x|] eqn:Hx.
  - destruct (removeElement_spec c k x Hwf Hx) as [Hwf' Ha].
    split_and!; try done. split; [done|]. simpl.
    pose proof (length_list_Remove x (evictList c)). lia.
  - by rewrite abs_remove_absent.
Qed.

Lemma Clear_spec c : l1_wf c -> l1_wf (Clear c) /\ abs (Clear c) = [].
Proof.
  intros [[Hnd Hl Hi Hf Hc Ht] Hlen]. split; [|done]. split; [|simpl; lia].
  split; simpl; try done; [constructor|intros x Hx; by apply elem_of_nil in Hx|].
  intros x Hx. by apply elem_of_nil in Hx.
Qed.

Lemma l1_exec_spec now o c :
  l1_wf c ->
  (l1_exec now o c).1 = (lru_exec (capacity c) (defaultTTL c) now o (abs c)).1 /\
  abs (l1_exec now o c).2 = (lru_exec (capacity c) (defaultTTL c) now o (abs c)).2 /\
  l1_wf (l1_exec now o c).2 /\ capacity (l1_exec now o c).2 = capacity c /\
  defaultTTL (l1_exec now o c).2 = defaultTTL c.
Proof.
  intros Hwf. destruct o as [k|k v ttl|k|]; simpl.
  - by apply Get_spec.
  - destruct (Set_spec now c k v ttl Hwf) as (? & ? & ? & ?). done.
  - destruct (Delete_spec c k Hwf) as (? & ? & ? & ?). done.
  - by destruct (Clear_spec c Hwf).
Qed.

Fixpoint l1_run (os : list (Time * l1_command)) (c : L1Cache) : list (option bytes) * L1Cache :=
  match os with
  | [] => ([], c)
  | (now, o) :: os =>
      let '(r, c) := l1_exec now o c in let '(rs, c) := l1_run os c in (r :: rs, c)
  end.

Fixpoint lru_run (cap : Z) (dttl : Duration) (os : list (Time * l1_command)) (l : lru)
    : list (option bytes) * lru :=
  match os with
  | [] => ([], l)
  | (now, o) :: os =>
      let '(r, l) := lru_exec cap dttl now o l in
      let '(rs, l) := lru_run cap dttl os l in (r :: rs, l)
  end.

Lemma l1_run_spec os c :
  l1_wf c ->
  (l1_run os c).1 = (lru_run (capacity c) (defaultTTL c) os (abs c)).1 /\
  abs (l1_run os c).2 = (lru_run (capacity c) (defaultTTL c) os (abs c)).2 /\
  l1_wf (l1_run os c).2 /\ capacity (l1_run os c).2 = capacity c.
Proof.
  revert c. induction os as [|[now o] os IH]; intros c Hwf; [done|]. simpl.
  destruct (l1_exec_spec now o c Hwf) as (H1 & H2 & H3 & H4 & H5).
  destruct (l1_exec now o c) as [r c1], (lru_exec _ _ now o (abs c)) as [r' l1]; simpl in *; subst.
  destruct (IH c1 H3) as (I1 & I2 & I3 & I4). rewrite H4, H5 in I1, I2. rewrite H4 in I4.
  destruct (l1_run os c1) as [rs c2], (lru_run _ _ os (abs c1)) as [rs' l2]; simpl in *.
  by subst.
Qed.

Lemma NewL1Cache_wf cap ttl : l1_wf (NewL1Cache cap ttl).
Proof.
  unfold NewL1Cache. split.
  - split; simpl; [constructor|intros x Hx; by apply elem_of_nil in Hx|done|
      intros x Hx; by apply elem_of_nil in Hx| |].
    + destruct (Z.leb_spec cap 0); lia.
    + destruct (Z.leb_spec ttl 0); [done|lia].
  - simpl. destruct (Z.leb_spec cap 0); lia.
Qed.

(** ** Properties of the L1 cache *)

(** C36: the linked list, the entry heap and the key map together implement an LRU
    list: any sequence of Get, Set, Delete and Clear replies and leaves the
    bindings, in recency order, of the same sequence on the abstract LRU list;
    the cache never holds more bindings than its capacity, and map and list
    always agree. *)
Theorem l1_refines (cap : Z) (ttl : Duration) (os : list (Time * l1_command))
    (c0 := NewL1Cache cap ttl) :
  (l1_run os c0).1 = (lru_run (capacity c0) (defaultTTL c0) os []).1 /\
  abs (l1_run os c0).2 = (lru_run (capacity c0) (defaultTTL c0) os []).2 /\
  l1_wf (l1_run os c0).2 /\ Len (l1_run os c0).2 <= capacity c0.
Proof.
  destruct (l1_run_spec os c0 (NewL1Cache_wf cap ttl)) as (H1 & H2 & H3 & H4).
  split_and!; [done..|]. rewrite <- H4. apply H3.
Qed.

(** *** Recency *)

Definition spares (k : string) (o : l1_command) : bool :=
  match o with
  | L1Get k' | L1Delete k' => negb (String.eqb k' k)
  | L1Set k' _ _ => negb (String.eqb k' k)
  | L1Clear => false
  end.

(** [k] is bound to [b] after at most [n] other bindings. *)
Definition within (k : string) (b : bytes * Time) (n : nat) (l : lru) : Prop :=
  exists l1 l2, l = l1 ++ (k, b) :: l2 /\ k ∉ l1.*1 /\ (length l1 <= n)%nat.

Lemma within_remove k k' b n l :
  k' <> k -> within k b n l -> within k b n (lru_remove k' l).
Proof.
  intros Hne (l1 & l2 & -> & Hk & Hn). exists (lru_remove k' l1), (lru_remove k' l2).
  split_and!.
  - unfold lru_remove. rewrite filter_app, filter_cons_True by (simpl; congruence). done.
  - intros Hin. apply Hk. apply list_elem_of_fmap in Hin as (p & -> & Hp).
    apply list_elem_of_filter in Hp as [_ Hp]. by apply list_elem_of_fmap_2.
  - unfold lru_remove. pose proof (length_filter (fun p => p.1 <> k') l1). lia.
Qed.

Lemma within_cons k k' b b' n l :
  k' <> k -> within k b n l -> within k b (S n) ((k', b') :: l).
Proof.
  intros Hne (l1 & l2 & -> & Hk & Hn). exists ((k', b') :: l1), l2. split_and!; [done| |simpl; lia].
  simpl. rewrite elem_of_cons. naive_solver.
Qed.

Lemma within_take k b n m l : (n < m)%nat -> within k b n l -> within k b n (take m l).
Proof.
  intros Hm (l1 & l2 & -> & Hk & Hn). exists l1, (take (m - length l1 - 1) l2).
  split_and!; [|done|done]. rewrite take_app_ge by lia. f_equal.
  destruct (m - length l1)%nat as [|j] eqn:E; [lia|]. simpl. by rewrite Nat.sub_0_r.
Qed.

Lemma within_weaken k b n m l : (n <= m)%nat -> within k b n l -> within k b m l.
Proof. intros Hm (l1 & l2 & -> & Hk & Hn). exists l1, l2. split_and!; [done|done|lia]. Qed.

Lemma within_find k b n l : within k b n l -> lru_find k l = Some b.
Proof.
  intros (l1 & l2 & -> & Hk & _). unfold lru_find.
  rewrite list_to_map_app, lookup_union_r by by apply not_elem_of_list_to_map.
  apply lookup_insert_eq.
Qed.

(** An operation on another key pushes [k] back by at most one place. *)
Lemma within_exec cap dttl now o k b n l :
  spares k o = true -> (S n < Z.to_nat cap)%nat -> within k b n l ->
  within k b (S n) (lru_exec cap dttl now o l).2.
Proof.
  intros Hs Hn Hw. destruct o as [k'|k' v ttl|k'|]; simpl in Hs |- *; [..|done];
    apply negb_true_iff, String.eqb_neq in Hs.
  - unfold lru_get. destruct (lru_find k' l) as [[v t]|]; simpl;
      [|by apply (within_weaken _ _ n); [lia|]].
    destruct (t <? now); simpl; [|by apply within_cons, within_remove].
    apply (within_weaken _ _ n); [lia|]. by apply within_remove.
  - unfold lru_set. apply within_take; [lia|]. by apply within_cons, within_remove.
  - apply (within_weaken _ _ n); [lia|]. by apply within_remove.
Qed.

Lemma within_run cap dttl os k b n l :
  Forall (fun o => spares k o.2 = true) os -> (n + length os < Z.to_nat cap)%nat ->
  within k b n l -> within k b (n + length os) (lru_run cap dttl os l).2.
Proof.
  revert n l. induction os as [|[now o] os IH]; intros n l Ho Hn Hw; simpl in *.
  { by rewrite Nat.add_0_r. }
  inversion Ho as [|?? Ho1 Ho2]; subst. simpl in Ho1.
  pose proof (within_exec cap dttl now o k b n l Ho1 ltac:(lia) Hw) as Hw1.
  destruct (lru_exec cap dttl now o l) as [r l1]. simpl in Hw1.
  specialize (IH (S n) l1 Ho2 ltac:(lia) Hw1).
  destruct (lru_run cap dttl os l1) as [rs l2]. simpl in *.
  by rewrite Nat.add_succ_r.
Qed.

(** A binding survives any fewer-than-capacity operations on other keys: in a
    cache reached by any history, a Set of a key followed by such operations
    and a Get of the key not later than its deadline returns the value; a Get
    after the deadline returns nothing. *)
Theorem l1_keeps_recent (cap : Z) (ttl0 : Duration) (hist os : list (Time * l1_command))
    (k : string) (v : bytes) (ttl : Duration) (now now' : Time)
    (c0 := NewL1Cache cap ttl0) (c := (l1_run hist c0).2)
    (deadline := now + if ttl <=? 0 then defaultTTL c0 else ttl) :
  Forall (fun o => spares k o.2 = true) os -> Z.of_nat (length os) < capacity c0 ->
  (Get now' (l1_run os (Set_ now c k v ttl)).2 k).1
    = (if deadline <? now' then None else Some v).
Proof.
  intros Ho Hlen. pose proof (NewL1Cache_wf cap ttl0) as Hwf0.
  assert (defaultTTL c = defaultTTL c0 /\ capacity c = capacity c0 /\ l1_wf c) as (Hd & Hc & Hwf).
  { subst c. generalize Hwf0. fold c0. generalize c0. clear. induction hist as [|[t o] hist IH];
      intros c0 Hwf; simpl; [done|].
    destruct (l1_exec_spec t o c0 Hwf) as (_ & _ & H3 & H4 & H5).
    destruct (l1_exec t o c0) as [r c1]; simpl in *. specialize (IH c1 H3).
    destruct (l1_run hist c1) as [rs c2]; simpl in *. naive_solver congruence. }
  destruct (Set_spec now c k v ttl Hwf) as (Hwf1 & Ha1 & Hc1 & Hd1).
  destruct (l1_run_spec os _ Hwf1) as (_ & Ha2 & Hwf2 & _).
  destruct (Get_spec now' _ k Hwf2) as (-> & _). rewrite Ha2, Hc1, Hd1, Ha1, Hc, Hd.
  fold deadline. unfold lru_get.
  rewrite (within_find k (v, deadline) (0 + length os)); [by destruct (deadline <? now')|].
  apply within_run; [done|lia|]. apply within_take; [lia|].
  exists [], (lru_remove k (abs c)). split_and!; [done| |done]. apply not_elem_of_nil.
Qed.

Lemma l1_keeps_recent_witness :
  (Get 25 (l1_run [(11, L1Set "b" [] 0); (12, L1Get "c")]
     (Set_ 10 (l1_run [(1, L1Set "x" [] 0)] (NewL1Cache 3 20)).2 "a" [Byte.x01] 0)).2 "a").1
  = Some [Byte.x01].
Proof.
  apply (l1_keeps_recent 3 20 [(1, L1Set "x" [] 0)] [(11, L1Set "b" [] 0); (12, L1Get "c")]
           "a" [Byte.x01] 0 10 25).
  - repeat constructor.
  - vm_compute. reflexivity.
Defined.
