(* ===== verification/Chaos.v ===== *)
(** * Fault injection: internal/chaos/faultinjector.go and endpoints.go

    The injector's state, its gRPC interceptors and the HTTP endpoints that
    drive it.  A request body arrives already decoded ([None]: the JSON decoder
    failed); the race between the injected delay and the cancellation of the
    request is an argument. *)

From S2P Require Import Prelude GoLib.

#[local] Open Scope Z_scope.

(** ** The injector *)

Record FaultInjector := mkFI {
  failed : bool;
  latencyMs : Duration;
  partitioned : gmap string bool
}.

Definition NewFaultInjector : FaultInjector := mkFI false 0 ∅.

Definition SetFailed (b : bool) (fi : FaultInjector) : FaultInjector :=
  mkFI b (latencyMs fi) (partitioned fi).
Definition IsFailed (fi : FaultInjector) : bool := failed fi.
Definition SetLatency (d : Duration) (fi : FaultInjector) : FaultInjector :=
  mkFI (failed fi) d (partitioned fi).
Definition GetLatency (fi : FaultInjector) : Duration := latencyMs fi.
Definition PartitionNode (peerID : string) (partition : bool) (fi : FaultInjector)
    : FaultInjector :=
  mkFI (failed fi) (latencyMs fi)
    (if partition then <[peerID := true]> (partitioned fi) else delete peerID (partitioned fi)).
Definition IsPartitioned (fi : FaultInjector) (peerID : string) : bool :=
  default false (partitioned fi !! peerID).
Definition Recover (fi : FaultInjector) : FaultInjector := mkFI false 0 ∅.

Record FaultStatus := mkFaultStatus {
  fs_Failed : bool;
  fs_LatencyMs : Z;
  fs_Partitioned : list string
}.

(** [ord] is the order in which Go visits the partitioned peers. *)
Definition Status (ord : list (string * bool)) (fi : FaultInjector) : FaultStatus :=
  mkFaultStatus (failed fi) (Milliseconds (latencyMs fi)) ord.*1.

(** ** Interceptors *)

Inductive rpc_error :=
  | ErrUnavailable (msg : string)
  | ErrContext                     (* ctx.Err() *)
  | ErrInternal (msg : string)     (* the codec failed *)
  | ErrUnimplemented               (* no such method *)
  | ErrHandler (msg : string).     (* an error of the handler *)

(** [cancelled] tells whether [ctx.Done()] wins the select against the delay.
    The handler runs on the state [St] and may change it. *)
Definition UnaryInterceptor {St Resp} (fi : FaultInjector) (cancelled : bool)
    (handler : St -> (rpc_error + Resp) * St) (st : St) : (rpc_error + Resp) * St :=
  if failed fi then (inl (ErrUnavailable "node is crashed (chaos engineering)"), st)
  else if (0 <? latencyMs fi) && cancelled then (inl ErrContext, st)
  else handler st.

Definition StreamInterceptor {St} (fi : FaultInjector) (cancelled : bool)
    (handler : St -> option rpc_error * St) (st : St) : option rpc_error * St :=
  if failed fi then (Some (ErrUnavailable "node is crashed (chaos engineering)"), st)
  else if (0 <? latencyMs fi) && cancelled then (Some ErrContext, st)
  else handler st.

(** ** HTTP endpoints: the status code and the new state *)

Definition StatusOK : Z := 200.
Definition StatusBadRequest : Z := 400.
Definition StatusMethodNotAllowed : Z := 405.

Definition handleFailNode (method : string) (body : option bool) (fi : FaultInjector)
    : Z * FaultInjector :=
  if negb (String.eqb method "POST") then (StatusMethodNotAllowed, fi)
  else match body with
       | None => (StatusBadRequest, fi)
       | Some b => (StatusOK, SetFailed b fi)
       end.

Definition handleSlowNode (method : string) (body : option Z) (fi : FaultInjector)
    : Z * FaultInjector :=
  if negb (String.eqb method "POST") then (StatusMethodNotAllowed, fi)
  else match body with
       | None => (StatusBadRequest, fi)
       | Some ms => (StatusOK, SetLatency (DurationOfMs ms) fi)
       end.

Definition handlePartition (method : string) (body : option (string * bool))
    (fi : FaultInjector) : Z * FaultInjector :=
  if negb (String.eqb method "POST") then (StatusMethodNotAllowed, fi)
  else match body with
       | None => (StatusBadRequest, fi)
       | Some (peerID, partition) =>
           if String.eqb peerID "" then (StatusBadRequest, fi)
           else (StatusOK, PartitionNode peerID partition fi)
       end.

Definition handleRecover (method : string) (fi : FaultInjector) : Z * FaultInjector :=
  if negb (String.eqb method "POST") then (StatusMethodNotAllowed, fi)
  else (StatusOK, Recover fi).

Definition handleStatus (method : string) (ord : list (string * bool)) (fi : FaultInjector)
    : Z * option FaultStatus :=
  if negb (String.eqb method "GET") then (StatusMethodNotAllowed, None)
  else (StatusOK, Some (Status ord fi)).

(** ** Properties *)

Inductive chaos_request :=
  | ReqFail (method : string) (body : option bool)
  | ReqSlow (method : string) (body : option Z)
  | ReqPartition (method : string) (body : option (string * bool))
  | ReqRecover (method : string).

Definition serve (fi : FaultInjector) (r : chaos_request) : Z * FaultInjector :=
  match r with
  | ReqFail m b => handleFailNode m b fi
  | ReqSlow m b => handleSlowNode m b fi
  | ReqPartition m b => handlePartition m b fi
  | ReqRecover m => handleRecover m fi
  end.

Definition serve_all (rs : list chaos_request) (fi : FaultInjector) : FaultInjector :=
  fold_left (fun fi r => (serve fi r).2) rs fi.

(** Whatever requests the chaos endpoints served before, a request they
    reject changes nothing, a crashed node answers every RPC with Unavailable
    without running its handler, and after a POST to /chaos/recover every RPC
    reaches its handler at once, no peer is partitioned and the status is
    clean. *)
Theorem chaos_gates_requests {St Resp} (rs : list chaos_request) (r : chaos_request)
    (cancelled : bool) (handler : St -> (rpc_error + Resp) * St) (st : St)
    (fi := serve_all rs NewFaultInjector) :
  ((serve fi r).1 <> StatusOK -> (serve fi r).2 = fi) /\
  (failed fi = true ->
     UnaryInterceptor fi cancelled handler st
       = (inl (ErrUnavailable "node is crashed (chaos engineering)"), st)) /\
  (let fi' := serve_all (rs ++ [ReqRecover "POST"]) NewFaultInjector in
   UnaryInterceptor fi' cancelled handler st = handler st /\
   (forall p, IsPartitioned fi' p = false) /\
   Status (map_to_list (partitioned fi')) fi' = mkFaultStatus false 0 []).
Proof.
  split_and!.
  - destruct r as [m b|m b|m b|m]; simpl;
      unfold handleFailNode, handleSlowNode, handlePartition, handleRecover;
      repeat case_match; simpl; done.
  - intros Hf. unfold UnaryInterceptor. by rewrite Hf.
  - unfold serve_all. rewrite fold_left_app. simpl. split_and!; done.
Qed.

Lemma chaos_gates_requests_witness :
  UnaryInterceptor (serve_all [ReqFail "POST" (Some true)] NewFaultInjector) false
    (fun n : nat => (@inr rpc_error nat n, S n)) 3%nat
  = (inl (ErrUnavailable "node is crashed (chaos engineering)"), 3%nat).
Proof.
  apply (chaos_gates_requests [ReqFail "POST" (Some true)] (ReqRecover "GET") false
    (fun n : nat => (@inr rpc_error nat n, S n)) 3%nat). reflexivity.
Defined.
