(* ===== verification/Replication.v ===== *)
(** * Replication: internal/cluster/replication.go

    The replication manager of one node.  The ring and the store it points to
    belong to the node and are arguments of its operations.  [ReplicateWrite]
    starts one goroutine per secondary: [outbox] holds the goroutines that have
    not run yet, and [sendReplicate] is the body of one.  [None] stands for a
    panic. *)

From S2P Require Import Prelude GoLib Store HashRing.

#[local] Open Scope Z_scope.

(** ** Messages: api/proto/messages.go *)

(** A Go [int]: a decoded request may carry any value. *)
Definition Operation : Type := Z.
Definition OpSet : Operation := 0.
Definition OpDelete : Operation := 1.

Record ReplicateRequest := mkReplicate {
  rr_Key : string;
  rr_Value : bytes;
  rr_TtlMs : Z;
  rr_Sequence : Z;
  rr_SourceNode : string;
  rr_Op : Operation
}.

(** ** State *)

Record ReplicationEvent := mkRepEvent {
  re_Key : string;
  re_Operation : Operation;
  re_Target : string;
  re_Success : bool;
  re_Timestamp : Time
}.

(** The connection to a peer is the address it was dialled at; the events
    channel has its buffer and whether it is closed. *)
Record ReplicationManager := mkRM {
  rm_selfID : string;
  replicaCount : Z;
  sequence : Z;
  peerConns : gmap string string;
  replicationEvents : list ReplicationEvent;
  eventsClosed : bool;
  outbox : list (string * ReplicateRequest)
}.

(** The capacity of the events channel. *)
Definition eventsCap : nat := 1000.

Definition NewReplicationManager (selfID : string) (replicas : Z) : ReplicationManager :=
  mkRM selfID (if replicas <? 1 then 3 else replicas) 0 ∅ [] false [].

Definition set_conns (x : gmap string string) (rm : ReplicationManager) : ReplicationManager :=
  mkRM (rm_selfID rm) (replicaCount rm) (sequence rm) x (replicationEvents rm)
    (eventsClosed rm) (outbox rm).
Definition set_events (x : list ReplicationEvent) (rm : ReplicationManager) : ReplicationManager :=
  mkRM (rm_selfID rm) (replicaCount rm) (sequence rm) (peerConns rm) x
    (eventsClosed rm) (outbox rm).
Definition set_outbox (x : list (string * ReplicateRequest)) (rm : ReplicationManager)
    : ReplicationManager :=
  mkRM (rm_selfID rm) (replicaCount rm) (sequence rm) (peerConns rm) (replicationEvents rm)
    (eventsClosed rm) x.

(** ** Placement *)

(** [make([]string, 0, len(allReplicas)-1)] panics on an empty ring. *)
Definition getSecondaries (r : Ring) (rm : ReplicationManager) (key : string) : option (list string) :=
  allReplicas ← GetNodes r key (replicaCount rm);
  if Z.of_nat (length allReplicas) - 1 <? 0 then None
  else Some (fold_left (fun secondaries nodeID =>
         if negb (String.eqb nodeID (rm_selfID rm)) then secondaries ++ [nodeID] else secondaries)
         allReplicas []).

Definition IsPrimary (r : Ring) (rm : ReplicationManager) (key : string) : option bool :=
  nodes ← GetNodes r key 1;
  Some (match nodes with [] => false | n :: _ => String.eqb n (rm_selfID rm) end).

Definition IsReplica (r : Ring) (rm : ReplicationManager) (key : string) : option bool :=
  nodes ← GetNodes r key (replicaCount rm);
  Some (existsb (fun n => String.eqb n (rm_selfID rm)) nodes).

Definition GetPrimary (r : Ring) (key : string) : option (option string) :=
  nodes ← GetNodes r key 1; Some (head nodes).

Definition GetReplicaSet (r : Ring) (rm : ReplicationManager) (key : string) : option (list string) :=
  GetNodes r key (replicaCount rm).

(** ** Writes *)

(** The sequence number is drawn and one goroutine started per secondary. *)
Definition replicate_to (replicas : list string) (req : Z -> ReplicateRequest)
    (rm : ReplicationManager) : ReplicationManager :=
  match replicas with
  | [] => rm
  | _ =>
      let seq := u64 (sequence rm + 1) in
      mkRM (rm_selfID rm) (replicaCount rm) seq (peerConns rm) (replicationEvents rm)
        (eventsClosed rm) (outbox rm ++ ((fun nodeID => (nodeID, req seq)) <$> replicas))
  end.

Definition ReplicateWrite (r : Ring) (key : string) (value : bytes) (ttlMs : Z)
    (rm : ReplicationManager) : option ReplicationManager :=
  replicas ← getSecondaries r rm key;
  Some (replicate_to replicas
          (fun seq => mkReplicate key value ttlMs seq (rm_selfID rm) OpSet) rm).

Definition ReplicateDelete (r : Ring) (key : string) (rm : ReplicationManager)
    : option ReplicationManager :=
  replicas ← getSecondaries r rm key;
  Some (replicate_to replicas (fun seq => mkReplicate key [] 0 seq (rm_selfID rm) OpDelete) rm).

(** A send on the closed channel panics; a full one drops the event. *)
Definition emitEvent (event : ReplicationEvent) (rm : ReplicationManager)
    : option ReplicationManager :=
  if eventsClosed rm then None
  else if (length (replicationEvents rm) <? eventsCap)%nat
       then Some (set_events (replicationEvents rm ++ [event]) rm)
       else Some rm.

(** [invoke] is the call to the peer: its effect on the rest of the system and
    whether it succeeded. *)
Definition sendReplicate {St} (invoke : string -> ReplicateRequest -> St -> bool * St) (now : Time)
    (nodeID : string) (req : ReplicateRequest) (rm : ReplicationManager) (st : St)
    : option ReplicationManager * St :=
  let event success := mkRepEvent (rr_Key req) (rr_Op req) nodeID success now in
  match peerConns rm !! nodeID with
  | None => (emitEvent (event false) rm, st)
  | Some _ =>
      let '(ok, st) := invoke nodeID req st in
      (emitEvent (event ok) rm, st)
  end.

(** ** Peers *)

Definition GetPeerConn (rm : ReplicationManager) (nodeID : string) : option string :=
  peerConns rm !! nodeID.

(** [dial] tells whether the address could be dialled; the result is the error. *)
Definition ConnectToPeer (dial : string -> bool) (nodeID addr : string) (rm : ReplicationManager)
    : option string * ReplicationManager :=
  match peerConns rm !! nodeID with
  | Some _ => (None, rm)
  | None =>
      if dial addr then (None, set_conns (<[nodeID := addr]> (peerConns rm)) rm)
      else (Some "dialing", rm)
  end.

Definition DisconnectPeer (nodeID : string) (rm : ReplicationManager) : ReplicationManager :=
  set_conns (delete nodeID (peerConns rm)) rm.

Definition Close (rm : ReplicationManager) : option ReplicationManager :=
  if eventsClosed rm then None
  else Some (mkRM (rm_selfID rm) (replicaCount rm) (sequence rm) ∅ (replicationEvents rm) true
               (outbox rm)).

(** ** Failures *)

(** The callback of the loop over the store. *)
Definition rereplicate_key (r : Ring) (key : string) (value : bytes) (ttl : Duration)
    (rm : option ReplicationManager) : bool * option ReplicationManager :=
  (true,
   rm ← rm; primary ← IsPrimary r rm key;
   if primary : bool then ReplicateWrite r key value (Milliseconds ttl) rm else Some rm).

(** [now] and [ords]: the clock and the visit orders of the store's [ForEach]. *)
Definition reReplicateForDeadNode (now : Time) (ords : list (list (string * Entry))) (r : Ring)
    (rm : ReplicationManager) : option ReplicationManager :=
  ForEach (rereplicate_key r) now ords (Some rm).

Definition HandleNodeFailure (now : Time) (ords : list (list (string * Entry))) (r : Ring)
    (deadNodeID : string) (rm : ReplicationManager) : option ReplicationManager :=
  reReplicateForDeadNode now ords r (set_conns (delete deadNodeID (peerConns rm)) rm).

(** ** Placement, through the order the ring prefers *)

(** The count the constructor leaves. *)
Definition rm_wf (rm : ReplicationManager) : Prop := 1 <= replicaCount rm.

Lemma NewReplicationManager_wf id n : rm_wf (NewReplicationManager id n).
Proof. unfold rm_wf. simpl. destruct (Z.ltb_spec n 1); lia. Qed.

(** The replicas of a key in the eyes of a node. *)
Definition replicas (r : Ring) (rm : ReplicationManager) (key : string) : list string :=
  take (Z.to_nat (replicaCount rm)) (preference r key).

Lemma GetNodes_replica_list r rm key :
  ring_wf r -> rm_wf rm -> GetNodes r key (replicaCount rm) = Some (replicas r rm key).
Proof. intros Hr Hrm. apply GetNodes_preference; [done|]. unfold rm_wf in Hrm. lia. Qed.

Lemma GetPrimary_spec r key : ring_wf r -> GetPrimary r key = Some (head (preference r key)).
Proof.
  intros Hr. unfold GetPrimary. rewrite GetNodes_preference by (done || lia). simpl.
  by destruct (preference r key).
Qed.

Lemma IsPrimary_spec r rm key :
  ring_wf r ->
  IsPrimary r rm key = Some (bool_decide (head (preference r key) = Some (rm_selfID rm))).
Proof.
  intros Hr. unfold IsPrimary. rewrite GetNodes_preference by (done || lia). simpl.
  f_equal. destruct (preference r key) as [|n l]; simpl; [done|].
  destruct (String.eqb_spec n (rm_selfID rm)) as [->|Hne].
  - by rewrite bool_decide_true.
  - rewrite bool_decide_false; congruence.
Qed.

Lemma IsReplica_spec r rm key :
  ring_wf r -> rm_wf rm ->
  IsReplica r rm key = Some (bool_decide (rm_selfID rm ∈ replicas r rm key)).
Proof.
  intros Hr Hrm. unfold IsReplica. rewrite GetNodes_replica_list by done. simpl. f_equal.
  apply eq_iff_eq_true. rewrite bool_decide_eq_true, existsb_exists.
  setoid_rewrite String.eqb_eq. setoid_rewrite <- list_elem_of_In. naive_solver.
Qed.

Lemma getSecondaries_spec r rm key :
  ring_wf r -> rm_wf rm -> preference r key <> [] ->
  getSecondaries r rm key = Some (filter (fun n => n <> rm_selfID rm) (replicas r rm key)).
Proof.
  intros Hr Hrm Hne. unfold getSecondaries. rewrite GetNodes_replica_list by done. simpl.
  unfold rm_wf in Hrm.
  assert ((1 <= length (replicas r rm key))%nat) as Hl.
  { unfold replicas. rewrite length_take. destruct (preference r key); [done|]. simpl. lia. }
  destruct (Z.ltb_spec (Z.of_nat (length (replicas r rm key)) - 1) 0); [lia|]. f_equal.
  rewrite (fold_left_collect (fun n => negb (String.eqb n (rm_selfID rm))) (fun n => n)).
  simpl. rewrite list_fmap_id. apply list_filter_ext_in. intros n _.
  destruct (String.eqb_spec n (rm_selfID rm)); simpl; naive_solver.
Qed.

(** What a write starts: a request to every other replica, all with the same
    new sequence number. *)
Lemma ReplicateWrite_spec r rm key v ttl :
  ring_wf r -> rm_wf rm -> preference r key <> [] ->
  exists rm', ReplicateWrite r key v ttl rm = Some rm' /\
    rm_selfID rm' = rm_selfID rm /\ replicaCount rm' = replicaCount rm /\
    peerConns rm' = peerConns rm /\ eventsClosed rm' = eventsClosed rm /\
    replicationEvents rm' = replicationEvents rm /\
    outbox rm' = outbox rm ++
      ((fun n => (n, mkReplicate key v ttl (u64 (sequence rm + 1)) (rm_selfID rm) OpSet)) <$>
        filter (fun n => n <> rm_selfID rm) (replicas r rm key)).
Proof.
  intros Hr Hrm Hne. unfold ReplicateWrite. rewrite getSecondaries_spec by done. simpl.
  eexists. split; [done|]. unfold replicate_to.
  destruct (filter _ (replicas r rm key)); simpl; [|done]. by rewrite app_nil_r.
Qed.
