(* ===== verification/Registry.v ===== *)
(** * The node registry: internal/cluster/node.go

    Nodes are shared through pointers: the registry maps an ID to a [*NodeInfo],
    [Membership] keeps a pointer to its own node, and a status written through
    one pointer is read through the other.  The model has a heap of [NodeInfo]
    values; a pointer is a location of it.  [wf] is the registry's invariant. *)

From S2P Require Import Prelude GoLib.

#[local] Open Scope Z_scope.

(** ** Node status

    A Go [int]: a decoded message may carry any value. *)

Definition NodeStatus : Type := Z.
Definition StatusAlive : NodeStatus := 0.
Definition StatusSuspect : NodeStatus := 1.
Definition StatusDead : NodeStatus := 2.
Definition StatusLeft : NodeStatus := 3.

Definition status_String (s : NodeStatus) : string :=
  if s =? StatusAlive then "ALIVE"
  else if s =? StatusSuspect then "SUSPECT"
  else if s =? StatusDead then "DEAD"
  else if s =? StatusLeft then "LEFT"
  else "UNKNOWN".

(** ** Nodes and the heap they live in *)

Record NodeInfo := mkNode {
  ID : string;
  GRPCAddr : string;
  GossipAddr : string;
  HTTPAddr : string;
  Status : NodeStatus;
  Incarnation : Z;
  JoinedAt : Time;
  LastSeen : Time
}.

Abbreviation loc := nat.
Abbreviation heap := (gmap loc NodeInfo).

Definition NewNodeInfo (now : Time) (id grpcAddr gossipAddr httpAddr : string) : NodeInfo :=
  mkNode id grpcAddr gossipAddr httpAddr StatusAlive 0 now now.

Definition GetStatus (n : NodeInfo) : NodeStatus := Status n.
Definition IsAlive (n : NodeInfo) : bool := GetStatus n =? StatusAlive.
(** [Clone] is a copy at a new address: by value, the same fields. *)
Definition Clone (n : NodeInfo) : NodeInfo :=
  mkNode (ID n) (GRPCAddr n) (GossipAddr n) (HTTPAddr n) (Status n) (Incarnation n)
    (JoinedAt n) (LastSeen n).

Definition with_status (s : NodeStatus) (n : NodeInfo) : NodeInfo :=
  mkNode (ID n) (GRPCAddr n) (GossipAddr n) (HTTPAddr n) s (Incarnation n) (JoinedAt n) (LastSeen n).
Definition with_incarnation (i : Z) (n : NodeInfo) : NodeInfo :=
  mkNode (ID n) (GRPCAddr n) (GossipAddr n) (HTTPAddr n) (Status n) i (JoinedAt n) (LastSeen n).
Definition with_last_seen (t : Time) (n : NodeInfo) : NodeInfo :=
  mkNode (ID n) (GRPCAddr n) (GossipAddr n) (HTTPAddr n) (Status n) (Incarnation n) (JoinedAt n) t.

Definition SetStatus (s : NodeStatus) (l : loc) (h : heap) : heap := alter (with_status s) l h.
Definition SetIncarnation (i : Z) (l : loc) (h : heap) : heap := alter (with_incarnation i) l h.
Definition Touch (now : Time) (l : loc) (h : heap) : heap := alter (with_last_seen now) l h.

(** A composite literal allocates at an address no pointer holds. *)
Definition alloc (n : NodeInfo) (h : heap) : loc * heap :=
  let l := fresh (dom h) in (l, <[l := n]> h).

(** ** The registry *)

Record NodeRegistry := mkRegistry {
  nodes : gmap string loc;
  self : string
}.

Definition NewNodeRegistry (selfID : string) : NodeRegistry := mkRegistry ∅ selfID.

(** [Register(info)] files the pointer under the ID it points to. *)
Definition Register (h : heap) (l : loc) (nr : NodeRegistry) : NodeRegistry :=
  match h !! l with
  | Some info => mkRegistry (<[ID info := l]> (nodes nr)) (self nr)
  | None => nr
  end.

Definition Remove (nodeID : string) (nr : NodeRegistry) : NodeRegistry :=
  mkRegistry (delete nodeID (nodes nr)) (self nr).

(** The pointer and the fields it points to at that moment. *)
Definition Get (h : heap) (nr : NodeRegistry) (nodeID : string) : option (loc * NodeInfo) :=
  l ← nodes nr !! nodeID; info ← h !! l; Some (l, info).

(** [ord]: the order in which Go's [range] visits the map. *)
Definition GetAll (h : heap) (ord : list (string * loc)) : list NodeInfo :=
  fold_left (fun result e =>
    match h !! e.2 with Some info => result ++ [Clone info] | None => result end) ord [].

Definition GetAlive (h : heap) (ord : list (string * loc)) : list NodeInfo :=
  fold_left (fun result e =>
    match h !! e.2 with
    | Some info => if GetStatus info =? StatusAlive then result ++ [Clone info] else result
    | None => result
    end) ord [].

Definition Size (nr : NodeRegistry) : nat := size (nodes nr).
Definition SelfID (nr : NodeRegistry) : string := self nr.

(** ** Invariant *)

(** Every pointer of the registry is allocated and points to a node with the
    ID it is filed under. *)
Definition wf (h : heap) (nr : NodeRegistry) : Prop :=
  forall id l, nodes nr !! id = Some l -> exists n, h !! l = Some n /\ ID n = id.

(** What the registry knows of a node. *)
Definition info (h : heap) (nr : NodeRegistry) (id : string) : option NodeInfo :=
  snd <$> Get h nr id.

Lemma Get_Some h nr id l n :
  Get h nr id = Some (l, n) <-> nodes nr !! id = Some l /\ h !! l = Some n.
Proof.
  unfold Get. destruct (nodes nr !! id) as [l'|]; simpl; [|naive_solver].
  destruct (h !! l') as [n'|] eqn:E; simpl; naive_solver.
Qed.

Lemma info_Some h nr id n : info h nr id = Some n <-> exists l, Get h nr id = Some (l, n).
Proof.
  unfold info. destruct (Get h nr id) as [[l n']|]; simpl; naive_solver.
Qed.

Lemma Get_inj h nr id1 id2 l n1 n2 :
  wf h nr -> Get h nr id1 = Some (l, n1) -> Get h nr id2 = Some (l, n2) -> id1 = id2.
Proof.
  intros Hwf [H1 H1']%Get_Some [H2 H2']%Get_Some.
  destruct (Hwf _ _ H1) as (m1 & E1 & <-), (Hwf _ _ H2) as (m2 & E2 & <-). congruence.
Qed.

(** A write through a registered pointer is seen under that ID and no other. *)
Lemma info_alter h nr id l n f :
  wf h nr -> Get h nr id = Some (l, n) -> (forall n, ID (f n) = ID n) ->
  wf (alter f l h) nr /\
  forall id', info (alter f l h) nr id' = if decide (id' = id) then Some (f n) else info h nr id'.
Proof.
  intros Hwf HG Hf. pose proof (proj1 (Get_Some _ _ _ _ _) HG) as [Hl Hh]. split.
  - intros id' l' Hl'. destruct (Hwf _ _ Hl') as (n' & Hn' & Hid).
    destruct (decide (l = l')) as [<-|Hne].
    + exists (f n'). by rewrite lookup_alter_eq, Hn', Hf.
    + exists n'. by rewrite lookup_alter_ne.
  - intros id'. unfold info, Get. case_decide as Hid.
    + subst id'. rewrite Hl. simpl. by rewrite lookup_alter_eq, Hh.
    + destruct (nodes nr !! id') as [l'|] eqn:E; [|done]. simpl.
      rewrite lookup_alter_ne; [done|]. intros <-.
      destruct (Hwf _ _ E) as (n' & Hn' & Hn'id). apply Hid.
      by apply (Get_inj h nr id' id l n' n Hwf); [apply Get_Some|].
Qed.

Lemma info_register h nr n :
  wf h nr ->
  let '(l, h') := alloc n h in
  wf h' (Register h' l nr) /\
  forall id', info h' (Register h' l nr) id'
    = if decide (id' = ID n) then Some n else info h nr id'.
Proof.
  intros Hwf. unfold alloc. set (l := fresh (dom h)).
  assert (h !! l = None) as Hl by (apply not_elem_of_dom; apply is_fresh).
  unfold Register. rewrite lookup_insert_eq. split.
  - intros id' l'. simpl. destruct (decide (id' = ID n)) as [->|Hne].
    + rewrite lookup_insert_eq. intros [= <-]. exists n. by rewrite lookup_insert_eq.
    + rewrite lookup_insert_ne by done. intros H. destruct (Hwf _ _ H) as (n' & Hn' & Hid).
      exists n'. rewrite lookup_insert_ne; [done|]. intros ->. congruence.
  - intros id'. unfold info, Get. simpl. case_decide as Hid.
    + subst. rewrite lookup_insert_eq. simpl. by rewrite lookup_insert_eq.
    + rewrite lookup_insert_ne by done.
      destruct (nodes nr !! id') as [l'|] eqn:E; [|done]. simpl.
      rewrite lookup_insert_ne; [done|]. intros <-.
      destruct (Hwf _ _ E) as (n' & Hn' & _). congruence.
Qed.

Lemma info_ID h nr id n : wf h nr -> info h nr id = Some n -> ID n = id.
Proof.
  intros Hwf [l [Hl Hn]%Get_Some]%info_Some. destruct (Hwf _ _ Hl) as (n' & ? & ?). congruence.
Qed.

Lemma Clone_id n : Clone n = n.
Proof. by destruct n. Qed.

(** [GetAll] lists exactly the registered nodes. *)
Lemma elem_of_GetAll h nr ord n :
  is_range (nodes nr) ord ->
  n ∈ GetAll h ord <-> exists id, info h nr id = Some n.
Proof.
  intros Hr. unfold GetAll.
  assert (forall acc, n ∈ fold_left (fun result e =>
    match h !! e.2 with Some info => result ++ [Clone info] | None => result end) ord acc
    <-> n ∈ acc \/ exists e, e ∈ ord /\ h !! (e.2) = Some n) as ->.
  { clear. induction ord as [|e ord IH]; intros acc; simpl; [set_solver|].
    rewrite IH. destruct (h !! e.2) as [n'|] eqn:E; [rewrite Clone_id|]; set_solver. }
  split.
  - intros [[]%elem_of_nil|([id l] & Hin & Hn)]. exists id. apply info_Some. exists l.
    apply Get_Some. split; [|done]. by apply (is_range_elem _ ord).
  - intros [id [l [Hl Hn]%Get_Some]%info_Some]. right. exists (id, l). split; [|done].
    by apply (is_range_elem (nodes nr) ord).
Qed.

#[export] Hint Resolve info_ID : cache.
