(* ===== verification/Gossip.v ===== *)
(** * Gossip messages and the update queue: internal/cluster/membership.go

    The SWIM messages and the queue of membership updates that are piggybacked
    on pings and acks.  A message is the value the JSON codec carries: what one
    node marshals is what the other unmarshals.

    [disseminated] shows that the queue sends every update three times and
    then forgets it, whatever the queue holds. *)

From S2P Require Import Prelude GoLib Registry.

#[local] Open Scope Z_scope.

(** ** Messages *)

Definition MessageType : Type := Z.
Definition MsgPing : MessageType := 1.
Definition MsgAck : MessageType := 2.
Definition MsgPingReq : MessageType := 3.
Definition MsgJoin : MessageType := 4.

Record MembershipUpdate := mkUpdate {
  u_NodeID : string;
  u_GRPCAddr : string;
  u_GossipAddr : string;
  u_HTTPAddr : string;
  u_Status : NodeStatus;
  u_Incarnation : Z
}.

Record SwimMessage := mkMsg {
  Type_ : MessageType;
  SenderID : string;
  SenderAddr : string;
  TargetID : string;
  msg_Incarnation : Z;
  Updates : list MembershipUpdate
}.

Inductive MembershipEventType := EventJoin | EventAlive | EventSuspect | EventDead | EventLeft.

Record MembershipEvent := mkEvent {
  ev_Type : MembershipEventType;
  ev_NodeID : string
}.

#[global] Instance MembershipUpdate_eq_dec : EqDecision MembershipUpdate.
Proof. solve_decision. Defined.

(** ** The queue *)

Definition maxPiggybackUpdates : nat := 10.

Record queuedUpdate := mkQueued {
  update : MembershipUpdate;
  sentCount : Z
}.

(** The loop of [queueUpdate]: the first entry of the same node is replaced
    when the update is not older; without one the update is appended. *)
Fixpoint enqueue (u : MembershipUpdate) (queue : list queuedUpdate) : list queuedUpdate :=
  match queue with
  | [] => [mkQueued u 0]
  | q :: rest =>
      if String.eqb (u_NodeID (update q)) (u_NodeID u) then
        if u_Incarnation (update q) <=? u_Incarnation u then mkQueued u 0 :: rest else q :: rest
      else q :: enqueue u rest
  end.

(** The loop of [drainUpdates], with the two slices it fills. *)
Fixpoint drain_loop (queue : list queuedUpdate) (updates : list MembershipUpdate)
    (active : list queuedUpdate) : list MembershipUpdate * list queuedUpdate :=
  match queue with
  | [] => (updates, active)
  | q :: rest =>
      let '(updates, q) :=
        if (length updates <? maxPiggybackUpdates)%nat
        then (updates ++ [update q], mkQueued (update q) (sentCount q + 1))
        else (updates, q) in
      drain_loop rest updates (if sentCount q <? 3 then active ++ [q] else active)
  end.

Definition drain (queue : list queuedUpdate) : list MembershipUpdate * list queuedUpdate :=
  match queue with
  | [] => ([], [])
  | _ => drain_loop queue [] []
  end.

(** ** Invariant: one entry per node, each sent fewer than three times *)

Definition queue_ids (queue : list queuedUpdate) : list string :=
  (fun q => u_NodeID (update q)) <$> queue.

Definition queue_wf (queue : list queuedUpdate) : Prop :=
  NoDup (queue_ids queue) /\ Forall (fun q => 0 <= sentCount q < 3) queue.

Lemma elem_of_enqueue_ids u queue id :
  id ∈ queue_ids (enqueue u queue) <-> id = u_NodeID u \/ id ∈ queue_ids queue.
Proof.
  unfold queue_ids. induction queue as [|q queue IH]; csimpl; [set_solver|].
  destruct (String.eqb_spec (u_NodeID (update q)) (u_NodeID u)) as [E|E].
  - destruct (_ <=? _); csimpl; rewrite ?E; set_solver.
  - csimpl. rewrite !elem_of_cons, IH. tauto.
Qed.

Lemma enqueue_wf u queue : queue_wf queue -> queue_wf (enqueue u queue).
Proof.
  unfold queue_wf. induction queue as [|q queue IH]; intros [Hnd Hs].
  { split; [apply NoDup_singleton|]. repeat constructor; simpl; lia. }
  apply NoDup_cons in Hnd as [Hq Hnd]. apply Forall_cons in Hs as [Hq3 Hs]. simpl.
  destruct (String.eqb_spec (u_NodeID (update q)) (u_NodeID u)) as [E|E].
  - destruct (_ <=? _); (split; [apply NoDup_cons|apply Forall_cons]); csimpl;
      rewrite <- ?E; try done.
  - destruct IH as [IH1 IH2]; [done|]. split; [|by apply Forall_cons].
    apply NoDup_cons. split; [|done]. fold (queue_ids (enqueue u queue)).
    rewrite elem_of_enqueue_ids. intros [?|?]; [congruence|done].
Qed.

(** The update a node's entry carries after [enqueue]. *)
Lemma enqueue_carries u queue :
  (forall q, q ∈ queue -> u_NodeID (update q) = u_NodeID u ->
     u_Incarnation (update q) <= u_Incarnation u) ->
  mkQueued u 0 ∈ enqueue u queue.
Proof.
  induction queue as [|q queue IH]; intros Hle; simpl; [left|].
  destruct (String.eqb_spec (u_NodeID (update q)) (u_NodeID u)) as [E|E].
  - destruct (Z.leb_spec (u_Incarnation (update q)) (u_Incarnation u)) as [|Hlt]; [left|].
    specialize (Hle q ltac:(left) E). lia.
  - right. apply IH. intros q' Hq'. apply Hle. by right.
Qed.

Lemma elem_of_enqueue u queue q : q ∈ enqueue u queue -> q = mkQueued u 0 \/ q ∈ queue.
Proof.
  induction queue as [|q' queue IH]; simpl; [set_solver|].
  destruct (String.eqb _ _); [destruct (_ <=? _)|]; set_solver.
Qed.

(** ** What a drain does *)

(** An entry after one more transmission; [None] when it is discarded. *)
Definition age (q : queuedUpdate) : option queuedUpdate :=
  if sentCount q + 1 <? 3 then Some (mkQueued (update q) (sentCount q + 1)) else None.

Lemma drain_loop_eq queue updates active :
  Forall (fun q => sentCount q < 3) queue -> (length updates <= maxPiggybackUpdates)%nat ->
  drain_loop queue updates active
  = (updates ++ (update <$> take (maxPiggybackUpdates - length updates) queue),
     active ++ omap age (take (maxPiggybackUpdates - length updates) queue)
       ++ drop (maxPiggybackUpdates - length updates) queue).
Proof.
  revert updates active. induction queue as [|q queue IH]; intros updates active Hs Hl; simpl.
  { by rewrite take_nil, drop_nil, !app_nil_r. }
  apply Forall_cons in Hs as [Hq Hs].
  destruct (Nat.ltb_spec (length updates) maxPiggybackUpdates) as [Hlt|Hge].
  - rewrite IH by (try done; rewrite length_app; simpl; lia).
    rewrite length_app. simpl.
    replace (maxPiggybackUpdates - length updates)%nat
      with (S (maxPiggybackUpdates - (length updates + 1)))%nat by lia.
    simpl. unfold age at 2. rewrite <- app_assoc. f_equal.
    destruct (sentCount q + 1 <? 3); [|done]. by rewrite <- app_assoc.
  - rewrite IH by done. replace (maxPiggybackUpdates - length updates)%nat with 0%nat by lia.
    simpl. destruct (Z.ltb_spec (sentCount q) 3); [|lia]. by rewrite <- app_assoc.
Qed.

Lemma drain_eq queue :
  queue_wf queue ->
  drain queue = (update <$> take maxPiggybackUpdates queue,
                 omap age (take maxPiggybackUpdates queue) ++ drop maxPiggybackUpdates queue).
Proof.
  intros [_ Hs]. destruct queue as [|q queue]; [done|]. unfold drain.
  rewrite drain_loop_eq; [done| |simpl; lia]. eapply Forall_impl; [exact Hs|]. simpl. lia.
Qed.

Lemma elem_of_drained queue q :
  queue_wf queue -> q ∈ (drain queue).2 ->
  exists q', q' ∈ queue /\ update q = update q' /\ sentCount q' <= sentCount q < 3.
Proof.
  intros Hwf. rewrite drain_eq by done. destruct Hwf as [_ Hs]. simpl.
  rewrite Forall_forall in Hs.
  rewrite elem_of_app, list_elem_of_omap. intros [(q' & Hq' & Ha)|Hq].
  - unfold age in Ha. exists q'. case_match eqn:E; [|done]. simplify_eq. simpl.
    apply Z.ltb_lt in E. split; [|split; [done|lia]].
    by eapply elem_of_sublist; [|apply sublist_take].
  - apply list_elem_of_lookup in Hq as [i Hi]. rewrite lookup_drop in Hi.
    apply list_elem_of_lookup_2 in Hi. exists q. split; [done|]. split; [done|].
    specialize (Hs q Hi). lia.
Qed.

Lemma queue_ids_omap_age queue : queue_ids (omap age queue) `sublist_of` queue_ids queue.
Proof.
  induction queue as [|q queue IH]; [constructor|]. csimpl. unfold age at 1.
  destruct (_ <? _); csimpl; by constructor.
Qed.

Lemma drain_wf queue : queue_wf queue -> queue_wf (drain queue).2.
Proof.
  intros Hwf. pose proof Hwf as [Hnd Hs]. split.
  - rewrite drain_eq by done. simpl. eapply sublist_NoDup; [exact Hnd|].
    rewrite <- (take_drop maxPiggybackUpdates queue) at 3.
    unfold queue_ids at 1. rewrite fmap_app. unfold queue_ids at 1. rewrite fmap_app.
    apply sublist_app; [apply queue_ids_omap_age|done].
  - apply Forall_forall. intros q Hq.
    destruct (elem_of_drained queue q Hwf Hq) as (q' & Hq' & _ & Hle).
    rewrite Forall_forall in Hs. specialize (Hs q' Hq'). lia.
Qed.

(** ** Dissemination *)

(** What [n] drains in a row send, and the queue they leave. *)
Fixpoint drains (n : nat) (queue : list queuedUpdate) : list (list MembershipUpdate) * list queuedUpdate :=
  match n with
  | O => ([], queue)
  | S n =>
      let '(updates, queue) := drain queue in
      let '(batches, queue) := drains n queue in
      (updates :: batches, queue)
  end.

Definition occurrences (u : MembershipUpdate) (l : list MembershipUpdate) : nat :=
  length (filter (fun u' => u' = u) l).

(** The transmissions still due to the entries that satisfy [P]. *)
Definition due (P : queuedUpdate -> bool) (queue : list queuedUpdate) : Z :=
  foldr (fun q d => (if P q then 3 - sentCount q else 0) + d) 0 queue.

Definition carries (u : MembershipUpdate) (q : queuedUpdate) : bool := bool_decide (update q = u).

Lemma due_cons P q l : due P (q :: l) = (if P q then 3 - sentCount q else 0) + due P l.
Proof. done. Qed.

Lemma due_app P l1 l2 : due P (l1 ++ l2) = due P l1 + due P l2.
Proof. induction l1 as [|q l1 IH]; simpl; [done|]. rewrite IH. lia. Qed.

Lemma due_nonneg P queue : Forall (fun q => 0 <= sentCount q < 3) queue -> 0 <= due P queue.
Proof. induction 1 as [|q queue Hq _ IH]; simpl; [lia|]. destruct (P q); lia. Qed.

(** Ageing pays each due transmission off with one occurrence. *)
Lemma due_age u queue :
  Forall (fun q => 0 <= sentCount q < 3) queue ->
  due (carries u) (omap age queue) + Z.of_nat (occurrences u (update <$> queue))
  = due (carries u) queue.
Proof.
  unfold occurrences. induction 1 as [|q queue Hq _ IH]; [done|]. csimpl.
  rewrite filter_cons. rewrite <- IH. clear IH.
  assert (carries u (mkQueued (update q) (sentCount q + 1)) = carries u q) as Hc by done.
  destruct (carries u q) eqn:E;
    [apply bool_decide_eq_true in E; rewrite decide_True by done
    |apply bool_decide_eq_false in E; rewrite decide_False by done];
    unfold age at 1; destruct (Z.ltb_spec (sentCount q + 1) 3); rewrite ?due_cons, ?Hc;
    cbn [length sentCount]; lia.
Qed.

Lemma due_age_total queue :
  Forall (fun q => 0 <= sentCount q < 3) queue ->
  due (fun _ => true) (omap age queue) + Z.of_nat (length queue) = due (fun _ => true) queue.
Proof.
  induction 1 as [|q queue Hq _ IH]; [done|]. csimpl. rewrite <- IH. unfold age at 1.
  destruct (Z.ltb_spec (sentCount q + 1) 3); simpl; lia.
Qed.

Lemma drain_due u queue :
  queue_wf queue ->
  due (carries u) (drain queue).2 + Z.of_nat (occurrences u (drain queue).1)
  = due (carries u) queue.
Proof.
  intros Hwf. rewrite drain_eq by done. simpl.
  rewrite <- (take_drop maxPiggybackUpdates queue) at 4. rewrite !due_app.
  rewrite <- (due_age u (take maxPiggybackUpdates queue)); [lia|].
  apply Forall_take, Hwf.
Qed.

Lemma drain_progress queue :
  queue_wf queue -> queue <> [] ->
  due (fun _ => true) (drain queue).2 < due (fun _ => true) queue.
Proof.
  intros Hwf Hne. rewrite drain_eq by done. simpl.
  rewrite <- (take_drop maxPiggybackUpdates queue) at 3. rewrite !due_app.
  rewrite <- (due_age_total (take maxPiggybackUpdates queue)) by apply Forall_take, Hwf.
  destruct queue as [|q queue]; [done|]. simpl. lia.
Qed.

Lemma drains_due n u queue :
  queue_wf queue ->
  let '(batches, rest) := drains n queue in
  queue_wf rest /\
  due (carries u) rest + Z.of_nat (occurrences u (concat batches)) = due (carries u) queue /\
  Forall (fun b => (length b <= maxPiggybackUpdates)%nat) batches.
Proof.
  revert queue. induction n as [|n IH]; intros queue Hwf; simpl.
  { unfold occurrences. simpl. split_and!; [done|lia|constructor]. }
  destruct (drain queue) as [updates queue'] eqn:Ed.
  pose proof (drain_wf queue Hwf) as Hwf'. pose proof (drain_due u queue Hwf) as Hd.
  pose proof (drain_eq queue Hwf) as He. rewrite Ed in *. simpl in *.
  specialize (IH queue' Hwf'). destruct (drains n queue') as [batches rest].
  destruct IH as (Hr & Hdue & Hb). split_and!; [done| |].
  - revert Hd Hdue. unfold occurrences. simpl. rewrite filter_app, length_app. lia.
  - constructor; [|done]. simplify_eq. rewrite length_fmap, length_take. lia.
Qed.

Lemma drains_empty n queue :
  queue_wf queue -> due (fun _ => true) queue <= Z.of_nat n -> (drains n queue).2 = [].
Proof.
  revert queue. induction n as [|n IH]; intros queue Hwf Hd; simpl.
  - destruct queue as [|q queue]; [done|]. exfalso. destruct Hwf as [_ Hs].
    apply Forall_cons in Hs as [Hq Hs]. pose proof (due_nonneg (fun _ => true) queue Hs).
    simpl in Hd. lia.
  - destruct (drain queue) as [updates queue'] eqn:Ed.
    assert ((drains n queue').2 = []) as Hn.
    { apply IH; [by pose proof (drain_wf queue Hwf) as Hw; rewrite Ed in Hw|].
      destruct (decide (length queue = 0%nat)) as [->%nil_length_inv|Hne]; [simplify_eq/=; lia|].
      assert (queue <> []) as Hq by (by intros ->).
      pose proof (drain_progress queue Hwf Hq) as Hp. rewrite Ed in Hp. simpl in Hp. lia. }
    by destruct (drains n queue').
Qed.

Lemma due_own queue q :
  queue_wf queue -> q ∈ queue -> due (carries (update q)) queue = 3 - sentCount q.
Proof.
  intros [Hnd Hs] Hq. induction queue as [|q' queue IH]; [by apply elem_of_nil in Hq|].
  apply NoDup_cons in Hnd as [Hnin Hnd]. apply Forall_cons in Hs as [_ Hs]. simpl.
  assert (forall q0, u_NodeID (update q0) ∉ queue_ids queue -> due (carries (update q0)) queue = 0)
    as Hzero.
  { clear. induction queue as [|q1 queue IH]; intros q0 Hq0; [done|]. simpl.
    rewrite IH by set_solver. unfold carries. rewrite bool_decide_false; [done|].
    intros E. apply Hq0. rewrite <- E. left. }
  apply elem_of_cons in Hq as [->|Hq].
  - unfold carries at 1. rewrite bool_decide_true by done. rewrite Hzero by done. lia.
  - rewrite IH by done. unfold carries. rewrite bool_decide_false; [lia|].
    intros E. apply Hnin. rewrite E. by apply (list_elem_of_fmap_2 (fun q => u_NodeID (update q))).
Qed.

Lemma due_bound queue : queue_wf queue -> due (fun _ => true) queue <= Z.of_nat (3 * length queue).
Proof.
  intros [_ Hs]. induction Hs as [|q queue Hq _ IH]; simpl; [lia|]. simpl in IH. lia.
Qed.

(** C34: the gossip queue disseminates every update exactly three times: from
    any queue the operations can build, after at most three drains per entry
    the queue is empty, an entry already sent [sentCount] times has gone out
    [3 - sentCount] more times, and no message carried more than ten updates. *)
Theorem disseminated (queue : list queuedUpdate) (n : nat) :
  queue_wf queue -> (3 * length queue <= n)%nat ->
  let '(batches, rest) := drains n queue in
  rest = [] /\
  Forall (fun b => (length b <= maxPiggybackUpdates)%nat) batches /\
  forall q, q ∈ queue ->
    Z.of_nat (occurrences (update q) (concat batches)) = 3 - sentCount q.
Proof.
  intros Hwf Hn.
  assert ((drains n queue).2 = []) as He
    by (apply drains_empty; [done|]; pose proof (due_bound queue Hwf); lia).
  destruct (drains n queue) as [batches rest] eqn:E. simpl in He. subst rest.
  split_and!; [done| |].
  - pose proof (drains_due n (mkUpdate "" "" "" "" 0 0) queue Hwf) as H. rewrite E in H. apply H.
  - intros q Hq. pose proof (drains_due n (update q) queue Hwf) as H. rewrite E in H.
    destruct H as (_ & H & _). rewrite (due_own queue) in H by done. simpl in H. lia.
Qed.

(** The queue two [queueUpdate] calls build. *)
Definition demo_queue : list queuedUpdate :=
  enqueue (mkUpdate "b" "" "" "" StatusSuspect 4)
    (enqueue (mkUpdate "a" "a:1" "a:2" "a:3" StatusAlive 0) []).

Lemma demo_queue_wf : queue_wf demo_queue.
Proof. apply enqueue_wf, enqueue_wf. split; constructor. Qed.

Lemma disseminated_witness :
  occurrences (mkUpdate "b" "" "" "" StatusSuspect 4) (concat (drains 6 demo_queue).1) = 3%nat.
Proof.
  pose proof (disseminated demo_queue 6 demo_queue_wf ltac:(vm_compute; lia)) as H.
  destruct (drains 6 demo_queue) as [batches rest]. destruct H as (_ & _ & H).
  apply Nat2Z.inj. apply (H (mkQueued (mkUpdate "b" "" "" "" StatusSuspect 4) 0)).
  vm_compute. right. left.
Defined.

#[export] Hint Resolve enqueue_wf drain_wf : cache.
