(* ===== verification/Membership.v ===== *)
(** * The membership manager: internal/cluster/membership.go

    The state of one node's SWIM component and its handlers, each a state
    transformer.  A handler that waits for an ack ([sendPingAndWait],
    [sendPingReqs]) is given in the pieces between which other goroutines run:
    the part before its [select], and what each branch of the [select] does;
    [Swim] puts the pieces together as the goroutines do.

    Arguments stand for the environment: [now] for [time.Now()], [resolve] for
    [net.ResolveUDPAddr], [ord] for the order of a [range] over the registry,
    [shuffled] and [pick] for the random choices.  Channels, timers and node
    records are addresses into the state. *)

From S2P Require Import Prelude GoLib Chaos Registry Gossip.

#[local] Open Scope Z_scope.

Definition UDPAddr : Type := string.
Abbreviation chan := nat.
Abbreviation timer := nat.

(** ** State *)

(** What lives outside the struct: the channels closed so far, the timers that
    are running and the node each will declare dead, the [markDead] goroutines
    that timers have started, the events passed to the callback and the
    datagrams handed to the socket. *)
Record runtime := mkRuntime {
  closed : gset chan;
  nextChan : chan;
  armed : gmap timer string;
  nextTimer : timer;
  firing : list string;
  events : list MembershipEvent;
  sent : list (UDPAddr * SwimMessage)
}.

Definition set_closed (x : gset chan) (r : runtime) : runtime :=
  mkRuntime x (nextChan r) (armed r) (nextTimer r) (firing r) (events r) (sent r).
Definition set_nextChan (x : chan) (r : runtime) : runtime :=
  mkRuntime (closed r) x (armed r) (nextTimer r) (firing r) (events r) (sent r).
Definition set_armed (x : gmap timer string) (r : runtime) : runtime :=
  mkRuntime (closed r) (nextChan r) x (nextTimer r) (firing r) (events r) (sent r).
Definition set_nextTimer (x : timer) (r : runtime) : runtime :=
  mkRuntime (closed r) (nextChan r) (armed r) x (firing r) (events r) (sent r).
Definition set_firing (x : list string) (r : runtime) : runtime :=
  mkRuntime (closed r) (nextChan r) (armed r) (nextTimer r) x (events r) (sent r).
Definition set_events (x : list MembershipEvent) (r : runtime) : runtime :=
  mkRuntime (closed r) (nextChan r) (armed r) (nextTimer r) (firing r) x (sent r).
Definition set_sent (x : list (UDPAddr * SwimMessage)) (r : runtime) : runtime :=
  mkRuntime (closed r) (nextChan r) (armed r) (nextTimer r) (firing r) (events r) x.

(** [conn] tells whether the socket is open ([WriteToUDP] on a nil or closed
    socket only returns an error); [stopCh] whether the channel is closed;
    [onEvent] whether a callback is set.  The intervals and timeouts of the
    struct only set the pace of the steps. *)
Record Membership := mkMembership {
  selfID : string;
  selfInfo : loc;
  nodeHeap : heap;
  registry : NodeRegistry;
  incarnation : Z;
  conn : bool;
  injector : option FaultInjector;
  pendingAcks : gmap string chan;
  updateQueue : list queuedUpdate;
  suspicionTimers : gmap string timer;
  pingReqCount : nat;
  onEvent : bool;
  stopCh : bool;
  rt : runtime
}.

Definition set_nodeHeap (x : heap) (m : Membership) : Membership :=
  mkMembership (selfID m) (selfInfo m) x (registry m) (incarnation m) (conn m) (injector m)
    (pendingAcks m) (updateQueue m) (suspicionTimers m) (pingReqCount m) (onEvent m)
    (stopCh m) (rt m).
Definition set_registry (x : NodeRegistry) (m : Membership) : Membership :=
  mkMembership (selfID m) (selfInfo m) (nodeHeap m) x (incarnation m) (conn m) (injector m)
    (pendingAcks m) (updateQueue m) (suspicionTimers m) (pingReqCount m) (onEvent m)
    (stopCh m) (rt m).
Definition set_incarnation (x : Z) (m : Membership) : Membership :=
  mkMembership (selfID m) (selfInfo m) (nodeHeap m) (registry m) x (conn m) (injector m)
    (pendingAcks m) (updateQueue m) (suspicionTimers m) (pingReqCount m) (onEvent m)
    (stopCh m) (rt m).
Definition set_conn (x : bool) (m : Membership) : Membership :=
  mkMembership (selfID m) (selfInfo m) (nodeHeap m) (registry m) (incarnation m) x
    (injector m) (pendingAcks m) (updateQueue m) (suspicionTimers m) (pingReqCount m)
    (onEvent m) (stopCh m) (rt m).
Definition set_injector (x : option FaultInjector) (m : Membership) : Membership :=
  mkMembership (selfID m) (selfInfo m) (nodeHeap m) (registry m) (incarnation m) (conn m) x
    (pendingAcks m) (updateQueue m) (suspicionTimers m) (pingReqCount m) (onEvent m)
    (stopCh m) (rt m).
Definition set_pendingAcks (x : gmap string chan) (m : Membership) : Membership :=
  mkMembership (selfID m) (selfInfo m) (nodeHeap m) (registry m) (incarnation m) (conn m)
    (injector m) x (updateQueue m) (suspicionTimers m) (pingReqCount m) (onEvent m)
    (stopCh m) (rt m).
Definition set_updateQueue (x : list queuedUpdate) (m : Membership) : Membership :=
  mkMembership (selfID m) (selfInfo m) (nodeHeap m) (registry m) (incarnation m) (conn m)
    (injector m) (pendingAcks m) x (suspicionTimers m) (pingReqCount m) (onEvent m)
    (stopCh m) (rt m).
Definition set_suspicionTimers (x : gmap string timer) (m : Membership) : Membership :=
  mkMembership (selfID m) (selfInfo m) (nodeHeap m) (registry m) (incarnation m) (conn m)
    (injector m) (pendingAcks m) (updateQueue m) x (pingReqCount m) (onEvent m) (stopCh m)
    (rt m).
Definition set_onEvent (x : bool) (m : Membership) : Membership :=
  mkMembership (selfID m) (selfInfo m) (nodeHeap m) (registry m) (incarnation m) (conn m)
    (injector m) (pendingAcks m) (updateQueue m) (suspicionTimers m) (pingReqCount m) x
    (stopCh m) (rt m).
Definition set_stopCh (x : bool) (m : Membership) : Membership :=
  mkMembership (selfID m) (selfInfo m) (nodeHeap m) (registry m) (incarnation m) (conn m)
    (injector m) (pendingAcks m) (updateQueue m) (suspicionTimers m) (pingReqCount m)
    (onEvent m) x (rt m).
Definition set_rt (x : runtime) (m : Membership) : Membership :=
  mkMembership (selfID m) (selfInfo m) (nodeHeap m) (registry m) (incarnation m) (conn m)
    (injector m) (pendingAcks m) (updateQueue m) (suspicionTimers m) (pingReqCount m)
    (onEvent m) (stopCh m) x.

Definition DefaultPingReqCount : nat := 3.

Definition NewMembership (h : heap) (self : loc) (nr : NodeRegistry) : Membership :=
  mkMembership (from_option ID "" (h !! self)) self h nr 0 false None ∅ [] ∅
    DefaultPingReqCount false false (mkRuntime ∅ 0%nat ∅ 0%nat [] [] []).

Definition SetFaultInjector (fi : option FaultInjector) (m : Membership) : Membership :=
  set_injector fi m.

Definition SetOnEvent (fn : bool) (m : Membership) : Membership := set_onEvent fn m.

Definition isBlocked (peerID : string) (m : Membership) : bool :=
  match injector m with
  | None => false
  | Some inj => IsFailed inj || IsPartitioned inj peerID
  end.

(** ** Small steps of the runtime *)

Definition self_info (m : Membership) : NodeInfo :=
  default (mkNode "" "" "" "" 0 0 0 0) (nodeHeap m !! selfInfo m).

Definition WriteToUDP (msg : SwimMessage) (to : UDPAddr) (m : Membership) : Membership :=
  if conn m then set_rt (set_sent (sent (rt m) ++ [(to, msg)]) (rt m)) m else m.

(** [make(chan struct{})], filed as the pending ack of [targetID]. *)
Definition register_ack (targetID : string) (m : Membership) : chan * Membership :=
  let ch := nextChan (rt m) in
  (ch, set_pendingAcks (<[targetID := ch]> (pendingAcks m))
         (set_rt (set_nextChan (S ch) (rt m)) m)).

(** [timer.Stop()] *)
Definition stop_timer (t : timer) (m : Membership) : Membership :=
  set_rt (set_armed (delete t (armed (rt m))) (rt m)) m.

(** [if timer, ok := m.suspicionTimers[id]; ok { timer.Stop(); delete(...) }] *)
Definition cancel_timer (nodeID : string) (m : Membership) : Membership :=
  match suspicionTimers m !! nodeID with
  | Some t => set_suspicionTimers (delete nodeID (suspicionTimers m)) (stop_timer t m)
  | None => m
  end.

(** The replacement of a suspicion timer by a new [time.AfterFunc]. *)
Definition start_timer (nodeID : string) (m : Membership) : Membership :=
  let m := match suspicionTimers m !! nodeID with Some t => stop_timer t m | None => m end in
  let t := nextTimer (rt m) in
  set_suspicionTimers (<[nodeID := t]> (suspicionTimers m))
    (set_rt (set_nextTimer (S t) (set_armed (<[t := nodeID]> (armed (rt m))) (rt m))) m).

Definition emitEvent (e : MembershipEvent) (m : Membership) : Membership :=
  if onEvent m then set_rt (set_events (events (rt m) ++ [e]) (rt m)) m else m.

(** ** Update queue *)

Definition queueUpdate (u : MembershipUpdate) (m : Membership) : Membership :=
  set_updateQueue (enqueue u (updateQueue m)) m.

(** The same body; the caller holds [m.mu]. *)
Definition queueUpdateLocked (u : MembershipUpdate) (m : Membership) : Membership :=
  set_updateQueue (enqueue u (updateQueue m)) m.

Definition drainUpdates (m : Membership) : list MembershipUpdate * Membership :=
  let '(updates, active) := drain (updateQueue m) in (updates, set_updateQueue active m).

(** ** State transitions *)

Definition set_node_status (s : NodeStatus) (l : loc) (m : Membership) : Membership :=
  set_nodeHeap (SetStatus s l (nodeHeap m)) m.

Definition markSuspect (nodeID : string) (m : Membership) : Membership :=
  match Get (nodeHeap m) (registry m) nodeID with
  | None => m
  | Some (l, info) =>
      if (GetStatus info =? StatusDead) || (GetStatus info =? StatusLeft) then m
      else if GetStatus info =? StatusSuspect then m
      else
        let m := set_node_status StatusSuspect l m in
        let m := queueUpdateLocked (mkUpdate nodeID "" "" "" StatusSuspect (Incarnation info)) m in
        let m := emitEvent (mkEvent EventSuspect nodeID) m in
        start_timer nodeID m
  end.

Definition markDead (nodeID : string) (m : Membership) : Membership :=
  match Get (nodeHeap m) (registry m) nodeID with
  | None => m
  | Some (l, info) =>
      if GetStatus info =? StatusDead then m
      else
        let m := set_node_status StatusDead l m in
        let m := cancel_timer nodeID m in
        let m := queueUpdateLocked (mkUpdate nodeID "" "" "" StatusDead (Incarnation info)) m in
        emitEvent (mkEvent EventDead nodeID) m
  end.

Definition markSuspectLocked (nodeID : string) (l : loc) (m : Membership) : Membership :=
  let m := set_node_status StatusSuspect l m in
  let m := start_timer nodeID m in
  emitEvent (mkEvent EventSuspect nodeID) m.

(** What a node says of itself. *)
Definition self_update (status : NodeStatus) (m : Membership) : MembershipUpdate :=
  let me := self_info m in
  mkUpdate (selfID m) (GRPCAddr me) (GossipAddr me) (HTTPAddr me) status (incarnation m).

Definition refute (u : MembershipUpdate) (m : Membership) : Membership :=
  let m := if incarnation m <=? u_Incarnation u
           then set_incarnation (u64 (u_Incarnation u + 1)) m else m in
  queueUpdateLocked (self_update StatusAlive m) m.

Definition applyUpdate (now : Time) (u : MembershipUpdate) (m : Membership) : Membership :=
  if String.eqb (u_NodeID u) (selfID m) then
    if (u_Status u =? StatusSuspect) || (u_Status u =? StatusDead) then refute u m else m
  else
    match Get (nodeHeap m) (registry m) (u_NodeID u) with
    | None =>
        if u_Status u =? StatusAlive then
          let newNode := with_incarnation (u_Incarnation u)
            (NewNodeInfo now (u_NodeID u) (u_GRPCAddr u) (u_GossipAddr u) (u_HTTPAddr u)) in
          let '(l, h) := alloc newNode (nodeHeap m) in
          let m := set_registry (Register h l (registry m)) (set_nodeHeap h m) in
          let m := emitEvent (mkEvent EventJoin (u_NodeID u)) m in
          queueUpdate u m
        else m
    | Some (l, existing) =>
        if u_Incarnation u <? Incarnation existing then m
        else if u_Status u =? StatusAlive then
          if negb (GetStatus existing =? StatusAlive) then
            let h := SetStatus StatusAlive l (nodeHeap m) in
            let h := SetIncarnation (u_Incarnation u) l h in
            let m := set_nodeHeap (Touch now l h) m in
            let m := cancel_timer (u_NodeID u) m in
            emitEvent (mkEvent EventAlive (u_NodeID u)) m
          else m
        else if u_Status u =? StatusSuspect then
          if GetStatus existing =? StatusAlive then markSuspectLocked (u_NodeID u) l m else m
        else if u_Status u =? StatusDead then
          if negb (GetStatus existing =? StatusDead) then
            let m := set_node_status StatusDead l m in
            let m := cancel_timer (u_NodeID u) m in
            emitEvent (mkEvent EventDead (u_NodeID u)) m
          else m
        else if u_Status u =? StatusLeft then
          let m := set_node_status StatusLeft l m in
          emitEvent (mkEvent EventLeft (u_NodeID u)) m
        else m
    end.

(** ** Message handling *)

Definition handlePing (from : UDPAddr) (m : Membership) : Membership :=
  let '(updates, m) := drainUpdates m in
  let ack := mkMsg MsgAck (selfID m) (GossipAddr (self_info m)) "" (incarnation m) updates in
  WriteToUDP ack from m.

Definition handleAck (now : Time) (msg : SwimMessage) (m : Membership) : Membership :=
  let m := match pendingAcks m !! SenderID msg with
           | Some ch =>
               set_pendingAcks (delete (SenderID msg) (pendingAcks m))
                 (set_rt (set_closed ({[ch]} ∪ closed (rt m)) (rt m)) m)
           | None => m
           end in
  match Get (nodeHeap m) (registry m) (SenderID msg) with
  | Some (l, _) => set_nodeHeap (Touch now l (nodeHeap m)) m
  | None => m
  end.

Definition node_update (node : NodeInfo) : MembershipUpdate :=
  mkUpdate (ID node) (GRPCAddr node) (GossipAddr node) (HTTPAddr node) (GetStatus node)
    (Incarnation node).

Definition handleJoin (ord : list (string * loc)) (from : UDPAddr) (m : Membership) : Membership :=
  let updates := node_update <$> GetAll (nodeHeap m) ord in
  let resp := mkMsg MsgAck (selfID m) (GossipAddr (self_info m)) "" (incarnation m) updates in
  WriteToUDP resp from m.

(** ** Pings

    The part of [sendPingAndWait] before its [select]: [None] when it returns
    false at once, else the channel it waits on. *)
Definition sendPing (resolve : string -> option UDPAddr) (address targetID : string)
    (m : Membership) : option chan * Membership :=
  if isBlocked targetID m then (None, m)
  else match resolve address with
       | None => (None, m)
       | Some udpAddr =>
           let '(ackCh, m) := register_ack targetID m in
           let '(updates, m) := drainUpdates m in
           let ping := mkMsg MsgPing (selfID m) (GossipAddr (self_info m)) "" (incarnation m)
                         updates in
           (Some ackCh, WriteToUDP ping udpAddr m)
       end.

(** The [time.After] branch of both [select]s. *)
Definition ack_timeout (targetID : string) (m : Membership) : Membership :=
  set_pendingAcks (delete targetID (pendingAcks m)) m.

(** [handlePingReq] up to the wait of its ping; the wait's target and
    requester are what it needs afterwards. *)
Definition handlePingReq (resolve : string -> option UDPAddr) (msg : SwimMessage)
    (m : Membership) : option (chan * string) * Membership :=
  match Get (nodeHeap m) (registry m) (TargetID msg) with
  | None => (None, m)
  | Some (_, targetInfo) =>
      let '(ch, m) := sendPing resolve (GossipAddr targetInfo) (TargetID msg) m in
      ((fun ch => (ch, GossipAddr targetInfo)) <$> ch, m)
  end.

(** The rest of [handlePingReq] when the ping was acked. *)
Definition forwardAck (targetID address : string) (from : UDPAddr) (m : Membership) : Membership :=
  WriteToUDP (mkMsg MsgAck targetID address "" (incarnation m) []) from m.

(** [handleMessage].  When a ping-req makes it wait, the channel and what the
    rest of [handlePingReq] needs. *)
Definition handleMessage (resolve : string -> option UDPAddr) (now : Time)
    (ord : list (string * loc)) (msg : SwimMessage) (from : UDPAddr) (m : Membership)
    : option (chan * string) * Membership :=
  let m := fold_left (fun m u => applyUpdate now u m) (Updates msg) m in
  if Type_ msg =? MsgPing then (None, handlePing from m)
  else if Type_ msg =? MsgAck then (None, handleAck now msg m)
  else if Type_ msg =? MsgPingReq then handlePingReq resolve msg m
  else if Type_ msg =? MsgJoin then (None, handleJoin ord from m)
  else (None, m).

(** The nodes [pingRandomMember] chooses from. *)
Definition candidates (self : string) (allNodes : list NodeInfo) : list NodeInfo :=
  filter (fun node => ID node <> self /\
    (GetStatus node = StatusAlive \/ GetStatus node = StatusSuspect)) allNodes.

(** The nodes [sendPingReqs] asks. *)
Definition proxies (self target : string) (allNodes : list NodeInfo) : list NodeInfo :=
  filter (fun node => ID node <> self /\ ID node <> target /\ GetStatus node = StatusAlive) allNodes.

Definition send_ping_req (resolve : string -> option UDPAddr) (target : string) (m : Membership)
    (proxy : NodeInfo) : Membership :=
  if isBlocked (ID proxy) m then m
  else match resolve (GossipAddr proxy) with
       | None => m
       | Some udpAddr =>
           WriteToUDP (mkMsg MsgPingReq (selfID m) (GossipAddr (self_info m)) target
                         (incarnation m) []) udpAddr m
       end.

(** [sendPingReqs] up to its [select]; [shuffled] is the proxies in the order
    [rand.Shuffle] left them. *)
Definition sendPingReqs (resolve : string -> option UDPAddr) (target : string)
    (shuffled : list NodeInfo) (m : Membership) : option chan * Membership :=
  match shuffled with
  | [] => (None, m)
  | _ =>
      let chosen := if (pingReqCount m <? length shuffled)%nat
                    then take (pingReqCount m) shuffled else shuffled in
      let '(ackCh, m) := register_ack target m in
      (Some ackCh, fold_left (send_ping_req resolve target) chosen m)
  end.

(** ** Lifecycle *)

(** [Start]: whether the address resolved and whether the socket opened are
    arguments; the goroutines it starts are those of [Swim]. *)
Definition Start (resolved listening : bool) (m : Membership) : option string * Membership :=
  if negb resolved then (Some "resolving UDP address", m)
  else if negb listening then (Some "listening on UDP", m)
  else
    let m := set_conn true m in
    let m := set_registry (Register (nodeHeap m) (selfInfo m) (registry m)) m in
    (None, queueUpdate (self_update StatusAlive m) m).

(** [Stop] before its sleep, ... *)
Definition Stop_leave (m : Membership) : Membership :=
  let m := set_node_status StatusLeft (selfInfo m) m in
  queueUpdate (mkUpdate (selfID m) "" "" "" StatusLeft (incarnation m)) m.

(** ... when it closes the channel and the socket, ... *)
Definition Stop_close (m : Membership) : Membership := set_conn false (set_stopCh true m).

(** ... and once both loops have returned. *)
Definition Stop_timers (m : Membership) : Membership :=
  fold_left (fun m t => stop_timer t m) (map_to_list (suspicionTimers m)).*2 m.

(** The message a node asks to join with. *)
Definition joinMsg (m : Membership) : SwimMessage :=
  mkMsg MsgJoin (selfID m) (GossipAddr (self_info m)) "" (incarnation m)
    [self_update StatusAlive m].

(** [JoinCluster]: [write_ok] tells whether a datagram to an address could be
    sent. *)
Definition join_seed (resolve : string -> option UDPAddr) (write_ok : UDPAddr -> bool)
    (msg : SwimMessage) (acc : bool * Membership) (address : string) : bool * Membership :=
  let '(joined, m) := acc in
  match resolve address with
  | None => (joined, m)
  | Some udpAddr =>
      if conn m && write_ok udpAddr then (true, WriteToUDP msg udpAddr m) else (joined, m)
  end.

Definition JoinCluster (resolve : string -> option UDPAddr) (write_ok : UDPAddr -> bool)
    (seedAddrs : list string) (m : Membership) : option string * Membership :=
  match seedAddrs with
  | [] => (None, m)
  | _ =>
      let '(joined, m) :=
        fold_left (join_seed resolve write_ok (joinMsg m)) seedAddrs (false, m) in
      if joined then (None, m) else (Some "failed to contact any seed nodes", m)
  end.
