(* ===== verification/Swim.v ===== *)
(** * SWIM: the goroutines of internal/cluster/membership.go

    One node runs a receive loop, a ping loop, the timers of suspected nodes and
    the goroutines these start.  [step] interleaves them: a step is the code a
    goroutine runs between two points where it waits (for a datagram, a tick, an
    ack or a timeout).  Its premises are the guards of the code; a message comes
    from the network with any content, and one read just before [Stop] may be
    handled after it. *)

From stdpp Require Import relations.
From S2P Require Import Prelude GoLib Chaos Registry Gossip Membership.

#[local] Open Scope Z_scope.

(** ** The goroutines *)

Inductive receiver :=
  | RRead                                                    (* in ReadFromUDP *)
  | RWait (ch : chan) (target address : string) (from : UDPAddr)  (* in handlePingReq *)
  | RDone.

Inductive prober :=
  | PTick                                (* waiting for the ticker *)
  | PDirect (ch : chan) (target : NodeInfo)      (* in sendPingAndWait *)
  | PIndirect (ch : chan) (target : NodeInfo)    (* in sendPingReqs *)
  | PDone.

Record node := mkNodeState {
  mem : Membership;
  recv : receiver;
  ping : prober
}.

(** A decoded incarnation, below the largest one: see [refute_wraps]. *)
Definition incarnations_ok (msg : SwimMessage) : Prop :=
  Forall (fun u => 0 <= u_Incarnation u < MaxUint64) (Updates msg).

(** [pingRandomMember] after its direct ping failed: indirect probes, or the
    suspicion when there is no node to ask. *)
Definition probe_indirect (resolve : string -> option UDPAddr) (target : NodeInfo)
    (shuffled : list NodeInfo) (m : Membership) : prober * Membership :=
  match sendPingReqs resolve (ID target) shuffled m with
  | (Some ch, m) => (PIndirect ch target, m)
  | (None, m) => (PTick, markSuspect (ID target) m)
  end.

Definition may_shuffle (m : Membership) (target : NodeInfo) (shuffled : list NodeInfo) : Prop :=
  exists ord, is_range (nodes (registry m)) ord /\
    shuffled ≡ₚ proxies (selfID m) (ID target) (GetAll (nodeHeap m) ord).

Section step.
Context (resolve : string -> option UDPAddr).

Inductive step : node -> node -> Prop :=
  | step_receive m p now ord msg from w m' :
      isBlocked (SenderID msg) m = false -> incarnations_ok msg ->
      is_range (nodes (registry (fold_left (fun m u => applyUpdate now u m) (Updates msg) m))) ord ->
      handleMessage resolve now ord msg from m = (w, m') ->
      step (mkNodeState m RRead p)
           (mkNodeState m' (match w with
                            | Some (ch, address) => RWait ch (TargetID msg) address from
                            | None => RRead
                            end) p)
  | step_recv_acked m p ch target address from :
      ch ∈ closed (rt m) ->
      step (mkNodeState m (RWait ch target address from) p)
           (mkNodeState (forwardAck target address from m) RRead p)
  | step_recv_timeout m p ch target address from :
      step (mkNodeState m (RWait ch target address from) p)
           (mkNodeState (ack_timeout target m) RRead p)
  | step_recv_stop m p ch target address from :
      stopCh m = true ->
      step (mkNodeState m (RWait ch target address from) p) (mkNodeState m RRead p)
  | step_recv_exit m p :
      stopCh m = true -> step (mkNodeState m RRead p) (mkNodeState m RDone p)
  | step_ping m r ord pick target ch m' :
      is_range (nodes (registry m)) ord ->
      candidates (selfID m) (GetAll (nodeHeap m) ord) !! pick = Some target ->
      sendPing resolve (GossipAddr target) (ID target) m = (Some ch, m') ->
      step (mkNodeState m r PTick) (mkNodeState m' r (PDirect ch target))
  | step_ping_unsent m r ord pick target shuffled m' p m'' :
      is_range (nodes (registry m)) ord ->
      candidates (selfID m) (GetAll (nodeHeap m) ord) !! pick = Some target ->
      sendPing resolve (GossipAddr target) (ID target) m = (None, m') ->
      may_shuffle m' target shuffled ->
      probe_indirect resolve target shuffled m' = (p, m'') ->
      step (mkNodeState m r PTick) (mkNodeState m'' r p)
  | step_ping_acked m r ch target :
      ch ∈ closed (rt m) ->
      step (mkNodeState m r (PDirect ch target)) (mkNodeState m r PTick)
  | step_ping_timeout m r ch target shuffled p m' :
      may_shuffle (ack_timeout (ID target) m) target shuffled ->
      probe_indirect resolve target shuffled (ack_timeout (ID target) m) = (p, m') ->
      step (mkNodeState m r (PDirect ch target)) (mkNodeState m' r p)
  | step_ping_stop m r ch target shuffled p m' :
      stopCh m = true -> may_shuffle m target shuffled ->
      probe_indirect resolve target shuffled m = (p, m') ->
      step (mkNodeState m r (PDirect ch target)) (mkNodeState m' r p)
  | step_indirect_acked m r ch target :
      ch ∈ closed (rt m) ->
      step (mkNodeState m r (PIndirect ch target)) (mkNodeState m r PTick)
  | step_indirect_timeout m r ch target :
      step (mkNodeState m r (PIndirect ch target))
           (mkNodeState (markSuspect (ID target) (ack_timeout (ID target) m)) r PTick)
  | step_indirect_stop m r ch target :
      stopCh m = true ->
      step (mkNodeState m r (PIndirect ch target))
           (mkNodeState (markSuspect (ID target) m) r PTick)
  | step_ping_exit m r :
      stopCh m = true -> step (mkNodeState m r PTick) (mkNodeState m r PDone)
  | step_timer_fires m r p t nodeID :
      armed (rt m) !! t = Some nodeID ->
      step (mkNodeState m r p)
           (mkNodeState (set_rt (set_firing (firing (rt m) ++ [nodeID])
                          (set_armed (delete t (armed (rt m))) (rt m))) m) r p)
  | step_timer_func m r p before nodeID after :
      firing (rt m) = before ++ nodeID :: after ->
      step (mkNodeState m r p)
           (mkNodeState (markDead nodeID (set_rt (set_firing (before ++ after) (rt m)) m)) r p)
  | step_inject m r p fi :
      step (mkNodeState m r p) (mkNodeState (SetFaultInjector fi m) r p)
  | step_join m r p write_ok seeds err m' :
      JoinCluster resolve write_ok seeds m = (err, m') ->
      step (mkNodeState m r p) (mkNodeState m' r p)
  | step_leave m r p :
      stopCh m = false -> step (mkNodeState m r p) (mkNodeState (Stop_leave m) r p)
  | step_close m r p :
      stopCh m = false -> step (mkNodeState m r p) (mkNodeState (Stop_close m) r p)
  | step_stop_timers m :
      stopCh m = true ->
      step (mkNodeState m RDone PDone) (mkNodeState (Stop_timers m) RDone PDone).

(** A node as [main] starts it: its own record, an empty registry, [Start]. *)
Definition boot (now : Time) (id grpcAddr gossipAddr httpAddr : string) (callback : bool)
    (fi : option FaultInjector) : node :=
  let '(l, h) := alloc (NewNodeInfo now id grpcAddr gossipAddr httpAddr) ∅ in
  let m := NewMembership h l (NewNodeRegistry id) in
  mkNodeState (Start true true (SetOnEvent callback (SetFaultInjector fi m))).2 RRead PTick.

Definition reachable (n : node) : Prop :=
  exists now id g s h cb fi, rtc step (boot now id g s h cb fi) n.

End step.
