(* ===== verification/SwimInv.v ===== *)
(** * The invariant of a SWIM node

    [mem_ok] is what every step keeps true of the membership state: the registry
    is sound, the node itself is never suspected, the queue is well formed, and
    the suspicion timers match the nodes they are for.  [timed] adds that every
    suspected node has a timer that will declare it dead. *)

From stdpp Require Import relations.
From S2P Require Import Prelude GoLib Chaos Registry Gossip Membership Swim.

#[local] Open Scope Z_scope.

(** What the node knows of [id]. *)
Definition known (m : Membership) (id : string) : option NodeInfo :=
  info (nodeHeap m) (registry m) id.

Definition status_ok (s : NodeStatus) : Prop := 0 <= s <= 3.

#[local] Hint Extern 0 (status_ok _) =>
  unfold status_ok, StatusAlive, StatusSuspect, StatusDead, StatusLeft; simpl; lia : core.

Record mem_ok (m : Membership) : Prop := {
  ok_wf : wf (nodeHeap m) (registry m);
  ok_self : nodes (registry m) !! selfID m = Some (selfInfo m);
  ok_nodes : forall id n, known m id = Some n -> status_ok (Status n) /\ 0 <= Incarnation n < MaxUint64;
  ok_self_status : forall n, known m (selfID m) = Some n ->
    Status n = StatusAlive \/ Status n = StatusLeft;
  ok_queue : queue_wf (updateQueue m);
  ok_queue_self : forall q, q ∈ updateQueue m -> u_NodeID (update q) = selfID m ->
    u_Incarnation (update q) <= incarnation m;
  ok_inc : 0 <= incarnation m <= MaxUint64;
  ok_armed : forall t id, armed (rt m) !! t = Some id -> suspicionTimers m !! id = Some t;
  ok_timers : forall id t, suspicionTimers m !! id = Some t ->
    (t < nextTimer (rt m))%nat /\ id <> selfID m;
  ok_timers_inj : forall id1 id2 t, suspicionTimers m !! id1 = Some t ->
    suspicionTimers m !! id2 = Some t -> id1 = id2;
  ok_firing : forall id, id ∈ firing (rt m) -> id <> selfID m
}.

(** Every suspected node, except [skip], has its timer running or fired. *)
Definition timed (skip : option string) (m : Membership) : Prop :=
  forall id n, Some id <> skip -> known m id = Some n -> Status n = StatusSuspect ->
    id ∈ firing (rt m) \/
    exists t, suspicionTimers m !! id = Some t /\ armed (rt m) !! t = Some id.

(** The fields the invariant reads. *)
Definition same_core (m m' : Membership) : Prop :=
  selfID m' = selfID m /\ selfInfo m' = selfInfo m /\ nodeHeap m' = nodeHeap m /\
  registry m' = registry m /\ incarnation m' = incarnation m /\
  updateQueue m' = updateQueue m /\ suspicionTimers m' = suspicionTimers m /\
  armed (rt m') = armed (rt m) /\ nextTimer (rt m') = nextTimer (rt m) /\
  firing (rt m') = firing (rt m).

#[global] Instance same_core_refl : Reflexive same_core.
Proof. unfold same_core. intros m. split_and!; done. Qed.

#[global] Instance same_core_trans : Transitive same_core.
Proof. unfold same_core. intros m1 m2 m3. intros; destruct_and!. split_and!; congruence. Qed.

Lemma same_core_ok m m' : same_core m m' -> mem_ok m -> mem_ok m'.
Proof.
  intros (E1 & E2 & E3 & E4 & E5 & E6 & E7 & E8 & E9 & E10) [].
  constructor; unfold known in *; rewrite ?E1, ?E2, ?E3, ?E4, ?E5, ?E6, ?E7, ?E8, ?E9, ?E10; done.
Qed.

Lemma same_core_known m m' id : same_core m m' -> known m' id = known m id.
Proof. intros (_ & _ & E3 & E4 & _). unfold known. by rewrite E3, E4. Qed.

Lemma same_core_timed skip m m' : same_core m m' -> timed skip m -> timed skip m'.
Proof.
  intros Hc Ht id n Hs. rewrite (same_core_known m m') by done.
  destruct Hc as (_ & _ & _ & _ & _ & _ & E7 & E8 & _ & E10). rewrite E7, E8, E10.
  by apply Ht.
Qed.

(** ** Steps that do not touch the core *)

Ltac frame := unfold same_core; intros; repeat case_match; simplify_eq; split_and!; reflexivity.

Lemma WriteToUDP_core msg to m : same_core m (WriteToUDP msg to m).
Proof. unfold WriteToUDP. frame. Qed.

Lemma emitEvent_core e m : same_core m (emitEvent e m).
Proof. unfold emitEvent. frame. Qed.

Lemma ack_timeout_core id m : same_core m (ack_timeout id m).
Proof. frame. Qed.

Lemma register_ack_core id m : same_core m (register_ack id m).2.
Proof. frame. Qed.

Lemma SetFaultInjector_core fi m : same_core m (SetFaultInjector fi m).
Proof. frame. Qed.

Lemma Stop_close_core m : same_core m (Stop_close m).
Proof. frame. Qed.

Lemma forwardAck_core t a f m : same_core m (forwardAck t a f m).
Proof. apply WriteToUDP_core. Qed.

Lemma handleJoin_core ord from m : same_core m (handleJoin ord from m).
Proof. apply WriteToUDP_core. Qed.

Lemma sendPingReqs_core resolve t shuffled m : same_core m (sendPingReqs resolve t shuffled m).2.
Proof.
  unfold sendPingReqs. destruct shuffled as [|n l]; [done|]. simpl.
  set (m1 := set_pendingAcks _ _).
  assert (same_core m m1) as Hm1 by (subst m1; frame). revert Hm1. generalize m1.
  generalize (if (pingReqCount m <? S (length l))%nat then take (pingReqCount m) (n :: l) else n :: l).
  intros ps. clear. induction ps as [|p ps IH]; intros m1 Hm1; [done|]. simpl. apply IH.
  unfold send_ping_req. repeat case_match; try done.
  etrans; [exact Hm1|apply WriteToUDP_core].
Qed.

Lemma JoinCluster_core resolve w seeds m : same_core m (JoinCluster resolve w seeds m).2.
Proof.
  unfold JoinCluster. destruct seeds as [|a seeds]; [done|].
  set (f := join_seed resolve w _).
  assert (forall l jm, same_core jm.2 (fold_left f l jm).2) as Hf.
  { induction l as [|x l IH]; intros [j m1]; [done|]. simpl fold_left.
    etrans; [|apply IH]. subst f. unfold join_seed. repeat case_match; try done.
    apply WriteToUDP_core. }
  specialize (Hf (a :: seeds) (false, m)).
  destruct (fold_left f (a :: seeds) (false, m)) as [[] m']; exact Hf.
Qed.

(** ** Steps that do *)

Lemma Get_known m id l n :
  Get (nodeHeap m) (registry m) id = Some (l, n) -> known m id = Some n.
Proof. intros H. apply info_Some. by exists l. Qed.

Lemma set_heap_ok m id l n f :
  mem_ok m -> Get (nodeHeap m) (registry m) id = Some (l, n) ->
  (forall n, ID (f n) = ID n) -> status_ok (Status (f n)) ->
  0 <= Incarnation (f n) < MaxUint64 ->
  (id = selfID m -> Status (f n) = StatusAlive \/ Status (f n) = StatusLeft) ->
  let m' := set_nodeHeap (alter f l (nodeHeap m)) m in
  mem_ok m' /\ forall id', known m' id' = if decide (id' = id) then Some (f n) else known m id'.
Proof.
  intros Hok HG Hf Hs Hi Hself m'.
  destruct (info_alter _ _ id l n f (ok_wf m Hok) HG Hf) as [Hwf Hk].
  assert (forall id', known m' id' = if decide (id' = id) then Some (f n) else known m id') as Hk'
    by exact Hk.
  split; [|done]. destruct Hok. constructor; try done.
  - intros id' n'. rewrite Hk'. case_decide; [|by apply ok_nodes0]. intros [= <-]. done.
  - intros n'. rewrite Hk'. case_decide as E; [|by apply ok_self_status0].
    intros [= <-]. by apply Hself.
Qed.

Lemma set_node_status_ok m id l n s :
  mem_ok m -> Get (nodeHeap m) (registry m) id = Some (l, n) -> status_ok s ->
  (id = selfID m -> s = StatusAlive \/ s = StatusLeft) ->
  let m' := set_node_status s l m in
  mem_ok m' /\
  forall id', known m' id' = if decide (id' = id) then Some (with_status s n) else known m id'.
Proof.
  intros Hok HG Hs Hself. apply set_heap_ok; try done.
  simpl. destruct (ok_nodes m Hok id n (Get_known _ _ _ _ HG)). done.
Qed.

Lemma timed_write m id m' n' :
  timed (Some id) m -> same_core m (set_nodeHeap (nodeHeap m) m') ->
  (forall id', known m' id' = if decide (id' = id) then Some n' else known m id') ->
  timed (Some id) m'.
Proof.
  intros Ht (_ & _ & _ & _ & _ & _ & E7 & E8 & _ & E10) Hk id' n Hne. rewrite Hk.
  rewrite decide_False by congruence. intros Hn Hs. simpl in *.
  rewrite E7, E8, E10. by apply (Ht id' n).
Qed.

Lemma timed_skip m id :
  timed (Some id) m -> (forall n, known m id = Some n -> Status n <> StatusSuspect) -> timed None m.
Proof.
  intros Ht Hn id' n _ Hk Hs. destruct (decide (id' = id)) as [->|Hne]; [by destruct (Hn n)|].
  apply (Ht id' n); congruence.
Qed.

Lemma enqueue_ok m u :
  mem_ok m -> (u_NodeID u = selfID m -> u_Incarnation u <= incarnation m) ->
  mem_ok (queueUpdate u m).
Proof.
  intros [] Hu. constructor; try done; simpl.
  - by apply enqueue_wf.
  - intros q [->|Hq]%elem_of_enqueue; [done|by apply ok_queue_self0].
Qed.

Lemma drainUpdates_ok m : mem_ok m -> mem_ok (drainUpdates m).2.
Proof.
  intros []. unfold drainUpdates. destruct (drain (updateQueue m)) as [us active] eqn:E. simpl.
  constructor; try done; simpl.
  - pose proof (drain_wf _ ok_queue0) as H. by rewrite E in H.
  - intros q Hq Hid. pose proof (elem_of_drained (updateQueue m) q ok_queue0) as H.
    rewrite E in H. destruct (H Hq) as (q' & Hq' & Hu & _). rewrite Hu in *.
    by apply ok_queue_self0.
Qed.

(** ** Timers *)

Lemma stop_own_timer_ok m id t :
  mem_ok m -> suspicionTimers m !! id = Some t ->
  forall t' id', armed (rt (stop_timer t m)) !! t' = Some id' <->
    armed (rt m) !! t' = Some id' /\ id' <> id.
Proof.
  intros Hok Ht t' id'. simpl. rewrite lookup_delete_Some. split.
  - intros [Hne Ha]. split; [done|]. intros ->. apply (ok_armed m Hok) in Ha. congruence.
  - intros [Ha Hne]. split; [|done]. intros <-. apply Hne.
    apply (ok_armed m Hok) in Ha. by eapply (ok_timers_inj m Hok).
Qed.

Lemma cancel_timer_ok m id :
  mem_ok m -> mem_ok (cancel_timer id m) /\
  (forall id', known (cancel_timer id m) id' = known m id') /\
  suspicionTimers (cancel_timer id m) !! id = None /\
  (timed (Some id) m -> timed (Some id) (cancel_timer id m)).
Proof.
  intros Hok. unfold cancel_timer. destruct (suspicionTimers m !! id) as [t|] eqn:Ht; [|done].
  pose proof (stop_own_timer_ok m id t Hok Ht) as Ha. split_and!; [|done|by apply lookup_delete_eq|].
  - destruct Hok. constructor; try done; simpl.
    + intros t' id' [H Hne]%Ha. rewrite lookup_delete_ne by done. by apply ok_armed0.
    + intros id' t' [_ H]%lookup_delete_Some. by apply ok_timers0.
    + intros id1 id2 t' [_ H1]%lookup_delete_Some [_ H2]%lookup_delete_Some.
      by eapply ok_timers_inj0.
  - intros Htm id' n Hne Hk Hs. destruct (Htm id' n Hne Hk Hs) as [?|(t' & H1 & H2)]; [by left|].
    right. exists t'. split.
    + simpl. by rewrite lookup_delete_ne by congruence.
    + apply Ha. split; congruence.
Qed.

Lemma start_timer_ok m id :
  mem_ok m -> id <> selfID m -> mem_ok (start_timer id m) /\
  (forall id', known (start_timer id m) id' = known m id') /\
  (timed (Some id) m -> timed None (start_timer id m)).
Proof.
  intros Hok Hid. unfold start_timer. set (m1 := match _ with Some t => _ | None => m end).
  assert (forall t' id', armed (rt m1) !! t' = Some id' -> armed (rt m) !! t' = Some id' /\ id' <> id)
    as Ha.
  { intros t' id'. subst m1. destruct (suspicionTimers m !! id) as [t|] eqn:Ht.
    - by apply stop_own_timer_ok.
    - intros H. split; [done|]. intros ->. apply (ok_armed m Hok) in H. congruence. }
  assert (forall t' id', armed (rt m) !! t' = Some id' -> id' <> id -> armed (rt m1) !! t' = Some id')
    as Ha'.
  { intros t' id' H Hne. subst m1. destruct (suspicionTimers m !! id) as [t|] eqn:Ht; [|done].
    by apply (stop_own_timer_ok m id t Hok Ht). }
  assert (same_core (set_rt (set_armed (armed (rt m)) (rt m1)) m1) m) as Hc
    by (subst m1; frame).
  assert (firing (rt m1) = firing (rt m) /\ nextTimer (rt m1) = nextTimer (rt m)) as [Hf Hnt]
    by (subst m1; by case_match).
  assert (suspicionTimers m1 = suspicionTimers m) as Hst by (subst m1; by case_match).
  destruct Hc as (E1 & E2 & E3 & E4 & E5 & E6 & _). simpl in *. clearbody m1.
  assert (forall t', (nextTimer (rt m) <= t')%nat -> forall id', suspicionTimers m !! id' <> Some t')
    as Hfresh by (intros t' Hle id' H%(ok_timers m Hok); lia).
  split_and!.
  - destruct Hok. constructor; unfold known in *; simpl;
      rewrite <- ?E1, <- ?E2, <- ?E3, <- ?E4, <- ?E5, <- ?E6, ?Hf, ?Hnt, ?Hst; try done.
    + intros t' id'. rewrite !lookup_insert_Some. intros [[<- <-]|[Hne [H Hid']%Ha]]; [by left|].
      right. split; [done|]. by apply ok_armed0.
    + intros id' t'. rewrite lookup_insert_Some. intros [[<- <-]|[Hne H]]; [split; [lia|done]|].
      destruct (ok_timers0 id' t' H). split; [lia|done].
    + intros id1 id2 t'. rewrite !lookup_insert_Some.
      intros [[<- <-]|[Hne1 H1]] [[<- ?]|[Hne2 H2]]; try done.
      * by apply Hfresh in H2.
      * subst t'. by apply Hfresh in H1.
      * by eapply ok_timers_inj0.
  - intros id'. unfold known. simpl. by rewrite <- E3, <- E4.
  - intros Htm id' n _ Hk Hs. simpl. rewrite Hf, Hst, Hnt.
    destruct (decide (id' = id)) as [->|Hne].
    { right. exists (nextTimer (rt m)). by rewrite !lookup_insert_eq. }
    assert (known m id' = Some n) as Hk' by (unfold known in *; simpl in *; congruence).
    destruct (Htm id' n ltac:(congruence) Hk' Hs) as [?|(t' & H1 & H2)]; [by left|].
    right. exists t'. rewrite !lookup_insert_ne; [split; [done|by apply Ha']| |done].
    intros <-. by apply Hfresh in H1.
Qed.

(** ** What every operation keeps

    A node is never forgotten, its addresses never change and the incarnations
    never decrease. *)

Definition evolves (m m' : Membership) : Prop :=
  selfID m' = selfID m /\ incarnation m <= incarnation m' /\
  forall id n, known m id = Some n ->
    exists n', known m' id = Some n' /\ Incarnation n <= Incarnation n' /\
      GRPCAddr n' = GRPCAddr n /\ GossipAddr n' = GossipAddr n /\ HTTPAddr n' = HTTPAddr n.

#[global] Instance evolves_refl : Reflexive evolves.
Proof. intros m. split_and!; [done|done|]. intros id n Hn. by exists n. Qed.

#[global] Instance evolves_trans : Transitive evolves.
Proof.
  intros m1 m2 m3 (E1 & L1 & H1) (E2 & L2 & H2). split_and!; [congruence|lia|].
  intros id n (n' & Hn' & Hl & ? & ? & ?)%H1.
  destruct (H2 id n' Hn') as (n'' & ? & ? & ? & ? & ?). exists n''. split_and!; congruence || lia.
Qed.

(** [good s s' m m']: going from [m], where all suspected nodes but [s] have
    their timer, to [m'], where all but [s'] do, keeps the invariant. *)
Definition good (s s' : option string) (m m' : Membership) : Prop :=
  mem_ok m -> mem_ok m' /\ (timed s m -> timed s' m') /\ evolves m m'.

Lemma good_refl s m : good s s m m.
Proof. intros H. split_and!; done. Qed.

Lemma good_trans s1 s2 s3 m1 m2 m3 : good s1 s2 m1 m2 -> good s2 s3 m2 m3 -> good s1 s3 m1 m3.
Proof.
  intros H12 H23 H1. destruct (H12 H1) as (H2 & T12 & E12).
  destruct (H23 H2) as (H3 & T23 & E23). split_and!; [done|by auto|by etrans].
Qed.

Lemma good_weaken id s' m m' : good (Some id) s' m m' -> good None s' m m'.
Proof.
  intros H Hok. destruct (H Hok) as (H1 & H2 & H3). split_and!; [done| |done].
  intros Ht. apply H2. intros id' n _. by apply Ht.
Qed.

(** Nothing happens to a node that is not suspected. *)
Lemma good_unsuspected id m :
  (forall n, known m id = Some n -> Status n <> StatusSuspect) -> good (Some id) None m m.
Proof. intros Hn Hok. split_and!; [done|by intros ?%timed_skip|done]. Qed.

Lemma same_core_good s m m' : same_core m m' -> good s s m m'.
Proof.
  intros Hc Hok. split_and!; [by eapply same_core_ok|by apply same_core_timed|].
  pose proof Hc as (E1 & _ & _ & _ & E5 & _). split_and!; [done|lia|].
  intros id n Hn. exists n. by rewrite (same_core_known m m').
Qed.

#[export] Hint Resolve same_core_good WriteToUDP_core emitEvent_core ack_timeout_core
  register_ack_core SetFaultInjector_core Stop_close_core forwardAck_core handleJoin_core
  sendPingReqs_core JoinCluster_core : cache.

(** An update of one registered node, seen from outside. *)
Lemma evolves_write m m' id n n' :
  selfID m' = selfID m -> incarnation m <= incarnation m' ->
  (forall id', known m' id' = if decide (id' = id) then Some n' else known m id') ->
  known m id = Some n -> Incarnation n <= Incarnation n' ->
  GRPCAddr n' = GRPCAddr n -> GossipAddr n' = GossipAddr n -> HTTPAddr n' = HTTPAddr n ->
  evolves m m'.
Proof.
  intros E L Hk Hn Hi A1 A2 A3. split_and!; [done|done|]. intros id' n0 Hn0. rewrite Hk.
  case_decide as Hid; [|by exists n0]. subst id'. rewrite Hn in Hn0. simplify_eq. by exists n'.
Qed.

Lemma queueUpdate_good s u m :
  (u_NodeID u = selfID m -> u_Incarnation u <= incarnation m) -> good s s m (queueUpdate u m).
Proof. intros Hu Hok. split_and!; [by apply enqueue_ok|done|exact (evolves_refl m)]. Qed.

Lemma drainUpdates_good s m : good s s m (drainUpdates m).2.
Proof.
  intros Hok. split; [by apply drainUpdates_ok|]. unfold drainUpdates.
  destruct (drain (updateQueue m)). split; [done|exact (evolves_refl m)].
Qed.

(** A status or incarnation written to a registered node. *)
Lemma write_good m id l n f :
  Get (nodeHeap m) (registry m) id = Some (l, n) ->
  (id = selfID m -> Status (f n) = StatusAlive \/ Status (f n) = StatusLeft) ->
  (forall n, ID (f n) = ID n) -> status_ok (Status (f n)) ->
  Incarnation n <= Incarnation (f n) -> (Incarnation n < MaxUint64 -> Incarnation (f n) < MaxUint64) ->
  GRPCAddr (f n) = GRPCAddr n -> GossipAddr (f n) = GossipAddr n -> HTTPAddr (f n) = HTTPAddr n ->
  let m' := set_nodeHeap (alter f l (nodeHeap m)) m in
  good (Some id) (if decide (Status (f n) = StatusSuspect) then Some id else None) m m'.
Proof.
  intros HG Hself Hf Hs Hi Hi' A1 A2 A3 m' Hok.
  destruct (ok_nodes m Hok id n (Get_known _ _ _ _ HG)) as [_ Hn].
  destruct (set_heap_ok m id l n f Hok HG Hf Hs ltac:(lia) Hself) as [Hok' Hk].
  split_and!; [done| |].
  - intros Ht. assert (timed (Some id) m') as Ht' by
      (eapply timed_write; [exact Ht| |exact Hk]; subst m'; frame).
    case_decide as E; [done|]. apply (timed_skip m' id Ht'). intros n'. rewrite Hk.
    rewrite decide_True by done. by intros [= <-].
  - apply (evolves_write m m' id n (f n)); try done. by eapply Get_known.
Qed.

Lemma status_good m id l n s :
  Get (nodeHeap m) (registry m) id = Some (l, n) ->
  (id = selfID m -> s = StatusAlive \/ s = StatusLeft) -> status_ok s ->
  good (Some id) (if decide (s = StatusSuspect) then Some id else None) m (set_node_status s l m).
Proof. intros HG Hself Hs. by apply (write_good m id l n (with_status s)). Qed.

Lemma start_timer_good m id : id <> selfID m -> good (Some id) None m (start_timer id m).
Proof.
  intros Hid Hok. destruct (start_timer_ok m id Hok Hid) as (Hok' & Hk & Ht).
  split_and!; [done|done|]. split_and!.
  - unfold start_timer. by case_match.
  - unfold start_timer. case_match; simpl; lia.
  - intros id' n Hn. exists n. by rewrite Hk.
Qed.

(** A timer can go when its node is not suspected. *)
Lemma cancel_timer_good m id :
  (forall n, known m id = Some n -> Status n <> StatusSuspect) -> good None None m (cancel_timer id m).
Proof.
  intros Hn Hok. destruct (cancel_timer_ok m id Hok) as (Hok' & Hk & _ & Ht).
  split_and!; [done| |].
  - intros Htm. apply (timed_skip _ id).
    + apply Ht. intros id' n' _. by apply Htm.
    + intros n. rewrite Hk. apply Hn.
  - split_and!.
    + unfold cancel_timer. by case_match.
    + unfold cancel_timer. case_match; simpl; lia.
    + intros id' n'. rewrite <- Hk. intros Hn'. by exists n'.
Qed.

Lemma known_write m id l n f :
  mem_ok m -> Get (nodeHeap m) (registry m) id = Some (l, n) -> (forall n, ID (f n) = ID n) ->
  known (set_nodeHeap (alter f l (nodeHeap m)) m) id = Some (f n).
Proof.
  intros Hok HG Hf. destruct (info_alter _ _ id l n f (ok_wf m Hok) HG Hf) as [_ Hk].
  unfold known. simpl. rewrite Hk. by rewrite decide_True.
Qed.

(** A write that leaves its node unsuspected, then the end of the timer. *)
Lemma clear_good m id l n f :
  Get (nodeHeap m) (registry m) id = Some (l, n) -> id <> selfID m ->
  (forall n, ID (f n) = ID n) -> status_ok (Status (f n)) -> Status (f n) <> StatusSuspect ->
  Incarnation n <= Incarnation (f n) -> (Incarnation n < MaxUint64 -> Incarnation (f n) < MaxUint64) ->
  GRPCAddr (f n) = GRPCAddr n -> GossipAddr (f n) = GossipAddr n -> HTTPAddr (f n) = HTTPAddr n ->
  good (Some id) None m (cancel_timer id (set_nodeHeap (alter f l (nodeHeap m)) m)).
Proof.
  intros HG Hid Hf Hs Hns Hi Hi' A1 A2 A3 Hok.
  assert (good (Some id) None m (set_nodeHeap (alter f l (nodeHeap m)) m)) as H1.
  { pose proof (write_good m id l n f HG ltac:(done) Hf Hs Hi Hi' A1 A2 A3) as H.
    by rewrite decide_False in H by done. }
  refine (good_trans (Some id) None None m _ _ H1 (cancel_timer_good _ id _) Hok).
  intros n'. rewrite (known_write m id l n f) by done. by intros [= <-].
Qed.

(** ** The operations *)

Lemma emitEvent_good s e m : good s s m (emitEvent e m).
Proof. apply same_core_good, emitEvent_core. Qed.

Lemma WriteToUDP_good s msg to m : good s s m (WriteToUDP msg to m).
Proof. apply same_core_good, WriteToUDP_core. Qed.

Lemma emitEvent_selfID e m : selfID (emitEvent e m) = selfID m.
Proof. unfold emitEvent. by case_match. Qed.

Lemma markSuspect_good id m : id <> selfID m -> good None None m (markSuspect id m).
Proof.
  intros Hid. unfold markSuspect.
  destruct (Get (nodeHeap m) (registry m) id) as [[l n]|] eqn:HG; [|apply good_refl].
  repeat (case_match; [apply good_refl|]).
  pose proof (status_good m id l n StatusSuspect HG ltac:(done) ltac:(done)) as H1.
  rewrite decide_True in H1 by done.
  eapply good_trans; [|apply start_timer_good; by rewrite emitEvent_selfID].
  eapply good_trans; [|apply emitEvent_good].
  eapply good_trans; [exact (good_weaken _ _ _ _ H1)|]. apply queueUpdate_good. simpl. congruence.
Qed.

Lemma markDead_good id m : id <> selfID m -> good (Some id) None m (markDead id m).
Proof.
  intros Hid. unfold markDead.
  destruct (Get (nodeHeap m) (registry m) id) as [[l n]|] eqn:HG.
  2: { apply good_unsuspected. intros n. unfold known, info. by rewrite HG. }
  case_match eqn:Hd.
  { apply good_unsuspected. intros n'. rewrite (Get_known m id l n HG). intros [= <-].
    apply Z.eqb_eq in Hd. unfold GetStatus in Hd. by rewrite Hd. }
  eapply good_trans; [by apply (clear_good m id l n (with_status StatusDead))|].
  eapply good_trans; [|apply emitEvent_good]. apply queueUpdate_good.
  simpl. unfold cancel_timer. case_match; simpl; congruence.
Qed.

Lemma markSuspectLocked_good id l n m :
  id <> selfID m -> Get (nodeHeap m) (registry m) id = Some (l, n) ->
  good None None m (markSuspectLocked id l m).
Proof.
  intros Hid HG. unfold markSuspectLocked.
  pose proof (status_good m id l n StatusSuspect HG ltac:(done) ltac:(done)) as H1.
  rewrite decide_True in H1 by done. eapply good_trans; [exact (good_weaken _ _ _ _ H1)|].
  eapply good_trans; [by apply start_timer_good|]. apply emitEvent_good.
Qed.

Lemma refute_good u m : 0 <= u_Incarnation u < MaxUint64 -> good None None m (refute u m).
Proof.
  intros Hu. unfold refute. eapply good_trans; [|apply queueUpdate_good; done].
  destruct (Z.leb_spec (incarnation m) (u_Incarnation u)) as [Hle|]; [|apply good_refl].
  unfold MaxUint64 in *. rewrite u64_small by lia. intros Hok. destruct Hok. split_and!.
  - constructor; try done; simpl; [|unfold MaxUint64; lia].
    intros q Hq Hid. specialize (ok_queue_self0 q Hq Hid). lia.
  - done.
  - split_and!; [done|simpl; lia|]. intros id n Hn. by exists n.
Qed.

Lemma register_good m u now :
  u_NodeID u <> selfID m -> 0 <= u_Incarnation u < MaxUint64 ->
  Get (nodeHeap m) (registry m) (u_NodeID u) = None ->
  let '(l, h) := alloc (with_incarnation (u_Incarnation u)
    (NewNodeInfo now (u_NodeID u) (u_GRPCAddr u) (u_GossipAddr u) (u_HTTPAddr u))) (nodeHeap m) in
  good None None m (set_registry (Register h l (registry m)) (set_nodeHeap h m)).
Proof.
  intros Hid Hu HN. set (n := with_incarnation _ _).
  destruct (alloc n (nodeHeap m)) as [l h] eqn:Ea. intros Hok.
  pose proof (info_register (nodeHeap m) (registry m) n (ok_wf m Hok)) as H.
  rewrite Ea in H. destruct H as [Hwf Hk].
  assert (nodes (Register h l (registry m)) !! selfID m = Some (selfInfo m)) as Hself.
  { unfold alloc in Ea. simplify_eq. unfold Register. rewrite lookup_insert_eq. simpl.
    rewrite lookup_insert_ne by done. apply (ok_self m Hok). }
  change (ID n) with (u_NodeID u) in Hk.
  assert (known m (u_NodeID u) = None) as Hnone by (unfold known, info; by rewrite HN).
  set (m' := set_registry _ _).
  assert (forall id', known m' id' = if decide (id' = u_NodeID u) then Some n else known m id')
    as Hk' by exact Hk.
  split_and!.
  - destruct Hok. constructor; try done.
    + intros id' n'. rewrite Hk'. case_decide; [|by apply ok_nodes0]. intros [= <-].
      split; [|done]. unfold status_ok. simpl. unfold StatusAlive. lia.
    + intros n'. rewrite Hk'. case_decide as E; [by simplify_eq/=|by apply ok_self_status0].
  - intros Ht id' n' _. rewrite Hk'. case_decide; [by intros [= <-]|by apply Ht].
  - split_and!; [done|simpl; lia|]. intros id' n' Hn'. exists n'. rewrite Hk'.
    case_decide; [congruence|done].
Qed.

(** The writes of an ALIVE update, in one. *)
Definition revive (now : Time) (inc : Z) (n : NodeInfo) : NodeInfo :=
  with_last_seen now (with_incarnation inc (with_status StatusAlive n)).

Lemma revive_eq now inc l h :
  Touch now l (SetIncarnation inc l (SetStatus StatusAlive l h)) = alter (revive now inc) l h.
Proof. unfold Touch, SetIncarnation, SetStatus. by rewrite !alter_alter_eq. Qed.

Lemma applyUpdate_good now u m :
  0 <= u_Incarnation u < MaxUint64 -> good None None m (applyUpdate now u m).
Proof.
  intros Hu. unfold applyUpdate. destruct (String.eqb_spec (u_NodeID u) (selfID m)) as [E|Hid].
  { case_match; [by apply refute_good|apply good_refl]. }
  destruct (Get (nodeHeap m) (registry m) (u_NodeID u)) as [[l n]|] eqn:HG.
  - destruct (Z.ltb_spec (u_Incarnation u) (Incarnation n)); [apply good_refl|].
    repeat case_match; try apply good_refl.
    + eapply good_trans; [|apply emitEvent_good]. rewrite revive_eq.
      apply (good_weaken (u_NodeID u)), (clear_good m (u_NodeID u) l n (revive now (u_Incarnation u)) HG); simpl; done || lia.
    + by apply (markSuspectLocked_good _ l n).
    + eapply good_trans; [|apply emitEvent_good].
      by apply (good_weaken (u_NodeID u)), (clear_good m (u_NodeID u) l n (with_status StatusDead)).
    + eapply good_trans; [|apply emitEvent_good].
      pose proof (status_good m _ l n StatusLeft HG ltac:(done) ltac:(done)) as Hl.
      rewrite decide_False in Hl by done. by apply good_weaken in Hl.
  - case_match; [|apply good_refl].
    pose proof (register_good m u now Hid Hu HG) as H1. simpl in H1.
    eapply good_trans; [exact H1|]. eapply good_trans; [apply emitEvent_good|].
    apply queueUpdate_good. rewrite emitEvent_selfID. simpl. congruence.
Qed.

Lemma handlePing_good from m : good None None m (handlePing from m).
Proof.
  unfold handlePing. pose proof (drainUpdates_good None m) as H.
  destruct (drainUpdates m) as [us m1]. eapply good_trans; [exact H|apply WriteToUDP_good].
Qed.

Lemma handleAck_good now msg m : good None None m (handleAck now msg m).
Proof.
  unfold handleAck. set (m1 := match _ with Some ch => _ | None => m end).
  assert (good None None m m1) as H1 by (apply same_core_good; subst m1; frame).
  clearbody m1. destruct (Get (nodeHeap m1) (registry m1) (SenderID msg)) as [[l n]|] eqn:HG; [|done].
  eapply good_trans; [exact H1|]. intros Hok.
  destruct (ok_nodes m1 Hok _ _ (Get_known _ _ _ _ HG)) as [Hs Hi].
  destruct (set_heap_ok m1 _ l n (with_last_seen now) Hok HG) as [Hok' Hk]; try done.
  { intros E. apply (ok_self_status m1 Hok n). rewrite <- E. by eapply Get_known. }
  assert (forall id n', known m1 id = Some n' ->
    exists n'', known (set_nodeHeap (Touch now l (nodeHeap m1)) m1) id = Some n'' /\
      Status n'' = Status n' /\ Incarnation n' = Incarnation n'' /\ GRPCAddr n'' = GRPCAddr n' /\
      GossipAddr n'' = GossipAddr n' /\ HTTPAddr n'' = HTTPAddr n') as Hsame.
  { intros id n' Hn'. unfold Touch. rewrite Hk. case_decide as E; [|by exists n'].
    subst id. apply Get_known in HG. rewrite HG in Hn'. simplify_eq. by exists (with_last_seen now n'). }
  split_and!; [done| |].
  - intros Ht id n' Hne. unfold Touch. rewrite Hk. case_decide as E; [|by apply Ht].
    intros [= <-] Hst. apply (Ht id n Hne); [subst id; by eapply Get_known|done].
  - split_and!; [done|simpl; lia|].
    intros id n' (n'' & ? & _ & ? & ? & ? & ?)%Hsame. exists n''. split_and!; done || lia.
Qed.

Lemma sendPing_good resolve a id m : good None None m (sendPing resolve a id m).2.
Proof.
  unfold sendPing. case_match; [apply good_refl|]. case_match; [|apply good_refl].
  destruct (register_ack id m) as [ch m1] eqn:E1.
  assert (good None None m m1) as H1 by (apply same_core_good; unfold register_ack in E1; frame).
  pose proof (drainUpdates_good None m1) as H2. destruct (drainUpdates m1) as [us m2].
  eapply good_trans; [exact H1|]. eapply good_trans; [exact H2|apply WriteToUDP_good].
Qed.

Lemma handlePingReq_good resolve msg m : good None None m (handlePingReq resolve msg m).2.
Proof.
  unfold handlePingReq. destruct (Get _ _ _) as [[l n]|]; [|apply good_refl].
  pose proof (sendPing_good resolve (GossipAddr n) (TargetID msg) m) as H.
  by destruct (sendPing resolve (GossipAddr n) (TargetID msg) m).
Qed.

Lemma apply_all_good now us m :
  Forall (fun u => 0 <= u_Incarnation u < MaxUint64) us ->
  good None None m (fold_left (fun m u => applyUpdate now u m) us m).
Proof.
  intros Hus. revert m. induction Hus as [|u us Hu _ IH]; intros m; [apply good_refl|].
  simpl. eapply good_trans; [by apply applyUpdate_good|apply IH].
Qed.

Lemma handleMessage_good resolve now ord msg from m :
  incarnations_ok msg -> good None None m (handleMessage resolve now ord msg from m).2.
Proof.
  intros Hm. unfold handleMessage. set (m1 := fold_left _ _ m).
  assert (good None None m m1) as H1 by by apply apply_all_good.
  clearbody m1. repeat case_match; eapply good_trans; try exact H1; simpl.
  - apply handlePing_good.
  - apply handleAck_good.
  - apply handlePingReq_good.
  - apply same_core_good, handleJoin_core.
  - apply good_refl.
Qed.

Lemma probe_indirect_good resolve target shuffled m :
  ID target <> selfID m -> good None None m (probe_indirect resolve target shuffled m).2.
Proof.
  intros Hid. unfold probe_indirect. pose proof (sendPingReqs_core resolve (ID target) shuffled m) as H.
  destruct (sendPingReqs resolve (ID target) shuffled m) as [[ch|] m1]; simpl in *.
  - by apply same_core_good.
  - eapply good_trans; [by apply same_core_good|]. apply markSuspect_good.
    by destruct H as [-> _].
Qed.

(** ** The invariant of the node *)

(** [Stop] has returned from waiting: no loop runs any more. *)
Definition finished (n : node) : Prop := recv n = RDone /\ ping n = PDone.

Definition target_ok (n : node) : Prop :=
  match ping n with
  | PDirect _ target | PIndirect _ target => ID target <> selfID (mem n)
  | _ => True
  end.

Definition node_ok (n : node) : Prop :=
  mem_ok (mem n) /\ target_ok n /\ (~ finished n -> timed None (mem n)).

Lemma candidates_ne self all i target : candidates self all !! i = Some target -> ID target <> self.
Proof. intros H%list_elem_of_lookup_2. by apply list_elem_of_filter in H as [[? _] _]. Qed.

Lemma fire_good m t id :
  armed (rt m) !! t = Some id ->
  good None None m (set_rt (set_firing (firing (rt m) ++ [id])
                     (set_armed (delete t (armed (rt m))) (rt m))) m).
Proof.
  intros Ha Hok. pose proof (ok_armed m Hok t id Ha) as Hst.
  split_and!; [| |exact (evolves_refl m)].
  - destruct Hok. constructor; try done; simpl.
    + intros t' id' [_ H]%lookup_delete_Some. by apply ok_armed0.
    + intros id'. rewrite elem_of_app, list_elem_of_singleton. intros [?| ->]; [by apply ok_firing0|].
      by apply (ok_timers0 id t).
  - intros Ht id' n Hne Hk Hs. simpl. rewrite elem_of_app, list_elem_of_singleton.
    destruct (decide (id' = id)) as [->|Hid]; [by left; right|].
    destruct (Ht id' n Hne Hk Hs) as [?|(t' & H1 & H2)]; [by left; left|].
    right. exists t'. split; [done|]. rewrite lookup_delete_ne; [done|]. congruence.
Qed.

Lemma fired_good m id before after :
  firing (rt m) = before ++ id :: after ->
  good None None m (markDead id (set_rt (set_firing (before ++ after) (rt m)) m)).
Proof.
  intros Hf. set (m1 := set_rt _ m).
  assert (good None (Some id) m m1) as H1.
  { intros Hok. split_and!; [| |exact (evolves_refl m)].
    - destruct Hok. constructor; try done. simpl. intros id' Hid'. apply ok_firing0.
      rewrite Hf. rewrite elem_of_app, elem_of_cons. rewrite elem_of_app in Hid'. tauto.
    - intros Ht id' n Hne Hk Hs. simpl.
      destruct (Ht id' n ltac:(done) Hk Hs) as [Hin|H]; [left|by right].
      rewrite Hf, elem_of_app, elem_of_cons in Hin. rewrite elem_of_app.
      assert (id' <> id) by congruence. tauto. }
  intros Hok. refine (good_trans _ _ _ _ _ _ H1 (markDead_good id m1 _) Hok).
  apply (ok_firing m Hok). rewrite Hf, elem_of_app, elem_of_cons. tauto.
Qed.

Lemma leave_good m : mem_ok m -> good None None m (Stop_leave m).
Proof.
  intros Hok. unfold Stop_leave.
  destruct (ok_wf m Hok _ _ (ok_self m Hok)) as (n & Hn & Hid).
  assert (Get (nodeHeap m) (registry m) (selfID m) = Some (selfInfo m, n)) as HG
    by (apply Get_Some; split; [apply (ok_self m Hok)|done]).
  pose proof (status_good m _ _ n StatusLeft HG ltac:(by right) ltac:(done)) as H.
  rewrite decide_False in H by done. apply good_weaken in H.
  eapply good_trans; [exact H|]. apply queueUpdate_good. simpl. lia.
Qed.

Lemma stop_timer_ok m t : mem_ok m -> mem_ok (stop_timer t m) /\ evolves m (stop_timer t m).
Proof.
  intros Hok. split; [|exact (evolves_refl m)]. destruct Hok. constructor; try done. simpl.
  intros t' id' [_ H]%lookup_delete_Some. by apply ok_armed0.
Qed.

Lemma Stop_timers_ok m : mem_ok m -> mem_ok (Stop_timers m) /\ evolves m (Stop_timers m).
Proof.
  unfold Stop_timers. generalize ((map_to_list (suspicionTimers m)).*2). intros ts.
  revert m. induction ts as [|t ts IH]; intros m Hok; [done|]. simpl.
  destruct (stop_timer_ok m t Hok) as [H1 H2]. destruct (IH _ H1) as [H3 H4].
  split; [done|by etrans].
Qed.

Lemma probe_target_ok resolve target shuffled m p m' :
  ID target <> selfID m -> probe_indirect resolve target shuffled m = (p, m') ->
  evolves m m' -> match p with PDirect _ t | PIndirect _ t => ID t <> selfID m' | _ => True end.
Proof.
  intros Hid Hp [Hs _]. unfold probe_indirect in Hp. rewrite Hs. by repeat case_match; simplify_eq.
Qed.

(** The state of every step but the last of [Stop], and its effect on the
    probe in flight. *)
Lemma step_good resolve n n' :
  step resolve n n' -> node_ok n ->
  (good None None (mem n) (mem n') \/
   finished n' /\ mem_ok (mem n') /\ evolves (mem n) (mem n')) /\
  (evolves (mem n) (mem n') -> target_ok n').
Proof.
  intros Hstep (Hok & Htg & _).
  assert (forall m m', good None None m m' -> good None None m m' \/
    finished n' /\ mem_ok m' /\ evolves m m') as Hl by by left.
  destruct Hstep; unfold target_ok in *; simpl in *;
    try (split; [|by (intros [Hs _]; rewrite ?Hs in *; done)]);
    lazymatch goal with |- context [Stop_timers] => idtac | _ => try apply Hl end;
    try (apply same_core_good; by eauto with cache); try apply good_refl.
  - pose proof (handleMessage_good resolve now ord msg from m H0) as Hg. by rewrite H2 in Hg.
  - split.
    + apply Hl. pose proof (sendPing_good resolve (GossipAddr target) (ID target) m) as Hg.
      by rewrite H1 in Hg.
    + intros [-> _]. by eapply candidates_ne.
  - apply candidates_ne in H0.
    assert (m' = m) as -> by (unfold sendPing in H1; repeat case_match; by simplify_eq).
    pose proof (probe_indirect_good resolve target shuffled m H0) as Hg. rewrite H3 in Hg.
    split; [by apply Hl|by apply (probe_target_ok resolve target shuffled m)].
  - pose proof (probe_indirect_good resolve target shuffled (ack_timeout (ID target) m) Htg) as Hg.
    rewrite H0 in Hg. split; [apply Hl|].
    + eapply good_trans; [|exact Hg]. apply same_core_good, ack_timeout_core.
    + by apply (probe_target_ok resolve target shuffled (ack_timeout (ID target) m)).
  - pose proof (probe_indirect_good resolve target shuffled m Htg) as Hg. rewrite H1 in Hg.
    split; [by apply Hl|by apply (probe_target_ok resolve target shuffled m)].
  - eapply good_trans; [apply same_core_good, ack_timeout_core|]. by apply markSuspect_good.
  - by apply markSuspect_good.
  - by apply fire_good.
  - by apply fired_good.
  - pose proof (JoinCluster_core resolve write_ok seeds m) as Hc. rewrite H in Hc.
    by apply same_core_good.
  - by apply leave_good.
  - right. split; [done|]. by apply Stop_timers_ok.
Qed.

Lemma finished_step resolve n n' : step resolve n n' -> finished n -> finished n'.
Proof. intros Hstep [Hr Hp]. destruct Hstep; by simplify_eq/=. Qed.

Lemma step_ok resolve n n' :
  step resolve n n' -> node_ok n -> node_ok n' /\ evolves (mem n) (mem n').
Proof.
  intros Hstep Hn. destruct (step_good resolve n n' Hstep Hn) as [[Hg|(Hf & Hok' & He)] Ht].
  - destruct Hn as (Hok & _ & Htm). destruct (Hg Hok) as (Hok' & Htm' & He).
    split; [|done]. split_and!; [done|by apply Ht|].
    intros Hnf. apply Htm', Htm. intros Hf. apply Hnf. by eapply finished_step.
  - split; [|done]. split_and!; [done|by apply Ht|done].
Qed.

Lemma steps_ok resolve n n' :
  rtc (step resolve) n n' -> node_ok n -> node_ok n' /\ evolves (mem n) (mem n').
Proof.
  induction 1 as [n|n1 n2 n3 H12 _ IH]; intros Hn; [done|].
  destruct (step_ok resolve n1 n2 H12 Hn) as [Hn2 He]. destruct (IH Hn2) as [? ?].
  split; [done|by etrans].
Qed.

(** A node right after [Start] knows only itself. *)
Lemma boot_known now id g s h cb fi id' :
  known (mem (boot now id g s h cb fi)) id'
  = if decide (id' = id) then Some (NewNodeInfo now id g s h) else None.
Proof.
  unfold boot, known. simpl. unfold info, Get, Register. simpl.
  rewrite lookup_insert_eq. simpl. case_decide as E.
  - subst. rewrite lookup_insert_eq. simpl. by rewrite lookup_insert_eq.
  - by rewrite lookup_insert_ne by done.
Qed.

Lemma boot_ok now id g s h cb fi : node_ok (boot now id g s h cb fi).
Proof.
  pose proof (boot_known now id g s h cb fi) as Hk. split_and!.
  - unfold boot in *. simpl in *. constructor; simpl in *.
    + intros id' l. unfold Register. simpl. rewrite lookup_insert_eq. simpl.
      rewrite lookup_insert_Some, lookup_empty. intros [[<- <-]|[_ [=]]].
      eexists. by rewrite lookup_insert_eq.
    + unfold Register. simpl. rewrite !lookup_insert_eq. simpl. apply lookup_insert_eq.
    + intros id' n'. rewrite Hk. case_decide; [|done]. intros [= <-].
      split; [done|]. unfold MaxUint64. simpl. lia.
    + intros n'. rewrite Hk. case_decide; [|done]. intros [= <-]. by left.
    + split; [apply NoDup_singleton|]. repeat constructor; simpl; lia.
    + intros q ->%list_elem_of_singleton _. simpl. lia.
    + unfold MaxUint64. lia.
    + intros t id'. by rewrite lookup_empty.
    + intros id' t. by rewrite lookup_empty.
    + intros id1 id2 t. by rewrite lookup_empty.
    + by intros id' []%elem_of_nil.
  - done.
  - intros _ id' n _. rewrite Hk. case_decide; [|done]. by intros [= <-].
Qed.

Lemma reachable_ok resolve n : reachable resolve n -> node_ok n.
Proof.
  intros (now & id & g & s & h & cb & fi & H). by apply (steps_ok resolve _ _ H), boot_ok.
Qed.
