(* ===== verification/SwimAcks.v ===== *)
(** * Acks: which wait a received ack can end

    Only the receive loop runs [handleAck], so a receive loop that itself waits
    for an ack, in [handlePingReq], waits in vain. *)

From stdpp Require Import relations.
From S2P Require Import Prelude GoLib Chaos Registry Gossip Membership Swim SwimInv.

#[local] Open Scope Z_scope.

(** ** Channels and the acks sent *)

(** Every pending ack is a channel already made. *)
Definition pend_ok (m : Membership) : Prop :=
  forall id ch, pendingAcks m !! id = Some ch -> (ch < nextChan (rt m))%nat.

(** Every ack the node has sent is its own. *)
Definition acks_own (m : Membership) : Prop :=
  forall to msg, (to, msg) ∈ sent (rt m) -> Type_ msg = MsgAck -> SenderID msg = selfID m.

(** A step that closes no channel and forwards no ack. *)
Definition quiet (m m' : Membership) : Prop :=
  selfID m' = selfID m /\ closed (rt m') = closed (rt m) /\
  (nextChan (rt m) <= nextChan (rt m'))%nat /\
  (pend_ok m -> pend_ok m') /\ (acks_own m -> acks_own m').

#[global] Instance quiet_refl : Reflexive quiet.
Proof. intros m. split_and!; auto. Qed.

#[global] Instance quiet_trans : Transitive quiet.
Proof.
  intros m1 m2 m3 (E1 & C1 & N1 & P1 & A1) (E2 & C2 & N2 & P2 & A2).
  split_and!; [congruence|congruence|lia|auto|auto].
Qed.

(** The fields [quiet] speaks of. *)
Definition same_acks (m m' : Membership) : Prop :=
  selfID m' = selfID m /\ closed (rt m') = closed (rt m) /\
  nextChan (rt m') = nextChan (rt m) /\ pendingAcks m' = pendingAcks m /\
  sent (rt m') = sent (rt m).

Lemma same_acks_quiet m m' : same_acks m m' -> quiet m m'.
Proof.
  intros (E & C & N & P & S). unfold quiet, pend_ok, acks_own. rewrite E, C, N, P, S.
  split_and!; done.
Qed.

#[global] Instance same_acks_refl : Reflexive same_acks.
Proof. unfold same_acks. by intros m. Qed.

#[global] Instance same_acks_trans : Transitive same_acks.
Proof. unfold same_acks. intros m1 m2 m3; intros; destruct_and!. split_and!; congruence. Qed.

Ltac acks := unfold same_acks; intros; repeat case_match; simplify_eq; split_and!; reflexivity.

Lemma emitEvent_acks e m : same_acks m (emitEvent e m).
Proof. unfold emitEvent. acks. Qed.

Lemma cancel_timer_acks id m : same_acks m (cancel_timer id m).
Proof. unfold cancel_timer. acks. Qed.

Lemma start_timer_acks id m : same_acks m (start_timer id m).
Proof. unfold start_timer. acks. Qed.

Lemma drainUpdates_acks m : same_acks m (drainUpdates m).2.
Proof. unfold drainUpdates. acks. Qed.

Lemma markSuspect_acks id m : same_acks m (markSuspect id m).
Proof.
  unfold markSuspect. repeat (case_match; try done).
  etrans; [|apply start_timer_acks]. etrans; [|apply emitEvent_acks]. done.
Qed.

Lemma markDead_acks id m : same_acks m (markDead id m).
Proof.
  unfold markDead. repeat (case_match; try done).
  etrans; [|apply emitEvent_acks]. etrans; [|acks]. etrans; [|apply cancel_timer_acks]. done.
Qed.

Lemma refute_acks u m : same_acks m (refute u m).
Proof. unfold refute. acks. Qed.

Lemma applyUpdate_acks now u m : same_acks m (applyUpdate now u m).
Proof.
  unfold applyUpdate. repeat (case_match; try done); try apply refute_acks.
  - etrans; [|apply emitEvent_acks]. etrans; [|apply cancel_timer_acks]. done.
  - unfold markSuspectLocked. etrans; [|apply emitEvent_acks].
    etrans; [|apply start_timer_acks]. done.
  - etrans; [|apply emitEvent_acks]. etrans; [|apply cancel_timer_acks]. done.
  - etrans; [|apply emitEvent_acks]. done.
  - match goal with |- same_acks _ (queueUpdate _ ?x) => transitivity x; [|done] end.
    etrans; [|apply emitEvent_acks]. done.
Qed.

Lemma apply_all_acks now us m :
  same_acks m (fold_left (fun m u => applyUpdate now u m) us m).
Proof.
  revert m. induction us as [|u us IH]; intros m; [done|]. simpl.
  etrans; [apply applyUpdate_acks|apply IH].
Qed.

(** ** Operations that send *)

Lemma WriteToUDP_quiet msg to m :
  (Type_ msg = MsgAck -> SenderID msg = selfID m) -> quiet m (WriteToUDP msg to m).
Proof.
  intros Hm. unfold WriteToUDP. case_match; [|done]. split_and!; try done.
  intros Ha to' msg'. simpl. rewrite elem_of_app, list_elem_of_singleton.
  intros [Hin|[= -> ->]]; [by eapply Ha|done].
Qed.

Lemma register_ack_quiet id m : quiet m (register_ack id m).2.
Proof.
  split_and!; try done; simpl; [lia|]. intros Hp id' ch. simpl. rewrite lookup_insert_Some.
  intros [[_ <-]|[_ H]]; [lia|]. specialize (Hp id' ch H). lia.
Qed.

Lemma ack_timeout_quiet id m : quiet m (ack_timeout id m).
Proof.
  split_and!; try done. intros Hp id' ch. simpl. intros [_ H]%lookup_delete_Some. by apply (Hp id').
Qed.

Lemma handlePing_quiet from m : quiet m (handlePing from m).
Proof.
  unfold handlePing. pose proof (drainUpdates_acks m) as H.
  destruct (drainUpdates m) as [us m1]. etrans; [by apply same_acks_quiet|].
  by apply WriteToUDP_quiet.
Qed.

Lemma handleJoin_quiet ord from m : quiet m (handleJoin ord from m).
Proof. by apply WriteToUDP_quiet. Qed.

Lemma sendPing_quiet resolve a id m : quiet m (sendPing resolve a id m).2.
Proof.
  unfold sendPing. case_match; [done|]. case_match; [|done].
  pose proof (register_ack_quiet id m) as H1. destruct (register_ack id m) as [ch m1].
  pose proof (drainUpdates_acks m1) as H2. destruct (drainUpdates m1) as [us m2].
  etrans; [exact H1|]. etrans; [by apply same_acks_quiet|]. by apply WriteToUDP_quiet.
Qed.

(** The channel [sendPing] waits on is new. *)
Lemma sendPing_fresh resolve a id m ch m' :
  sendPing resolve a id m = (Some ch, m') -> ch = nextChan (rt m) /\ (ch < nextChan (rt m'))%nat.
Proof.
  unfold sendPing. case_match; [done|]. case_match; [|done].
  destruct (register_ack id m) as [ch1 m1] eqn:E. unfold register_ack in E.
  pose proof (drainUpdates_acks m1) as (_ & _ & H2 & _). destruct (drainUpdates m1) as [us m2].
  intros [= <- <-]. simplify_eq. split; [done|]. unfold WriteToUDP.
  case_match; simpl in *; rewrite H2; lia.
Qed.

Lemma sendPingReqs_quiet resolve t shuffled m : quiet m (sendPingReqs resolve t shuffled m).2.
Proof.
  unfold sendPingReqs. destruct shuffled as [|n l]; [done|].
  pose proof (register_ack_quiet t m) as H1. destruct (register_ack t m) as [ch m1].
  etrans; [exact H1|]. clear H1. cbn [snd].
  generalize (if (pingReqCount m <? length (n :: l))%nat then take (pingReqCount m) (n :: l) else n :: l).
  intros ps. revert m1. induction ps as [|p ps IH]; intros m1; [done|]. simpl.
  etrans; [|apply IH]. unfold send_ping_req. repeat case_match; try done.
  by apply WriteToUDP_quiet.
Qed.

Lemma probe_indirect_quiet resolve target shuffled m :
  quiet m (probe_indirect resolve target shuffled m).2.
Proof.
  unfold probe_indirect. pose proof (sendPingReqs_quiet resolve (ID target) shuffled m) as H.
  destruct (sendPingReqs resolve (ID target) shuffled m) as [[ch|] m1]; [done|].
  etrans; [exact H|]. apply same_acks_quiet, markSuspect_acks.
Qed.

Lemma JoinCluster_quiet resolve w seeds m : quiet m (JoinCluster resolve w seeds m).2.
Proof.
  unfold JoinCluster. destruct seeds as [|a seeds]; [done|].
  set (f := join_seed resolve w _).
  assert (forall l jm, quiet jm.2 (fold_left f l jm).2) as Hf.
  { induction l as [|x l IH]; intros [j m1]; [done|]. simpl fold_left.
    etrans; [|apply IH]. subst f. unfold join_seed. repeat case_match; try done.
    by apply WriteToUDP_quiet. }
  specialize (Hf (a :: seeds) (false, m)).
  destruct (fold_left f (a :: seeds) (false, m)) as [[] m']; exact Hf.
Qed.

Lemma Stop_timers_acks m : same_acks m (Stop_timers m).
Proof.
  unfold Stop_timers. generalize ((map_to_list (suspicionTimers m)).*2). intros ts.
  revert m. induction ts as [|t ts IH]; intros m; [done|]. simpl. etrans; [|apply IH]. done.
Qed.

(** ** The invariant *)

Definition acks_ok (n : node) : Prop :=
  pend_ok (mem n) /\ acks_own (mem n) /\
  (forall ch, ch ∈ closed (rt (mem n)) -> (ch < nextChan (rt (mem n)))%nat) /\
  match recv n with
  | RWait ch _ _ _ => ch ∉ closed (rt (mem n)) /\ (ch < nextChan (rt (mem n)))%nat
  | _ => True
  end.

(** A quiet step of another goroutine, or of the receiver going back to read. *)
Lemma quiet_acks_ok m r p m' r' p' :
  quiet m m' -> r' = r \/ r' = RRead \/ r' = RDone ->
  acks_ok (mkNodeState m r p) -> acks_ok (mkNodeState m' r' p').
Proof.
  intros (E & C & N & P & A) Hr (Hp & Ha & Hc & Hw). unfold acks_ok in *. simpl in *.
  rewrite C. split_and!; [auto|auto|intros ch Hch%Hc; lia|].
  destruct Hr as [->|[->| ->]]; [|done|done]. destruct r; [done| |done]. split; [tauto|lia].
Qed.

Lemma handleAck_acks_ok now msg m r' p p' :
  r' = RRead -> acks_ok (mkNodeState m RRead p) ->
  acks_ok (mkNodeState (handleAck now msg m) r' p').
Proof.
  intros -> (Hp & Ha & Hc & _). unfold handleAck.
  set (m1 := match _ with Some ch => _ | None => m end).
  assert (acks_ok (mkNodeState m1 RRead p)) as H1.
  { subst m1. destruct (pendingAcks m !! SenderID msg) as [ch|] eqn:E; [|done].
    unfold acks_ok. simpl in *. split_and!; try done.
    - intros id ch'. simpl. intros [_ H]%lookup_delete_Some. by apply (Hp id).
    - intros ch'. rewrite elem_of_union, elem_of_singleton. intros [->|?]; [|by apply Hc].
      by apply (Hp (SenderID msg)). }
  clearbody m1. case_match; [|exact H1]. case_match. simplify_eq. exact H1.
Qed.

Lemma handleMessage_acks_ok resolve now ord msg from m w m' p :
  handleMessage resolve now ord msg from m = (w, m') -> acks_ok (mkNodeState m RRead p) ->
  acks_ok (mkNodeState m' (match w with
    | Some (ch, address) => RWait ch (TargetID msg) address from | None => RRead end) p).
Proof.
  unfold handleMessage. set (m1 := fold_left _ _ m). intros Hh H0.
  assert (acks_ok (mkNodeState m1 RRead p)) as H1.
  { apply (quiet_acks_ok m RRead p); [|by left|done]. apply same_acks_quiet, apply_all_acks. }
  clearbody m1. clear H0.
  destruct (Type_ msg =? MsgPing).
  { simplify_eq. apply (quiet_acks_ok m1 RRead p); [apply handlePing_quiet|by left|done]. }
  destruct (Type_ msg =? MsgAck).
  { simplify_eq. by apply (handleAck_acks_ok now msg m1 _ p). }
  destruct (Type_ msg =? MsgPingReq).
  { unfold handlePingReq in Hh. destruct (Get _ _ _) as [[l n]|]; [|by simplify_eq].
    pose proof (sendPing_quiet resolve (GossipAddr n) (TargetID msg) m1) as Hq.
    destruct (sendPing resolve (GossipAddr n) (TargetID msg) m1) as [[ch|] m2] eqn:Es;
      simplify_eq/=; [|by apply (quiet_acks_ok m1 RRead p); [|left|]].
    apply sendPing_fresh in Es as [-> Hlt]. destruct Hq as (E & C & N & P & A).
    destruct H1 as (Hp & Ha & Hc & _). unfold acks_ok. simpl in *. rewrite C.
    split_and!; [auto|auto|intros ch Hch%Hc; lia|intros Hch%Hc; lia|done]. }
  destruct (Type_ msg =? MsgJoin); simplify_eq; [|done].
  apply (quiet_acks_ok m1 RRead p); [apply handleJoin_quiet|by left|done].
Qed.

Lemma step_acks_ok resolve n n' : step resolve n n' -> acks_ok n -> acks_ok n'.
Proof.
  intros Hstep Hn. pose proof Hn as (_ & _ & _ & Hw).
  destruct Hstep; simpl in Hw; try done; try (by destruct Hw);
    try (by eapply quiet_acks_ok; [|by left|exact Hn]);
    try (by eapply quiet_acks_ok; [|by right; left|exact Hn]);
    try (by eapply quiet_acks_ok; [|by right; right|exact Hn]).
  - by eapply handleMessage_acks_ok.
  - eapply quiet_acks_ok; [apply ack_timeout_quiet|by right; left|exact Hn].
  - pose proof (sendPing_quiet resolve (GossipAddr target) (ID target) m) as Hq.
    rewrite H1 in Hq. by eapply quiet_acks_ok; [exact Hq|left|exact Hn].
  - pose proof (sendPing_quiet resolve (GossipAddr target) (ID target) m) as Hq.
    pose proof (probe_indirect_quiet resolve target shuffled m') as Hq'.
    rewrite H1 in Hq. rewrite H3 in Hq'.
    eapply quiet_acks_ok; [etrans; [exact Hq|exact Hq']|by left|exact Hn].
  - pose proof (probe_indirect_quiet resolve target shuffled (ack_timeout (ID target) m)) as Hq.
    rewrite H0 in Hq. eapply quiet_acks_ok; [|by left|exact Hn].
    etrans; [apply ack_timeout_quiet|exact Hq].
  - pose proof (probe_indirect_quiet resolve target shuffled m) as Hq.
    rewrite H1 in Hq. by eapply quiet_acks_ok; [exact Hq|left|exact Hn].
  - eapply quiet_acks_ok; [|by left|exact Hn].
    etrans; [apply ack_timeout_quiet|apply same_acks_quiet, markSuspect_acks].
  - eapply quiet_acks_ok; [|by left|exact Hn]. apply same_acks_quiet, markSuspect_acks.
  - eapply quiet_acks_ok; [|by left|exact Hn].
    etrans; [|apply same_acks_quiet, markDead_acks]. done.
  - pose proof (JoinCluster_quiet resolve write_ok seeds m) as Hq. rewrite H in Hq.
    by eapply quiet_acks_ok; [exact Hq|left|exact Hn].
  - eapply quiet_acks_ok; [|by left|exact Hn]. apply same_acks_quiet, Stop_timers_acks.
Qed.

Lemma reachable_acks_ok resolve n : reachable resolve n -> acks_ok n.
Proof.
  intros (now & id & g & s & h & cb & fi & H).
  assert (acks_ok (boot now id g s h cb fi)) as H0.
  { unfold acks_ok, pend_ok, acks_own, boot. simpl. split_and!; try done.
    by intros to msg []%elem_of_nil. }
  revert H0. induction H as [n|n1 n2 n3 H12 _ IH]; intros Hn; [done|].
  by eapply IH, step_acks_ok.
Qed.
