(* ===== verification/SwimProps.v ===== *)
(** * What SWIM guarantees: the properties of internal/cluster/membership.go

    The safety of one node's run, what gossip does to the registry, and the two
    exchanges between nodes: a join and a refutation. *)

From stdpp Require Import relations.
From S2P Require Import Prelude GoLib Chaos Registry Gossip Membership Swim SwimInv SwimAcks.

#[local] Open Scope Z_scope.

(** ** Gossip as a merge

    The registry as a map from IDs to node records: what an update about
    another node does to the entry of that node. *)

Definition discovered (now : Time) (u : MembershipUpdate) : NodeInfo :=
  mkNode (u_NodeID u) (u_GRPCAddr u) (u_GossipAddr u) (u_HTTPAddr u) StatusAlive
    (u_Incarnation u) now now.

Definition merge (now : Time) (old : option NodeInfo) (u : MembershipUpdate) : option NodeInfo :=
  match old with
  | None => if u_Status u =? StatusAlive then Some (discovered now u) else None
  | Some n =>
      if u_Incarnation u <? Incarnation n then Some n
      else if u_Status u =? StatusAlive then
        Some (if Status n =? StatusAlive then n else revive now (u_Incarnation u) n)
      else if u_Status u =? StatusSuspect then
        Some (if Status n =? StatusAlive then with_status StatusSuspect n else n)
      else if (u_Status u =? StatusDead) || (u_Status u =? StatusLeft) then
        Some (with_status (u_Status u) n)
      else Some n
  end.

Lemma known_emitEvent e m id : known (emitEvent e m) id = known m id.
Proof. apply same_core_known, emitEvent_core. Qed.

Lemma known_cancel_timer m id id' : mem_ok m -> known (cancel_timer id m) id' = known m id'.
Proof. intros Hok. by destruct (cancel_timer_ok m id Hok) as (_ & H & _). Qed.

Lemma with_own_status n : with_status (Status n) n = n.
Proof. by destruct n. Qed.

(** The four kinds of update of a known node. *)
Section known_node.
Context (now : Time) (u : MembershipUpdate) (m : Membership) (l : loc) (n : NodeInfo).
Context (Hok : mem_ok m) (Hid : u_NodeID u <> selfID m).
Context (HG : Get (nodeHeap m) (registry m) (u_NodeID u) = Some (l, n)).

Let written (f : NodeInfo -> NodeInfo) (id : string) : option NodeInfo :=
  if decide (id = u_NodeID u) then Some (f n) else known m id.

Lemma known_alter f id :
  (forall n, ID (f n) = ID n) -> known (set_nodeHeap (alter f l (nodeHeap m)) m) id = written f id.
Proof. intros Hf. apply (info_alter _ _ _ l n f (ok_wf m Hok) HG Hf). Qed.

Lemma known_clear f id :
  (forall n, ID (f n) = ID n) -> status_ok (Status (f n)) ->
  0 <= Incarnation (f n) < MaxUint64 ->
  known (cancel_timer (u_NodeID u) (set_nodeHeap (alter f l (nodeHeap m)) m)) id = written f id.
Proof.
  intros Hf Hs Hi. rewrite known_cancel_timer; [by apply known_alter|].
  apply (set_heap_ok m (u_NodeID u) l n f Hok HG Hf Hs Hi). by intros ?.
Qed.

Lemma known_suspect id :
  known (markSuspectLocked (u_NodeID u) l m) id = written (with_status StatusSuspect) id.
Proof.
  unfold markSuspectLocked. rewrite known_emitEvent.
  destruct (set_node_status_ok m _ l n StatusSuspect Hok HG) as [Hok' Hk];
    [unfold status_ok, StatusSuspect; lia|done|].
  destruct (start_timer_ok _ (u_NodeID u) Hok' Hid) as (_ & H & _). by rewrite H, Hk.
Qed.
End known_node.

Lemma applyUpdate_known now u m id :
  mem_ok m -> u_NodeID u <> selfID m -> 0 <= u_Incarnation u < MaxUint64 ->
  known (applyUpdate now u m) id
  = if decide (id = u_NodeID u) then merge now (known m (u_NodeID u)) u else known m id.
Proof.
  intros Hok Hid Hu. unfold applyUpdate.
  destruct (String.eqb_spec (u_NodeID u) (selfID m)) as [|_]; [done|].
  destruct (Get (nodeHeap m) (registry m) (u_NodeID u)) as [[l n]|] eqn:HG.
  - rewrite (Get_known m _ l n HG). simpl. unfold GetStatus.
    destruct (ok_nodes m Hok _ n (Get_known m _ l n HG)) as [Hst Hin].
    assert (known m id = if decide (id = u_NodeID u) then Some n else known m id) as Hsame
      by (case_decide; [subst; by eapply Get_known|done]).
    destruct (u_Incarnation u <? Incarnation n); [done|].
    destruct (u_Status u =? StatusAlive).
    { rewrite revive_eq. destruct (Status n =? StatusAlive); [done|]. simpl.
      rewrite known_emitEvent. by apply (known_clear u m l n). }
    destruct (u_Status u =? StatusSuspect).
    { destruct (Status n =? StatusAlive); [|done]. by apply (known_suspect u m l n). }
    destruct (Z.eqb_spec (u_Status u) StatusDead) as [->|ND]; simpl.
    { destruct (Z.eqb_spec (Status n) StatusDead) as [E|E]; simpl.
      - rewrite <- E, with_own_status. done.
      - rewrite known_emitEvent. by apply (known_clear u m l n). }
    destruct (Z.eqb_spec (u_Status u) StatusLeft) as [->|NL]; [|done].
    rewrite known_emitEvent. by apply (known_alter u m l n).
  - assert (known m (u_NodeID u) = None) as HN by (unfold known, info; by rewrite HG).
    rewrite HN. simpl. destruct (u_Status u =? StatusAlive).
    + pose proof (info_register (nodeHeap m) (registry m) (discovered now u) (ok_wf m Hok)) as H.
      unfold queueUpdate, known at 1. simpl.
      match goal with |- context [emitEvent ?e ?x] => pose proof (known_emitEvent e x id) as He end.
      unfold known in He. rewrite He. simpl. by destruct H as [_ ->].
    + case_decide; [by subst|done].
Qed.

(** ** A message's updates, in order *)

Lemma known_refute u m id : known (refute u m) id = known m id.
Proof. unfold refute. by case_match. Qed.

Lemma applyUpdate_self now u m id :
  u_NodeID u = selfID m -> known (applyUpdate now u m) id = known m id.
Proof.
  intros E. unfold applyUpdate. rewrite E, String.eqb_refl. case_match; [apply known_refute|done].
Qed.

(** What a list of updates makes of the entry of [id]. *)
Definition merge_all (now : Time) (id : string) (us : list MembershipUpdate)
    (old : option NodeInfo) : option NodeInfo :=
  fold_left (fun old u => if decide (u_NodeID u = id) then merge now old u else old) us old.

Lemma apply_all_known now us m id :
  mem_ok m -> id <> selfID m -> Forall (fun u => 0 <= u_Incarnation u < MaxUint64) us ->
  known (fold_left (fun m u => applyUpdate now u m) us m) id = merge_all now id us (known m id).
Proof.
  intros Hok Hid Hus. revert m Hok Hid.
  induction Hus as [|u us Hu _ IH]; intros m Hok Hid; [done|]. simpl.
  destruct (applyUpdate_good now u m Hu Hok) as (Hok' & _ & Hs & _).
  rewrite IH by (try done; by rewrite Hs). unfold merge_all. simpl. f_equal.
  destruct (decide (u_NodeID u = selfID m)) as [E|E].
  - rewrite applyUpdate_self by done. rewrite decide_False; [done|]. congruence.
  - rewrite applyUpdate_known by done. repeat case_decide; congruence.
Qed.

Lemma merge_all_other now id us old :
  id ∉ (u_NodeID <$> us) -> merge_all now id us old = old.
Proof.
  revert old. induction us as [|u us IH]; intros old Hn; [done|]. unfold merge_all in *. csimpl.
  rewrite fmap_cons, not_elem_of_cons in Hn. destruct Hn as [Hne Hn].
  rewrite decide_False by done.
  by apply IH.
Qed.

Lemma merge_all_unique now u us old :
  NoDup (u_NodeID <$> us) -> u ∈ us -> merge_all now (u_NodeID u) us old = merge now old u.
Proof.
  revert old. induction us as [|u' us IH]; intros old Hnd Hu; [by apply elem_of_nil in Hu|].
  rewrite fmap_cons, NoDup_cons in Hnd. destruct Hnd as [Hn Hnd].
  unfold merge_all. simpl. fold (merge_all now (u_NodeID u)).
  apply elem_of_cons in Hu as [<-|Hu].
  - rewrite decide_True by done. by apply merge_all_other.
  - rewrite decide_False; [by apply IH|]. intros E. apply Hn. rewrite E.
    by apply list_elem_of_fmap_2.
Qed.

Lemma GetAll_ids h nr ord :
  wf h nr -> is_range (nodes nr) ord -> ID <$> GetAll h ord = ord.*1.
Proof.
  intros Hwf Hr.
  assert (forall id l, (id, l) ∈ ord -> exists n, h !! l = Some n /\ ID n = id) as Hord.
  { intros id l Hin. apply Hwf. by apply (is_range_elem (nodes nr) ord). }
  unfold GetAll. clear Hr.
  assert (forall acc, ID <$> fold_left (fun result e => match h !! e.2 with
    | Some info => result ++ [Clone info] | None => result end) ord acc
    = (ID <$> acc) ++ ord.*1) as H; [|by rewrite H].
  induction ord as [|[id l] ord IH]; intros acc; simpl; [by rewrite app_nil_r|].
  destruct (Hord id l ltac:(left)) as (n & -> & Hn).
  rewrite IH by (intros id' l' Hin; apply Hord; by right).
  rewrite fmap_app. simpl. rewrite Hn, <- app_assoc. done.
Qed.

Lemma node_updates_NoDup h nr ord :
  wf h nr -> is_range (nodes nr) ord -> NoDup (u_NodeID <$> (node_update <$> GetAll h ord)).
Proof.
  intros Hwf Hr. rewrite <- list_fmap_compose.
  change (u_NodeID ∘ node_update) with ID. rewrite (GetAll_ids h nr) by done.
  by apply (is_range_NoDup (nodes nr)).
Qed.

(** ** A run of one node *)

Lemma Get_of_known m id n :
  known m id = Some n -> exists l, Get (nodeHeap m) (registry m) id = Some (l, n).
Proof. apply info_Some. Qed.

Lemma markDead_known m id n :
  mem_ok m -> id <> selfID m -> known m id = Some n -> Status n <> StatusDead ->
  known (markDead id m) id = Some (with_status StatusDead n) /\
  (onEvent m = true -> mkEvent EventDead id ∈ events (rt (markDead id m))).
Proof.
  intros Hok Hid Hk Hs. destruct (Get_of_known m id n Hk) as [l HG].
  unfold markDead. rewrite HG. unfold GetStatus.
  destruct (Z.eqb_spec (Status n) StatusDead) as [|_]; [done|].
  set (m1 := cancel_timer id (set_node_status StatusDead l m)).
  assert (onEvent m1 = onEvent m) as Hev by (subst m1; unfold cancel_timer; by case_match).
  split.
  - rewrite known_emitEvent. change (known m1 id = Some (with_status StatusDead n)).
    destruct (set_node_status_ok m id l n StatusDead Hok HG) as [Hok1 Hk1];
      [unfold status_ok, StatusDead; lia|done|].
    subst m1. rewrite known_cancel_timer, Hk1 by done. by rewrite decide_True.
  - intros Hon. unfold emitEvent. simpl. rewrite Hev, Hon. simpl.
    rewrite elem_of_app. right. left.
Qed.

(** A callback that was set stays set. *)
Lemma fired_dead resolve n id i before after :
  node_ok n -> firing (rt (mem n)) = before ++ id :: after ->
  known (mem n) id = Some i -> Status i = StatusSuspect ->
  exists n', step resolve n n' /\ known (mem n') id = Some (with_status StatusDead i) /\
    recv n' = recv n /\ ping n' = ping n /\
    (onEvent (mem n) = true -> mkEvent EventDead id ∈ events (rt (mem n'))).
Proof.
  intros (Hok & _) Hf Hk Hs. destruct n as [m r p]. simpl in *.
  assert (id <> selfID m) as Hid.
  { apply (ok_firing m Hok). rewrite Hf, elem_of_app, elem_of_cons. tauto. }
  set (m1 := set_rt (set_firing (before ++ after) (rt m)) m).
  assert (mem_ok m1) as Hok1.
  { constructor; try apply Hok. simpl. intros id' Hid'. apply (ok_firing m Hok).
    rewrite Hf, elem_of_app, elem_of_cons. rewrite elem_of_app in Hid'. tauto. }
  destruct (markDead_known m1 id i Hok1 Hid Hk) as [H1 H2]; [by rewrite Hs|].
  exists (mkNodeState (markDead id m1) r p). split_and!; try done.
  by apply (step_timer_func resolve m r p before id after).
Qed.

(** ** Concrete nodes *)

Lemma pair_fst {A B} (x : A * B) a : x.1 = a -> x = (a, x.2).
Proof. destruct x. by intros <-. Qed.

Definition demo_resolve : string -> option UDPAddr := Some.

Definition node_a : node := boot 1 "a" "a:1" "a:2" "a:3" true None.
Definition node_b : node := boot 1 "b" "b:1" "b:2" "b:3" true None.

(** [b] introduces itself to [a], which then hears that [b] is suspected. *)
Definition demo_gossip : SwimMessage :=
  mkMsg MsgAck "c" "c:2" "" 0
    [mkUpdate "b" "b:1" "b:2" "b:3" StatusAlive 0; mkUpdate "b" "" "" "" StatusSuspect 0].

(** One received message, as a step. *)
Lemma receive_step resolve m p now ord msg from w :
  isBlocked (SenderID msg) m = false -> incarnations_ok msg ->
  is_range (nodes (registry (fold_left (fun m u => applyUpdate now u m) (Updates msg) m))) ord ->
  (handleMessage resolve now ord msg from m).1 = w ->
  step resolve (mkNodeState m RRead p)
    (mkNodeState (handleMessage resolve now ord msg from m).2
       (match w with
        | Some (ch, address) => RWait ch (TargetID msg) address from
        | None => RRead
        end) p).
Proof. intros H1 H2 H3 H4. by eapply step_receive, pair_fst. Qed.

Definition mem_a : Membership := mem node_a.
Definition ord_a : list (string * loc) :=
  map_to_list (nodes (registry (fold_left (fun m u => applyUpdate 2 u m) (Updates demo_gossip) mem_a))).
Definition mem_a' : Membership := (handleMessage demo_resolve 2 ord_a demo_gossip "c:2" mem_a).2.
Definition node_a' : node := mkNodeState mem_a' RRead PTick.

Lemma node_a_steps : rtc (step demo_resolve) node_a node_a'.
Proof.
  apply rtc_once.
  apply (receive_step demo_resolve mem_a PTick 2 ord_a demo_gossip "c:2" None).
  - reflexivity.
  - unfold incarnations_ok, MaxUint64. repeat constructor; simpl; lia.
  - apply is_range_self.
  - vm_compute. reflexivity.
Qed.

Lemma node_a_reachable : reachable demo_resolve node_a'.
Proof. do 7 eexists. exact node_a_steps. Qed.







(** C19: an indirect probe is never answered: the receive loop runs
    [handlePingReq], and while it waits there nobody can process the ack it
    waits for; so in every reachable state the channel it waits on is open, its
    wait can only time out, and every ack the node has ever sent carries its own
    ID: no ack is forwarded to the node that asked. *)
Theorem ping_req_never_acked (resolve : string -> option UDPAddr) (n : node) :
  reachable resolve n ->
  (forall ch target address from, recv n = RWait ch target address from ->
     ch ∉ closed (rt (mem n))) /\
  (forall to msg, (to, msg) ∈ sent (rt (mem n)) -> Type_ msg = MsgAck ->
     SenderID msg = selfID (mem n)).
Proof.
  intros (_ & Ha & _ & Hw)%reachable_acks_ok. split; [|exact Ha].
  intros ch target address from E. rewrite E in Hw. apply Hw.
Qed.

(** [a], asked by [c] to probe [b], pings [b] and waits. *)
Definition demo_ping_req : SwimMessage := mkMsg MsgPingReq "c" "c:2" "b" 0 [].

Definition ord_a' : list (string * loc) := map_to_list (nodes (registry mem_a')).
Definition mem_a'' : Membership :=
  (handleMessage demo_resolve 3 ord_a' demo_ping_req "c:2" mem_a').2.
Definition node_a'' : node := mkNodeState mem_a'' (RWait 0%nat "b" "b:2" "c:2") PTick.

Lemma node_a''_reachable : reachable demo_resolve node_a''.
Proof.
  do 7 eexists. etrans; [exact node_a_steps|]. apply rtc_once.
  apply (receive_step demo_resolve mem_a' PTick 3 ord_a' demo_ping_req "c:2" (Some (0%nat, "b:2"))).
  - vm_compute. reflexivity.
  - constructor.
  - apply is_range_self.
  - vm_compute. reflexivity.
Qed.

Lemma ping_req_never_acked_witness : 0%nat ∉ closed (rt (mem node_a'')).
Proof.
  destruct (ping_req_never_acked demo_resolve node_a'' node_a''_reachable) as [H _].
  apply (H 0%nat "b" "b:2" "c:2"). reflexivity.
Defined.

(** ** What gossip does to the registry *)

(** C32: the updates piggybacked on a message act on the registry as the map
    the specification sees, one [merge] at a time: about another node, an update
    registers it if it is unknown and reported ALIVE, is dropped if its
    incarnation is older than the recorded one, and otherwise sets the status,
    except that only an ALIVE node becomes SUSPECT and only a node that comes
    back records the new incarnation; entries of other nodes do not change, and
    the node's own entry never does. *)
Theorem gossip_merges (now : Time) (us : list MembershipUpdate) (m : Membership) (id : string) :
  mem_ok m -> Forall (fun u => 0 <= u_Incarnation u < MaxUint64) us ->
  let m' := fold_left (fun m u => applyUpdate now u m) us m in
  mem_ok m' /\
  known m' id = if decide (id = selfID m) then known m id else merge_all now id us (known m id).
Proof.
  intros Hok Hus m'. split; [by apply apply_all_good|].
  case_decide as E; [|by apply apply_all_known]. subst m' id. revert m Hok.
  induction Hus as [|u us Hu _ IH]; intros m Hok; [done|]. simpl.
  destruct (applyUpdate_good now u m Hu Hok) as (Hok' & _ & Hs & _).
  rewrite <- Hs, IH by done. rewrite Hs.
  destruct (decide (u_NodeID u = selfID m)); [by apply applyUpdate_self|].
  rewrite applyUpdate_known by done. by rewrite decide_False by congruence.
Qed.

Lemma node_a_ok : mem_ok mem_a.
Proof. apply (boot_ok 1 "a" "a:1" "a:2" "a:3" true None). Qed.

Lemma gossip_merges_witness :
  known (fold_left (fun m u => applyUpdate 2 u m) (Updates demo_gossip) mem_a) "b"
  = Some (mkNode "b" "b:1" "b:2" "b:3" StatusSuspect 0 2 2).
Proof.
  destruct (gossip_merges 2 (Updates demo_gossip) mem_a "b" node_a_ok) as [_ ->].
  - unfold MaxUint64. repeat constructor; simpl; lia.
  - vm_compute. reflexivity.
Defined.

(** The order of gossip matters: an ALIVE update with a newer incarnation
    about a node already ALIVE leaves the recorded incarnation as it was, so a
    suspicion older than that refutation is accepted when it arrives after it,
    though not when it arrives before it. *)
Theorem stale_suspicion_accepted :
  let alive i := mkUpdate "b" "b:1" "b:2" "b:3" StatusAlive i in
  let suspect i := mkUpdate "b" "" "" "" StatusSuspect i in
  let after us := fold_left (fun m u => applyUpdate 2 u m) us mem_a in
  known (after [alive 0; alive 5; suspect 3]) "b"
    = Some (mkNode "b" "b:1" "b:2" "b:3" StatusSuspect 0 2 2) /\
  known (after [alive 0; suspect 3; alive 5]) "b"
    = Some (mkNode "b" "b:1" "b:2" "b:3" StatusAlive 5 2 2).
Proof. vm_compute. split; reflexivity. Qed.

(** ** Refutation *)

(** The incarnation a refutation takes, and the update it queues. *)
Lemma refute_spec u m :
  mem_ok m -> 0 <= u_Incarnation u < MaxUint64 ->
  incarnation (refute u m) = Z.max (incarnation m) (u_Incarnation u + 1) /\
  mkQueued (self_update StatusAlive (refute u m)) 0 ∈ updateQueue (refute u m).
Proof.
  intros Hok Hu. unfold refute. unfold MaxUint64 in *. split.
  - destruct (Z.leb_spec (incarnation m) (u_Incarnation u)); simpl; [|lia].
    rewrite u64_small by lia. lia.
  - set (m1 := if incarnation m <=? u_Incarnation u
               then set_incarnation (u64 (u_Incarnation u + 1)) m else m).
    assert (selfID m1 = selfID m /\ updateQueue m1 = updateQueue m /\ incarnation m <= incarnation m1)
      as (E1 & E2 & E3).
    { subst m1. destruct (Z.leb_spec (incarnation m) (u_Incarnation u)); simpl; [|done].
      rewrite u64_small by lia. split_and!; [done|done|lia]. }
    clearbody m1. change (mkQueued (self_update StatusAlive m1) 0
      ∈ enqueue (self_update StatusAlive m1) (updateQueue m1)). apply enqueue_carries.
    intros q Hq Hid. simpl in *. rewrite E2 in Hq. rewrite E1 in Hid.
    pose proof (ok_queue_self m Hok q Hq Hid). lia.
Qed.

(** An ALIVE update ends the suspicion timer of a node that was not ALIVE. *)
Lemma alive_cancels now u m i :
  mem_ok m -> u_NodeID u <> selfID m -> 0 <= u_Incarnation u < MaxUint64 ->
  u_Status u = StatusAlive -> known m (u_NodeID u) = Some i -> Status i <> StatusAlive ->
  Incarnation i <= u_Incarnation u ->
  suspicionTimers (applyUpdate now u m) !! u_NodeID u = None /\
  forall t, armed (rt (applyUpdate now u m)) !! t <> Some (u_NodeID u).
Proof.
  intros Hok Hid Hu Hs Hk Hi Hle.
  assert (suspicionTimers (applyUpdate now u m) !! u_NodeID u = None) as Hn.
  { destruct (Get_of_known m _ i Hk) as [l HG]. unfold applyUpdate.
    destruct (String.eqb_spec (u_NodeID u) (selfID m)) as [|_]; [done|].
    rewrite HG, Hs. destruct (Z.ltb_spec (u_Incarnation u) (Incarnation i)); [lia|]. simpl.
    unfold GetStatus. destruct (Z.eqb_spec (Status i) StatusAlive) as [|_]; [done|]. simpl.
    rewrite revive_eq. set (m1 := set_nodeHeap _ m).
    assert (mem_ok m1) as Hok1.
    { by apply (set_heap_ok m (u_NodeID u) l i (revive now (u_Incarnation u)) Hok HG). }
    destruct (cancel_timer_ok m1 (u_NodeID u) Hok1) as (_ & _ & Hc & _).
    unfold emitEvent. by case_match. }
  split; [done|]. intros t Ht.
  destruct (applyUpdate_good now u m Hu Hok) as (Hok' & _).
  apply (ok_armed _ Hok') in Ht. congruence.
Qed.

(** C18: a false suspicion is refuted end to end: when a node that a peer
    holds SUSPECT or DEAD receives that report, it takes an incarnation above
    the reported one and queues an ALIVE update, unsent so far, and the peer
    that applies this update marks the node ALIVE again with the new
    incarnation and leaves no suspicion timer for it. *)
Theorem refutation_restores_alive (now now' : Time) (peer me : Membership) (i : NodeInfo)
    (u : MembershipUpdate) :
  mem_ok peer -> mem_ok me -> selfID peer <> selfID me ->
  known peer (selfID me) = Some i -> Status i = StatusSuspect \/ Status i = StatusDead ->
  u_NodeID u = selfID me -> u_Status u = Status i -> u_Incarnation u = Incarnation i ->
  Incarnation i < MaxUint64 - 1 -> incarnation me < MaxUint64 ->
  let me' := applyUpdate now u me in
  let alive := self_update StatusAlive me' in
  let peer' := applyUpdate now' alive peer in
  Incarnation i < incarnation me' /\
  mkQueued alive 0 ∈ updateQueue me' /\
  known peer' (selfID me) = Some (revive now' (incarnation me') i) /\
  suspicionTimers peer' !! selfID me = None /\
  forall t, armed (rt peer') !! t <> Some (selfID me).
Proof.
  intros Hp Hm Hne Hk Hs Hid Hus Hui Hi Hinc me' alive peer'.
  destruct (ok_nodes _ Hp _ i Hk) as [_ Hi0].
  assert (me' = refute u me) as Hme.
  { subst me'. unfold applyUpdate. rewrite Hid, String.eqb_refl, Hus.
    destruct Hs as [-> | ->]; reflexivity. }
  destruct (refute_spec u me Hm ltac:(lia)) as [Hr Hq]. rewrite <- Hme in Hr, Hq.
  assert (selfID me' = selfID me) as Hself
    by (rewrite Hme; unfold refute; by case_match).
  assert (u_NodeID alive = selfID me) as Ha by exact Hself.
  assert (0 <= u_Incarnation alive < MaxUint64) as Hb by (simpl; lia).
  assert (Status i <> StatusAlive) as Hna by (destruct Hs as [-> | ->]; done).
  split_and!; [lia|exact Hq| | |].
  - rewrite <- Ha in Hk |- *. subst peer'. rewrite applyUpdate_known by (rewrite ?Ha; done).
    rewrite decide_True, Hk by done. unfold merge. cbn [u_Incarnation u_Status alive self_update].
    destruct (Z.ltb_spec (incarnation me') (Incarnation i)); [lia|]. simpl.
    by destruct (Z.eqb_spec (Status i) StatusAlive).
  - rewrite <- Ha. apply (alive_cancels now' alive peer i); rewrite ?Ha; try done. simpl. lia.
  - rewrite <- Ha. apply (alive_cancels now' alive peer i); rewrite ?Ha; try done. simpl. lia.
Qed.

Lemma node_a'_ok : mem_ok mem_a'.
Proof. apply (reachable_ok demo_resolve node_a' node_a_reachable). Qed.

Lemma node_b_ok : mem_ok (mem node_b).
Proof. apply (boot_ok 1 "b" "b:1" "b:2" "b:3" true None). Qed.

Lemma refutation_restores_alive_witness :
  let me' := applyUpdate 3 (mkUpdate "b" "" "" "" StatusSuspect 0) (mem node_b) in
  known (applyUpdate 4 (self_update StatusAlive me') mem_a') "b"
  = Some (mkNode "b" "b:1" "b:2" "b:3" StatusAlive 1 2 4).
Proof.
  destruct (refutation_restores_alive 3 4 mem_a' (mem node_b)
    (mkNode "b" "b:1" "b:2" "b:3" StatusSuspect 0 2 2) (mkUpdate "b" "" "" "" StatusSuspect 0)
    node_a'_ok node_b_ok) as (_ & _ & H & _).
  - vm_compute. discriminate.
  - vm_compute. reflexivity.
  - left. reflexivity.
  - vm_compute. reflexivity.
  - reflexivity.
  - reflexivity.
  - unfold MaxUint64. simpl. lia.
  - unfold MaxUint64. vm_compute. reflexivity.
  - vm_compute in H |- *. exact H.
Defined.

(** At the largest incarnation the counter wraps: the refutation carries
    incarnation 0 and every peer discards it as stale. *)
Lemma refute_wraps :
  let me' := applyUpdate 3 (mkUpdate "b" "" "" "" StatusSuspect MaxUint64) (mem node_b) in
  incarnation me' = 0 /\
  merge 4 (Some (mkNode "b" "b:1" "b:2" "b:3" StatusSuspect MaxUint64 2 2)) (self_update StatusAlive me')
  = Some (mkNode "b" "b:1" "b:2" "b:3" StatusSuspect MaxUint64 2 2).
Proof. vm_compute. split; reflexivity. Qed.

(** ** Joining *)

Lemma known_handleAck now msg m id :
  mem_ok m ->
  known (handleAck now msg m) id
  = (if decide (id = SenderID msg) then with_last_seen now else (fun n => n)) <$> known m id.
Proof.
  intros Hok. unfold handleAck. set (m1 := match _ with Some ch => _ | None => m end).
  assert (same_core m m1) as Hc by (subst m1; frame). clearbody m1.
  rewrite <- (same_core_known m m1 id Hc).
  destruct (Get (nodeHeap m1) (registry m1) (SenderID msg)) as [[l n]|] eqn:HG.
  - pose proof (same_core_ok m m1 Hc Hok) as Hok1.
    destruct (info_alter _ _ _ l n (with_last_seen now) (ok_wf m1 Hok1) HG ltac:(done)) as [_ Hk].
    unfold known, Touch. simpl. rewrite Hk. case_decide; [|by rewrite option_fmap_id].
    subst. fold (known m1 (SenderID msg)). by rewrite (Get_known m1 _ l n HG).
  - case_decide; [|by rewrite option_fmap_id]. subst. unfold known, info. by rewrite HG.
Qed.

(** The reply to a join request. *)
Lemma handleJoin_sent ord from m :
  conn m = true ->
  sent (rt (handleJoin ord from m)) = sent (rt m) ++
    [(from, mkMsg MsgAck (selfID m) (GossipAddr (self_info m)) "" (incarnation m)
       (node_update <$> GetAll (nodeHeap m) ord))].
Proof. intros Hc. unfold handleJoin, WriteToUDP. by rewrite Hc. Qed.

Lemma node_updates_ok m ord :
  mem_ok m -> is_range (nodes (registry m)) ord ->
  Forall (fun u => 0 <= u_Incarnation u < MaxUint64) (node_update <$> GetAll (nodeHeap m) ord).
Proof.
  intros Hok Hr. apply Forall_fmap, Forall_forall. intros n Hn.
  apply (elem_of_GetAll _ (registry m)) in Hn as [id Hn]; [|done].
  apply (ok_nodes m Hok id n Hn).
Qed.

(** What the joiner learns from the reply about a node it did not know. *)
Lemma join_reply_known resolve now ord' from' m s ord inc addr id i :
  mem_ok m -> mem_ok s -> is_range (nodes (registry s)) ord ->
  known s id = Some i -> Status i = StatusAlive -> known m id = None -> id <> selfID m ->
  let reply := mkMsg MsgAck (selfID s) addr "" inc (node_update <$> GetAll (nodeHeap s) ord) in
  exists i', known (handleMessage resolve now ord' reply from' m).2 id = Some i' /\
    Status i' = StatusAlive /\ Incarnation i' = Incarnation i /\ GRPCAddr i' = GRPCAddr i /\
    GossipAddr i' = GossipAddr i /\ HTTPAddr i' = HTTPAddr i.
Proof.
  intros Hok Hs Hr Hi Ha Hn Hid reply. unfold handleMessage. simpl.
  pose proof (node_updates_ok s ord Hs Hr) as Hus.
  assert (ID i = id) as Hii by (by apply (info_ID (nodeHeap s) (registry s)); [apply (ok_wf s Hs)|]).
  assert (node_update i ∈ node_update <$> GetAll (nodeHeap s) ord) as Hin.
  { apply list_elem_of_fmap_2, (elem_of_GetAll _ (registry s)); [done|]. by exists id. }
  rewrite known_handleAck by by apply apply_all_good. simpl.
  rewrite apply_all_known by done. rewrite Hn.
  assert (merge_all now id (node_update <$> GetAll (nodeHeap s) ord) None
    = merge now None (node_update i)) as ->.
  { rewrite <- Hii. apply (merge_all_unique now (node_update i)); [|done].
    by apply (node_updates_NoDup _ (registry s)); [apply (ok_wf s Hs)|]. }
  unfold merge. cbn [u_Status node_update]. unfold GetStatus. rewrite Ha. simpl.
  case_decide; eexists; by split_and!.
Qed.

(** C27: joining works in one round trip: a seed that handles the join request
    of a node it does not know registers it as ALIVE with its addresses and its
    incarnation, and answers with one message; the joiner that handles this
    message knows from then on every node the seed holds ALIVE (the seed
    itself, unless it is leaving, included), with the seed's addresses and
    incarnation. *)
Theorem join_exchanges_membership (resolve : string -> option UDPAddr) (now : Time)
    (ord : list (string * loc)) (from : UDPAddr) (seed joiner : Membership) :
  mem_ok seed -> mem_ok joiner -> selfID seed <> selfID joiner -> conn seed = true ->
  incarnation joiner < MaxUint64 ->
  is_range (nodes (registry (applyUpdate now (self_update StatusAlive joiner) seed))) ord ->
  let seed' := (handleMessage resolve now ord (joinMsg joiner) from seed).2 in
  (known seed (selfID joiner) = None ->
     known seed' (selfID joiner) = Some (discovered now (self_update StatusAlive joiner))) /\
  exists reply, sent (rt seed') = sent (rt seed) ++ [(from, reply)] /\
    forall now' ord' from' id i,
      known seed id = Some i -> Status i = StatusAlive -> known joiner id = None ->
      id <> selfID joiner ->
      exists i', known (handleMessage resolve now' ord' reply from' joiner).2 id = Some i' /\
        Status i' = StatusAlive /\ Incarnation i' = Incarnation i /\ GRPCAddr i' = GRPCAddr i /\
        GossipAddr i' = GossipAddr i /\ HTTPAddr i' = HTTPAddr i.
Proof.
  intros Hs Hj Hne Hc Hinc Hr seed'. pose proof (ok_inc _ Hj) as Hinc0.
  set (u := self_update StatusAlive joiner). set (s1 := applyUpdate now u seed).
  assert (0 <= u_Incarnation u < MaxUint64) as Hu by (simpl; lia).
  assert (u_NodeID u <> selfID seed) as Hid by (simpl; congruence).
  assert (seed' = handleJoin ord from s1) as Hse by done.
  destruct (applyUpdate_good now u seed Hu Hs) as (Hs1 & _).
  pose proof (applyUpdate_acks now u seed) as (_ & _ & _ & _ & Hsent).
  assert (forall id, known seed' id = known s1 id) as Hk
    by (intros id; rewrite Hse; apply same_core_known, handleJoin_core).
  assert (conn s1 = true) as Hc1.
  { rewrite <- Hc. subst s1. unfold applyUpdate, refute, markSuspectLocked, queueUpdate, emitEvent,
      cancel_timer, start_timer, queueUpdateLocked.
    repeat (case_match; simplify_eq; try reflexivity). }
  split.
  - intros Hn. rewrite Hk. subst s1. rewrite applyUpdate_known by done.
    rewrite decide_True by done. by change (u_NodeID u) with (selfID joiner); rewrite Hn.
  - eexists. rewrite Hse, handleJoin_sent by done. split; [by f_equal|].
    intros now' ord' from' id i Hi Ha Hn Hidj. apply join_reply_known; try done.
    subst s1. rewrite applyUpdate_known by done. rewrite decide_False; [done|]. simpl. congruence.
Qed.

Lemma join_exchanges_membership_witness :
  let seed := mem_a in let joiner := mem node_b in
  let ord := map_to_list (nodes (registry (applyUpdate 5 (self_update StatusAlive joiner) seed))) in
  known (handleMessage demo_resolve 5 ord (joinMsg joiner) "b:2" seed).2 "b"
  = Some (mkNode "b" "b:1" "b:2" "b:3" StatusAlive 0 5 5).
Proof.
  intros seed joiner ord.
  destruct (join_exchanges_membership demo_resolve 5 ord "b:2" seed joiner) as [H _].
  - exact node_a_ok.
  - exact node_b_ok.
  - vm_compute. discriminate.
  - reflexivity.
  - vm_compute. reflexivity.
  - apply is_range_self.
  - etrans; [|etrans; [apply H|]]; vm_compute; reflexivity.
Defined.
