(* ===== verification/Server.v ===== *)
(** * The cache server: internal/server/grpc_server.go

    The handlers of one node and the cluster they form.  A handler either
    answers on its own objects ([local]) or forwards the request to the primary
    ([route]); [handle] follows the forwarding from node to node, through the
    fault injector of each.  The remote call of gRPC is the handler of the node
    it is addressed to, or an error when the network does not carry it. *)

From S2P Require Import Prelude GoLib Store Sketch Mitigator HashRing Chaos Replication.

#[local] Open Scope Z_scope.

(** ** Messages: api/proto/messages.go *)

Record GetResponse := mkGetResponse {
  gr_Key : string;
  gr_Value : bytes;
  gr_Found : bool;
  gr_TtlMs : Z;
  gr_IsHot : bool
}.

Record PingResponse := mkPingResponse {
  pr_NodeId : string;
  pr_UptimeMs : Z;
  pr_KeysCount : Z
}.

Record KeyValuePair := mkKeyValuePair {
  kv_Key : string;
  kv_Value : bytes;
  kv_TtlMs : Z
}.

Inductive request :=
  | GetRequest (key : string)
  | SetRequest (key : string) (value : bytes) (ttlMs : Z)
  | DeleteRequest (key : string)
  | ExpireRequest (key : string) (ttlMs : Z).

Inductive response :=
  | RGet (r : GetResponse)
  | RSet (success : bool)
  | RDelete (existed : bool)
  | RExpire (found : bool).

(** ** The server

    The store, the ring, the replication manager and the mitigator are objects
    the server shares with the rest of the node; the booleans tell which of the
    optional pointers are set. *)
Record CacheServer := mkServer {
  cs_nodeID : string;
  cs_store : Store;
  cs_ring : Ring;
  cs_rep : ReplicationManager;
  cs_fault : FaultInjector;
  cs_mit : Mitigator;
  cs_startTime : Time;
  hasRing : bool;
  hasRep : bool;
  hasFault : bool;
  hasMit : bool
}.

Definition set_store (x : Store) (cs : CacheServer) : CacheServer :=
  mkServer (cs_nodeID cs) x (cs_ring cs) (cs_rep cs) (cs_fault cs) (cs_mit cs) (cs_startTime cs)
    (hasRing cs) (hasRep cs) (hasFault cs) (hasMit cs).
Definition set_ring (x : Ring) (cs : CacheServer) : CacheServer :=
  mkServer (cs_nodeID cs) (cs_store cs) x (cs_rep cs) (cs_fault cs) (cs_mit cs) (cs_startTime cs)
    (hasRing cs) (hasRep cs) (hasFault cs) (hasMit cs).
Definition set_rep (x : ReplicationManager) (cs : CacheServer) : CacheServer :=
  mkServer (cs_nodeID cs) (cs_store cs) (cs_ring cs) x (cs_fault cs) (cs_mit cs) (cs_startTime cs)
    (hasRing cs) (hasRep cs) (hasFault cs) (hasMit cs).
Definition set_mit (x : Mitigator) (cs : CacheServer) : CacheServer :=
  mkServer (cs_nodeID cs) (cs_store cs) (cs_ring cs) (cs_rep cs) (cs_fault cs) x (cs_startTime cs)
    (hasRing cs) (hasRep cs) (hasFault cs) (hasMit cs).

Definition NewCacheServer (now : Time) (nodeID : string) (s : Store) (ring : Ring)
    (repMgr : ReplicationManager) (fi : FaultInjector) (mitigator : Mitigator) : CacheServer :=
  mkServer nodeID s ring repMgr fi mitigator now true true true true.

(** The first two statements of every handler and the deferred one. *)
Definition load_inc (cs : CacheServer) : CacheServer :=
  if hasRing cs then set_ring (IncrementLoad (cs_nodeID cs) (cs_ring cs)) cs else cs.
Definition load_dec (cs : CacheServer) : CacheServer :=
  if hasRing cs then set_ring (DecrementLoad (cs_nodeID cs) (cs_ring cs)) cs else cs.

(** ** Routing *)

Definition req_key (q : request) : string :=
  match q with
  | GetRequest key | SetRequest key _ _ | DeleteRequest key | ExpireRequest key _ => key
  end.

(** A read is served by any replica, everything else by the primary. *)
Definition serves (q : request) (cs : CacheServer) : option bool :=
  match q with
  | GetRequest key => IsReplica (cs_ring cs) (cs_rep cs) key
  | _ => IsPrimary (cs_ring cs) (cs_rep cs) (req_key q)
  end.

(** The peer a request is proxied to, if any. *)
Definition route (q : request) (cs : CacheServer) : option (option string) :=
  if negb (hasRep cs) then Some None
  else
    mine ← serves q cs;
    if mine : bool then Some None
    else
      primary ← GetPrimary (cs_ring cs) (req_key q);
      Some (match primary with
            | None => None
            | Some primary =>
                if String.eqb primary (cs_nodeID cs) then None
                else match GetPeerConn (cs_rep cs) primary with
                     | Some _ => Some primary
                     | None => None
                     end
            end).

(** ** The local part of the handlers

    [clk n] is the n-th reading of the clock a handler makes. *)

(** [if req.TtlMs > 0 { ttl = time.Duration(req.TtlMs) * time.Millisecond }] *)
Definition req_ttl (ttlMs : Z) : Duration := if 0 <? ttlMs then DurationOfMs ttlMs else 0.

Definition local_get (clk : nat -> Time) (key : string) (cs : CacheServer)
    : GetResponse * CacheServer :=
  let '(value, s) := Get (clk 0%nat) (clk 1%nat) (cs_store cs) key in
  let cs := set_store s cs in
  match value with
  | None => (mkGetResponse key [] false 0 false, cs)
  | Some value =>
      if hasMit cs then
        let '(isHot, m, s) :=
          CheckAndMitigate (fun n => clk (2 + n)%nat) key (cs_mit cs) (cs_store cs) in
        (mkGetResponse key value true 0 isHot, set_mit m (set_store s cs))
      else (mkGetResponse key value true 0 false, cs)
  end.

(** [if cs.replicationMgr != nil && cs.replicationMgr.IsPrimary(key) { ... }] *)
Definition if_primary (key : string)
    (f : ReplicationManager -> option ReplicationManager) (cs : CacheServer) : option CacheServer :=
  if negb (hasRep cs) then Some cs
  else
    primary ← IsPrimary (cs_ring cs) (cs_rep cs) key;
    if primary : bool then rm ← f (cs_rep cs); Some (set_rep rm cs) else Some cs.

Definition local_set (clk : nat -> Time) (key : string) (value : bytes) (ttlMs : Z)
    (cs : CacheServer) : option CacheServer :=
  let ttl := req_ttl ttlMs in
  let s := if hasMit cs && IsMitigated (cs_mit cs) key
           then WriteToShards clk (cs_mit cs) key value ttl (cs_store cs)
           else Set_ (clk 0%nat) (clk 1%nat) (cs_store cs) key value ttl in
  if_primary key (ReplicateWrite (cs_ring cs) key value ttlMs) (set_store s cs).

Definition local_delete (key : string) (cs : CacheServer) : option (bool * CacheServer) :=
  let '(existed, s) := Delete (cs_store cs) key in
  cs' ← if_primary key (ReplicateDelete (cs_ring cs) key) (set_store s cs);
  Some (existed, cs').

Definition local_expire (clk : nat -> Time) (key : string) (ttlMs : Z) (cs : CacheServer)
    : option (bool * CacheServer) :=
  let '(found, s) := Expire (clk 0%nat) (clk 1%nat) (cs_store cs) key (req_ttl ttlMs) in
  let cs := set_store s cs in
  if negb (found && hasRep cs) then Some (found, cs)
  else
    primary ← IsPrimary (cs_ring cs) (cs_rep cs) key;
    if negb primary then Some (found, cs)
    else
      match Get (clk 2%nat) (clk 3%nat) (cs_store cs) key with
      | (Some val, s) =>
          rm ← ReplicateWrite (cs_ring cs) key val ttlMs (cs_rep cs);
          Some (found, set_rep rm (set_store s cs))
      | (None, s) => Some (found, set_store s cs)
      end.

Definition local (clk : nat -> Time) (q : request) (cs : CacheServer)
    : option (response * CacheServer) :=
  match q with
  | GetRequest key => let '(r, cs) := local_get clk key cs in Some (RGet r, cs)
  | SetRequest key value ttlMs => cs ← local_set clk key value ttlMs cs; Some (RSet true, cs)
  | DeleteRequest key => '(b, cs) ← local_delete key cs; Some (RDelete b, cs)
  | ExpireRequest key ttlMs => '(b, cs) ← local_expire clk key ttlMs cs; Some (RExpire b, cs)
  end.

(** ** The handlers that are never forwarded *)

Definition Keys (now : Time) (ords : list (list (string * Entry))) : list string :=
  Store.Keys now ords.

Definition Ping (now : Time) (ords : list (list (string * Entry))) (cs : CacheServer) : PingResponse :=
  mkPingResponse (cs_nodeID cs) (Milliseconds (Sub now (cs_startTime cs))) (Len now ords).

Definition Replicate (clk : nat -> Time) (req : ReplicateRequest) (cs : CacheServer)
    : bool * CacheServer :=
  (true,
   if rr_Op req =? OpSet then
     set_store (Set_ (clk 0%nat) (clk 1%nat) (cs_store cs) (rr_Key req) (rr_Value req)
                  (req_ttl (rr_TtlMs req))) cs
   else if rr_Op req =? OpDelete then set_store (Delete (cs_store cs) (rr_Key req)).2 cs
   else cs).

(** [send] is the stream: it takes a pair or fails. *)
Definition transfer_key {St} (send : KeyValuePair -> St -> bool * St) (key : string) (value : bytes)
    (ttl : Duration) (st : St) : bool * St :=
  send (mkKeyValuePair key value (Milliseconds ttl)) st.

Definition TransferKeys {St} (send : KeyValuePair -> St -> bool * St) (now : Time)
    (ords : list (list (string * Entry))) (st : St) : St :=
  ForEach (transfer_key send) now ords st.

(** ** The cluster *)

Abbreviation cluster := (gmap string CacheServer).

(** How a call ends: with an answer, by a panic of the node that serves it, or
    without fuel. *)
Inductive outcome_of (A : Type) :=
  | Answered (r : rpc_error + A) (c : cluster)
  | Panicked
  | OutOfFuel.

Arguments Answered {A}.
Arguments Panicked {A}.
Arguments OutOfFuel {A}.

Abbreviation outcome := (outcome_of response).

(** The chain of interceptors in front of a handler: the error of the fault
    injector, if it answers by itself. *)
Definition gate (cancelled : bool) (cs : CacheServer) : option rpc_error :=
  if negb (hasFault cs) then None
  else match UnaryInterceptor (cs_fault cs) cancelled (fun st : unit => (inr tt, st)) tt with
       | (inl e, _) => Some e
       | (inr _, _) => None
       end.

Section handle.
(** Which node can reach which, whose deadline ends a delay, the clocks. *)
Context (net : string -> string -> bool) (cancelled : string -> bool) (clk : string -> nat -> Time).

(** The body of the handler of [q] at node [id]; [forward] is the proxied call. *)
Definition respond (forward : string -> cluster -> outcome) (id : string) (q : request)
    (cs : CacheServer) (c : cluster) : outcome :=
  let cs := load_inc cs in
  let c := <[id := cs]> c in
  let result :=
    match route q cs with
    | None => Panicked
    | Some (Some primary) =>
        if net id primary then forward primary c
        else Answered (inl (ErrUnavailable "connection error")) c
    | Some None =>
        match local (clk id) q cs with
        | None => Panicked
        | Some (resp, cs) => Answered (inr resp) (<[id := cs]> c)
        end
    end in
  match result with
  | Answered r c => Answered r (alter load_dec id c)
  | other => other
  end.

(** The request [q] arriving at node [id]; each forwarding takes one unit of
    fuel. *)
Fixpoint handle (fuel : nat) (id : string) (q : request) (c : cluster) : outcome :=
  match fuel with
  | O => OutOfFuel
  | S fuel =>
      match c !! id with
      | None => Answered (inl (ErrUnavailable "no server at this address")) c
      | Some cs =>
          match gate (cancelled id) cs with
          | Some e => Answered (inl e) c
          | None => respond (fun primary c => handle fuel primary q c) id q cs c
          end
      end
  end.

(** One replication goroutine of [id]: the request [req] to [nodeID], through
    the interceptor of that node. *)
Definition invoke_replicate (id nodeID : string) (req : ReplicateRequest) (c : cluster) : bool * cluster :=
  match c !! nodeID with
  | Some cs =>
      if net id nodeID then
        match gate (cancelled nodeID) cs with
        | Some _ => (false, c)
        | None => let '(ok, cs) := Replicate (clk nodeID) req cs in (ok, <[nodeID := cs]> c)
        end
      else (false, c)
  | None => (false, c)
  end.

(** It runs, wherever it stands in the outbox. *)
Definition deliver (now : Time) (id : string) (i : nat) (c : cluster) : option cluster :=
  cs ← c !! id;
  match outbox (cs_rep cs) !! i with
  | None => Some c
  | Some (nodeID, req) =>
      let rm := set_outbox (delete i (outbox (cs_rep cs))) (cs_rep cs) in
      let '(rm, c) := sendReplicate (invoke_replicate id) now nodeID req rm c in
      rm ← rm; Some (alter (set_rep rm) id c)
  end.
End handle.
