(* ===== verification/Codec.v ===== *)
(** * The JSON codec: api/proto/codec.go and the messages it carries

    A Go type is described by how encoding/json writes and reads it ([gotype]),
    a struct by its fields.  [Marshal] and [Unmarshal] are the codec on the
    messages of api/proto/messages.go and on the gossip messages of
    internal/cluster/membership.go.  The descriptions carry their round trips,
    so that the one of a struct is a computation over its fields. *)

From S2P Require Import Prelude GoLib Text Json Registry Gossip Replication Server.

#[local] Open Scope Z_scope.

(** ** Go types

    [from_json j old] reads [j] into a variable that holds [old]; [None] is an
    error, after which the callers drop the variable.  [gt_san a] is what comes
    back after a round trip through a fresh variable: [a] with its strings
    sanitized, which is [a] itself when they are valid UTF-8 ([gt_clean]). *)
Record gotype (A : Type) := mkType {
  gt_zero : A;
  to_json : A -> json;
  from_json : json -> A -> option A;
  gt_ok : A -> Prop;
  gt_clean : A -> Prop;
  gt_san : A -> A;
  gt_depth : Z;
  gt_json_ok : forall a, gt_ok a -> json_ok (to_json a);
  gt_nesting : forall a, gt_ok a -> nesting (to_json a) <= gt_depth;
  gt_law : forall a, gt_ok a -> from_json (san (to_json a)) gt_zero = Some (gt_san a);
  gt_san_clean : forall a, gt_clean a -> gt_san a = a
}.

Arguments gt_zero {A}.
Arguments to_json {A}.
Arguments from_json {A}.
Arguments gt_ok {A}.
Arguments gt_clean {A}.
Arguments gt_san {A}.
Arguments gt_depth {A}.
Arguments gt_json_ok {A}.
Arguments gt_nesting {A}.
Arguments gt_law {A}.
Arguments gt_san_clean {A}.

Definition sanitized (s : string) : string := string_of_codes (sanitize (codes s)).
Definition valid_string (s : string) : Prop := valid_utf8 (codes s) = true.

Lemma sanitized_id s : valid_string s -> sanitized s = s.
Proof. intros H. unfold sanitized. by rewrite sanitize_id, string_codes. Qed.

Lemma sanitized_valid s : valid_string (sanitized s).
Proof.
  unfold valid_string, sanitized. rewrite codes_string by (apply sanitize_ok, codes_ok).
  apply sanitize_valid.
Qed.

Lemma sanitized_idem s : sanitized (sanitized s) = sanitized s.
Proof. apply sanitized_id, sanitized_valid. Qed.

Definition string_in (j : json) (old : string) : option string :=
  match j with
  | JNull => Some old
  | JStr s => Some (string_of_codes s)
  | _ => None
  end.

#[local] Obligation Tactic := try done.

Program Definition go_string : gotype string :=
  mkType string "" (fun s => JStr (codes s)) string_in (fun _ => True) valid_string sanitized 0 _ _ _ _.
Next Obligation. intros s _. apply codes_ok. Qed.
Next Obligation. exact sanitized_id. Qed.

Definition bool_in (j : json) (old : bool) : option bool :=
  match j with
  | JNull => Some old
  | JBool b => Some b
  | _ => None
  end.

Program Definition go_bool : gotype bool :=
  mkType bool false JBool bool_in (fun _ => True) (fun _ => True) (fun b => b) 0 _ _ _ _.

(** [strconv.ParseInt] and [ParseUint] of the literal, in the range of the type. *)
Definition int_in (lo hi : Z) (j : json) (old : Z) : option Z :=
  match j with
  | JNull => Some old
  | JNum lit => z ← parse_int lit; if (lo <=? z) && (z <=? hi) then Some z else None
  | _ => None
  end.

Definition uint_in (hi : Z) (j : json) (old : Z) : option Z :=
  match j with
  | JNum (c :: _) => if c =? minus then None else int_in 0 hi j old
  | _ => int_in 0 hi j old
  end.

Lemma int_in_decimal lo hi z old : lo <= z <= hi -> int_in lo hi (JNum (decimal z)) old = Some z.
Proof.
  intros Hz. simpl. rewrite parse_decimal. simpl.
  destruct (Z.leb_spec lo z), (Z.leb_spec z hi); done || lia.
Qed.

Lemma decimal_nonneg z : 0 <= z -> exists c l, decimal z = c :: l /\ c <> minus.
Proof.
  intros Hz. unfold decimal. destruct z as [|p|p]; [by exists 48, []| |lia].
  destruct (decimal_shape (Z.pos p)) as (d & Hd & [[E _]|[E _]]).
  - unfold decimal in E. rewrite E.
    destruct (uint_text d) as [|c l] eqn:Ed; [destruct Hd as [|(? & ? & ? & _)]; done|].
    exists c, l. split; [done|]. by eapply canonical_head.
  - exfalso. unfold decimal in E. simpl in E. pose proof (uint_text_digits (Pos.to_uint p)) as H.
    rewrite E in H. by inv H.
Qed.

Program Definition go_int (lo hi : Z) : gotype Z :=
  mkType Z 0 (fun z => JNum (decimal z)) (int_in lo hi) (fun z => lo <= z <= hi) (fun _ => True)
    (fun z => z) 0 _ _ _ _.
Next Obligation. intros lo hi z _. by exists z. Qed.
Next Obligation. intros lo hi z Hz. by apply int_in_decimal. Qed.

Program Definition go_uint (hi : Z) : gotype Z :=
  mkType Z 0 (fun z => JNum (decimal z)) (uint_in hi) (fun z => 0 <= z <= hi) (fun _ => True)
    (fun z => z) 0 _ _ _ _.
Next Obligation. intros hi z _. by exists z. Qed.
Next Obligation.
  intros hi z Hz. simpl in *. destruct (decimal_nonneg z) as (c & l & E & Hc); [apply Hz|].
  rewrite <- (int_in_decimal 0 hi z 0 Hz). unfold uint_in. rewrite E.
  by rewrite (proj2 (Z.eqb_neq c minus)).
Qed.

Definition go_int64 : gotype Z := go_int MinInt64 MaxInt64.
Definition go_uint64 : gotype Z := go_uint MaxUint64.
Definition go_uint8 : gotype Z := go_uint 255.

(** The elements of an array, read over those of the slice that is there. *)
Fixpoint elements_in {A} (T : gotype A) (js : list json) (olds : list A) : option (list A) :=
  match js with
  | [] => Some []
  | j :: js =>
      x ← from_json T j (default (gt_zero T) (head olds));
      xs ← elements_in T js (tail olds);
      Some (x :: xs)
  end.

(** A slice; whether an empty one is [nil], and so written as [null], is [isnil]. *)
Definition slice_in {A} (T : gotype A) (j : json) (olds : list A) : option (list A) :=
  match j with
  | JNull => Some []
  | JArr js => elements_in T js olds
  | _ => None
  end.

Definition slice_out {A} (T : gotype A) (isnil : bool) (l : list A) : json :=
  match l with
  | [] => if isnil then JNull else JArr []
  | _ => JArr (to_json T <$> l)
  end.

Lemma elements_roundtrip {A} (T : gotype A) l :
  Forall (gt_ok T) l -> elements_in T (san <$> (to_json T <$> l)) [] = Some (gt_san T <$> l).
Proof.
  intros Hl. induction Hl as [|a l Ha _ IH]; [done|].
  rewrite !fmap_cons. cbn [elements_in head hd_error default tail]. rewrite gt_law by done. cbn. by rewrite IH.
Qed.

Program Definition go_slice {A} (T : gotype A) (isnil : bool) : gotype (list A) :=
  mkType (list A) [] (slice_out T isnil) (slice_in T) (Forall (gt_ok T)) (Forall (gt_clean T))
    (fmap (gt_san T)) (1 + Z.max 0 (gt_depth T)) _ _ _ _.
Next Obligation.
  intros A T isnil l Hl. destruct l as [|a l]; [by destruct isnil|]. unfold slice_out.
  cbn [json_ok]. induction Hl as [|b k Hb _ IH]; [done|]. split; [by apply gt_json_ok|done].
Qed.
Next Obligation.
  intros A T isnil l Hl. destruct l as [|a l]; [destruct isnil; simpl; lia|]. unfold slice_out.
  cbn [nesting]. assert (foldr (fun j m => Z.max (nesting j) m) 0 (to_json T <$> a :: l)
    <= Z.max 0 (gt_depth T)); [|lia].
  induction Hl as [|b k Hb _ IH]; [cbn; lia|]. rewrite fmap_cons. cbn [foldr]. pose proof (gt_nesting T b Hb). lia.
Qed.
Next Obligation.
  intros A T isnil l Hl. destruct l as [|a l]; [by destruct isnil|].
  unfold slice_out, slice_in. cbn [san]. by apply elements_roundtrip.
Qed.
Next Obligation.
  intros A T isnil l Hl. induction Hl as [|a l Ha _ IH]; [done|]. rewrite fmap_cons. by rewrite gt_san_clean, IH.
Qed.

(** [[]byte]: base64, or an array of numbers on reading. *)
Definition bytes_in (j : json) (old : bytes) : option bytes :=
  match j with
  | JNull => Some []
  | JStr s => bytes_of_codes <$> base64_decode s
  | JArr js => bytes_of_codes <$> elements_in go_uint8 js (codes_of_bytes old)
  | _ => None
  end.

Definition bytes_out (isnil : bool) (bs : bytes) : json :=
  match bs with
  | [] => if isnil then JNull else JStr []
  | _ => JStr (base64_encode (codes_of_bytes bs))
  end.

Lemma base64_sanitize l : sanitize (base64_encode l) = base64_encode l.
Proof.
  apply sanitize_id, ascii_valid, Forall_forall. intros c Hc%base64_encode_chars. lia.
Qed.

Program Definition go_bytes (isnil : bool) : gotype bytes :=
  mkType bytes [] (bytes_out isnil) bytes_in (fun _ => True) (fun _ => True) (fun bs => bs) 0 _ _ _ _.
Next Obligation.
  intros isnil [|b bs] _; [by destruct isnil; simpl|]. cbn [bytes_out json_ok]. apply Forall_forall.
  intros c Hc%base64_encode_chars. unfold is_code. lia.
Qed.
Next Obligation. intros isnil [|b bs] _; [by destruct isnil|done]. Qed.
Next Obligation.
  intros isnil [|b bs] _; [by destruct isnil|]. unfold bytes_out. cbn [san bytes_in].
  rewrite base64_sanitize, base64_roundtrip by apply codes_of_bytes_ok.
  cbn [fmap option_fmap option_map]. by rewrite bytes_codes.
Qed.

(** ** Structs

    A struct is described by its fields as a tuple.  A member of the object is
    read into the field whose name it has, exactly or else up to letter case;
    other members are skipped. *)

(** [foldName]: the runes whose fold is an ASCII letter are the letters, the
    Kelvin sign and the long s. *)
Definition fold_rune (r : option text) : text :=
  match r with
  | None => replacement
  | Some [c] => if in_range 97 122 c then [c - 32] else [c]
  | Some bs =>
      if bool_decide (bs = [226; 132; 170]) then [75]
      else if bool_decide (bs = [197; 191]) then [83]
      else bs
  end.

Definition fold_name (name : text) : text := concat (fold_rune <$> runes name).

Definition resolve (names : list text) (key : text) : option text :=
  if bool_decide (key ∈ names) then Some key
  else snd <$> list_find (fun name => fold_name name = fold_name key) names.

Record fields (R : Type) := mkFields {
  fs_names : list text;
  fs_zero : R;
  fs_out : R -> list (text * json);
  fs_in : text -> json -> R -> option R;
  fs_ok : R -> Prop;
  fs_clean : R -> Prop;
  fs_san : R -> R;
  fs_depth : Z
}.

Arguments fs_names {R}.
Arguments fs_zero {R}.
Arguments fs_out {R}.
Arguments fs_in {R}.
Arguments fs_ok {R}.
Arguments fs_clean {R}.
Arguments fs_san {R}.
Arguments fs_depth {R}.

Definition no_fields : fields unit :=
  mkFields unit [] tt (fun _ => []) (fun _ _ r => Some r) (fun _ => True) (fun _ => True) id 0.

(** A field with its name; [omitempty] tells which values are left out. *)
Definition add_field {A R} (name : string) (omitempty : A -> bool) (T : gotype A) (F : fields R)
    : fields (A * R) :=
  mkFields (A * R) (codes name :: fs_names F) (gt_zero T, fs_zero F)
    (fun '(a, r) => (if omitempty a then [] else [(codes name, to_json T a)]) ++ fs_out F r)
    (fun key j '(a, r) =>
       if bool_decide (key = codes name) then (fun a => (a, r)) <$> from_json T j a
       else pair a <$> fs_in F key j r)
    (fun '(a, r) => gt_ok T a /\ fs_ok F r)
    (fun '(a, r) => gt_clean T a /\ fs_clean F r)
    (fun '(a, r) => (gt_san T a, fs_san F r))
    (Z.max (gt_depth T) (fs_depth F)).

Definition always {A} (a : A) : bool := false.
Definition empty_slice {A} (l : list A) : bool := bool_decide (l = []).

Notation "name ::: T ; F" := (add_field name always T F)
  (at level 60, T at next level, right associativity, format "name  :::  T ;  F").
Notation "name ?:: T ; F" := (add_field name empty_slice T F)
  (at level 60, T at next level, right associativity, format "name  ?::  T ;  F").

Fixpoint members_in {R} (F : fields R) (kvs : list (text * json)) (r : R) : option R :=
  match kvs with
  | [] => Some r
  | (key, j) :: kvs =>
      match resolve (fs_names F) key with
      | None => members_in F kvs r
      | Some name => r ← fs_in F name j r; members_in F kvs r
      end
  end.

(** The laws of a description: valid and distinct names, and a round trip. *)
Class fields_ok {R} (F : fields R) : Prop := {
  fo_names : forall name, name ∈ fs_names F -> Forall is_code name /\ sanitize name = name;
  fo_nodup : NoDup (fs_names F);
  fo_out : forall r kv, fs_ok F r -> kv ∈ fs_out F r ->
    kv.1 ∈ fs_names F /\ json_ok kv.2 /\ nesting kv.2 <= fs_depth F;
  fo_law : forall r, fs_ok F r ->
    foldl (fun acc kv => acc ≫= fs_in F kv.1 (san kv.2)) (Some (fs_zero F)) (fs_out F r)
      = Some (fs_san F r);
  fo_clean : forall r, fs_clean F r -> fs_san F r = r
}.

Lemma no_fields_ok : fields_ok no_fields.
Proof.
  constructor; [by intros ? ?%elem_of_nil|constructor|by intros ? ? _ ?%elem_of_nil|by intros []|done].
Qed.

(** Members of other fields leave the first one alone. *)
Lemma add_field_skips {A R} name om (T : gotype A) (F : fields R) (a : A) kvs acc :
  Forall (fun kv => kv.1 <> codes name) kvs ->
  foldl (fun acc kv => acc ≫= fs_in (add_field name om T F) kv.1 (san kv.2)) (pair a <$> acc) kvs
    = pair a <$> foldl (fun acc kv => acc ≫= fs_in F kv.1 (san kv.2)) acc kvs.
Proof.
  intros Hk. revert acc. induction Hk as [|[k j] kvs Hne _ IH]; intros acc; [done|].
  cbn [foldl]. rewrite <- IH. f_equal. destruct acc as [r|]; [|done]. cbn.
  by rewrite bool_decide_eq_false_2.
Qed.

Lemma add_field_ok {A R} name om (T : gotype A) (F : fields R) :
  valid_string name -> codes name ∉ fs_names F ->
  (forall a, om a = true -> gt_san T a = gt_zero T) ->
  fields_ok F -> fields_ok (add_field name om T F).
Proof.
  intros Hname Hnew Hom HF. constructor.
  - intros n [->|Hn]%elem_of_cons; [|by apply HF].
    split; [apply codes_ok|by apply sanitize_id].
  - constructor; [done|apply HF].
  - intros [a r] kv [Ha Hr] [Hkv|Hkv]%elem_of_app.
    + destruct (om a); [by apply elem_of_nil in Hkv|]. apply list_elem_of_singleton in Hkv as ->.
      split_and!; [by left|by apply gt_json_ok|]. pose proof (gt_nesting T a Ha). cbn. lia.
    + destruct (fo_out r kv Hr Hkv) as (? & ? & ?). split_and!; [by right|done|]. cbn. lia.
  - intros [a r] [Ha Hr]. cbn [add_field fs_out fs_zero fs_san]. rewrite foldl_app.
    assert (foldl (fun acc kv => acc ≫= fs_in (add_field name om T F) kv.1 (san kv.2))
      (Some (gt_zero T, fs_zero F)) (if om a then [] else [(codes name, to_json T a)])
      = pair (gt_san T a) <$> Some (fs_zero F)) as ->.
    { destruct (om a) eqn:E; [by rewrite Hom|]. cbn.
      rewrite bool_decide_eq_true_2 by done. by rewrite gt_law. }
    rewrite add_field_skips.
    + by rewrite fo_law by done.
    + apply Forall_forall. intros kv Hkv E. apply Hnew. rewrite <- E. by eapply fo_out.
  - intros [a r] [Ha Hr]. cbn. by rewrite gt_san_clean, fo_clean.
Qed.

Lemma resolve_declared names key : key ∈ names -> resolve names key = Some key.
Proof. intros H. unfold resolve. by rewrite bool_decide_eq_true_2. Qed.

Lemma members_roundtrip {R} (F : fields R) r :
  fields_ok F -> fs_ok F r ->
  members_in F ((fun kv => (sanitize kv.1, san kv.2)) <$> fs_out F r) (fs_zero F) = Some (fs_san F r).
Proof.
  intros HF Hr. rewrite <- (fo_law r Hr).
  assert (Forall (fun kv => kv.1 ∈ fs_names F) (fs_out F r)) as Hk
    by (apply Forall_forall; intros kv Hkv; by eapply fo_out).
  generalize (fs_zero F). induction Hk as [|[k j] kvs Hin _ IH]; intros r0; [done|].
  rewrite fmap_cons. cbn [members_in fst snd foldl mbind option_bind] in *.
  destruct (fo_names k Hin) as [_ ->]. rewrite resolve_declared by done.
  destruct (fs_in F k (san j) r0) as [r1|]; [apply IH|]. cbn. clear. by induction kvs.
Qed.

(** A struct type [S] as the tuple of its fields. *)
Definition struct_in {S R} (F : fields R) (tup : S -> R) (rec : R -> S) (j : json) (old : S) : option S :=
  match j with
  | JNull => Some old
  | JObj kvs => rec <$> members_in F kvs (tup old)
  | _ => None
  end.

Class struct_iso {S R} (tup : S -> R) (rec : R -> S) : Prop := {
  tuple_rec : forall r, tup (rec r) = r;
  rec_tuple : forall s, rec (tup s) = s
}.

Program Definition go_struct {S R} (F : fields R) (tup : S -> R) (rec : R -> S)
    `{HF : fields_ok R F} `{Hiso : struct_iso S R tup rec} : gotype S :=
  mkType S (rec (fs_zero F)) (fun s => JObj (fs_out F (tup s))) (struct_in F tup rec)
    (fun s => fs_ok F (tup s)) (fun s => fs_clean F (tup s)) (fun s => rec (fs_san F (tup s)))
    (1 + Z.max 0 (fs_depth F)) _ _ _ _.
Next Obligation.
  intros S R F tup rec HF Hiso s Hs. cbn [json_ok].
  assert (Forall (fun kv => kv ∈ fs_out F (tup s)) (fs_out F (tup s))) as H by by apply Forall_forall.
  induction H as [|kv kvs Hkv _ IH]; [done|]. cbn [foldr].
  destruct (fo_out (tup s) kv Hs Hkv) as (Hin & Hok & _).
  split_and!; [by eapply fo_names|done|done].
Qed.
Next Obligation.
  intros S R F tup rec HF Hiso s Hs. cbn [nesting].
  assert (foldr (fun kv m => Z.max (nesting kv.2) m) 0 (fs_out F (tup s)) <= Z.max 0 (fs_depth F)); [|lia].
  assert (Forall (fun kv => kv ∈ fs_out F (tup s)) (fs_out F (tup s))) as H by by apply Forall_forall.
  induction H as [|kv kvs Hkv _ IH]; cbn [foldr]; [lia|].
  destruct (fo_out (tup s) kv Hs Hkv) as (_ & _ & Hd). lia.
Qed.
Next Obligation.
  intros S R F tup rec HF Hiso s Hs. cbn [san struct_in]. by rewrite tuple_rec, members_roundtrip.
Qed.
Next Obligation. intros S R F tup rec HF Hiso s Hs. cbn. by rewrite fo_clean, rec_tuple. Qed.

Ltac struct_fields :=
  repeat first
    [ apply no_fields_ok
    | apply add_field_ok;
      [ vm_compute; reflexivity
      | apply (bool_decide_unpack _); vm_compute; exact I
      | first [ by intros ? [=] | by intros ? ->%bool_decide_eq_true_1 ]
      | ] ].

Ltac tuple_iso :=
  intros; repeat match goal with
  | p : (_ * _)%type |- _ => destruct p
  | u : unit |- _ => destruct u
  end;
  first [reflexivity | match goal with x : _ |- _ => destruct x; reflexivity end].

#[export] Hint Extern 1 (fields_ok _) => struct_fields : typeclass_instances.
#[export] Hint Extern 1 (struct_iso _ _) => split; tuple_iso : typeclass_instances.

(** ** The codec

    The data is the text of its bytes. *)

Definition Marshal {A} (T : gotype A) (v : A) : text := print (to_json T v).

Definition Unmarshal {A} (T : gotype A) (data : text) (v : A) : option A :=
  j ← parse data; from_json T j v.

(** Everything the codec carries nests a few levels. *)
Definition shallow {A} (T : gotype A) : Prop := gt_depth T <= maxNestingDepth.

Lemma Unmarshal_Marshal {A} (T : gotype A) a :
  shallow T -> gt_ok T a -> Unmarshal T (Marshal T a) (gt_zero T) = Some (gt_san T a).
Proof.
  intros Hd Ha. unfold Unmarshal, Marshal. rewrite parse_print.
  - by apply gt_law.
  - by apply gt_json_ok.
  - etrans; [by apply gt_nesting|done].
Qed.

(** ** api/proto/messages.go

    The messages of one or two fields are tuples of them.  A slice that is empty
    may be [nil] or not ([isnil]). *)

Definition pb_GetRequest : gotype string :=
  go_struct ("Key" ::: go_string; no_fields) (fun key : string => (key, tt)) fst.

Definition pb_GetResponse (isnil : bool) : gotype GetResponse :=
  go_struct ("Key" ::: go_string; "Value" ::: go_bytes isnil; "Found" ::: go_bool;
             "TtlMs" ::: go_int64; "IsHot" ::: go_bool; no_fields)
    (fun r => (gr_Key r, (gr_Value r, (gr_Found r, (gr_TtlMs r, (gr_IsHot r, tt))))))
    (fun '(k, (v, (f, (t, (h, _))))) => mkGetResponse k v f t h).

Definition pb_SetRequest (isnil : bool) : gotype (string * bytes * Z) :=
  go_struct ("Key" ::: go_string; "Value" ::: go_bytes isnil; "TtlMs" ::: go_int64; no_fields)
    (fun '((k, v, t) : string * bytes * Z) => (k, (v, (t, tt)))) (fun '(k, (v, (t, _))) => (k, v, t)).

Definition pb_SetResponse : gotype bool :=
  go_struct ("Success" ::: go_bool; no_fields) (fun b : bool => (b, tt)) fst.

Definition pb_DeleteRequest : gotype string :=
  go_struct ("Key" ::: go_string; no_fields) (fun key : string => (key, tt)) fst.

Definition pb_DeleteResponse : gotype bool :=
  go_struct ("Existed" ::: go_bool; no_fields) (fun b : bool => (b, tt)) fst.

Definition pb_ExpireRequest : gotype (string * Z) :=
  go_struct ("Key" ::: go_string; "TtlMs" ::: go_int64; no_fields)
    (fun '((k, t) : string * Z) => (k, (t, tt))) (fun '(k, (t, _)) => (k, t)).

Definition pb_ExpireResponse : gotype bool :=
  go_struct ("Found" ::: go_bool; no_fields) (fun b : bool => (b, tt)) fst.

Definition pb_KeysRequest : gotype string :=
  go_struct ("Pattern" ::: go_string; no_fields) (fun pattern : string => (pattern, tt)) fst.

Definition pb_KeysResponse (isnil : bool) : gotype (list string) :=
  go_struct ("Keys" ::: go_slice go_string isnil; no_fields) (fun keys : list string => (keys, tt)) fst.

Definition pb_PingRequest : gotype unit :=
  go_struct no_fields (fun r : unit => r) id.

Definition pb_PingResponse : gotype PingResponse :=
  go_struct ("NodeId" ::: go_string; "UptimeMs" ::: go_int64; "KeysCount" ::: go_int64; no_fields)
    (fun r => (pr_NodeId r, (pr_UptimeMs r, (pr_KeysCount r, tt))))
    (fun '(n, (u, (k, _))) => mkPingResponse n u k).

Definition pb_ReplicateRequest (isnil : bool) : gotype ReplicateRequest :=
  go_struct ("Key" ::: go_string; "Value" ::: go_bytes isnil; "TtlMs" ::: go_int64;
             "Sequence" ::: go_uint64; "SourceNode" ::: go_string; "Op" ::: go_int64; no_fields)
    (fun r => (rr_Key r, (rr_Value r, (rr_TtlMs r, (rr_Sequence r, (rr_SourceNode r, (rr_Op r, tt)))))))
    (fun '(k, (v, (t, (s, (n, (o, _)))))) => mkReplicate k v t s n o).

Definition pb_ReplicateResponse : gotype bool :=
  go_struct ("Success" ::: go_bool; no_fields) (fun b : bool => (b, tt)) fst.

Definition pb_TransferKeysRequest : gotype (Z * Z * string) :=
  go_struct ("RangeStart" ::: go_uint64; "RangeEnd" ::: go_uint64; "RequestingNode" ::: go_string;
             no_fields)
    (fun '((a, b, n) : Z * Z * string) => (a, (b, (n, tt)))) (fun '(a, (b, (n, _))) => (a, b, n)).

Definition pb_KeyValuePair (isnil : bool) : gotype KeyValuePair :=
  go_struct ("Key" ::: go_string; "Value" ::: go_bytes isnil; "TtlMs" ::: go_int64; no_fields)
    (fun r => (kv_Key r, (kv_Value r, (kv_TtlMs r, tt))))
    (fun '(k, (v, (t, _))) => mkKeyValuePair k v t).

(** ** The messages of internal/cluster/membership.go *)

Definition json_MembershipUpdate : gotype MembershipUpdate :=
  go_struct ("node_id" ::: go_string; "grpc_addr" ::: go_string; "gossip_addr" ::: go_string;
             "http_addr" ::: go_string; "status" ::: go_int64; "incarnation" ::: go_uint64; no_fields)
    (fun u => (u_NodeID u, (u_GRPCAddr u, (u_GossipAddr u, (u_HTTPAddr u, (u_Status u,
               (u_Incarnation u, tt)))))))
    (fun '(n, (g, (a, (h, (s, (i, _)))))) => mkUpdate n g a h s i).

Definition json_SwimMessage : gotype SwimMessage :=
  go_struct ("type" ::: go_uint8; "sender_id" ::: go_string; "sender_addr" ::: go_string;
             "target_id" ::: go_string; "incarnation" ::: go_uint64;
             "updates" ?:: go_slice json_MembershipUpdate true; no_fields)
    (fun m => (Type_ m, (SenderID m, (SenderAddr m, (TargetID m, (msg_Incarnation m, (Updates m, tt)))))))
    (fun '(t, (s, (a, (g, (i, (u, _)))))) => mkMsg t s a g i u).

(** ** The messages the program exchanges *)

Inductive message : Type -> Type :=
  | MGetRequest : message string
  | MGetResponse : message GetResponse
  | MSetRequest : message (string * bytes * Z)
  | MSetResponse : message bool
  | MDeleteRequest : message string
  | MDeleteResponse : message bool
  | MExpireRequest : message (string * Z)
  | MExpireResponse : message bool
  | MKeysRequest : message string
  | MKeysResponse : message (list string)
  | MPingRequest : message unit
  | MPingResponse : message PingResponse
  | MReplicateRequest : message ReplicateRequest
  | MReplicateResponse : message bool
  | MTransferKeysRequest : message (Z * Z * string)
  | MKeyValuePair : message KeyValuePair
  | MSwimMessage : message SwimMessage.

Definition describe (isnil : bool) {A} (k : message A) : gotype A :=
  match k with
  | MGetRequest => pb_GetRequest
  | MGetResponse => pb_GetResponse isnil
  | MSetRequest => pb_SetRequest isnil
  | MSetResponse => pb_SetResponse
  | MDeleteRequest => pb_DeleteRequest
  | MDeleteResponse => pb_DeleteResponse
  | MExpireRequest => pb_ExpireRequest
  | MExpireResponse => pb_ExpireResponse
  | MKeysRequest => pb_KeysRequest
  | MKeysResponse => pb_KeysResponse isnil
  | MPingRequest => pb_PingRequest
  | MPingResponse => pb_PingResponse
  | MReplicateRequest => pb_ReplicateRequest isnil
  | MReplicateResponse => pb_ReplicateResponse
  | MTransferKeysRequest => pb_TransferKeysRequest
  | MKeyValuePair => pb_KeyValuePair isnil
  | MSwimMessage => json_SwimMessage
  end.

Lemma describe_shallow isnil {A} (k : message A) : shallow (describe isnil k).
Proof. unfold shallow. destruct k; vm_compute; discriminate. Qed.

Lemma message_roundtrip isnil {A} (k : message A) a (T := describe isnil k) :
  gt_ok T a -> Unmarshal T (Marshal T a) (gt_zero T) = Some (gt_san T a).
Proof. apply Unmarshal_Marshal, describe_shallow. Qed.

Lemma message_roundtrip_clean isnil {A} (k : message A) a (T := describe isnil k) :
  gt_ok T a -> gt_clean T a -> Unmarshal T (Marshal T a) (gt_zero T) = Some a.
Proof. intros Ha Hc. unfold T. rewrite message_roundtrip by done. by rewrite gt_san_clean. Qed.

(** C12: every message of the service and of the gossip protocol survives the
    codec.  Read into a fresh variable, what [Marshal] wrote of a message whose
    integers are in the range of their Go types comes back with its strings
    made valid UTF-8, and unchanged when they are valid; so distinct messages
    with valid strings have distinct encodings. *)
Theorem codec_roundtrip (isnil : bool) (A : Type) (k : message A) (a b : A) (T := describe isnil k) :
  gt_ok T a -> gt_ok T b ->
  Unmarshal T (Marshal T a) (gt_zero T) = Some (gt_san T a) /\
  (gt_clean T a -> Unmarshal T (Marshal T a) (gt_zero T) = Some a) /\
  (gt_clean T a -> gt_clean T b -> Marshal T a = Marshal T b -> a = b).
Proof.
  intros Ha Hb. split_and!.
  - by apply message_roundtrip.
  - by apply message_roundtrip_clean.
  - intros Hca Hcb E. apply (inj Some). unfold T in *.
    rewrite <- (message_roundtrip_clean isnil k a Ha Hca), <- (message_roundtrip_clean isnil k b Hb Hcb).
    by rewrite E.
Qed.

(** Concrete messages. *)
Ltac message_ok := cbn; repeat first [done | lia | reflexivity | split | constructor].

Definition demo_update : MembershipUpdate :=
  mkUpdate "node-1" "10.0.0.1:9000" "10.0.0.1:7946" "10.0.0.1:8080" 0 7.
Definition demo_ping : SwimMessage := mkMsg 1 "node-1" "10.0.0.1:7946" "" 7 [demo_update].
Definition demo_nodes : SwimMessage := mkMsg 2 "" "" "" 0 [].

Lemma codec_roundtrip_witness :
  Unmarshal json_SwimMessage (Marshal json_SwimMessage demo_ping) (gt_zero json_SwimMessage)
    = Some demo_ping.
Proof.
  apply (codec_roundtrip false SwimMessage MSwimMessage demo_ping demo_nodes).
  - message_ok.
  - message_ok.
  - message_ok.
Defined.
