(* ===== verification/ClusterProps.v ===== *)
(** * What the cluster guarantees: forwarding, replication and failover

    Properties of internal/server/grpc_server.go and
    internal/cluster/replication.go over a cluster of nodes. *)

From S2P Require Import Prelude GoLib Store Sketch Mitigator HashRing Chaos Replication Server.

#[local] Open Scope Z_scope.

(** ** How far a node is from a key

    The distance on the ring from the hash of a key, clockwise, to the nearest
    virtual node of a node: it depends on the node and the key alone, not on who
    else is in the ring. *)

Definition dist (key : string) (h : Z) : Z := (h - hashKey key) mod 2 ^ 64.

Definition rank (count : Z) (key id : string) : Z :=
  running_min (2 ^ 64) ((fun i => dist key (hashVNode id i)) <$> seqZ 0 count).

Lemma dist_range key h : 0 <= dist key h < 2 ^ 64.
Proof. apply Z.mod_pos_bound. lia. Qed.

Lemma hashKey_range key : 0 <= hashKey key < 2 ^ 64.
Proof. apply fnv64a_range. Qed.

Lemma hashVNode_range id i : 0 <= hashVNode id i < 2 ^ 64.
Proof. apply fnv64a_range. Qed.

Lemma dist_after key h : hashKey key <= h < 2 ^ 64 -> dist key h = h - hashKey key.
Proof. intros H. pose proof (hashKey_range key). apply Z.mod_small. lia. Qed.

Lemma dist_before key h : 0 <= h < hashKey key -> dist key h = h - hashKey key + 2 ^ 64.
Proof.
  intros H. pose proof (hashKey_range key). unfold dist.
  rewrite <- (Z.mod_small (h - hashKey key + 2 ^ 64) (2 ^ 64)) by lia.
  by rewrite <- (Z.mod_add (h - hashKey key) 1 (2 ^ 64)) by lia.
Qed.

Lemma dist_inj key h h' : 0 <= h < 2 ^ 64 -> 0 <= h' < 2 ^ 64 -> dist key h = dist key h' -> h = h'.
Proof.
  intros Hh Hh' E. destruct (Z.le_gt_cases (hashKey key) h), (Z.le_gt_cases (hashKey key) h');
    rewrite ?(dist_after key h), ?(dist_before key h), ?(dist_after key h'), ?(dist_before key h')
      in E by lia; lia.
Qed.

(** The first virtual node clockwise is the nearest. *)
Lemma head_clockwise_min key l v :
  Sorted (key_le Hash) l -> Forall (fun w => 0 <= Hash w < 2 ^ 64) l ->
  head (clockwise (hashKey key) l) = Some v ->
  forall w, w ∈ l -> dist key (Hash v) <= dist key (Hash w).
Proof.
  intros Hs Hr Hv w Hw. rewrite Forall_forall in Hr.
  assert (v ∈ l) as Hvl.
  { apply (elem_of_clockwise (hashKey key)). apply head_Some_elem_of in Hv. done. }
  pose proof (Hr v Hvl). pose proof (Hr w Hw).
  assert (forall P `{!forall x, Decision (P x)}, head (filter P l) = Some v -> P w -> Hash v <= Hash w)
    as Hmin.
  { intros P ? Hh HPw. apply (Sorted_filter _ P) in Hs.
    destruct (filter P l) as [|x l'] eqn:E; [done|]. simplify_eq/=.
    assert (w ∈ v :: l') as Hin by (rewrite <- E; by apply list_elem_of_filter).
    apply (Sorted_StronglySorted (key_le Hash)) in Hs. inversion Hs; subst.
    apply elem_of_cons in Hin as [->|Hin]; [lia|].
    match goal with H : Forall _ l' |- _ => rewrite Forall_forall in H; by apply H end. }
  unfold clockwise in Hv.
  destruct (filter (fun u => hashKey key <= Hash u) l) as [|x l'] eqn:E; simpl in Hv.
  - assert (forall u, u ∈ l -> Hash u < hashKey key) as Hlow.
    { intros u Hu. destruct (Z.le_gt_cases (hashKey key) (Hash u)); [|done].
      assert (u ∈ filter (fun u => hashKey key <= Hash u) l) as Hin by (by apply list_elem_of_filter).
      rewrite E in Hin. by apply elem_of_nil in Hin. }
    pose proof (Hlow v Hvl). pose proof (Hlow w Hw).
    rewrite !dist_before by lia. pose proof (Hmin _ _ Hv ltac:(done)). lia.
  - simplify_eq. assert (hashKey key <= Hash v) as Hkv.
    { assert (v ∈ filter (fun u => hashKey key <= Hash u) l) as Hin by (rewrite E; left).
      by apply list_elem_of_filter in Hin as [? _]. }
    rewrite (dist_after key (Hash v)) by lia.
    destruct (Z.le_gt_cases (hashKey key) (Hash w)) as [Hle|Hgt].
    + rewrite dist_after by lia. pose proof (Hmin (fun u => hashKey key <= Hash u) _ ltac:(by rewrite E) Hle). lia.
    + rewrite dist_before by lia. lia.
Qed.

Lemma rank_le count key id i :
  0 <= i < count -> rank count key id <= dist key (hashVNode id i).
Proof.
  intros Hi. destruct (running_min_le (2 ^ 64) ((fun i => dist key (hashVNode id i)) <$> seqZ 0 count))
    as [_ H]. rewrite Forall_forall in H. apply H.
  apply (list_elem_of_fmap_2 (fun i => dist key (hashVNode id i))). apply elem_of_seqZ. lia.
Qed.

Lemma rank_attained count key id :
  1 <= count -> exists i, 0 <= i < count /\ rank count key id = dist key (hashVNode id i).
Proof.
  intros Hc. destruct (running_min_in (2 ^ 64) ((fun i => dist key (hashVNode id i)) <$> seqZ 0 count))
    as [H|H].
  - pose proof (rank_le count key id 0 ltac:(lia)) as Hl. unfold rank in Hl. rewrite H in Hl.
    pose proof (dist_range key (hashVNode id 0)). lia.
  - apply list_elem_of_fmap in H as (i & E & Hi%elem_of_seqZ). exists i. split; [lia|done].
Qed.

(** The primary of a key is the nearest member of the ring. *)
Lemma primary_nearest r key p id :
  ring_wf r -> head (preference r key) = Some p -> id ∈ dom (nodes r) ->
  rank (nodeVnodes r) key p <= rank (nodeVnodes r) key id.
Proof.
  intros Hwf Hp Hid. rewrite head_clockwise_preference in Hp.
  destruct (head (clockwise (hashKey key) (vnodes r))) as [v|] eqn:Hv; simplify_eq/=.
  pose proof (rw_count r Hwf) as Hc.
  assert (forall v, v ∈ vnodes r <->
    exists id, id ∈ dom (nodes r) /\ v ∈ node_vnodes (nodeVnodes r) id) as Hin.
  { intros u. rewrite (rw_perm r Hwf). unfold ring_vnodes. rewrite list_elem_of_bind.
    setoid_rewrite elem_of_elements. naive_solver. }
  assert (v ∈ vnodes r) as Hvr.
  { apply (elem_of_clockwise (hashKey key)). by apply head_Some_elem_of in Hv. }
  pose proof (proj1 (Hin v) Hvr) as (p & _ & Hvp).
  apply elem_of_node_vnodes in Hvp as (i & Hi & ->). simpl in *.
  destruct (rank_attained (nodeVnodes r) key id Hc) as (j & Hj & ->).
  etrans; [by apply (rank_le _ _ _ i)|].
  apply (head_clockwise_min key (vnodes r) _ (rw_sorted r Hwf)) with (w := mkVNode (hashVNode id j) id j) in Hv.
  - done.
  - apply Forall_forall. intros u (id' & _ & (k & _ & ->)%elem_of_node_vnodes)%Hin.
    apply hashVNode_range.
  - apply Hin. exists id. split; [done|]. apply elem_of_node_vnodes. by exists j.
Qed.

(** No two of these nodes have a virtual node at the same point. *)
Definition no_collision (count : Z) (U : gset string) : Prop :=
  forall id id' i j, id ∈ U -> id' ∈ U -> id <> id' -> 0 <= i < count -> 0 <= j < count ->
    hashVNode id i <> hashVNode id' j.

Lemma rank_inj count U key id id' :
  no_collision count U -> 1 <= count -> id ∈ U -> id' ∈ U -> id <> id' ->
  rank count key id <> rank count key id'.
Proof.
  intros Hnc Hc H1 H2 Hne E.
  destruct (rank_attained count key id Hc) as (i & Hi & Ei).
  destruct (rank_attained count key id' Hc) as (j & Hj & Ej).
  apply (Hnc id id' i j H1 H2 Hne Hi Hj). apply (dist_inj key); [apply hashVNode_range..|congruence].
Qed.

(** ** Servers *)

(** A server of the cluster: its ring is some well-formed view that contains
    the node itself, and whose members are among [U]. *)
Record server_ok (count : Z) (U : gset string) (id : string) (cs : CacheServer) : Prop := {
  so_id : cs_nodeID cs = id;
  so_rep : rm_selfID (cs_rep cs) = id;
  so_ring : ring_wf (cs_ring cs);
  so_rm : rm_wf (cs_rep cs);
  so_count : nodeVnodes (cs_ring cs) = count;
  so_self : id ∈ dom (nodes (cs_ring cs));
  so_known : dom (nodes (cs_ring cs)) ⊆ U;
  so_store : store_wf (cs_store cs)
}.

Definition cluster_ok (count : Z) (U : gset string) (c : cluster) : Prop :=
  forall id cs, c !! id = Some cs -> server_ok count U id cs.

Lemma cluster_ok_insert count U id cs c :
  cluster_ok count U c -> server_ok count U id cs -> cluster_ok count U (<[id := cs]> c).
Proof.
  intros Hc Hs id' cs'. rewrite lookup_insert_Some. intros [[<- <-]|[_ H]]; [done|by apply Hc].
Qed.

Lemma cluster_ok_alter count U f id c :
  (forall cs, server_ok count U id cs -> server_ok count U id (f cs)) ->
  cluster_ok count U c -> cluster_ok count U (alter f id c).
Proof.
  intros Hf Hc id' cs'. rewrite lookup_alter_Some. intros [(<- & cs & H & ->)|[_ H]]; [|by apply Hc].
  by apply Hf, Hc.
Qed.

Lemma nodes_add_load d id r : nodes (add_load d id r) = nodes r.
Proof. unfold add_load. by case_match. Qed.

Lemma count_add_load d id r : nodeVnodes (add_load d id r) = nodeVnodes r.
Proof. unfold add_load. by case_match. Qed.

Lemma preference_add_load d id r key : preference (add_load d id r) key = preference r key.
Proof. unfold preference, add_load. by case_match. Qed.

Section server.
Context (count : Z) (U : gset string) (id : string).
Implicit Types (cs : CacheServer) (key : string).

Lemma set_store_ok s cs : store_wf s -> server_ok count U id cs -> server_ok count U id (set_store s cs).
Proof. intros Hs []. by constructor. Qed.

Lemma set_mit_ok m cs : server_ok count U id cs -> server_ok count U id (set_mit m cs).
Proof. intros []. by constructor. Qed.

Lemma set_rep_ok rm cs :
  rm_selfID rm = rm_selfID (cs_rep cs) -> replicaCount rm = replicaCount (cs_rep cs) ->
  server_ok count U id cs -> server_ok count U id (set_rep rm cs).
Proof. intros E1 E2 []. constructor; try done; simpl; [congruence|]. unfold rm_wf in *. congruence. Qed.

Lemma add_load_ok d cs :
  server_ok count U id cs ->
  server_ok count U id (set_ring (add_load d (cs_nodeID cs) (cs_ring cs)) cs).
Proof.
  intros []. constructor; simpl; rewrite ?nodes_add_load, ?count_add_load; try done.
  by apply add_load_wf.
Qed.

Lemma load_inc_ok cs : server_ok count U id cs -> server_ok count U id (load_inc cs).
Proof. intros H. unfold load_inc. case_match; [by apply add_load_ok|done]. Qed.

Lemma load_dec_ok cs : server_ok count U id cs -> server_ok count U id (load_dec cs).
Proof. intros H. unfold load_dec. case_match; [by apply add_load_ok|done]. Qed.

Lemma preference_nonempty cs key : server_ok count U id cs -> preference (cs_ring cs) key <> [].
Proof.
  intros Hs E. pose proof (so_self _ _ _ _ Hs) as H.
  apply (elem_of_preference _ key) in H; [|apply (so_ring _ _ _ _ Hs)].
  rewrite E in H. by apply elem_of_nil in H.
Qed.

Lemma replicate_to_ok l req rm :
  rm_selfID (replicate_to l req rm) = rm_selfID rm /\
  replicaCount (replicate_to l req rm) = replicaCount rm.
Proof. by destruct l. Qed.

Lemma if_primary_ok key f cs :
  (forall rm, rm_selfID rm = rm_selfID (cs_rep cs) -> rm_wf rm ->
     exists rm', f rm = Some rm' /\ rm_selfID rm' = rm_selfID rm /\ replicaCount rm' = replicaCount rm) ->
  server_ok count U id cs ->
  exists cs', if_primary key f cs = Some cs' /\ server_ok count U id cs' /\ cs_store cs' = cs_store cs.
Proof.
  intros Hf Hs. unfold if_primary. case_match; [by exists cs|].
  rewrite IsPrimary_spec by apply (so_ring _ _ _ _ Hs). simpl.
  case_match; [|by exists cs].
  destruct (Hf (cs_rep cs) eq_refl (so_rm _ _ _ _ Hs)) as (rm' & -> & E1 & E2). simpl.
  eexists. split_and!; [done|by apply set_rep_ok|done].
Qed.

Lemma Replicate_total r rm key l :
  getSecondaries r rm key = Some l -> forall req,
  exists rm', (replicas ← getSecondaries r rm key; Some (replicate_to replicas req rm)) = Some rm' /\
    rm_selfID rm' = rm_selfID rm /\ replicaCount rm' = replicaCount rm.
Proof. intros -> req. eexists. split; [done|]. apply replicate_to_ok. Qed.

Lemma CheckAndMitigate_wf clk key m s :
  store_wf s -> store_wf (CheckAndMitigate clk key m s).2.
Proof.
  intros Hs. unfold CheckAndMitigate. destruct (RecordAccess key (detector m)) as [[] d]; [|done].
  simpl. case_match; [done|]. simpl. unfold applySplitting. simpl.
  pose proof (exec_wf (mkCall (clk 0%nat) (clk 1%nat) (CmdGet key)) s Hs) as Hg.
  unfold exec in Hg. simpl in Hg. destruct (Get (clk 0%nat) (clk 1%nat) s key) as [[v|] s']; [|done].
  by apply write_shards_spec.
Qed.

Lemma WriteToShards_wf clk m key v ttl s : store_wf s -> store_wf (WriteToShards clk m key v ttl s).
Proof.
  intros Hs. unfold WriteToShards.
  destruct (Set_contents (clk 0%nat) (clk 1%nat) s key v ttl Hs) as [H _].
  case_match; [done|]. by apply write_shards_spec.
Qed.

Lemma local_get_ok clk key cs :
  server_ok count U id cs -> server_ok count U id (local_get clk key cs).2.
Proof.
  intros Hs. unfold local_get.
  pose proof (exec_wf (mkCall (clk 0%nat) (clk 1%nat) (CmdGet key)) _ (so_store _ _ _ _ Hs)) as H.
  unfold exec in H. simpl in H.
  destruct (Get (clk 0%nat) (clk 1%nat) (cs_store cs) key) as [[v|] s]; simpl in H;
    [|by apply set_store_ok].
  case_match; [|by apply set_store_ok]. simpl.
  pose proof (CheckAndMitigate_wf (fun n => clk (S (S n))) key (cs_mit cs) s H) as Hw.
  destruct (CheckAndMitigate _ key (cs_mit cs) s) as [[b m] s']. simpl in *.
  apply set_mit_ok, set_store_ok; [done|]. by apply set_store_ok.
Qed.

Lemma ReplicateWrite_total cs key v ttl rm :
  server_ok count U id cs -> rm_wf rm -> exists rm', ReplicateWrite (cs_ring cs) key v ttl rm = Some rm' /\
    rm_selfID rm' = rm_selfID rm /\ replicaCount rm' = replicaCount rm.
Proof.
  intros Hs Hrm. destruct (ReplicateWrite_spec (cs_ring cs) rm key v ttl) as (rm' & H1 & H2 & H3 & _);
    [apply (so_ring _ _ _ _ Hs)|done|by apply preference_nonempty|]. by exists rm'.
Qed.

(** Every local handler returns, and keeps the server sound. *)
Lemma local_ok clk q cs :
  server_ok count U id cs ->
  exists resp cs', local clk q cs = Some (resp, cs') /\ server_ok count U id cs'.
Proof.
  intros Hs. pose proof (so_store _ _ _ _ Hs) as Hst. destruct q as [key|key v ttl|key|key ttl]; simpl.
  - pose proof (local_get_ok clk key cs Hs) as H. destruct (local_get clk key cs) as [r cs'].
    by eexists _, _.
  - unfold local_set.
    match goal with |- context [set_store ?s cs] => assert (store_wf s) as Hs' end.
    { case_match; [by apply WriteToShards_wf|by apply Set_contents]. }
    edestruct (if_primary_ok key (ReplicateWrite (cs_ring cs) key v ttl)) as (cs' & -> & Hok & _);
      [|by apply set_store_ok; [exact Hs'|exact Hs]|by eexists _, _].
    intros rm _ Hrm. by apply ReplicateWrite_total.
  - unfold local_delete.
    pose proof (exec_wf (mkCall (clk 0%nat) (clk 1%nat) (CmdDelete key)) _ Hst) as H.
    unfold exec in H. simpl in H. destruct (Delete (cs_store cs) key) as [b s]. simpl in H.
    edestruct (if_primary_ok key (ReplicateDelete (cs_ring cs) key)) as (cs' & -> & H' & _);
      [|by apply set_store_ok; [exact H|exact Hs]|by eexists _, _].
    intros rm _ Hrm. unfold ReplicateDelete.
    eapply (Replicate_total _ _ _ _ (getSecondaries_spec _ _ _ (so_ring _ _ _ _ Hs) Hrm
      (preference_nonempty cs key Hs))).
  - unfold local_expire.
    pose proof (exec_wf (mkCall (clk 0%nat) (clk 1%nat) (CmdExpire key (req_ttl ttl))) _ Hst) as H.
    unfold exec in H. simpl in H.
    destruct (Expire (clk 0%nat) (clk 1%nat) (cs_store cs) key (req_ttl ttl)) as [b s]. simpl in H.
    pose proof (set_store_ok s cs H Hs) as Hs1.
    case_match; [by eexists _, _|]. rewrite IsPrimary_spec by apply (so_ring _ _ _ _ Hs1). simpl.
    case_match; [by eexists _, _|].
    pose proof (exec_wf (mkCall (clk 2%nat) (clk 3%nat) (CmdGet key)) s H) as H2.
    unfold exec in H2. simpl in H2.
    destruct (Get (clk 2%nat) (clk 3%nat) s key) as [[v|] s2]; simpl in *.
    + destruct (ReplicateWrite_total (set_store s cs) key v ttl (cs_rep cs) Hs1 (so_rm _ _ _ _ Hs))
        as (rm' & Hr & E1 & E2). simpl in Hr. rewrite Hr. simpl. eexists _, _. split; [done|].
      apply set_rep_ok; [done|done|]. by apply set_store_ok.
    + eexists _, _. split; [done|]. by apply set_store_ok.
Qed.

(** A request that a node forwards goes to a strictly nearer node. *)
Lemma route_ok q cs :
  server_ok count U id cs -> no_collision count U ->
  exists p, route q cs = Some p /\
    forall p', p = Some p' -> p' ∈ U /\ rank count (req_key q) p' < rank count (req_key q) id.
Proof.
  intros Hs Hnc. pose proof (so_ring _ _ _ _ Hs) as Hr. unfold route.
  case_match; [by eexists|].
  assert (exists b, serves q cs = Some b) as [b Hb].
  { destruct q; simpl; [rewrite IsReplica_spec by (done || apply (so_rm _ _ _ _ Hs))|
      rewrite IsPrimary_spec by done..]; by eexists. }
  rewrite Hb. simpl. case_match; [by eexists|].
  rewrite GetPrimary_spec by done. simpl. eexists. split; [done|]. intros p' Hp'.
  destruct (head (preference (cs_ring cs) (req_key q))) as [primary|] eqn:Ep; [|done].
  destruct (String.eqb_spec primary (cs_nodeID cs)) as [|Hne]; [done|].
  destruct (GetPeerConn (cs_rep cs) primary); [|done]. simplify_eq.
  assert (p' ∈ dom (nodes (cs_ring cs))) as Hin.
  { apply (elem_of_preference _ (req_key q)); [done|]. by apply head_Some_elem_of in Ep. }
  pose proof (so_known _ _ _ _ Hs) as Hk. pose proof (so_self _ _ _ _ Hs) as Hself.
  pose proof (primary_nearest _ _ _ _ Hr Ep Hself) as Hle. rewrite (so_count _ _ _ _ Hs) in Hle.
  split; [by apply Hk|]. rewrite (so_id _ _ _ _ Hs) in Hne.
  assert (1 <= count) as Hc by (rewrite <- (so_count _ _ _ _ Hs); apply (rw_count _ Hr)).
  pose proof (rank_inj count U (req_key q) p' id Hnc Hc (Hk _ Hin) (Hk _ Hself) Hne). lia.
Qed.
End server.

(** ** Forwarding *)

(** The nodes of [U] nearer to the key than [id]. *)
Definition nearer (count : Z) (U : gset string) (key id : string) : gset string :=
  filter (fun x => rank count key x < rank count key id) U.

Lemma nearer_decreases count U key id id' :
  id' ∈ U -> rank count key id' < rank count key id ->
  (size (nearer count U key id') < size (nearer count U key id))%nat.
Proof.
  intros Hin Hlt. apply subset_size. unfold nearer. split.
  - intros x. rewrite !elem_of_filter. intros [? ?]. split; [lia|done].
  - intros H. specialize (H id'). rewrite !elem_of_filter in H.
    destruct H as [H _]; [done|]. lia.
Qed.

Section forwarding.
Context (net : string -> string -> bool) (cancelled : string -> bool) (clk : string -> nat -> Time).

Lemma handle_ok count U fuel id q c :
  cluster_ok count U c -> no_collision count U ->
  (size (nearer count U (req_key q) id) < fuel)%nat ->
  exists r c', handle net cancelled clk fuel id q c = Answered r c' /\ cluster_ok count U c'.
Proof.
  intros Hc Hnc. revert id c Hc. induction fuel as [|fuel IH]; intros id c Hc Hf; [lia|]. simpl.
  destruct (c !! id) as [cs|] eqn:Hcs; [|by eexists _, _].
  destruct (gate (cancelled id) cs); [by eexists _, _|]. unfold respond.
  pose proof (load_inc_ok count U id cs (Hc id cs Hcs)) as Hs.
  pose proof (cluster_ok_insert count U id _ c Hc Hs) as Hc1.
  destruct (route_ok count U id q (load_inc cs) Hs Hnc) as (p & -> & Hp).
  assert (forall (r : rpc_error + response) c', cluster_ok count U c' -> exists r' c'',
    Answered r (alter load_dec id c') = Answered r' c'' /\ cluster_ok count U c'') as Hend.
  { intros r c' Hc'. eexists _, _. split; [done|]. apply cluster_ok_alter; [|done].
    intros cs'. apply load_dec_ok. }
  destruct p as [p|].
  - destruct (Hp p eq_refl) as [HpU Hrank]. destruct (net id p); [|by apply Hend].
    destruct (IH p _ Hc1) as (r & c' & -> & Hc').
    { pose proof (nearer_decreases count U (req_key q) id p HpU Hrank). lia. }
    by apply Hend.
  - destruct (local_ok count U id (clk id) q (load_inc cs) Hs) as (resp & cs' & -> & Hs').
    apply Hend. by apply cluster_ok_insert.
Qed.

(** A request served where it arrives. *)
Lemma handle_local fuel id q c cs resp cs' :
  c !! id = Some cs -> gate (cancelled id) cs = None -> route q (load_inc cs) = Some None ->
  local (clk id) q (load_inc cs) = Some (resp, cs') ->
  handle net cancelled clk (S fuel) id q c = Answered (inr resp) (<[id := load_dec cs']> c).
Proof.
  intros Hc Hg Hr Hl. simpl. unfold respond. rewrite Hc, Hg, Hr, Hl. f_equal.
  by rewrite insert_insert_eq, alter_insert_eq.
Qed.

(** A request forwarded once. *)
Lemma handle_forwarded fuel id p q c cs r c' :
  c !! id = Some cs -> gate (cancelled id) cs = None -> route q (load_inc cs) = Some (Some p) ->
  net id p = true -> handle net cancelled clk fuel p q (<[id := load_inc cs]> c) = Answered r c' ->
  handle net cancelled clk (S fuel) id q c = Answered r (alter load_dec id c').
Proof. intros Hc Hg Hr Hn Hh. simpl. unfold respond. by rewrite Hc, Hg, Hr, Hn, Hh. Qed.
End forwarding.

(** ** Views

    What a handler never changes of a server. *)
Definition same_view (cs cs' : CacheServer) : Prop :=
  cs_nodeID cs' = cs_nodeID cs /\ cs_fault cs' = cs_fault cs /\ hasRing cs' = hasRing cs /\
  hasRep cs' = hasRep cs /\ hasFault cs' = hasFault cs /\ hasMit cs' = hasMit cs /\
  rm_selfID (cs_rep cs') = rm_selfID (cs_rep cs) /\
  replicaCount (cs_rep cs') = replicaCount (cs_rep cs) /\
  peerConns (cs_rep cs') = peerConns (cs_rep cs) /\
  eventsClosed (cs_rep cs') = eventsClosed (cs_rep cs) /\
  vnodes (cs_ring cs') = vnodes (cs_ring cs).

#[global] Instance same_view_refl : Reflexive same_view.
Proof. unfold same_view. by intros cs. Qed.

#[global] Instance same_view_trans : Transitive same_view.
Proof. unfold same_view. intros c1 c2 c3; intros; destruct_and!. split_and!; congruence. Qed.

Lemma vnodes_add_load d id r : vnodes (add_load d id r) = vnodes r.
Proof. unfold add_load. by case_match. Qed.

Lemma load_inc_view cs : same_view cs (load_inc cs).
Proof.
  unfold load_inc, IncrementLoad. case_match; [|done]. unfold same_view. simpl.
  by rewrite vnodes_add_load.
Qed.

Lemma load_dec_view cs : same_view cs (load_dec cs).
Proof.
  unfold load_dec, DecrementLoad. case_match; [|done]. unfold same_view. simpl.
  by rewrite vnodes_add_load.
Qed.

Lemma replicate_to_view l req rm :
  rm_selfID (replicate_to l req rm) = rm_selfID rm /\
  replicaCount (replicate_to l req rm) = replicaCount rm /\
  peerConns (replicate_to l req rm) = peerConns rm /\
  eventsClosed (replicate_to l req rm) = eventsClosed rm.
Proof. by destruct l. Qed.

Lemma set_store_view s cs : same_view cs (set_store s cs).
Proof. by unfold same_view. Qed.

Lemma if_primary_view key f cs cs' :
  (forall rm', f (cs_rep cs) = Some rm' ->
     rm_selfID rm' = rm_selfID (cs_rep cs) /\ replicaCount rm' = replicaCount (cs_rep cs) /\
     peerConns rm' = peerConns (cs_rep cs) /\ eventsClosed rm' = eventsClosed (cs_rep cs)) ->
  if_primary key f cs = Some cs' -> same_view cs cs' /\ cs_store cs' = cs_store cs.
Proof.
  intros Hf H. unfold if_primary in H. destruct (negb (hasRep cs)); [by simplify_eq|].
  destruct (IsPrimary (cs_ring cs) (cs_rep cs) key) as [[]|]; simplify_eq/=; [|done].
  destruct (f (cs_rep cs)) as [rm'|] eqn:E; simplify_eq/=.
  destruct (Hf rm' eq_refl) as (E1 & E2 & E3 & E4). split; [|done]. unfold same_view. simpl.
  by rewrite E1, E2, E3, E4.
Qed.

Lemma local_set_view clk key v ttl cs cs' :
  local_set clk key v ttl cs = Some cs' -> same_view cs cs'.
Proof.
  unfold local_set. intros H. eapply if_primary_view in H as [H _].
  - etrans; [apply set_store_view|exact H].
  - intros rm' Hrm. unfold ReplicateWrite in Hrm. simpl in Hrm.
    destruct (getSecondaries _ _ _) as [l|]; simplify_eq/=. apply replicate_to_view.
Qed.

(** ** Healthy clusters

    A server that agrees with the others on where [key] lives, is connected to
    them and lets requests through. *)
Section healthy.
Context (count : Z) (U : gset string) (cancelled : string -> bool).
Context (key : string) (pref : list string) (rc : Z).

Record healthy (id : string) (cs : CacheServer) : Prop := {
  he_ok : server_ok count U id cs;
  he_pref : preference (cs_ring cs) key = pref;
  he_rc : replicaCount (cs_rep cs) = rc;
  he_gate : gate (cancelled id) cs = None;
  he_rep : hasRep cs = true;
  he_conn : forall n, n ∈ pref -> n <> id -> is_Some (peerConns (cs_rep cs) !! n);
  he_open : eventsClosed (cs_rep cs) = false
}.

Definition all_healthy (c : cluster) : Prop := forall id cs, c !! id = Some cs -> healthy id cs.

Lemma healthy_view id cs cs' :
  same_view cs cs' -> server_ok count U id cs' -> healthy id cs -> healthy id cs'.
Proof.
  intros (V1 & V2 & V3 & V4 & V5 & V6 & V7 & V8 & V9 & V10 & V11) Hok [].
  constructor; try congruence.
  - unfold preference in *. by rewrite V11.
  - unfold gate in *. by rewrite V2, V5.
  - intros n. rewrite V9. apply he_conn0.
Qed.

Lemma healthy_load_inc id cs : healthy id cs -> healthy id (load_inc cs).
Proof. intros H. eapply healthy_view; [apply load_inc_view|apply load_inc_ok, H|done]. Qed.

Lemma healthy_load_dec id cs : healthy id cs -> healthy id (load_dec cs).
Proof. intros H. eapply healthy_view; [apply load_dec_view|apply load_dec_ok, H|done]. Qed.

Lemma all_healthy_insert id cs c : all_healthy c -> healthy id cs -> all_healthy (<[id := cs]> c).
Proof. intros Hc Hs id' cs'. rewrite lookup_insert_Some. intros [[<- <-]|[_ H]]; auto. Qed.

Lemma all_healthy_alter f id c :
  (forall cs, healthy id cs -> healthy id (f cs)) -> all_healthy c -> all_healthy (alter f id c).
Proof.
  intros Hf Hc id' cs'. rewrite lookup_alter_Some. intros [(<- & cs & H & ->)|[_ H]]; auto.
Qed.

Context (p : string) (Hp : head pref = Some p).

Lemma primary_in_pref : p ∈ pref.
Proof. by apply head_Some_elem_of. Qed.

(** Where a healthy node sends a request it does not serve. *)
Lemma route_elsewhere q id cs :
  healthy id cs -> req_key q = key -> serves q cs = Some false -> id <> p ->
  route q cs = Some (Some p).
Proof.
  intros H Hq Hs Hne. unfold route. rewrite (he_rep _ _ H), Hs. simpl.
  rewrite GetPrimary_spec by apply (so_ring _ _ _ _ (he_ok _ _ H)). rewrite Hq, (he_pref _ _ H), Hp.
  simpl. rewrite (so_id _ _ _ _ (he_ok _ _ H)).
  destruct (String.eqb_spec p id) as [->|_]; [done|]. unfold GetPeerConn.
  destruct (he_conn _ _ H p primary_in_pref ltac:(congruence)) as [a ->]. done.
Qed.

Lemma route_here q id cs :
  healthy id cs -> serves q cs = Some true -> route q cs = Some None.
Proof. intros H Hs. unfold route. by rewrite (he_rep _ _ H), Hs. Qed.

Lemma serves_get id cs :
  healthy id cs -> serves (GetRequest key) cs = Some (bool_decide (id ∈ take (Z.to_nat rc) pref)).
Proof.
  intros H. simpl. pose proof (he_ok _ _ H) as Hok.
  rewrite IsReplica_spec by apply Hok. unfold replicas.
  by rewrite (he_pref _ _ H), (he_rc _ _ H), (so_rep _ _ _ _ Hok).
Qed.

Lemma serves_set v ttl id cs :
  healthy id cs -> serves (SetRequest key v ttl) cs = Some (bool_decide (id = p)).
Proof.
  intros H. simpl. pose proof (he_ok _ _ H) as Hok.
  rewrite IsPrimary_spec by apply Hok. rewrite (he_pref _ _ H), Hp, (so_rep _ _ _ _ Hok).
  f_equal. apply bool_decide_ext. naive_solver.
Qed.

(** The requests a write at the primary starts. *)
Definition requests (v : bytes) (ttl seq : Z) : list (string * ReplicateRequest) :=
  (fun n => (n, mkReplicate key v ttl seq p OpSet)) <$>
    filter (fun n => n <> p) (take (Z.to_nat rc) pref).

(** The mitigator is left alone. *)
Definition same_detection (cs cs' : CacheServer) : Prop :=
  hasMit cs' = hasMit cs /\ cs_mit cs' = cs_mit cs.

Definition written (clk : nat -> Time) (v : bytes) (ttlMs : Z) : Entry :=
  mkEntry v (deadline (clk 1%nat) (req_ttl ttlMs)) (clk 0%nat).

Lemma local_set_spec clk v ttl cs :
  healthy p cs ->
  exists cs' seq, local_set clk key v ttl cs = Some cs' /\ healthy p cs' /\
    contents (cs_store cs') !! key = Some (written clk v ttl) /\
    outbox (cs_rep cs') = outbox (cs_rep cs) ++ requests v ttl seq /\ same_detection cs cs'.
Proof.
  intros H. pose proof (he_ok _ _ H) as Hok. pose proof (so_store _ _ _ _ Hok) as Hst.
  destruct (local_ok count U p clk (SetRequest key v ttl) cs Hok) as (resp & cs' & Hl & Hok').
  simpl in Hl. destruct (local_set clk key v ttl cs) as [cs1|] eqn:Hls; simplify_eq/=.
  exists cs', (u64 (sequence (cs_rep cs) + 1)). split; [done|]. split.
  { eapply healthy_view; [by eapply local_set_view|done|done]. }
  unfold local_set in Hls.
  match type of Hls with context [set_store ?s cs] => set (s0 := s) in Hls end.
  assert (contents s0 !! key = Some (written clk v ttl)) as Hk.
  { destruct (Set_contents (clk 0%nat) (clk 1%nat) (cs_store cs) key v (req_ttl ttl) Hst) as [Hw Hc].
    subst s0. destruct (hasMit cs && IsMitigated (cs_mit cs) key);
      [unfold WriteToShards; destruct (negb (is_split (cs_mit cs) key))|].
    - rewrite Hc. apply lookup_insert_eq.
    - destruct (write_shards_spec clk 2 (shardCount (cs_mit cs)) key v (req_ttl ttl) _ Hw)
        as (_ & _ & Hout).
      rewrite Hout by (intros i _; symmetry; apply ShardKeyName_ne). rewrite Hc. apply lookup_insert_eq.
    - rewrite Hc. apply lookup_insert_eq. }
  clearbody s0. unfold if_primary in Hls. simpl in Hls.
  rewrite (he_rep _ _ H) in Hls. simpl in Hls.
  rewrite IsPrimary_spec in Hls by apply Hok. rewrite (he_pref _ _ H), Hp, (so_rep _ _ _ _ Hok) in Hls.
  rewrite bool_decide_true in Hls by done. simpl in Hls.
  destruct (ReplicateWrite_spec (cs_ring cs) (cs_rep cs) key v ttl) as (rm' & Hr & _ & _ & _ & _ & _ & Ho);
    [apply Hok|apply Hok|by eapply preference_nonempty|].
  rewrite Hr in Hls. simplify_eq/=. split; [done|]. split; [|done]. rewrite Ho.
  unfold requests, replicas. by rewrite (he_pref _ _ H), (he_rc _ _ H), (so_rep _ _ _ _ Hok).
Qed.

Context (net : string -> string -> bool) (Hnet : forall a b, net a b = true).
Context (clk : string -> nat -> Time).

Lemma load_store cs : cs_store (load_inc cs) = cs_store cs /\ cs_store (load_dec cs) = cs_store cs.
Proof. unfold load_inc, load_dec. by case_match. Qed.

Lemma load_mit cs : same_detection cs (load_inc cs) /\ same_detection cs (load_dec cs).
Proof. unfold same_detection, load_inc, load_dec. by case_match. Qed.

Lemma load_rep cs : cs_rep (load_inc cs) = cs_rep cs /\ cs_rep (load_dec cs) = cs_rep cs.
Proof. unfold load_inc, load_dec. by case_match. Qed.

(** A write at any node is done at the primary. *)
Lemma handle_set fuel v ttl a c csp :
  all_healthy c -> is_Some (c !! a) -> c !! p = Some csp ->
  exists c1 csp1 seq,
    handle net cancelled clk (S (S fuel)) a (SetRequest key v ttl) c = Answered (inr (RSet true)) c1 /\
    all_healthy c1 /\ dom c1 = dom c /\ c1 !! p = Some csp1 /\
    contents (cs_store csp1) !! key = Some (written (clk p) v ttl) /\
    outbox (cs_rep csp1) = outbox (cs_rep csp) ++ requests v ttl seq /\ same_detection csp csp1.
Proof.
  intros Hc [csa Ha] Hcp. pose proof (Hc p csp Hcp) as Hhp. pose proof (Hc a csa Ha) as Hha.
  destruct (local_set_spec (clk p) v ttl (load_inc csp) (healthy_load_inc _ _ Hhp))
    as (cs' & seq & Hl & Hh' & Hk & Ho & Hd).
  destruct (load_rep csp) as [E1 _], (load_store cs') as [_ E2], (load_rep cs') as [_ E3].
  assert (same_detection csp (load_dec cs')) as Hd'.
  { destruct (load_mit csp) as [[] _], (load_mit cs') as [_ []], Hd. split; congruence. }
  assert (local (clk p) (SetRequest key v ttl) (load_inc csp) = Some (RSet true, cs')) as Hl'
    by (simpl; by rewrite Hl).
  assert (route (SetRequest key v ttl) (load_inc csp) = Some None) as Hr.
  { apply (route_here _ p); [by apply healthy_load_inc|].
    rewrite (serves_set v ttl p) by by apply healthy_load_inc. by rewrite bool_decide_true. }
  destruct (decide (a = p)) as [->|Hne].
  - exists (<[p := load_dec cs']> c), (load_dec cs'), seq. rewrite E2, E3, <- E1.
    split_and!; try done.
    + by apply (handle_local net cancelled clk (S fuel) p _ c csp); [|apply Hhp|..].
    + by apply all_healthy_insert, healthy_load_dec.
    + apply dom_insert_lookup_L. by eexists.
    + apply lookup_insert_eq.
  - exists (alter load_dec a (<[p := load_dec cs']> (<[a := load_inc csa]> c))), (load_dec cs'), seq.
    rewrite E2, E3, <- E1. split_and!; try done.
    + apply (handle_forwarded net cancelled clk (S fuel) a p _ c csa); [done|apply Hha| |apply Hnet|].
      * apply (route_elsewhere _ a); [by apply healthy_load_inc|done| |done].
        rewrite (serves_set v ttl a) by by apply healthy_load_inc. by rewrite bool_decide_false.
      * apply (handle_local net cancelled clk fuel p _ _ csp); [|apply Hhp|done|done].
        by rewrite lookup_insert_ne.
    + apply all_healthy_alter; [intros ?; apply healthy_load_dec|].
      apply all_healthy_insert; [|by apply healthy_load_dec].
      apply all_healthy_insert; [done|]. by apply healthy_load_inc.
    + rewrite dom_alter_L, dom_insert_lookup_L by (rewrite lookup_insert_ne by done; by eexists).
      apply dom_insert_lookup_L. by eexists.
    + rewrite lookup_alter_ne by done. apply lookup_insert_eq.
Qed.

(** What the detector says to a read, and the detector after it. *)
Definition detection (cs : CacheServer) : bool * Detector :=
  if hasMit cs then RecordAccess key (detector (cs_mit cs)) else (false, detector (cs_mit cs)).

Lemma detection_same cs cs' : same_detection cs cs' -> detection cs' = detection cs.
Proof. unfold detection. by intros [-> ->]. Qed.

Lemma CheckAndMitigate_detection clk' m s :
  ((CheckAndMitigate clk' key m s).1.1, detector (CheckAndMitigate clk' key m s).1.2)
  = RecordAccess key (detector m).
Proof.
  unfold CheckAndMitigate. destruct (RecordAccess key (detector m)) as [[] d]; [|done].
  simpl. by case_match.
Qed.

(** Mitigation leaves a live key itself alone. *)
Lemma CheckAndMitigate_key clk' m s e :
  store_wf s -> contents s !! key = Some e -> IsExpired (clk' 0%nat) e = false ->
  contents (CheckAndMitigate clk' key m s).2 !! key = Some e.
Proof.
  intros Hs He Hx. unfold CheckAndMitigate.
  destruct (RecordAccess key (detector m)) as [[] d]; [|done]. simpl. case_match; [done|]. simpl.
  unfold applySplitting. simpl. rewrite (Get_live _ _ _ _ e Hs He Hx).
  destruct (write_shards_spec clk' 2 (shardCount m) key (Value e) 0 (with_stats incHits s))
    as (_ & _ & Hout); [by apply wf_with_stats|].
  rewrite Hout by (intros i _; symmetry; apply ShardKeyName_ne). by rewrite contents_with_stats.
Qed.

Lemma local_get_live clk' id cs e :
  healthy id cs -> contents (cs_store cs) !! key = Some e -> IsExpired (clk' 0%nat) e = false ->
  exists hot cs', local clk' (GetRequest key) cs = Some (RGet (mkGetResponse key (Value e) true 0 hot), cs') /\
    healthy id cs' /\
    (IsExpired (clk' 2%nat) e = false -> contents (cs_store cs') !! key = Some e) /\
    hasMit cs' = hasMit cs /\ (hot, detector (cs_mit cs')) = detection cs.
Proof.
  intros H Hk Hx. pose proof (so_store _ _ _ _ (he_ok _ _ H)) as Hst.
  pose proof (local_get_ok count U id clk' key cs (he_ok _ _ H)) as Hok. simpl.
  unfold local_get, detection in *. rewrite (Get_live _ _ _ _ e Hst Hk Hx) in *. simpl in *.
  destruct (hasMit cs) eqn:Hm.
  - pose proof (CheckAndMitigate_key (fun n => clk' (2 + n)%nat) (cs_mit cs)
      (with_stats incHits (cs_store cs)) e (wf_with_stats _ _ Hst)) as Hc.
    rewrite contents_with_stats in Hc. specialize (Hc Hk).
    pose proof (CheckAndMitigate_detection (fun n => clk' (2 + n)%nat) (cs_mit cs)
      (with_stats incHits (cs_store cs))) as Hdet.
    destruct (CheckAndMitigate _ key (cs_mit cs) (with_stats incHits (cs_store cs))) as [[hot m] s].
    eexists _, _. split_and!; [done| |exact Hc|exact Hm|exact Hdet].
    by eapply healthy_view; [|exact Hok|exact H].
  - eexists _, _. split_and!; [done| | |exact Hm|done].
    + by eapply healthy_view; [|exact Hok|exact H].
    + intros _. simpl. by rewrite contents_with_stats.
Qed.

(** The node a read is served by. *)
Definition reader (b : string) : string :=
  if decide (b ∈ take (Z.to_nat rc) pref) then b else p.

(** A read is answered from the store of the reader. *)
Lemma handle_get fuel b c cs e :
  all_healthy c -> is_Some (c !! b) -> c !! reader b = Some cs ->
  contents (cs_store cs) !! key = Some e -> IsExpired (clk (reader b) 0%nat) e = false -> 1 <= rc ->
  exists hot c2 cs2, handle net cancelled clk (S (S fuel)) b (GetRequest key) c
    = Answered (inr (RGet (mkGetResponse key (Value e) true 0 hot))) c2 /\
    all_healthy c2 /\ dom c2 = dom c /\ c2 !! reader b = Some cs2 /\
    (IsExpired (clk (reader b) 2%nat) e = false -> contents (cs_store cs2) !! key = Some e) /\
    hasMit cs2 = hasMit cs /\ (hot, detector (cs_mit cs2)) = detection cs.
Proof.
  intros Hc [csb Hb] Hcs Hk Hx Hrc. unfold reader in *.
  assert (p ∈ take (Z.to_nat rc) pref) as Hpt.
  { destruct pref as [|x l] eqn:E; simplify_eq/=. destruct (Z.to_nat rc) eqn:En; [lia|]. left. }
  assert (forall s css, s ∈ take (Z.to_nat rc) pref ->
    healthy s css -> contents (cs_store css) !! key = Some e -> IsExpired (clk s 0%nat) e = false ->
    exists hot cs'', route (GetRequest key) (load_inc css) = Some None /\
      local (clk s) (GetRequest key) (load_inc css)
      = Some (RGet (mkGetResponse key (Value e) true 0 hot), cs'') /\ healthy s cs'' /\
      (IsExpired (clk s 2%nat) e = false -> contents (cs_store (load_dec cs'')) !! key = Some e) /\
      hasMit (load_dec cs'') = hasMit css /\
      (hot, detector (cs_mit (load_dec cs''))) = detection css) as Hserve.
  { intros s css Hs Hh Hks Hxs. destruct (load_store css) as [E _].
    destruct (local_get_live (clk s) s (load_inc css) e) as (hot & cs'' & Hl & Hh' & Hk' & Hm & Hdet);
      [by apply healthy_load_inc|by rewrite E|done|].
    rewrite (detection_same css) in Hdet by apply load_mit.
    destruct (load_store cs'') as [_ E']. rewrite <- E' in Hk'.
    destruct (load_mit css) as [[M1 _] _], (load_mit cs'') as [_ [M2 M3]].
    exists hot, cs''. rewrite M3. split_and!; [|done|done|done|congruence|done]. apply (route_here _ s); [by apply healthy_load_inc|].
    rewrite (serves_get s) by by apply healthy_load_inc. by rewrite bool_decide_true. }
  pose proof (Hc b csb Hb) as Hhb. case_decide as Hin.
  - rewrite Hb in Hcs. simplify_eq.
    destruct (Hserve b cs Hin Hhb Hk Hx) as (hot & cs'' & Hr & Hl & Hh' & Hk' & Hm & Hdet).
    exists hot, (<[b := load_dec cs'']> c), (load_dec cs''). split_and!; [| | | |done..].
    + by apply (handle_local net cancelled clk (S fuel) b _ c cs); [|apply Hhb|..].
    + by apply all_healthy_insert, healthy_load_dec.
    + apply dom_insert_lookup_L. by eexists.
    + apply lookup_insert_eq.
  - assert (b <> p) as Hne by congruence.
    destruct (Hserve p cs Hpt (Hc p cs Hcs) Hk Hx) as (hot & cs'' & Hr & Hl & Hh' & Hk' & Hm & Hdet).
    exists hot, (alter load_dec b (<[p := load_dec cs'']> (<[b := load_inc csb]> c))), (load_dec cs'').
    split_and!; [| | | |done..].
    + apply (handle_forwarded net cancelled clk (S fuel) b p _ c csb); [done|apply Hhb| |apply Hnet|].
      * apply (route_elsewhere _ b); [by apply healthy_load_inc|done| |done].
        rewrite (serves_get b) by by apply healthy_load_inc. by rewrite bool_decide_false.
      * apply (handle_local net cancelled clk fuel p _ _ cs); [|by apply (Hc p cs)|done|done].
        by rewrite lookup_insert_ne.
    + apply all_healthy_alter; [intros ?; apply healthy_load_dec|].
      apply all_healthy_insert; [|by apply healthy_load_dec].
      apply all_healthy_insert; [done|]. by apply healthy_load_inc.
    + rewrite dom_alter_L, dom_insert_lookup_L by (rewrite lookup_insert_ne by done; by eexists).
      apply dom_insert_lookup_L. by eexists.
    + rewrite lookup_alter_ne by done. apply lookup_insert_eq.
Qed.

(** ** Delivering the requests of a write *)

Lemma Replicate_set_spec id cs v ttl seq :
  healthy id cs ->
  let cs' := (Replicate (clk id) (mkReplicate key v ttl seq p OpSet) cs).2 in
  healthy id cs' /\ contents (cs_store cs') !! key = Some (written (clk id) v ttl).
Proof.
  intros H. simpl.
  destruct (Set_contents (clk id 0%nat) (clk id 1%nat) (cs_store cs) key v (req_ttl ttl)
    (so_store _ _ _ _ (he_ok _ _ H))) as [Hw Hc].
  split.
  - eapply healthy_view; [apply set_store_view|by apply set_store_ok, H|done].
  - rewrite Hc. apply lookup_insert_eq.
Qed.

Lemma deliver_one now n req rest c csp csn :
  all_healthy c -> c !! p = Some csp -> c !! n = Some csn -> n <> p -> n ∈ pref ->
  outbox (cs_rep csp) = (n, req) :: rest ->
  exists rm', deliver net cancelled clk now p 0 c
      = Some (<[p := set_rep rm' csp]> (<[n := (Replicate (clk n) req csn).2]> c)) /\
    outbox rm' = rest /\ same_view csp (set_rep rm' csp).
Proof.
  intros Hc Hcp Hcn Hne Hn Ho. pose proof (Hc p csp Hcp) as Hhp. pose proof (Hc n csn Hcn) as Hhn.
  unfold deliver. rewrite Hcp. simpl. rewrite Ho. simpl.
  unfold sendReplicate. simpl. destruct (he_conn _ _ Hhp n Hn Hne) as [addr ->].
  unfold invoke_replicate. rewrite Hcn, Hnet, (he_gate _ _ Hhn). simpl.
  unfold emitEvent. simpl. rewrite (he_open _ _ Hhp).
  match goal with |- context [if ?b then Some ?x else Some ?y] =>
    assert (exists rm', (if b then Some x else Some y) = Some rm' /\ outbox rm' = rest /\
      same_view csp (set_rep rm' csp)) as (rm' & -> & Ho' & Hv) end.
  { unfold same_view. case_match; eexists; (split; [reflexivity|]); simpl;
      by rewrite ?(he_open _ _ Hhp). }
  simpl. exists rm'. split_and!; [|done|done]. f_equal.
  apply map_eq. intros k. destruct (decide (k = p)) as [->|Hk].
  - by rewrite lookup_alter_eq, lookup_insert_eq, lookup_insert_ne, Hcp by done.
  - by rewrite lookup_alter_ne, (lookup_insert_ne _ p) by done.
Qed.

(** The goroutines of the primary, run one after the other. *)
Fixpoint deliver_all (now : Time) (k : nat) (c : cluster) : option cluster :=
  match k with
  | O => Some c
  | S k => c ← deliver net cancelled clk now p 0 c; deliver_all now k c
  end.

Lemma deliver_all_spec now v ttl seq ns c csp :
  all_healthy c -> c !! p = Some csp ->
  outbox (cs_rep csp) = (fun n => (n, mkReplicate key v ttl seq p OpSet)) <$> ns ->
  NoDup ns -> p ∉ ns -> (forall n, n ∈ ns -> n ∈ pref /\ is_Some (c !! n)) ->
  exists c', deliver_all now (length ns) c = Some c' /\ all_healthy c' /\ dom c' = dom c /\
    (forall n, n ∈ ns -> exists cs', c' !! n = Some cs' /\
       contents (cs_store cs') !! key = Some (written (clk n) v ttl)) /\
    (forall n, n ∉ ns -> cs_store <$> c' !! n = cs_store <$> c !! n).
Proof.
  revert c csp. induction ns as [|n ns IH]; intros c csp Hc Hcp Ho Hnd Hpn Hns.
  { exists c. split_and!; try done. by intros n []%elem_of_nil. }
  apply NoDup_cons in Hnd as [Hnn Hnd]. apply not_elem_of_cons in Hpn as [Hne Hpn].
  destruct (Hns n ltac:(left)) as [Hn [csn Hcn]]. rewrite fmap_cons in Ho.
  destruct (deliver_one now n _ _ c csp csn Hc Hcp Hcn ltac:(congruence) Hn Ho)
    as (rm' & Hd & Ho' & Hv).
  destruct (Replicate_set_spec n csn v ttl seq (Hc n csn Hcn)) as [Hhn Hkn].
  set (csn' := (Replicate _ _ csn).2) in *. set (c1 := <[p := _]> (<[n := csn']> c)) in Hd.
  assert (all_healthy c1) as Hc1.
  { subst c1. apply all_healthy_insert; [by apply all_healthy_insert|].
    eapply healthy_view; [exact Hv| |by apply Hc]. destruct Hv as (_ & _ & _ & _ & _ & _ & V7 & V8 & _).
    apply set_rep_ok; [done|done|apply (Hc p csp Hcp)]. }
  assert (c1 !! p = Some (set_rep rm' csp)) as Hp1 by apply lookup_insert_eq.
  assert (c1 !! n = Some csn') as Hn1
    by (subst c1; rewrite lookup_insert_ne by done; apply lookup_insert_eq).
  assert (dom c1 = dom c) as Hd1.
  { subst c1. rewrite !dom_insert_L. apply elem_of_dom_2 in Hcp, Hcn. set_solver. }
  destruct (IH c1 (set_rep rm' csp) Hc1 Hp1 Ho' Hnd Hpn) as (c' & Hall & Hh' & Hdom & Hin & Hout).
  { intros n' Hn'. destruct (Hns n' ltac:(by right)) as [? [cs' H']]. split; [done|].
    apply elem_of_dom. rewrite Hd1. by apply elem_of_dom_2 in H'. }
  exists c'. simpl. rewrite Hd. split_and!; [done|done|congruence| |].
  - intros n' [->|Hn']%elem_of_cons; [|by apply Hin].
    specialize (Hout n Hnn). rewrite Hn1 in Hout.
    destruct (c' !! n) as [cs'|]; simplify_eq/=. exists cs'. split; [done|]. by rewrite Hout.
  - intros n' [Hn' Hn'']%not_elem_of_cons. rewrite Hout by done. subst c1.
    destruct (decide (n' = p)) as [->|Hnp]; [by rewrite lookup_insert_eq, Hcp|].
    by rewrite !lookup_insert_ne by done.
Qed.
End healthy.

(** ** Concrete clusters *)

Lemma NoDup_fmap_eq {A B} (f : A -> B) (l : list A) x y :
  NoDup (f <$> l) -> x ∈ l -> y ∈ l -> f x = f y -> x = y.
Proof.
  intros Hnd [i Hi]%list_elem_of_lookup [j Hj]%list_elem_of_lookup E.
  assert (i = j) as ->; [|congruence].
  eapply NoDup_lookup; [exact Hnd| |]; rewrite list_lookup_fmap.
  - by rewrite Hi.
  - by rewrite Hj, E.
Qed.

(** Distinct hashes of all the virtual nodes: no collisions. *)
Lemma no_collision_NoDup count U : NoDup (Hash <$> ring_vnodes count U) -> no_collision count U.
Proof.
  intros Hnd id id' i j H1 H2 Hne Hi Hj E. apply Hne.
  assert (forall x k, x ∈ U -> 0 <= k < count ->
    mkVNode (hashVNode x k) x k ∈ ring_vnodes count U) as Hin.
  { intros x k Hx Hk. apply list_elem_of_bind. exists x. split; [|by apply elem_of_elements].
    apply elem_of_node_vnodes. by exists k. }
  pose proof (NoDup_fmap_eq Hash _ _ _ Hnd (Hin id i H1 Hi) (Hin id' j H2 Hj) E) as Heq.
  by injection Heq.
Qed.

Definition demo_members : gset string := {["node-1"; "node-2"; "node-3"]}.

(** A manager with two replicas per key, connected to the three nodes. *)
Definition demo_rm (id : string) : ReplicationManager :=
  fold_left (fun rm n => (ConnectToPeer (fun _ => true) n (n +:+ ":7001") rm).2)
    ["node-1"; "node-2"; "node-3"] (NewReplicationManager id 2).

Definition demo_server (id : string) : CacheServer :=
  NewCacheServer 0 id demo_store demo_ring (demo_rm id) NewFaultInjector
    (NewMitigator (NewDetector 100 (60 * Second)) 4).

Definition demo_cluster : cluster :=
  <["node-1" := demo_server "node-1"]> (<["node-2" := demo_server "node-2"]>
    (<["node-3" := demo_server "node-3"]> ∅)).

Definition up : string -> string -> bool := fun _ _ => true.
Definition uncancelled : string -> bool := fun _ => false.
Definition demo_clk (t : Time) : string -> nat -> Time := fun _ n => t + Z.of_nat n.

Lemma demo_no_collision : no_collision 3 demo_members.
Proof. apply no_collision_NoDup. apply (bool_decide_unpack _). vm_compute. exact I. Qed.

Lemma demo_dom : dom (nodes demo_ring) = demo_members.
Proof. apply (bool_decide_unpack _). vm_compute. exact I. Qed.

Lemma demo_server_ok id : id ∈ demo_members -> server_ok 3 demo_members id (demo_server id).
Proof.
  intros Hid. constructor; simpl; rewrite ?demo_dom; try done; [apply demo_ring_wf|].
  by apply empty_store_wf.
Qed.

Lemma demo_lookup id cs :
  demo_cluster !! id = Some cs -> cs = demo_server id /\ id ∈ demo_members.
Proof.
  unfold demo_cluster, demo_members.
  rewrite !lookup_insert_Some, lookup_empty. set_solver.
Qed.

Lemma demo_cluster_ok : cluster_ok 3 demo_members demo_cluster.
Proof. intros id cs [-> Hid]%demo_lookup. by apply demo_server_ok. Qed.

Definition demo_pref : list string := preference demo_ring "k".

Lemma demo_healthy_key key :
  all_healthy 3 demo_members uncancelled key (preference demo_ring key) 2 demo_cluster.
Proof.
  intros id cs [-> Hid]%demo_lookup. constructor; try done; [by apply demo_server_ok|].
  intros n Hn _. apply (elem_of_preference demo_ring key n demo_ring_wf) in Hn.
  rewrite demo_dom in Hn. unfold demo_members in Hn.
  assert (n = "node-1" \/ n = "node-2" \/ n = "node-3") as [-> |[-> | ->]] by set_solver;
    vm_compute; by eexists.
Qed.

Lemma demo_healthy : all_healthy 3 demo_members uncancelled "k" demo_pref 2 demo_cluster.
Proof. apply demo_healthy_key. Qed.



Lemma set_then_get (net : string -> string -> bool) (cancelled : string -> bool)
    (clk clk' : string -> nat -> Time) (count : Z) (U : gset string) (key : string)
    (pref : list string) (rc : Z) (p a b : string) (v : bytes) (ttlMs : Z) (c : cluster) :
  (forall x y, net x y = true) -> 1 <= rc -> head pref = Some p ->
  all_healthy count U cancelled key pref rc c ->
  is_Some (c !! a) -> is_Some (c !! b) -> is_Some (c !! p) ->
  b = p \/ b ∉ take (Z.to_nat rc) pref ->
  IsExpired (clk' p 0%nat) (written (clk p) v ttlMs) = false ->
  exists c1 hot c2,
    handle net cancelled clk 2 a (SetRequest key v ttlMs) c = Answered (inr (RSet true)) c1 /\
    handle net cancelled clk' 2 b (GetRequest key) c1
    = Answered (inr (RGet (mkGetResponse key v true 0 hot))) c2.
Proof.
  intros Hnet Hrc Hp Hc Ha [csb Hb] [csp Hcp] Hbp Hx.
  destruct (handle_set count U cancelled key pref rc p Hp net Hnet clk 0 v ttlMs a c csp Hc Ha Hcp)
    as (c1 & csp1 & seq & Hset & Hc1 & Hdom & Hp1 & Hk & _).
  assert (reader pref rc p b = p) as Hrd
    by (unfold reader; case_decide; [by destruct Hbp|done]).
  destruct (handle_get count U cancelled key pref rc p Hp net Hnet clk' 0 b c1 csp1
    (written (clk p) v ttlMs)) as (hot & c2 & _ & Hget & _); rewrite ?Hrd; try done.
  { apply elem_of_dom. rewrite Hdom. by apply elem_of_dom_2 in Hb. }
  exists c1, hot, c2. split; [done|exact Hget].
Qed.





(** ** Failover *)

Section rereplicate.
Context (now : Time) (r : Ring) (Hr : ring_wf r) (Hne : dom (nodes r) <> ∅).

Lemma preference_member key : preference r key <> [].
Proof.
  intros E. destruct (set_choose_L _ Hne) as [x Hx].
  apply (elem_of_preference r key x Hr) in Hx. rewrite E in Hx. by apply elem_of_nil in Hx.
Qed.

(** The request re-replication owes to the replica [n] of an entry. *)
Definition owed (self : string) (key : string) (e : Entry) (seq : Z) : ReplicateRequest :=
  mkReplicate key (Value e) (Milliseconds (remaining now e)) seq self OpSet.

(** The entries this node is the primary of. *)
Definition leads (rm : ReplicationManager) (kv : string * Entry) : Prop :=
  head (preference r kv.1) = Some (rm_selfID rm).

Lemma rereplicate_all l rm :
  rm_wf rm ->
  exists rm', fold_left (fun st kv =>
      (rereplicate_key r kv.1 (Value kv.2) (remaining now kv.2) st).2) l (Some rm) = Some rm' /\
    rm_selfID rm' = rm_selfID rm /\ replicaCount rm' = replicaCount rm /\
    peerConns rm' = peerConns rm /\ (forall x, x ∈ outbox rm -> x ∈ outbox rm') /\
    (forall kv n, kv ∈ l -> leads rm kv -> n ∈ replicas r rm kv.1 -> n <> rm_selfID rm ->
       exists seq, (n, owed (rm_selfID rm) kv.1 kv.2 seq) ∈ outbox rm') /\
    (forall n req, (n, req) ∈ outbox rm' -> (n, req) ∈ outbox rm \/
       exists kv seq, kv ∈ l /\ leads rm kv /\ n ∈ replicas r rm kv.1 /\ n <> rm_selfID rm /\
         req = owed (rm_selfID rm) kv.1 kv.2 seq).
Proof.
  revert rm. induction l as [|kv l IH]; intros rm Hrm.
  { exists rm. split_and!; try done; [by intros kv n []%elem_of_nil|by left]. }
  simpl. rewrite IsPrimary_spec by done. simpl.
  assert (exists rm1, (if bool_decide (head (preference r kv.1) = Some (rm_selfID rm))
      then ReplicateWrite r kv.1 (Value kv.2) (Milliseconds (remaining now kv.2)) rm else Some rm)
      = Some rm1 /\ rm_selfID rm1 = rm_selfID rm /\ replicaCount rm1 = replicaCount rm /\
    peerConns rm1 = peerConns rm /\
    exists seq, forall x, x ∈ outbox rm1 <-> x ∈ outbox rm \/
      (leads rm kv /\ exists n, x = (n, owed (rm_selfID rm) kv.1 kv.2 seq) /\ n ∈ replicas r rm kv.1 /\
         n <> rm_selfID rm)) as (rm1 & -> & E1 & E2 & E3 & seq & Hx).
  { case_bool_decide as Hl.
    - destruct (ReplicateWrite_spec r rm kv.1 (Value kv.2) (Milliseconds (remaining now kv.2)) Hr Hrm
        (preference_member kv.1)) as (rm1 & Hw & S1 & S2 & S3 & _ & _ & Ho).
      exists rm1. split_and!; try done. exists (u64 (sequence rm + 1)). intros x.
      rewrite Ho, elem_of_app, list_elem_of_fmap. setoid_rewrite list_elem_of_filter.
      unfold owed. naive_solver.
    - exists rm. split_and!; try done. exists 0. intros x. split; [by left|].
      intros [?|[? _]]; [done|]. by destruct Hl. }
  assert (rm_wf rm1) as Hrm1 by (unfold rm_wf in *; congruence).
  destruct (IH rm1 Hrm1) as (rm' & Hf & F1 & F2 & F3 & Hkeep & Hall & Honly).
  unfold leads, replicas in *. rewrite E1, E2 in *. exists rm'. split_and!; try congruence.
  - exact Hf.
  - intros x Hin. apply Hkeep, Hx. by left.
  - intros kv' n [->|Hin]%elem_of_cons Hl Hn Hns; [|by apply Hall].
    exists seq. apply Hkeep, Hx. right. split; [done|]. by exists n.
  - intros n req [Hin1|(kv' & seq' & Hkv & H)]%Honly.
    + apply Hx in Hin1 as [?|(Hl & n' & [= -> ->] & Hn & Hns)]; [by left|].
      right. exists kv, seq. split; [left|done].
    + right. exists kv', seq'. split; [by right|done].
Qed.
End rereplicate.


Definition demo_survivor : Store := Set_ 10 10 demo_store "k" [Byte.x07] 0.

Lemma demo_survivor_wf : store_wf demo_survivor.
Proof. apply Set_contents. by apply empty_store_wf. Qed.

(** The ring of "node-1" after "node-3" died, and a key it leads there. *)
Definition demo_ring_two : Ring := (AddNode "node-2" (AddNode "node-1" (NewRing 3 f_0_25)).2).2.
Definition demo_leader : string := default "" (head (preference demo_ring_two "k")).


(** Replicas ignore the order of writes: a secondary that receives two
    writes of a key ends with the one that arrived last, whatever their
    sequence numbers, so a write overtaken by a newer one overwrites it. *)
Theorem replication_order_ignored (clk clk' : nat -> Time) (cs : CacheServer)
    (older newer : ReplicateRequest) :
  store_wf (cs_store cs) -> rr_Key older = rr_Key newer ->
  rr_Op older = OpSet -> rr_Op newer = OpSet -> rr_Sequence older < rr_Sequence newer ->
  let cs' := (Replicate clk' older (Replicate clk newer cs).2).2 in
  Value <$> contents (cs_store cs') !! rr_Key newer = Some (rr_Value older).
Proof.
  intros Hs Hk Ho Hn _. unfold Replicate. rewrite Ho, Hn. simpl.
  destruct (Set_contents (clk 0%nat) (clk 1%nat) (cs_store cs) (rr_Key newer) (rr_Value newer)
    (req_ttl (rr_TtlMs newer)) Hs) as [H1 _].
  destruct (Set_contents (clk' 0%nat) (clk' 1%nat) _ (rr_Key older) (rr_Value older)
    (req_ttl (rr_TtlMs older)) H1) as [_ H2].
  rewrite H2, Hk. by rewrite lookup_insert_eq.
Qed.

Lemma replication_order_ignored_witness :
  Value <$> contents (cs_store (Replicate (fun _ => 30)
      (mkReplicate "k" [Byte.x01] 0 1 "node-1" OpSet)
      (Replicate (fun _ => 20) (mkReplicate "k" [Byte.x02] 0 2 "node-1" OpSet)
        (demo_server "node-2")).2).2) !! "k" = Some [Byte.x01].
Proof.
  apply (replication_order_ignored (fun _ => 20) (fun _ => 30) (demo_server "node-2")
    (mkReplicate "k" [Byte.x01] 0 1 "node-1" OpSet) (mkReplicate "k" [Byte.x02] 0 2 "node-1" OpSet)).
  - by apply empty_store_wf.
  - reflexivity.
  - reflexivity.
  - reflexivity.
  - simpl. lia.
Defined.

(** Re-replication makes a short-lived entry permanent: an entry with less
    than a millisecond to live is sent with TtlMs 0, and the replica that
    applies the request holds it without expiry. *)
Theorem rereplication_drops_short_ttl (now : Time) (clk : nat -> Time) (self key : string) (e : Entry)
    (seq : Z) (cs : CacheServer) :
  store_wf (cs_store cs) -> ExpiresAt e <> 0 -> now <= ExpiresAt e < now + Millisecond ->
  let req := owed now self key e seq in
  let cs' := (Replicate clk req cs).2 in
  rr_TtlMs req = 0 /\
  contents (cs_store cs') !! key = Some (mkEntry (Value e) time_zero (clk 0%nat)) /\
  forall t, IsExpired t (mkEntry (Value e) time_zero (clk 0%nat)) = false.
Proof.
  intros Hs He Hr req cs'.
  assert (rr_TtlMs req = 0) as Ht.
  { simpl. unfold remaining, IsZero, Sub, Milliseconds. destruct (Z.eqb_spec (ExpiresAt e) 0); [done|].
    unfold MinInt64, MaxInt64, Millisecond in *. apply Z.quot_small. lia. }
  split; [done|]. split; [|done]. subst cs'. unfold Replicate. simpl.
  change (Milliseconds (remaining now e)) with (rr_TtlMs req). rewrite Ht.
  destruct (Set_contents (clk 0%nat) (clk 1%nat) (cs_store cs) key (Value e) (req_ttl 0) Hs) as [_ H].
  rewrite H. apply lookup_insert_eq.
Qed.

Lemma rereplication_drops_short_ttl_witness :
  contents (cs_store (Replicate (fun _ => 20)
    (owed 10 "node-1" "k" (mkEntry [Byte.x07] 500000 5) 1) (demo_server "node-2")).2) !! "k"
  = Some (mkEntry [Byte.x07] time_zero 20).
Proof.
  apply (rereplication_drops_short_ttl 10 (fun _ => 20) "node-1" "k" (mkEntry [Byte.x07] 500000 5) 1
    (demo_server "node-2")).
  - by apply empty_store_wf.
  - discriminate.
  - simpl. unfold Millisecond. lia.
Defined.
