(* ===== verification/Rpc.v ===== *)
(** * The gRPC service: internal/server/service.go and the calls of grpc_server.go

    The methods of the service as gRPC runs them: the wrappers that decode a
    request and hand it to the interceptor, the service descriptor, the chain
    [Start] installs, and the proxied calls, which go through the codec in both
    directions.  The transport carries the bytes it is given; it is the [net] of
    the cluster. *)

From S2P Require Import Prelude GoLib Text Json Codec Store HashRing Mitigator Chaos Replication Server ClusterProps.

#[local] Open Scope Z_scope.

(** ** Handlers and interceptors *)

Definition unary (A : Type) : Type := cluster -> outcome_of A.

(** [grpc.UnaryServerInterceptor]: given the full name of the method and the
    handler. *)
Definition interceptor : Type := forall A, string -> unary A -> unary A.

Record log_line := mkLine {
  ll_method : string;
  ll_duration : Duration;
  ll_error : option rpc_error
}.

(** The outcome of the handler, and the line that is logged when it returns. *)
Definition loggingInterceptor {A} (start finish : Time) (FullMethod : string) (handler : unary A)
    (c : cluster) : outcome_of A * option log_line :=
  let result := handler c in
  (result,
   match result with
   | Answered (inl e) _ => Some (mkLine FullMethod (Sub finish start) (Some e))
   | Answered (inr _) _ => Some (mkLine FullMethod (Sub finish start) None)
   | _ => None
   end).

(** The interceptor of the fault injector in front of a handler. *)
Definition fault_interceptor {A} (cancelled : bool) (cs : CacheServer) (handler : unary A) : unary A :=
  fun c => match gate cancelled cs with
           | Some e => Answered (inl e) c
           | None => handler c
           end.

(** [grpc.ChainUnaryInterceptor] or [grpc.UnaryInterceptor]: the options of
    [Start].  The log lines go to the log. *)
Definition server_chain (clk : nat -> Time) (cancelled : bool) (cs : CacheServer) : interceptor :=
  fun A FullMethod handler c =>
    if hasFault cs then
      (loggingInterceptor (clk 0%nat) (clk 1%nat) FullMethod (fault_interceptor cancelled cs handler) c).1
    else (loggingInterceptor (clk 0%nat) (clk 1%nat) FullMethod handler c).1.

(** ** The service *)

(** A server stream: the message it is given, or an error. *)
Abbreviation sender St := (text -> St -> bool * St).

Record CacheServiceServer := mkService {
  srv_Get : string -> unary GetResponse;
  srv_Set : string * bytes * Z -> unary bool;
  srv_Delete : string -> unary bool;
  srv_Expire : string * Z -> unary bool;
  srv_Keys : string -> unary (list string);
  srv_Ping : unit -> unary PingResponse;
  srv_Replicate : ReplicateRequest -> unary bool;
  srv_TransferKeys : forall St, Z * Z * string -> (KeyValuePair -> St -> bool * St) -> St ->
    option rpc_error * St
}.

Definition decode_error : rpc_error := ErrInternal "grpc: error unmarshalling request".

(** The common shape of the wrappers: decode, then the method, in the
    interceptor if there is one. *)
Definition handle_unary {Req Resp} (T : gotype Req) (FullMethod : string) (method : Req -> unary Resp)
    (i : option interceptor) (data : text) : unary Resp :=
  fun c =>
    match Unmarshal T data (gt_zero T) with
    | None => Answered (inl decode_error) c
    | Some req =>
        match i with
        | None => method req c
        | Some i => i Resp FullMethod (method req) c
        end
    end.

Definition handleGet (srv : CacheServiceServer) :=
  handle_unary pb_GetRequest "/cache.CacheService/Get" (srv_Get srv).
Definition handleSet (isnil : bool) (srv : CacheServiceServer) :=
  handle_unary (pb_SetRequest isnil) "/cache.CacheService/Set" (srv_Set srv).
Definition handleDelete (srv : CacheServiceServer) :=
  handle_unary pb_DeleteRequest "/cache.CacheService/Delete" (srv_Delete srv).
Definition handleExpire (srv : CacheServiceServer) :=
  handle_unary pb_ExpireRequest "/cache.CacheService/Expire" (srv_Expire srv).
Definition handleKeys (srv : CacheServiceServer) :=
  handle_unary pb_KeysRequest "/cache.CacheService/Keys" (srv_Keys srv).
Definition handlePing (srv : CacheServiceServer) :=
  handle_unary pb_PingRequest "/cache.CacheService/Ping" (srv_Ping srv).
Definition handleReplicate (isnil : bool) (srv : CacheServiceServer) :=
  handle_unary (pb_ReplicateRequest isnil) "/cache.CacheService/Replicate" (srv_Replicate srv).

(** [transferKeysServer.Send] and [transferKeysClient.Recv]: a pair through the
    codec. *)
Definition Send (isnil : bool) {St} (SendMsg : sender St) (kv : KeyValuePair) (st : St) : bool * St :=
  SendMsg (Marshal (pb_KeyValuePair isnil) kv) st.

Definition Recv (isnil : bool) (data : text) : option KeyValuePair :=
  Unmarshal (pb_KeyValuePair isnil) data (gt_zero (pb_KeyValuePair isnil)).

Definition handleTransferKeys (isnil : bool) (srv : CacheServiceServer) {St} (SendMsg : sender St)
    (data : text) (st : St) : option rpc_error * St :=
  match Unmarshal pb_TransferKeysRequest data (gt_zero pb_TransferKeysRequest) with
  | None => (Some decode_error, st)
  | Some req => srv_TransferKeys srv St req (Send isnil SendMsg) st
  end.

(** ** The descriptor *)

Definition encode {A} (T : gotype A) (o : outcome_of A) : outcome_of text :=
  match o with
  | Answered (inl e) c => Answered (inl e) c
  | Answered (inr a) c => Answered (inr (Marshal T a)) c
  | Panicked => Panicked
  | OutOfFuel => OutOfFuel
  end.

Definition ServiceName : string := "cache.CacheService".

Abbreviation method_handler := (CacheServiceServer -> option interceptor -> text -> unary text).

(** gRPC encodes what the handler of a method returns. *)
Definition Methods (isnil : bool) : list (string * method_handler) := [
  ("Get", fun srv i data c => encode (pb_GetResponse isnil) (handleGet srv i data c));
  ("Set", fun srv i data c => encode pb_SetResponse (handleSet isnil srv i data c));
  ("Delete", fun srv i data c => encode pb_DeleteResponse (handleDelete srv i data c));
  ("Expire", fun srv i data c => encode pb_ExpireResponse (handleExpire srv i data c));
  ("Keys", fun srv i data c => encode (pb_KeysResponse isnil) (handleKeys srv i data c));
  ("Ping", fun srv i data c => encode pb_PingResponse (handlePing srv i data c));
  ("Replicate", fun srv i data c => encode pb_ReplicateResponse (handleReplicate isnil srv i data c))
].

Definition full_method (name : string) : string := "/" +:+ ServiceName +:+ "/" +:+ name.

Definition find_method (isnil : bool) (FullMethod : string) : option method_handler :=
  snd ∘ snd <$> list_find (fun m => full_method m.1 = FullMethod) (Methods isnil).

(** ** Calls *)

Definition request_method (q : request) : string :=
  match q with
  | GetRequest _ => "/cache.CacheService/Get"
  | SetRequest _ _ _ => "/cache.CacheService/Set"
  | DeleteRequest _ => "/cache.CacheService/Delete"
  | ExpireRequest _ _ => "/cache.CacheService/Expire"
  end.

Definition request_text (isnil : bool) (q : request) : text :=
  match q with
  | GetRequest key => Marshal pb_GetRequest key
  | SetRequest key value ttlMs => Marshal (pb_SetRequest isnil) (key, value, ttlMs)
  | DeleteRequest key => Marshal pb_DeleteRequest key
  | ExpireRequest key ttlMs => Marshal pb_ExpireRequest (key, ttlMs)
  end.

Definition response_text (isnil : bool) (r : response) : text :=
  match r with
  | RGet r => Marshal (pb_GetResponse isnil) r
  | RSet b => Marshal pb_SetResponse b
  | RDelete b => Marshal pb_DeleteResponse b
  | RExpire b => Marshal pb_ExpireResponse b
  end.

(** The reply, read into the response of the request. *)
Definition response_of (isnil : bool) (q : request) (data : text) : option response :=
  match q with
  | GetRequest _ => RGet <$> Unmarshal (pb_GetResponse isnil) data (gt_zero (pb_GetResponse isnil))
  | SetRequest _ _ _ => RSet <$> Unmarshal pb_SetResponse data false
  | DeleteRequest _ => RDelete <$> Unmarshal pb_DeleteResponse data false
  | ExpireRequest _ _ => RExpire <$> Unmarshal pb_ExpireResponse data false
  end.

(** [conn.Invoke(ctx, method, req, resp, grpc.CallContentSubtype("json"))] *)
Definition Invoke (isnil : bool) (transport : string -> text -> unary text) (q : request) : unary response :=
  fun c =>
    match transport (request_method q) (request_text isnil q) c with
    | Answered (inl e) c => Answered (inl e) c
    | Answered (inr data) c =>
        match response_of isnil q data with
        | Some r => Answered (inr r) c
        | None => Answered (inl (ErrInternal "grpc: failed to unmarshal the received message")) c
        end
    | Panicked => Panicked
    | OutOfFuel => OutOfFuel
    end.

Definition project {A} (f : response -> option A) (o : outcome) : outcome_of A :=
  match o with
  | Answered (inl e) c => Answered (inl e) c
  | Answered (inr r) c =>
      match f r with
      | Some a => Answered (inr a) c
      | None => Answered (inl (ErrHandler "unexpected reply")) c
      end
  | Panicked => Panicked
  | OutOfFuel => OutOfFuel
  end.

Definition to_get (r : response) : option GetResponse := match r with RGet r => Some r | _ => None end.
Definition to_set (r : response) : option bool := match r with RSet b => Some b | _ => None end.
Definition to_delete (r : response) : option bool := match r with RDelete b => Some b | _ => None end.
Definition to_expire (r : response) : option bool := match r with RExpire b => Some b | _ => None end.

Section rpc.
Context (isnil : bool) (net : string -> string -> bool) (cancelled : string -> bool).
(** The clocks of the handlers and of the log, the order of the loops over the
    stores. *)
Context (clk logclk : string -> nat -> Time) (ords : string -> list (list (string * Entry))).

(** The server of node [id] as the service; [transport] carries the proxied
    calls. *)
Definition service (transport : string -> string -> text -> unary text) (id : string) (cs : CacheServer)
    : CacheServiceServer :=
  let ask {A} (f : response -> option A) (q : request) : unary A := fun c =>
    project f (respond net clk (fun primary => Invoke isnil (transport primary) q) id q cs c) in
  mkService
    (fun key => ask to_get (GetRequest key))
    (fun '(key, value, ttlMs) => ask to_set (SetRequest key value ttlMs))
    (fun key => ask to_delete (DeleteRequest key))
    (fun '(key, ttlMs) => ask to_expire (ExpireRequest key ttlMs))
    (fun _ c => Answered (inr (Keys (clk id 0%nat) (ords id))) c)
    (fun _ c => Answered (inr (Ping (clk id 0%nat) (ords id) cs)) c)
    (fun req c => let '(ok, cs) := Replicate (clk id) req cs in Answered (inr ok) (<[id := cs]> c))
    (fun St _ send st => (None, TransferKeys send (clk id 0%nat) (ords id) st)).

(** The bytes [data] arriving at node [id] for a method. *)
Fixpoint call (fuel : nat) (id : string) (FullMethod : string) (data : text) (c : cluster)
    : outcome_of text :=
  match fuel with
  | O => OutOfFuel
  | S fuel =>
      match c !! id with
      | None => Answered (inl (ErrUnavailable "no server at this address")) c
      | Some cs =>
          match find_method isnil FullMethod with
          | None => Answered (inl ErrUnimplemented) c
          | Some handler =>
              handler (service (fun primary m data c => call fuel primary m data c) id cs)
                (Some (server_chain (logclk id) (cancelled id) cs)) data c
          end
      end
  end.
(** ** The calls and the handlers *)

Definition request_ok (q : request) : Prop :=
  match q with
  | SetRequest _ _ ttlMs | ExpireRequest _ ttlMs => MinInt64 <= ttlMs <= MaxInt64
  | _ => True
  end.

(** The request a server decodes. *)
Definition received (q : request) : request :=
  match q with
  | GetRequest key => GetRequest (sanitized key)
  | SetRequest key value ttlMs => SetRequest (sanitized key) value ttlMs
  | DeleteRequest key => DeleteRequest (sanitized key)
  | ExpireRequest key ttlMs => ExpireRequest (sanitized key) ttlMs
  end.

Definition outcome_text (o : outcome) : outcome_of text :=
  match o with
  | Answered (inl e) c => Answered (inl e) c
  | Answered (inr r) c => Answered (inr (response_text isnil r)) c
  | Panicked => Panicked
  | OutOfFuel => OutOfFuel
  end.

(** A response is of the kind of its request, with the key of the request. *)
Definition answers (q : request) (r : response) : Prop :=
  match q, r with
  | GetRequest key, RGet r => gr_Key r = key /\ gr_TtlMs r = 0
  | SetRequest _ _ _, RSet _ | DeleteRequest _, RDelete _ | ExpireRequest _ _, RExpire _ => True
  | _, _ => False
  end.

Lemma local_answers t q cs r cs' : local t q cs = Some (r, cs') -> answers q r.
Proof.
  destruct q as [key|key v ttl|key|key ttl]; simpl.
  - unfold local_get. repeat case_match; intros; simplify_eq/=; done.
  - intros (? & _ & ?)%bind_Some. by simplify_eq/=.
  - intros ([? ?] & _ & ?)%bind_Some. by simplify_eq/=.
  - intros ([? ?] & _ & ?)%bind_Some. by simplify_eq/=.
Qed.

Lemma respond_answers forward id q cs c r c' :
  (forall p c r c', forward p c = Answered (inr r) c' -> answers q r) ->
  respond net clk forward id q cs c = Answered (inr r) c' -> answers q r.
Proof.
  intros Hf. unfold respond. destruct (route q (load_inc cs)) as [[p|]|]; [|..].
  - destruct (net id p); [|done]. destruct (forward p _) as [[e|r0] c0| |] eqn:E; intros; simplify_eq/=.
    by eapply Hf.
  - destruct (local (clk id) q (load_inc cs)) as [[r0 cs0]|] eqn:E; intros; simplify_eq/=.
    by eapply local_answers.
  - done.
Qed.

Lemma handle_answers fuel id q c r c' :
  handle net cancelled clk fuel id q c = Answered (inr r) c' -> answers q r.
Proof.
  revert id c r c'. induction fuel as [|fuel IH]; intros id c r c'; [done|]. simpl.
  destruct (c !! id) as [cs|]; [|done]. destruct (gate (cancelled id) cs); [done|].
  apply respond_answers. intros p c0 r0 c1. apply IH.
Qed.
Lemma request_decodes q :
  request_ok q ->
  match q with
  | GetRequest key => Unmarshal pb_GetRequest (request_text isnil q) (gt_zero pb_GetRequest)
      = Some (sanitized key)
  | SetRequest key v t => Unmarshal (pb_SetRequest isnil) (request_text isnil q) (gt_zero (pb_SetRequest isnil))
      = Some (sanitized key, v, t)
  | DeleteRequest key => Unmarshal pb_DeleteRequest (request_text isnil q) (gt_zero pb_DeleteRequest)
      = Some (sanitized key)
  | ExpireRequest key t => Unmarshal pb_ExpireRequest (request_text isnil q) (gt_zero pb_ExpireRequest)
      = Some (sanitized key, t)
  end.
Proof.
  destruct q as [key|key v t|key|key t]; intros Hq.
  - by apply (message_roundtrip isnil MGetRequest).
  - by apply (message_roundtrip isnil MSetRequest).
  - by apply (message_roundtrip isnil MDeleteRequest).
  - by apply (message_roundtrip isnil MExpireRequest).
Qed.

Lemma response_decodes q r :
  valid_string (req_key q) -> answers q r -> response_of isnil q (response_text isnil r) = Some r.
Proof.
  destruct q as [key|key v t|key|key t], r as [r|b|b|b]; try done; intros Hv Ha; unfold response_of.
  - destruct r as [k v f t h]. destruct Ha as [[= ->] [= ->]].
    refine (f_equal (fmap RGet) (message_roundtrip_clean isnil MGetResponse _ _ _)); repeat split; done.
  - exact (f_equal (fmap RSet) (message_roundtrip isnil MSetResponse b (conj I I))).
  - exact (f_equal (fmap RDelete) (message_roundtrip isnil MDeleteResponse b (conj I I))).
  - exact (f_equal (fmap RExpire) (message_roundtrip isnil MExpireResponse b (conj I I))).
Qed.

Lemma chain_result {A} t b cs FullMethod (handler : unary A) c :
  server_chain t b cs A FullMethod handler c = fault_interceptor b cs handler c.
Proof.
  unfold server_chain, fault_interceptor. destruct (hasFault cs) eqn:E; [done|].
  unfold gate. by rewrite E.
Qed.

Lemma received_idem q : received (received q) = received q.
Proof. by destruct q; simpl; rewrite sanitized_idem. Qed.

Lemma received_ok q : request_ok q -> request_ok (received q).
Proof. by destruct q. Qed.

Lemma received_valid q : valid_string (req_key (received q)).
Proof. destruct q; apply sanitized_valid. Qed.

Lemma respond_ext f g id q cs c :
  (forall p c, f p c = g p c) -> respond net clk f id q cs c = respond net clk g id q cs c.
Proof.
  intros E. unfold respond. destruct (route q (load_inc cs)) as [[p|]|]; try done.
  destruct (net id p); [by rewrite E|done].
Qed.

(** The encoded response of a method is the text of the handler's. *)
Lemma project_text {A} (T : gotype A) (f : response -> option A) (o : outcome) :
  (forall r c, o = Answered (inr r) c -> exists a, f r = Some a /\ Marshal T a = response_text isnil r) ->
  encode T (project f o) = outcome_text o.
Proof.
  intros H. destruct o as [[e|r] c| |]; try done. destruct (H r c eq_refl) as (a & Hf & Ht).
  simpl. rewrite Hf. simpl. by rewrite Ht.
Qed.

Definition method_of (q : request) : method_handler := fun srv i data c =>
  match q with
  | GetRequest _ => encode (pb_GetResponse isnil) (handleGet srv i data c)
  | SetRequest _ _ _ => encode pb_SetResponse (handleSet isnil srv i data c)
  | DeleteRequest _ => encode pb_DeleteResponse (handleDelete srv i data c)
  | ExpireRequest _ _ => encode pb_ExpireResponse (handleExpire srv i data c)
  end.

Lemma find_method_of q : find_method isnil (request_method q) = Some (method_of q).
Proof. by destruct q. Qed.

(** One call, given how the calls it makes behave. *)
Lemma call_step transport id q cs c :
  request_ok q ->
  (forall p c r c', Invoke isnil (transport p) (received q) c = Answered (inr r) c' ->
    answers (received q) r) ->
  method_of q (service transport id cs) (Some (server_chain (logclk id) (cancelled id) cs))
    (request_text isnil q) c
  = outcome_text
      match gate (cancelled id) cs with
      | Some e => Answered (inl e) c
      | None => respond net clk (fun p => Invoke isnil (transport p) (received q)) id (received q) cs c
      end.
Proof.
  intros Hq Hf. pose proof (request_decodes q Hq) as Hd.
  assert (forall r c', respond net clk (fun p => Invoke isnil (transport p) (received q)) id (received q) cs c
    = Answered (inr r) c' -> answers (received q) r) as Ha.
  { intros r c'. by apply respond_answers. }
  unfold method_of. destruct q as [key|key v t|key|key t];
    unfold handleGet, handleSet, handleDelete, handleExpire, handle_unary; rewrite Hd, chain_result;
    unfold fault_interceptor; (destruct (gate (cancelled id) cs); [done|]); apply project_text;
    intros [r|b|b|b] c' E%Ha; try done; eexists; done.
Qed.

Lemma call_handle fuel id q c :
  request_ok q ->
  call fuel id (request_method q) (request_text isnil q) c
    = outcome_text (handle net cancelled clk fuel id (received q) c).
Proof.
  revert id q c. induction fuel as [|fuel IH]; intros id q c Hq; [done|]. simpl.
  destruct (c !! id) as [cs|]; [|done]. rewrite find_method_of.
  assert (forall p c, Invoke isnil (fun m d c => call fuel p m d c) (received q) c
    = handle net cancelled clk fuel p (received q) c) as Hfwd.
  { intros p c0. unfold Invoke. rewrite IH by by apply received_ok. rewrite received_idem.
    destruct (handle net cancelled clk fuel p (received q) c0) as [[e|r] c1| |] eqn:E; try done. simpl.
    rewrite response_decodes; [done|apply received_valid|by eapply handle_answers]. }
  rewrite call_step; [|done|].
  - destruct (gate (cancelled id) cs); [done|]. f_equal. by apply respond_ext.
  - intros p c0 r c1. rewrite Hfwd. apply handle_answers.
Qed.

(** A replication goroutine reaches the peer's handler as it is. *)
Definition replicate_text (req : ReplicateRequest) : text := Marshal (pb_ReplicateRequest isnil) req.

Lemma call_replicate fuel id nodeID req c :
  gt_ok (pb_ReplicateRequest isnil) req -> gt_clean (pb_ReplicateRequest isnil) req ->
  net id nodeID = true ->
  match call (S fuel) nodeID "/cache.CacheService/Replicate" (replicate_text req) c with
  | Answered r c' => (match r with inr _ => true | inl _ => false end, c')
  | _ => (false, c)
  end = invoke_replicate net cancelled clk id nodeID req c.
Proof.
  intros Hok Hcl Hnet. unfold invoke_replicate. cbn [call].
  destruct (c !! nodeID) as [cs|]; [|done]. rewrite Hnet.
  change (find_method isnil "/cache.CacheService/Replicate") with
    (Some (fun srv i data c => encode pb_ReplicateResponse (handleReplicate isnil srv i data c))).
  cbn beta iota. unfold handleReplicate, handle_unary, replicate_text.
  pose proof (message_roundtrip_clean isnil MReplicateRequest req Hok Hcl) as Hd. cbn [describe] in Hd.
  rewrite Hd, chain_result. unfold fault_interceptor. by destruct (gate (cancelled nodeID) cs).
Qed.
End rpc.

(** ** The stream *)

(** What the peer receives of an entry. *)
Definition transferred (now : Time) (kv : string * Entry) : KeyValuePair :=
  mkKeyValuePair (sanitized kv.1) (Value kv.2) (Milliseconds (remaining now kv.2)).

Definition collect (m : text) (st : list text) : bool * list text := (true, st ++ [m]).

Lemma remaining_range now v :
  MinInt64 <= Milliseconds (remaining now v) <= MaxInt64.
Proof.
  apply Milliseconds_range. unfold remaining. destruct (IsZero (ExpiresAt v)); [done|apply Sub_range].
Qed.

Lemma Recv_Send isnil kv :
  MinInt64 <= kv_TtlMs kv <= MaxInt64 ->
  Recv isnil (Marshal (pb_KeyValuePair isnil) kv)
    = Some (mkKeyValuePair (sanitized (kv_Key kv)) (kv_Value kv) (kv_TtlMs kv)).
Proof. intros H. apply (message_roundtrip isnil MKeyValuePair kv). repeat split; try done; apply H. Qed.

Lemma transfer_collects isnil now ords :
  TransferKeys (Send isnil collect) now ords []
    = (fun kv => Marshal (pb_KeyValuePair isnil)
         (mkKeyValuePair kv.1 (Value kv.2) (Milliseconds (remaining now kv.2)))) <$> visited now ords.
Proof.
  unfold TransferKeys. rewrite ForEach_all by done.
  apply (fold_left_snoc (fun kv => Marshal (pb_KeyValuePair isnil)
    (mkKeyValuePair kv.1 (Value kv.2) (Milliseconds (remaining now kv.2)))) _ []).
Qed.

(** ** Properties *)



(** Over the wire a client reads its writes, and keys that differ only in
    bytes that are not UTF-8 are one key.  In a healthy cluster a Set of [k1]
    sent to any node is acknowledged, and a Get of any [k2] that the encoding
    maps to the same key, sent to a node that is not a secondary of it, returns
    the value set, under the key as it was encoded. *)
Theorem wire_reads_writes (isnil : bool) (net : string -> string -> bool) (cancelled : string -> bool)
    (clk clk' logclk : string -> nat -> Time) (ords : string -> list (list (string * Entry)))
    (count : Z) (U : gset string) (k1 k2 : string) (pref : list string) (rc : Z) (p a b : string)
    (v : bytes) (ttlMs : Z) (c : cluster) :
  sanitized k1 = sanitized k2 -> MinInt64 <= ttlMs <= MaxInt64 ->
  (forall x y, net x y = true) -> 1 <= rc -> head pref = Some p ->
  all_healthy count U cancelled (sanitized k1) pref rc c ->
  is_Some (c !! a) -> is_Some (c !! b) -> is_Some (c !! p) ->
  b = p \/ b ∉ take (Z.to_nat rc) pref ->
  IsExpired (clk' p 0%nat) (written (clk p) v ttlMs) = false ->
  exists c1 hot c2,
    call isnil net cancelled clk logclk ords 2 a "/cache.CacheService/Set"
      (request_text isnil (SetRequest k1 v ttlMs)) c
    = Answered (inr (response_text isnil (RSet true))) c1 /\
    call isnil net cancelled clk' logclk ords 2 b "/cache.CacheService/Get"
      (request_text isnil (GetRequest k2)) c1
    = Answered (inr (response_text isnil (RGet (mkGetResponse (sanitized k2) v true 0 hot)))) c2.
Proof.
  intros Hk Ht Hnet Hrc Hp Hc Ha Hb Hcp Hbp Hx.
  destruct (set_then_get net cancelled clk clk' count U (sanitized k1) pref rc p a b v ttlMs c)
    as (c1 & hot & c2 & H1 & H2); try done.
  exists c1, hot, c2. split.
  - rewrite (call_handle isnil net cancelled clk logclk ords 2 a (SetRequest k1 v ttlMs)) by done.
    simpl received. by rewrite H1.
  - rewrite (call_handle isnil net cancelled clk' logclk ords 2 b (GetRequest k2)) by done.
    simpl received. rewrite <- Hk at 1. rewrite H2. by rewrite Hk.
Qed.

Definition key_ff : string := string_of_codes [255].
Definition key_fe : string := string_of_codes [254].
Definition key_fffd : string := string_of_codes replacement.
Definition pref_fffd : list string := preference demo_ring key_fffd.

Lemma wire_reads_writes_witness :
  key_ff <> key_fe /\
  exists c1 hot c2,
    call true up uncancelled (demo_clk 10) (demo_clk 0) (fun _ => []) 2 "node-1" "/cache.CacheService/Set"
      (request_text true (SetRequest key_ff [Byte.x07] 0)) demo_cluster
    = Answered (inr (response_text true (RSet true))) c1 /\
    call true up uncancelled (demo_clk 20) (demo_clk 0) (fun _ => []) 2 (default "" (head pref_fffd))
      "/cache.CacheService/Get" (request_text true (GetRequest key_fe)) c1
    = Answered (inr (response_text true (RGet (mkGetResponse key_fffd [Byte.x07] true 0 hot)))) c2.
Proof.
  split; [discriminate|].
  apply (wire_reads_writes true up uncancelled (demo_clk 10) (demo_clk 20) (demo_clk 0) (fun _ => [])
    3 demo_members key_ff key_fe pref_fffd 2 (default "" (head pref_fffd)) "node-1"
    (default "" (head pref_fffd)) [Byte.x07] 0 demo_cluster).
  - vm_compute. reflexivity.
  - unfold MinInt64, MaxInt64. lia.
  - reflexivity.
  - lia.
  - vm_compute. reflexivity.
  - apply demo_healthy_key.
  - vm_compute. by eexists.
  - vm_compute. by eexists.
  - vm_compute. by eexists.
  - by left.
  - vm_compute. reflexivity.
Defined.

(** A peer that reads the TransferKeys stream of a node receives exactly
    the entries of its store that have not expired, each once, with their
    values and the milliseconds they have left, the keys made valid UTF-8. *)
Theorem transfer_streams_store (isnil : bool) (net : string -> string -> bool)
    (clk : string -> nat -> Time) (ords : string -> list (list (string * Entry)))
    (transport : string -> string -> text -> unary text) (id : string) (cs : CacheServer)
    (req : Z * Z * string) (now := clk id 0%nat) :
  store_wf (cs_store cs) -> ranges (cs_store cs) (ords id) ->
  gt_ok pb_TransferKeysRequest req ->
  exists sent,
    handleTransferKeys isnil (service isnil net clk ords transport id cs) collect
      (Marshal pb_TransferKeysRequest req) [] = (None, sent) /\
    omap (Recv isnil) sent ≡ₚ transferred now <$>
      filter (fun kv => IsExpired now kv.2 = false) (map_to_list (contents (cs_store cs))) /\
    length (omap (Recv isnil) sent) = length sent.
Proof.
  intros Hwf Hr Hreq. eexists. unfold handleTransferKeys.
  pose proof (message_roundtrip isnil MTransferKeysRequest req Hreq) as Hd.
  cbn [describe] in Hd. rewrite Hd.
  split; [done|]. simpl. rewrite transfer_collects.
  assert (forall l : list (string * Entry), omap (Recv isnil) ((fun kv => Marshal (pb_KeyValuePair isnil)
    (mkKeyValuePair kv.1 (Value kv.2) (Milliseconds (remaining now kv.2)))) <$> l) = transferred now <$> l) as E.
  { induction l as [|kv l IH]; [done|]. rewrite fmap_cons. cbn [omap list_omap].
    rewrite Recv_Send by apply remaining_range. cbn. f_equal. apply IH. }
  fold now. rewrite E, !length_fmap. split; [|done]. by rewrite (visited_live now _ _ Hwf Hr).
Qed.

Definition demo_transfer : CacheServer := set_store demo_survivor (demo_server "node-1").
Definition demo_ords : string -> list (list (string * Entry)) :=
  fun _ => map_to_list <$> shards demo_survivor.

Lemma transfer_streams_store_witness :
  exists sent,
    handleTransferKeys true (service true up (demo_clk 20) demo_ords (fun _ _ _ c => OutOfFuel) "node-1"
      demo_transfer) collect (Marshal pb_TransferKeysRequest (0, MaxUint64, "node-2")) [] = (None, sent) /\
    omap (Recv true) sent ≡ₚ transferred 20 <$>
      filter (fun kv => IsExpired 20 kv.2 = false) (map_to_list (contents demo_survivor)) /\
    length (omap (Recv true) sent) = length sent.
Proof.
  apply (transfer_streams_store true up (demo_clk 20) demo_ords (fun _ _ _ c => OutOfFuel) "node-1"
    demo_transfer (0, MaxUint64, "node-2")).
  - exact demo_survivor_wf.
  - apply ranges_self.
  - message_ok.
Defined.
