(* ===== verification/Packets.v ===== *)
(** * Gossip datagrams: the JSON of internal/cluster/membership.go

    The datagrams the nodes exchange, their sizes, and what the receive loop
    makes of one. *)

From S2P Require Import Prelude GoLib Text Json Codec Chaos Registry Gossip Membership.

#[local] Open Scope Z_scope.

Definition maxUDPPacketSize : Z := 65507.

(** [json.Marshal(msg)], the data given to [WriteToUDP]. *)
Definition packet (msg : SwimMessage) : text := Marshal json_SwimMessage msg.

Definition packet_size (msg : SwimMessage) : Z := Z.of_nat (length (packet msg)).

(** The loop of [receiveLoop] on one datagram: it is cut to the buffer, decoded
    into a fresh message and handled unless its sender is blocked. *)
Definition receive_packet (resolve : string -> option UDPAddr) (now : Time) (ord : list (string * loc))
    (data : text) (from : UDPAddr) (m : Membership) : option (chan * string) * Membership :=
  match Unmarshal json_SwimMessage (take (Z.to_nat maxUDPPacketSize) data) (gt_zero json_SwimMessage) with
  | None => (None, m)
  | Some msg => if isBlocked (SenderID msg) m then (None, m) else handleMessage resolve now ord msg from m
  end.

(** ** Sizes *)

Definition text_size (l : text) : Z := Z.of_nat (length l).

Lemma text_size_app l1 l2 : text_size (l1 ++ l2) = text_size l1 + text_size l2.
Proof. unfold text_size. rewrite length_app. lia. Qed.
Lemma text_size_cons c l : text_size (c :: l) = 1 + text_size l.
Proof. unfold text_size. simpl. lia. Qed.
Lemma text_size_nil : text_size [] = 0.
Proof. done. Qed.
Lemma text_size_nonneg l : 0 <= text_size l.
Proof. unfold text_size. lia. Qed.

#[local] Hint Rewrite text_size_app text_size_cons text_size_nil : size.

(** An escaped rune takes at most six bytes for each of its own. *)
Lemma escape_size l : 0 <= text_size (escape l) <= 6 * text_size l.
Proof.
  split; [apply text_size_nonneg|]. induction l as [|b0 l0 IH] using runes_ind; [done|].
  rewrite escape_cons, text_size_app. destruct (first_rune b0 l0) as [r l'] eqn:E. simpl in *.
  apply first_rune_spec in E.
  assert (text_size (escape_rune r) + 6 * text_size l' <= 6 * text_size (b0 :: l0)); [|lia].
  destruct r as [bs|]; destruct E as [E1 E2].
  - rewrite E2, text_size_app. assert (text_size (escape_rune (Some bs)) <= 6 * text_size bs); [|lia].
    destruct bs as [|c [|c' bs]]; [done| |].
    + simpl. unfold escape_ascii. repeat case_match; vm_compute; discriminate.
    + cbn [escape_rune]. case_bool_decide as H1; [by rewrite H1|].
      case_bool_decide as H2; [by rewrite H2|].
      pose proof (text_size_nonneg (c :: c' :: bs)). lia.
  - subst. rewrite text_size_cons. change (text_size (escape_rune None)) with 6. lia.
Qed.

(** The texts of a comma-separated list. *)
Lemma join_size l :
  l <> [] -> text_size (join l) = foldr (fun t s => 1 + text_size t + s) 0 l - 1.
Proof.
  induction l as [|t l IH]; [done|]. intros _. destruct l as [|t' l]; [simpl; lia|].
  change (join (t :: t' :: l)) with (t ++ comma :: join (t' :: l)).
  rewrite text_size_app, text_size_cons, IH by done. cbn [foldr]. lia.
Qed.

Definition member_size (kv : text * json) : Z := 4 + text_size (escape kv.1) + text_size (print kv.2).

Definition members_size (kvs : list (text * json)) : Z := foldr (fun kv s => member_size kv + s) 0 kvs.

Lemma members_size_app kvs1 kvs2 : members_size (kvs1 ++ kvs2) = members_size kvs1 + members_size kvs2.
Proof. induction kvs1 as [|kv kvs1 IH]; [done|]. unfold members_size in *. cbn [app foldr]. lia. Qed.

Lemma object_size kvs : kvs <> [] -> text_size (print (JObj kvs)) = 1 + members_size kvs.
Proof.
  intros Hne. cbn [print]. autorewrite with size. rewrite join_size by by destruct kvs.
  assert (forall kvs, foldr (fun t s => 1 + text_size t + s) 0
    ((fun kv => print_string kv.1 ++ colon :: print kv.2) <$> kvs)
    = members_size kvs) as ->; [|lia].
  clear. induction kvs as [|[k j] kvs IH]; [done|]. rewrite fmap_cons. cbn [foldr]. rewrite IH.
  unfold members_size. cbn [foldr]. unfold member_size, print_string. cbn [fst snd]. autorewrite with size. lia.
Qed.

Lemma array_size l :
  l <> [] -> text_size (print (JArr l)) = 1 + foldr (fun j s => 1 + text_size (print j) + s) 0 l.
Proof.
  intros Hne. cbn [print]. autorewrite with size. rewrite join_size by by destruct l.
  assert (forall l, foldr (fun t s => 1 + text_size t + s) 0 (print <$> l)
    = foldr (fun j s => 1 + text_size (print j) + s) 0 l) as ->; [|lia].
  clear. induction l as [|j l IH]; [done|]. rewrite fmap_cons. cbn [foldr]. by rewrite IH.
Qed.

Lemma string_size s : text_size (print (JStr s)) = 2 + text_size (escape s).
Proof. cbn [print]. unfold print_string. autorewrite with size. lia. Qed.

(** A decimal of [n] digits is at least [10 ^ (n - 1)]. *)
Lemma of_uint_acc_size d acc :
  Z.pos acc * 10 ^ text_size (uint_text d) <= Z.pos (Pos.of_uint_acc d acc).
Proof.
  revert acc. induction d as [|d IH|d IH|d IH|d IH|d IH|d IH|d IH|d IH|d IH|d IH]; intros acc;
    cbn [uint_text Pos.of_uint_acc]; [rewrite text_size_nil; lia|..];
    rewrite text_size_cons, Z.pow_add_r by (pose proof (text_size_nonneg (uint_text d)); lia);
    (etrans; [|apply IH]); nia.
Qed.

Lemma digits_size d n :
  canonical (uint_text d) -> 1 <= n -> Z.of_uint d < 10 ^ n -> 1 <= text_size (uint_text d) <= n.
Proof.
  intros Hd Hn Hlt. unfold Z.of_uint in Hlt.
  destruct d as [|d|d|d|d|d|d|d|d|d|d];
    try (cbn [uint_text Pos.of_uint] in *; rewrite text_size_cons;
         pose proof (text_size_nonneg (uint_text d)); split; [lia|];
         assert (text_size (uint_text d) < n); [|lia]; apply (proj2 (Z.pow_lt_mono_r_iff 10 _ n ltac:(lia) ltac:(lia)));
         eapply Z.le_lt_trans; [|exact Hlt]; etrans; [|apply of_uint_acc_size]; nia).
  - by destruct Hd as [|(? & ? & ? & _)].
  - destruct Hd as [E|(c & l & E & Hc & _)]; [rewrite E; change (1 <= 1 <= n); lia|].
    injection E as <- _. done.
Qed.

Lemma decimal_size z : - 10 ^ 19 < z < 10 ^ 20 -> 1 <= text_size (decimal z) <= 20.
Proof.
  intros Hz. destruct (decimal_shape z) as (d & Hd & [[-> E]|[-> E]]); simpl in E.
  - apply digits_size; [done|lia|]. lia.
  - rewrite text_size_cons. enough (1 <= text_size (uint_text d) <= 19) by lia.
    apply digits_size; [done|lia|]. lia.
Qed.

Lemma decimal_nonempty z : 1 <= text_size (decimal z).
Proof.
  destruct (decimal_head z) as (c & l & -> & _). rewrite text_size_cons.
  pose proof (text_size_nonneg l). lia.
Qed.

(** ** Messages *)

Definition string_bytes (s : string) : Z := text_size (escape (codes s)).

Lemma string_member name s :
  member_size (codes name, JStr (codes s)) = 6 + string_bytes name + string_bytes s.
Proof. unfold member_size, string_bytes. cbn [fst snd]. rewrite string_size. lia. Qed.

Lemma number_member name z :
  member_size (codes name, JNum (decimal z)) = 4 + string_bytes name + text_size (decimal z).
Proof. done. Qed.

#[local] Hint Rewrite string_member number_member members_size_app : size.

Ltac names name :=
  let n := eval vm_compute in (string_bytes name) in change (string_bytes name) with n.

Definition update_size (u : MembershipUpdate) : Z := text_size (print (to_json json_MembershipUpdate u)).

Lemma update_size_eq u :
  update_size u = 86 + string_bytes (u_NodeID u) + string_bytes (u_GRPCAddr u)
    + string_bytes (u_GossipAddr u) + string_bytes (u_HTTPAddr u)
    + text_size (decimal (u_Status u)) + text_size (decimal (u_Incarnation u)).
Proof.
  unfold update_size. change (to_json json_MembershipUpdate u) with (JObj [
    (codes "node_id", JStr (codes (u_NodeID u))); (codes "grpc_addr", JStr (codes (u_GRPCAddr u)));
    (codes "gossip_addr", JStr (codes (u_GossipAddr u))); (codes "http_addr", JStr (codes (u_HTTPAddr u)));
    (codes "status", JNum (decimal (u_Status u))); (codes "incarnation", JNum (decimal (u_Incarnation u)))]).
  rewrite object_size by done. unfold members_size. cbn [foldr]. autorewrite with size.
  names "node_id". names "grpc_addr". names "gossip_addr". names "http_addr". names "status".
  names "incarnation". lia.
Qed.

Definition updates_size (us : list MembershipUpdate) : Z := foldr (fun u s => 1 + update_size u + s) 0 us.

(** The members every message has. *)
Definition fixed_members (msg : SwimMessage) : list (text * json) := [
  (codes "type", JNum (decimal (Type_ msg))); (codes "sender_id", JStr (codes (SenderID msg)));
  (codes "sender_addr", JStr (codes (SenderAddr msg))); (codes "target_id", JStr (codes (TargetID msg)));
  (codes "incarnation", JNum (decimal (msg_Incarnation msg)))].

Lemma message_json msg :
  to_json json_SwimMessage msg = JObj (fixed_members msg ++
    match Updates msg with
    | [] => []
    | us => [(codes "updates", JArr (to_json json_MembershipUpdate <$> us))]
    end).
Proof. by destruct msg as [ty sid sa tid inc [|u us]]. Qed.

Lemma fixed_size msg :
  members_size (fixed_members msg) = 70 + text_size (decimal (Type_ msg)) + string_bytes (SenderID msg)
    + string_bytes (SenderAddr msg) + string_bytes (TargetID msg) + text_size (decimal (msg_Incarnation msg)).
Proof.
  unfold fixed_members, members_size. cbn [foldr]. autorewrite with size.
  names "type". names "sender_id". names "sender_addr". names "target_id". names "incarnation". lia.
Qed.

Lemma updates_array_size us :
  us <> [] -> text_size (print (JArr (to_json json_MembershipUpdate <$> us))) = 1 + updates_size us.
Proof.
  intros Hne. rewrite array_size by by destruct us. f_equal. clear Hne.
  induction us as [|u us IH]; [done|]. rewrite fmap_cons. unfold updates_size in *. cbn [foldr].
  by rewrite IH.
Qed.

Lemma packet_size_eq msg :
  packet_size msg = 71 + text_size (decimal (Type_ msg)) + string_bytes (SenderID msg)
    + string_bytes (SenderAddr msg) + string_bytes (TargetID msg) + text_size (decimal (msg_Incarnation msg))
    + match Updates msg with [] => 0 | us => 12 + updates_size us end.
Proof.
  unfold packet_size, packet, Marshal. rewrite message_json. fold (text_size (print (JObj (fixed_members msg ++
    match Updates msg with
    | [] => [] | us => [(codes "updates", JArr (to_json json_MembershipUpdate <$> us))] end)))).
  rewrite object_size by done. rewrite members_size_app, fixed_size. destruct (Updates msg) as [|u us].
  - change (members_size []) with 0. lia.
  - unfold members_size. cbn [foldr]. unfold member_size. cbn [fst snd].
    rewrite updates_array_size by done. fold (string_bytes "updates"). names "updates". lia.
Qed.

(** ** What fits *)

(** The longest names and addresses the bound below allows. *)
Definition maxName : Z := 248.

Definition short (s : string) : Prop := text_size (codes s) <= maxName.

Definition short_update (u : MembershipUpdate) : Prop :=
  short (u_NodeID u) /\ short (u_GRPCAddr u) /\ short (u_GossipAddr u) /\ short (u_HTTPAddr u).

Definition short_message (msg : SwimMessage) : Prop :=
  short (SenderID msg) /\ short (SenderAddr msg) /\ short (TargetID msg) /\
  Forall short_update (Updates msg).

Lemma string_bytes_nonneg s : 0 <= string_bytes s.
Proof. apply text_size_nonneg. Qed.

Lemma string_bytes_bounds s : short s -> 0 <= string_bytes s <= 6 * maxName.
Proof. unfold short, string_bytes. pose proof (escape_size (codes s)). lia. Qed.

Lemma int64_size z : MinInt64 <= z <= MaxInt64 -> 1 <= text_size (decimal z) <= 20.
Proof. intros Hz. apply decimal_size. unfold MinInt64, MaxInt64 in Hz. lia. Qed.

Lemma uint64_size z : 0 <= z <= MaxUint64 -> 1 <= text_size (decimal z) <= 20.
Proof. intros Hz. apply decimal_size. unfold MaxUint64 in Hz. lia. Qed.

Lemma update_size_lower u : 88 <= update_size u.
Proof.
  rewrite update_size_eq. pose proof (decimal_nonempty (u_Status u)).
  pose proof (decimal_nonempty (u_Incarnation u)). pose proof (string_bytes_nonneg (u_NodeID u)).
  pose proof (string_bytes_nonneg (u_GRPCAddr u)). pose proof (string_bytes_nonneg (u_GossipAddr u)).
  pose proof (string_bytes_nonneg (u_HTTPAddr u)). lia.
Qed.

Lemma update_size_upper u :
  gt_ok json_MembershipUpdate u -> short_update u -> update_size u <= 126 + 24 * maxName.
Proof.
  intros (_ & _ & _ & _ & Hs%int64_size & Hi%uint64_size & _)
    (?%string_bytes_bounds & ?%string_bytes_bounds & ?%string_bytes_bounds & ?%string_bytes_bounds).
  rewrite update_size_eq. lia.
Qed.

Lemma updates_size_lower us : 89 * Z.of_nat (length us) <= updates_size us.
Proof.
  induction us as [|u us IH]; [done|]. unfold updates_size in *. cbn [foldr length].
  pose proof (update_size_lower u). lia.
Qed.

Lemma updates_size_upper us :
  Forall (gt_ok json_MembershipUpdate) us -> Forall short_update us ->
  updates_size us <= (127 + 24 * maxName) * Z.of_nat (length us).
Proof.
  induction 1 as [|u us Hu _ IH]; [done|]. intros Hs. inv Hs. unfold updates_size in *.
  cbn [foldr length]. specialize (IH ltac:(done)).
  pose proof (update_size_upper u Hu ltac:(done)). unfold maxName in *. lia.
Qed.

Lemma packet_size_lower msg : 73 + 89 * Z.of_nat (length (Updates msg)) <= packet_size msg.
Proof.
  rewrite packet_size_eq. pose proof (updates_size_lower (Updates msg)).
  pose proof (decimal_nonempty (Type_ msg)). pose proof (decimal_nonempty (msg_Incarnation msg)).
  pose proof (string_bytes_nonneg (SenderID msg)). pose proof (string_bytes_nonneg (SenderAddr msg)).
  pose proof (string_bytes_nonneg (TargetID msg)). destruct (Updates msg); simpl length in *; lia.
Qed.

Lemma packet_size_upper msg :
  gt_ok json_SwimMessage msg -> short_message msg ->
  (length (Updates msg) <= maxPiggybackUpdates)%nat -> packet_size msg <= maxUDPPacketSize.
Proof.
  intros (Ht & _ & _ & _ & Hi%uint64_size & Hu & _)
    (?%string_bytes_bounds & ?%string_bytes_bounds & ?%string_bytes_bounds & Hs) Hlen.
  rewrite packet_size_eq. pose proof (updates_size_upper _ Hu Hs).
  assert (1 <= text_size (decimal (Type_ msg)) <= 20)
    by (apply uint64_size; simpl in Ht; unfold MaxUint64; lia).
  unfold maxPiggybackUpdates, maxName, maxUDPPacketSize in *.
  destruct (Updates msg); simpl length in *; lia.
Qed.

Lemma receive_fits resolve now ord msg from m :
  gt_ok json_SwimMessage msg -> gt_clean json_SwimMessage msg -> packet_size msg <= maxUDPPacketSize ->
  receive_packet resolve now ord (packet msg) from m
    = if isBlocked (SenderID msg) m then (None, m) else handleMessage resolve now ord msg from m.
Proof.
  intros Hok Hcl Hfit. unfold receive_packet. unfold packet_size in Hfit.
  rewrite take_ge by lia. unfold packet.
  pose proof (message_roundtrip_clean true MSwimMessage msg Hok Hcl) as E. cbn [describe] in E.
  by rewrite E.
Qed.

Lemma drain_length queue : queue_wf queue -> (length (drain queue).1 <= maxPiggybackUpdates)%nat.
Proof. intros H. rewrite drain_eq by done. simpl. rewrite length_fmap, length_take. lia. Qed.

(** ** Properties *)

(** C28: a gossip message whose names and addresses have at most 248 bytes of
    valid UTF-8 and which piggybacks at most ten updates, as the queue drains
    them, fits a datagram whatever has to be escaped in it, and the receive loop
    of any node handles exactly this message (or drops it when the sender is
    blocked). *)
Theorem gossip_packets_arrive (resolve : string -> option UDPAddr) (now : Time)
    (ord : list (string * loc)) (msg : SwimMessage) (queue : list queuedUpdate) (from : UDPAddr)
    (m : Membership) :
  gt_ok json_SwimMessage msg -> gt_clean json_SwimMessage msg -> short_message msg ->
  queue_wf queue -> Updates msg = (drain queue).1 ->
  packet_size msg <= maxUDPPacketSize /\
  receive_packet resolve now ord (packet msg) from m
    = if isBlocked (SenderID msg) m then (None, m) else handleMessage resolve now ord msg from m.
Proof.
  intros Hok Hcl Hs Hq Hu.
  assert (packet_size msg <= maxUDPPacketSize).
  { apply packet_size_upper; try done. rewrite Hu. by apply drain_length. }
  split; [done|]. by apply receive_fits.
Qed.

Lemma gossip_packets_arrive_witness :
  packet_size demo_ping <= maxUDPPacketSize /\
  receive_packet (fun _ => None) 0 [] (packet demo_ping) "10.0.0.1:7946"
    (NewMembership ∅ 0%nat (NewNodeRegistry "node-2"))
  = handleMessage (fun _ => None) 0 [] demo_ping "10.0.0.1:7946"
      (NewMembership ∅ 0%nat (NewNodeRegistry "node-2")).
Proof.
  apply (gossip_packets_arrive (fun _ => None) 0 [] demo_ping [mkQueued demo_update 0] "10.0.0.1:7946"
    (NewMembership ∅ 0%nat (NewNodeRegistry "node-2"))).
  - message_ok.
  - message_ok.
  - repeat first [split | constructor | done].
  - split; repeat first [constructor | done | lia | set_solver].
  - reflexivity.
Defined.

Lemma GetAll_length h nr ord :
  wf h nr -> is_range (nodes nr) ord -> length (GetAll h ord) = size (nodes nr).
Proof.
  intros Hwf Hr. rewrite <- (is_range_length _ _ Hr). unfold GetAll.
  assert (Forall (fun e => is_Some (h !! e.2)) ord) as Ho.
  { apply Forall_forall. intros [id l] He. apply (is_range_elem _ _ _ _ Hr) in He.
    destruct (Hwf id l He) as (n & Hn & _). by exists n. }
  cut (forall acc, length (fold_left (fun result e =>
    match h !! e.2 with Some info => result ++ [Clone info] | None => result end) ord acc)
    = (length acc + length ord)%nat); [intros H; apply H|]. clear Hr.
  induction Ho as [|e ord' [n Hn] _ IH]; intros acc; simpl; [lia|].
  rewrite Hn, IH, length_app. simpl. lia.
Qed.

(** C39: the reply to a join request carries the whole registry in one datagram,
    so from 736 nodes on it exceeds the largest datagram, however short the
    names are: the write fails and the joiner learns no member. *)
Theorem join_reply_overflows (ord : list (string * loc)) (from : UDPAddr) (m : Membership) :
  wf (nodeHeap m) (registry m) -> is_range (nodes (registry m)) ord -> conn m = true ->
  (736 <= size (nodes (registry m)))%nat ->
  exists reply, sent (rt (handleJoin ord from m)) = sent (rt m) ++ [(from, reply)] /\
    maxUDPPacketSize < packet_size reply.
Proof.
  intros Hwf Hr Hc Hn. eexists. unfold handleJoin, WriteToUDP. rewrite Hc. split; [done|].
  eapply Z.lt_le_trans; [|apply packet_size_lower]. cbn [Updates].
  rewrite length_fmap, (GetAll_length _ (registry m)) by done. unfold maxUDPPacketSize. lia.
Qed.

(** A seed that knows 800 nodes. *)
Definition crowd_ids : list (string * loc) := (fun i => (fmt_d (Z.of_nat i), i)) <$> seq 0 800.
Definition crowd_heap : heap :=
  list_to_map ((fun e => (e.2, mkNode e.1 "" "" "" StatusAlive 0 0 0)) <$> crowd_ids).
Definition crowd : Membership :=
  set_conn true (NewMembership crowd_heap 0%nat (mkRegistry (list_to_map crowd_ids) "0")).

Lemma crowd_wf : wf (nodeHeap crowd) (registry crowd).
Proof.
  assert (Forall (fun e => ID <$> crowd_heap !! e.2 = Some e.1) crowd_ids) as H.
  { apply (bool_decide_unpack _). vm_compute. exact I. }
  intros id l Hl. apply elem_of_list_to_map_2 in Hl. rewrite Forall_forall in H.
  specialize (H _ Hl). apply fmap_Some in H as (n & Hn & E). by exists n.
Qed.

Lemma join_reply_overflows_witness :
  exists reply, sent (rt (handleJoin (map_to_list (nodes (registry crowd))) "10.0.0.9:7946" crowd))
      = sent (rt crowd) ++ [("10.0.0.9:7946", reply)] /\
    maxUDPPacketSize < packet_size reply.
Proof.
  apply (join_reply_overflows (map_to_list (nodes (registry crowd))) "10.0.0.9:7946" crowd).
  - exact crowd_wf.
  - apply is_range_self.
  - reflexivity.
  - apply Nat.leb_le. vm_compute. reflexivity.
Defined.
