(* ===== verification/Http.v ===== *)
(** * The HTTP admin server: internal/server/http_server.go and the routes of internal/chaos/endpoints.go

    The pages of the node and the chaos endpoints on the bytes of their requests
    and responses: the routes, the method checks, the JSON bodies, the uptime as
    [time.Duration] prints it and the hit rate as [fmt] prints it. *)

From Stdlib Require Import SpecFloat.
From S2P Require Import Prelude GoLib Text Json Codec Store HashRing Chaos.

#[local] Open Scope Z_scope.

(** ** time.Duration *)

Definition Microsecond : Duration := 1000.

(** [Round]: to the nearest multiple of [m], halves away from zero, saturated. *)
Definition Round (m d : Duration) : Duration :=
  if m <=? 0 then d
  else
    let r := Z.rem d m in
    if d <? 0 then
      let r := - r in
      if r + r <? m then i64 (d + r)
      else let d1 := i64 (d - m + r) in if d1 <? d then d1 else MinInt64
    else if r + r <? m then i64 (d - r)
    else let d1 := i64 (d + m - r) in if d <? d1 then d1 else MaxInt64.

(** [fmtFrac]: the last [prec] digits of [v] without trailing zeros, in front of
    [acc], and what is left of [v]. *)
Fixpoint frac_digits (prec : nat) (v : Z) (print : bool) (acc : text) : text * bool * Z :=
  match prec with
  | O => (acc, print, v)
  | S prec =>
      let digit := v mod 10 in
      let print := print || negb (digit =? 0) in
      frac_digits prec (v / 10) print (if print then 48 + digit :: acc else acc)
  end.

Definition fmtFrac (prec : nat) (v : Z) (acc : text) : text * Z :=
  let '(acc, print, v) := frac_digits prec v false acc in (if print then 46 :: acc else acc, v).

(** The hours, minutes and seconds in front of [acc]. *)
Definition fmt_clock (u : Z) (acc : text) : text :=
  let acc := decimal (u mod 60) ++ acc in
  let u := u / 60 in
  if 0 <? u then
    let acc := decimal (u mod 60) ++ codes "m" ++ acc in
    let u := u / 60 in
    if 0 <? u then decimal u ++ codes "h" ++ acc else acc
  else acc.

(** [Duration.String] *)
Definition duration_String (d : Duration) : text :=
  let u := Z.abs d in
  let body :=
    if u <? Second then
      if u =? 0 then codes "0s"
      else
        let '(prec, unit) :=
          if u <? Microsecond then (0%nat, codes "ns")
          else if u <? Millisecond then (3%nat, codes "µs") else (6%nat, codes "ms") in
        let '(acc, u) := fmtFrac prec u unit in
        decimal u ++ acc
    else let '(acc, u) := fmtFrac 9 u (codes "s") in fmt_clock u acc in
  if d <? 0 then minus :: body else body.

Example duration_examples :
  duration_String 0 = codes "0s" /\ duration_String 1500 = codes "1.5µs" /\
  duration_String (90 * Second) = codes "1m30s" /\
  duration_String (3661 * Second + 500 * Millisecond) = codes "1h1m1.5s" /\
  duration_String (- 2 * Second) = codes "-2s".
Proof. vm_compute. auto. Qed.

(** ** fmt: ["%.2f"] of a float64

    The exact value, rounded to hundredths, halves to even. *)
Definition round_half_even (num den : Z) : Z :=
  let q := num / den in
  let r := num mod den in
  if (den <? 2 * r) || ((2 * r =? den) && Z.odd q) then q + 1 else q.

Definition hundredths (m : positive) (e : Z) : Z :=
  if 0 <=? e then Z.pos m * 2 ^ e * 100 else round_half_even (Z.pos m * 100) (2 ^ (- e)).

Definition two_digits (n : Z) : text := [48 + n / 10; 48 + n mod 10].

Definition fmt_f2 (f : float64) : text :=
  match f with
  | S754_nan => codes "NaN"
  | S754_infinity s => codes (if s then "-Inf" else "+Inf")
  | S754_zero s => codes (if s then "-0.00" else "0.00")
  | S754_finite s m e =>
      let n := hundredths m e in
      (if s then [minus] else []) ++ decimal (n / 100) ++ 46 :: two_digits (n mod 100)
  end.

(** [fmt.Sprintf("%.2f%%", float64(hits)/float64(total)*100)] *)
Definition fmt_rate (hits total : Z) : text :=
  fmt_f2 (fmul (fdiv (float64_of_int hits) (float64_of_int total)) (float64_of_int 100)) ++ codes "%".

Example rate_examples :
  fmt_rate 1 3 = codes "33.33%" /\ fmt_rate 7 7 = codes "100.00%" /\ fmt_rate 0 5 = codes "0.00%" /\
  fmt_rate 1 20000 = codes "0.01%" /\ fmt_rate 12345 99999 = codes "12.35%".
Proof. vm_compute. auto. Qed.

(** ** Requests and responses *)

Record http_request := mkRequest {
  method : string;
  path : string;
  req_body : text
}.

Record http_response := mkResponse {
  http_code : Z;
  content_type : string;
  resp_body : text
}.

(** [http.Error] *)
Definition http_Error (msg : string) (status : Z) : http_response :=
  mkResponse status "text/plain; charset=utf-8" (codes msg ++ [10]).

Definition not_allowed : http_response := http_Error "method not allowed" StatusMethodNotAllowed.

(** [writeJSON] of both packages, on the value's JSON. *)
Definition writeJSON (status : Z) (v : json) : http_response :=
  mkResponse status "application/json" (print v ++ [10]).

(** ** The server *)

(** [ad_fault] is the injector the chaos handler shares with the node. *)
Record HTTPServer := mkHTTP {
  ad_nodeID : string;
  ad_store : Store;
  ad_ring : option Ring;
  ad_startTime : Time;
  ad_fault : FaultInjector
}.

Definition NewHTTPServer (now : Time) (nodeID : string) (s : Store) (r : option Ring)
    (fi : FaultInjector) : HTTPServer :=
  mkHTTP nodeID s r now fi.

Definition set_fault (fi : FaultInjector) (h : HTTPServer) : HTTPServer :=
  mkHTTP (ad_nodeID h) (ad_store h) (ad_ring h) (ad_startTime h) fi.

Record healthResponse := mkHealth {
  h_Status : string;
  h_NodeID : string;
  h_Uptime : string
}.

Definition json_health : gotype healthResponse :=
  go_struct ("status" ::: go_string; "node_id" ::: go_string; "uptime" ::: go_string; no_fields)
    (fun r : healthResponse => (h_Status r, (h_NodeID r, (h_Uptime r, tt))))
    (fun '(s, (n, (u, _))) => mkHealth s n u).

Record metricsResponse := mkMetrics {
  m_NodeID : string;
  m_KeysCount : Z;
  m_Hits : Z;
  m_Misses : Z;
  m_Sets : Z;
  m_Deletes : Z;
  m_Expirations : Z;
  m_HitRate : string;
  m_UptimeMs : Z
}.

Definition json_metrics : gotype metricsResponse :=
  go_struct ("node_id" ::: go_string; "keys_count" ::: go_int64; "hits" ::: go_uint64;
             "misses" ::: go_uint64; "sets" ::: go_uint64; "deletes" ::: go_uint64;
             "expirations" ::: go_uint64; "hit_rate" ::: go_string; "uptime_ms" ::: go_int64; no_fields)
    (fun r : metricsResponse => (m_NodeID r, (m_KeysCount r, (m_Hits r, (m_Misses r, (m_Sets r,
       (m_Deletes r, (m_Expirations r, (m_HitRate r, (m_UptimeMs r, tt))))))))))
    (fun '(n, (k, (h, (mi, (s, (d, (e, (hr, (u, _))))))))) => mkMetrics n k h mi s d e hr u).

Record infoResponse := mkInfo {
  i_NodeID : string;
  i_Version : string;
  i_GoVersion : string;
  i_ShardCount : Z;
  i_KeysCount : Z;
  i_UptimeMs : Z;
  i_RingMembers : list string
}.

Definition json_info (isnil : bool) : gotype infoResponse :=
  go_struct ("node_id" ::: go_string; "version" ::: go_string; "go_version" ::: go_string;
             "shard_count" ::: go_int64; "keys_count" ::: go_int64; "uptime_ms" ::: go_int64;
             "ring_members" ::: go_slice go_string isnil; no_fields)
    (fun r : infoResponse => (i_NodeID r, (i_Version r, (i_GoVersion r, (i_ShardCount r, (i_KeysCount r,
       (i_UptimeMs r, (i_RingMembers r, tt))))))))
    (fun '(n, (v, (g, (s, (k, (u, (r, _))))))) => mkInfo n v g s k u r).

(** The bodies the chaos endpoints decode. *)
Definition json_failed : gotype bool :=
  go_struct ("failed" ::: go_bool; no_fields) (fun b : bool => (b, tt)) fst.

Definition json_latency : gotype Z :=
  go_struct ("latency_ms" ::: go_int64; no_fields) (fun ms : Z => (ms, tt)) fst.

Definition json_partition : gotype (string * bool) :=
  go_struct ("peer_id" ::: go_string; "partition" ::: go_bool; no_fields)
    (fun '((p, b) : string * bool) => (p, (b, tt))) (fun '(p, (b, _)) => (p, b)).

(** [FaultStatus]; its slice is made, so never [nil]. *)
Definition json_status : gotype FaultStatus :=
  go_struct ("failed" ::: go_bool; "latency_ms" ::: go_int64;
             "partitioned" ::: go_slice go_string false; no_fields)
    (fun r : FaultStatus => (fs_Failed r, (fs_LatencyMs r, (fs_Partitioned r, tt))))
    (fun '(f, (l, (p, _))) => mkFaultStatus f l p).

(** [json.NewDecoder(r.Body).Decode(&req)]: the first value of the body. *)
Definition Decode {A} (T : gotype A) (body : text) : option A :=
  '(j, _) ← parse_first body; from_json T j (gt_zero T).

Section pages.
(** The clock, the orders of the loops over the store, the ring and the
    partitioned peers, and the text of the errors of encoding/json. *)
Context (now : Time) (ords : list (list (string * Entry))) (ring_ord : list (string * bool)).
Context (part_ord : list (string * bool)) (json_error : text -> string).

Definition uptime (h : HTTPServer) : Duration := Sub now (ad_startTime h).

Definition health_page (h : HTTPServer) : healthResponse :=
  mkHealth "ok" (ad_nodeID h) (string_of_codes (duration_String (Round Second (uptime h)))).

Definition handleHealth (r : http_request) (h : HTTPServer) : http_response * HTTPServer :=
  if negb (String.eqb (method r) "GET") then (not_allowed, h)
  else (writeJSON StatusOK (to_json json_health (health_page h)), h).

Definition hit_rate (st : StoreStats) : text :=
  let total := u64 (Hits st + Misses st) in
  if 0 <? total then fmt_rate (Hits st) total else codes "N/A".

Definition metrics_page (h : HTTPServer) : metricsResponse :=
  let st := Stats (ad_store h) in
  mkMetrics (ad_nodeID h) (Len now ords) (Hits st) (Misses st) (Sets st) (Deletes st) (Expirations st)
    (string_of_codes (hit_rate st)) (Milliseconds (uptime h)).

Definition handleMetrics (r : http_request) (h : HTTPServer) : http_response * HTTPServer :=
  if negb (String.eqb (method r) "GET") then (not_allowed, h)
  else (writeJSON StatusOK (to_json json_metrics (metrics_page h)), h).

Definition info_page (h : HTTPServer) : infoResponse :=
  mkInfo (ad_nodeID h) "0.1.0" "go1.22" 256 (Len now ords) (Milliseconds (uptime h))
    (match ad_ring h with Some _ => Members ring_ord | None => [] end).

Definition handleInfo (r : http_request) (h : HTTPServer) : http_response * HTTPServer :=
  if negb (String.eqb (method r) "GET") then (not_allowed, h)
  else (writeJSON StatusOK
          (to_json (json_info (match ad_ring h with Some _ => false | None => true end)) (info_page h)), h).

(** ** The chaos endpoints

    Each answers with the status and the state of its typed handler; a map is
    written with its keys sorted. *)
Definition chaos_reply (r : Z * FaultInjector) (bad : string) (ok : json) (h : HTTPServer)
    : http_response * HTTPServer :=
  let '(status, fi) := r in
  (if status =? StatusOK then writeJSON StatusOK ok
   else if status =? StatusBadRequest then http_Error bad StatusBadRequest
   else not_allowed,
   set_fault fi h).

Definition bad_body (data : text) : string := "bad request: " +:+ json_error data.

Definition http_handleFailNode (r : http_request) (h : HTTPServer) : http_response * HTTPServer :=
  let body := Decode json_failed (req_body r) in
  chaos_reply (handleFailNode (method r) body (ad_fault h)) (bad_body (req_body r))
    (JObj [(codes "failed", JBool (default false body));
           (codes "message", JStr (codes "node failure state updated"))]) h.

Definition http_handleSlowNode (r : http_request) (h : HTTPServer) : http_response * HTTPServer :=
  let body := Decode json_latency (req_body r) in
  chaos_reply (handleSlowNode (method r) body (ad_fault h)) (bad_body (req_body r))
    (JObj [(codes "latency_ms", JNum (decimal (default 0 body)));
           (codes "message", JStr (codes "node latency updated"))]) h.

Definition http_handlePartition (r : http_request) (h : HTTPServer) : http_response * HTTPServer :=
  let body := Decode json_partition (req_body r) in
  let '(peerID, partition) := default ("", false) body in
  chaos_reply (handlePartition (method r) body (ad_fault h))
    (match body with
     | None => bad_body (req_body r)
     | Some _ => "bad request: peer_id is required"
     end)
    (JObj [(codes "message", JStr (codes "node partition state updated"));
           (codes "partition", JBool partition); (codes "peer_id", JStr (codes peerID))]) h.

Definition http_handleRecover (r : http_request) (h : HTTPServer) : http_response * HTTPServer :=
  chaos_reply (handleRecover (method r) (ad_fault h)) ""
    (JObj [(codes "message", JStr (codes "all faults recovered"))]) h.

Definition http_handleStatus (r : http_request) (h : HTTPServer) : http_response * HTTPServer :=
  match handleStatus (method r) part_ord (ad_fault h) with
  | (_, Some st) => (writeJSON StatusOK (to_json json_status st), h)
  | (_, None) => (not_allowed, h)
  end.

(** ** Routes *)

Abbreviation route := (string * (http_request -> HTTPServer -> http_response * HTTPServer))%type.

Definition registerRoutes : list route := [
  ("/health", handleHealth); ("/metrics", handleMetrics); ("/info", handleInfo)].

Definition RegisterRoutes : list route := [
  ("/chaos/fail-node", http_handleFailNode); ("/chaos/slow-node", http_handleSlowNode);
  ("/chaos/partition", http_handlePartition); ("/chaos/recover", http_handleRecover);
  ("/chaos/status", http_handleStatus)].

(** The mux of the node; [main] registers the chaos routes after the pages. *)
Definition mux : list route := registerRoutes ++ RegisterRoutes.

(** A request for a registered path; the mux answers any other by itself. *)
Definition ServeHTTP (r : http_request) (h : HTTPServer) : option (http_response * HTTPServer) :=
  (fun e => e.2.2 r h) <$> list_find (fun e => e.1 = path r) mux.
End pages.

(** ** ASCII *)

Definition ascii (l : text) : Prop := Forall (fun c => 0 <= c < 128) l.

Lemma ascii_ok l : ascii l -> Forall is_code l.
Proof. intros H. eapply Forall_impl; [exact H|]. unfold is_code. simpl. lia. Qed.

Lemma ascii_string l : ascii l -> valid_string (string_of_codes l).
Proof.
  intros H. unfold valid_string. rewrite codes_string by by apply ascii_ok. apply ascii_valid.
  eapply Forall_impl; [exact H|]. simpl. lia.
Qed.

Lemma ascii_app l1 l2 : ascii l1 -> ascii l2 -> ascii (l1 ++ l2).
Proof. intros H1 H2. by apply Forall_app. Qed.

Lemma ascii_literal s : forallb (fun c => (0 <=? c) && (c <? 128)) (codes s) = true -> ascii (codes s).
Proof.
  intros H. apply Forall_forall. intros c Hc. apply list_elem_of_In in Hc.
  apply (proj1 (forallb_forall _ _) H) in Hc. lia.
Qed.

Lemma ascii_decimal z : ascii (decimal z).
Proof.
  assert (forall d, ascii (uint_text d)) as Hd.
  { intros d. eapply Forall_impl; [apply uint_text_digits|]. unfold digit, in_range. simpl. lia. }
  destruct (decimal_shape z) as (d & _ & [[-> _]|[-> _]]); [apply Hd|].
  constructor; [|apply Hd]. unfold minus. lia.
Qed.

Lemma ascii_rate hits total : ascii (fmt_rate hits total).
Proof.
  unfold fmt_rate. apply ascii_app; [|by apply ascii_literal].
  destruct (fmul _ _) as [s|s| |s m e]; simpl; [by destruct s; apply ascii_literal..|by apply ascii_literal|].
  apply ascii_app; [destruct s; repeat constructor; unfold minus; lia|].
  apply ascii_app; [apply ascii_decimal|]. unfold two_digits.
  repeat constructor; Z.to_euclidean_division_equations; lia.
Qed.

Lemma ascii_hit_rate st : ascii (hit_rate st).
Proof. unfold hit_rate. case_match; [apply ascii_rate|by apply ascii_literal]. Qed.

(** ** Reading a page *)

(** The value a client reads from a JSON response. *)
Definition read_body {A} (T : gotype A) (r : http_response) : option A :=
  Unmarshal T (resp_body r) (gt_zero T).

Lemma read_writeJSON {A} (T : gotype A) status a :
  shallow T -> gt_ok T a -> read_body T (writeJSON status (to_json T a)) = Some (gt_san T a).
Proof.
  intros Hs Ha. unfold read_body, Unmarshal, parse. cbn [writeJSON resp_body].
  rewrite parse_first_print; [|by apply gt_json_ok|etrans; [by apply gt_nesting|done]|done].
  cbn. by apply gt_law.
Qed.

Lemma Len_range now ords : MinInt64 <= Len now ords <= MaxInt64.
Proof.
  unfold Len. apply (fold_left_inv (fun z => MinInt64 <= z <= MaxInt64)); [done|].
  intros count ord Hc. apply (fold_left_inv (fun z => MinInt64 <= z <= MaxInt64)); [done|].
  intros c kv Hk. destruct (listed now kv.2); [apply i64_range|done].
Qed.

(** ** The counters of a store in use *)

Lemma exec_expirations c s :
  0 <= Expirations (stats s) < 2 ^ 64 -> 0 <= Expirations (stats (exec c s).2) < 2 ^ 64.
Proof.
  intros H. destruct c as [t1 t2 [key|key v ttl|key|key ttl]];
    unfold exec, Get, get_read, get_reap, Set_, Delete, Expire; simpl;
    repeat case_match; simplify_eq/=; try done; apply u64_range.
Qed.

Lemma run_expirations cs s :
  0 <= Expirations (stats s) < 2 ^ 64 -> 0 <= Expirations (stats (run cs s).2) < 2 ^ 64.
Proof.
  revert s. induction cs as [|c cs IH]; intros s Hs; [done|]. simpl.
  pose proof (exec_expirations c s Hs) as Hc. destruct (exec c s) as [r s']. specialize (IH s' Hc).
  by destruct (run cs s').
Qed.

Lemma Zcount_replies rs : Zcount replied_hit rs + Zcount replied_miss rs <= Z.of_nat (length rs).
Proof.
  induction rs as [|r rs IH]; [done|]. rewrite !Zcount_cons. simpl length.
  destruct r as [[v|]| |b]; simpl; lia.
Qed.

Lemma Zcount_nonneg {A} (P : A -> bool) l : 0 <= Zcount P l.
Proof. unfold Zcount. lia. Qed.

Lemma Zcount_le {A} (P : A -> bool) l : Zcount P l <= Z.of_nat (length l).
Proof. induction l as [|x l IH]; [done|]. rewrite Zcount_cons. simpl length. destruct (P x); lia. Qed.

(** The metrics of a fresh store after a run of fewer than 2^63 commands. *)
Definition metrics_of_run (now : Time) (ords : list (list (string * Entry))) (h : HTTPServer)
    (cs : list call) (rs : list reply) : metricsResponse :=
  let hits := Zcount replied_hit rs in
  let gets := hits + Zcount replied_miss rs in
  mkMetrics (ad_nodeID h) (Len now ords) hits (Zcount replied_miss rs) (Zcount is_set cs)
    (Zcount (fun cr => is_delete cr.1 && replied_true cr.2) (zip cs rs))
    (Expirations (stats (ad_store h)))
    (string_of_codes (if 0 <? gets then fmt_rate hits gets else codes "N/A"))
    (Milliseconds (uptime now h)).

Lemma metrics_page_run now ords h c s cs :
  NewWithShards c = Some s -> ad_store h = (run cs s).2 -> Z.of_nat (length cs) < 2 ^ 63 ->
  metrics_page now ords h = metrics_of_run now ords h cs (run cs s).1.
Proof.
  intros (k & _ & ->)%NewWithShards_Some Hs Hlen.
  pose proof (run_stats cs (empty_store k) ltac:(repeat split; done)) as Hst.
  pose proof (run_length cs (empty_store k)) as Hrl.
  unfold metrics_page, metrics_of_run, Stats, Snapshot, hit_rate. rewrite Hs, Hst. cbn.
  set (rs := (run cs (empty_store k)).1) in *.
  pose proof (Zcount_replies rs). pose proof (Zcount_nonneg replied_hit rs).
  pose proof (Zcount_nonneg replied_miss rs). pose proof (Zcount_nonneg is_set cs).
  pose proof (Zcount_le is_set cs).
  pose proof (Zcount_nonneg (fun cr => is_delete cr.1 && replied_true cr.2) (zip cs rs)).
  pose proof (Zcount_le (fun cr => is_delete cr.1 && replied_true cr.2) (zip cs rs)) as Hz.
  rewrite length_zip in Hz.
  assert (2 ^ 63 < 2 ^ 64) by done.
  rewrite !u64_small by lia. done.
Qed.

Lemma metrics_in_range now ords h :
  stats_wf (stats (ad_store h)) -> 0 <= Expirations (stats (ad_store h)) < 2 ^ 64 ->
  gt_ok json_metrics (metrics_page now ords h).
Proof.
  intros (Hh & Hm & Hs & Hd) He.
  assert (forall z, 0 <= z < 2 ^ 64 -> 0 <= z <= MaxUint64) as Hle by (unfold MaxUint64; lia).
  exact (conj I (conj (Len_range now ords) (conj (Hle _ Hh) (conj (Hle _ Hm) (conj (Hle _ Hs)
    (conj (Hle _ Hd) (conj (Hle _ He) (conj I
    (conj (Milliseconds_range _ (Sub_range now (ad_startTime h))) I))))))))).
Qed.

Lemma metrics_clean now ords h :
  valid_string (ad_nodeID h) -> gt_clean json_metrics (metrics_page now ords h).
Proof.
  intros Hv. exact (conj Hv (conj I (conj I (conj I (conj I (conj I (conj I
    (conj (ascii_string _ (ascii_hit_rate _)) (conj I I))))))))).
Qed.

(** ** The uptime *)

(** Hours, minutes and seconds as they are printed. *)
Definition clock_text (hh mm ss : Z) : text :=
  if 0 <? hh then decimal hh ++ codes "h" ++ decimal mm ++ codes "m" ++ decimal ss ++ codes "s"
  else if 0 <? mm then decimal mm ++ codes "m" ++ decimal ss ++ codes "s"
  else decimal ss ++ codes "s".

Lemma fmt_clock_text n :
  0 <= n -> fmt_clock n (codes "s") = clock_text (n / 3600) (n / 60 mod 60) (n mod 60).
Proof.
  intros Hn. unfold fmt_clock, clock_text. rewrite Z.div_div by lia. change (60 * 60) with 3600.
  destruct (Z.ltb_spec 0 (n / 3600)), (Z.ltb_spec 0 (n / 60)), (Z.ltb_spec 0 (n / 60 mod 60));
    try done; exfalso; Z.to_euclidean_division_equations; lia.
Qed.

Lemma frac_digits_zeros prec n acc : frac_digits prec (n * 10 ^ Z.of_nat prec) false acc = (acc, false, n).
Proof.
  revert acc. induction prec as [|prec IH]; intros acc; [simpl; f_equal; lia|].
  cbn [frac_digits]. rewrite Nat2Z.inj_succ, Z.pow_succ_r by lia.
  replace (n * (10 * 10 ^ Z.of_nat prec)) with (n * 10 ^ Z.of_nat prec * 10) by lia.
  rewrite Z.mod_mul, Z.div_mul by lia. simpl. apply IH.
Qed.

Lemma whole_seconds n :
  0 <= n -> duration_String (n * Second) = clock_text (n / 3600) (n / 60 mod 60) (n mod 60).
Proof.
  intros Hn. unfold duration_String. rewrite Z.abs_eq by (unfold Second; lia).
  replace (n * Second <? 0) with false by (symmetry; apply Z.ltb_ge; unfold Second; lia).
  destruct (Z.ltb_spec (n * Second) Second).
  - assert (n = 0) as -> by (unfold Second in *; lia). done.
  - unfold fmtFrac. change Second with (10 ^ Z.of_nat 9). rewrite frac_digits_zeros.
    by apply fmt_clock_text.
Qed.

Lemma Round_seconds d :
  0 <= d <= MaxInt64 - Second ->
  exists n, Round Second d = n * Second /\ 0 <= n /\ 2 * Z.abs (d - n * Second) <= Second.
Proof.
  intros Hd. unfold Round. rewrite (proj2 (Z.leb_gt Second 0)) by done.
  rewrite (proj2 (Z.ltb_ge d 0)) by lia. pose proof (Z.quot_rem' d Second) as Hq.
  pose proof (Z.rem_bound_pos d Second ltac:(lia) ltac:(done)) as Hr.
  assert (0 <= Z.quot d Second) by (apply Z.quot_pos; done || lia).
  destruct (Z.ltb_spec (Z.rem d Second + Z.rem d Second) Second).
  - exists (Z.quot d Second). rewrite i64_small by (unfold MinInt64, MaxInt64 in *; lia). lia.
  - exists (Z.quot d Second + 1). rewrite i64_small by (unfold MinInt64, MaxInt64, Second in *; lia).
    rewrite (proj2 (Z.ltb_lt _ _)) by lia. lia.
Qed.

Lemma ascii_clock hh mm ss : ascii (clock_text hh mm ss).
Proof.
  unfold clock_text. repeat case_match;
    repeat first [apply ascii_app | apply ascii_decimal | by apply ascii_literal].
Qed.

(** ** Chaos requests as bytes *)

Lemma Decode_Marshal {A} (T : gotype A) a :
  shallow T -> gt_ok T a -> Decode T (Marshal T a) = Some (gt_san T a).
Proof.
  intros Hs Ha. unfold Decode, Marshal. rewrite <- (app_nil_r (print (to_json T a))).
  rewrite parse_first_print; [|by apply gt_json_ok|etrans; [by apply gt_nesting|done]|done].
  cbn. by apply gt_law.
Qed.

(** A typed request as it is sent; a body that is missing is empty. *)
Definition body_of {A} (T : gotype A) (b : option A) : text :=
  match b with Some a => Marshal T a | None => [] end.

Definition http_of (r : chaos_request) : http_request :=
  match r with
  | ReqFail m b => mkRequest m "/chaos/fail-node" (body_of json_failed b)
  | ReqSlow m b => mkRequest m "/chaos/slow-node" (body_of json_latency b)
  | ReqPartition m b => mkRequest m "/chaos/partition" (body_of json_partition b)
  | ReqRecover m => mkRequest m "/chaos/recover" []
  end.

Definition chaos_ok (r : chaos_request) : Prop :=
  match r with
  | ReqSlow _ (Some ms) => MinInt64 <= ms <= MaxInt64
  | ReqPartition _ (Some (peerID, _)) => valid_string peerID
  | _ => True
  end.

Lemma Decode_body {A} (T : gotype A) b :
  shallow T -> (forall a, b = Some a -> gt_ok T a /\ gt_clean T a) -> Decode T (body_of T b) = b.
Proof.
  intros Hs Hb. destruct b as [a|]; [|done]. destruct (Hb a eq_refl) as [Ha Hc].
  cbn [body_of]. by rewrite Decode_Marshal, gt_san_clean.
Qed.

Lemma chaos_reply_spec r bad ok h :
  r.1 ∈ [StatusOK; StatusBadRequest; StatusMethodNotAllowed] ->
  exists resp, chaos_reply r bad ok h = (resp, set_fault r.2 h) /\ http_code resp = r.1.
Proof.
  intros Hr. destruct r as [status fi]. simpl in *. eexists. split; [done|].
  apply elem_of_cons in Hr as [->|[->|[->|[]%elem_of_nil]%elem_of_cons]%elem_of_cons]; done.
Qed.

Lemma serve_status fi r : (serve fi r).1 ∈ [StatusOK; StatusBadRequest; StatusMethodNotAllowed].
Proof.
  destruct r as [m b|m b|m b|m]; simpl;
    unfold handleFailNode, handleSlowNode, handlePartition, handleRecover;
    repeat case_match; simpl; set_solver.
Qed.

Definition chaos_method (r : chaos_request) : string :=
  match r with ReqFail m _ | ReqSlow m _ | ReqPartition m _ | ReqRecover m => m end.

Lemma serve_guard fi r :
  (chaos_method r <> "POST" -> serve fi r = (StatusMethodNotAllowed, fi)) /\
  ((serve fi r).1 <> StatusOK -> (serve fi r).2 = fi).
Proof.
  destruct r as [m b|m b|m b|m]; simpl;
    unfold handleFailNode, handleSlowNode, handlePartition, handleRecover;
    (split; [intros Hm; by rewrite (proj2 (String.eqb_neq _ _) Hm)|]); repeat case_match; done.
Qed.

Lemma set_fault_id h : set_fault (ad_fault h) h = h.
Proof. by destruct h. Qed.

Section requests.
Context (now : Time) (ords : list (list (string * Entry))) (ring_ord part_ord : list (string * bool)).
Context (json_error : text -> string).

Abbreviation serve_http := (ServeHTTP now ords ring_ord part_ord json_error).

Lemma chaos_http r h :
  chaos_ok r ->
  exists resp, serve_http (http_of r) h = Some (resp, set_fault (serve (ad_fault h) r).2 h) /\
    http_code resp = (serve (ad_fault h) r).1.
Proof.
  intros Hr. pose proof (serve_status (ad_fault h) r) as Hst.
  assert (exists bad ok, serve_http (http_of r) h = Some (chaos_reply (serve (ad_fault h) r) bad ok h))
    as (bad & ok & ->).
  { destruct r as [m b|m b|m b|m]; unfold ServeHTTP; simpl;
      unfold http_handleFailNode, http_handleSlowNode, http_handlePartition; simpl.
    - rewrite Decode_body; [by eexists _, _|done|]. by intros.
    - rewrite Decode_body; [by eexists _, _|done|]. intros ms ->. split; [exact (conj Hr I)|done].
    - rewrite Decode_body; [|done|by intros [p q] ->].
      destruct (default ("", false) b) as [p q]. by eexists _, _.
    - by eexists _, _. }
  destruct (chaos_reply_spec (serve (ad_fault h) r) bad ok h Hst) as (resp & -> & Hc). by exists resp.
Qed.

(** Only the chaos endpoints change anything, and only the injector. *)
Lemma serve_http_effect r h resp h' :
  serve_http r h = Some (resp, h') ->
  h' = set_fault (ad_fault h') h /\
  (http_code resp <> StatusOK -> h' = h) /\
  (method r <> "POST" -> h' = h).
Proof.
  unfold ServeHTTP. intros ([i [p f]] & Hf & E)%fmap_Some. apply list_find_Some in Hf as (Hi & _ & _).
  apply list_elem_of_lookup_2 in Hi. simpl in E.
  assert (forall q bad ok, chaos_method q = method r ->
    (resp, h') = chaos_reply (serve (ad_fault h) q) bad ok h ->
    h' = set_fault (ad_fault h') h /\ (http_code resp <> StatusOK -> h' = h) /\ (method r <> "POST" -> h' = h))
    as Hchaos.
  { intros q bad ok Hq E'. destruct (serve_guard (ad_fault h) q) as [Hm Hs]. rewrite Hq in Hm.
    destruct (serve (ad_fault h) q) as [st fi]. injection E' as -> ->. simpl in *. split_and!; [done| |].
    - destruct (Z.eqb_spec st StatusOK); [done|]. intros _. rewrite Hs by done. apply set_fault_id.
    - intros Hp. injection (Hm Hp) as -> ->. apply set_fault_id. }
  assert (h = set_fault (ad_fault h) h) as Hid by (symmetry; apply set_fault_id).
  unfold mux, registerRoutes, RegisterRoutes in Hi. simpl in Hi.
  repeat (apply elem_of_cons in Hi as [[= -> ->]|Hi]); [..|by apply elem_of_nil in Hi].
  1-3: unfold handleHealth, handleMetrics, handleInfo in E; case_match; by injection E as -> ->.
  - by apply (Hchaos (ReqFail (method r) (Decode json_failed (req_body r))) _ _ eq_refl) in E.
  - by apply (Hchaos (ReqSlow (method r) (Decode json_latency (req_body r))) _ _ eq_refl) in E.
  - unfold http_handlePartition in E. destruct (default ("", false) _).
    by apply (Hchaos (ReqPartition (method r) (Decode json_partition (req_body r))) _ _ eq_refl) in E.
  - by apply (Hchaos (ReqRecover (method r)) _ _ eq_refl) in E.
  - unfold http_handleStatus in E. destruct (handleStatus _ _ _) as [z [st|]]; by injection E as -> ->.
Qed.
End requests.

(** ** Properties *)

(** C29: the metrics page tells the truth about the store: after any run of
    fewer than 2^63 commands on a fresh store, the JSON that GET /metrics
    answers decodes to the number of Gets that returned a value, of Gets that
    did not, of Sets and of Deletes that removed a key, to the number of listed
    keys, and to the hit rate of these numbers, which is N/A exactly when there
    was no Get; the request changes nothing. *)
Theorem metrics_report_run (now : Time) (ords : list (list (string * Entry)))
    (ring_ord part_ord : list (string * bool)) (json_error : text -> string) (body : text) (c : Z)
    (s : Store) (cs : list call) (h : HTTPServer) :
  NewWithShards c = Some s -> ad_store h = (run cs s).2 -> Z.of_nat (length cs) < 2 ^ 63 ->
  valid_string (ad_nodeID h) ->
  exists resp,
    ServeHTTP now ords ring_ord part_ord json_error (mkRequest "GET" "/metrics" body) h = Some (resp, h) /\
    http_code resp = StatusOK /\
    read_body json_metrics resp = Some (metrics_of_run now ords h cs (run cs s).1).
Proof.
  intros Hs Hst Hlen Hv. eexists. split; [done|]. split; [done|].
  rewrite <- (metrics_page_run now ords h c s cs Hs Hst Hlen).
  rewrite read_writeJSON; [|done|].
  - f_equal. by apply gt_san_clean, metrics_clean.
  - apply NewWithShards_Some in Hs as (k & _ & ->). apply metrics_in_range; rewrite Hst.
    + rewrite run_stats by (repeat split; done). apply stats_wf_tally.
    + by apply run_expirations.
Qed.

Definition demo_admin : HTTPServer :=
  mkHTTP "node-1" (run demo_calls demo_store).2 None 0 NewFaultInjector.
Definition demo_keys : list (list (string * Entry)) :=
  map_to_list <$> shards (run demo_calls demo_store).2.

Lemma metrics_report_run_witness :
  exists resp,
    ServeHTTP 200 demo_keys [] [] (fun _ => "") (mkRequest "GET" "/metrics" []) demo_admin
      = Some (resp, demo_admin) /\
    http_code resp = StatusOK /\
    read_body json_metrics resp = Some (metrics_of_run 200 demo_keys demo_admin demo_calls
      (run demo_calls demo_store).1) /\
    m_HitRate (metrics_of_run 200 demo_keys demo_admin demo_calls (run demo_calls demo_store).1) = "50.00%".
Proof.
  destruct (metrics_report_run 200 demo_keys [] [] (fun _ => "") [] 3 demo_store demo_calls demo_admin)
    as (resp & H1 & H2 & H3).
  - vm_compute. reflexivity.
  - reflexivity.
  - vm_compute. reflexivity.
  - vm_compute. reflexivity.
  - exists resp. split; [exact H1|]. split; [exact H2|]. split; [exact H3|]. vm_compute. reflexivity.
Defined.

(** The health page answers GET with status ok, the name of the node and
    its uptime in hours, minutes and seconds, within half a second of the time
    since the start, and any other method with 405. *)
Theorem health_reports_uptime (now : Time) (ords : list (list (string * Entry)))
    (ring_ord part_ord : list (string * bool)) (json_error : text -> string) (r : http_request)
    (h : HTTPServer) (d := Sub now (ad_startTime h)) :
  path r = "/health" -> valid_string (ad_nodeID h) -> 0 <= d <= MaxInt64 - Second ->
  exists resp,
    ServeHTTP now ords ring_ord part_ord json_error r h = Some (resp, h) /\
    (method r <> "GET" -> http_code resp = StatusMethodNotAllowed) /\
    (method r = "GET" -> http_code resp = StatusOK /\
     exists hh mm ss,
       0 <= hh /\ 0 <= mm < 60 /\ 0 <= ss < 60 /\
       2 * Z.abs (d - ((hh * 60 + mm) * 60 + ss) * Second) <= Second /\
       read_body json_health resp
         = Some (mkHealth "ok" (ad_nodeID h) (string_of_codes (clock_text hh mm ss)))).
Proof.
  intros Hp Hv Hd. exists (handleHealth now r h).1.
  assert (ServeHTTP now ords ring_ord part_ord json_error r h = Some (handleHealth now r h)) as ->.
  { destruct r as [m p b]. simpl in Hp. by subst p. }
  unfold handleHealth. destruct (String.eqb_spec (method r) "GET") as [Hm|Hm]; cbn [negb fst]; [|done].
  split_and!; [done|done|]. intros _. split; [done|].
  destruct (Round_seconds d Hd) as (n & Hn & Hn0 & Hb).
  exists (n / 3600), (n / 60 mod 60), (n mod 60).
  assert ((n / 3600 * 60 + n / 60 mod 60) * 60 + n mod 60 = n) as -> by div_lia.
  split_and!; try div_lia. rewrite read_writeJSON; [|done|repeat split; done]. f_equal.
  assert (health_page now h = mkHealth "ok" (ad_nodeID h)
    (string_of_codes (clock_text (n / 3600) (n / 60 mod 60) (n mod 60)))) as ->.
  { unfold health_page, uptime. fold d. by rewrite Hn, whole_seconds. }
  apply gt_san_clean.
  exact (conj eq_refl (conj Hv (conj (ascii_string _ (ascii_clock _ _ _)) I))).
Qed.

Lemma health_reports_uptime_witness :
  exists resp,
    ServeHTTP (3725 * Second) [] [] [] (fun _ => "") (mkRequest "POST" "/health" []) demo_admin
      = Some (resp, demo_admin) /\ http_code resp = StatusMethodNotAllowed.
Proof.
  destruct (health_reports_uptime (3725 * Second) [] [] [] (fun _ => "") (mkRequest "POST" "/health" [])
    demo_admin) as (resp & H1 & H2 & _).
  - reflexivity.
  - vm_compute. reflexivity.
  - vm_compute. split; discriminate.
  - exists resp. split; [exact H1|]. apply H2. discriminate.
Defined.

(** C30: the chaos endpoints work on bytes as the typed handlers do: a request
    with a JSON body (or without one) gets the status, and leaves the injector,
    that the handler gives for the decoded body; whatever is sent to the admin
    server, nothing but the injector changes, and not even that unless the
    request is a POST answered with 200. *)
Theorem chaos_over_http (now : Time) (ords : list (list (string * Entry)))
    (ring_ord part_ord : list (string * bool)) (json_error : text -> string) (r : chaos_request)
    (q : http_request) (h : HTTPServer) :
  chaos_ok r ->
  (exists resp,
     ServeHTTP now ords ring_ord part_ord json_error (http_of r) h
       = Some (resp, set_fault (serve (ad_fault h) r).2 h) /\
     http_code resp = (serve (ad_fault h) r).1) /\
  (forall resp h', ServeHTTP now ords ring_ord part_ord json_error q h = Some (resp, h') ->
     h' = set_fault (ad_fault h') h /\
     (http_code resp <> StatusOK -> h' = h) /\ (method q <> "POST" -> h' = h)).
Proof.
  intros Hr. split; [by apply chaos_http|]. intros resp h'. apply serve_http_effect.
Qed.

Lemma chaos_over_http_witness :
  exists resp,
    ServeHTTP 0 [] [] [] (fun _ => "") (mkRequest "POST" "/chaos/fail-node" (Marshal json_failed true))
      demo_admin = Some (resp, set_fault (SetFailed true NewFaultInjector) demo_admin) /\
    http_code resp = StatusOK.
Proof.
  apply (chaos_over_http 0 [] [] [] (fun _ => "") (ReqFail "POST" (Some true)) (mkRequest "" "" [])
    demo_admin). exact I.
Defined.
