(* ===== verification/Node.v ===== *)
(** * The node: cmd/cachenode/main.go

    The callbacks that [main] installs: gossip events drive the ring, and the
    ring drives the connections and the re-replication.  [SwimProps] gives the
    events a node emits; the theorem here is that the ring they build holds the
    nodes the registry believes to be up. *)

From stdpp Require Import relations.
From S2P Require Import Prelude GoLib Store HashRing Chaos Replication Registry Gossip Membership Swim SwimInv SwimProps ClusterProps.

#[local] Open Scope Z_scope.

(** ** The callbacks *)

Section callbacks.
(** The registry when the callback runs, the node's ID and whether an address
    can be dialled. *)
Context `{!SortSlice} (h : heap) (nr : NodeRegistry) (self : string) (dial : string -> bool).

(** [ring.SetOnNodeAdded(func(nodeID string) {...})] *)
Definition on_node_added (nodeID : string) (rm : ReplicationManager) : ReplicationManager :=
  match Registry.Get h nr nodeID with
  | Some (_, info) =>
      if negb (String.eqb nodeID self) then (ConnectToPeer dial nodeID (GRPCAddr info) rm).2 else rm
  | None => rm
  end.

(** [ring.SetOnNodeRemoved(func(nodeID string) {...})]; the clock and the visit
    orders are those of the loop over the store. *)
Definition on_node_removed (now : Time) (ords : list (list (string * Entry))) (r : Ring)
    (nodeID : string) (rm : ReplicationManager) : option ReplicationManager :=
  HandleNodeFailure now ords r nodeID rm.

(** [swim.SetOnEvent(func(event) {...})] *)
Definition on_event (event : MembershipEvent) (now : Time) (ords : list (list (string * Entry)))
    (st : Ring * ReplicationManager) : option (Ring * ReplicationManager) :=
  let '(r, rm) := st in
  let nodeID := ev_NodeID event in
  match ev_Type event with
  | EventJoin | EventAlive =>
      match Registry.Get h nr nodeID with
      | None => Some (r, rm)
      | Some (_, info) =>
          let '(_, cb, r) := AddNode nodeID r in
          let rm := match cb with Some id => on_node_added id rm | None => rm end in
          let rm := if negb (String.eqb nodeID self)
                    then (ConnectToPeer dial nodeID (GRPCAddr info) rm).2 else rm in
          Some (r, rm)
      end
  | EventDead | EventLeft =>
      '(_, cb, r) ← RemoveNode nodeID r;
      match cb with
      | Some id => rm ← on_node_removed now ords r id rm; Some (r, rm)
      | None => Some (r, rm)
      end
  | EventSuspect => Some (r, rm)
  end.

(** Events handled one after the other, each at its time. *)
Definition handling : Type := MembershipEvent * (Time * list (list (string * Entry))).

Fixpoint on_events (hs : list handling) (st : Ring * ReplicationManager)
    : option (Ring * ReplicationManager) :=
  match hs with
  | [] => Some st
  | (e, (now, ords)) :: hs => st ← on_event e now ords st; on_events hs st
  end.
End callbacks.

(** The ring as [main] sets it up. *)
Definition main_ring `{!SortSlice} (vnodeCount : Z) (eps : float64) (nodeID : string) : Ring :=
  SetOnNodeRemoved true (SetOnNodeAdded true (AddNode nodeID (NewRing vnodeCount eps)).2).

(** ** The nodes the events say are up *)

Definition event_effect (e : MembershipEvent) (S : gset string) : gset string :=
  match ev_Type e with
  | EventJoin | EventAlive => {[ev_NodeID e]} ∪ S
  | EventDead | EventLeft => S ∖ {[ev_NodeID e]}
  | EventSuspect => S
  end.

Definition live_set (es : list MembershipEvent) : gset string :=
  fold_left (fun S e => event_effect e S) es ∅.

(** Up in the eyes of the registry: ALIVE or SUSPECT. *)
Definition up (n : NodeInfo) : bool := (Status n =? StatusAlive) || (Status n =? StatusSuspect).

Definition live (m : Membership) (id : string) : bool := from_option up false (known m id).

Record events_ok (m : Membership) : Prop := {
  eo_ids : forall e, e ∈ events (rt m) -> ev_NodeID e <> selfID m /\ is_Some (known m (ev_NodeID e));
  eo_live : onEvent m = true -> forall id, id <> selfID m ->
    id ∈ live_set (events (rt m)) <-> live m id = true
}.

Lemma live_set_snoc es e : live_set (es ++ [e]) = event_effect e (live_set es).
Proof. unfold live_set. by rewrite fold_left_app. Qed.

(** The events an operation adds; the callback and the ID stay. *)
Definition emits (es : list MembershipEvent) (m m' : Membership) : Prop :=
  selfID m' = selfID m /\ onEvent m' = onEvent m /\
  events (rt m') = events (rt m) ++ (if onEvent m then es else []).

Lemma emits_trans es1 es2 m1 m2 m3 :
  emits es1 m1 m2 -> emits es2 m2 m3 -> emits (es1 ++ es2) m1 m3.
Proof.
  intros (A1 & B1 & C1) (A2 & B2 & C2). split_and!; [congruence|congruence|].
  rewrite C2, C1, B1, <- app_assoc. by destruct (onEvent m1).
Qed.

Ltac quiet := unfold emits; intros; repeat case_match; simplify_eq/=; rewrite ?app_nil_r; done.

Lemma emitEvent_emits e m : emits [e] m (emitEvent e m).
Proof. unfold emitEvent. quiet. Qed.

Lemma silent_refl m : emits [] m m.
Proof. quiet. Qed.

Lemma WriteToUDP_silent msg to m : emits [] m (WriteToUDP msg to m).
Proof. unfold WriteToUDP. quiet. Qed.

Lemma cancel_timer_silent id m : emits [] m (cancel_timer id m).
Proof. unfold cancel_timer. quiet. Qed.

Lemma start_timer_silent id m : emits [] m (start_timer id m).
Proof. unfold start_timer. quiet. Qed.

Lemma drainUpdates_silent m : emits [] m (drainUpdates m).2.
Proof. unfold drainUpdates. quiet. Qed.

(** An operation that leaves the registry's opinion of the others as it was. *)
Lemma events_ok_silent m m' :
  emits [] m m' -> (forall id, is_Some (known m id) -> is_Some (known m' id)) ->
  (forall id, id <> selfID m -> live m' id = live m id) -> events_ok m -> events_ok m'.
Proof.
  intros (E1 & E2 & E3) Hk Hl [H1 H2].
  assert (events (rt m') = events (rt m)) as E by (rewrite E3; case_match; apply app_nil_r).
  constructor; rewrite E1, E.
  - intros e He. destruct (H1 e He) as [? ?]. split; [done|]. by apply Hk.
  - rewrite E2. intros Hon id Hid. rewrite Hl by done. by apply H2.
Qed.

Definition event_holds (e : MembershipEvent) (before after : bool) : Prop :=
  match ev_Type e with
  | EventJoin | EventAlive => after = true
  | EventDead | EventLeft => after = false
  | EventSuspect => after = before
  end.

(** A change of opinion about one node, and its event. *)
Lemma events_ok_emit m m' e :
  emits [e] m m' -> (forall id, is_Some (known m id) -> is_Some (known m' id)) ->
  ev_NodeID e <> selfID m -> is_Some (known m' (ev_NodeID e)) ->
  (forall id, id <> ev_NodeID e -> live m' id = live m id) ->
  event_holds e (live m (ev_NodeID e)) (live m' (ev_NodeID e)) ->
  events_ok m -> events_ok m'.
Proof.
  intros (E1 & E2 & E3) Hk Hid Hkn Hl He [H1 H2].
  assert (forall e', e' ∈ events (rt m) -> ev_NodeID e' <> selfID m /\ is_Some (known m' (ev_NodeID e')))
    as Hids by (intros e' He'; destruct (H1 e' He'); split; [done|by apply Hk]).
  constructor; rewrite E1, E3.
  - intros e' [He'|He']%elem_of_app; [by apply Hids|].
    destruct (onEvent m); [|by apply elem_of_nil in He']. by apply list_elem_of_singleton in He' as ->.
  - rewrite E2. intros Hon id Hne. rewrite Hon, live_set_snoc.
    specialize (H2 Hon). unfold event_effect, event_holds in *.
    destruct (decide (id = ev_NodeID e)) as [->|Hn].
    + destruct (ev_Type e); rewrite ?He, ?elem_of_union, ?elem_of_difference, ?elem_of_singleton;
        rewrite ?H2 by done; naive_solver.
    + rewrite Hl by done.
      destruct (ev_Type e); rewrite ?elem_of_union, ?elem_of_difference, ?elem_of_singleton;
        rewrite H2 by done; naive_solver.
Qed.

(** The same from the new entry of the node. *)
Lemma events_ok_write m m' e n' :
  emits [e] m m' -> ev_NodeID e <> selfID m ->
  (forall id, known m' id = if decide (id = ev_NodeID e) then Some n' else known m id) ->
  event_holds e (live m (ev_NodeID e)) (up n') -> events_ok m -> events_ok m'.
Proof.
  intros Hem Hid Hk He. apply (events_ok_emit m m' e Hem); unfold live; try done.
  - intros id Hi. rewrite Hk. by case_decide.
  - rewrite Hk. by rewrite decide_True.
  - intros id Hne. rewrite Hk. by rewrite decide_False.
  - rewrite Hk. by rewrite decide_True.
Qed.

Lemma events_ok_same m m' :
  emits [] m m' -> (forall id, known m' id = known m id) -> events_ok m -> events_ok m'.
Proof.
  intros Hem Hk. apply events_ok_silent; [done|intros id; by rewrite Hk|].
  intros id _. unfold live. by rewrite Hk.
Qed.

(** ** The operations *)

Lemma markSuspect_events id m :
  mem_ok m -> id <> selfID m -> events_ok m -> events_ok (markSuspect id m).
Proof.
  intros Hok Hid. unfold markSuspect.
  destruct (Get (nodeHeap m) (Membership.registry m) id) as [[l n]|] eqn:HG; [|done].
  destruct ((GetStatus n =? StatusDead) || (GetStatus n =? StatusLeft)) eqn:Hd; [done|].
  destruct (GetStatus n =? StatusSuspect) eqn:Hs; [done|].
  destruct (set_node_status_ok m id l n StatusSuspect Hok HG) as [Hok1 Hk1];
    [unfold status_ok, StatusSuspect; lia|done|].
  set (m1 := queueUpdateLocked _ _). set (m2 := Membership.emitEvent _ m1).
  assert (mem_ok m1) as Hm1 by (apply enqueue_ok; [done|simpl; congruence]).
  assert (mem_ok m2) as Hm2 by by eapply same_core_ok; [apply emitEvent_core|].
  assert (selfID m2 = selfID m) as Hs2 by exact (emitEvent_selfID _ m1).
  destruct (start_timer_ok m2 id Hm2 ltac:(congruence)) as (_ & Hk & _).
  apply (events_ok_write _ _ (mkEvent EventSuspect id) (with_status StatusSuspect n)).
  - apply (emits_trans [] [_] m m1); [quiet|].
    apply (emits_trans [_] [] m1 m2); [apply emitEvent_emits|apply start_timer_silent].
  - done.
  - intros id'. rewrite Hk. subst m2. rewrite known_emitEvent. apply Hk1.
  - unfold event_holds, live. simpl. rewrite (Get_known m id l n HG). simpl.
    unfold up. simpl. destruct (ok_nodes m Hok id n (Get_known m id l n HG)) as [Hst _].
    unfold status_ok, GetStatus, StatusDead, StatusLeft, StatusSuspect, StatusAlive in *.
    apply orb_false_iff in Hd as [?%Z.eqb_neq ?%Z.eqb_neq]. apply Z.eqb_neq in Hs.
    symmetry. apply orb_true_iff. left. apply Z.eqb_eq. lia.
Qed.

Lemma markDead_events id m :
  mem_ok m -> id <> selfID m -> events_ok m -> events_ok (markDead id m).
Proof.
  intros Hok Hid. unfold markDead.
  destruct (Get (nodeHeap m) (Membership.registry m) id) as [[l n]|] eqn:HG; [|done].
  destruct (GetStatus n =? StatusDead); [done|].
  destruct (set_node_status_ok m id l n StatusDead Hok HG) as [Hok1 Hk1];
    [unfold status_ok, StatusDead; lia|done|].
  set (m1 := cancel_timer id _). set (m2 := queueUpdateLocked _ m1).
  apply (events_ok_write _ _ (mkEvent EventDead id) (with_status StatusDead n)); [|done| |done].
  - apply (emits_trans [] [_] m m2); [|apply emitEvent_emits].
    apply (emits_trans [] [] m m1); [|quiet].
    apply (emits_trans [] [] m (set_node_status StatusDead l m)); [quiet|apply cancel_timer_silent].
  - intros id'. rewrite known_emitEvent. change (known m2 id') with (known m1 id').
    subst m1. by rewrite known_cancel_timer, Hk1.
Qed.

(** The event of an update about another node. *)
Definition update_events (u : MembershipUpdate) (old : option NodeInfo) : list MembershipEvent :=
  let event t := [mkEvent t (u_NodeID u)] in
  match old with
  | None => if u_Status u =? StatusAlive then event EventJoin else []
  | Some n =>
      if u_Incarnation u <? Incarnation n then []
      else if u_Status u =? StatusAlive then
        if Status n =? StatusAlive then [] else event EventAlive
      else if u_Status u =? StatusSuspect then
        if Status n =? StatusAlive then event EventSuspect else []
      else if u_Status u =? StatusDead then
        if Status n =? StatusDead then [] else event EventDead
      else if u_Status u =? StatusLeft then event EventLeft
      else []
  end.

Lemma applyUpdate_emits now u m :
  u_NodeID u <> selfID m ->
  emits (update_events u (known m (u_NodeID u))) m (applyUpdate now u m).
Proof.
  intros Hid. unfold applyUpdate, update_events.
  destruct (String.eqb_spec (u_NodeID u) (selfID m)) as [|_]; [done|].
  destruct (Get (nodeHeap m) (Membership.registry m) (u_NodeID u)) as [[l n]|] eqn:HG.
  - rewrite (Get_known m _ l n HG). unfold GetStatus.
    repeat case_match; simplify_eq/=; try discriminate; try apply silent_refl.
    + eapply (emits_trans [] [_]); [|apply emitEvent_emits].
      eapply (emits_trans [] []); [|apply cancel_timer_silent]. quiet.
    + eapply (emits_trans [] [_]); [|apply emitEvent_emits].
      eapply (emits_trans [] []); [|apply start_timer_silent]. quiet.
    + eapply (emits_trans [] [_]); [|apply emitEvent_emits].
      eapply (emits_trans [] []); [|apply cancel_timer_silent]. quiet.
    + eapply (emits_trans [] [_]); [|apply emitEvent_emits]. quiet.
  - assert (known m (u_NodeID u) = None) as -> by (unfold known, info; by rewrite HG).
    case_match; [|apply silent_refl]. simpl.
    eapply (emits_trans [_] []); [|quiet].
    eapply (emits_trans [] [_]); [|apply emitEvent_emits]. quiet.
Qed.

Lemma applyUpdate_events now u m :
  mem_ok m -> 0 <= u_Incarnation u < MaxUint64 -> events_ok m -> events_ok (applyUpdate now u m).
Proof.
  intros Hok Hu. destruct (decide (u_NodeID u = selfID m)) as [E|Hid].
  { apply events_ok_same; [|intros id; by apply applyUpdate_self].
    unfold applyUpdate, refute. rewrite E, String.eqb_refl. quiet. }
  pose proof (applyUpdate_emits now u m Hid) as He.
  pose proof (fun id => applyUpdate_known now u m id Hok Hid Hu) as Hk.
  assert (merge now (known m (u_NodeID u)) u = known m (u_NodeID u) ->
    emits [] m (applyUpdate now u m) -> events_ok m -> events_ok (applyUpdate now u m)) as Hsame.
  { intros Hm Hem. apply events_ok_same; [done|]. intros id. rewrite Hk, Hm.
    case_decide; by subst. }
  assert (forall t n', merge now (known m (u_NodeID u)) u = Some n' ->
    emits [mkEvent t (u_NodeID u)] m (applyUpdate now u m) ->
    event_holds (mkEvent t (u_NodeID u)) (live m (u_NodeID u)) (up n') ->
    events_ok m -> events_ok (applyUpdate now u m)) as Hnew.
  { intros t n' Hm Hem. apply events_ok_write; [done|done|]. intros id. by rewrite Hk, Hm. }
  unfold live in Hnew. revert Hsame Hnew He. generalize (applyUpdate now u m).
  destruct (known m (u_NodeID u)) as [n|] eqn:Hn; unfold merge, update_events; simpl; intros m' Hsame Hnew.
  - destruct (u_Incarnation u <? Incarnation n); [by auto|].
    destruct (u_Status u =? StatusAlive).
    { destruct (Status n =? StatusAlive); [by auto|]. intros Hem. by eapply Hnew. }
    destruct (u_Status u =? StatusSuspect).
    { destruct (Status n =? StatusAlive) eqn:Ha; [|by auto]. intros Hem. eapply Hnew; [done|done|].
      unfold event_holds, up. simpl. by rewrite Ha. }
    destruct (Z.eqb_spec (u_Status u) StatusDead) as [->|]; simpl.
    { destruct (Z.eqb_spec (Status n) StatusDead) as [E|].
      - intros Hem. apply Hsame; [|done]. simpl. by rewrite <- E, with_own_status.
      - intros Hem. by eapply Hnew. }
    destruct (Z.eqb_spec (u_Status u) StatusLeft) as [->|]; [|by auto].
    intros Hem. by eapply Hnew.
  - destruct (u_Status u =? StatusAlive); [|by auto]. intros Hem. by eapply Hnew.
Qed.

Lemma apply_all_events now us m :
  Forall (fun u => 0 <= u_Incarnation u < MaxUint64) us -> mem_ok m -> events_ok m ->
  events_ok (fold_left (fun m u => applyUpdate now u m) us m).
Proof.
  intros Hus. revert m. induction Hus as [|u us Hu _ IH]; intros m Hok He; [done|]. simpl.
  apply IH; [|by apply applyUpdate_events]. by apply (applyUpdate_good now u m Hu).
Qed.

(** Operations that neither emit events nor touch the registry. *)
Definition inert (m m' : Membership) : Prop := emits [] m m' /\ forall id, known m' id = known m id.

Lemma inert_trans m1 m2 m3 : inert m1 m2 -> inert m2 m3 -> inert m1 m3.
Proof.
  intros [E1 K1] [E2 K2]. split; [exact (emits_trans [] [] _ _ _ E1 E2)|]. intros id. by rewrite K2.
Qed.

Lemma WriteToUDP_inert msg to m : inert m (WriteToUDP msg to m).
Proof. split; [apply WriteToUDP_silent|]. intros id. apply same_core_known, WriteToUDP_core. Qed.

Lemma drainUpdates_inert m : inert m (drainUpdates m).2.
Proof. split; [apply drainUpdates_silent|]. intros id. unfold drainUpdates. by case_match. Qed.

Lemma sendPing_inert resolve a id m : inert m (sendPing resolve a id m).2.
Proof.
  unfold sendPing. repeat case_match; try (split; [apply silent_refl|done]); simplify_eq/=.
  eapply inert_trans; [|apply WriteToUDP_inert].
  match goal with H : drainUpdates ?x = (_, ?y) |- _ =>
    pose proof (drainUpdates_inert x) as Hd; rewrite H in Hd end.
  eapply inert_trans; [|exact Hd]. unfold register_ack in *. simplify_eq. split; [quiet|done].
Qed.

Lemma sendPingReqs_inert resolve t shuffled m : inert m (sendPingReqs resolve t shuffled m).2.
Proof.
  unfold sendPingReqs. destruct shuffled as [|n l]; [split; [apply silent_refl|done]|]. simpl.
  set (m1 := set_pendingAcks _ _). assert (inert m m1) as H by (split; [quiet|done]).
  revert H. generalize m1.
  generalize (if (pingReqCount m <? S (length l))%nat then take (pingReqCount m) (n :: l) else n :: l).
  intros ps. clear. induction ps as [|p ps IH]; intros m1 Hm1; [done|]. simpl. apply IH.
  unfold send_ping_req. repeat case_match; try done.
  eapply inert_trans; [exact Hm1|apply WriteToUDP_inert].
Qed.

Lemma JoinCluster_inert resolve w seeds m : inert m (JoinCluster resolve w seeds m).2.
Proof.
  unfold JoinCluster. destruct seeds as [|a seeds]; [split; [apply silent_refl|done]|].
  set (f := join_seed resolve w _).
  assert (forall l jm, inert jm.2 (fold_left f l jm).2) as Hf.
  { induction l as [|x l IH]; intros [j m1]; [split; [apply silent_refl|done]|]. simpl fold_left.
    eapply inert_trans; [|apply IH]. subst f. unfold join_seed.
    repeat case_match; try (split; [apply silent_refl|done]). apply WriteToUDP_inert. }
  specialize (Hf (a :: seeds) (false, m)).
  destruct (fold_left f (a :: seeds) (false, m)) as [[] m']; exact Hf.
Qed.

Lemma Stop_timers_inert m : inert m (Stop_timers m).
Proof.
  unfold Stop_timers. generalize ((map_to_list (suspicionTimers m)).*2). intros ts.
  revert m. induction ts as [|t ts IH]; intros m; [split; [apply silent_refl|done]|]. simpl.
  eapply inert_trans; [|apply IH]. split; [quiet|done].
Qed.

Lemma events_ok_inert m m' : inert m m' -> events_ok m -> events_ok m'.
Proof. intros [? ?]. by apply events_ok_same. Qed.

Lemma handleAck_events now msg m : mem_ok m -> events_ok m -> events_ok (handleAck now msg m).
Proof.
  intros Hok. pose proof (fun id => known_handleAck now msg m id Hok) as Hk.
  apply events_ok_silent.
  - unfold handleAck. quiet.
  - intros id [n Hn]. rewrite Hk, Hn. by eexists.
  - intros id _. unfold live. rewrite Hk. destruct (known m id); [|done]. simpl. by case_decide.
Qed.

Lemma Stop_leave_events m : mem_ok m -> events_ok m -> events_ok (Stop_leave m).
Proof.
  intros Hok. destruct (ok_wf m Hok _ _ (ok_self m Hok)) as (n & Hn & Hid).
  assert (Get (nodeHeap m) (Membership.registry m) (selfID m) = Some (selfInfo m, n)) as HG
    by (apply Get_Some; split; [apply (ok_self m Hok)|done]).
  destruct (set_node_status_ok m _ _ n StatusLeft Hok HG) as [_ Hk];
    [unfold status_ok, StatusLeft; lia|by right|].
  apply events_ok_silent; [quiet| |].
  - intros id [n' Hn']. change (is_Some (known (set_node_status StatusLeft (selfInfo m) m) id)).
    rewrite Hk. case_decide; [by eexists|by exists n'].
  - intros id Hne. unfold live.
    change (known (Stop_leave m) id) with (known (set_node_status StatusLeft (selfInfo m) m) id).
    rewrite Hk. by rewrite decide_False.
Qed.

Lemma handleMessage_events resolve now ord msg from m :
  incarnations_ok msg -> mem_ok m -> events_ok m ->
  events_ok (handleMessage resolve now ord msg from m).2.
Proof.
  intros Hm Hok He. unfold handleMessage. set (m1 := fold_left _ _ m).
  assert (mem_ok m1) as Hok1 by by apply (apply_all_good now _ m Hm).
  assert (events_ok m1) as He1 by by apply apply_all_events.
  clearbody m1. repeat case_match; simpl; [| | | |done].
  - unfold handlePing. pose proof (drainUpdates_inert m1) as H'.
    destruct (drainUpdates m1) as [us m2]. eapply events_ok_inert, He1.
    eapply inert_trans; [exact H'|apply WriteToUDP_inert].
  - by apply handleAck_events.
  - unfold handlePingReq. destruct (Get _ _ _) as [[l n]|]; [|done].
    pose proof (sendPing_inert resolve (GossipAddr n) (TargetID msg) m1) as H'.
    destruct (sendPing resolve (GossipAddr n) (TargetID msg) m1). by eapply events_ok_inert.
  - eapply events_ok_inert, He1. apply WriteToUDP_inert.
Qed.

Lemma probe_indirect_events resolve target shuffled m :
  mem_ok m -> ID target <> selfID m -> events_ok m ->
  events_ok (probe_indirect resolve target shuffled m).2.
Proof.
  intros Hok Hid He. unfold probe_indirect.
  pose proof (sendPingReqs_inert resolve (ID target) shuffled m) as Hi.
  pose proof (sendPingReqs_core resolve (ID target) shuffled m) as Hc.
  destruct (sendPingReqs resolve (ID target) shuffled m) as [[ch|] m1]; simpl in *.
  - by eapply events_ok_inert.
  - apply markSuspect_events; [by eapply same_core_ok| |by eapply events_ok_inert].
    by destruct Hc as [-> _].
Qed.

Lemma step_events resolve n n' :
  step resolve n n' -> node_ok n -> events_ok (mem n) -> events_ok (mem n').
Proof.
  intros Hstep (Hok & Htg & _) He. unfold target_ok in Htg.
  destruct Hstep; simpl in *; try done;
    try (apply (events_ok_inert m); [split; [quiet|done]|done]).
  - pose proof (handleMessage_events resolve now ord msg from m H0 Hok He) as Hg. by rewrite H2 in Hg.
  - eapply events_ok_inert, He. apply WriteToUDP_inert.
  - eapply events_ok_inert, He. pose proof (sendPing_inert resolve (GossipAddr target) (ID target) m) as Hi.
    by rewrite H1 in Hi.
  - apply candidates_ne in H0.
    assert (m' = m) as -> by (unfold sendPing in H1; repeat case_match; by simplify_eq).
    pose proof (probe_indirect_events resolve target shuffled m Hok H0 He) as Hg. by rewrite H3 in Hg.
  - pose proof (probe_indirect_events resolve target shuffled (ack_timeout (ID target) m)) as Hg.
    rewrite H0 in Hg. apply Hg; [by eapply same_core_ok, Hok; apply ack_timeout_core|done|].
    apply (events_ok_inert m); [split; [quiet|done]|done].
  - pose proof (probe_indirect_events resolve target shuffled m Hok Htg He) as Hg. by rewrite H1 in Hg.
  - apply markSuspect_events; [by eapply same_core_ok, Hok; apply ack_timeout_core|done|].
    apply (events_ok_inert m); [split; [quiet|done]|done].
  - by apply markSuspect_events.
  - assert (nodeID <> selfID m) as Hid.
    { apply (ok_firing m Hok). rewrite H, elem_of_app, elem_of_cons. tauto. }
    apply markDead_events; [|done|].
    + constructor; try apply Hok. simpl. intros id' Hid'. apply (ok_firing m Hok).
      rewrite H, elem_of_app, elem_of_cons. rewrite elem_of_app in Hid'. tauto.
    + apply (events_ok_inert m); [split; [quiet|done]|done].
  - eapply events_ok_inert, He. pose proof (JoinCluster_inert resolve write_ok seeds m) as Hi.
    by rewrite H in Hi.
  - by apply Stop_leave_events.
  - eapply events_ok_inert, He. apply Stop_timers_inert.
Qed.

Lemma boot_events now id g s h cb fi : events_ok (mem (boot now id g s h cb fi)).
Proof.
  constructor.
  - by intros e []%elem_of_nil.
  - intros _ id' Hne. unfold live. rewrite boot_known.
    rewrite decide_False by exact Hne. simpl. unfold live_set. simpl. set_solver.
Qed.

Lemma steps_events resolve n n' :
  rtc (step resolve) n n' -> node_ok n -> events_ok (mem n) -> events_ok (mem n').
Proof.
  induction 1 as [n|n1 n2 n3 H12 _ IH]; intros Hn He; [done|].
  apply IH; [by apply (step_ok resolve n1 n2 H12)|by eapply step_events].
Qed.

(** ** The ring and the connections *)

Lemma HandleNodeFailure_total now ords r id rm :
  ring_wf r -> dom (HashRing.nodes r) <> ∅ -> rm_wf rm ->
  exists rm', HandleNodeFailure now ords r id rm = Some rm' /\ rm_wf rm' /\
    peerConns rm' = delete id (peerConns rm).
Proof.
  intros Hr Hne Hrm. unfold HandleNodeFailure, reReplicateForDeadNode. rewrite ForEach_all by done.
  destruct (rereplicate_all now r Hr Hne (visited now ords)
    (set_conns (delete id (peerConns rm)) rm) Hrm) as (rm' & Hf & _ & E & Hc & _).
  exists rm'. split_and!; [done| |done]. unfold rm_wf in *. by rewrite E.
Qed.

Section drives.
Context `{!SortSlice} (h : heap) (nr : NodeRegistry) (self : string) (dial : string -> bool).

(** The connection to a node that is on the ring. *)
Definition connection (id : string) : option string :=
  n ← info h nr id; if dial (GRPCAddr n) then Some (GRPCAddr n) else None.

(** What the callbacks keep: a sound ring with this node on it, and connections
    to exactly the others. *)
Record drive_ok (r : Ring) (rm : ReplicationManager) : Prop := {
  dr_ring : ring_wf r;
  dr_rm : rm_wf rm;
  dr_added : onNodeAdded r = true;
  dr_removed : onNodeRemoved r = true;
  dr_self : self ∈ dom (HashRing.nodes r);
  dr_conns : forall id, id <> self -> peerConns rm !! id =
    if decide (id ∈ dom (HashRing.nodes r)) then connection id else None
}.

Lemma ConnectToPeer_twice id addr rm :
  (ConnectToPeer dial id addr (ConnectToPeer dial id addr rm).2).2 = (ConnectToPeer dial id addr rm).2.
Proof.
  unfold ConnectToPeer. destruct (peerConns rm !! id) as [a|] eqn:E; simpl; [by rewrite E|].
  destruct (dial addr) eqn:D; simpl; [by rewrite lookup_insert_eq|by rewrite E].
Qed.

Lemma ConnectToPeer_conns id addr rm id' :
  peerConns (ConnectToPeer dial id addr rm).2 !! id' =
  if decide (id' = id)
  then match peerConns rm !! id with
       | Some a => Some a
       | None => if dial addr then Some addr else None
       end
  else peerConns rm !! id'.
Proof.
  unfold ConnectToPeer. destruct (peerConns rm !! id) as [a|] eqn:E; simpl.
  - case_decide; by subst.
  - destruct (dial addr); simpl; case_decide; subst; rewrite ?lookup_insert_eq; try done.
    by rewrite lookup_insert_ne.
Qed.

Lemma ConnectToPeer_wf id addr rm : rm_wf rm -> rm_wf (ConnectToPeer dial id addr rm).2.
Proof. unfold ConnectToPeer. by repeat case_match. Qed.

Lemma up_event_ok id t now ords r rm n l :
  drive_ok r rm -> t = EventJoin \/ t = EventAlive -> id <> self -> Get h nr id = Some (l, n) ->
  exists r' rm', on_event h nr self dial (mkEvent t id) now ords (r, rm) = Some (r', rm') /\
    drive_ok r' rm' /\ dom (HashRing.nodes r') = {[id]} ∪ dom (HashRing.nodes r).
Proof.
  intros [Hr Hrm Ha Hd Hs Hc] Ht Hid HG.
  pose proof (AddNode_wf id r Hr) as Hr'. pose proof (dom_AddNode id r Hr) as Hdom.
  assert (String.eqb id self = false) as Hneq by by apply String.eqb_neq.
  exists (AddNode id r).2, (ConnectToPeer dial id (GRPCAddr n) rm).2. split_and!; [| |done].
  - unfold on_event. simpl. rewrite HG. destruct Ht as [-> | ->]; simpl.
    all: destruct (AddNode id r) as [[ok cb] r'] eqn:E; simpl.
    all: rewrite Hneq; simpl; unfold AddNode in E; rewrite Ha in E.
    all: destruct (HasNode r id); simplify_eq; simpl; [done|].
    all: unfold on_node_added; rewrite HG, Hneq; simpl; by rewrite ConnectToPeer_twice.
  - constructor; try done.
    + by apply ConnectToPeer_wf.
    + unfold AddNode. by case_match.
    + unfold AddNode. by case_match.
    + rewrite Hdom. apply elem_of_union. by right.
    + intros id' Hid'. rewrite ConnectToPeer_conns. destruct (decide (id' = id)) as [->|Hne].
      * rewrite decide_True by (rewrite Hdom, elem_of_union, elem_of_singleton; by left).
        rewrite Hc by done. unfold connection, info. rewrite HG. simpl.
        repeat case_match; by simplify_eq.
      * rewrite Hc by done. rewrite Hdom. apply decide_ext.
        rewrite elem_of_union, elem_of_singleton. tauto.
Qed.

Lemma down_event_ok id t now ords r rm :
  drive_ok r rm -> t = EventDead \/ t = EventLeft -> id <> self ->
  exists r' rm', on_event h nr self dial (mkEvent t id) now ords (r, rm) = Some (r', rm') /\
    drive_ok r' rm' /\ dom (HashRing.nodes r') = dom (HashRing.nodes r) ∖ {[id]}.
Proof.
  intros [Hr Hrm Ha Hd Hs Hc] Ht Hid.
  destruct (RemoveNode_Some id r Hr) as (ok & cb & r' & E).
  pose proof (RemoveNode_wf id r ok cb r' Hr E) as Hr'.
  assert (on_event h nr self dial (mkEvent t id) now ords (r, rm)
    = match cb with
      | Some id => rm ← on_node_removed now ords r' id rm; Some (r', rm)
      | None => Some (r', rm)
      end) as -> by (unfold on_event; simpl; destruct Ht as [-> | ->]; by rewrite E).
  unfold RemoveNode in E. rewrite Hd in E. destruct (HasNode r id) eqn:Hh; simpl in E.
  - destruct (_ <? 0); [done|]. simplify_eq.
    set (r' := mkRing _ _ (delete id (HashRing.nodes r)) _ _ _ _) in *.
    assert (dom (HashRing.nodes r') = dom (HashRing.nodes r) ∖ {[id]}) as Hdom
      by apply dom_delete_L.
    assert (self ∈ dom (HashRing.nodes r')) as Hs'
      by (rewrite Hdom; apply elem_of_difference; by rewrite elem_of_singleton).
    destruct (HandleNodeFailure_total now ords r' id rm Hr') as (rm' & Hf & Hrm' & Hc'); [|done|].
    { intros E0. rewrite E0 in Hs'. by apply elem_of_empty in Hs'. }
    exists r', rm'. unfold on_node_removed. rewrite Hf. split_and!; [done| |done].
    constructor; try done. intros id' Hid'. rewrite Hc', Hdom.
    destruct (decide (id' = id)) as [->|Hne].
    + rewrite lookup_delete_eq. rewrite decide_False; [done|].
      rewrite elem_of_difference, elem_of_singleton. tauto.
    + rewrite lookup_delete_ne by done. rewrite Hc by done. apply decide_ext.
      rewrite elem_of_difference, elem_of_singleton. tauto.
  - simplify_eq. exists r', rm. split_and!; [done|done|]. apply set_eq. intros x.
    assert (id ∉ dom (HashRing.nodes r')) as Hn by (rewrite <- HasNode_dom by done; by rewrite Hh).
    rewrite elem_of_difference, elem_of_singleton. split; [|tauto]. intros Hx. split; [done|].
    by intros ->.
Qed.

Lemma on_event_ok e now ords r rm :
  drive_ok r rm -> ev_NodeID e <> self -> is_Some (info h nr (ev_NodeID e)) ->
  exists r' rm', on_event h nr self dial e now ords (r, rm) = Some (r', rm') /\
    drive_ok r' rm' /\ dom (HashRing.nodes r') = event_effect e (dom (HashRing.nodes r)).
Proof.
  intros Hok Hid [n Hn]. apply info_Some in Hn as [l HG]. destruct e as [t id]. simpl in *.
  destruct t; unfold event_effect; simpl.
  - by apply (up_event_ok id EventJoin now ords r rm n l); [|left|..].
  - by apply (up_event_ok id EventAlive now ords r rm n l); [|right|..].
  - by exists r, rm.
  - by apply (down_event_ok id EventDead); [|left|].
  - by apply (down_event_ok id EventLeft); [|right|].
Qed.

Lemma on_events_ok (hs : list handling) r rm :
  drive_ok r rm ->
  Forall (fun e => ev_NodeID e <> self /\ is_Some (info h nr (ev_NodeID e))) hs.*1 ->
  exists r' rm', on_events h nr self dial hs (r, rm) = Some (r', rm') /\ drive_ok r' rm' /\
    dom (HashRing.nodes r') = fold_left (fun S e => event_effect e S) hs.*1 (dom (HashRing.nodes r)).
Proof.
  revert r rm. induction hs as [|[e [now ords]] hs IH]; intros r rm Hok Hall; [by exists r, rm|].
  apply Forall_cons in Hall as [[Hid Hk] Hall].
  destruct (on_event_ok e now ords r rm Hok Hid Hk) as (r1 & rm1 & E & Hok1 & Hd1).
  cbn [on_events]. rewrite E. cbn [mbind option_bind fmap list_fmap fst fold_left].
  rewrite <- Hd1. by apply IH.
Qed.
End drives.

(** Events about other nodes leave this one where it is. *)
Lemma effects_self self es S :
  Forall (fun e => ev_NodeID e <> self) es ->
  fold_left (fun S e => event_effect e S) es ({[self]} ∪ S)
  = {[self]} ∪ fold_left (fun S e => event_effect e S) es S.
Proof.
  intros Hall. revert S. induction Hall as [|e es He _ IH]; intros S; [done|]. simpl.
  rewrite <- IH. f_equal. apply set_eq. intros x. unfold event_effect.
  destruct (ev_Type e); rewrite ?elem_of_union, ?elem_of_difference, ?elem_of_union,
    ?elem_of_singleton; naive_solver.
Qed.

Lemma main_ring_ok `{!SortSlice} h nr dial count eps self k :
  drive_ok h nr self dial (main_ring count eps self) (NewReplicationManager self k) /\
  dom (HashRing.nodes (main_ring count eps self)) = {[self]} ∪ ∅.
Proof.
  pose proof (AddNode_wf self (NewRing count eps) (NewRing_wf count eps)) as [].
  assert (dom (HashRing.nodes (main_ring count eps self)) = {[self]} ∪ ∅) as Hd
    by exact (dom_AddNode self (NewRing count eps) (NewRing_wf count eps)).
  split; [|done]. constructor; try done.
  - apply NewReplicationManager_wf.
  - rewrite Hd. apply elem_of_union. left. by apply elem_of_singleton.
  - intros id Hid. simpl peerConns. rewrite Hd, decide_False; [apply lookup_empty|].
    rewrite elem_of_union, elem_of_singleton. intros [?|?%elem_of_empty]; done.
Qed.


Definition demo_handlings : list handling := (fun e => (e, (5, []))) <$> events (rt (mem node_a')).


(** ** Events handled out of order *)

(** [a] learns of [b], of its death, and of its return. *)
Definition return_gossip : SwimMessage :=
  mkMsg MsgAck "c" "c:2" "" 0
    [mkUpdate "b" "b:1" "b:2" "b:3" StatusAlive 0; mkUpdate "b" "" "" "" StatusDead 0;
     mkUpdate "b" "b:1" "b:2" "b:3" StatusAlive 1].

Definition ord_r : list (string * loc) :=
  map_to_list (Registry.nodes (Membership.registry
    (fold_left (fun m u => applyUpdate 2 u m) (Updates return_gossip) mem_a))).
Definition mem_r : Membership := (handleMessage demo_resolve 2 ord_r return_gossip "c:2" mem_a).2.
Definition node_r : node := mkNodeState mem_r RRead PTick.

Lemma node_r_reachable : reachable demo_resolve node_r.
Proof.
  do 7 eexists. apply rtc_once.
  apply (receive_step demo_resolve mem_a PTick 2 ord_r return_gossip "c:2" None).
  - reflexivity.
  - unfold incarnations_ok, MaxUint64. repeat constructor; simpl; lia.
  - apply is_range_self.
  - vm_compute. reflexivity.
Qed.

(** The last two events the other way round. *)
Definition swapped : list handling :=
  [(mkEvent EventJoin "b", (5, [])); (mkEvent EventAlive "b", (6, [])); (mkEvent EventDead "b", (7, []))].

Definition handle_all (n : node) (hs : list handling) : option (Ring * ReplicationManager) :=
  on_events (nodeHeap (mem n)) (Membership.registry (mem n)) (selfID (mem n)) (fun _ => true) hs
    (main_ring 3 f_0_25 (selfID (mem n)), NewReplicationManager (selfID (mem n)) 3).

(** The order of the events matters and is not kept: each event is handled
    by a goroutine of its own, and there is a reachable state and an order of
    its events that leaves a node that the registry has as ALIVE off the ring,
    with no event left that would bring it back. *)
Theorem events_out_of_order :
  exists n hs r rm, reachable demo_resolve n /\ hs.*1 ≡ₚ events (rt (mem n)) /\
    handle_all n hs = Some (r, rm) /\
    (Status <$> known (mem n) "b") = Some StatusAlive /\ "b" ∉ dom (HashRing.nodes r).
Proof.
  destruct (handle_all node_r swapped) as [[r rm]|] eqn:E; [|vm_compute in E; discriminate].
  exists node_r, swapped, r, rm. split_and!; [apply node_r_reachable| |done|vm_compute; reflexivity|].
  - change (events (rt (mem node_r)))
      with (events (rt (handleMessage demo_resolve 2 ord_r return_gossip "c:2" mem_a).2)).
    replace (events _) with [mkEvent EventJoin "b"; mkEvent EventDead "b"; mkEvent EventAlive "b"]
      by (vm_compute; reflexivity).
    simpl. apply Permutation_skip, Permutation_swap.
  - assert (((fun st => HashRing.nodes st.1 !! "b") <$> handle_all node_r swapped) = Some None) as H
      by (vm_compute; reflexivity).
    apply not_elem_of_dom. revert E H. generalize (handle_all node_r swapped).
    intros o -> H. by injection H.
Qed.
