(* ===== verification/Client.v ===== *)
(** * The client: client/client.go

    The SDK routes a key with a ring of its own and keeps hot values in an L1
    cache.  What it needs of the nodes is the class [CacheService]; the cluster
    of [Server] is an instance of it.  [Coherent] is the promise the client's
    read-your-writes theorem rests on, and [cluster_coherent] discharges it. *)

From S2P Require Import Prelude GoLib Store L1Cache HashRing Chaos Replication Server ClusterProps.

#[local] Open Scope Z_scope.

(** ** The service a client talks to

    A connection is the address it was dialled at.  [call_*] is [conn.Invoke]:
    the error or the reply, and the state of the nodes after it; [clk] gives
    the readings of their clocks. *)
Class CacheService (St : Type) := {
  call_get : (string -> nat -> Time) -> string -> string -> St -> (rpc_error + GetResponse) * St;
  call_set : (string -> nat -> Time) -> string -> string -> bytes -> Z -> St -> (rpc_error + bool) * St;
  call_delete : (string -> nat -> Time) -> string -> string -> St -> (rpc_error + bool) * St;
  call_ping : (string -> nat -> Time) -> string -> St -> (rpc_error + PingResponse) * St
}.

(** ** State *)

Record Client := mkClient {
  ring : Ring;
  conns : gmap string string;
  addrs : gmap string string;
  l1Cache : option L1Cache;
  dialTimeout : Duration;
  requestTimeout : Duration
}.

Definition set_l1 (x : option L1Cache) (c : Client) : Client :=
  mkClient (ring c) (conns c) (addrs c) x (dialTimeout c) (requestTimeout c).

Inductive client_error :=
  | NoNodes                                   (* no nodes available *)
  | NoConnection (nodeID : string)            (* no connection for node *)
  | UnknownNode (nodeID : string)             (* unknown node *)
  | Connecting (nodeID addr : string)         (* connecting to *)
  | Failed (op key : string) (err : rpc_error).

(** The functional options. *)
Definition Option : Type := Client -> Client.

Definition WithDialTimeout (d : Duration) : Option := fun c =>
  mkClient (ring c) (conns c) (addrs c) (l1Cache c) d (requestTimeout c).
Definition WithRequestTimeout (d : Duration) : Option := fun c =>
  mkClient (ring c) (conns c) (addrs c) (l1Cache c) (dialTimeout c) d.
Definition WithL1Cache (capacity : Z) (defaultTTL : Duration) : Option := fun c =>
  set_l1 (Some (NewL1Cache capacity defaultTTL)) c.

(** [dial] tells whether a node answers at an address in time. *)
Definition addNode `{!SortSlice} (dial : string -> bool) (nodeID addr : string) (c : Client)
    : bool * Client :=
  if dial addr then
    (true, mkClient (AddNode nodeID (ring c)).2 (<[nodeID := addr]> (conns c))
             (<[nodeID := addr]> (addrs c)) (l1Cache c) (dialTimeout c) (requestTimeout c))
  else (false, c).

(** The loop of [NewClient]; [nodes] in the order of the [range]. *)
Fixpoint add_nodes `{!SortSlice} (dial : string -> bool) (nodes : list (string * string))
    (c : Client) : client_error + Client :=
  match nodes with
  | [] => inr c
  | (nodeID, addr) :: nodes =>
      match addNode dial nodeID addr c with
      | (true, c) => add_nodes dial nodes c
      | (false, _) => inl (Connecting nodeID addr)
      end
  end.

Definition NewClient `{!SortSlice} (dial : string -> bool) (nodes : list (string * string))
    (opts : list Option) : client_error + Client :=
  let c := mkClient (NewRing 150 f_0_25) ∅ ∅ None (5 * Second) (3 * Second) in
  add_nodes dial nodes (fold_left (fun c (opt : Option) => opt c) opts c).

(** The connection and the node it belongs to. *)
Definition getConn (c : Client) (key : string) : client_error + (string * string) :=
  match HashRing.GetNode (ring c) key with
  | None => inl NoNodes
  | Some nodeID =>
      match conns c !! nodeID with
      | None => inl (NoConnection nodeID)
      | Some conn => inr (conn, nodeID)
      end
  end.

(** ** Operations *)

Section operations.
Context `{!CacheService St}.

(** What is left of [Get] when the L1 cache has no answer. *)
Definition fetch (now : Time) (clk : string -> nat -> Time) (key : string) (c : Client) (st : St)
    : (client_error + bytes * bool) * Client * St :=
  match getConn c key with
  | inl e => (inl e, c, st)
  | inr (conn, _) =>
      match call_get clk conn key st with
      | (inl e, st) => (inl (Failed "get" key e), c, st)
      | (inr resp, st) =>
          let c :=
            match l1Cache c with
            | Some l1 =>
                if gr_Found resp && gr_IsHot resp
                then set_l1 (Some (L1Cache.Set_ now l1 key (gr_Value resp)
                       (DurationOfMs (gr_TtlMs resp)))) c
                else c
            | None => c
            end in
          (inr (gr_Value resp, gr_Found resp), c, st)
      end
  end.

(** [now1] and [now2] are read by the L1 cache, before and after the call. *)
Definition Get (now1 now2 : Time) (clk : string -> nat -> Time) (key : string) (c : Client) (st : St)
    : (client_error + bytes * bool) * Client * St :=
  match l1Cache c with
  | None => fetch now2 clk key c st
  | Some l1 =>
      match L1Cache.Get now1 l1 key with
      | (Some val, l1) => (inr (val, true), set_l1 (Some l1) c, st)
      | (None, l1) => fetch now2 clk key (set_l1 (Some l1) c) st
      end
  end.

(** [c.l1Cache.Delete(key)] when there is one. *)
Definition invalidate (key : string) (c : Client) : Client :=
  match l1Cache c with
  | Some l1 => set_l1 (Some (L1Cache.Delete l1 key)) c
  | None => c
  end.

Definition Set_ (clk : string -> nat -> Time) (key : string) (value : bytes) (ttl : Duration)
    (c : Client) (st : St) : option client_error * Client * St :=
  let c := invalidate key c in
  match getConn c key with
  | inl e => (Some e, c, st)
  | inr (conn, _) =>
      match call_set clk conn key value (Milliseconds ttl) st with
      | (inl e, st) => (Some (Failed "set" key e), c, st)
      | (inr _, st) => (None, c, st)
      end
  end.

Definition Delete (clk : string -> nat -> Time) (key : string) (c : Client) (st : St)
    : (client_error + bool) * Client * St :=
  let c := invalidate key c in
  match getConn c key with
  | inl e => (inl e, c, st)
  | inr (conn, _) =>
      match call_delete clk conn key st with
      | (inl e, st) => (inl (Failed "delete" key e), c, st)
      | (inr existed, st) => (inr existed, c, st)
      end
  end.

Definition Ping (clk : string -> nat -> Time) (nodeID : string) (c : Client) (st : St)
    : (client_error + PingResponse) * St :=
  match conns c !! nodeID with
  | None => (inl (UnknownNode nodeID), st)
  | Some conn =>
      match call_ping clk conn st with
      | (inl e, st) => (inl (Failed "ping" nodeID e), st)
      | (inr resp, st) => (inr resp, st)
      end
  end.
End operations.

Definition NodeForKey (c : Client) (key : string) : client_error + string :=
  match HashRing.GetNode (ring c) key with
  | None => inl NoNodes
  | Some nodeID => inr nodeID
  end.

Definition Nodes (ord : list (string * bool)) : list string := Members ord.

(** [close_ok] tells whether closing a connection succeeds; [ord] is the order
    of the [range]; the result is the node of the first error. *)
Definition Close (close_ok : string -> bool) (ord : list (string * string)) (c : Client)
    : option string * Client :=
  (fold_left (fun firstErr e =>
     match firstErr with
     | None => if close_ok e.2 then None else Some e.1
     | Some _ => firstErr
     end) ord None,
   mkClient (ring c) ∅ (addrs c) (L1Cache.Clear <$> l1Cache c) (dialTimeout c) (requestTimeout c)).

(** ** The invariant of a client *)

Record client_ok (c : Client) : Prop := {
  cl_ring : ring_wf (ring c);
  cl_idle : forall id load, loads (ring c) !! id = Some load -> load = 0;
  cl_count : nodeVnodes (ring c) = 150;
  cl_conns : dom (nodes (ring c)) = dom (conns c);
  cl_l1 : forall l1, l1Cache c = Some l1 -> l1_wf l1
}.

(** The options of the package. *)
Definition standard (o : Option) : Prop :=
  (exists d, o = WithDialTimeout d) \/ (exists d, o = WithRequestTimeout d) \/
  exists cap ttl, o = WithL1Cache cap ttl.

Lemma option_ok o c : standard o -> client_ok c -> client_ok (o c) /\ conns (o c) = conns c.
Proof.
  intros [[d ->]|[[d ->]|(cap & ttl & ->)]] []; (split; [|done]); constructor; try done.
  simpl. intros l1 [= <-]. apply NewL1Cache_wf.
Qed.

Lemma options_ok opts c :
  Forall standard opts -> client_ok c ->
  client_ok (fold_left (fun c (opt : Option) => opt c) opts c) /\
  conns (fold_left (fun c (opt : Option) => opt c) opts c) = conns c.
Proof.
  intros Hs. revert c. induction Hs as [|o opts Ho _ IH]; intros c Hc; [done|]. simpl.
  destruct (option_ok o c Ho Hc) as [Hc' <-]. by apply IH.
Qed.

Lemma addNode_ok `{!SortSlice} id addr c :
  client_ok c ->
  client_ok (mkClient (AddNode id (ring c)).2 (<[id := addr]> (conns c)) (<[id := addr]> (addrs c))
    (l1Cache c) (dialTimeout c) (requestTimeout c)).
Proof.
  intros []. constructor; simpl; [by apply AddNode_wf| | | |done].
  - intros id' load. unfold AddNode. case_match; simpl; [by apply cl_idle0|].
    rewrite lookup_insert_Some. intros [[_ <-]|[_ H']]; [done|by eapply cl_idle0].
  - unfold AddNode. by case_match.
  - by rewrite dom_AddNode, cl_conns0, dom_insert_L.
Qed.

(** With distinct IDs that all answer, [NewClient] connects to all of them. *)
Lemma add_nodes_ok `{!SortSlice} dial ord c :
  client_ok c -> Forall (fun e => dial e.2 = true) ord -> NoDup ord.*1 ->
  exists c', add_nodes dial ord c = inr c' /\ client_ok c' /\ l1Cache c' = l1Cache c /\
    conns c' = list_to_map ord ∪ conns c.
Proof.
  intros Hc Hd. revert c Hc. induction Hd as [|[id addr] ord Hd _ IH]; intros c Hc Hnd.
  { exists c. simpl. by rewrite (left_id_L ∅ (∪)). }
  apply NoDup_cons in Hnd as [Hn Hnd]. simpl in *. unfold addNode. rewrite Hd.
  destruct (IH _ (addNode_ok id addr c Hc) Hnd) as (c' & E & Hok & Hl & Hcs).
  exists c'. split_and!; [done|done|done|]. rewrite Hcs. simpl.
  rewrite <- insert_union_l. rewrite insert_union_r; [done|].
  by apply not_elem_of_list_to_map_1.
Qed.

Lemma add_nodes_fails `{!SortSlice} dial ord c id addr :
  (id, addr) ∈ ord -> dial addr = false -> exists e, add_nodes dial ord c = inl e.
Proof.
  intros Hin Hd. revert c. induction ord as [|[i a] ord IH]; intros c; [by apply elem_of_nil in Hin|].
  simpl. unfold addNode. destruct (dial a) eqn:Ha; [|by eexists].
  apply IH. apply elem_of_cons in Hin as [[= -> ->]|]; [congruence|done].
Qed.

Lemma getConn_ok c key :
  client_ok c -> dom (conns c) <> ∅ ->
  exists id addr, head (preference (ring c) key) = Some id /\ conns c !! id = Some addr /\
    getConn c key = inr (addr, id).
Proof.
  intros [] Hne. unfold getConn.
  pose proof (GetNode_idle_is_primary (ring c) key cl_ring0 cl_idle0) as H.
  rewrite GetNodes_preference in H by (done || lia). injection H as H.
  pose proof (preference_member (ring c) cl_ring0 ltac:(congruence) key) as Hp.
  destruct (preference (ring c) key) as [|id l] eqn:E; [done|]. simpl in H.
  destruct (HashRing.GetNode (ring c) key) as [id'|]; simpl in H; [|done].
  injection H as <-. assert (id ∈ dom (conns c)) as Hin.
  { rewrite <- cl_conns0. apply (elem_of_preference (ring c) key id cl_ring0). rewrite E. left. }
  apply elem_of_dom in Hin as [addr Ha]. exists id, addr. by rewrite Ha.
Qed.

Lemma new_client_ok `{!SortSlice} :
  client_ok (mkClient (NewRing 150 f_0_25) ∅ ∅ None (5 * Second) (3 * Second)).
Proof. split; simpl; [apply NewRing_wf|done|done| |done]. by rewrite !dom_empty_L. Qed.


(** ** Histories of a client *)

Section history.
Context `{!CacheService St}.

Inductive client_op :=
  | OpGet (now1 now2 : Time) (clk : string -> nat -> Time) (key : string)
  | OpSet (clk : string -> nat -> Time) (key : string) (value : bytes) (ttl : Duration)
  | OpDelete (clk : string -> nat -> Time) (key : string).

Definition step (o : client_op) (s : Client * St) : Client * St :=
  let '(c, st) := s in
  match o with
  | OpGet now1 now2 clk key => let '(_, c, st) := Get now1 now2 clk key c st in (c, st)
  | OpSet clk key value ttl => let '(_, c, st) := Set_ clk key value ttl c st in (c, st)
  | OpDelete clk key => let '(_, c, st) := Delete clk key c st in (c, st)
  end.

Definition run (os : list client_op) (s : Client * St) : Client * St :=
  fold_left (fun s o => step o s) os s.

Definition writes (key : string) (o : client_op) : bool :=
  match o with
  | OpGet _ _ _ _ => false
  | OpSet _ k _ _ | OpDelete _ k => String.eqb k key
  end.

(** The bindings of the L1 cache. *)
Definition cached (c : Client) : list (string * (bytes * Time)) :=
  match l1Cache c with Some l1 => abs l1 | None => [] end.

Definition default_ttl (c : Client) : Duration :=
  match l1Cache c with Some l1 => defaultTTL l1 | None => 0 end.

Definition l1_ok (c : Client) : Prop := forall l1, l1Cache c = Some l1 -> l1_wf l1.

(** The life of a reply in the L1 cache. *)
Definition effective_ttl (c : Client) (resp : GetResponse) : Duration :=
  if DurationOfMs (gr_TtlMs resp) <=? 0 then default_ttl c else DurationOfMs (gr_TtlMs resp).

(** Where a binding comes from: a fetch of the history, with no write since. *)
Definition origin (os : list client_op) (s : Client * St) (key : string) (v : bytes) (d : Time) : Prop :=
  exists before after now1 now2 clk c0 st0 conn id resp,
    os = before ++ OpGet now1 now2 clk key :: after /\
    run before s = (c0, st0) /\ getConn c0 key = inr (conn, id) /\
    (call_get clk conn key st0).1 = inr resp /\ gr_Found resp = true /\ gr_IsHot resp = true /\
    gr_Value resp = v /\ d = now2 + effective_ttl s.1 resp /\
    Forall (fun o => writes key o = false) after.

Lemma run_snoc os o s : run (os ++ [o]) s = step o (run os s).
Proof. unfold run. by rewrite fold_left_app. Qed.

Lemma origin_snoc os o s key v d :
  writes key o = false -> origin os s key v d -> origin (os ++ [o]) s key v d.
Proof.
  intros Ho (before & after & now1 & now2 & clk & c0 & st0 & conn & id & resp & -> & H).
  exists before, (after ++ [o]), now1, now2, clk, c0, st0, conn, id, resp.
  split; [by rewrite <- app_assoc|]. destruct_and! H. split_and!; try done.
  apply Forall_app. split; [done|]. by constructor.
Qed.

(** What the operations of the L1 cache leave in it. *)
Lemma elem_of_lru_set cap k v d l b :
  b ∈ lru_set cap k v d l -> b = (k, (v, d)) \/ b ∈ l /\ b.1 <> k.
Proof.
  unfold lru_set. intros H. assert (b ∈ (k, (v, d)) :: lru_remove k l) as H'
    by (eapply elem_of_sublist; [exact H|apply sublist_take]).
  apply elem_of_cons in H' as [?|H']; [by left|]. right. unfold lru_remove in H'.
  apply list_elem_of_filter in H'. tauto.
Qed.

Lemma lru_find_elem k v d l : lru_find k l = Some (v, d) -> (k, (v, d)) ∈ l.
Proof. apply elem_of_list_to_map_2. Qed.

Lemma elem_of_lru_get now k l b : b ∈ (lru_get now k l).2 -> b ∈ l.
Proof.
  unfold lru_get, lru_remove. destruct (lru_find k l) as [[v d]|] eqn:E; [|done].
  apply lru_find_elem in E. destruct (d <? now); simpl.
  - intros H%list_elem_of_filter. tauto.
  - intros [->|H]%elem_of_cons; [done|]. apply list_elem_of_filter in H. tauto.
Qed.

(** A binding after a fetch was there before or is the reply. *)
Lemma fetch_cached now clk key c st res c' st' :
  l1_ok c -> fetch now clk key c st = (res, c', st') ->
  l1_ok c' /\ default_ttl c' = default_ttl c /\
  forall k v d, (k, (v, d)) ∈ cached c' -> (k, (v, d)) ∈ cached c \/
    exists conn id resp, k = key /\ getConn c key = inr (conn, id) /\
      (call_get clk conn key st).1 = inr resp /\ gr_Found resp = true /\ gr_IsHot resp = true /\
      gr_Value resp = v /\ d = now + effective_ttl c resp.
Proof.
  intros Hok. unfold fetch. destruct (getConn c key) as [e|[conn id]] eqn:Hg;
    [intros [= _ <- _]; auto|].
  destruct (call_get clk conn key st) as [[e|resp] st1] eqn:Hcall; [intros [= _ <- _]; auto|].
  intros [= _ <- _]. destruct (l1Cache c) as [l1|] eqn:Hl1; [|auto].
  destruct (gr_Found resp && gr_IsHot resp) eqn:Hh; [|auto].
  apply andb_true_iff in Hh as [Hf Hh].
  destruct (Set_spec now l1 key (gr_Value resp) (DurationOfMs (gr_TtlMs resp)) (Hok l1 Hl1))
    as (Hwf & Ha & _ & Hdt).
  unfold l1_ok, default_ttl, cached, effective_ttl, default_ttl. simpl. rewrite Hl1.
  split_and!; [by intros ? [= <-]|done|]. intros k v d. rewrite Ha.
  intros [[= -> -> ->]|[? _]]%elem_of_lru_set; [right|by left].
  exists conn, id, resp. by rewrite Hcall.
Qed.

Lemma Get_cached now1 now2 clk key c st res c' st' :
  l1_ok c -> Get now1 now2 clk key c st = (res, c', st') ->
  l1_ok c' /\ default_ttl c' = default_ttl c /\
  forall k v d, (k, (v, d)) ∈ cached c' -> (k, (v, d)) ∈ cached c \/
    exists conn id resp, k = key /\ getConn c key = inr (conn, id) /\
      (call_get clk conn key st).1 = inr resp /\ gr_Found resp = true /\ gr_IsHot resp = true /\
      gr_Value resp = v /\ d = now2 + effective_ttl c resp.
Proof.
  intros Hok. unfold Get. destruct (l1Cache c) as [l1|] eqn:Hl1; [|by apply fetch_cached].
  destruct (Get_spec now1 l1 key (Hok l1 Hl1)) as (_ & Ha & Hwf & _ & Hdt).
  destruct (L1Cache.Get now1 l1 key) as [o l1'] eqn:Hget. simpl in *.
  set (c1 := set_l1 (Some l1') c).
  assert (l1_ok c1) as Hok1 by by intros ? [= <-].
  assert (default_ttl c1 = default_ttl c) as Hd1 by (unfold default_ttl; simpl; by rewrite Hl1).
  assert (forall b, b ∈ cached c1 -> b ∈ cached c) as Hsub.
  { intros b. unfold cached. simpl. rewrite Hl1, Ha. apply elem_of_lru_get. }
  destruct o as [val|].
  - intros [= _ <- _]. split_and!; [done|done|]. intros k v d H. left. by apply Hsub.
  - intros Hf. destruct (fetch_cached now2 clk key c1 st res c' st' Hok1 Hf) as (H1 & H2 & H3).
    split_and!; [done|congruence|]. intros k v d [H|H]%H3; [left; by apply Hsub|].
    right. destruct H as (conn & id & resp & ? & ? & ? & ? & ? & ? & ->). exists conn, id, resp.
    split_and!; try done. unfold effective_ttl. by rewrite Hd1.
Qed.

Lemma invalidate_cached key c :
  l1_ok c -> l1_ok (invalidate key c) /\ default_ttl (invalidate key c) = default_ttl c /\
  forall b, b ∈ cached (invalidate key c) -> b ∈ cached c /\ b.1 <> key.
Proof.
  intros Hok. unfold invalidate. destruct (l1Cache c) as [l1|] eqn:Hl1.
  - destruct (Delete_spec l1 key (Hok l1 Hl1)) as (Hwf & Ha & _ & Hd).
    unfold l1_ok, default_ttl, cached. simpl. rewrite Hl1, Ha. split_and!; [by intros ? [= <-]|done|].
    intros b Hb. unfold lru_remove in Hb. apply list_elem_of_filter in Hb. tauto.
  - split_and!; [done|done|]. unfold cached. rewrite Hl1. by intros b []%elem_of_nil.
Qed.

Lemma step_client o c st :
  match o with
  | OpGet now1 now2 clk key => True
  | OpSet _ key _ _ | OpDelete _ key => (step o (c, st)).1 = invalidate key c
  end.
Proof.
  destruct o; simpl; [done| |].
  - unfold Set_. by repeat case_match; simplify_eq/=.
  - unfold Delete. by repeat case_match; simplify_eq/=.
Qed.

(** Every binding of the L1 cache has its origin in the history. *)
Lemma run_cached os s :
  l1_ok s.1 -> cached s.1 = [] ->
  l1_ok (run os s).1 /\ default_ttl (run os s).1 = default_ttl s.1 /\
  forall k v d, (k, (v, d)) ∈ cached (run os s).1 -> origin os s k v d.
Proof.
  intros Hok0 Hnil. induction os as [|o os (Hok & Hd & Horig)] using rev_ind.
  { split_and!; [done|done|]. simpl. rewrite Hnil. by intros k v d []%elem_of_nil. }
  rewrite run_snoc. destruct (run os s) as [c st] eqn:Hrun. simpl in *.
  assert (forall key, (step o (c, st)).1 = invalidate key c -> (forall k, k <> key -> writes k o = false) ->
    l1_ok (step o (c, st)).1 /\ default_ttl (step o (c, st)).1 = default_ttl s.1 /\
    forall k v d, (k, (v, d)) ∈ cached (step o (c, st)).1 -> origin (os ++ [o]) s k v d) as Hw.
  { intros key -> Hkey. destruct (invalidate_cached key c Hok) as (H1 & H2 & H3).
    split_and!; [done|congruence|]. intros k v d [H Hne]%H3.
    apply origin_snoc; [by apply Hkey|by apply Horig]. }
  pose proof (step_client o c st) as Hs.
  destruct o as [now1 now2 clk key|clk key value ttl|clk key].
  - simpl. destruct (Get now1 now2 clk key c st) as [[res c'] st'] eqn:Hget. simpl.
    destruct (Get_cached now1 now2 clk key c st res c' st' Hok Hget) as (H1 & H2 & H3).
    split_and!; [done|congruence|].
    intros k v d [H|(conn & id & resp & -> & Hg & Hc & Hf & Hh & Hv & ->)]%H3.
    { apply origin_snoc; [done|by apply Horig]. }
    exists os, [], now1, now2, clk, c, st, conn, id, resp.
    unfold effective_ttl. rewrite Hd. by split_and!.
  - apply (Hw key Hs). intros k Hne. simpl. by apply String.eqb_neq.
  - apply (Hw key Hs). intros k Hne. simpl. by apply String.eqb_neq.
Qed.

End history.

(** ** What a client needs to read its writes

    [Coherent conn key node good holds]: in the states [good], the node behind
    [conn] acknowledges a Set of [key], after which [holds] tells the entry that
    [node], whose clock decides on the expiry, has; and it answers a Get with it
    while it is live.  This is what the cluster promises to the client. *)
Class Coherent `{!CacheService St} (conn key node : string) (good : St -> Prop)
    (holds : Entry -> St -> Prop) : Prop := {
  coherent_set clk v ttlMs st :
    good st -> exists st', call_set clk conn key v ttlMs st = (inr true, st') /\ good st' /\
      holds (written (clk node) v ttlMs) st';
  coherent_get clk e st :
    good st -> holds e st -> IsExpired (clk node 0%nat) e = false ->
    IsExpired (clk node 2%nat) e = false ->
    exists hot st', call_get clk conn key st = (inr (mkGetResponse key (Value e) true 0 hot), st') /\
      good st' /\ holds e st'
}.

Section coherent.
Context `{!CacheService St} {conn key node : string} {good : St -> Prop} {holds : Entry -> St -> Prop}.
Context `{!Coherent conn key node good holds}.

Fixpoint get_all (gets : list (Time * Time * (string -> nat -> Time))) (c : Client) (st : St)
    : list (client_error + bytes * bool) :=
  match gets with
  | [] => []
  | (now1, now2, clk) :: gets =>
      let '(res, c, st) := Get now1 now2 clk key c st in res :: get_all gets c st
  end.

(** The cache has no other value of the key. *)
Definition cached_only (v : bytes) (c : Client) : Prop :=
  forall w d, (key, (w, d)) ∈ cached c -> w = v.

Lemma fetch_getConn now clk c st : getConn (fetch now clk key c st).1.2 key = getConn c key.
Proof. unfold fetch. by repeat case_match. Qed.

Lemma Get_getConn now1 now2 clk c st : getConn (Get now1 now2 clk key c st).1.2 key = getConn c key.
Proof.
  unfold Get. repeat case_match; try done; by rewrite fetch_getConn.
Qed.

Lemma fetch_coherent now clk id c st e :
  getConn c key = inr (conn, id) -> good st -> holds e st ->
  IsExpired (clk node 0%nat) e = false -> IsExpired (clk node 2%nat) e = false ->
  exists c' st', fetch now clk key c st = (inr (Value e, true), c', st') /\ good st' /\ holds e st'.
Proof.
  intros Hg Hst He H0 H2. unfold fetch. rewrite Hg.
  destruct (coherent_get clk e st Hst He H0 H2) as (hot & st' & -> & Hst' & He').
  by eexists _, st'.
Qed.

Lemma L1_Get_cached now l1 k v l1' :
  l1_wf l1 -> L1Cache.Get now l1 k = (Some v, l1') -> exists d, (k, (v, d)) ∈ abs l1.
Proof.
  intros Hwf Hget. destruct (Get_spec now l1 k Hwf) as (Hv & _). rewrite Hget in Hv.
  unfold lru_get in Hv. destruct (lru_find k (abs l1)) as [[v' d]|] eqn:Hf; [|done].
  apply lru_find_elem in Hf. destruct (d <? now); [done|]. simpl in Hv. injection Hv as <-.
  by exists d.
Qed.

Lemma Get_coherent now1 now2 clk id c st e :
  l1_ok c -> cached_only (Value e) c -> getConn c key = inr (conn, id) -> good st -> holds e st ->
  IsExpired (clk node 0%nat) e = false -> IsExpired (clk node 2%nat) e = false ->
  exists c' st', Get now1 now2 clk key c st = (inr (Value e, true), c', st') /\
    good st' /\ holds e st' /\ l1_ok c' /\ cached_only (Value e) c'.
Proof.
  intros Hok Honly Hg Hst He H0 H2.
  assert (exists c' st', Get now1 now2 clk key c st = (inr (Value e, true), c', st') /\
    good st' /\ holds e st') as (c' & st' & Hget & Hst' & He').
  { unfold Get. destruct (l1Cache c) as [l1|] eqn:Hl1; [|by apply (fetch_coherent now2 clk id)].
    destruct (L1Cache.Get now1 l1 key) as [[val|] l1'] eqn:Hl; [|by apply (fetch_coherent now2 clk id)].
    destruct (L1_Get_cached now1 l1 key val l1' (Hok l1 Hl1) Hl) as [d Hd].
    unfold cached_only, cached in Honly. rewrite Hl1 in Honly. rewrite (Honly val d Hd).
    by eexists _, st. }
  exists c', st'. destruct (Get_cached now1 now2 clk key c st _ c' st' Hok Hget) as (Hok' & _ & Hc).
  split_and!; try done. intros w d [Hin|(conn' & id' & resp & _ & Hg' & Hcall & _ & _ & <- & _)]%Hc.
  - by apply (Honly w d).
  - rewrite Hg in Hg'. injection Hg' as <- <-.
    destruct (coherent_get clk e st Hst He H0 H2) as (hot & st1 & Heq & _).
    rewrite Heq in Hcall. by injection Hcall as <-.
Qed.

Lemma get_all_coherent id e gets c st :
  l1_ok c -> cached_only (Value e) c -> getConn c key = inr (conn, id) -> good st -> holds e st ->
  Forall (fun g => IsExpired (g.2 node 0%nat) e = false /\ IsExpired (g.2 node 2%nat) e = false) gets ->
  get_all gets c st = (fun _ => inr (Value e, true)) <$> gets.
Proof.
  intros Hok Honly Hg Hst He Hall. revert c st Hok Honly Hg Hst He.
  induction Hall as [|[[now1 now2] clk] gets [H0 H2] _ IH]; intros c st Hok Honly Hg Hst He; [done|].
  destruct (Get_coherent now1 now2 clk id c st e Hok Honly Hg Hst He H0 H2)
    as (c' & st' & Hget & Hst' & He' & Hok' & Honly').
  pose proof (Get_getConn now1 now2 clk c st) as Hg'. rewrite Hget in Hg'. simpl in Hg'.
  simpl. rewrite Hget. f_equal. apply IH; try done. by rewrite Hg'.
Qed.

(** C10: a client reads its own writes, with or without an L1 cache and however
    many times: when the node its ring gives for the key is coherent, its Set
    succeeds, and every Get it makes before the entry's deadline returns the
    value, whether it is answered by the node or by the L1 cache. *)
Theorem client_reads_its_writes (clk : string -> nat -> Time) (id : string) (v : bytes) (ttl : Duration)
    (c : Client) (st : St) (gets : list (Time * Time * (string -> nat -> Time)))
    (e := written (clk node) v (Milliseconds ttl)) :
  l1_ok c -> getConn c key = inr (conn, id) -> good st ->
  Forall (fun g => IsExpired (g.2 node 0%nat) e = false /\ IsExpired (g.2 node 2%nat) e = false) gets ->
  exists c1 st1, Set_ clk key v ttl c st = (None, c1, st1) /\
    get_all gets c1 st1 = (fun _ => inr (v, true)) <$> gets.
Proof.
  intros Hok Hg Hst Hall. unfold Set_.
  assert (getConn (invalidate key c) key = getConn c key) as Hgi by (unfold invalidate; by case_match).
  rewrite Hgi, Hg.
  destruct (coherent_set clk v (Milliseconds ttl) st Hst) as (st1 & -> & Hst1 & He).
  exists (invalidate key c), st1. split; [done|].
  destruct (invalidate_cached key c Hok) as (Hok' & _ & Hc).
  change v with (Value e). apply (get_all_coherent id e); try done; [|congruence].
  intros w d [_ Hne]%Hc. done.
Qed.
End coherent.

(** ** The cluster as a service *)

Section cluster_service.
(** The network between the nodes, whose deadline ends a delay, the node that
    listens at an address and the order of the loop over the store. *)
Context (net : string -> string -> bool) (cancelled : string -> bool).
Context (node_at : string -> option string) (ords : string -> list (list (string * Entry))).

(** A call is handled by the node at the address; it has the fuel to visit
    every node.  A panic ends the server: the client sees the connection break. *)
Definition serve (clk : string -> nat -> Time) (conn : string) (q : request) (c : cluster)
    : (rpc_error + response) * cluster :=
  let broken := ErrUnavailable "connection error" in
  match node_at conn with
  | None => (inl broken, c)
  | Some id =>
      match handle net cancelled clk (S (S (size c))) id q c with
      | Answered r c => (r, c)
      | _ => (inl broken, c)
      end
  end.

Definition reply {A} (f : response -> option A) (r : (rpc_error + response) * cluster)
    : (rpc_error + A) * cluster :=
  match r with
  | (inl e, c) => (inl e, c)
  | (inr resp, c) =>
      match f resp with
      | Some x => (inr x, c)
      | None => (inl (ErrHandler "unexpected reply"), c)
      end
  end.

#[local] Instance cluster_service : CacheService cluster := {
  call_get clk conn key c :=
    reply (fun r => match r with RGet r => Some r | _ => None end) (serve clk conn (GetRequest key) c);
  call_set clk conn key v ttlMs c :=
    reply (fun r => match r with RSet b => Some b | _ => None end)
      (serve clk conn (SetRequest key v ttlMs) c);
  call_delete clk conn key c :=
    reply (fun r => match r with RDelete b => Some b | _ => None end)
      (serve clk conn (DeleteRequest key) c);
  call_ping clk conn c :=
    match id ← node_at conn; cs ← c !! id; Some (id, cs) with
    | Some (id, cs) =>
        match gate (cancelled id) cs with
        | Some e => (inl e, c)
        | None => (inr (Server.Ping (clk id 0%nat) (ords id) cs), c)
        end
    | None => (inl (ErrUnavailable "connection error"), c)
    end
}.

(** A healthy cluster keeps the promise for a connection to any node that is
    not a secondary of the key. *)
Context (count : Z) (U : gset string) (key : string) (pref : list string) (rc : Z).
Context (p b conn : string).
Context (Hnet : forall x y, net x y = true) (Hrc : 1 <= rc) (Hp : head pref = Some p).
Context (Hconn : node_at conn = Some b) (Hb : b = p \/ b ∉ take (Z.to_nat rc) pref).

Definition serving (c : cluster) : Prop :=
  all_healthy count U cancelled key pref rc c /\ is_Some (c !! b) /\ is_Some (c !! p).

Definition primary_holds (e : Entry) (c : cluster) : Prop :=
  exists cs, c !! p = Some cs /\ contents (cs_store cs) !! key = Some e.

Lemma reader_primary : reader pref rc p b = p.
Proof. unfold reader. case_decide; [by destruct Hb|done]. Qed.

Lemma dom_is_Some (c c' : cluster) id : dom c' = dom c -> is_Some (c !! id) -> is_Some (c' !! id).
Proof. intros Hd H. apply elem_of_dom. rewrite Hd. by apply elem_of_dom. Qed.

#[local] Instance cluster_coherent : Coherent conn key p serving primary_holds.
Proof.
  constructor.
  - intros clk v ttlMs c (Hc & Hcb & [csp Hcp]).
    destruct (handle_set count U cancelled key pref rc p Hp net Hnet clk (size c) v ttlMs b c csp Hc Hcb Hcp)
      as (c1 & csp1 & seq & Hh & Hc1 & Hd & Hp1 & Hk & _).
    exists c1. split_and!; [|split_and!; [done|by eapply dom_is_Some|by eexists]|by exists csp1].
    cbn [call_set cluster_service]. unfold serve. by rewrite Hconn, Hh.
  - intros clk e c (Hc & Hcb & Hcp) (cs & Hcs & Hk) H0 H2.
    destruct (handle_get count U cancelled key pref rc p Hp net Hnet clk (size c) b c cs e)
      as (hot & c2 & cs2 & Hh & Hc2 & Hd & Hr & Hk2 & _); rewrite ?reader_primary in *; try done.
    exists hot, c2. split_and!; [|split_and!; [done|by eapply dom_is_Some|by eexists]|].
    + cbn [call_get cluster_service]. unfold serve. by rewrite Hconn, Hh.
    + exists cs2. split; [done|by apply Hk2].
Qed.
End cluster_service.

(** ** A client of two of the three nodes *)

Definition demo_node_at (addr : string) : option string :=
  if String.eqb addr "node-1:7001" then Some "node-1"
  else if String.eqb addr "node-2:7001" then Some "node-2"
  else if String.eqb addr "node-3:7001" then Some "node-3" else None.

Definition demo_nodes : gmap string string :=
  <["node-1" := "node-1:7001"]> (<["node-2" := "node-2:7001"]> ∅).

(** The client of nodes that all answer, and the ring it then has. *)
Definition no_client : Client := mkClient (NewRing 150 f_0_25) ∅ ∅ None 0 0.

Definition dialled (nodes : gmap string string) (opts : list Option) : Client :=
  match NewClient (fun _ => true) (map_to_list nodes) opts with inr c => c | inl _ => no_client end.

Definition dialled_ring (nodes : gmap string string) : Ring :=
  fold_left (fun r e => (AddNode e.1 r).2) (map_to_list nodes) (NewRing 150 f_0_25).

Lemma add_nodes_ring dial ord c c' :
  add_nodes dial ord c = inr c' -> ring c' = fold_left (fun r e => (AddNode e.1 r).2) ord (ring c).
Proof.
  revert c. induction ord as [|[n a] ord IH]; intros c Ha; simpl in Ha; [by injection Ha as <-|].
  unfold addNode in Ha. destruct (dial a); [|done]. by apply IH in Ha.
Qed.

Lemma options_ring opts c :
  Forall standard opts -> ring (fold_left (fun c (opt : Option) => opt c) opts c) = ring c.
Proof.
  intros Hs. revert c. induction Hs as [|o opts Ho _ IH]; intros c; [done|]. simpl. rewrite IH.
  by destruct Ho as [[d ->]|[[d ->]|(cap & ttl & ->)]].
Qed.

Lemma dialled_ok nodes opts :
  Forall standard opts ->
  NewClient (fun _ => true) (map_to_list nodes) opts = inr (dialled nodes opts) /\
  client_ok (dialled nodes opts) /\ conns (dialled nodes opts) = nodes /\
  ring (dialled nodes opts) = dialled_ring nodes.
Proof.
  intros Hs. destruct (options_ok opts _ Hs new_client_ok) as [Hok Hcs].
  destruct (add_nodes_ok (fun _ => true) (map_to_list nodes) _ Hok) as (c & E & Hc & _ & Hconns).
  { by apply Forall_forall. }
  { apply NoDup_fst_map_to_list. }
  assert (NewClient (fun _ => true) (map_to_list nodes) opts = inr c) as E' by exact E.
  unfold dialled. rewrite E'. split_and!; [done|done| |].
  - rewrite Hconns, Hcs, list_to_map_to_list. cbn [conns]. by rewrite (right_id_L ∅ (∪)).
  - rewrite (add_nodes_ring _ _ _ _ E), options_ring by done. done.
Qed.

Lemma dialled_ring_ok nodes :
  ring_wf (dialled_ring nodes) /\ nodeVnodes (dialled_ring nodes) = 150 /\
  dom (HashRing.nodes (dialled_ring nodes)) = dom nodes.
Proof.
  destruct (dialled_ok nodes [] (Forall_nil_2 _)) as (_ & [] & Hc & <-). split_and!; [done|done|congruence].
Qed.

Definition demo_c : Client := dialled demo_nodes [WithL1Cache 100 (5 * Second)].

(** A server's ring of the same members, built in another order. *)
Definition server_ring : Ring :=
  (AddNode "node-1" (AddNode "node-2" (NewRing 150 f_0_25)).2).2.

Lemma demo_options : Forall standard [WithL1Cache 100 (5 * Second)].
Proof. constructor; [|constructor]. right. right. by eexists _, _. Qed.

Lemma AddNode_count id r : nodeVnodes (AddNode id r).2 = nodeVnodes r.
Proof. unfold AddNode. by case_match. Qed.

Lemma server_ring_wf : ring_wf server_ring.
Proof. apply AddNode_wf, AddNode_wf, NewRing_wf. Qed.

Lemma server_ring_count : nodeVnodes server_ring = 150.
Proof. unfold server_ring. by rewrite !AddNode_count. Qed.

Lemma server_ring_dom : dom (nodes server_ring) = dom demo_nodes.
Proof.
  unfold server_ring, demo_nodes. rewrite !dom_AddNode, !dom_insert_L by auto using AddNode_wf, NewRing_wf.
  f_equal.
Qed.

Lemma demo_nodes_nonempty : dom demo_nodes <> ∅.
Proof. unfold demo_nodes. rewrite !dom_insert_L. set_solver. Qed.


(** A node that finds every key hot. *)
#[local] Instance hot_service : CacheService unit := {
  call_get clk conn key st := (inr (mkGetResponse key [Byte.x07] true 0 true), st);
  call_set clk conn key v ttlMs st := (inr true, st);
  call_delete clk conn key st := (inr true, st);
  call_ping clk conn st := (inr (mkPingResponse "" 0 0), st)
}.

Definition demo_get (t : Time) : client_op := OpGet t t (demo_clk t) "k".

(** A client of that node alone. *)
Definition solo_c : Client := dialled {["node-1" := "node-1:7001"]} [WithL1Cache 100 (5 * Second)].

Definition after_get : Client * unit := run [demo_get 10] (solo_c, tt).
Definition after_l1 : L1Cache := default (NewL1Cache 1 1) (l1Cache after_get.1).

Lemma dialled_l1 nodes opts : Forall standard opts -> l1_ok (dialled nodes opts).
Proof. intros Hs. destruct (dialled_ok nodes opts Hs) as (_ & [] & _). done. Qed.


Definition demo_service : CacheService cluster :=
  cluster_service up uncancelled demo_node_at (fun _ => []).

Lemma client_reads_its_writes_witness :
  exists c1 st1,
    @Set_ cluster demo_service (demo_clk 10) "k" [Byte.x07] 0 demo_c demo_cluster = (None, c1, st1) /\
    @get_all cluster demo_service "k" [(20, 21, demo_clk 20); (30, 31, demo_clk 30)] c1 st1
      = [inr ([Byte.x07], true); inr ([Byte.x07], true)].
Proof.
  pose proof (cluster_coherent up uncancelled demo_node_at (fun _ => []) 3 demo_members "k" demo_pref 2
    "node-1" "node-1" "node-1:7001" ltac:(reflexivity) ltac:(lia) ltac:(vm_compute; reflexivity)
    ltac:(reflexivity) ltac:(left; reflexivity)) as Hcoh.
  apply (@client_reads_its_writes cluster demo_service "node-1:7001" "k" "node-1" _ _ Hcoh
    (demo_clk 10) "node-1" [Byte.x07] 0 demo_c demo_cluster
    [(20, 21, demo_clk 20); (30, 31, demo_clk 30)] (dialled_l1 _ _ demo_options)).
  - vm_compute. reflexivity.
  - split; [exact demo_healthy|]. split; vm_compute; by eexists.
  - repeat constructor.
Defined.

(** ** Values that outlive their key *)

(** The three nodes with a detector that takes a key for hot at once. *)
Definition hot_server (id : string) : CacheServer :=
  NewCacheServer 0 id demo_store demo_ring (demo_rm id) NewFaultInjector
    (Mitigator.NewMitigator (Sketch.NewDetector 1 (60 * Second)) 4).

Definition hot_cluster : cluster :=
  <["node-1" := hot_server "node-1"]> (<["node-2" := hot_server "node-2"]>
    (<["node-3" := hot_server "node-3"]> ∅)).

(** The L1 cache serves values that no longer exist: a reply never carries the
    remaining TTL, so the client keeps a hot value for the default TTL of its
    cache; here a value set for ten milliseconds is still returned as found
    after twenty, when the node itself answers that there is none. *)
Theorem cached_value_outlives_key (t := Second) :
  let '(err, c1, st1) :=
    @Set_ cluster demo_service (demo_clk t) "k" [Byte.x07] (10 * Millisecond) demo_c hot_cluster in
  let '(res, c2, st2) := @Get cluster demo_service (t + Millisecond) (t + Millisecond)
    (demo_clk (t + Millisecond)) "k" c1 st1 in
  let late := t + 20 * Millisecond in
  err = None /\ res = inr ([Byte.x07], true) /\
  (@Get cluster demo_service late late (demo_clk late) "k" c2 st2).1.1 = inr ([Byte.x07], true) /\
  (@fetch cluster demo_service late (demo_clk late) "k" c2 st2).1.1 = inr ([], false).
Proof. vm_compute. split_and!; reflexivity. Qed.
