(* ===== verification/HotPath.v ===== *)
(** * The path of a hot key: detector, server, client and L1 cache together

    A read that a node answers raises the estimate of its detector by one; when
    the estimate reaches the threshold the reply is marked hot and the client
    keeps the value.  [HotSpots] adds this promise to [Coherent]; the cluster of
    [Server] keeps it ([cluster_hot]), and the lemmas on the client follow from
    the promise alone.  The tools of cmd/ are verified against it in [Tools]. *)

From S2P Require Import Prelude GoLib Store Sketch Mitigator L1Cache HashRing Chaos Replication Server ClusterProps Client.

#[local] Open Scope Z_scope.

(** ** The promise

    [heat n b st]: the detector of the node estimates [n] accesses to the key
    and its counters have room for [b] more; [thr] is its threshold. *)
Class HotSpots `{!CacheService St} (conn key node : string) (good : St -> Prop)
    (holds : Entry -> St -> Prop) (thr : Z) (heat : Z -> nat -> St -> Prop) : Prop := {
  hot_coherent :: Coherent conn key node good holds;
  hot_set clk v ttlMs n b st :
    good st -> heat n b st -> heat n b (call_set clk conn key v ttlMs st).2;
  hot_get clk e n b st :
    good st -> holds e st -> IsExpired (clk node 0%nat) e = false ->
    IsExpired (clk node 2%nat) e = false -> heat n (S b) st ->
    exists st', call_get clk conn key st
        = (inr (mkGetResponse key (Value e) true 0 (thr <=? n + 1)), st') /\
      good st' /\ holds e st' /\ heat (n + 1) b st'
}.

(** ** What the L1 cache does with it *)

(** The cache of the client, with the binding of one key. *)
Record caches (key : string) (dttl : Duration) (b : option (bytes * Time)) (c : Client) : Prop := {
  ca_l1 : exists l1, l1Cache c = Some l1 /\ l1_wf l1 /\ 1 <= capacity l1 /\
    defaultTTL l1 = dttl /\ lru_find key (abs l1) = b
}.

Lemma lru_find_remove k l : lru_find k (lru_remove k l) = None.
Proof.
  apply not_elem_of_list_to_map. intros ([k' b] & -> & H)%list_elem_of_fmap.
  unfold lru_remove in H. apply list_elem_of_filter in H as [H _]. by apply H.
Qed.

Lemma lru_find_cons k b l : lru_find k ((k, b) :: l) = Some b.
Proof. apply lookup_insert_eq. Qed.

Lemma invalidate_caches key dttl b c : caches key dttl b c -> caches key dttl None (invalidate key c).
Proof.
  intros [(l1 & Hl1 & Hwf & Hcap & Hd & Hf)]. constructor. unfold invalidate. rewrite Hl1.
  destruct (Delete_spec l1 key Hwf) as (Hwf' & Ha & Hc & Hd').
  exists (L1Cache.Delete l1 key). rewrite Ha, Hc, Hd', lru_find_remove. by split_and!.
Qed.

Section client.
Context `{!CacheService St} {conn key node : string} {good : St -> Prop} {holds : Entry -> St -> Prop}.
Context {thr : Z} {heat : Z -> nat -> St -> Prop} `{!HotSpots conn key node good holds thr heat}.

(** A read that misses the cache reaches the node; the reply is kept when it
    is hot. *)
Lemma Get_cold now1 now2 clk id dttl c st e n b :
  caches key dttl None c -> getConn c key = inr (conn, id) -> good st -> holds e st ->
  IsExpired (clk node 0%nat) e = false -> IsExpired (clk node 2%nat) e = false -> heat n (S b) st ->
  exists c' st', Get now1 now2 clk key c st = (inr (Value e, true), c', st') /\
    good st' /\ holds e st' /\ heat (n + 1) b st' /\ getConn c' key = inr (conn, id) /\
    caches key dttl (if thr <=? n + 1 then Some (Value e, now2 + dttl) else None) c'.
Proof.
  intros [(l1 & Hl1 & Hwf & Hcap & Hd & Hf)] Hg Hst He H0 H2 Hh.
  destruct (hot_get clk e n b st Hst He H0 H2 Hh) as (st' & Hcall & Hst' & He' & Hh').
  destruct (Get_spec now1 l1 key Hwf) as (Hv & Ha & Hwf1 & Hc1 & Hd1).
  assert (lru_get now1 key (abs l1) = (None, abs l1)) as Hlru by (unfold lru_get; by rewrite Hf).
  rewrite Hlru in Hv, Ha. unfold Get. rewrite Hl1.
  destruct (L1Cache.Get now1 l1 key) as [o l2]. simpl in *. subst o. unfold fetch.
  change (getConn (set_l1 (Some l2) c) key) with (getConn c key). rewrite Hg, Hcall. simpl.
  eexists _, st'. split; [done|]. split_and!; try done; destruct (thr <=? n + 1); try done;
    constructor; simpl.
  - destruct (Set_spec now2 l2 key (Value e) (DurationOfMs 0) Hwf1) as (Hwf3 & Ha3 & Hc3 & Hd3).
    eexists. split; [done|]. rewrite Ha3, Hc3, Hd3. split_and!; [done|lia|congruence|].
    unfold lru_set. destruct (Z.to_nat (capacity l2)) eqn:E; [lia|]. cbn [take].
    rewrite lru_find_cons. by rewrite Hd1, Hd.
  - exists l2. rewrite Ha. split_and!; try done; congruence.
Qed.

(** While the binding lives, a read is answered without the node. *)
Lemma Get_warm now1 now2 clk dttl c st v d :
  caches key dttl (Some (v, d)) c -> now1 <= d ->
  exists c', Get now1 now2 clk key c st = (inr (v, true), c', st) /\
    getConn c' key = getConn c key /\ caches key dttl (Some (v, d)) c'.
Proof.
  intros [(l1 & Hl1 & Hwf & Hcap & Hd & Hf)] Hle.
  destruct (Get_spec now1 l1 key Hwf) as (Hv & Ha & Hwf1 & Hc1 & Hd1).
  unfold lru_get in Hv, Ha. rewrite Hf in Hv, Ha.
  destruct (Z.ltb_spec d now1); [lia|]. unfold Get. rewrite Hl1.
  destruct (L1Cache.Get now1 l1 key) as [o l2]. simpl in *. subst o.
  eexists. split_and!; [done|done|]. constructor. exists l2. rewrite Ha, lru_find_cons.
  split_and!; try done; congruence.
Qed.

(** A write empties the binding and leaves the detector alone. *)
Lemma Set_caches clk id dttl bd c st v ttl n b :
  caches key dttl bd c -> getConn c key = inr (conn, id) -> good st -> heat n b st ->
  exists c' st', Set_ clk key v ttl c st = (None, c', st') /\ good st' /\
    holds (written (clk node) v (Milliseconds ttl)) st' /\ heat n b st' /\
    getConn c' key = inr (conn, id) /\ caches key dttl None c'.
Proof.
  intros Hc Hg Hst Hh. pose proof (hot_set clk v (Milliseconds ttl) n b st Hst Hh) as Hh'.
  destruct (coherent_set clk v (Milliseconds ttl) st Hst) as (st' & Hcall & Hst' & He).
  assert (getConn (invalidate key c) key = inr (conn, id)) as Hgi
    by (rewrite <- Hg; unfold invalidate; by case_match).
  rewrite Hcall in Hh'. unfold Set_. rewrite Hgi, Hcall. eexists _, st'.
  split_and!; try done. by eapply invalidate_caches.
Qed.
End client.

(** ** The cluster keeps it *)

Section cluster.
Context (net : string -> string -> bool) (cancelled : string -> bool).
Context (node_at : string -> option string) (ords : string -> list (list (string * Entry))).
Context (count : Z) (U : gset string) (key : string) (pref : list string) (rc : Z).
Context (p b conn : string) (thr : Z).
Context (Hnet : forall x y, net x y = true) (Hrc : 1 <= rc) (Hp : head pref = Some p).
Context (Hconn : node_at conn = Some b) (Hb : b = p \/ b ∉ take (Z.to_nat rc) pref).

(** The detector of the primary, after some history of accesses and decays. *)
Definition primary_heat (n : Z) (room : nat) (c : cluster) : Prop :=
  exists cs evs period, c !! p = Some cs /\ hasMit cs = true /\
    detector (cs_mit cs) = mkDetector (cms_run evs (NewCountMinSketch 4096 4)) thr period /\
    GetFrequency (detector (cs_mit cs)) key = n /\ increments evs + Z.of_nat room < MaxUint64.

Lemma RecordAccess_heat evs period :
  increments evs + 1 < MaxUint64 ->
  let d := mkDetector (cms_run evs (NewCountMinSketch 4096 4)) thr period in
  let d' := mkDetector (cms_run (evs ++ [EvIncrement key]) (NewCountMinSketch 4096 4)) thr period in
  RecordAccess key d = (thr <=? GetFrequency d key + 1, d') /\
  GetFrequency d' key = GetFrequency d key + 1.
Proof.
  intros Hb'. simpl.
  pose proof (Estimate_increment 4096 4 ltac:(lia) ltac:(lia) evs key) as He.
  rewrite increments_app in He. specialize (He Hb'). rewrite cms_run_snoc in *.
  unfold RecordAccess, GetFrequency. cbn [sketch with_sketch hotThreshold cms_apply decayPeriod] in *.
  by rewrite He.
Qed.

Lemma cluster_hot :
  HotSpots (CacheService0 := cluster_service net cancelled node_at ords) conn key p
    (serving cancelled count U key pref rc p b) (primary_holds key p) thr primary_heat.
Proof.
  pose proof (reader_primary pref rc p b Hb) as Hrd. constructor.
  - by apply cluster_coherent.
  - intros clk v ttlMs n room c (Hc & Hcb & _) (cs & evs & period & Hcs & Hm & Hd & Hf & Hi).
    destruct (handle_set count U cancelled key pref rc p Hp net Hnet clk (size c) v ttlMs b c cs Hc Hcb Hcs)
      as (c1 & csp1 & seq & Hh & _ & _ & Hp1 & _ & _ & Hm1 & Hd1).
    cbn [call_set cluster_service]. unfold serve. rewrite Hconn, Hh. simpl.
    exists csp1, evs, period. rewrite Hm1, Hd1. by split_and!.
  - intros clk e n room c (Hc & Hcb & Hcp) (cs & Hcs & Hk) H0 H2
      (cs' & evs & period & Hcs' & Hm & Hd & Hf & Hi).
    rewrite Hcs in Hcs'. injection Hcs' as <-.
    destruct (handle_get count U cancelled key pref rc p Hp net Hnet clk (size c) b c cs e)
      as (hot & c2 & cs2 & Hh & Hc2 & Hdom & Hr & Hk2 & Hm2 & Hdet); rewrite ?Hrd in *; try done.
    destruct (RecordAccess_heat evs period ltac:(lia)) as [Hra Hf'].
    unfold detection in Hdet. rewrite Hm, Hd, Hra in Hdet. injection Hdet as -> Hd2.
    rewrite Hd in Hf. rewrite Hf in *. exists c2.
    cbn [call_get cluster_service]. unfold serve. rewrite Hconn, Hh. simpl.
    split_and!; [done|split_and!; [done|by eapply dom_is_Some|by eexists]| |].
    + exists cs2. split; [done|by apply Hk2].
    + exists cs2, (evs ++ [EvIncrement key]), period. rewrite Hd2, Hm2, increments_app.
      change (increments [EvIncrement key]) with 1. split_and!; try done; lia.
Qed.
End cluster.
