(* ===== verification/Isolation.v ===== *)
(** * Requests for different keys do not disturb each other

    A request changes, on every node it visits, the entries of its own key and
    of the shard keys the mitigator derives from it, and nothing the routing
    depends on.  [CoherentOn] is the promise this makes to a client that works
    with several keys; the cluster of [Server] keeps it. *)

From S2P Require Import Prelude GoLib Store Sketch Mitigator HashRing Chaos Replication Server ClusterProps Client.

#[local] Open Scope Z_scope.

(** A key that a request for [key] leaves alone. *)
Definition unrelated (k key : string) : Prop := k <> key /\ forall i, k <> ShardKeyName key i.

(** ** The frame of a request *)

Section frame.
Context (count : Z) (U : gset string) (k : string).

(** What a request for an unrelated key keeps of a server. *)
Record kept (id : string) (cs cs' : CacheServer) : Prop := {
  kp_view : same_view cs cs';
  kp_ok : server_ok count U id cs -> server_ok count U id cs';
  kp_entry : server_ok count U id cs -> contents (cs_store cs') !! k = contents (cs_store cs) !! k
}.

#[global] Instance kept_refl id : Reflexive (kept id).
Proof. by constructor. Qed.

#[global] Instance kept_trans id : Transitive (kept id).
Proof.
  intros c1 c2 c3 [V1 O1 E1] [V2 O2 E2]. constructor; [by etrans|auto|].
  intros H. rewrite E2 by auto. auto.
Qed.

Lemma kept_load_inc id cs : kept id cs (load_inc cs).
Proof.
  constructor; [apply load_inc_view|apply load_inc_ok|]. intros _. f_equal.
  by destruct (load_store cs) as [-> _].
Qed.

Lemma kept_load_dec id cs : kept id cs (load_dec cs).
Proof.
  constructor; [apply load_dec_view|apply load_dec_ok|]. intros _. f_equal.
  by destruct (load_store cs) as [_ ->].
Qed.

(** *** The store *)

Lemma exec_frame t1 t2 cmd s :
  store_wf s ->
  match cmd with
  | CmdGet key | CmdSet key _ _ | CmdDelete key | CmdExpire key _ => k <> key
  end ->
  contents (exec (mkCall t1 t2 cmd) s).2 !! k = contents s !! k.
Proof.
  intros Hs Hk. destruct (exec_spec (mkCall t1 t2 cmd) s Hs) as [_ ->].
  destruct cmd; unfold spec_exec; simpl; repeat case_match; simpl;
    by rewrite ?lookup_insert_ne, ?lookup_delete_ne by done.
Qed.

Lemma CheckAndMitigate_frame clk key m s :
  store_wf s -> unrelated k key -> contents (CheckAndMitigate clk key m s).2 !! k = contents s !! k.
Proof.
  intros Hs [Hk Hsh]. unfold CheckAndMitigate.
  destruct (RecordAccess key (detector m)) as [[] d]; [|done]. simpl. case_match; [done|]. simpl.
  unfold applySplitting. simpl.
  pose proof (exec_frame (clk 0%nat) (clk 1%nat) (CmdGet key) s Hs Hk) as Hf.
  pose proof (exec_wf (mkCall (clk 0%nat) (clk 1%nat) (CmdGet key)) s Hs) as Hw.
  unfold exec in Hf, Hw. simpl in Hf, Hw.
  destruct (Store.Get (clk 0%nat) (clk 1%nat) s key) as [[v|] s']; [|done]. simpl in *.
  destruct (write_shards_spec clk 2 (shardCount m) key v 0 s' Hw) as (_ & _ & Hout).
  by rewrite Hout by auto.
Qed.

Lemma WriteToShards_frame clk m key v ttl s :
  store_wf s -> unrelated k key -> contents (WriteToShards clk m key v ttl s) !! k = contents s !! k.
Proof.
  intros Hs [Hk Hsh]. unfold WriteToShards.
  destruct (Set_contents (clk 0%nat) (clk 1%nat) s key v ttl Hs) as [Hw Hc].
  case_match; [by rewrite Hc, lookup_insert_ne|].
  destruct (write_shards_spec clk 2 (shardCount m) key v ttl _ Hw) as (_ & _ & Hout).
  by rewrite Hout, Hc, lookup_insert_ne by auto.
Qed.

(** *** The local handlers *)

Lemma local_get_kept clk key id cs :
  server_ok count U id cs -> unrelated k key ->
  same_view cs (local_get clk key cs).2 /\
  contents (cs_store (local_get clk key cs).2) !! k = contents (cs_store cs) !! k.
Proof.
  intros Hs Hk. pose proof (so_store _ _ _ _ Hs) as Hst. unfold local_get.
  pose proof (exec_frame (clk 0%nat) (clk 1%nat) (CmdGet key) _ Hst (proj1 Hk)) as Hf.
  pose proof (exec_wf (mkCall (clk 0%nat) (clk 1%nat) (CmdGet key)) _ Hst) as Hw.
  unfold exec in Hf, Hw. simpl in Hf, Hw.
  destruct (Store.Get (clk 0%nat) (clk 1%nat) (cs_store cs) key) as [[v|] s]; simpl in *; [|done].
  destruct (hasMit cs) eqn:Hm; [|done].
  pose proof (CheckAndMitigate_frame (fun n => clk (S (S n))) key (cs_mit cs) s Hw Hk) as Hc.
  destruct (CheckAndMitigate _ key (cs_mit cs) s) as [[hot m] s']. simpl in *.
  split; [done|congruence].
Qed.

Lemma replicated_view (r : Ring) key req rm rm' :
  (replicas ← getSecondaries r rm key; Some (replicate_to replicas req rm)) = Some rm' ->
  rm_selfID rm' = rm_selfID rm /\ replicaCount rm' = replicaCount rm /\
  peerConns rm' = peerConns rm /\ eventsClosed rm' = eventsClosed rm.
Proof.
  destruct (getSecondaries r rm key) as [l|]; simpl; [|done]. intros [= <-].
  apply replicate_to_view.
Qed.

(** The update of a key of the store, then of the replication manager. *)
Lemma primary_kept key f s cs cs' :
  (forall rm', f (cs_rep cs) = Some rm' -> exists r req,
     (replicas ← getSecondaries r (cs_rep cs) key; Some (replicate_to replicas req (cs_rep cs)))
     = Some rm') ->
  contents s !! k = contents (cs_store cs) !! k ->
  if_primary key f (set_store s cs) = Some cs' ->
  same_view cs cs' /\ contents (cs_store cs') !! k = contents (cs_store cs) !! k.
Proof.
  intros Hf Hs H. apply if_primary_view in H as [Hv ->]; [by split|].
  intros rm' (r & req & Hr)%Hf. by eapply replicated_view.
Qed.

Lemma local_expire_kept clk key ttl id cs resp cs' :
  unrelated k key -> local clk (ExpireRequest key ttl) cs = Some (resp, cs') ->
  server_ok count U id cs ->
  same_view cs cs' /\ contents (cs_store cs') !! k = contents (cs_store cs) !! k.
Proof.
  intros [Hk _] Hl Hs. pose proof (so_store _ _ _ _ Hs) as Hst. simpl in Hl.
  unfold local_expire in Hl.
  pose proof (exec_frame (clk 0%nat) (clk 1%nat) (CmdExpire key (req_ttl ttl)) _ Hst Hk) as Hf.
  pose proof (exec_wf (mkCall (clk 0%nat) (clk 1%nat) (CmdExpire key (req_ttl ttl))) _ Hst) as Hw.
  unfold exec in Hf, Hw. simpl in Hf, Hw.
  destruct (Expire (clk 0%nat) (clk 1%nat) (cs_store cs) key (req_ttl ttl)) as [found s]. simpl in *.
  destruct (negb (found && hasRep cs)); [by simplify_eq/=|].
  destruct (IsPrimary (cs_ring cs) (cs_rep cs) key) as [[]|]; simplify_eq/=; [|done].
  pose proof (exec_frame (clk 2%nat) (clk 3%nat) (CmdGet key) s Hw Hk) as Hf2.
  unfold exec in Hf2. simpl in Hf2.
  destruct (Store.Get (clk 2%nat) (clk 3%nat) s key) as [[v|] s2]; simplify_eq/=;
    [|by split; [|congruence]].
  destruct (ReplicateWrite (cs_ring cs) key v ttl (cs_rep cs)) as [rm'|] eqn:Hr; simplify_eq/=.
  destruct (replicated_view _ _ _ _ _ Hr) as (E1 & E2 & E3 & E4). split; [|congruence].
  unfold same_view. simpl. by rewrite E1, E2, E3, E4.
Qed.

Lemma local_kept clk q id cs resp cs' :
  unrelated k (req_key q) -> local clk q cs = Some (resp, cs') -> server_ok count U id cs ->
  same_view cs cs' /\ contents (cs_store cs') !! k = contents (cs_store cs) !! k.
Proof.
  intros Hk Hl Hs. pose proof (so_store _ _ _ _ Hs) as Hst. pose proof (proj1 Hk) as Hne.
  destruct q as [key|key v ttl|key|key ttl]; simpl in Hl, Hk, Hne.
  - pose proof (local_get_kept clk key id cs Hs Hk) as H.
    destruct (local_get clk key cs) as [r cs1]. by injection Hl as _ <-.
  - destruct (local_set clk key v ttl cs) as [cs1|] eqn:E; [|done]. injection Hl as _ <-.
    eapply primary_kept; [| |exact E].
    + intros rm' Hr. by eexists _, _.
    + case_match; [by apply WriteToShards_frame|].
      by apply (exec_frame _ _ (CmdSet key v (req_ttl ttl))).
  - unfold local_delete in Hl. pose proof (exec_frame 0 0 (CmdDelete key) _ Hst Hne) as Hf.
    unfold exec in Hf. simpl in Hf. destruct (Store.Delete (cs_store cs) key) as [ex s].
    destruct (if_primary key _ (set_store s cs)) as [cs1|] eqn:E; [|done]. injection Hl as _ <-.
    eapply primary_kept; [|exact Hf|exact E]. intros rm' Hr. by eexists _, _.
  - by apply (local_expire_kept clk key ttl id cs resp).
Qed.

(** *** The cluster *)

Definition all_kept (c c' : cluster) : Prop :=
  forall id cs, c !! id = Some cs -> exists cs', c' !! id = Some cs' /\ kept id cs cs'.

#[global] Instance all_kept_refl : Reflexive all_kept.
Proof. intros c id cs H. by exists cs. Qed.

#[global] Instance all_kept_trans : Transitive all_kept.
Proof.
  intros c1 c2 c3 H1 H2 id cs (cs2 & Hcs2 & K2)%H1. destruct (H2 id cs2 Hcs2) as (cs3 & ? & ?).
  exists cs3. split; [done|by etrans].
Qed.

Lemma all_kept_insert id cs cs' c : c !! id = Some cs -> kept id cs cs' -> all_kept c (<[id := cs']> c).
Proof.
  intros Hc Hk id0 cs0 H. destruct (decide (id0 = id)) as [->|Hne].
  - exists cs'. rewrite lookup_insert_eq. split; [done|]. congruence.
  - exists cs0. by rewrite lookup_insert_ne.
Qed.

Lemma all_kept_alter f id c : (forall cs, kept id cs (f cs)) -> all_kept c (alter f id c).
Proof.
  intros Hf id0 cs0 H. destruct (decide (id0 = id)) as [->|Hne].
  - exists (f cs0). by rewrite lookup_alter_eq, H.
  - exists cs0. by rewrite lookup_alter_ne.
Qed.

Lemma all_kept_ok c c' : all_kept c c' -> dom c' ⊆ dom c -> cluster_ok count U c -> cluster_ok count U c'.
Proof.
  intros Hk Hd Hc id cs' H. pose proof (elem_of_dom_2 _ _ _ H) as Hin. apply Hd, elem_of_dom in Hin as [cs Hcs].
  destruct (Hk id cs Hcs) as (cs'' & E & K). rewrite H in E. injection E as <-. by apply K, Hc.
Qed.

Lemma handle_kept net cancelled clk fuel id q c r c' :
  unrelated k (req_key q) -> cluster_ok count U c ->
  handle net cancelled clk fuel id q c = Answered r c' -> all_kept c c' /\ dom c' = dom c.
Proof.
  intros Hk. revert id c r c'. induction fuel as [|fuel IH]; intros id c r c' Hc H; [done|]. simpl in H.
  destruct (c !! id) as [cs|] eqn:Hcs; [|injection H as _ <-; split; reflexivity].
  destruct (gate (cancelled id) cs); [injection H as _ <-; split; reflexivity|]. unfold respond in H.
  pose proof (kept_load_inc id cs) as K1.
  pose proof (all_kept_insert id cs _ c Hcs K1) as A1. set (c1 := <[id := _]> c) in *.
  assert (dom c1 = dom c) as D1 by (apply dom_insert_lookup_L; by eexists).
  assert (cluster_ok count U c1) as Hc1 by (eapply all_kept_ok; [exact A1|by rewrite D1|done]).
  enough (forall c2, all_kept c1 c2 /\ dom c2 = dom c1 ->
    all_kept c (alter load_dec id c2) /\ dom (alter load_dec id c2) = dom c) as Hend.
  { destruct (route q (load_inc cs)) as [[primary|]|]; [| |done].
    - destruct (net id primary); [|injection H as _ <-; apply Hend; split; reflexivity].
      destruct (handle net cancelled clk fuel primary q c1) as [r2 c2| |] eqn:E; [|done..].
      injection H as _ <-. apply Hend. by apply (IH primary c1 r2).
    - destruct (local (clk id) q (load_inc cs)) as [[resp cs2]|] eqn:E; [|done].
      injection H as _ <-. apply Hend.
      assert (c1 !! id = Some (load_inc cs)) as L1 by apply lookup_insert_eq.
      split; [|apply dom_insert_lookup_L; by eexists].
      apply (all_kept_insert id (load_inc cs)); [done|].
      pose proof (Hc1 id _ L1) as Hok.
      destruct (local_kept (clk id) q id (load_inc cs) resp cs2 Hk E Hok) as [V F].
      constructor; [done| |done]. intros _.
      destruct (local_ok count U id (clk id) q (load_inc cs) Hok) as (? & ? & E' & Hok').
      congruence. }
  intros c2 [A2 D2]. rewrite dom_alter_L. split; [|congruence]. etrans; [exact A1|]. etrans; [exact A2|].
  apply all_kept_alter. intros ?. apply kept_load_dec.
Qed.
End frame.

(** ** The promise to a client with several keys *)

Class CoherentOn `{!CacheService St} (keys : gset string) (conn node : string -> string)
    (good : St -> Prop) (holds : string -> Entry -> St -> Prop) : Prop := {
  on_key key : key ∈ keys -> Coherent (conn key) key (node key) good (holds key);
  on_set clk key key' v ttlMs e st :
    key ∈ keys -> key' ∈ keys -> key' <> key -> good st -> holds key' e st ->
    holds key' e (call_set clk (conn key) key v ttlMs st).2;
  on_get clk key key' e st :
    key ∈ keys -> key' ∈ keys -> key' <> key -> good st -> holds key' e st ->
    holds key' e (call_get clk (conn key) key st).2
}.

(** ** The cluster keeps it *)

Section cluster.
Context (net : string -> string -> bool) (cancelled : string -> bool).
Context (node_at : string -> option string) (ords : string -> list (list (string * Entry))).
Context (count : Z) (U : gset string) (rc : Z) (keys : gset string).
Context (pref : string -> list string) (p b conn : string -> string).
Context (Hnet : forall x y, net x y = true) (Hrc : 1 <= rc).
Context (Hp : forall key, key ∈ keys -> head (pref key) = Some (p key)).
Context (Hconn : forall key, key ∈ keys -> node_at (conn key) = Some (b key)).
Context (Hb : forall key, key ∈ keys -> b key = p key \/ b key ∉ take (Z.to_nat rc) (pref key)).
(** No key of the set is a shard key of another. *)
Context (Hkeys : forall key key', key ∈ keys -> key' ∈ keys -> key' <> key -> unrelated key' key).

Let service : CacheService cluster := cluster_service net cancelled node_at ords.

Definition serving_all (c : cluster) : Prop :=
  forall key, key ∈ keys -> serving cancelled count U key (pref key) rc (p key) (b key) c.

Lemma kept_serving k key c c' :
  all_kept count U k c c' -> dom c' = dom c ->
  serving cancelled count U key (pref key) rc (p key) (b key) c ->
  serving cancelled count U key (pref key) rc (p key) (b key) c'.
Proof.
  intros Hk Hd (Hc & Hb' & Hp'). split_and!; [|by eapply dom_is_Some..].
  intros id cs' H. pose proof (elem_of_dom_2 _ _ _ H) as Hin. rewrite Hd in Hin.
  apply elem_of_dom in Hin as [cs Hcs]. destruct (Hk id cs Hcs) as (cs'' & E & K).
  rewrite H in E. injection E as <-. pose proof (Hc id cs Hcs) as Hh.
  eapply healthy_view; [apply K|apply K, Hh|done].
Qed.

Lemma serving_ok key c :
  key ∈ keys -> serving_all c -> cluster_ok count U c.
Proof. intros Hk Hc id cs H. by apply (Hc key Hk). Qed.

(** A request for a key keeps the promise for the others. *)
Lemma serve_others clk q c :
  req_key q ∈ keys -> serving_all c ->
  forall key', key' ∈ keys -> key' <> req_key q ->
  let c' := (serve net cancelled node_at clk (conn (req_key q)) q c).2 in
  serving cancelled count U key' (pref key') rc (p key') (b key') c' /\
  forall e, primary_holds key' (p key') e c -> primary_holds key' (p key') e c'.
Proof.
  intros Hq Hc key' Hk' Hne. unfold serve. cbv zeta. rewrite Hconn by done.
  destruct (handle net cancelled clk (S (S (size c))) (b (req_key q)) q c) as [r c'| |] eqn:E;
    [|split; [by apply Hc|done]..]. simpl.
  destruct (handle_kept count U key' net cancelled clk _ _ q c r c' (Hkeys _ _ Hq Hk' Hne)
    (serving_ok _ c Hq Hc) E) as [K D].
  split; [by eapply kept_serving; [| |apply Hc]|]. intros e (cs & Hcs & He).
  destruct (K (p key') cs Hcs) as (cs' & Hcs' & K'). exists cs'. split; [done|].
  rewrite (kp_entry _ _ _ _ _ _ K'); [done|]. by apply (serving_ok _ c Hq Hc).
Qed.

Lemma reply_snd {A} (f : response -> option A) r : (reply f r).2 = r.2.
Proof. unfold reply. by repeat case_match. Qed.

Lemma cluster_coherent_on :
  CoherentOn (CacheService0 := service) keys conn p serving_all
    (fun key => primary_holds key (p key)).
Proof.
  assert (forall clk q c, req_key q ∈ keys -> serving_all c ->
    serving cancelled count U (req_key q) (pref (req_key q)) rc (p (req_key q)) (b (req_key q))
      (serve net cancelled node_at clk (conn (req_key q)) q c).2 ->
    serving_all (serve net cancelled node_at clk (conn (req_key q)) q c).2) as Hall.
  { intros clk q c Hq Hc H key Hk. destruct (decide (key = req_key q)) as [->|Hne]; [done|].
    by apply serve_others. }
  constructor.
  - intros key Hk. pose proof (cluster_coherent net cancelled node_at ords count U key (pref key) rc
      (p key) (b key) (conn key) Hnet Hrc (Hp key Hk) (Hconn key Hk) (Hb key Hk)) as [Hset Hget].
    constructor.
    + intros clk v ttlMs c Hc. destruct (Hset clk v ttlMs c (Hc key Hk)) as (c' & Hcall & Hs & He).
      exists c'. split_and!; [done| |done]. apply (f_equal snd) in Hcall.
      cbn [call_set service cluster_service] in Hcall. rewrite reply_snd in Hcall. simpl in Hcall.
      subst c'. by apply (Hall clk (SetRequest key v ttlMs)).
    + intros clk e c Hc He H0 H2.
      destruct (Hget clk e c (Hc key Hk) He H0 H2) as (hot & c' & Hcall & Hs & He').
      exists hot, c'. split_and!; [done| |done]. apply (f_equal snd) in Hcall.
      cbn [call_get service cluster_service] in Hcall. rewrite reply_snd in Hcall. simpl in Hcall.
      subst c'. by apply (Hall clk (GetRequest key)).
  - intros clk key key' v ttlMs e c Hk Hk' Hne Hc He.
    cbn [call_set service cluster_service]. rewrite reply_snd.
    by apply (serve_others clk (SetRequest key v ttlMs)).
  - intros clk key key' e c Hk Hk' Hne Hc He.
    cbn [call_get service cluster_service]. rewrite reply_snd.
    by apply (serve_others clk (GetRequest key)).
Qed.
End cluster.
