(* ===== verification/Tools.v ===== *)
(** * The command line tools: cmd/hotkeytest, cmd/client, cmd/pingtest

    Each [main] is a function from the answers of the service it calls to the
    lines it prints and the way it ends.  The readings of the clocks are inputs,
    as is the order in which a [range] visits a map. *)

From S2P Require Import Prelude GoLib Text Store Sketch Mitigator L1Cache HashRing Chaos Replication Server ClusterProps Client HotPath Isolation.

#[local] Open Scope Z_scope.

(** The nodes the three tools are written for. *)
Definition tool_nodes : gmap string string :=
  <["node-1" := "127.0.0.1:7001"]> (<["node-2" := "127.0.0.1:7002"]>
    (<["node-3" := "127.0.0.1:7003"]> ∅)).

(** ** cmd/hotkeytest/main.go *)

Section hotkeytest.
Context `{!CacheService St}.

Definition hot_key : string := "hot-news-headline".
Definition hot_value : bytes := bytes_of_string "Breaking News: Cache works!".

(** The clock readings of one iteration: [start], those of the L1 cache before
    and after the call, the one of [time.Since], and those of the nodes. *)
Record iteration := mkIteration {
  it_start : Time;
  it_now1 : Time;
  it_now2 : Time;
  it_end : Time;
  it_clk : string -> nat -> Time
}.

Inductive hot_line :=
  | Reading
  | Latency (i : Z) (elapsed : Duration) (note : string)
  | Average (d : Duration).

Inductive ending :=
  | Returned
  | Panic (err : client_error).

(** The four [if]s at the end of the body of the loop. *)
Definition report (i : Z) (elapsed : Duration) : list hot_line :=
  (if i =? 1 then [Latency i elapsed "gRPC to server"] else []) ++
  (if i =? 100 then [Latency i elapsed "gRPC to server, Count-Min Sketch threshold reached"] else []) ++
  (if i =? 101 then [Latency i elapsed "L1 cache intercepted!"] else []) ++
  (if i =? 150 then [Latency i elapsed "L1 cache intercepted!"] else []).

(** [n] iterations, from the [i]-th on. *)
Fixpoint read_loop (its : Z -> iteration) (n : nat) (i : Z) (totalDuration : Duration)
    (c : Client) (st : St) : list hot_line * (client_error + Duration) * Client * St :=
  match n with
  | O => ([], inr totalDuration, c, st)
  | S n =>
      let it := its i in
      match Get (it_now1 it) (it_now2 it) (it_clk it) hot_key c st with
      | (inl err, c, st) => ([], inl err, c, st)
      | (inr _, c, st) =>
          let elapsed := Sub (it_end it) (it_start it) in
          let '(out, res, c, st) :=
            read_loop its n (i + 1) (i64 (totalDuration + elapsed)) c st in
          (report i elapsed ++ out, res, c, st)
      end
  end.

(** The error of [Set] is dropped; the deferred [Close] runs on both endings. *)
Definition hotkeytest_main `{!SortSlice} (dial close_ok : string -> bool)
    (ord close_ord : list (string * string)) (set_clk : string -> nat -> Time)
    (its : Z -> iteration) (st : St) : list hot_line * ending * option Client * St :=
  match NewClient dial ord [WithL1Cache 100 (10 * Second)] with
  | inl err => ([], Panic err, None, st)
  | inr c =>
      let '(_, c, st) := Set_ set_clk hot_key hot_value (60 * Second) c st in
      let '(out, res, c, st) := read_loop its 150 1 0 c st in
      let closed := Some (Close close_ok close_ord c).2 in
      match res with
      | inl err => (Reading :: out, Panic err, closed, st)
      | inr totalDuration =>
          (Reading :: out ++ [Average (Z.quot totalDuration 150)], Returned, closed, st)
      end
  end.

(** *** What the loop prints *)

Definition elapsed (its : Z -> iteration) (i : Z) : Duration := Sub (it_end (its i)) (it_start (its i)).

Definition printed (its : Z -> iteration) (i : Z) (n : nat) : list hot_line :=
  concat ((fun j => report j (elapsed its j)) <$> seqZ i (Z.of_nat n)).

Definition total (its : Z -> iteration) (i : Z) (n : nat) (t : Duration) : Duration :=
  fold_left (fun t j => i64 (t + elapsed its j)) (seqZ i (Z.of_nat n)) t.

Lemma seqZ_step i n : seqZ i (Z.of_nat (S n)) = i :: seqZ (i + 1) (Z.of_nat n).
Proof. rewrite seqZ_cons by lia. do 2 f_equal; lia. Qed.

Lemma printed_step its i n :
  printed its i (S n) = report i (elapsed its i) ++ printed its (i + 1) n.
Proof. unfold printed. by rewrite seqZ_step. Qed.

Lemma total_step its i n t : total its i (S n) t = total its (i + 1) n (i64 (t + elapsed its i)).
Proof. unfold total. by rewrite seqZ_step. Qed.

(** A part of the loop that ends well, then the rest. *)
Lemma read_loop_app its n m i t c st out t' c' st' :
  read_loop its n i t c st = (out, inr t', c', st') ->
  read_loop its (n + m) i t c st
  = let '(out', res, c'', st'') := read_loop its m (i + Z.of_nat n) t' c' st' in
    (out ++ out', res, c'', st'').
Proof.
  revert i t c st out. induction n as [|n IH]; intros i t c st out H; simpl in H |- *.
  { injection H as <- <- <- <-. rewrite Z.add_0_r.
    by destruct (read_loop its m i t c st) as [[[out' res] c''] st'']. }
  destruct (Get _ _ _ hot_key c st) as [[[err|r] c1] st1]; [done|].
  destruct (read_loop its n (i + 1) _ c1 st1) as [[[out1 res1] c2] st2] eqn:E.
  injection H as <- -> -> ->. rewrite (IH _ _ _ _ _ E).
  replace (i + 1 + Z.of_nat n) with (i + Z.of_nat (S n)) by lia.
  destruct (read_loop its m _ t' c' st') as [[[out' res] c''] st'']. by rewrite app_assoc.
Qed.

(** *** The three phases *)

Context {conn node id : string} {good : St -> Prop} {holds : Entry -> St -> Prop}.
Context {thr : Z} {heat : Z -> nat -> St -> Prop} `{!HotSpots conn hot_key node good holds thr heat}.
Context (its : Z -> iteration) (e : Entry) (dttl : Duration).

(** The entry is live for the node in the [i]-th read. *)
Definition live (i : Z) : Prop :=
  IsExpired (it_clk (its i) node 0%nat) e = false /\ IsExpired (it_clk (its i) node 2%nat) e = false.

(** Below the threshold every read reaches the node. *)
Lemma loop_cold n i t c st h room :
  caches hot_key dttl None c -> getConn c hot_key = inr (conn, id) -> good st -> holds e st ->
  (forall j, i <= j < i + Z.of_nat n -> live j) -> heat h (n + room) st -> h + Z.of_nat n < thr ->
  exists c' st', read_loop its n i t c st = (printed its i n, inr (total its i n t), c', st') /\
    good st' /\ holds e st' /\ heat (h + Z.of_nat n) room st' /\
    getConn c' hot_key = inr (conn, id) /\ caches hot_key dttl None c'.
Proof.
  revert i t c st h. induction n as [|n IH]; intros i t c st h Hc Hg Hst He Hl Hh Hthr.
  { exists c, st. rewrite Z.add_0_r. by split_and!. }
  destruct (Hl i ltac:(lia)) as [L0 L2].
  destruct (Get_cold (it_now1 (its i)) (it_now2 (its i)) (it_clk (its i)) id dttl c st e h (n + room)
    Hc Hg Hst He L0 L2 Hh) as (c1 & st1 & Hget & Hst1 & He1 & Hh1 & Hg1 & Hc1).
  destruct (Z.leb_spec thr (h + 1)); [lia|].
  destruct (IH (i + 1) (i64 (t + elapsed its i)) c1 st1 (h + 1) Hc1 Hg1 Hst1 He1)
    as (c' & st' & Hloop & Hst' & He' & Hh' & Hg' & Hc'); [intros j Hj; apply Hl; lia|done|lia|].
  exists c', st'. rewrite printed_step, total_step. simpl. rewrite Hget. unfold elapsed in *.
  rewrite Hloop. replace (h + Z.of_nat (S n)) with (h + 1 + Z.of_nat n) by lia. by split_and!.
Qed.

(** While the L1 cache has the value no read reaches a node. *)
Lemma loop_warm n i t c st v d :
  caches hot_key dttl (Some (v, d)) c ->
  (forall j, i <= j < i + Z.of_nat n -> it_now1 (its j) <= d) ->
  exists c', read_loop its n i t c st = (printed its i n, inr (total its i n t), c', st).
Proof.
  revert i t c. induction n as [|n IH]; intros i t c Hc Hd; [by exists c|].
  destruct (Get_warm (it_now1 (its i)) (it_now2 (its i)) (it_clk (its i)) dttl c st v d Hc
    ltac:(apply Hd; lia)) as (c1 & Hget & _ & Hc1).
  destruct (IH (i + 1) (i64 (t + elapsed its i)) c1 Hc1) as (c' & Hloop); [intros j Hj; apply Hd; lia|].
  exists c'. rewrite printed_step, total_step. simpl. rewrite Hget. unfold elapsed in *. by rewrite Hloop.
Qed.

(** The read that reaches the threshold is the last one a node sees. *)
Lemma loop_hot n m i t c st h room (j := i + Z.of_nat n) :
  caches hot_key dttl None c -> getConn c hot_key = inr (conn, id) -> good st -> holds e st ->
  (forall j, i <= j < i + Z.of_nat (S n) -> live j) -> heat h (S n + room) st ->
  h + Z.of_nat (S n) = thr ->
  (forall k, j < k <= j + Z.of_nat m -> it_now1 (its k) <= it_now2 (its j) + dttl) ->
  exists c1 st1 c2,
    read_loop its (S n) i t c st = (printed its i (S n), inr (total its i (S n) t), c1, st1) /\
    heat thr room st1 /\
    read_loop its (S n + m) i t c st
    = (printed its i (S n) ++ printed its (j + 1) m,
       inr (total its (j + 1) m (total its i (S n) t)), c2, st1).
Proof.
  intros Hc Hg Hst He Hl Hh Hthr Hd.
  destruct (loop_cold n i t c st h (S room) Hc Hg Hst He) as
    (c0 & st0 & Hloop & Hst0 & He0 & Hh0 & Hg0 & Hc0);
    [intros k Hk; apply Hl; lia|by replace (n + S room)%nat with (S n + room)%nat by lia|lia|].
  destruct (Hl j ltac:(lia)) as [L0 L2].
  destruct (Get_cold (it_now1 (its j)) (it_now2 (its j)) (it_clk (its j)) id dttl c0 st0 e
    (h + Z.of_nat n) room Hc0 Hg0 Hst0 He0 L0 L2 Hh0) as (c1 & st1 & Hget & _ & _ & Hh1 & _ & Hc1).
  replace (h + Z.of_nat n + 1) with thr in * by lia. rewrite Z.leb_refl in Hc1.
  assert (printed its i (S n) = printed its i n ++ printed its j 1 /\
    total its i (S n) t = total its j 1 (total its i n t)) as [Ep Et].
  { unfold printed, total. rewrite !Nat2Z.inj_succ, <- Z.add_1_r, seqZ_app by lia.
    rewrite fmap_app, concat_app, fold_left_app. done. }
  assert (read_loop its (S n) i t c st = (printed its i (S n), inr (total its i (S n) t), c1, st1))
    as Hloop1.
  { replace (S n) with (n + 1)%nat at 1 by lia. rewrite (read_loop_app _ _ _ _ _ _ _ _ _ _ _ Hloop).
    fold j. cbn [read_loop]. rewrite Hget, Ep, Et. by rewrite printed_step, total_step. }
  destruct (loop_warm m (j + 1) (total its i (S n) t) c1 st1 (Value e) (it_now2 (its j) + dttl) Hc1)
    as [c2 Hwarm]; [intros k Hk; apply Hd; lia|].
  exists c1, st1, c2. split_and!; [done|done|].
  rewrite (read_loop_app _ _ _ _ _ _ _ _ _ _ _ Hloop1).
  replace (i + Z.of_nat (S n)) with (j + 1) by lia. by rewrite Hwarm.
Qed.

Lemma add_nodes_l1 `{!SortSlice} dial ord c c' : add_nodes dial ord c = inr c' -> l1Cache c' = l1Cache c.
Proof.
  revert c. induction ord as [|[n a] ord IH]; intros c Ha; simpl in Ha; [by injection Ha as <-|].
  unfold addNode in Ha. destruct (dial a); [|done]. by apply IH in Ha.
Qed.
End hotkeytest.

(** The marked reads, and the sum of the two phases. *)
Lemma printed_marks its :
  printed its 1 100 ++ printed its 101 50
  = [Latency 1 (elapsed its 1) "gRPC to server";
     Latency 100 (elapsed its 100) "gRPC to server, Count-Min Sketch threshold reached";
     Latency 101 (elapsed its 101) "L1 cache intercepted!";
     Latency 150 (elapsed its 150) "L1 cache intercepted!"].
Proof. unfold printed. generalize (elapsed its). intros f. vm_compute. reflexivity. Qed.

Lemma total_halves its : total its 101 50 (total its 1 100 0) = total its 1 150 0.
Proof.
  unfold total. rewrite <- fold_left_app. change (Z.of_nat 150) with (100 + 50).
  by rewrite seqZ_app by lia.
Qed.


(** ** cmd/client/main.go *)

Section demo_client.
Context `{!CacheService St}.

Definition testData : gmap string string :=
  <["user:profile:alice" := "Alice Profile Data"]>
    (<["user:profile:bob" := "Bob Profile Data"]>
      (<["user:profile:charlie" := "Charlie Profile Data"]>
        (<["system:status" := "All systems nominal"]> ∅))).

Inductive demo_line :=
  | ConnectingLine
  | SettingKeys
  | DidSet (key value : string)
  | GettingKeys
  | Retrieved (key : string) (val : bytes)
  | KeyNotFound (key : string)
  | Completed.

(** [log.Fatalf] exits without the deferred [Close]. *)
Inductive demo_ending :=
  | Finished
  | FatalClient (err : client_error)
  | FatalSet (key : string) (err : client_error)
  | FatalGet (key : string) (err : client_error).

(** The two loops, from their [i]-th iteration on; [clks] and [reads] have the
    readings of each. *)
Fixpoint set_keys (clks : nat -> string -> nat -> Time) (i : nat) (data : list (string * string))
    (c : Client) (st : St) : list demo_line * option demo_ending * Client * St :=
  match data with
  | [] => ([], None, c, st)
  | (key, value) :: data =>
      match Set_ (clks i) key (bytes_of_string value) (30 * Second) c st with
      | (Some err, c, st) => ([], Some (FatalSet key err), c, st)
      | (None, c, st) =>
          let '(out, e, c, st) := set_keys clks (S i) data c st in (DidSet key value :: out, e, c, st)
      end
  end.

Fixpoint get_keys (reads : nat -> Time * Time * (string -> nat -> Time)) (i : nat)
    (data : list (string * string)) (c : Client) (st : St)
    : list demo_line * option demo_ending * Client * St :=
  match data with
  | [] => ([], None, c, st)
  | (key, _) :: data =>
      let '(now1, now2, clk) := reads i in
      match Get now1 now2 clk key c st with
      | (inl err, c, st) => ([], Some (FatalGet key err), c, st)
      | (inr (val, found), c, st) =>
          let '(out, e, c, st) := get_keys reads (S i) data c st in
          ((if found then Retrieved key val else KeyNotFound key) :: out, e, c, st)
      end
  end.

Definition client_main `{!SortSlice} (dial close_ok : string -> bool)
    (ord close_ord set_ord get_ord : list (string * string)) (clks : nat -> string -> nat -> Time)
    (reads : nat -> Time * Time * (string -> nat -> Time)) (st : St)
    : list demo_line * demo_ending * option Client * St :=
  match NewClient dial ord [WithDialTimeout (5 * Second); WithRequestTimeout (3 * Second);
                            WithL1Cache 1000 (5 * Second)] with
  | inl err => ([ConnectingLine], FatalClient err, None, st)
  | inr c =>
      let '(out1, e1, c, st) := set_keys clks 0 set_ord c st in
      match e1 with
      | Some e => ([ConnectingLine; SettingKeys] ++ out1, e, Some c, st)
      | None =>
          let '(out2, e2, c, st) := get_keys reads 0 get_ord c st in
          let out := [ConnectingLine; SettingKeys] ++ out1 ++ [GettingKeys] ++ out2 in
          match e2 with
          | Some e => (out, e, Some c, st)
          | None => (out ++ [Completed], Finished, Some (Close close_ok close_ord c).2, st)
          end
      end
  end.

(** *** Both loops on coherent nodes *)

Context {keys : gset string} {conn node : string -> string} {good : St -> Prop}.
Context {holds : string -> Entry -> St -> Prop} `{!CoherentOn keys conn node good holds}.

(** Every key has its connection, and the L1 cache is sound. *)
Definition routed (c : Client) : Prop :=
  l1_ok c /\ forall key, key ∈ keys -> exists id, getConn c key = inr (conn key, id).

Definition all_hold (es : list (string * Entry)) (st : St) : Prop :=
  forall key e, (key, e) ∈ es -> holds key e st.

(** The entries the first loop writes. *)
Definition entry_of (clks : nat -> string -> nat -> Time) (i : nat) (kv : string * string)
    : string * Entry :=
  (kv.1, written (clks i (node kv.1)) (bytes_of_string kv.2) (Milliseconds (30 * Second))).

Fixpoint entries_of (clks : nat -> string -> nat -> Time) (i : nat) (data : list (string * string))
    : list (string * Entry) :=
  match data with
  | [] => []
  | kv :: data => entry_of clks i kv :: entries_of clks (S i) data
  end.

Lemma Set_on clk key v ttl c st es :
  routed c -> key ∈ keys -> good st -> all_hold es st -> key ∉ es.*1 -> list_to_set es.*1 ⊆ keys ->
  exists st', Set_ clk key v ttl c st = (None, invalidate key c, st') /\ good st' /\
    all_hold (es ++ [(key, written (clk (node key)) v (Milliseconds ttl))]) st'.
Proof.
  intros [_ Hr] Hk Hst Hes Hn Hsub. destruct (Hr key Hk) as [id Hg].
  assert (getConn (invalidate key c) key = inr (conn key, id)) as Hgi
    by (rewrite <- Hg; unfold invalidate; by case_match).
  destruct (on_key key Hk) as [Hset _].
  destruct (Hset clk v (Milliseconds ttl) st Hst) as (st' & Hcall & Hst' & He).
  exists st'. unfold Set_. rewrite Hgi, Hcall. split_and!; [done|done|].
  intros key' e' [Hin|Hin]%elem_of_app.
  - assert (key' ∈ es.*1) as Hin1 by (by apply (list_elem_of_fmap_2 fst es (key', e'))).
    pose proof (on_set clk key key' v (Milliseconds ttl) e' st Hk) as Hf. rewrite Hcall in Hf.
    apply Hf; [apply Hsub; set_solver|by intros ->|done|by apply Hes].
  - apply list_elem_of_singleton in Hin. by injection Hin as -> ->.
Qed.

Lemma routed_invalidate key c : routed c -> routed (invalidate key c).
Proof.
  intros [Hok Hr]. split; [by apply invalidate_cached|].
  intros k Hk. destruct (Hr k Hk) as [id Hg]. exists id. rewrite <- Hg. unfold invalidate. by case_match.
Qed.

Lemma set_keys_ok clks data i c st es :
  routed c -> cached c = [] -> good st -> all_hold es st -> NoDup (es.*1 ++ data.*1) ->
  list_to_set (es.*1 ++ data.*1) ⊆ keys ->
  exists c' st', set_keys clks i data c st = ((fun kv => DidSet kv.1 kv.2) <$> data, None, c', st') /\
    routed c' /\ cached c' = [] /\ good st' /\ all_hold (es ++ entries_of clks i data) st'.
Proof.
  revert i c st es. induction data as [|[key value] data IH]; intros i c st es Hr Hnil Hst Hes Hnd Hsub.
  { exists c, st. rewrite app_nil_r. by split_and!. }
  simpl in Hnd, Hsub. pose proof Hnd as (_ & Hdis & _)%NoDup_app.
  destruct (Set_on (clks i) key (bytes_of_string value) (30 * Second) c st es) as (st1 & Hset & Hst1 & Hes1);
    try done; [set_solver|intros Hin; apply (Hdis key Hin); left|set_solver|].
  destruct (IH (S i) (invalidate key c) st1 (es ++ [entry_of clks i (key, value)]))
    as (c' & st' & Hloop & Hr' & Hnil' & Hst' & Hes').
  - by apply routed_invalidate.
  - destruct (invalidate_cached key c (proj1 Hr)) as (_ & _ & H). rewrite Hnil in H.
    destruct (cached (invalidate key c)) as [|x l]; [done|].
    destruct (H x ltac:(left)) as [[]%elem_of_nil _].
  - done.
  - exact Hes1.
  - by rewrite fmap_app, <- app_assoc.
  - by rewrite fmap_app, <- app_assoc.
  - exists c', st'. simpl. rewrite Hset, Hloop. rewrite <- app_assoc in Hes'. by split_and!.
Qed.

(** A read leaves the nodes alone or makes one call. *)
Lemma Get_state now1 now2 clk key c st :
  (Get now1 now2 clk key c st).2 = st \/
  exists cn id, getConn c key = inr (cn, id) /\
    (Get now1 now2 clk key c st).2 = (call_get clk cn key st).2.
Proof.
  assert (forall c1, getConn c1 key = getConn c key -> (fetch now2 clk key c1 st).2 = st \/
    exists cn id, getConn c key = inr (cn, id) /\
      (fetch now2 clk key c1 st).2 = (call_get clk cn key st).2) as Hf.
  { intros c1 Hg. unfold fetch. rewrite Hg. destruct (getConn c key) as [err|[cn id]]; [by left|].
    right. exists cn, id. split; [done|]. by destruct (call_get clk cn key st) as [[err|resp] st']. }
  unfold Get. destruct (l1Cache c); [|by apply Hf]. case_match. case_match; [by left|by apply Hf].
Qed.

Lemma Get_routes now1 now2 clk key c st :
  ring (Get now1 now2 clk key c st).1.2 = ring c /\ conns (Get now1 now2 clk key c st).1.2 = conns c.
Proof.
  assert (forall c1, ring (fetch now2 clk key c1 st).1.2 = ring c1 /\
    conns (fetch now2 clk key c1 st).1.2 = conns c1) as Hf.
  { intros c1. unfold fetch. destruct (getConn c1 key) as [err|[cn id]]; [done|].
    destruct (call_get clk cn key st) as [[err|resp] st']; [done|]. simpl.
    destruct (l1Cache c1); [by case_match|done]. }
  unfold Get. destruct (l1Cache c) as [l1|]; [|by apply Hf].
  destruct (L1Cache.Get now1 l1 key) as [[v|] l2]; [done|]. by apply (Hf (set_l1 (Some l2) c)).
Qed.

(** The L1 cache has no other values of these keys. *)
Definition all_cached (es : list (string * Entry)) (c : Client) : Prop :=
  forall key e, (key, e) ∈ es -> cached_only (key := key) (Value e) c.

Lemma NoDup_fst_unique {A B} (l : list (A * B)) k x y : NoDup l.*1 -> (k, x) ∈ l -> (k, y) ∈ l -> x = y.
Proof.
  intros Hnd H1 H2. pose proof (NoDup_fmap_eq fst l _ _ Hnd H1 H2 eq_refl) as E. by injection E.
Qed.

Lemma Get_on now1 now2 clk key e c st es :
  routed c -> list_to_set es.*1 ⊆ keys -> NoDup es.*1 -> good st -> all_hold es st ->
  all_cached es c -> (key, e) ∈ es -> IsExpired (clk (node key) 0%nat) e = false ->
  IsExpired (clk (node key) 2%nat) e = false ->
  exists c' st', Get now1 now2 clk key c st = (inr (Value e, true), c', st') /\
    routed c' /\ good st' /\ all_hold es st' /\ all_cached es c'.
Proof.
  intros [Hok Hr] Hsub Hnd Hst Hes Hca Hin H0 H2.
  assert (forall k x, (k, x) ∈ es -> k ∈ keys) as Hin'.
  { intros k x H. apply Hsub, elem_of_list_to_set. by apply (list_elem_of_fmap_2 fst es (k, x)). }
  pose proof (Hin' _ _ Hin) as Hk. destruct (Hr key Hk) as [id Hg].
  pose proof (on_key key Hk) as Hco.
  destruct (Get_coherent now1 now2 clk id c st e Hok (Hca key e Hin) Hg Hst (Hes key e Hin) H0 H2)
    as (c' & st' & Hget & Hst' & He' & Hok' & Hc').
  pose proof (Get_cached now1 now2 clk key c st _ c' st' Hok Hget) as (_ & _ & Hbind).
  exists c', st'. split_and!; [done| |done| |].
  - split; [done|]. intros k Hkk. destruct (Hr k Hkk) as [id' Hg']. exists id'. rewrite <- Hg'.
    destruct (Get_routes now1 now2 clk key c st) as [E1 E2]. rewrite Hget in E1, E2. simpl in E1, E2.
    unfold getConn. by rewrite E1, E2.
  - intros k x Hx. destruct (decide (k = key)) as [->|Hne].
    { by rewrite (NoDup_fst_unique es key x e Hnd Hx Hin). }
    pose proof (Get_state now1 now2 clk key c st) as Hs. rewrite Hget in Hs.
    destruct Hs as [Hs|(cn & id' & Hg' & Hs)]; simpl in Hs; subst st'; [by apply Hes|].
    rewrite Hg in Hg'. injection Hg' as <- <-. apply on_get; [done|by eapply Hin'|done|done|by apply Hes].
  - intros k x Hx w d Hw. destruct (decide (k = key)) as [->|Hne].
    { rewrite (NoDup_fst_unique es key x e Hnd Hx Hin). by apply (Hc' w d). }
    destruct (Hbind k w d Hw) as [H|(? & ? & ? & -> & _)]; [by apply (Hca k x Hx w d)|done].
Qed.

Lemma get_keys_ok reads data i c st es :
  routed c -> list_to_set es.*1 ⊆ keys -> NoDup es.*1 -> good st -> all_hold es st -> all_cached es c ->
  (forall j kv, data !! j = Some kv -> exists e, (kv.1, e) ∈ es /\ Value e = bytes_of_string kv.2 /\
     IsExpired ((reads (i + j)%nat).2 (node kv.1) 0%nat) e = false /\
     IsExpired ((reads (i + j)%nat).2 (node kv.1) 2%nat) e = false) ->
  exists c' st', get_keys reads i data c st
    = ((fun kv => Retrieved kv.1 (bytes_of_string kv.2)) <$> data, None, c', st').
Proof.
  revert i c st. induction data as [|[key value] data IH]; intros i c st Hr Hsub Hnd Hst Hes Hca Hl;
    [by exists c, st|].
  destruct (Hl 0%nat (key, value) eq_refl) as (e & Hin & Hv & H0 & H2). rewrite Nat.add_0_r in H0, H2.
  simpl. destruct (reads i) as [[now1 now2] clk]. simpl in *.
  destruct (Get_on now1 now2 clk key e c st es Hr Hsub Hnd Hst Hes Hca Hin H0 H2)
    as (c1 & st1 & -> & Hr1 & Hst1 & Hes1 & Hca1).
  destruct (IH (S i) c1 st1 Hr1 Hsub Hnd Hst1 Hes1 Hca1) as (c' & st' & ->).
  { intros j kv Hj. destruct (Hl (S j) kv Hj) as (e' & H). rewrite Nat.add_succ_r in H. by exists e'. }
  exists c', st'. by rewrite Hv.
Qed.

Lemma entries_of_fst clks i data : (entries_of clks i data).*1 = data.*1.
Proof. revert i. induction data as [|kv data IH]; intros i; [done|]. simpl. by rewrite IH. Qed.

Lemma elem_of_entries clks i data j kv :
  data !! j = Some kv -> entry_of clks (i + j) kv ∈ entries_of clks i data.
Proof.
  revert i j. induction data as [|kv' data IH]; intros i j Hj; [done|].
  destruct j as [|j]; simpl in Hj; [injection Hj as ->; rewrite Nat.add_0_r; left|].
  right. rewrite Nat.add_succ_r. by apply (IH (S i)).
Qed.
End demo_client.

(** C24: cmd/client reads back what it wrote: against nodes that are coherent on
    its four keys, whatever the order in which the two loops visit the map and
    whatever the L1 cache keeps in between, the program ends normally, having
    set every key and retrieved every key with its own value, when no entry
    outlives its thirty seconds before it is read. *)
Theorem client_main_reads_back `{!SortSlice} `{!CacheService St} (conn node : string -> string)
    (good : St -> Prop) (holds : string -> Entry -> St -> Prop) (dial close_ok : string -> bool)
    (ord close_ord set_ord get_ord : list (string * string)) (clks : nat -> string -> nat -> Time)
    (reads : nat -> Time * Time * (string -> nat -> Time)) (c : Client) (st : St) :
  CoherentOn (dom testData) conn node good holds ->
  is_range testData set_ord -> is_range testData get_ord ->
  NewClient dial ord [WithDialTimeout (5 * Second); WithRequestTimeout (3 * Second);
                      WithL1Cache 1000 (5 * Second)] = inr c ->
  (forall key, key ∈ dom testData -> exists id, getConn c key = inr (conn key, id)) -> good st ->
  (forall i j key value, set_ord !! i = Some (key, value) -> get_ord !! j = Some (key, value) ->
     let e := written (clks i (node key)) (bytes_of_string value) (Milliseconds (30 * Second)) in
     IsExpired ((reads j).2 (node key) 0%nat) e = false /\
     IsExpired ((reads j).2 (node key) 2%nat) e = false) ->
  exists closed st',
    client_main dial close_ok ord close_ord set_ord get_ord clks reads st
    = ([ConnectingLine; SettingKeys] ++ ((fun kv => DidSet kv.1 kv.2) <$> set_ord) ++ [GettingKeys] ++
         ((fun kv => Retrieved kv.1 (bytes_of_string kv.2)) <$> get_ord) ++ [Completed],
       Finished, Some closed, st').
Proof.
  intros Hco Hs Hg Hnew Hconn Hst Hlive.
  assert (l1Cache c = Some (NewL1Cache 1000 (5 * Second))) as Hl1
    by apply (add_nodes_l1 dial ord _ c Hnew).
  assert (routed (keys := dom testData) (conn := conn) c) as Hr.
  { split; [|done]. intros l1. rewrite Hl1. intros [= <-]. apply NewL1Cache_wf. }
  assert (list_to_set set_ord.*1 ⊆ dom testData) as Hsub.
  { intros k (kv & -> & Hin)%elem_of_list_to_set%list_elem_of_fmap. destruct kv as [k v].
    apply (is_range_elem testData set_ord) in Hin; [|done]. by apply elem_of_dom_2 in Hin. }
  pose proof (is_range_NoDup testData set_ord Hs) as Hnd.
  destruct (set_keys_ok clks set_ord 0 c st [] Hr) as (c1 & st1 & Hset & Hr1 & Hnil & Hst1 & Hes);
    try done; [unfold cached; by rewrite Hl1|by intros ? ? []%elem_of_nil|].
  destruct (get_keys_ok reads get_ord 0 c1 st1 (entries_of (node := node) clks 0 set_ord) Hr1)
    as (c2 & st2 & Hget); rewrite ?entries_of_fst; try done.
  { intros key e _ w d. rewrite Hnil. by intros []%elem_of_nil. }
  { intros j [key value] Hj. pose proof (list_elem_of_lookup_2 _ _ _ Hj) as Hin.
    apply (is_range_elem testData get_ord) in Hin; [|done].
    apply (is_range_elem testData set_ord) in Hin; [|done].
    apply list_elem_of_lookup in Hin as [i Hi].
    eexists. split; [exact (elem_of_entries (node := node) clks 0 set_ord i (key, value) Hi)|].
    split; [done|]. by apply (Hlive i j). }
  exists (Close close_ok close_ord c2).2, st2. unfold client_main. rewrite Hnew, Hset, Hget.
  by rewrite <- !app_assoc.
Qed.

(** ** cmd/pingtest/main.go *)

Inductive ping_line :=
  | Dialing (name addr : string)
  | DialFailed (name : string)
  | PingFailed (name : string) (err : rpc_error)
  | PingOk (resp : PingResponse).

(** The connections stay open until the program ends. *)
Fixpoint pingtest_main `{!CacheService St} (dial : string -> bool)
    (clks : nat -> string -> nat -> Time) (i : nat) (ord : list (string * string)) (st : St)
    : list ping_line * St :=
  match ord with
  | [] => ([], st)
  | (name, addr) :: ord =>
      let '(verdict, st) :=
        if dial addr then
          match call_ping (clks i) addr st with
          | (inl err, st) => (PingFailed name err, st)
          | (inr resp, st) => (PingOk resp, st)
          end
        else (DialFailed name, st) in
      let '(out, st) := pingtest_main dial clks (S i) ord st in
      (Dialing name addr :: verdict :: out, st)
  end.

(** The verdict on one node of a cluster. *)
Definition verdict (cancelled : string -> bool) (node_at : string -> option string)
    (ords : string -> list (list (string * Entry))) (dial : string -> bool)
    (clk : string -> nat -> Time) (name addr : string) (c : cluster) : ping_line :=
  if dial addr then
    match node_at addr ≫= fun id => pair id <$> c !! id with
    | Some (id, cs) =>
        match gate (cancelled id) cs with
        | Some err => PingFailed name err
        | None => PingOk (mkPingResponse (cs_nodeID cs)
                    (Milliseconds (Sub (clk id 0%nat) (cs_startTime cs))) (Store.Len (clk id 0%nat) (ords id)))
        end
    | None => PingFailed name (ErrUnavailable "connection error")
    end
  else DialFailed name.

(** pingtest gives one verdict per node and changes no node: a node that cannot
    be dialled, is down or injects faults is reported as such, whatever the
    others do, and a node that answers is reported with its ID, uptime and
    number of keys. *)
Theorem pingtest_verdicts (net : string -> string -> bool) (cancelled : string -> bool)
    (node_at : string -> option string) (ords : string -> list (list (string * Entry)))
    (dial : string -> bool) (clks : nat -> string -> nat -> Time) (i : nat)
    (ord : list (string * string)) (c : cluster) :
  pingtest_main (CacheService0 := cluster_service net cancelled node_at ords) dial clks i ord c
  = (concat (imap (fun j e => [Dialing e.1 e.2;
       verdict cancelled node_at ords dial (clks (i + j)%nat) e.1 e.2 c]) ord), c).
Proof.
  revert i. induction ord as [|[name addr] ord IH]; intros i; [done|]. simpl.
  rewrite Nat.add_0_r. rewrite (imap_ext _ (fun j e => [Dialing e.1 e.2;
    verdict cancelled node_at ords dial (clks (S i + j)%nat) e.1 e.2 c]) ord)
    by (intros j x _; unfold compose; by rewrite Nat.add_succ_r).
  specialize (IH (S i)). unfold verdict at 1. destruct (dial addr); [|by rewrite IH].
  destruct (node_at addr) as [id|]; simpl; [|by rewrite IH].
  destruct (c !! id) as [cs|]; simpl; [|by rewrite IH].
  destruct (gate (cancelled id) cs); by rewrite IH.
Qed.

(** ** The tools against three nodes *)

(** A client that reaches all the nodes, and the ring it then has. *)
Definition tool_client (opts : list Option) : Client := dialled tool_nodes opts.

Definition tool_ring : Ring := dialled_ring tool_nodes.

Lemma tool_client_ok opts :
  Forall standard opts ->
  NewClient (fun _ => true) (map_to_list tool_nodes) opts = inr (tool_client opts) /\
  client_ok (tool_client opts) /\ conns (tool_client opts) = tool_nodes /\
  ring (tool_client opts) = tool_ring.
Proof. exact (dialled_ok tool_nodes opts). Qed.

Lemma tool_ring_ok : ring_wf tool_ring /\ nodeVnodes tool_ring = 150 /\ dom (nodes tool_ring) = dom tool_nodes.
Proof. exact (dialled_ring_ok tool_nodes). Qed.

#[local] Opaque tool_ring tool_client.

Definition tool_primary (key : string) : string := default "" (head (preference tool_ring key)).
Definition tool_addr (key : string) : string := default "" (tool_nodes !! tool_primary key).

Definition tool_node_at (addr : string) : option string :=
  if String.eqb addr "127.0.0.1:7001" then Some "node-1"
  else if String.eqb addr "127.0.0.1:7002" then Some "node-2"
  else if String.eqb addr "127.0.0.1:7003" then Some "node-3" else None.

Lemma tool_node id addr : tool_nodes !! id = Some addr -> tool_node_at addr = Some id.
Proof.
  unfold tool_nodes. rewrite !lookup_insert_Some, lookup_empty.
  intros [[<- <-]|[_ [[<- <-]|[_ [[<- <-]|[_ [=]]]]]]]; reflexivity.
Qed.

Lemma tool_nodes_nonempty : dom tool_nodes <> ∅.
Proof. unfold tool_nodes. rewrite dom_insert_L. set_solver. Qed.

(** The client sends a key to its primary. *)
Lemma tool_routes opts key :
  Forall standard opts ->
  getConn (tool_client opts) key = inr (tool_addr key, tool_primary key) /\
  head (preference tool_ring key) = Some (tool_primary key) /\
  tool_nodes !! tool_primary key = Some (tool_addr key) /\
  tool_node_at (tool_addr key) = Some (tool_primary key).
Proof.
  intros Hs. destruct (tool_client_ok opts Hs) as (_ & Hok & Hc & Hr).
  destruct (getConn_ok (tool_client opts) key Hok) as (id & addr & Hp & Ha & Hg).
  { rewrite Hc. exact tool_nodes_nonempty. }
  rewrite Hr in Hp. rewrite Hc in Ha. rewrite Hg. unfold tool_addr, tool_primary. rewrite Hp. simpl.
  rewrite Ha. simpl. split; [reflexivity|]. split; [reflexivity|]. split; [reflexivity|].
  exact (tool_node id addr Ha).
Qed.

Definition tool_server (id : string) : CacheServer :=
  NewCacheServer 0 id demo_store tool_ring (demo_rm id) NewFaultInjector
    (NewMitigator (NewDetector 100 (60 * Second)) 4).

Definition tool_cluster : cluster := map_imap (fun id _ => Some (tool_server id)) tool_nodes.

Definition tool_service : CacheService cluster :=
  cluster_service up uncancelled tool_node_at (fun _ => []).

Lemma tool_cluster_lookup id : tool_cluster !! id = (fun _ => tool_server id) <$> tool_nodes !! id.
Proof. unfold tool_cluster. rewrite map_lookup_imap. by destruct (tool_nodes !! id). Qed.

Lemma tool_cluster_primary key : tool_cluster !! tool_primary key = Some (tool_server (tool_primary key)).
Proof.
  rewrite tool_cluster_lookup. destruct (tool_routes [] key (Forall_nil_2 _)) as (_ & _ & -> & _). done.
Qed.

Lemma tool_server_ok id :
  id ∈ dom tool_nodes -> server_ok 150 (dom tool_nodes) id (tool_server id).
Proof.
  intros Hid. destruct tool_ring_ok as (Hwf & Hcount & Hdom).
  constructor; cbn [tool_server NewCacheServer cs_nodeID cs_rep cs_ring cs_store];
    rewrite ?Hdom; [reflexivity|reflexivity|exact Hwf| |exact Hcount|exact Hid|reflexivity|].
  - unfold rm_wf. vm_compute. discriminate.
  - apply empty_store_wf. lia.
Qed.

Lemma tool_peers id n :
  n ∈ dom tool_nodes -> is_Some (peerConns (demo_rm id) !! n).
Proof.
  rewrite elem_of_dom. intros [a H]. unfold tool_nodes in H.
  rewrite !lookup_insert_Some, lookup_empty in H.
  destruct H as [[<- <-]|[_ [[<- <-]|[_ [[<- <-]|[_ [=]]]]]]]; vm_compute; by eexists.
Qed.

Lemma tool_healthy key :
  all_healthy 150 (dom tool_nodes) uncancelled key (preference tool_ring key) 2 tool_cluster.
Proof.
  intros id cs H. rewrite tool_cluster_lookup in H.
  destruct (tool_nodes !! id) as [a|] eqn:Ha; [|done]. injection H as <-.
  constructor; [apply tool_server_ok; by eapply elem_of_dom_2|reflexivity..| |reflexivity].
  intros n Hn _. destruct tool_ring_ok as (Hwf & _ & Hdom). apply tool_peers.
  rewrite <- Hdom. exact (proj1 (elem_of_preference tool_ring key n Hwf) Hn).
Qed.

Lemma tool_serving key :
  serving uncancelled 150 (dom tool_nodes) key (preference tool_ring key) 2 (tool_primary key)
    (tool_primary key) tool_cluster.
Proof. split; [apply tool_healthy|]. split; eexists; apply tool_cluster_primary. Qed.

(** The reads of a run, a millisecond apart, from the second [Second] on. *)
Definition tool_time (i : Z) : Time := Second + i * Millisecond.
Definition tool_its (i : Z) : iteration :=
  mkIteration (tool_time i) (tool_time i) (tool_time i) (tool_time i + 250) (demo_clk (tool_time i)).

(** An entry written at [tool_time i] lives for seconds. *)
Lemma tool_live_at ttl i j n k node v :
  ttl = 30 * Second \/ ttl = 60 * Second -> 0 <= i <= 1000 -> 0 <= j <= 1000 -> (n <= 10)%nat ->
  IsExpired (demo_clk (tool_time j) k n)
    (written (demo_clk (tool_time i) node) v (Milliseconds ttl)) = false.
Proof.
  intros Ht Hi Hj Hn. unfold IsExpired, written, deadline, IsZero, After, demo_clk; cbn [ExpiresAt].
  replace (req_ttl (Milliseconds ttl)) with ttl by (by destruct Ht as [->| ->]).
  destruct (Z.ltb_spec 0 ttl); [|by destruct Ht as [->| ->]].
  case_match; [done|]. apply Z.ltb_ge.
  unfold tool_time, Second, Millisecond in *. lia.
Qed.


Definition hot_options : list Option := [WithL1Cache 100 (10 * Second)].

Lemma hot_options_standard : Forall standard hot_options.
Proof. constructor; [|constructor]. right. right. by eexists _, _. Qed.

(** The detector of a fresh node. *)
Lemma tool_heat key room :
  Z.of_nat room < MaxUint64 -> primary_heat key (tool_primary key) 100 0 room tool_cluster.
Proof.
  intros Hr. exists (tool_server (tool_primary key)), [], (60 * Second).
  split_and!; [apply tool_cluster_primary|reflexivity|reflexivity| |exact Hr].
  pose proof (Estimate_bounds_aux 4096 4 ltac:(lia) ltac:(lia) [] key ltac:(done)) as H.
  unfold GetFrequency, tool_server. cbn [NewCacheServer cs_mit NewMitigator detector NewDetector sketch].
  unfold cms_run, freq in H. simpl fold_left in H. lia.
Qed.


Definition client_options : list Option :=
  [WithDialTimeout (5 * Second); WithRequestTimeout (3 * Second); WithL1Cache 1000 (5 * Second)].

Lemma client_options_standard : Forall standard client_options.
Proof.
  constructor; [left; by eexists|]. constructor; [right; left; by eexists|].
  constructor; [|constructor]. right. right. by eexists _, _.
Qed.

Lemma testData_keys key :
  key ∈ dom testData -> key ∈ ["user:profile:alice"; "user:profile:bob"; "user:profile:charlie"; "system:status"].
Proof.
  rewrite elem_of_dom. intros [v H]. unfold testData in H.
  rewrite !lookup_insert_Some, lookup_empty in H. rewrite !elem_of_cons, elem_of_nil.
  naive_solver.
Qed.

Lemma testData_unrelated key key' :
  key ∈ dom testData -> key' ∈ dom testData -> key' <> key -> unrelated key' key.
Proof.
  intros Hk%testData_keys Hk'%testData_keys Hne. split; [done|]. intros i.
  rewrite !elem_of_cons, elem_of_nil in Hk, Hk'. unfold ShardKeyName.
  destruct_or! Hk; destruct_or! Hk'; subst; done.
Qed.

Definition tool_clks (i : nat) : string -> nat -> Time := demo_clk (tool_time (Z.of_nat i)).
Definition tool_reads (i : nat) : Time * Time * (string -> nat -> Time) :=
  (tool_time (10 + Z.of_nat i), tool_time (10 + Z.of_nat i), demo_clk (tool_time (10 + Z.of_nat i))).

Lemma range_length (ord : list (string * string)) i kv :
  is_range testData ord -> ord !! i = Some kv -> (i < 4)%nat.
Proof. intros Hr Hi%lookup_lt_Some. by rewrite (is_range_length _ _ Hr) in Hi. Qed.

Lemma client_main_reads_back_witness :
  exists closed st',
    client_main (CacheService0 := tool_service) (fun _ => true) (fun _ => true)
      (map_to_list tool_nodes) [] (map_to_list testData) (rev (map_to_list testData))
      tool_clks tool_reads tool_cluster
    = ([ConnectingLine; SettingKeys] ++ ((fun kv => DidSet kv.1 kv.2) <$> map_to_list testData) ++
         [GettingKeys] ++ ((fun kv => Retrieved kv.1 (bytes_of_string kv.2)) <$> rev (map_to_list testData)) ++
         [Completed], Finished, Some closed, st').
Proof.
  destruct (tool_client_ok client_options client_options_standard) as (Hnew & _).
  pose proof (fun key => tool_routes client_options key client_options_standard) as Hr.
  pose proof (cluster_coherent_on up uncancelled tool_node_at (fun _ => []) 150 (dom tool_nodes) 2
    (dom testData) (preference tool_ring) tool_primary tool_primary tool_addr ltac:(reflexivity)
    ltac:(lia) (fun key _ => proj1 (proj2 (Hr key))) (fun key _ => proj2 (proj2 (proj2 (Hr key))))
    (fun key _ => or_introl eq_refl) testData_unrelated) as Hco.
  assert (is_range testData (rev (map_to_list testData))) as Hrev
    by (unfold is_range; symmetry; apply Permutation_rev).
  apply (client_main_reads_back tool_addr tool_primary _ _ (fun _ => true) (fun _ => true)
    (map_to_list tool_nodes) [] (map_to_list testData) (rev (map_to_list testData)) tool_clks tool_reads
    (tool_client client_options) tool_cluster Hco (is_range_self testData) Hrev Hnew).
  - intros key _. exists (tool_primary key). exact (proj1 (Hr key)).
  - intros key _. exact (tool_serving key).
  - intros i j key value Hi Hj. pose proof (range_length _ _ _ (is_range_self testData) Hi).
    pose proof (range_length _ _ _ Hrev Hj).
    split; (apply tool_live_at; [by left|lia..]).
Defined.
