(* ===== verification/Config.v ===== *)
(** * The configuration: config/config.go and the start of cmd/cachenode/main.go

    Defaults, file, command line and validation, and what the components make
    of the values that pass. *)

From S2P Require Import Prelude GoLib Sweeper HashRing Replication.

#[local] Open Scope Z_scope.

Record Config := mkConfig {
  NodeID : string;
  GRPCAddr : string;
  HTTPAddr : string;
  GossipAddr : string;
  SeedNodes : list string;
  ReplicaCount : Z;
  VirtualNodes : Z;
  SweepInterval : Duration;
  MaxLoadFactor : float64;
  LogLevel : string
}.

Definition DefaultConfig : Config :=
  mkConfig "" ":7001" ":9001" ":8001" [] 3 150 (100 * Millisecond) f_0_25 "info".

Definition set_NodeID (x : string) (c : Config) : Config :=
  mkConfig x (GRPCAddr c) (HTTPAddr c) (GossipAddr c) (SeedNodes c) (ReplicaCount c)
    (VirtualNodes c) (SweepInterval c) (MaxLoadFactor c) (LogLevel c).
Definition set_GRPCAddr (x : string) (c : Config) : Config :=
  mkConfig (NodeID c) x (HTTPAddr c) (GossipAddr c) (SeedNodes c) (ReplicaCount c)
    (VirtualNodes c) (SweepInterval c) (MaxLoadFactor c) (LogLevel c).
Definition set_HTTPAddr (x : string) (c : Config) : Config :=
  mkConfig (NodeID c) (GRPCAddr c) x (GossipAddr c) (SeedNodes c) (ReplicaCount c)
    (VirtualNodes c) (SweepInterval c) (MaxLoadFactor c) (LogLevel c).

(** [os.ReadFile]: the contents, no such file, or another error. *)
Inductive file := Contents (data : bytes) | NotExist | Unreadable (err : string).

(** [unmarshal] is yaml.v3: the fields of the document over those of its
    argument, or an error. *)
Definition LoadFromFile (unmarshal : bytes -> Config -> option Config) (f : file)
    : string + Config :=
  match f with
  | NotExist => inr DefaultConfig
  | Unreadable _ => inl "reading config file"
  | Contents data =>
      match unmarshal data DefaultConfig with
      | None => inl "parsing config file"
      | Some cfg => inr cfg
      end
  end.

(** [None] when the configuration is valid. *)
Definition Validate (c : Config) : option string :=
  if String.eqb (NodeID c) "" then Some "node_id is required"
  else if String.eqb (GRPCAddr c) "" then Some "grpc_addr is required"
  else if String.eqb (HTTPAddr c) "" then Some "http_addr is required"
  else if ReplicaCount c <? 1 then Some "replica_count must be >= 1"
  else if VirtualNodes c <? 1 then Some "virtual_nodes must be >= 1"
  else if SweepInterval c <=? 0 then Some "sweep_interval must be positive"
  else if flt (MaxLoadFactor c) f_0 then Some "max_load_factor must be >= 0"
  else None.

(** ** The start of [main] *)

(** The command line; an empty string is a flag that was not given. *)
Record flags := mkFlags {
  fl_config : string;
  fl_nodeID : string;
  fl_grpcAddr : string;
  fl_httpAddr : string
}.

Definition override (x : string) (set : string -> Config -> Config) (c : Config) : Config :=
  if String.eqb x "" then c else set x c.

(** [read] is the file system, [hostname] the machine's name; [inl] is
    [log.Fatalf]. *)
Definition configure (unmarshal : bytes -> Config -> option Config) (read : string -> file)
    (hostname : string) (fl : flags) : string + Config :=
  match (if String.eqb (fl_config fl) "" then inr DefaultConfig
         else LoadFromFile unmarshal (read (fl_config fl))) with
  | inl e => inl e
  | inr cfg =>
      let cfg := override (fl_nodeID fl) set_NodeID cfg in
      let cfg := override (fl_grpcAddr fl) set_GRPCAddr cfg in
      let cfg := override (fl_httpAddr fl) set_HTTPAddr cfg in
      let cfg := if String.eqb (NodeID cfg) ""
                 then set_NodeID ("node-" +:+ hostname +:+ "-" +:+ GRPCAddr cfg) cfg else cfg in
      match Validate cfg with
      | Some e => inl e
      | None => inr cfg
      end
  end.

Lemma Validate_None c :
  Validate c = None <->
  NodeID c <> "" /\ GRPCAddr c <> "" /\ HTTPAddr c <> "" /\ 1 <= ReplicaCount c /\
  1 <= VirtualNodes c /\ 0 < SweepInterval c /\ flt (MaxLoadFactor c) f_0 = false.
Proof.
  unfold Validate.
  destruct (String.eqb_spec (NodeID c) ""), (String.eqb_spec (GRPCAddr c) ""),
    (String.eqb_spec (HTTPAddr c) ""); try naive_solver.
  destruct (Z.ltb_spec (ReplicaCount c) 1); [naive_solver lia|].
  destruct (Z.ltb_spec (VirtualNodes c) 1); [naive_solver lia|].
  destruct (Z.leb_spec (SweepInterval c) 0); [naive_solver lia|].
  destruct (flt (MaxLoadFactor c) f_0); naive_solver.
Qed.

Lemma configure_valid unmarshal read hostname fl cfg :
  configure unmarshal read hostname fl = inr cfg -> Validate cfg = None.
Proof.
  unfold configure. destruct (if String.eqb _ "" then _ else _) as [e|cfg0]; [done|].
  cbv zeta. destruct (Validate _) eqn:Hv; [done|]. by intros [= <-].
Qed.

(** A node that gets past its configuration has an identity and addresses, and
    its ring, its replication manager and its sweeper take the configured values
    as they are: none of the fallbacks of their constructors is ever used. *)
Theorem configuration_taken (unmarshal : bytes -> Config -> option Config) (read : string -> file)
    (hostname : string) (fl : flags) (cfg : Config) :
  configure unmarshal read hostname fl = inr cfg ->
  NodeID cfg <> "" /\ GRPCAddr cfg <> "" /\ HTTPAddr cfg <> "" /\
  nodeVnodes (NewRing (VirtualNodes cfg) (MaxLoadFactor cfg)) = VirtualNodes cfg /\
  replicaCount (NewReplicationManager (NodeID cfg) (ReplicaCount cfg)) = ReplicaCount cfg /\
  NewSweeper (SweepInterval cfg) = SweepInterval cfg.
Proof.
  intros Hv%configure_valid.
  apply Validate_None in Hv. destruct Hv as (H1 & H2 & H3 & H4 & H5 & H6 & _).
  unfold NewSweeper. simpl. destruct (Z.leb_spec (VirtualNodes cfg) 0); [lia|].
  destruct (Z.ltb_spec (ReplicaCount cfg) 1); [lia|].
  destruct (Z.leb_spec (SweepInterval cfg) 0); [lia|]. done.
Qed.

(** Without flags a node always starts, under a name made of the machine's. *)
Theorem default_node_starts (unmarshal : bytes -> Config -> option Config) (read : string -> file)
    (hostname : string) :
  exists cfg, configure unmarshal read hostname (mkFlags "" "" "" "") = inr cfg /\
    NodeID cfg = "node-" +:+ hostname +:+ "-:7001" /\ SeedNodes cfg = [].
Proof. by eexists. Qed.
