(* ===== verification/Main.v ===== *)
(** * The process: cmd/cachenode/main.go

    How [main] builds a node from its configuration, what a request to its admin
    port does to the rest of the node, and how it shuts down.  The callbacks that
    [main] installs are in [Node]. *)

From stdpp Require Import relations.
From S2P Require Import Prelude GoLib Text Json Codec Store Sweeper Sketch Mitigator HashRing Chaos Replication Registry Gossip Membership Swim SwimInv Server ClusterProps Http Node Config.

#[local] Open Scope Z_scope.

(** ** A running node

    The objects [main] creates.  The gRPC server holds the store, the ring, the
    replication manager and the mitigator; the injector is one object that the
    server, the gossip component and the chaos endpoints point to.  The booleans
    tell which goroutines run. *)
Record CacheNode := mkCacheNode {
  cn_config : Config.Config;
  cn_server : CacheServer;
  cn_swim : node;
  cn_httpStart : Time;
  cn_sweeping : bool;
  cn_decaying : bool;
  cn_grpcUp : bool;
  cn_httpUp : bool
}.

(** How [main] ends before its servers run. *)
Inductive fatal :=
  | FatalConfig (msg : string)
  | FatalGossip (msg : string)
  | FatalPanic.

Section start.
Context `{!SortSlice}.
(** The YAML package, the file system, the machine's name and the command line. *)
Context (unmarshal : bytes -> Config.Config -> option Config.Config) (read : string -> file).
Context (hostname : string) (fl : flags).
(** The clock, whether the gossip socket resolves and opens, and the network
    the join requests are sent to. *)
Context (clk : nat -> Time) (resolved listening : bool).
Context (resolve : string -> option UDPAddr) (write_ok : UDPAddr -> bool).

(** The gossip component up to the call of its [Start]. *)
Definition main_swim (cfg : Config.Config) (fi : FaultInjector) : Membership :=
  let '(l, h) := alloc (NewNodeInfo (clk 0%nat) (Config.NodeID cfg) (Config.GRPCAddr cfg)
    (Config.GossipAddr cfg) (Config.HTTPAddr cfg)) ∅ in
  let m := NewMembership h l (NewNodeRegistry (Config.NodeID cfg)) in
  SetOnEvent true (SetFaultInjector (Some fi) m).

(** [if len(cfg.SeedNodes) > 0 { ... }]: a failed join is only logged. *)
Definition main_join (cfg : Config.Config) (m : Membership) : Membership :=
  match Config.SeedNodes cfg with
  | [] => m
  | seeds => (JoinCluster resolve write_ok seeds m).2
  end.

Definition main_server (cfg : Config.Config) (kvStore : Store) (fi : FaultInjector) : CacheServer :=
  NewCacheServer (clk 2%nat) (Config.NodeID cfg) kvStore
    (main_ring (Config.VirtualNodes cfg) (Config.MaxLoadFactor cfg) (Config.NodeID cfg))
    (NewReplicationManager (Config.NodeID cfg) (Config.ReplicaCount cfg)) fi
    (NewMitigator (NewDetector 100 (60 * Second)) 4).

Definition main_start : fatal + CacheNode :=
  match configure unmarshal read hostname fl with
  | inl e => inl (FatalConfig e)
  | inr cfg =>
      match New with
      | None => inl FatalPanic
      | Some kvStore =>
          let fi := NewFaultInjector in
          match Membership.Start resolved listening (main_swim cfg fi) with
          | (Some e, _) => inl (FatalGossip e)
          | (None, m) =>
              inr (mkCacheNode cfg (main_server cfg kvStore fi)
                     (mkNodeState (main_join cfg m) RRead PTick) (clk 1%nat) true true true true)
          end
      end
  end.
End start.

(** ** The admin port *)

Definition set_cs_fault (fi : FaultInjector) (cs : CacheServer) : CacheServer :=
  mkServer (cs_nodeID cs) (cs_store cs) (cs_ring cs) (cs_rep cs) fi (cs_mit cs) (cs_startTime cs)
    (hasRing cs) (hasRep cs) (hasFault cs) (hasMit cs).

(** The new value of the injector, seen by everything that points to it. *)
Definition inject (fi : FaultInjector) (n : CacheNode) : CacheNode :=
  mkCacheNode (cn_config n) (set_cs_fault fi (cn_server n))
    (mkNodeState (SetFaultInjector (Some fi) (mem (cn_swim n))) (recv (cn_swim n)) (ping (cn_swim n)))
    (cn_httpStart n) (cn_sweeping n) (cn_decaying n) (cn_grpcUp n) (cn_httpUp n).

Definition http_view (n : CacheNode) : HTTPServer :=
  NewHTTPServer (cn_httpStart n) (cs_nodeID (cn_server n)) (cs_store (cn_server n))
    (Some (cs_ring (cn_server n))) (cs_fault (cn_server n)).

(** A request to the admin port of a running node. *)
Definition admin_request (now : Time) (ords : list (list (string * Entry)))
    (ring_ord part_ord : list (string * bool)) (json_error : text -> string) (r : http_request)
    (n : CacheNode) : option (http_response * CacheNode) :=
  if cn_httpUp n then
    '(resp, h) ← ServeHTTP now ords ring_ord part_ord json_error r (http_view n);
    Some (resp, inject (ad_fault h) n)
  else None.

(** ** Shutdown *)

Definition set_server (cs : CacheServer) (n : CacheNode) : CacheNode :=
  mkCacheNode (cn_config n) cs (cn_swim n) (cn_httpStart n) (cn_sweeping n) (cn_decaying n)
    (cn_grpcUp n) (cn_httpUp n).
Definition set_swim (x : node) (n : CacheNode) : CacheNode :=
  mkCacheNode (cn_config n) (cn_server n) x (cn_httpStart n) (cn_sweeping n) (cn_decaying n)
    (cn_grpcUp n) (cn_httpUp n).
Definition set_running (grpc http decaying sweeping : bool) (n : CacheNode) : CacheNode :=
  mkCacheNode (cn_config n) (cn_server n) (cn_swim n) (cn_httpStart n) sweeping decaying grpc http.

(** [swim.Stop()]: the loops return once the channel and the socket are closed. *)
Definition stop_swim (x : node) : node :=
  mkNodeState (Stop_timers (Stop_close (Stop_leave (mem x)))) RDone PDone.

(** The calls of [main] after the signal, in their order; [None] is a panic.
    The replication goroutines are not waited for. *)
Definition main_stop (n : CacheNode) : option CacheNode :=
  let n := set_running false (cn_httpUp n) (cn_decaying n) (cn_sweeping n) n in
  let n := set_running false false (cn_decaying n) (cn_sweeping n) n in
  let n := set_swim (stop_swim (cn_swim n)) n in
  rm ← Close (cs_rep (cn_server n));
  let n := set_server (set_rep rm (cn_server n)) n in
  let n := set_running false false false (cn_sweeping n) n in
  Some (set_running false false false false n).

(** ** What a started node is *)

(** Every object that holds the injector holds the same. *)
Definition shares_injector (n : CacheNode) : Prop :=
  injector (mem (cn_swim n)) = Some (cs_fault (cn_server n)) /\ hasFault (cn_server n) = true.

Record node_sound (resolve : string -> option UDPAddr) (n : CacheNode) : Prop := {
  ns_server : server_ok (Config.VirtualNodes (cn_config n)) {[Config.NodeID (cn_config n)]}
    (Config.NodeID (cn_config n)) (cn_server n);
  ns_swim : reachable resolve (cn_swim n);
  ns_self : selfID (mem (cn_swim n)) = Config.NodeID (cn_config n);
  ns_injector : shares_injector n
}.

Lemma main_ring_sound `{!SortSlice} count eps id :
  1 <= count ->
  ring_wf (main_ring count eps id) /\ nodeVnodes (main_ring count eps id) = count /\
  dom (HashRing.nodes (main_ring count eps id)) = {[id]}.
Proof.
  intros Hc. pose proof (AddNode_wf id (NewRing count eps) (NewRing_wf count eps)) as [].
  split_and!.
  - by constructor.
  - transitivity (nodeVnodes (NewRing count eps)); [done|].
    unfold NewRing. cbn [nodeVnodes]. destruct (Z.leb_spec count 0); lia.
  - transitivity ({[id]} ∪ ∅ : gset string); [|apply (right_id_L ∅ (∪))].
    exact (dom_AddNode id (NewRing count eps) (NewRing_wf count eps)).
Qed.

Lemma JoinCluster_injector resolve w seeds m :
  injector (JoinCluster resolve w seeds m).2 = injector m.
Proof.
  unfold JoinCluster. destruct seeds as [|a seeds]; [done|]. set (f := join_seed resolve w _).
  assert (forall l jm, injector (fold_left f l jm).2 = injector jm.2) as Hf.
  { induction l as [|x l IH]; intros [j m1]; [done|]. simpl fold_left. rewrite IH.
    subst f. unfold join_seed, WriteToUDP. repeat case_match; done. }
  specialize (Hf (a :: seeds) (false, m)). by destruct (fold_left f (a :: seeds) (false, m)) as [[] m'].
Qed.

(** ** Properties of the process *)

Section main.
Context `{!SortSlice} (unmarshal : bytes -> Config.Config -> option Config.Config) (read : string -> file).
Context (hostname : string) (fl : flags) (clk : nat -> Time) (resolved listening : bool).
Context (resolve : string -> option UDPAddr) (write_ok : UDPAddr -> bool).

Abbreviation started :=
  (main_start unmarshal read hostname fl clk resolved listening resolve write_ok).

Lemma main_start_inv n :
  started = inr n ->
  exists cfg kvStore,
    configure unmarshal read hostname fl = inr cfg /\ New = Some kvStore /\
    let b := boot (clk 0%nat) (Config.NodeID cfg) (Config.GRPCAddr cfg) (Config.GossipAddr cfg)
               (Config.HTTPAddr cfg) true (Some NewFaultInjector) in
    n = mkCacheNode cfg (main_server clk cfg kvStore NewFaultInjector)
          (mkNodeState (main_join resolve write_ok cfg (mem b)) RRead PTick) (clk 1%nat) true true true true.
Proof.
  unfold main_start. destruct (configure _ _ _ _) as [e|cfg]; [done|].
  destruct New as [kvStore|]; [|done]. unfold Membership.Start.
  destruct resolved; [|done]. destruct listening; [|done]. intros [= <-].
  by exists cfg, kvStore.
Qed.

Lemma main_node_sound n : started = inr n -> node_sound resolve n.
Proof.
  intros (cfg & kvStore & Hcfg & Hst & ->)%main_start_inv.
  pose proof (configure_valid _ _ _ _ _ Hcfg) as Hv. apply Validate_None in Hv as (_ & _ & _ & _ & Hvn & _).
  destruct (main_ring_sound (Config.VirtualNodes cfg) (Config.MaxLoadFactor cfg) (Config.NodeID cfg) Hvn)
    as (Hwf & Hcount & Hdom).
  set (b := boot _ _ _ _ _ _ _). constructor; cbn [cn_config cn_server cn_swim mem].
  - constructor; cbn [main_server NewCacheServer cs_nodeID cs_rep cs_ring cs_store]; rewrite ?Hdom; try done.
    { apply NewReplicationManager_wf. }
    { by apply elem_of_singleton. }
    apply NewWithShards_Some in Hst as (k & Hk & ->). by apply empty_store_wf.
  - exists (clk 0%nat), (Config.NodeID cfg), (Config.GRPCAddr cfg), (Config.GossipAddr cfg),
      (Config.HTTPAddr cfg), true, (Some NewFaultInjector). unfold main_join.
    destruct (Config.SeedNodes cfg) as [|a seeds]; [done|].
    destruct (JoinCluster resolve write_ok (a :: seeds) (mem b)) as [err m] eqn:E.
    apply rtc_once. by eapply (step_join resolve (mem b) RRead PTick).
  - unfold main_join. destruct (Config.SeedNodes cfg) as [|a seeds]; [done|].
    by destruct (JoinCluster_core resolve write_ok (a :: seeds) (mem b)) as [-> _].
  - split; [|done]. cbn [cn_swim mem]. unfold main_join.
    destruct (Config.SeedNodes cfg) as [|a seeds]; [done|]. by rewrite JoinCluster_injector.
Qed.
End main.

Lemma single_cluster_ok count id cs :
  server_ok count {[id]} id cs -> cluster_ok count {[id]} {[id := cs]}.
Proof. intros H id' cs' [<- <-]%lookup_singleton_Some. done. Qed.

Lemma single_no_collision count id : no_collision count {[id]}.
Proof. intros a b i j ->%elem_of_singleton ->%elem_of_singleton Hne. done. Qed.


Definition demo_start : fatal + CacheNode :=
  main_start (fun _ cfg => Some cfg) (fun _ => NotExist) "host" (mkFlags "" "node-1" "" "")
    (fun n => Z.of_nat n) true true (fun a => Some a) (fun _ => true).

Definition demo_node : CacheNode :=
  match demo_start with
  | inr n => n
  | inl _ => mkCacheNode DefaultConfig (demo_server "") (boot 0 "" "" "" "" true None) 0 false false false false
  end.

Lemma demo_node_sound : node_sound (fun a => Some a) demo_node.
Proof.
  apply (main_node_sound (fun _ cfg => Some cfg) (fun _ => NotExist) "host" (mkFlags "" "node-1" "" "")
    (fun n => Z.of_nat n) true true (fun a => Some a) (fun _ => true)). reflexivity.
Qed.


(** ** The injector of a running node *)

Lemma inject_reachable resolve fi n : reachable resolve (cn_swim n) -> reachable resolve (cn_swim (inject fi n)).
Proof.
  intros (now & id & g & s & h & cb & fi0 & Hr). exists now, id, g, s, h, cb, fi0.
  eapply rtc_r; [exact Hr|]. unfold inject. cbn [cn_swim].
  destruct (cn_swim n) as [m r p]. apply step_inject.
Qed.

Lemma admin_chaos now ords ring_ord part_ord json_error r n :
  chaos_ok r -> cn_httpUp n = true ->
  exists resp, admin_request now ords ring_ord part_ord json_error (http_of r) n
      = Some (resp, inject (serve (cs_fault (cn_server n)) r).2 n) /\
    http_code resp = (serve (cs_fault (cn_server n)) r).1.
Proof.
  intros Hr Hup. destruct (chaos_http now ords ring_ord part_ord json_error r (http_view n) Hr)
    as (resp & E & Hc). exists resp. unfold admin_request. rewrite Hup, E. done.
Qed.



(** ** Shutdown *)


(** A write that is still being replicated when the node stops. *)
Definition busy_node : CacheNode :=
  set_server (set_rep (set_outbox [("node-2", mkReplicate "k" [Byte.x07] 0 1 "node-1" OpSet)]
    (cs_rep (cn_server demo_node))) (cn_server demo_node)) demo_node.

