(* ===== verification/LoadTest.v ===== *)
(** * The load test: cmd/loadtest/main.go

    The workers share a client, a budget of operations and the counters of the
    report.  [step] interleaves them: a step is one atomic operation, one
    critical section or one call of the client, after which the worker stands
    at the next point of its loop.  The random choices are choices of the
    step. *)

From stdpp Require Import relations.
From S2P Require Import Prelude GoLib Text Chaos Server ClusterProps HashRing Client Http.

#[local] Open Scope Z_scope.

(** ** Constants *)

Definition numWorkers : nat := 8.
Definition totalOps : Z := 5000000.
Definition keyRange : Z := 1000.
Definition valSizeBytes : nat := 512.

Definition payload : bytes := replicate valSizeBytes Byte.x41.

(** [fmt.Sprintf("loadkey:%d", n)] *)
Definition load_key (n : Z) : string := "loadkey:" +:+ fmt_d n.

(** The cluster the test runs against, and its client; [main] panics when there
    is none. *)
Definition load_nodes : gmap string string :=
  <["node-1" := "127.0.0.1:7001"]> (<["node-2" := "127.0.0.1:7002"]>
    (<["node-3" := "127.0.0.1:7003"]> ∅)).

Definition load_client `{!SortSlice} (dial : string -> bool) (ord : list (string * string))
    : client_error + Client :=
  NewClient dial ord [WithDialTimeout (5 * Second); WithRequestTimeout (2 * Second);
                      WithL1Cache 500 (10 * Second)].

(** ** State *)

(** Where a worker stands: before taking an operation, before the call, or
    before the updates that its result requires. *)
Inductive worker :=
  | WTake
  | WCall
  | WFailed (err : client_error)     (* before errorsCount.Add *)
  | WErrMap (err : client_error)     (* before errsMu.Lock *)
  | WWrote                           (* before writeOps.Add *)
  | WRead (found : bool)             (* before readOps.Add *)
  | WFound (found : bool)            (* before readHits.Add or readMisses.Add *)
  | WDone.

#[global] Instance worker_done_dec (w : worker) : Decision (WDone = w).
Proof. by destruct w; first [left; reflexivity | right; discriminate]. Defined.

(** ** Sums *)

(** The sum of the values of a map. *)
Definition map_sum (m : gmap string Z) : Z := map_fold (fun _ v s => v + s) 0 m.

Lemma map_sum_insert_new m k v : m !! k = None -> map_sum (<[k := v]> m) = v + map_sum m.
Proof. intros H. unfold map_sum. apply map_fold_insert_L; [lia|done]. Qed.

Lemma map_sum_delete m k v : m !! k = Some v -> map_sum m = v + map_sum (delete k m).
Proof. intros H. rewrite <- (insert_delete_id m k v H) at 1. apply map_sum_insert_new, lookup_delete_eq. Qed.

Lemma map_sum_insert m k v : map_sum (<[k := v]> m) = map_sum m - default 0 (m !! k) + v.
Proof.
  destruct (m !! k) as [v0|] eqn:E.
  - rewrite <- insert_delete_eq, map_sum_insert_new by apply lookup_delete_eq.
    rewrite (map_sum_delete m k v0 E). simpl. lia.
  - rewrite map_sum_insert_new by done. simpl. lia.
Qed.

Lemma map_sum_nonneg m : map_Forall (fun _ v => 0 <= v) m -> 0 <= map_sum m.
Proof.
  induction m as [|k v m Hk IH] using map_ind; [done|].
  intros H. apply map_Forall_insert in H as [Hv H]; [|done]. rewrite map_sum_insert_new by done.
  specialize (IH H). simpl in Hv. lia.
Qed.

Lemma map_sum_lookup m k : map_Forall (fun _ v => 0 <= v) m -> 0 <= default 0 (m !! k) <= map_sum m.
Proof.
  intros H. destruct (m !! k) as [v|] eqn:E; simpl; [|split; [done|by apply map_sum_nonneg]].
  rewrite (map_sum_delete m k v E). pose proof (H k v E) as Hv. simpl in Hv.
  pose proof (map_sum_nonneg (delete k m) ltac:(by apply map_Forall_delete)). lia.
Qed.

Section loadtest.
Context `{!CacheService St}.
(** The text of an error. *)
Context (message : client_error -> string).

Record state := mkState {
  workers : list worker;
  opsRemaining : Z;       (* int64 *)
  writeOps : Z;           (* uint64, as the next four *)
  readOps : Z;
  readHits : Z;
  readMisses : Z;
  errorsCount : Z;
  errMap : gmap string Z;
  sdk : Client;
  net_state : St
}.

Definition set_worker (i : nat) (w : worker) (s : state) : state :=
  mkState (<[i := w]> (workers s)) (opsRemaining s) (writeOps s) (readOps s) (readHits s) (readMisses s)
    (errorsCount s) (errMap s) (sdk s) (net_state s).

(** [atomic.AddInt64(&opsRemaining, -1)] and the test of its result. *)
Definition take_op (i : nat) (s : state) : state :=
  let ops := i64 (opsRemaining s - 1) in
  mkState (<[i := if ops <? 0 then WDone else WCall]> (workers s)) ops (writeOps s) (readOps s)
    (readHits s) (readMisses s) (errorsCount s) (errMap s) (sdk s) (net_state s).

Definition call_set (i : nat) (clk : string -> nat -> Time) (key : string) (s : state) : state :=
  let '(err, c, st) := Client.Set_ clk key payload (30 * Second) (sdk s) (net_state s) in
  mkState (<[i := match err with Some e => WFailed e | None => WWrote end]> (workers s))
    (opsRemaining s) (writeOps s) (readOps s) (readHits s) (readMisses s) (errorsCount s) (errMap s) c st.

Definition call_get (i : nat) (now1 now2 : Time) (clk : string -> nat -> Time) (key : string)
    (s : state) : state :=
  let '(res, c, st) := Client.Get now1 now2 clk key (sdk s) (net_state s) in
  mkState (<[i := match res with inl e => WFailed e | inr (_, found) => WRead found end]> (workers s))
    (opsRemaining s) (writeOps s) (readOps s) (readHits s) (readMisses s) (errorsCount s) (errMap s) c st.

Definition add_error (i : nat) (e : client_error) (s : state) : state :=
  mkState (<[i := WErrMap e]> (workers s)) (opsRemaining s) (writeOps s) (readOps s) (readHits s)
    (readMisses s) (u64 (errorsCount s + 1)) (errMap s) (sdk s) (net_state s).

(** [errMap[err.Error()]++] under the lock. *)
Definition count_error (i : nat) (e : client_error) (s : state) : state :=
  mkState (<[i := WTake]> (workers s)) (opsRemaining s) (writeOps s) (readOps s) (readHits s)
    (readMisses s) (errorsCount s)
    (<[message e := i64 (default 0 (errMap s !! message e) + 1)]> (errMap s)) (sdk s) (net_state s).

Definition add_write (i : nat) (s : state) : state :=
  mkState (<[i := WTake]> (workers s)) (opsRemaining s) (u64 (writeOps s + 1)) (readOps s) (readHits s)
    (readMisses s) (errorsCount s) (errMap s) (sdk s) (net_state s).

Definition add_read (i : nat) (found : bool) (s : state) : state :=
  mkState (<[i := WFound found]> (workers s)) (opsRemaining s) (writeOps s) (u64 (readOps s + 1))
    (readHits s) (readMisses s) (errorsCount s) (errMap s) (sdk s) (net_state s).

Definition add_found (i : nat) (found : bool) (s : state) : state :=
  mkState (<[i := WTake]> (workers s)) (opsRemaining s) (writeOps s) (readOps s)
    (if found then u64 (readHits s + 1) else readHits s)
    (if found then readMisses s else u64 (readMisses s + 1))
    (errorsCount s) (errMap s) (sdk s) (net_state s).

Inductive step : state -> state -> Prop :=
  | step_take i s : workers s !! i = Some WTake -> step s (take_op i s)
  | step_set i clk n s :
      workers s !! i = Some WCall -> 0 <= n < keyRange -> step s (call_set i clk (load_key n) s)
  | step_get i now1 now2 clk n s :
      workers s !! i = Some WCall -> 0 <= n < keyRange -> step s (call_get i now1 now2 clk (load_key n) s)
  | step_failed i e s : workers s !! i = Some (WFailed e) -> step s (add_error i e s)
  | step_err_map i e s : workers s !! i = Some (WErrMap e) -> step s (count_error i e s)
  | step_wrote i s : workers s !! i = Some WWrote -> step s (add_write i s)
  | step_read i found s : workers s !! i = Some (WRead found) -> step s (add_read i found s)
  | step_found i found s : workers s !! i = Some (WFound found) -> step s (add_found i found s).

(** [n] workers with [ops] operations. *)
Definition start (n : nat) (ops : Z) (c : Client) (st : St) : state :=
  mkState (replicate n WTake) ops 0 0 0 0 0 ∅ c st.

(** [wg.Wait()] returns. *)
Definition finished (s : state) : Prop := Forall (eq WDone) (workers s).

(** ** The report *)

Definition total (s : state) : Z := u64 (u64 (writeOps s + readOps s) + errorsCount s).

Definition hitRate (s : state) : text :=
  fmt_f2 (if 0 <? readOps s
          then fmul (fdiv (float64_of_int (readHits s)) (float64_of_int (readOps s))) (float64_of_int 100)
          else f_0).

(** ** The invariant *)

Definition is_done (w : worker) : Z := match w with WDone => 1 | _ => 0 end.

(** A worker that took an operation which no counter shows yet. *)
Definition in_flight (w : worker) : Z :=
  match w with WCall | WFailed _ | WWrote | WRead _ => 1 | _ => 0 end.
Definition unfound (w : worker) : Z := match w with WFound _ => 1 | _ => 0 end.
Definition unmapped (w : worker) : Z := match w with WErrMap _ => 1 | _ => 0 end.

(** The operations taken so far. *)
Definition taken (s : state) : Z :=
  writeOps s + readOps s + errorsCount s + sumZ in_flight (workers s).

Record inv (n : nat) (ops : Z) (s : state) : Prop := {
  inv_length : length (workers s) = n;
  inv_ops : opsRemaining s = ops - taken s - sumZ is_done (workers s);
  inv_le : taken s <= ops;
  inv_done : 0 < sumZ is_done (workers s) -> taken s = ops;
  inv_reads : readHits s + readMisses s + sumZ unfound (workers s) = readOps s;
  inv_errors : map_sum (errMap s) + sumZ unmapped (workers s) = errorsCount s;
  inv_counters : 0 <= writeOps s /\ 0 <= readOps s /\ 0 <= readHits s /\ 0 <= readMisses s /\
    0 <= errorsCount s;
  inv_map : map_Forall (fun _ v => 0 <= v) (errMap s)
}.

Lemma sum_done_le ws : sumZ is_done ws <= Z.of_nat (length ws).
Proof.
  induction ws as [|w ws IH]; [done|]. cbn [sumZ foldr length]. fold (sumZ is_done ws).
  destruct w; simpl is_done; lia.
Qed.

Lemma start_inv n ops c st : 0 <= ops -> inv n ops (start n ops c st).
Proof.
  intros Ho. constructor; unfold taken; cbn [start workers opsRemaining writeOps readOps readHits readMisses
    errorsCount errMap]; rewrite ?sumZ_replicate, ?length_replicate; simpl; try lia; [|done].
  change (map_sum ∅) with 0. lia.
Qed.

Lemma sums_nonneg ws :
  0 <= sumZ in_flight ws /\ 0 <= sumZ unfound ws /\ 0 <= sumZ unmapped ws /\ 0 <= sumZ is_done ws.
Proof. split_and!; apply sumZ_nonneg; intros []; simpl; lia. Qed.

(** What a step does to the sums over the workers. *)
Ltac moved H := rewrite ?length_insert, ?(sumZ_insert _ _ _ _ _ H);
  cbn [is_done in_flight unfound unmapped].

Ltac account H :=
  constructor; unfold taken; cbn [workers opsRemaining writeOps readOps readHits readMisses errorsCount errMap];
  moved H; try done; try lia.

Lemma step_inv n ops s s' :
  0 <= ops -> ops + Z.of_nat n < MaxInt64 -> inv n ops s -> step s s' -> inv n ops s'.
Proof.
  intros Ho Hb [Hlen Hops Hle Hdone Hreads Herrs Hcnt Hmap] Hstep.
  pose proof (sums_nonneg (workers s)) as Hsum. pose proof (sum_done_le (workers s)) as Hdl.
  pose proof (map_sum_nonneg _ Hmap) as Hms. unfold MaxInt64 in Hb.
  assert (forall z, 0 <= z <= ops -> u64 (z + 1) = z + 1) as Hu by (intros; apply u64_small; lia).
  unfold taken in *. destruct Hstep as [i s Hi|i clk k s Hi Hk|i t1 t2 clk k s Hi Hk|i e s Hi|i e s Hi|i s Hi
    |i b s Hi|i b s Hi].
  - unfold take_op. rewrite i64_small by (unfold MinInt64, MaxInt64; lia).
    destruct (Z.ltb_spec (opsRemaining s - 1) 0); account Hi.
  - unfold call_set. destruct (Client.Set_ _ _ _ _ _ _) as [[[e|] c] st]; account Hi.
  - unfold call_get. destruct (Client.Get _ _ _ _ _ _) as [[[e|[v b]] c] st]; account Hi.
  - unfold add_error. rewrite Hu by lia. account Hi.
  - pose proof (map_sum_lookup _ (message e) Hmap).
    assert (0 <= map_sum (errMap s) <= ops) by lia. unfold count_error.
    rewrite i64_small by (unfold MinInt64, MaxInt64; lia). account Hi.
    + rewrite map_sum_insert. moved Hi. lia.
    + apply map_Forall_insert_2; [simpl; lia|done].
  - unfold add_write. rewrite Hu by lia. account Hi.
  - unfold add_read. rewrite Hu by lia. account Hi.
  - unfold add_found. destruct b; rewrite Hu by lia; account Hi.
Qed.

Lemma steps_inv n ops s s' :
  0 <= ops -> ops + Z.of_nat n < MaxInt64 -> rtc step s s' -> inv n ops s -> inv n ops s'.
Proof. intros Ho Hb. induction 1 as [|s1 s2 s3 H12 _ IH]; [done|]. intros H. apply IH. by eapply step_inv. Qed.

(** ** Termination

    Every step uses up one of the steps that are left: four for each operation
    to be taken, the rest of its operation and its last turn for a worker. *)
Definition steps_left (w : worker) : Z :=
  match w with
  | WDone => 0
  | WTake => 1
  | WErrMap _ | WWrote | WFound _ => 2
  | WFailed _ | WRead _ => 3
  | WCall => 4
  end.

Definition measure (s : state) : Z := 4 * Z.max 0 (opsRemaining s) + sumZ steps_left (workers s).

Lemma measure_nonneg s : 0 <= measure s.
Proof.
  unfold measure. assert (0 <= sumZ steps_left (workers s)); [|lia].
  apply sumZ_nonneg. intros []; simpl; lia.
Qed.

Lemma step_measure n ops s s' :
  0 <= ops -> ops + Z.of_nat n < MaxInt64 -> inv n ops s -> step s s' -> measure s' < measure s.
Proof.
  intros Ho Hb Hinv Hstep.
  assert (MinInt64 <= opsRemaining s - 1 <= MaxInt64) as Hr.
  { destruct Hinv as [Hlen Hops Hle Hdone Hreads Herrs Hcnt Hmap]. unfold taken in *.
    pose proof (sums_nonneg (workers s)). pose proof (sum_done_le (workers s)).
    unfold MinInt64, MaxInt64 in *. lia. }
  unfold measure. destruct Hstep as [i s Hi|i clk k s Hi Hk|i t1 t2 clk k s Hi Hk|i e s Hi|i e s Hi|i s Hi
    |i b s Hi|i b s Hi].
  - unfold take_op. rewrite i64_small by done. cbn [workers opsRemaining].
    rewrite (sumZ_insert _ _ _ _ _ Hi). destruct (Z.ltb_spec (opsRemaining s - 1) 0); simpl steps_left; lia.
  - unfold call_set. destruct (Client.Set_ _ _ _ _ _ _) as [[[e|] c] st]; cbn [workers opsRemaining];
      rewrite (sumZ_insert _ _ _ _ _ Hi); simpl steps_left; lia.
  - unfold call_get. destruct (Client.Get _ _ _ _ _ _) as [[[e|[v b]] c] st]; cbn [workers opsRemaining];
      rewrite (sumZ_insert _ _ _ _ _ Hi); simpl steps_left; lia.
  - cbn [workers opsRemaining add_error]. rewrite (sumZ_insert _ _ _ _ _ Hi). simpl steps_left. lia.
  - cbn [workers opsRemaining count_error]. rewrite (sumZ_insert _ _ _ _ _ Hi). simpl steps_left. lia.
  - cbn [workers opsRemaining add_write]. rewrite (sumZ_insert _ _ _ _ _ Hi). simpl steps_left. lia.
  - cbn [workers opsRemaining add_read]. rewrite (sumZ_insert _ _ _ _ _ Hi). simpl steps_left. lia.
  - cbn [workers opsRemaining add_found]. rewrite (sumZ_insert _ _ _ _ _ Hi). simpl steps_left. lia.
Qed.

(** No worker ever waits for another. *)
Lemma step_progress s : finished s \/ exists s', step s s'.
Proof.
  destruct (decide (Forall (eq WDone) (workers s))) as [H|H]; [by left|right].
  apply not_Forall_Exists in H; [|apply _]. apply Exists_exists in H as (w & Hw & Hne).
  apply list_elem_of_lookup_1 in Hw as [i Hi].
  destruct w as [| |e|e| |b|b|]; [|exists (call_set i (fun _ _ => 0) (load_key 0) s); by apply step_set|..|done];
    eexists; by econstructor.
Qed.

Lemma finished_sums s :
  finished s -> sumZ in_flight (workers s) = 0 /\ sumZ unfound (workers s) = 0 /\
    sumZ unmapped (workers s) = 0 /\ sumZ is_done (workers s) = Z.of_nat (length (workers s)).
Proof.
  unfold finished. induction 1 as [|w ws <- _ (? & ? & ? & ?)]; [done|].
  cbn [sumZ foldr length is_done in_flight unfound unmapped] in *. unfold sumZ in *. split_and!; lia.
Qed.

(** Any run can be completed. *)
Lemma completes n ops s :
  0 <= ops -> ops + Z.of_nat n < MaxInt64 -> inv n ops s -> exists s', rtc step s s' /\ finished s'.
Proof.
  intros Ho Hb. remember (Z.to_nat (measure s)) as m eqn:Hm. revert s Hm.
  induction m as [m IH] using lt_wf_ind. intros s -> Hinv.
  destruct (step_progress s) as [Hf|[s1 Hs]]; [by exists s|].
  pose proof (step_measure n ops s s1 Ho Hb Hinv Hs). pose proof (measure_nonneg s1).
  destruct (IH (Z.to_nat (measure s1)) ltac:(lia) s1 eq_refl) as (s' & Hr & Hf);
    [by eapply step_inv|]. exists s'. split; [by eapply rtc_l|done].
Qed.
End loadtest.

(** ** Properties *)

(** C13: the report of the load test adds up, however the workers interleave and
    whatever the cluster answers: when all workers have returned, the
    operations it counts as written, read or failed are exactly the operations
    it was given, none twice and none lost, the reads are the hits and the
    misses, and the error breakdown sums up to the number of errors. *)
Theorem loadtest_accounts `{!CacheService St} (message : client_error -> string) (c : Client) (st : St)
    (s : state) :
  rtc (step message) (start numWorkers totalOps c st) s -> finished s ->
  total s = totalOps /\ writeOps s + readOps s + errorsCount s = totalOps /\
  readHits s + readMisses s = readOps s /\ map_sum (errMap s) = errorsCount s.
Proof.
  intros Hs Hf.
  assert (inv numWorkers totalOps s) as [Hlen _ _ Hdone Hreads Herrs Hcnt _].
  { eapply steps_inv; [| |exact Hs|apply start_inv]; done. }
  destruct (finished_sums s Hf) as (H1 & H2 & H3 & H4). rewrite Hlen in H4.
  unfold taken in Hdone. specialize (Hdone ltac:(by rewrite H4)).
  rewrite H1 in Hdone. rewrite H2 in Hreads. rewrite H3 in Herrs. unfold total.
  assert (totalOps < 2 ^ 64) by done.
  rewrite (u64_small (writeOps s + readOps s)), u64_small by lia. lia.
Qed.

(** C31: the load test ends: no schedule of its workers has more than four steps
    per operation and one per worker, as long as one of them has not returned
    some worker can move, and from every state on the way all of them return. *)
Theorem loadtest_terminates `{!CacheService St} (message : client_error -> string) (c : Client) (st : St)
    (s : state) (k : nat) :
  nsteps (step message) k (start numWorkers totalOps c st) s ->
  Z.of_nat k <= 4 * totalOps + Z.of_nat numWorkers /\ (finished s \/ exists s', step message s s') /\
  exists s', rtc (step message) s s' /\ finished s'.
Proof.
  intros Hk. split; [|split; [apply step_progress|]].
  2: { apply (completes message numWorkers totalOps s); [done|done|].
       eapply steps_inv; [| |by eapply rtc_nsteps_2|apply start_inv]; done. }
  assert (measure (start numWorkers totalOps c st) = 4 * totalOps + Z.of_nat numWorkers) as Hm.
  { unfold measure. cbn [start workers opsRemaining]. rewrite sumZ_replicate. simpl steps_left.
    unfold totalOps. lia. }
  rewrite <- Hm. assert (inv numWorkers totalOps (start numWorkers totalOps c st)) as Hinv by by apply start_inv.
  clear Hm. revert Hinv. induction Hk as [s|k s1 s2 s3 H12 _ IH]; intros Hinv; [apply measure_nonneg|].
  pose proof (step_measure message numWorkers totalOps s1 s2 ltac:(done) ltac:(done) Hinv H12).
  specialize (IH ltac:(by eapply step_inv; [..|exact Hinv|exact H12])). lia.
Qed.

Lemma loadtest_accounts_witness :
  exists s : state, rtc (@step cluster demo_service (fun _ => "error")) (start numWorkers totalOps demo_c demo_cluster) s /\
    finished s /\ total s = totalOps.
Proof.
  destruct (@completes cluster demo_service (fun _ => "error") numWorkers totalOps
    (start numWorkers totalOps demo_c demo_cluster)) as (s & Hr & Hf).
  - discriminate.
  - reflexivity.
  - apply start_inv. discriminate.
  - exists s. split; [exact Hr|]. split; [exact Hf|].
    apply (@loadtest_accounts cluster demo_service (fun _ => "error") demo_c demo_cluster s Hr Hf).
Defined.

Lemma loadtest_terminates_witness :
  exists s' : state, rtc (@step cluster demo_service (fun _ => "error"))
    (take_op 0 (start numWorkers totalOps demo_c demo_cluster)) s' /\ finished s'.
Proof.
  apply (@loadtest_terminates cluster demo_service (fun _ => "error") demo_c demo_cluster
    (take_op 0 (start numWorkers totalOps demo_c demo_cluster)) 1).
  apply nsteps_once. apply step_take. reflexivity.
Defined.
